(* ===== verification/_CoqProject ===== *)
-Q . S2P
Prelude.v
GoLib.v
GoText.v
GoURL.v
GoJson.v
GoFile.v
GoFloat.v
GoQuote.v
HttpSigBase.v
HttpSigVerify.v
HttpSigAlg.v
Dpop.v
Pkce.v
WebPush.v
SshSocks.v
SshKnownHosts.v
SshConfig.v
SshClient.v
SshCommand.v
SshSftp.v
SshStream.v
SshCA.v
SshTunnel.v
SshTransfer.v
GrpcWire.v
GrpcClient.v
GrpcCalls.v
CodeGen.v
SocketIOPacket.v
SocketIOConn.v
SocketIODial.v
SocketIOWire.v
WebTransportCapsule.v
WebTransportSession.v
WebTransportControl.v
WebTransportOpen.v
WebTransportRaces.v
WebTransportDial.v
Extract.v
ExtractRegex.v
Unescape.v
SocketFrame.v
SocketConnector.v
SocketReconnect.v
SocketCipher.v
SocketDispatcher.v
SocketRequests.v
SocketProcessor.v
SocketSession.v
SocketTraffic.v
OtelContext.v
OtelCarrier.v
OtelSpan.v
OtelTracer.v
OtelExporter.v
BufferPools.v
OtelOtlp.v
OtelMiddleware.v
SqlCookie.v
Raptor.v
Tun.v
GeoIP.v
