(* ===== verification/Prelude.v ===== *)
(** * aoni-contrib: a verification development

    aoni-contrib is a collection of Go packages around the aoni HTTP client.
    This library models, as executable Rocq definitions and step relations, the
    packages that carry protocol logic of their own, and proves what makes them
    correct, together with the behaviours in which the code does not do what it
    means to.

    ** The parts and the files

    - [Prelude] (this file): results of fallible functions ([result]), functions
      that may panic ([outcome]), bytes, the tactics [lens] and [bools], and
      generic list lemmas.
    - [GoLib]: the parts of the Go standard library the code uses (bytes,
      strings, strconv, encoding/binary, unicode/utf8), with their
      specifications.
    - [GoText], [GoURL], [GoJson], [GoFile], [GoFloat], [GoQuote]: more of the
      standard library: trimming, case, base64, escapes, times and header keys;
      net/url; encoding/json as values, a writer and a reader with their round
      trip; paths, fields and lines; 64-bit floating-point numbers and their
      conversions; strconv.Quote.
    - [HttpSigBase], [HttpSigVerify], [HttpSigAlg] (src/auth/httpsig): component
      identifiers and signature bases, signing and verification of messages, and
      the algorithms with Content-Digest.  The primitives are the interface
      [Crypto] with the laws [CryptoLaws].
    - [Dpop] (src/auth/dpop): keys as JSON Web Keys, thumbprints, proofs.  [Pkce]
      (src/auth/pkce): verifiers, challenges, redirect matching.  [WebPush]
      (src/webpush): record encryption, VAPID tokens, delivery.
    - [GrpcWire], [GrpcClient], [GrpcCalls] (src/grpc): frames, timeouts,
      metadata and status; unary, streaming, client-streaming and dynamic calls
      over an HTTP client as an argument.  [CodeGen] (src/cmd/protoc-gen-aoni):
      the text of generated clients, and what it means over an imported package
      grpc given as a parameter.
    - [SshKnownHosts], [SshConfig], [SshClient] (src/ssh/utils.go, config.go,
      options.go, client.go): the cache of host key callbacks over files with
      modification times; configuration files; options, [New], [Dial] and
      [NewClientFromConfig].  [SshCommand] (client.go, streamlocal.go): commands,
      streams, dialing and the life cycle of a client.  [SshSocks] (socks5.go):
      the SOCKS5 server.  [SshSftp] (src/ssh/sftp): parallel transfers as a step
      relation, and SCP.  [SshStream] (client.go): the two readers of a streamed
      command, their channels and the wait for the command as interleaved steps,
      and transfers of one file.  [SshCA] (src/ssh/ca): certificates, serial
      numbers, OIDC tokens.  [SshTunnel] (src/ssh/agent, src/ssh/reverse): the
      agent, the reconnecting loop of a reverse tunnel, and its copying pipes.
      [SshTransfer] (src/ssh/sftp, socks5.go, streamlocal.go): transfers of one
      file with a client of their own, what a receiver reads from an SCP stream,
      and a SOCKS5 connection from the listener to its copying goroutines.
    - [SocketIOPacket] (src/socketio/packet.go): the Socket.IO packet codec, the
      Engine.IO frames, binary attachments and their reassembly.  JSON is the
      interface [JSON] with its laws.
    - [SocketIOConn] (src/socketio/client.go, engineio.go, reconnect.go): the
      connection state as the record [Conn], one definition per handler, the
      effects of a handler as a list, and a system [sys] of one connection and
      its goroutines (read loop, heartbeats, reconnect loops, callers) with the
      step relation [sys_step].  The state machine, the acknowledgement table
      and [Coalesce] of the foundation module are the interface [Foundation].
      [SocketIOWire]: the namespace wrappers, and two ends joined: the messages
      one writes are the messages the other reads.  [SocketIODial]:
      [DialSocketIO], and the address a reconnect loop finds while the dialing
      goroutine still stores it.
    - [WebTransportCapsule] (src/webtransport/capsule.go, constants.go,
      errors.go): capsules written into a caller's buffer under Go's slice
      bounds.  QUIC varints are the interface [Varint]; [RFC9000] is the
      instance.
    - [WebTransportSession] (src/webtransport/stream.go, session.go and the
      dispatcher of dial.go): streams, sessions with their queues, the control
      loop on the bytes of the control stream, and routing of incoming streams
      and datagrams.  [WebTransportControl] (session.go): the writes of [Drain]
      and [CloseWithError] to the control stream as steps of goroutines of their
      own.  [WebTransportDial] (dial.go): options, the bytes of the
      handshake, the response, and the loops of the dispatcher.
    - [WebTransportRaces]: the same session and stream code at the granularity
      of locks and atomics: delivery against close ([Delivery]) and concurrent
      first writes ([Writers]).  [WebTransportOpen]: a send stream over the calls
      it makes on its raw stream, and calls that open streams while others drain
      and close the session.
    - [Extract] and [Unescape] (src/extract/extract.go, unescape.go): text
      between boundaries, HTML attributes, the iterators with their consumer as
      an argument, and HTML entity decoding.  [ExtractRegex]: the functions over
      regular expressions, for any package regexp of the documented shape.
    - [SocketFrame] (src/socket/frame.go and the connection wrapper of
      src/socket/connector/connector.go): frame buffers, the length-prefixed
      framer, encryption as the interface [Cipher].
    - [SocketConnector] (src/socket/connector/connector.go): every goroutine of
      the reconnecting connector as a thread, and the delays between attempts.
      [SocketCipher]: the accessors, the waiting helper, and which cipher a
      connection uses.  [SocketTraffic]: the two writes of a frame by several
      senders, and the read loops that share the channel of received frames.
      [SocketReconnect]: the callback after a reconnect.
    - [SocketDispatcher] (src/socket/dispatcher/dispatcher.go): handler tables,
      routing, synchronous requests over the interface [TaskManager].
      [SocketRequests]: concurrent requests, packets and [Close] as interleaved
      steps.
      [SocketProcessor] (src/socket/processor/processor.go): the pool of workers
      with [Start] and [Stop].  [SocketSession] (src/socket/session/session.go):
      the atomic holders.
    - [OtelContext] (src/otel/w3c.go, carrier.go): trace contexts, their headers
      and their way through a carrier.  [OtelCarrier]: the carriers of the package
      as implementations of that interface, and fresh identifiers.  [OtelSpan]
      (src/otel/span.go, tracer.go): spans with the identity of pooled objects,
      samplers and [Start].  [OtelTracer]:
      the ratio of a sampler in floating point, options, and contexts that keep
      pointers to spans.
    - [OtelExporter] (src/otel/exporter.go): the memory exporter, the OTLP
      payload as text and as JSON, and the queue of the exporter with its worker
      and [Shutdown] as a step relation ([Queue]).  [OtelOtlp]: the options and
      the requests of a run, from the queue to the collector.
    - [BufferPools] (src/auth/httpsig/base.go, src/otel/exporter.go,
      src/webtransport/session.go): the pools of string builders and buffers, as
      objects that point to arrays of a memory all goroutines share.
    - [OtelMiddleware] (src/otel/middleware.go, options.go, semconv.go): a traced
      request as a function of the rest of the chain, the options and the
      attributes of requests, responses and gRPC calls.
    - [SqlCookie] (src/sqlcookie): the cookie store over a database given as a
      class.  [Raptor] (src/raptor): the RaptorQ wrapper of datagrams.  [Tun]
      (src/tunnel/tun): the Wintun adapter as goroutines over the calls of its
      driver, and the adapters of Linux and macOS.  [GeoIP] (src/geoip).

    The packages call each other little: the processor and the connector use the
    framer, DPoP and web push the cryptography of the signature algorithms, the
    exporter and the middleware the spans, the SSH client its known hosts and
    configuration, the generated clients the calls of a package grpc; each
    group of files can be read alone after [Prelude] and the Go library files.

    ** What the theorems show

    - Round trips: Socket.IO packets and binary attachments; Engine.IO frames;
      CLOSE capsules; stream headers and datagrams between two sessions; framed,
      encrypted connections; trace contexts through a carrier; signature
      parameters; messages signed and verified; DPoP proofs; web push messages;
      gRPC frames; SSH configurations; SCP paths and streams; and end to end:
      for every sequence of events the packet format can carry that one
      Socket.IO end emits, the other end runs the handlers of these events with
      their arguments and attachments.
    - Invariants over all interleavings: the life cycle of a Socket.IO
      connection and the finality of its close; what reaches the control
      stream of a WebTransport session; no send on a closed channel; ownership of connections, one dial
      and one reconnect loop in the connector; the span pool; bidirectional gRPC
      streams; closing an SSH client; what the known-hosts cache may answer; the
      buffers of a pool of workers; frames of successive connections; the order
      in which a driver may be used; serial numbers; the cipher in use;
      concurrent requests and their answers; one callback per reconnect.
    - Completeness and termination: parallel transfers under every
      interleaving; the order and bounds of what the exporter sends; workers
      that drain a closed channel; streams of a command.
    - Refinements: the cookie store of a map from keys to cookies, generated
      text of calls to the methods of its services, a run of the exporter of the
      spans its queue accepted.
    - Security: what an accepted signature, digest or DPoP proof implies; an SSH
      client has checked the host key unless an option turns it off; what a
      certificate issued for a token says.
    - Equivalences: thumbprint texts and the OTLP payload with the rendering of
      their JSON; the entity scanner with the relation [unescapes]; texts built
      in pooled buffers with those built in buffers of their own.
    - Functional specifications: entity decoding against the relation
      [unescapes], [BetweenAll] and [AttrsAll] against [segments] and
      [attr_values], routing of packets, numeric entities, error codes; what a
      traced request returns, sends and records.
    - Bounds: sizes of decoded packets and messages, machine words in parsing,
      the size of the CLOSE buffer.
    - Behaviours that are not intended, each a theorem about the definitions:
      a ping timeout that prevents the reconnection it should cause, a close
      undone by a dial in progress, a second heartbeat after a reconnection,
      binary acknowledgements that resolve nothing, a close that panics on a long
      reason, a peer's error that is overwritten, a close that waits for ever
      behind a full queue, a stream header that is not first on the wire, a
      disconnect that reconnects, a reconnection that is lost, a refused job that
      cancels another, an attribute name matched as a suffix, a traceparent
      version that is not checked, a recycled span ended through an old
      handle, an exporter closed twice, required signature parameters that are
      not looked at, a gRPC status hidden by an empty answer, a failed
      gRPC call traced as successful, data lost behind a SOCKS5 request, an
      interpreter that is never used, and a cancelled
      transfer that reports success; certificates for forged tokens, host
      options that are dropped, a tunnel that dials again at once, an end of the
      answer that is not passed on, a QUIC connection left open, a transport
      error reported to one call, a buffer repaired after it was reused, a
      handler that waits for its own pool, workers started after the stop,
      packets out of order, attachments exchanged by concurrent emits, frames
      mixed by concurrent senders, a frame of a replaced connection, a cipher
      lost to a dial, children that lose the trace of their parent, a stream
      that stalls behind a full channel, an error status of a client stream that
      is not read, one constant for two methods, a driver used after its
      session has ended, a request that waits on a closed dispatcher, a stream
      opened after the session was drained, data of a growing file taken for
      further files, a redial without an address, a callback for a
      connection that is closed, a DRAIN capsule behind the CLOSE capsule, an
      edit of the known hosts that keeps the modification time and is not seen,
      and a request body that ends inside a frame.

    ** Modelling choices

    Go strings and byte slices are lists of bytes; integers are [Z] with the
    wrap-around of their width written out where it can occur; an index of -1 or
    a nil pointer is [None].  A function that can fail returns [result], one that
    can panic [outcome]; state is passed explicitly.  A [select] takes the branch
    to be followed as an argument.  Goroutines are threads of a step relation
    whose steps are critical sections, atomic operations and calls of the
    environment.  Code outside the repository is an argument: a class of
    operations and a class of the laws the code relies on, with a concrete
    instance at the end of the file that uses it.

    Loops whose recursion is not structural take fuel, and the definitions give
    them enough: [controlLoop] one more than the bytes of the stream (every
    capsule takes at least two), [AppendUnescape], [BetweenAll] and [AttrsAll]
    one more than the bytes of the source (every round moves the cursor).  The
    theorems about them state that they return.

    ** Not modelled

    TLS, QUIC, QPACK, the SSH protocol and SFTP library, the database reader of
    GeoIP, the SQL driver, the Wintun driver, system calls, regular expressions,
    protogen and the cryptographic primitives are I/O or libraries: each is an
    argument.  The examples and the driver of the fuzz tests are programs that
    call the packages.  Within the modelled packages: the QUIC configuration of a
    dial, TCP options of SSH connections, the flags of the protoc plugin, the
    options of protojson, and accessors that return one field. *)

From Stdlib Require Export Strings.Byte NArith ZArith Lia.
From stdpp Require Export base list numbers countable option strings sets gmap.


#[local] Open Scope Z_scope.

(** ** Results of fallible Go functions: a value or an error *)

Inductive result (E A : Type) : Type :=
| Ok (a : A)
| Err (e : E).
Arguments Ok {_ _} _.
Arguments Err {_ _} _.

#[export] Instance result_ret {E} : MRet (result E) := λ A a, Ok a.
#[export] Instance result_bind {E} : MBind (result E) := λ A B f m,
  match m with Ok a => f a | Err e => Err e end.
#[export] Instance result_fmap {E} : FMap (result E) := λ A B f m,
  match m with Ok a => Ok (f a) | Err e => Err e end.

(** A computation that may also panic (index or slice bounds out of range). *)
Inductive outcome (A : Type) : Type :=
| Done (a : A)
| Panic.
Arguments Done {_} _.
Arguments Panic {_}.

#[export] Instance outcome_ret : MRet outcome := λ A a, Done a.
#[export] Instance outcome_bind : MBind outcome := λ A B f m,
  match m with Done a => f a | Panic => Panic end.

(** A fallible function that may also panic: the first error or panic ends it. *)
Definition try_bind {E A B} (m : outcome (result E A)) (f : A → outcome (result E B)) : outcome (result E B) :=
  match m with
  | Done (Ok a) => f a
  | Done (Err e) => Done (Err e)
  | Panic => Panic
  end.
Notation "x ←! m ; k" := (try_bind m (λ x, k)) (at level 20, m at level 100, k at level 200, right associativity).
Notation "' x ←! m ; k" := (try_bind m (λ ' x, k))
  (at level 20, x pattern, m at level 100, k at level 200, right associativity).

Lemma Done_Ok_inj {E A} (x y : A) : (Done (Ok x) : outcome (result E A)) = Done (Ok y) → x = y.
Proof. congruence. Qed.

(** ** Bytes

    A Go [byte] is [Byte.byte]; [bz] and [zb] are the conversions [uint64(b)]
    and [byte(z)], the second truncating modulo 256.  Go strings are byte
    sequences, so [string] and [[]byte] are both [bytes]. *)

Definition bytes : Type := list byte.

Definition bz (c : byte) : Z := Z.of_N (Byte.to_N c).

Definition zb (z : Z) : byte :=
  match Byte.of_N (Z.to_N (z mod 256)) with
  | Some c => c
  | None => x00
  end.

(** [str "abc"] is the Go string literal. *)
Definition str (s : String.string) : bytes := String.list_byte_of_string s.
Arguments str s%_string.

#[export] Instance byte_eq_dec : EqDecision byte := Byte.byte_eq_dec.

Definition byte_of_N (n : N) : byte :=
  match Byte.of_N n with Some c => c | None => x00 end.

Lemma byte_of_to_N c : byte_of_N (Byte.to_N c) = c.
Proof. unfold byte_of_N. by rewrite Byte.of_to_N. Qed.

#[export] Instance byte_countable : Countable byte :=
  inj_countable' Byte.to_N byte_of_N byte_of_to_N.

Lemma bz_range c : 0 <= bz c < 256.
Proof.
  unfold bz. pose proof (Byte.to_N_bounded c). lia.
Qed.

Lemma zb_bz c : zb (bz c) = c.
Proof.
  unfold zb. pose proof (bz_range c).
  rewrite Z.mod_small by lia. unfold bz. by rewrite N2Z.id, Byte.of_to_N.
Qed.

Lemma bz_zb z : bz (zb z) = z mod 256.
Proof.
  unfold zb. pose proof (Z.mod_pos_bound z 256 ltac:(lia)) as Hr.
  destruct (Byte.of_N _) as [c|] eqn:E.
  - apply Byte.to_of_N in E. unfold bz. rewrite E. lia.
  - apply Byte.of_N_None_iff in E. lia.
Qed.

Lemma bz_zb_small z : 0 <= z < 256 → bz (zb z) = z.
Proof. intros. rewrite bz_zb. by apply Z.mod_small. Qed.

Lemma bz_inj c d : bz c = bz d → c = d.
Proof. intros H. by rewrite <- (zb_bz c), <- (zb_bz d), H. Qed.

(** Boolean byte tests, as the Go comparisons [c == d] and [lo <= c && c <= hi]. *)
Definition beq (c d : byte) : bool := Byte.eqb c d.
Definition between (lo hi c : byte) : bool := (bz lo <=? bz c) && (bz c <=? bz hi).
Infix "=b" := beq (at level 70, no associativity).

Lemma beq_true c d : (c =b d) = true ↔ c = d.
Proof.
  unfold beq. split.
  - destruct (Byte.eqb c d) eqn:E; [|done]. intros _. by apply Byte.byte_dec_bl.
  - intros ->. by apply Byte.byte_dec_lb.
Qed.

Lemma beq_false c d : (c =b d) = false ↔ c ≠ d.
Proof. rewrite <- not_true_iff_false, beq_true. done. Qed.

Lemma beq_refl c : (c =b c) = true.
Proof. by apply beq_true. Qed.

Definition bytes_eqb (s t : bytes) : bool := bool_decide (s = t).

Lemma bytes_eqb_true s t : bytes_eqb s t = true ↔ s = t.
Proof. apply bool_decide_eq_true. Qed.

Lemma bytes_eqb_false s t : bytes_eqb s t = false ↔ s ≠ t.
Proof. apply bool_decide_eq_false. Qed.

(** ** Automation *)

Create HintDb go.
Create Rewrite HintDb golen.
Create Rewrite HintDb golist.

#[export] Hint Rewrite @length_app @length_cons @length_nil @length_take
  @length_drop @length_replicate @length_fmap : golen.

(** Normalise list lengths, then linear arithmetic. *)
Ltac lens := autorewrite with golen in *; simpl length in *; lia.

(** Case analysis on the scrutinee of a match or an if in the goal or in [H]. *)
Ltac case_match_in H :=
  match type of H with
  | context [ match ?x with _ => _ end ] => destruct x eqn:?
  end.

(** Turn boolean hypotheses into propositions. *)
Ltac bools :=
  repeat match goal with
  | H : andb _ _ = true |- _ => apply andb_true_iff in H; destruct H
  | H : orb _ _ = false |- _ => apply orb_false_iff in H; destruct H
  | H : negb _ = true |- _ => apply negb_true_iff in H
  | H : negb _ = false |- _ => apply negb_false_iff in H
  | H : (_ =b _) = true |- _ => apply beq_true in H
  | H : (_ =b _) = false |- _ => apply beq_false in H
  | H : bytes_eqb _ _ = true |- _ => apply bytes_eqb_true in H
  | H : bytes_eqb _ _ = false |- _ => apply bytes_eqb_false in H
  | H : bool_decide _ = true |- _ => apply bool_decide_eq_true in H
  | H : bool_decide _ = false |- _ => apply bool_decide_eq_false in H
  | H : (_ <=? _) = true |- _ => apply Z.leb_le in H
  | H : (_ <=? _) = false |- _ => apply Z.leb_gt in H
  | H : (_ <? _) = true |- _ => apply Z.ltb_lt in H
  | H : (_ <? _) = false |- _ => apply Z.ltb_ge in H
  | H : (_ =? _) = true |- _ => apply Z.eqb_eq in H
  | H : (_ =? _) = false |- _ => apply Z.eqb_neq in H
  | H : (_ <=? _)%nat = true |- _ => apply Nat.leb_le in H
  | H : (_ <=? _)%nat = false |- _ => apply Nat.leb_gt in H
  | H : (_ <? _)%nat = true |- _ => apply Nat.ltb_lt in H
  | H : (_ <? _)%nat = false |- _ => apply Nat.ltb_ge in H
  | H : (_ =? _)%nat = true |- _ => apply Nat.eqb_eq in H
  | H : (_ =? _)%nat = false |- _ => apply Nat.eqb_neq in H
  end.

(** ** Generic list lemmas *)

Lemma take_app_exact {A} (l k : list A) : take (length l) (l ++ k) = l.
Proof. by rewrite take_app_length. Qed.

Lemma drop_app_exact {A} (l k : list A) : drop (length l) (l ++ k) = k.
Proof. by rewrite drop_app_length. Qed.

Lemma drop_app_cons {A} (l k : list A) x : drop (S (length l)) (l ++ x :: k) = k.
Proof. induction l; [done|]. simpl. done. Qed.

#[export] Hint Rewrite @take_app_exact @drop_app_exact @app_nil_r : golist.

(** The longest prefix of [s] whose bytes satisfy [p], and the rest: the Go
    idiom [for i < len(data) && p(data[i]) { i++ }]. *)
Fixpoint span {A} (p : A → bool) (s : list A) : list A * list A :=
  match s with
  | [] => ([], [])
  | c :: s' => if p c then let '(u, v) := span p s' in (c :: u, v) else ([], s)
  end.

Lemma span_app {A} (p : A → bool) s : (span p s).1 ++ (span p s).2 = s.
Proof.
  induction s as [|c s IH]; simpl; [done|].
  destruct (p c); [|done]. destruct (span p s). simpl in *. by rewrite IH.
Qed.

Lemma span_all {A} (p : A → bool) s : Forall (λ c, p c = true) (span p s).1.
Proof.
  induction s as [|c s IH]; simpl; [constructor|].
  destruct (p c) eqn:E; [|constructor]. destruct (span p s). by constructor.
Qed.

Lemma span_stop {A} (p : A → bool) s c t : (span p s).2 = c :: t → p c = false.
Proof.
  induction s as [|d s IH]; simpl; [done|].
  destruct (p d) eqn:E.
  - destruct (span p s). exact IH.
  - simpl. congruence.
Qed.

(** A run of [p]-bytes followed by a stop byte (or the end) splits there. *)
Lemma span_spec {A} (p : A → bool) u v :
  Forall (λ c, p c = true) u → (∀ c t, v = c :: t → p c = false) →
  span p (u ++ v) = (u, v).
Proof.
  intros Hu Hv. induction Hu as [|c u Hc Hu IH]; simpl.
  - destruct v as [|c t]; simpl; [done|]. by rewrite (Hv c t).
  - by rewrite Hc, IH.
Qed.

Lemma span_length {A} (p : A → bool) s :
  (length (span p s).1 + length (span p s).2 = length s)%nat.
Proof. rewrite <- (span_app p s) at 3. by rewrite length_app. Qed.

(** ** Updating one element of a list, as one goroutine of many moves *)

Lemma lookup_insert_cases {A} (l : list A) i j x y :
  <[i := x]> l !! j = Some y → (i = j ∧ y = x) ∨ (i ≠ j ∧ l !! j = Some y).
Proof. intros H. apply list_lookup_insert_Some in H as [(-> & -> & _)|]; auto. Qed.

Lemma omap_insert {A B} (f : A → option B) (l : list A) i x y :
  l !! i = Some x →
  omap f (<[i := y]> l) ++ option_list (f x) ≡ₚ option_list (f y) ++ omap f l.
Proof.
  intros Hi. assert (i < length l)%nat by (by eapply lookup_lt_Some).
  rewrite <- (take_drop_middle l i x Hi) at 2. rewrite insert_take_drop by done.
  rewrite !omap_app. simpl. destruct (f x), (f y); simpl; solve_Permutation.
Qed.

Lemma omap_insert_length {A B} (f : A → option B) (l : list A) i x y :
  l !! i = Some x →
  (length (omap f (<[i := y]> l)) + length (option_list (f x)) =
   length (option_list (f y)) + length (omap f l))%nat.
Proof. intros Hi. by rewrite <- !length_app, (omap_insert f l i x y Hi). Qed.

Lemma sum_list_insert {A} (f : A → nat) (l : list A) i x y : l !! i = Some x →
  (sum_list_with f (<[i := y]> l) + f x = sum_list_with f l + f y)%nat.
Proof.
  revert i. induction l as [|z l IH]; intros [|i] Hi; simpl in *; try done.
  - injection Hi as ->. lia.
  - specialize (IH i Hi). lia.
Qed.

Lemma sum_list_lookup {A} (f : A → nat) (l : list A) i x : l !! i = Some x → (f x <= sum_list_with f l)%nat.
Proof.
  revert i. induction l as [|z l IH]; intros [|i] Hi; simpl in *; try done.
  - injection Hi as ->. lia.
  - specialize (IH i Hi). lia.
Qed.

(** A property of some element survives the change of another one. *)
Lemma Exists_insert_app {A} (P : A → Prop) (l k : list A) i x y :
  Exists P l → l !! i = Some x → Exists P (<[i := y]> l ++ k) ∨ P x.
Proof.
  intros [z [Hz HP]]%Exists_exists Hi. apply list_elem_of_lookup in Hz as [j Hj].
  destruct (decide (i = j)) as [->|Hne]; [right; congruence|left].
  apply Exists_app. left. apply Exists_exists. exists z. split; [|done].
  apply list_elem_of_lookup. exists j. by rewrite list_lookup_insert_ne.
Qed.

Lemma Exists_insert_here {A} (P : A → Prop) (l k : list A) i x y :
  l !! i = Some x → P y → Exists P (<[i := y]> l ++ k).
Proof.
  intros Hi HP. apply Exists_app. left. apply Exists_exists. exists y. split; [|done].
  apply list_elem_of_lookup. exists i. apply list_lookup_insert_eq. by eapply lookup_lt_Some.
Qed.

(** Elements with the same unique label are the same element. *)
Lemma omap_NoDup_lookup {A B} (f : A → option B) (l : list A) i j x y b :
  NoDup (omap f l) → l !! i = Some x → l !! j = Some y → f x = Some b → f y = Some b → i = j.
Proof.
  revert i j. induction l as [|z l IH]; intros i j Hnd Hi Hj Hx Hy; [done|].
  assert (Hin : ∀ k w, l !! k = Some w → f w = Some b → b ∈ omap f l).
  { intros k w Hk Hw. apply list_elem_of_omap. exists w. split; [|done]. by eapply list_elem_of_lookup_2. }
  destruct i as [|i], j as [|j]; simpl in *; [done| | |].
  - injection Hi as ->. rewrite Hx in Hnd. apply NoDup_cons in Hnd as [Hn _]. by destruct Hn; eapply Hin.
  - injection Hj as ->. rewrite Hy in Hnd. apply NoDup_cons in Hnd as [Hn _]. by destruct Hn; eapply Hin.
  - f_equal. apply IH; [|done..]. destruct (f z); [|done]. by apply NoDup_cons in Hnd as [_ ?].
Qed.
