(* ===== verification/GoLib.v ===== *)
(** * The parts of the Go standard library the repository relies on

    [bytes] and [strings] searching, cutting and trimming; [strconv] decimal
    printing and parsing at their machine widths; [encoding/binary] 32-bit
    integers; [unicode/utf8] validation and rune encoding.  Each definition
    follows the documented behaviour of the Go function it is named after;
    an index of -1 is [None]. *)

From S2P Require Import Prelude.

#[local] Open Scope Z_scope.

(** ** bytes and strings *)

Fixpoint HasPrefix (s p : bytes) {struct p} : bool :=
  match p, s with
  | [], _ => true
  | _ :: _, [] => false
  | c :: p', d :: s' => (c =b d) && HasPrefix s' p'
  end.

Definition HasSuffix (s p : bytes) : bool := HasPrefix (rev s) (rev p).

(** [bytes.Index]: the first position at which [p] occurs. *)
Fixpoint Index (s p : bytes) : option nat :=
  if HasPrefix s p then Some 0%nat else
  match s with
  | [] => None
  | _ :: s' => S <$> Index s' p
  end.

Fixpoint IndexByte (s : bytes) (c : byte) : option nat :=
  match s with
  | [] => None
  | d :: s' => if d =b c then Some 0%nat else S <$> IndexByte s' c
  end.

Fixpoint LastIndexByte (s : bytes) (c : byte) : option nat :=
  match s with
  | [] => None
  | d :: s' =>
      match LastIndexByte s' c with
      | Some i => Some (S i)
      | None => if d =b c then Some 0%nat else None
      end
  end.

(** [bytes.Cut]: the text before and after the first [sep]. *)
Definition Cut (s sep : bytes) : option (bytes * bytes) :=
  i ← Index s sep; Some (take i s, drop (i + length sep) s).

Lemma HasPrefix_spec s p : HasPrefix s p = true ↔ ∃ t, s = p ++ t.
Proof.
  revert s. induction p as [|c p IH]; intros s; simpl.
  - split; [intros _; by exists s|done].
  - destruct s as [|d s]; simpl.
    + split; [done|]. by intros [t Ht].
    + rewrite andb_true_iff, beq_true, IH. split.
      * intros [-> [t ->]]. by exists t.
      * intros [t [= -> ->]]. eauto.
Qed.

Lemma HasPrefix_app p t : HasPrefix (p ++ t) p = true.
Proof. apply HasPrefix_spec. eauto. Qed.

Lemma HasPrefix_length s p : HasPrefix s p = true → (length p <= length s)%nat.
Proof. intros [t ->]%HasPrefix_spec. lens. Qed.

(** [occurs_at s p i]: pattern [p] occurs in [s] at offset [i]. *)
Definition occurs_at (s p : bytes) (i : nat) : Prop :=
  (i <= length s)%nat ∧ HasPrefix (drop i s) p = true.

Lemma Index_Some s p i :
  Index s p = Some i ↔ occurs_at s p i ∧ ∀ j, (j < i)%nat → ¬ occurs_at s p j.
Proof.
  revert i. induction s as [|c s IH]; intros i.
  - simpl. destruct (HasPrefix [] p) eqn:E; split.
    + intros [= <-]. repeat split; simpl; [lia|done|lia].
    + intros [[Hi Hp] Hm]. simpl in Hi. f_equal. lia.
    + done.
    + intros [[Hi Hp] _]. rewrite drop_nil in Hp. congruence.
  - simpl Index. destruct (HasPrefix (c :: s) p) eqn:E.
    + split.
      * intros [= <-]. repeat split; simpl; [lia|done|lia].
      * intros [_ Hm]. destruct i; [done|]. exfalso. apply (Hm 0%nat); [lia|].
        split; [simpl; lia|done].
    + rewrite fmap_Some. setoid_rewrite IH. split.
      * intros (k & [[Hk Hp] Hm] & ->). split; [split; [simpl; lia|done]|].
        intros [|j] Hj [Hl Ho]; [by simpl in Ho; congruence|].
        apply (Hm j); [lia|]. split; [simpl in Hl; lia|done].
      * intros [[Hi Hp] Hm]. destruct i as [|k]; [simpl in Hp; congruence|].
        exists k. split; [|done]. split; [split; [simpl in Hi; lia|done]|].
        intros j Hj [Hl Ho]. apply (Hm (S j)); [lia|]. split; [simpl; lia|done].
Qed.

Lemma Index_None s p : Index s p = None ↔ ∀ i, ¬ occurs_at s p i.
Proof.
  induction s as [|c s IH].
  - simpl. destruct (HasPrefix [] p) eqn:E; split; try done.
    + intros H. exfalso. apply (H 0%nat). split; [simpl; lia|done].
    + intros _ i [Hi Ho]. rewrite drop_nil in Ho. congruence.
  - simpl Index. destruct (HasPrefix (c :: s) p) eqn:E; split; try done.
    + intros H. exfalso. apply (H 0%nat). split; [simpl; lia|done].
    + rewrite fmap_None, IH. intros H [|i] [Hi Ho]; [simpl in Ho; congruence|].
      apply (H i). split; [simpl in Hi; lia|done].
    + intros H. rewrite fmap_None, IH. intros i [Hi Ho].
      apply (H (S i)). split; [simpl; lia|done].
Qed.

(** A found index splits the text around the pattern. *)
Lemma Index_split s p i :
  Index s p = Some i → s = take i s ++ p ++ drop (i + length p) s.
Proof.
  intros [[Hi [t Ht]%HasPrefix_spec] _]%Index_Some.
  rewrite <- (take_drop i s) at 1. f_equal.
  rewrite <- drop_drop, Ht. by rewrite drop_app_exact.
Qed.

Lemma Index_bound s p i : Index s p = Some i → (i + length p <= length s)%nat.
Proof.
  intros [[Hi Hp%HasPrefix_length] _]%Index_Some. lens.
Qed.

Lemma IndexByte_Some s c i :
  IndexByte s c = Some i ↔
  s !! i = Some c ∧ ∀ j, (j < i)%nat → s !! j ≠ Some c.
Proof.
  revert i. induction s as [|d s IH]; intros i; simpl.
  { split; [done|]. by intros [? _]. }
  destruct (d =b c) eqn:E; bools.
  - subst. split.
    + intros [= <-]. split; [done|lia].
    + intros [_ Hm]. destruct i; [done|]. exfalso. by apply (Hm 0%nat); [lia|].
  - rewrite fmap_Some. setoid_rewrite IH. split.
    + intros (k & [Hk Hm] & ->). split; [done|].
      intros [|j] Hj; simpl; [congruence|]. apply Hm. lia.
    + intros [Hi Hm]. destruct i as [|k]; simpl in Hi; [congruence|].
      exists k. split; [|done]. split; [done|]. intros j Hj. apply (Hm (S j)). lia.
Qed.

Lemma IndexByte_None s c : IndexByte s c = None ↔ c ∉ s.
Proof.
  induction s as [|d s IH]; simpl; [split; [intros _; apply not_elem_of_nil|done]|].
  destruct (d =b c) eqn:E; bools.
  - subst. split; [done|]. intros H. by destruct H; left.
  - rewrite fmap_None, IH, not_elem_of_cons. split; [by split; [congruence|]|tauto].
Qed.

Lemma IndexByte_bound s c i : IndexByte s c = Some i → (i < length s)%nat.
Proof. intros [H _]%IndexByte_Some. by apply lookup_lt_Some in H. Qed.

(** The byte search and the one-byte pattern search agree. *)
Lemma IndexByte_app s c t : c ∉ s → IndexByte (s ++ c :: t) c = Some (length s).
Proof.
  induction s as [|d s IH]; intros Hc; simpl.
  - by rewrite beq_refl.
  - destruct (d =b c) eqn:E; bools; [set_solver|]. rewrite IH; set_solver.
Qed.

Lemma LastIndexByte_Some s c i :
  LastIndexByte s c = Some i →
  s !! i = Some c ∧ ∀ j, (i < j)%nat → s !! j ≠ Some c.
Proof.
  revert i. induction s as [|d s IH]; intros i; simpl; [done|].
  destruct (LastIndexByte s c) as [k|] eqn:E.
  - intros [= <-]. destruct (IH k eq_refl) as [Hk Hm]. split; [done|].
    intros [|j] Hj; [lia|]. simpl. apply Hm. lia.
  - destruct (d =b c) eqn:Ed; bools; [|done]. intros [= <-]. subst.
    split; [done|]. intros [|j] Hj; [lia|]. simpl. intros Hs. clear -E Hs.
    revert j Hs. induction s as [|e s IHs]; intros j Hs; simpl in *; [done|].
    destruct (LastIndexByte s c) eqn:E'; [done|].
    destruct (e =b c) eqn:Ee; bools; [done|].
    destruct j; simpl in Hs; [congruence|]. by apply (IHs eq_refl j).
Qed.

(** ** strconv: decimal integers *)

Definition is_digit (c : byte) : bool := between "0" "9" c.

(** [strconv.FormatInt(n, 10)] for n >= 0, most significant digit first. *)
Fixpoint digits_acc (fuel : nat) (n : Z) (acc : bytes) : bytes :=
  match fuel with
  | O => acc
  | S fuel' =>
      let acc' := zb (48 + n mod 10) :: acc in
      if n <? 10 then acc' else digits_acc fuel' (n / 10) acc'
  end.

Definition digits (n : Z) : bytes := digits_acc (S (Z.to_nat (Z.log2 n))) n [].

(** [strconv.Itoa] and [strconv.FormatInt(_, 10)]. *)
Definition Itoa (n : Z) : bytes :=
  if n <? 0 then "-"%byte :: digits (- n) else digits n.

Inductive num_error := ErrSyntax | ErrRange.

(** The digit loop of [strconv.ParseUint] with its early range exit. *)
Fixpoint parse_digits (maxv : Z) (s : bytes) (n : Z) : Z * option num_error :=
  match s with
  | [] => (n, None)
  | c :: s' =>
      if is_digit c then
        let n1 := n * 10 + (bz c - 48) in
        if maxv <? n1 then (maxv, Some ErrRange) else parse_digits maxv s' n1
      else (0, Some ErrSyntax)
  end.

Definition ParseUint (bits : Z) (s : bytes) : Z * option num_error :=
  match s with
  | [] => (0, Some ErrSyntax)
  | _ => parse_digits (2 ^ bits - 1) s 0
  end.

(** [strconv.ParseInt(s, 10, 64)]; [strconv.Atoi] is the same function on a
    64-bit platform. *)
Definition ParseInt (s : bytes) : Z * option num_error :=
  match s with
  | [] => (0, Some ErrSyntax)
  | c :: s' =>
      let neg := c =b "-" in
      let body := if (c =b "+") || (c =b "-") then s' else s in
      match ParseUint 64 body with
      | (_, Some ErrSyntax) => (0, Some ErrSyntax)
      | (un, _) =>
          if negb neg && (2 ^ 63 <=? un) then (2 ^ 63 - 1, Some ErrRange)
          else if neg && (2 ^ 63 <? un) then (- 2 ^ 63, Some ErrRange)
          else (if neg then - un else un, None)
      end
  end.

Definition Atoi (s : bytes) : Z * option num_error := ParseInt s.

(** The value of a digit string, unbounded: the specification of the loop. *)
Definition dec_value (s : bytes) : Z := foldl (λ n c, n * 10 + (bz c - 48)) 0 s.

Lemma dec_value_app s t : dec_value (s ++ t) = foldl (λ n c, n * 10 + (bz c - 48)) (dec_value s) t.
Proof. apply foldl_app. Qed.

Lemma digit_char n : 0 <= n < 10 → is_digit (zb (48 + n)) = true ∧ bz (zb (48 + n)) - 48 = n.
Proof.
  intros Hn. unfold is_digit, between. rewrite bz_zb_small by lia.
  change (bz "0") with 48. change (bz "9") with 57. split; [|lia].
  apply andb_true_iff. rewrite !Z.leb_le. lia.
Qed.

Lemma digits_acc_spec fuel n acc :
  0 <= n < 2 ^ Z.of_nat fuel →
  ∃ ds, digits_acc fuel n acc = ds ++ acc ∧ dec_value ds = n ∧
        Forall (λ c, is_digit c = true) ds ∧ (0 < fuel → ds ≠ [])%nat.
Proof.
  revert n acc. induction fuel as [|fuel IH]; intros n acc Hn.
  { exists []. simpl in *. repeat split; [|constructor|lia].
    change (dec_value []) with 0. lia. }
  simpl digits_acc. pose proof (Z.mod_pos_bound n 10 ltac:(lia)) as Hm.
  pose proof (digit_char (n mod 10) Hm) as [Hd Hv].
  destruct (n <? 10) eqn:E; bools.
  - exists [zb (48 + n mod 10)]. split; [done|]. repeat split; [|by repeat constructor|done].
    cbn. rewrite Hv. apply Z.mod_small. lia.
  - destruct (IH (n / 10) (zb (48 + n mod 10) :: acc)) as (ds & -> & Hval & Hds & Hne).
    { rewrite Nat2Z.inj_succ, Z.pow_succ_r in Hn by lia. split; [apply Z.div_pos; lia|].
      apply Z.div_lt_upper_bound; lia. }
    exists (ds ++ [zb (48 + n mod 10)]). rewrite <- app_assoc. split; [done|].
    repeat split.
    + rewrite dec_value_app, Hval. cbn. rewrite Hv. pose proof (Z.div_mod n 10). lia.
    + apply Forall_app. by repeat constructor.
    + intros _. by destruct ds.
Qed.

Lemma digits_spec n :
  0 <= n →
  dec_value (digits n) = n ∧ Forall (λ c, is_digit c = true) (digits n) ∧ digits n ≠ [].
Proof.
  intros Hn. unfold digits.
  destruct (digits_acc_spec (S (Z.to_nat (Z.log2 n))) n []) as (ds & -> & ? & ? & Hne).
  { split; [done|]. rewrite Nat2Z.inj_succ, Z2Nat.id by apply Z.log2_nonneg.
    destruct (Z.eq_dec n 0) as [->|]; [done|]. apply Z.log2_spec. lia. }
  rewrite app_nil_r. split_and!; auto with lia.
Qed.

Lemma foldl_digits_mono s n :
  Forall (λ c, is_digit c = true) s → 0 <= n → n <= foldl (λ n c, n * 10 + (bz c - 48)) n s.
Proof.
  intros Hs. revert n. induction Hs as [|c s Hc Hs IH]; intros n Hn; simpl; [lia|].
  unfold is_digit, between in Hc. bools. change (bz "0") with 48 in *.
  specialize (IH (n * 10 + (bz c - 48)) ltac:(lia)). lia.
Qed.

Lemma parse_digits_ok maxv s n :
  Forall (λ c, is_digit c = true) s → 0 <= n →
  foldl (λ n c, n * 10 + (bz c - 48)) n s <= maxv →
  parse_digits maxv s n = (foldl (λ n c, n * 10 + (bz c - 48)) n s, None).
Proof.
  intros Hs. revert n. induction Hs as [|c s Hc Hs IH]; intros n Hn Hm; simpl; [done|].
  rewrite Hc. simpl in Hm.
  assert (0 <= n * 10 + (bz c - 48)).
  { unfold is_digit, between in Hc. bools. change (bz "0") with 48 in *. lia. }
  pose proof (foldl_digits_mono s (n * 10 + (bz c - 48)) Hs ltac:(lia)).
  destruct (maxv <? _) eqn:E; bools; [lia|]. by apply IH.
Qed.

Lemma parse_digits_range maxv s n v e :
  0 <= n <= maxv → parse_digits maxv s n = (v, e) → 0 <= v <= maxv.
Proof.
  revert n. induction s as [|c s IH]; intros n Hn; simpl; [by intros [= <- <-]|].
  destruct (is_digit c) eqn:Hc; [|intros [= <- <-]; lia].
  destruct (maxv <? _) eqn:E; bools; [intros [= <- <-]; lia|].
  apply IH. unfold is_digit, between in Hc. bools. change (bz "0") with 48 in *. lia.
Qed.

Lemma ParseUint_range bits s v e : 0 <= bits → ParseUint bits s = (v, e) → 0 <= v < 2 ^ bits.
Proof.
  intros Hb. assert (0 < 2 ^ bits) by (apply Z.pow_pos_nonneg; lia).
  unfold ParseUint. destruct s as [|c s]; [intros [= <- <-]; lia|].
  intros H1%parse_digits_range; lia.
Qed.

Lemma digit_not c d : is_digit c = true → is_digit d = false → c ≠ d.
Proof. congruence. Qed.

Lemma ParseUint_digits bits n :
  0 <= n < 2 ^ bits → ParseUint bits (digits n) = (n, None).
Proof.
  intros Hn. destruct (digits_spec n) as (Hv & Hd & Hne); [lia|].
  unfold ParseUint. destruct (digits n) as [|c s] eqn:E; [done|].
  rewrite parse_digits_ok; [by rewrite <- Hv|done|lia|].
  change (dec_value (c :: s) <= 2 ^ bits - 1). lia.
Qed.

(** Printing then parsing gives the number back, at its width. *)
Lemma ParseInt_digits n : 0 <= n < 2 ^ 63 → ParseInt (digits n) = (n, None).
Proof.
  intros Hn. destruct (digits_spec n) as (Hv & Hd & Hne); [lia|].
  pose proof (ParseUint_digits 64 n ltac:(lia)) as HU.
  destruct (digits n) as [|c s] eqn:E; [done|]. unfold ParseInt.
  apply Forall_cons in Hd as [Hc Hs].
  rewrite (proj2 (beq_false c "-")), (proj2 (beq_false c "+"))
    by (apply digit_not; [done|reflexivity]).
  simpl orb. cbv iota. rewrite HU. simpl negb.
  destruct (2 ^ 63 <=? n) eqn:E2; bools; [lia|]. done.
Qed.

Lemma ParseInt_Itoa n : - 2 ^ 63 <= n < 2 ^ 63 → ParseInt (Itoa n) = (n, None).
Proof.
  intros Hn. unfold Itoa. destruct (n <? 0) eqn:E; bools.
  - unfold ParseInt. rewrite beq_refl, orb_true_r. cbv zeta iota.
    rewrite (ParseUint_digits 64) by lia. simpl negb.
    destruct (2 ^ 63 <? - n) eqn:E2; bools; [lia|].
    simpl. f_equal. lia.
  - apply ParseInt_digits. lia.
Qed.

(** A digit string too large for an int64 is clamped to [MaxInt64]. *)
Lemma ParseInt_value_range s v e : ParseInt s = (v, e) → - 2 ^ 63 <= v < 2 ^ 63.
Proof.
  unfold ParseInt. destruct s as [|c s]; [intros [= <- <-]; lia|].
  destruct (ParseUint 64 _) as [un e'] eqn:E. apply ParseUint_range in E; [|lia].
  destruct e' as [[]|], (c =b "-"); simpl; repeat case_match; bools; intros [= <- <-]; lia.
Qed.

(** ** encoding/binary *)

(** [binary.BigEndian.PutUint32] writes the argument truncated to 32 bits. *)
Definition be32 (n : Z) : bytes :=
  [zb (Z.shiftr n 24); zb (Z.shiftr n 16); zb (Z.shiftr n 8); zb n].

Definition le32 (n : Z) : bytes := rev (be32 n).

(** [binary.BigEndian.Uint32]; [None] is the bounds-check panic. *)
Definition of_be32 (s : bytes) : option Z :=
  match s with
  | a :: b :: c :: d :: _ =>
      Some (Z.lor (bz d) (Z.lor (Z.shiftl (bz c) 8)
             (Z.lor (Z.shiftl (bz b) 16) (Z.shiftl (bz a) 24))))
  | _ => None
  end.

Definition of_le32 (s : bytes) : option Z :=
  match s with
  | a :: b :: c :: d :: _ =>
      Some (Z.lor (bz a) (Z.lor (Z.shiftl (bz b) 8)
             (Z.lor (Z.shiftl (bz c) 16) (Z.shiftl (bz d) 24))))
  | _ => None
  end.

Lemma lor_shiftl_add a b k : 0 <= a < 2 ^ k → 0 <= k → Z.lor a (Z.shiftl b k) = a + b * 2 ^ k.
Proof.
  intros Ha Hk. rewrite Z.shiftl_mul_pow2 by lia.
  rewrite <- Z.add_lor_land. enough (Z.land a (b * 2 ^ k) = 0) as -> by lia.
  destruct (Z.eq_dec a 0) as [->|]; [apply Z.land_0_l|].
  apply Z.bits_inj'. intros i Hi.
  rewrite Z.land_spec, Z.bits_0, Z.mul_pow2_bits by lia.
  destruct (Z.lt_ge_cases i k) as [Hlt|Hge].
  - rewrite (Z.testbit_neg_r b) by lia. apply andb_false_r.
  - rewrite (Z.bits_above_log2 a i); [done|lia|].
    apply Z.log2_lt_pow2; [lia|].
    apply Z.lt_le_trans with (2 ^ k); [lia|]. apply Z.pow_le_mono_r; lia.
Qed.

Lemma of_le32_value a b c d s :
  of_le32 (a :: b :: c :: d :: s) = Some (bz a + 256 * (bz b + 256 * (bz c + 256 * bz d))).
Proof.
  unfold of_le32. f_equal.
  pose proof (bz_range a). pose proof (bz_range b). pose proof (bz_range c).
  replace (Z.shiftl (bz d) 24) with (Z.shiftl (Z.shiftl (bz d) 8) 16)
    by (rewrite Z.shiftl_shiftl by lia; done).
  rewrite <- (Z.shiftl_lor (bz c)). rewrite (lor_shiftl_add (bz c)) by lia.
  replace (Z.shiftl (bz c + bz d * 2 ^ 8) 16)
    with (Z.shiftl (Z.shiftl (bz c + bz d * 2 ^ 8) 8) 8)
    by (rewrite Z.shiftl_shiftl by lia; done).
  rewrite <- (Z.shiftl_lor (bz b)), (lor_shiftl_add (bz b)) by lia.
  rewrite (lor_shiftl_add (bz a)) by lia. lia.
Qed.

Lemma of_be32_value a b c d s :
  of_be32 (a :: b :: c :: d :: s) = Some (bz d + 256 * (bz c + 256 * (bz b + 256 * bz a))).
Proof. apply (of_le32_value d c b a s). Qed.

Lemma zb_shiftr n k : 0 <= k → bz (zb (Z.shiftr n k)) = n / 2 ^ k mod 256.
Proof. intros. by rewrite bz_zb, Z.shiftr_div_pow2. Qed.

Lemma of_be32_be32 n s : of_be32 (be32 n ++ s) = Some (n mod 2 ^ 32).
Proof.
  unfold be32. simpl app. rewrite of_be32_value, !zb_shiftr, bz_zb by lia. f_equal.
  change (2 ^ 8) with 256. change (2 ^ 16) with (256 * 256).
  change (2 ^ 24) with (256 * (256 * 256)). change (2 ^ 32) with (256 * (256 * (256 * 256))).
  rewrite <- !Z.div_div by lia. rewrite !Z.rem_mul_r by lia. lia.
Qed.

Lemma of_le32_le32 n s : of_le32 (le32 n ++ s) = Some (n mod 2 ^ 32).
Proof. exact (of_be32_be32 n s). Qed.

Lemma of_be32_range s n : of_be32 s = Some n → 0 <= n < 2 ^ 32.
Proof.
  destruct s as [|a [|b [|c [|d s]]]]; try done. rewrite of_be32_value. intros [= <-].
  pose proof (bz_range a). pose proof (bz_range b). pose proof (bz_range c).
  pose proof (bz_range d). lia.
Qed.

(** Decoding four bytes and encoding the value again gives the bytes back. *)
Lemma be32_of_be32 a b c d n : of_be32 [a; b; c; d] = Some n → be32 n = [a; b; c; d].
Proof.
  rewrite of_be32_value. intros [= <-]. unfold be32.
  pose proof (bz_range a). pose proof (bz_range b). pose proof (bz_range c).
  pose proof (bz_range d).
  repeat f_equal; apply bz_inj; rewrite ?zb_shiftr, ?bz_zb by lia.
  - change (2 ^ 24) with 16777216. Z.div_mod_to_equations; lia.
  - change (2 ^ 16) with 65536. Z.div_mod_to_equations; lia.
  - change (2 ^ 8) with 256. Z.div_mod_to_equations; lia.
  - Z.div_mod_to_equations; lia.
Qed.

(** ** unicode/utf8 *)

Definition MaxRune : Z := 1114111.
Definition RuneError : Z := 65533.

Definition cont (c : byte) : bool := between x80 xbf c.

(** The accept ranges of the second byte, as in the table of package utf8. *)
Definition utf8_2 (a b : byte) : bool := between xc2 xdf a && cont b.
Definition utf8_3 (a b c : byte) : bool :=
  ((a =b xe0) && between xa0 xbf b
   || (between xe1 xec a || between xee xef a) && cont b
   || (a =b xed) && between x80 x9f b) && cont c.
Definition utf8_4 (a b c d : byte) : bool :=
  ((a =b xf0) && between x90 xbf b
   || between xf1 xf3 a && cont b
   || (a =b xf4) && between x80 x8f b) && cont c && cont d.

(** [utf8.Valid]. *)
Fixpoint Valid (s : bytes) : bool :=
  match s with
  | [] => true
  | a :: s1 =>
      if bz a <? 128 then Valid s1 else
      match s1 with
      | [] => false
      | b :: s2 =>
          if utf8_2 a b then Valid s2 else
          match s2 with
          | [] => false
          | c :: s3 =>
              if utf8_3 a b c then Valid s3 else
              match s3 with
              | [] => false
              | d :: s4 => if utf8_4 a b c d then Valid s4 else false
              end
          end
      end
  end.

(** [utf8.AppendRune(nil, r)]; surrogates and out-of-range runes become U+FFFD. *)
Definition EncodeRune (r : Z) : bytes :=
  let enc3 r := [zb (Z.lor 224 (Z.shiftr r 12)); zb (Z.lor 128 (Z.land (Z.shiftr r 6) 63));
                 zb (Z.lor 128 (Z.land r 63))] in
  if (0 <=? r) && (r <=? 127) then [zb r]
  else if (0 <=? r) && (r <=? 2047) then
    [zb (Z.lor 192 (Z.shiftr r 6)); zb (Z.lor 128 (Z.land r 63))]
  else if (r <? 0) || (MaxRune <? r) || (55296 <=? r) && (r <=? 57343) then enc3 RuneError
  else if r <=? 65535 then enc3 r
  else [zb (Z.lor 240 (Z.shiftr r 18)); zb (Z.lor 128 (Z.land (Z.shiftr r 12) 63));
        zb (Z.lor 128 (Z.land (Z.shiftr r 6) 63)); zb (Z.lor 128 (Z.land r 63))].

Lemma EncodeRune_length r : (1 <= length (EncodeRune r) <= 4)%nat.
Proof. unfold EncodeRune. repeat case_match; simpl; lia. Qed.

(** A valid text starts with one rune of one to four bytes; all but an ASCII
    rune consist of bytes from 128 up. *)
Lemma Valid_rune a s : Valid (a :: s) = true →
  ∃ u t, a :: s = u ++ t ∧ (1 <= length u <= 4)%nat ∧ Valid t = true ∧
    (∀ k, Valid (u ++ k) = Valid k) ∧
    (Forall (λ c, 128 <= bz c) u ∨ u = [a] ∧ bz a < 128).
Proof.
  assert (Hcont : ∀ c, cont c = true → 128 <= bz c).
  { intros c [H _]%andb_true_iff. bools. exact H. }
  cbn [Valid]. destruct (bz a <? 128) eqn:E1.
  { intros HV. exists [a], s. split_and!; try done; simpl; try lia.
    - intros k. by rewrite E1.
    - right. bools. done. }
  bools. destruct s as [|b s2]; [done|]. destruct (utf8_2 a b) eqn:E2.
  { intros HV. exists [a; b], s2. split_and!; try done; simpl; try lia.
    - intros k. rewrite E2. destruct (_ <? _) eqn:E; bools; [lia|done].
    - left. unfold utf8_2 in E2. bools. auto. }
  destruct s2 as [|c s3]; [done|]. destruct (utf8_3 a b c) eqn:E3.
  { intros HV. exists [a; b; c], s3. split_and!; try done; simpl; try lia.
    - intros k. rewrite E2, E3. destruct (_ <? _) eqn:E; bools; [lia|done].
    - left. unfold utf8_3 in E3. bools.
      enough (128 <= bz b) by auto.
      repeat match goal with H : orb _ _ = true |- _ => apply orb_true_iff in H as [H|H] end;
        bools; auto; unfold between in *; bools; simpl in *; change (bz xa0) with 160 in *;
        change (bz x80) with 128 in *; lia. }
  destruct s3 as [|d s4]; [done|]. destruct (utf8_4 a b c d) eqn:E4; [|done].
  intros HV. exists [a; b; c; d], s4. split_and!; try done; simpl; try lia.
  - intros k. rewrite E2, E3, E4. destruct (_ <? _) eqn:E; bools; [lia|done].
  - left. unfold utf8_4 in E4. bools.
    enough (128 <= bz b) by auto 10.
    repeat match goal with H : orb _ _ = true |- _ => apply orb_true_iff in H as [H|H] end;
      bools; auto; unfold between in *; bools; change (bz x90) with 144 in *;
      change (bz x80) with 128 in *; lia.
Qed.

Lemma Valid_app s t : Valid s = true → Valid (s ++ t) = Valid t.
Proof.
  remember (length s) as n eqn:En. revert s En.
  induction n as [n IH] using lt_wf_ind. intros [|a s] -> HV; [done|].
  destruct (Valid_rune a s HV) as (u & r & Hu & Hl & Hr & Hk & _). rewrite Hu.
  rewrite <- app_assoc, Hk. apply (IH (length r)); [|done|done].
  rewrite Hu, length_app. lia.
Qed.

(** An ASCII byte is a boundary of valid text. *)
Lemma Valid_split s c t : bz c < 128 → Valid (s ++ c :: t) = true → Valid s = true ∧ Valid t = true.
Proof.
  intros Hc. remember (length s) as n eqn:En. revert s En.
  induction n as [n IH] using lt_wf_ind. intros [|a s] -> HV.
  { simpl in HV. destruct (_ <? _) eqn:E; bools; [done|lia]. }
  destruct (Valid_rune a (s ++ c :: t) HV) as (u & r & Hu & Hl & Hr & Hk & Hb).
  change (a :: s ++ c :: t) with ((a :: s) ++ c :: t) in Hu.
  apply app_eq_inv in Hu as [(k & H1 & H2)|(k & H1 & H2)].
  - rewrite H1, Hk. subst r. apply (IH (length k)); [|done|done].
    rewrite H1, length_app. lia.
  - destruct Hb as [Hb|[-> Hb]].
    + destruct k as [|d k].
      * rewrite app_nil_r in H1. subst u. simpl in H2. subst r.
        assert (Valid t = true) as Ht by (simpl in Hr; destruct (_ <? _) eqn:E; bools; [done|lia]).
        split; [|done]. specialize (Hk []). rewrite app_nil_r in Hk. by rewrite Hk.
      * simpl in H2. injection H2 as -> ->. rewrite H1 in Hb.
        apply Forall_app in Hb as [_ Hb]. apply Forall_cons in Hb as [Hb _]. lia.
    + destruct s; [|done]. destruct k; [|done]. simpl in H2. subst r.
      simpl in Hr. destruct (bz c <? 128) eqn:E; bools; [|lia]. split; [|done].
      simpl. destruct (bz a <? 128) eqn:E'; bools; [done|lia].
Qed.

Lemma cont_byte r : cont (zb (Z.lor 128 (Z.land r 63))) = true.
Proof.
  assert (0 <= Z.land r 63 < 64) as Hr.
  { change 63 with (Z.ones 6). rewrite Z.land_ones by lia. apply Z.mod_pos_bound. lia. }
  rewrite Z.lor_comm. change 128 with (Z.shiftl 2 6) at 1.
  rewrite lor_shiftl_add by lia. unfold cont, between. rewrite bz_zb_small by lia.
  change (bz x80) with 128. change (bz xbf) with 191. apply andb_true_iff.
  split; apply Z.leb_le; lia.
Qed.

Lemma beq_bz c d : (c =b d) = (bz c =? bz d).
Proof.
  destruct (c =b d) eqn:E; bools; symmetry; [subst; apply Z.eqb_refl|].
  apply Z.eqb_neq. intros H. by apply bz_inj in H.
Qed.

Lemma bz_lead k n x : 0 <= n → 0 <= x < 2 ^ n → 0 <= k → k * 2 ^ n + x < 256 →
  bz (zb (Z.lor (k * 2 ^ n) x)) = k * 2 ^ n + x.
Proof.
  intros. rewrite Z.lor_comm, <- Z.shiftl_mul_pow2, lor_shiftl_add, Z.shiftl_mul_pow2 by lia.
  rewrite Z.add_comm. apply bz_zb_small. nia.
Qed.

Lemma bz_cont r : bz (zb (Z.lor 128 (Z.land r 63))) = 128 + r mod 64.
Proof.
  change 63 with (Z.ones 6). rewrite Z.land_ones by lia. change (2 ^ 6) with 64.
  pose proof (Z.mod_pos_bound r 64 ltac:(lia)). apply (bz_lead 2 6); lia.
Qed.

(** Turn a boolean goal about bytes into arithmetic. *)
Ltac byte_goal :=
  rewrite ?andb_true_iff, ?orb_true_iff, ?andb_true_iff, ?orb_true_iff, ?Z.leb_le, ?Z.eqb_eq.

Lemma utf8_3_rune r : 2048 <= r <= 65535 → ¬ (55296 <= r <= 57343) →
  utf8_3 (zb (Z.lor 224 (Z.shiftr r 12))) (zb (Z.lor 128 (Z.land (Z.shiftr r 6) 63)))
         (zb (Z.lor 128 (Z.land r 63))) = true.
Proof.
  intros Hr Hs. unfold utf8_3. rewrite !cont_byte, !andb_true_r.
  rewrite !Z.shiftr_div_pow2 by lia. change (2 ^ 12) with 4096. change (2 ^ 6) with 64.
  unfold cont, between. rewrite !beq_bz, bz_cont.
  pose proof (bz_lead 14 4 (r / 4096)) as HL. change (14 * 2 ^ 4) with 224 in HL.
  change (2 ^ 4) with 16 in HL. rewrite !HL by (Z.div_mod_to_equations; lia).
  change (bz xe0) with 224. change (bz xed) with 237. change (bz xa0) with 160.
  change (bz xbf) with 191. change (bz xe1) with 225. change (bz xec) with 236.
  change (bz xee) with 238. change (bz xef) with 239. change (bz x80) with 128.
  change (bz x9f) with 159. byte_goal. clear HL.
  Z.div_mod_to_equations; lia.
Qed.

Lemma utf8_4_rune r : 65536 <= r <= MaxRune →
  utf8_4 (zb (Z.lor 240 (Z.shiftr r 18))) (zb (Z.lor 128 (Z.land (Z.shiftr r 12) 63)))
         (zb (Z.lor 128 (Z.land (Z.shiftr r 6) 63))) (zb (Z.lor 128 (Z.land r 63))) = true.
Proof.
  unfold MaxRune. intros Hr. unfold utf8_4. rewrite !cont_byte, !andb_true_r.
  rewrite !Z.shiftr_div_pow2 by lia. change (2 ^ 18) with 262144. change (2 ^ 12) with 4096.
  unfold cont, between. rewrite !beq_bz, bz_cont.
  pose proof (bz_lead 30 3 (r / 262144)) as HL. change (30 * 2 ^ 3) with 240 in HL.
  change (2 ^ 3) with 8 in HL. rewrite !HL by (Z.div_mod_to_equations; lia).
  change (bz xf0) with 240. change (bz xf1) with 241. change (bz xf3) with 243.
  change (bz xf4) with 244. change (bz x90) with 144. change (bz xbf) with 191.
  change (bz x80) with 128. change (bz x8f) with 143. byte_goal. clear HL.
  Z.div_mod_to_equations; lia.
Qed.

Lemma not_utf8_2 a b : 224 <= bz a → utf8_2 a b = false.
Proof.
  intros H. unfold utf8_2, between. apply andb_false_iff. left. apply andb_false_iff. right.
  apply Z.leb_gt. change (bz xdf) with 223. lia.
Qed.

Lemma not_utf8_3 a b c : 240 <= bz a → utf8_3 a b c = false.
Proof.
  intros H. unfold utf8_3, between. rewrite !beq_bz.
  change (bz xe0) with 224. change (bz xed) with 237. change (bz xec) with 236.
  change (bz xef) with 239.
  destruct (bz a =? 224) eqn:E1, (bz a =? 237) eqn:E2, (bz a <=? 236) eqn:E3,
    (bz a <=? 239) eqn:E4; bools; try lia; simpl; by rewrite ?andb_false_r.
Qed.

Lemma EncodeRune_3_valid r : 2048 <= r <= 65535 → ¬ (55296 <= r <= 57343) →
  Valid [zb (Z.lor 224 (Z.shiftr r 12)); zb (Z.lor 128 (Z.land (Z.shiftr r 6) 63));
         zb (Z.lor 128 (Z.land r 63))] = true.
Proof.
  intros Hr Hs. pose proof (utf8_3_rune r Hr Hs) as H3. revert H3.
  set (a := zb (Z.lor 224 (Z.shiftr r 12))). intros H3.
  assert (224 <= bz a) as Ha.
  { unfold a. rewrite Z.shiftr_div_pow2 by lia. rewrite (bz_lead 14 4) by
      (change (2 ^ 12) with 4096; change (2 ^ 4) with 16; Z.div_mod_to_equations; lia).
    change (2 ^ 12) with 4096. Z.div_mod_to_equations; lia. }
  cbn [Valid]. rewrite (not_utf8_2 a) by done. rewrite H3.
  destruct (bz a <? 128) eqn:E; bools; [lia|done].
Qed.

Lemma EncodeRune_valid r : Valid (EncodeRune r) = true.
Proof.
  unfold EncodeRune. cbv zeta.
  destruct ((0 <=? r) && (r <=? 127)) eqn:E1; bools.
  { simpl. rewrite bz_zb_small by lia. destruct (_ <? _) eqn:E; bools; [done|lia]. }
  destruct ((0 <=? r) && (r <=? 2047)) eqn:E2; bools.
  { assert (128 <= r) by (apply andb_false_iff in E1 as [?|?]; bools; lia).
    cbn [Valid]. unfold utf8_2. rewrite cont_byte, andb_true_r. unfold between.
    rewrite Z.shiftr_div_pow2 by lia. pose proof (bz_lead 3 6 (r / 64)) as HL.
    change (2 ^ 6) with 64 in *. change (3 * 64) with 192 in HL.
    rewrite !HL by (Z.div_mod_to_equations; lia). clear HL.
    replace (192 + r / 64 <? 128) with false
      by (symmetry; apply Z.ltb_ge; Z.div_mod_to_equations; lia).
    change (bz xc2) with 194. change (bz xdf) with 223.
    assert ((194 <=? 192 + r / 64) && (192 + r / 64 <=? 223) = true) as ->; [|done].
    byte_goal. Z.div_mod_to_equations; lia. }
  destruct ((r <? 0) || (MaxRune <? r) || (55296 <=? r) && (r <=? 57343)) eqn:E3; [reflexivity|].
  bools. assert (2048 <= r) by (apply andb_false_iff in E2 as [?|?]; bools; lia).
  assert (¬ (55296 <= r <= 57343)).
  { intros [? ?]. match goal with H : andb _ _ = false |- _ =>
      apply andb_false_iff in H as [H|H]; bools; lia end. }
  destruct (r <=? 65535) eqn:E4; bools; [by apply EncodeRune_3_valid|].
  assert (65536 <= r <= MaxRune) as Hr by lia.
  pose proof (utf8_4_rune r Hr) as H4. revert H4.
  set (a := zb (Z.lor 240 (Z.shiftr r 18))). intros H4.
  assert (240 <= bz a) as Ha.
  { unfold MaxRune in Hr. unfold a. rewrite Z.shiftr_div_pow2 by lia. rewrite (bz_lead 30 3) by
      (change (2 ^ 18) with 262144; change (2 ^ 3) with 8; Z.div_mod_to_equations; lia).
    change (2 ^ 18) with 262144. Z.div_mod_to_equations; lia. }
  cbn [Valid]. rewrite (not_utf8_2 a) by lia. rewrite (not_utf8_3 a) by done. rewrite H4.
  destruct (bz a <? 128) eqn:E; bools; [lia|done].
Qed.
