(* ===== verification/GoText.v ===== *)
(** * More of the Go standard library: text

    [strings] trimming, splitting, joining and case; [encoding/base64];
    [net/url] query escaping; [net/http] header keys; [math/big] byte strings.
    The tables of Unicode case are a class: the definitions compute on ASCII
    text, and refer to the class for the rest. *)

From S2P Require Import Prelude GoLib.

#[local] Open Scope Z_scope.

(** ** strings.TrimSpace

    The UTF-8 encodings of the runes [unicode.IsSpace] accepts. *)
Definition space_runes : list bytes :=
  map EncodeRune [9; 10; 11; 12; 13; 32; 0x85; 0xA0; 0x1680; 0x2000; 0x2001; 0x2002; 0x2003; 0x2004;
    0x2005; 0x2006; 0x2007; 0x2008; 0x2009; 0x200A; 0x2028; 0x2029; 0x202F; 0x205F; 0x3000].

Fixpoint trim_left (fuel : nat) (s : bytes) : bytes :=
  match fuel with
  | O => s
  | S fuel' =>
      match List.find (HasPrefix s) space_runes with
      | Some r => trim_left fuel' (drop (length r) s)
      | None => s
      end
  end.

Fixpoint trim_right (fuel : nat) (s : bytes) : bytes :=
  match fuel with
  | O => s
  | S fuel' =>
      match List.find (HasSuffix s) space_runes with
      | Some r => trim_right fuel' (take (length s - length r) s)
      | None => s
      end
  end.

(** Every round removes at least one byte. *)
Definition TrimSpace (s : bytes) : bytes :=
  trim_right (length s) (trim_left (length s) s).

Definition graphic (c : byte) : Prop := 33 <= bz c < 128.

Definition not_graphic (o : option byte) : bool :=
  match o with Some c => (bz c <? 33) || (128 <=? bz c) | None => false end.

Lemma space_runes_ends :
  forallb (λ r, not_graphic (head r) && not_graphic (last r)) space_runes = true.
Proof. vm_compute. reflexivity. Qed.

Lemma no_space_prefix c s : graphic c → List.find (HasPrefix (c :: s)) space_runes = None.
Proof.
  intros Hc. destruct (List.find _ _) as [r|] eqn:E; [|done].
  apply List.find_some in E as [Hin Hp]. pose proof space_runes_ends as Ha.
  rewrite forallb_forall in Ha. apply Ha in Hin. bools. apply HasPrefix_spec in Hp as [t Ht].
  destruct r as [|d r]; [done|]. injection Ht as -> _. unfold graphic in Hc. simpl in *.
  match goal with H : orb _ _ = true |- _ => apply orb_true_iff in H as [?|?] end; bools; lia.
Qed.

Lemma no_space_suffix s c : graphic c → List.find (HasSuffix (s ++ [c])) space_runes = None.
Proof.
  intros Hc. destruct (List.find _ _) as [r|] eqn:E; [|done].
  apply List.find_some in E as [Hin Hp]. pose proof space_runes_ends as Ha.
  rewrite forallb_forall in Ha. apply Ha in Hin. bools. unfold HasSuffix in Hp.
  rewrite rev_unit in Hp. apply HasPrefix_spec in Hp as [t Ht].
  destruct r as [|d r] using rev_ind; [done|]. rewrite rev_unit in Ht. injection Ht as -> _.
  rewrite last_snoc in *. unfold graphic in Hc. simpl in *.
  match goal with H : orb _ _ = true |- _ => apply orb_true_iff in H as [?|?] end; bools; lia.
Qed.

Lemma TrimSpace_graphic a s z : graphic a → graphic z → TrimSpace (a :: s ++ [z]) = a :: s ++ [z].
Proof.
  intros Ha Hz. unfold TrimSpace. cbn [length trim_left]. rewrite no_space_prefix by done.
  cbn [trim_right]. change (a :: s ++ [z]) with ((a :: s) ++ [z]). by rewrite no_space_suffix.
Qed.

(** [tight s]: no white space at either end. *)
Definition tight (s : bytes) : Prop :=
  (∀ c, head s = Some c → graphic c) ∧ (∀ c, last s = Some c → graphic c).

#[export] Instance graphic_dec c : Decision (graphic c).
Proof. unfold graphic. apply _. Defined.

Lemma trim_left_graphic n c s : graphic c → trim_left n (c :: s) = c :: s.
Proof. intros Hc. destruct n; [done|]. cbn [trim_left]. by rewrite no_space_prefix. Qed.

Lemma trim_right_graphic n s c : graphic c → trim_right n (s ++ [c]) = s ++ [c].
Proof. intros Hc. destruct n; [done|]. cbn [trim_right]. by rewrite no_space_suffix. Qed.

Lemma trim_right_last n s : (∀ c, last s = Some c → graphic c) → trim_right n s = s.
Proof.
  intros Hl. destruct (last s) as [z|] eqn:E.
  - apply last_Some in E as [t ->]. by apply trim_right_graphic, Hl.
  - apply last_None in E as ->. destruct n; [done|]. reflexivity.
Qed.

Lemma TrimSpace_tight s : tight s → TrimSpace s = s.
Proof.
  intros [Hh Hl]. unfold TrimSpace. destruct s as [|a s]; [done|].
  rewrite trim_left_graphic by (by apply Hh).
  by apply trim_right_last.
Qed.

(** A leading blank, as after the comma of a header list, is removed. *)
Lemma TrimSpace_blank s : tight s → TrimSpace (" "%byte :: s) = s.
Proof.
  intros Ht. unfold TrimSpace. cbn [length trim_left].
  replace (List.find (HasPrefix (" "%byte :: s)) space_runes) with (Some [" "%byte]) by reflexivity.
  change (drop (length [" "%byte]) (" "%byte :: s)) with s. destruct Ht as [Hh Hl]. destruct s as [|a s]; [done|].
  rewrite trim_left_graphic by (by apply Hh).
  by apply trim_right_last.
Qed.

Lemma tight_nil : tight [].
Proof. by split. Qed.

Lemma tight_app_ends a s z : graphic a → graphic z → tight (a :: s ++ [z]).
Proof.
  intros Ha Hz. split; intros c; [by intros [= <-]|].
  change (a :: s ++ [z]) with ((a :: s) ++ [z]). rewrite last_snoc. by intros [= <-].
Qed.

Lemma tight_cons_last a s : graphic a → (∀ c, last (a :: s) = Some c → graphic c) → tight (a :: s).
Proof. intros Ha Hl. split; [by intros c [= <-]|done]. Qed.

Lemma tight_all s : Forall graphic s → tight s.
Proof.
  intros Hs. split; intros c Hc.
  - destruct s; [done|]. injection Hc as ->. by apply Forall_cons in Hs as [? _].
  - apply last_Some in Hc as [t ->]. apply Forall_app in Hs as [_ Hs].
    by apply Forall_cons in Hs as [? _].
Qed.
#[export] Hint Resolve tight_nil tight_all : go.

(** ** strings.Split and strings.Join

    The separators of the repository's [Split] calls are single bytes. *)
Fixpoint Split (s : bytes) (c : byte) : list bytes :=
  match s with
  | [] => [[]]
  | d :: s' =>
      if d =b c then [] :: Split s' c
      else match Split s' c with
           | [] => [[d]]
           | w :: ws => (d :: w) :: ws
           end
  end.

Fixpoint Join (l : list bytes) (sep : bytes) : bytes :=
  match l with
  | [] => []
  | [w] => w
  | w :: l' => w ++ sep ++ Join l' sep
  end.

Lemma Split_word w c : c ∉ w → Split w c = [w].
Proof.
  induction w as [|d w IH]; intros Hc; simpl; [done|].
  destruct (d =b c) eqn:E; bools; [set_solver|]. rewrite IH by set_solver. done.
Qed.

Lemma Split_app w c t : c ∉ w → Split (w ++ c :: t) c = w :: Split t c.
Proof.
  induction w as [|d w IH]; intros Hc; simpl; [by rewrite beq_refl|].
  destruct (d =b c) eqn:E; bools; [set_solver|]. by rewrite IH by set_solver.
Qed.

Lemma Split_Join l c : l ≠ [] → Forall (λ w, c ∉ w) l → Split (Join l [c]) c = l.
Proof.
  intros Hl Hf. induction Hf as [|w l Hw Hf IH]; [done|].
  destruct l as [|w' l]; [by apply Split_word|].
  change (Join (w :: w' :: l) [c]) with (w ++ c :: Join (w' :: l) [c]).
  rewrite Split_app by done. by rewrite IH.
Qed.

Lemma Split_not_nil s c : Split s c ≠ [].
Proof. destruct s; simpl; [done|]. destruct (_ =b _); [done|]. by destruct (Split s c). Qed.

Lemma Join_Split s c : Join (Split s c) [c] = s.
Proof.
  induction s as [|d s IH]; [done|]. cbn [Split].
  pose proof (Split_not_nil s c) as Hn. destruct (Split s c) as [|w ws] eqn:E; [done|].
  destruct (d =b c) eqn:Ed; bools.
  - subst d. change (Join ([] :: w :: ws) [c]) with (c :: Join (w :: ws) [c]). by rewrite IH.
  - rewrite <- IH. by destruct ws.
Qed.

Lemma Join_cons w l sep : l ≠ [] → Join (w :: l) sep = w ++ sep ++ Join l sep.
Proof. by destruct l. Qed.

(** ** Case *)

Definition lower (c : byte) : byte := if between "A" "Z" c then zb (bz c + 32) else c.
Definition upper (c : byte) : byte := if between "a" "z" c then zb (bz c - 32) else c.
Definition ascii (s : bytes) : bool := forallb (λ c, bz c <? 128) s.

(** The tables of package unicode, on text that is not ASCII. *)
Class UnicodeCase := {
  unicode_ToLower : bytes → bytes;
  unicode_ToUpper : bytes → bytes;
  unicode_EqualFold : bytes → bytes → bool
}.

Section case.
Context `{UnicodeCase}.

Definition ToLower (s : bytes) : bytes := if ascii s then map lower s else unicode_ToLower s.
Definition ToUpper (s : bytes) : bytes := if ascii s then map upper s else unicode_ToUpper s.
Definition EqualFold (s t : bytes) : bool :=
  if ascii s && ascii t then bytes_eqb (map lower s) (map lower t) else unicode_EqualFold s t.

(** Text without capitals. *)
Definition is_lower (c : byte) : bool := (bz c <? 128) && negb (between "A" "Z" c).

Lemma ascii_app s t : ascii (s ++ t) = ascii s && ascii t.
Proof. apply forallb_app. Qed.

Lemma lower_id s : forallb is_lower s = true → map lower s = s ∧ ascii s = true.
Proof.
  induction s as [|c s IH]; [done|]. cbn [forallb map ascii]. intros Hc. bools.
  match goal with H : is_lower c = true |- _ => unfold is_lower in H; bools end.
  destruct IH as [-> Ha]; [done|]. unfold lower.
  match goal with H : between _ _ c = false |- _ => rewrite H end. split; [done|].
  apply andb_true_iff. split; [by apply Z.ltb_lt|done].
Qed.

Lemma ToLower_lower s : forallb is_lower s = true → ToLower s = s.
Proof. intros [Hm Ha]%lower_id. unfold ToLower. by rewrite Ha, Hm. Qed.

Lemma EqualFold_refl s : ascii s = true → EqualFold s s = true.
Proof. intros Ha. unfold EqualFold. rewrite Ha. by apply bytes_eqb_true. Qed.

(** Lower-casing is idempotent on ASCII text and keeps it ASCII. *)
Lemma lower_lower c : is_lower (lower c) = (bz c <? 128).
Proof. by destruct c. Qed.

Lemma ToLower_is_lower s : ascii s = true → forallb is_lower (ToLower s) = true.
Proof.
  intros Ha. unfold ToLower. rewrite Ha. induction s as [|c s IH]; [done|].
  cbn [map forallb]. unfold ascii in Ha. cbn [forallb] in Ha. bools. rewrite lower_lower.
  apply andb_true_iff. split; [by apply Z.ltb_lt|]. by apply IH.
Qed.
End case.

(** ** net/http header keys *)

(** The bytes of a token (RFC 7230). *)
Definition token_byte (c : byte) : bool :=
  between "0" "9" c || between "a" "z" c || between "A" "Z" c ||
  bool_decide (c ∈ str "!#$%&'*+-.^_`|~").

Fixpoint canonical (up : bool) (s : bytes) : bytes :=
  match s with
  | [] => []
  | c :: s' => (if up then upper c else lower c) :: canonical (c =b "-") s'
  end.

(** [textproto.CanonicalMIMEHeaderKey]. *)
Definition CanonicalHeaderKey (s : bytes) : bytes :=
  if forallb token_byte s then canonical true s else s.

Abbreviation Header := (gmap bytes (list bytes)).

(** [Header.Get]: the first value under the canonical key, or the empty string. *)
Definition Header_Get (h : Header) (key : bytes) : bytes :=
  match h !! CanonicalHeaderKey key with
  | Some (v :: _) => v
  | _ => []
  end.

Definition Header_Set (h : Header) (key value : bytes) : Header :=
  <[CanonicalHeaderKey key := [value]]> h.

(** The order in which [range] visits the entries of a header map. *)
Definition range_order : Type := Header → list (bytes * list bytes).
Definition range_ok (ord : range_order) : Prop := ∀ h, ord h ≡ₚ map_to_list h.

Lemma Header_Get_Set h k v : Header_Get (Header_Set h k v) k = v.
Proof. unfold Header_Get, Header_Set. by rewrite lookup_insert_eq. Qed.

Lemma Header_Get_Set_ne h k k' v :
  CanonicalHeaderKey k ≠ CanonicalHeaderKey k' → Header_Get (Header_Set h k v) k' = Header_Get h k'.
Proof. intros Hn. unfold Header_Get, Header_Set. by rewrite lookup_insert_ne. Qed.

(** ** encoding/base64 *)

Record Encoding := { enc_alphabet : bytes; enc_pad : bool }.

Definition letters : bytes := str "ABCDEFGHIJKLMNOPQRSTUVWXYZabcdefghijklmnopqrstuvwxyz0123456789".
Definition StdEncoding : Encoding := {| enc_alphabet := letters ++ str "+/"; enc_pad := true |}.
Definition RawStdEncoding : Encoding := {| enc_alphabet := letters ++ str "+/"; enc_pad := false |}.
Definition URLEncoding : Encoding := {| enc_alphabet := letters ++ str "-_"; enc_pad := true |}.
Definition RawURLEncoding : Encoding := {| enc_alphabet := letters ++ str "-_"; enc_pad := false |}.

Definition b64_char (e : Encoding) (v : Z) : byte := default x00 (enc_alphabet e !! Z.to_nat v).
Definition b64_value (e : Encoding) (c : byte) : option Z := Z.of_nat <$> IndexByte (enc_alphabet e) c.
Definition padding (e : Encoding) (n : nat) : bytes :=
  if enc_pad e then replicate n "="%byte else [].

Fixpoint EncodeToString (e : Encoding) (s : bytes) : bytes :=
  match s with
  | x :: y :: z :: s' =>
      b64_char e (bz x / 4) :: b64_char e (bz x mod 4 * 16 + bz y / 16) ::
      b64_char e (bz y mod 16 * 4 + bz z / 64) :: b64_char e (bz z mod 64) :: EncodeToString e s'
  | [x; y] =>
      b64_char e (bz x / 4) :: b64_char e (bz x mod 4 * 16 + bz y / 16) ::
      b64_char e (bz y mod 16 * 4) :: padding e 1
  | [x] => b64_char e (bz x / 4) :: b64_char e (bz x mod 4 * 16) :: padding e 2
  | [] => []
  end.

(** One, two and three bytes from two, three and four characters; the unused
    low bits of a short group are not checked, as in the non-strict encodings. *)
Definition group2 (e : Encoding) (a b : byte) : option bytes :=
  p ← b64_value e a; q ← b64_value e b; Some [zb (p * 4 + q / 16)].
Definition group3 (e : Encoding) (a b c : byte) : option bytes :=
  p ← b64_value e a; q ← b64_value e b; r ← b64_value e c;
  Some [zb (p * 4 + q / 16); zb (q * 16 + r / 4)].
Definition group4 (e : Encoding) (a b c d : byte) : option bytes :=
  p ← b64_value e a; q ← b64_value e b; r ← b64_value e c; t ← b64_value e d;
  Some [zb (p * 4 + q / 16); zb (q * 16 + r / 4); zb (r * 64 + t)].

Fixpoint decode_groups (e : Encoding) (s : bytes) : option bytes :=
  match s with
  | [] => Some []
  | a :: b :: c :: d :: s' =>
      match s' with
      | [] =>
          if enc_pad e && (c =b "=") && (d =b "=") then group2 e a b
          else if enc_pad e && (d =b "=") then group3 e a b c
          else group4 e a b c d
      | _ => g ← group4 e a b c d; r ← decode_groups e s'; Some (g ++ r)
      end
  | [a; b; c] => if enc_pad e then None else group3 e a b c
  | [a; b] => if enc_pad e then None else group2 e a b
  | [_] => None
  end.

(** Carriage returns and line feeds are skipped. *)
Definition DecodeString (e : Encoding) (s : bytes) : option bytes :=
  decode_groups e (List.filter (λ c, negb ((c =b x0d) || (c =b x0a))) s).

(** The encodings above: 64 distinct characters, none of them special. *)
Definition enc_ok (e : Encoding) : bool :=
  bool_decide (length (enc_alphabet e) = 64%nat) &&
  forallb (λ n, bool_decide (b64_value e (b64_char e (Z.of_nat n)) = Some (Z.of_nat n))) (seq 0 64) &&
  forallb (λ c, (is_digit c || between "a" "z" c || between "A" "Z" c ||
    bool_decide (c ∈ str "+/-_"))) (enc_alphabet e).

(** A byte that can occur in an encoded text. *)
Definition b64_byte (c : byte) : bool :=
  is_digit c || between "a" "z" c || between "A" "Z" c || bool_decide (c ∈ str "+/-_=").

Section base64.
Context (e : Encoding) (He : enc_ok e = true).

Lemma b64_value_char v : 0 <= v < 64 → b64_value e (b64_char e v) = Some v.
Proof.
  intros Hv. unfold enc_ok in He. bools.
  match goal with H : forallb _ (seq 0 64) = true |- _ => rewrite forallb_forall in H;
    specialize (H (Z.to_nat v)) end.
  assert (In (Z.to_nat v) (seq 0 64)) as Hin by (apply in_seq; lia).
  match goal with H : In _ _ → _ |- _ => specialize (H Hin) end. bools.
  by rewrite Z2Nat.id in * by lia.
Qed.

Lemma b64_char_byte v : 0 <= v < 64 → b64_byte (b64_char e v) = true ∧ b64_char e v ≠ "="%byte.
Proof.
  intros Hv. unfold enc_ok in He. bools. unfold b64_char.
  destruct (enc_alphabet e !! Z.to_nat v) as [c|] eqn:Hc; [|apply lookup_ge_None_1 in Hc; lia].
  match goal with H : forallb _ (enc_alphabet e) = true |- _ => rewrite forallb_forall in H;
    specialize (H c) end.
  apply list_elem_of_lookup_2, list_elem_of_In in Hc.
  match goal with H : In _ _ → _ |- _ => specialize (H Hc) as Hok end.
  simpl. clear -Hok. split; destruct c; try done; vm_compute in Hok; discriminate.
Qed.

Lemma b64_sextets x y z :
  0 <= bz x / 4 < 64 ∧ 0 <= bz x mod 4 * 16 + bz y / 16 < 64 ∧
  0 <= bz y mod 16 * 4 + bz z / 64 < 64 ∧ 0 <= bz z mod 64 < 64 ∧
  0 <= bz x mod 4 * 16 < 64 ∧ 0 <= bz y mod 16 * 4 < 64.
Proof.
  pose proof (bz_range x). pose proof (bz_range y). pose proof (bz_range z).
  Z.div_mod_to_equations; lia.
Qed.

Lemma zb_cong a c : a mod 256 = bz c → zb a = c.
Proof. intros H. apply bz_inj. by rewrite bz_zb. Qed.

(** The arithmetic of one regrouped byte. *)
Ltac regroup x y z :=
  apply zb_cong; pose proof (bz_range x); pose proof (bz_range y); pose proof (bz_range z);
  Z.div_mod_to_equations; lia.

Lemma group4_encode x y z :
  group4 e (b64_char e (bz x / 4)) (b64_char e (bz x mod 4 * 16 + bz y / 16))
    (b64_char e (bz y mod 16 * 4 + bz z / 64)) (b64_char e (bz z mod 64)) = Some [x; y; z].
Proof.
  destruct (b64_sextets x y z) as (? & ? & ? & ? & _). unfold group4.
  rewrite !b64_value_char by done. simpl. do 2 f_equal; [regroup x y z|f_equal; [regroup x y z|f_equal]].
  regroup x y z.
Qed.

Lemma group3_encode x y :
  group3 e (b64_char e (bz x / 4)) (b64_char e (bz x mod 4 * 16 + bz y / 16))
    (b64_char e (bz y mod 16 * 4)) = Some [x; y].
Proof.
  destruct (b64_sextets x y x00) as (? & ? & _ & _ & _ & ?). unfold group3.
  rewrite !b64_value_char by done. simpl. do 2 f_equal; [regroup x y x|f_equal; regroup x y x].
Qed.

Lemma group2_encode x :
  group2 e (b64_char e (bz x / 4)) (b64_char e (bz x mod 4 * 16)) = Some [x].
Proof.
  destruct (b64_sextets x x00 x00) as (? & _ & _ & _ & ? & _). unfold group2.
  rewrite !b64_value_char by done. simpl. do 2 f_equal. regroup x x x.
Qed.

(** Induction by groups of three bytes. *)
Lemma group_ind (P : bytes → Prop) :
  P [] → (∀ x, P [x]) → (∀ x y, P [x; y]) →
  (∀ x y z s, P s → P (x :: y :: z :: s)) → ∀ s, P s.
Proof.
  intros H0 H1 H2 H3 s. remember (length s) as n eqn:En. revert s En.
  induction n as [n IH] using lt_wf_ind. intros [|x [|y [|z s]]] ->; auto.
  apply H3. apply (IH (length s)); [simpl; lia|done].
Qed.

Lemma decode_groups_encode s : decode_groups e (EncodeToString e s) = Some s.
Proof.
  induction s as [|x|x y|x y z s IH] using group_ind; [done| | |].
  - cbn [EncodeToString]. unfold padding. destruct (enc_pad e) eqn:Ep; cbn [decode_groups replicate];
      rewrite Ep; [rewrite beq_refl|]; apply group2_encode.
  - cbn [EncodeToString]. unfold padding.
    pose proof (b64_char_byte (bz y mod 16 * 4)) as [_ Hn].
    { by destruct (b64_sextets x y x00) as (_ & _ & _ & _ & _ & ?). }
    destruct (enc_pad e) eqn:Ep; cbn [decode_groups replicate]; rewrite Ep; [|apply group3_encode].
    rewrite (proj2 (beq_false _ _) Hn), beq_refl. apply group3_encode.
  - cbn [EncodeToString decode_groups]. rewrite group4_encode.
    destruct (b64_sextets x y z) as (_ & _ & _ & Hs & _ & _).
    destruct (b64_char_byte _ Hs) as [_ Hn].
    destruct (EncodeToString e s) as [|c t] eqn:E.
    + simpl in IH. injection IH as <-. by rewrite (proj2 (beq_false _ _) Hn), !andb_false_r.
    + simpl in IH |- *. by rewrite IH.
Qed.

Lemma EncodeToString_bytes s : Forall (λ c, b64_byte c = true) (EncodeToString e s).
Proof.
  assert (∀ n, Forall (λ c, b64_byte c = true) (padding e n)) as Hpad.
  { intros n. unfold padding. destruct (enc_pad e); [|constructor]. by apply Forall_replicate. }
  induction s as [|x|x y|x y z s IH] using group_ind; cbn [EncodeToString]; [constructor| | |];
    [destruct (b64_sextets x x00 x00) as (?&?&?&?&?&?)
    |destruct (b64_sextets x y x00) as (?&?&?&?&?&?)
    |destruct (b64_sextets x y z) as (?&?&?&?&?&?)];
    repeat (apply Forall_cons; split; [by apply b64_char_byte|]); auto.
Qed.

Lemma filter_id {A} (p : A → bool) l : Forall (λ c, p c = true) l → List.filter p l = l.
Proof. induction 1 as [|c l Hc _ IH]; simpl; [done|]. by rewrite Hc, IH. Qed.

(** Decoding an encoded text gives the bytes back. *)
Lemma DecodeString_EncodeToString s : DecodeString e (EncodeToString e s) = Some s.
Proof.
  unfold DecodeString. rewrite filter_id; [apply decode_groups_encode|].
  eapply Forall_impl; [apply EncodeToString_bytes|]. intros c. by destruct c.
Qed.

Lemma EncodeToString_length s :
  length (EncodeToString e s) =
  (if enc_pad e then (length s + 2) / 3 * 4 else (length s * 4 + 2) / 3)%nat.
Proof.
  induction s as [|x|x y|x y z s IH] using group_ind; cbn [EncodeToString]; unfold padding in *;
    destruct (enc_pad e); try reflexivity; cbn [length]; rewrite IH.
  - replace (S (S (S (length s))) + 2)%nat with (1 * 3 + (length s + 2))%nat by lia.
    rewrite Nat.div_add_l by lia. lia.
  - replace (S (S (S (length s))) * 4 + 2)%nat with (4 * 3 + (length s * 4 + 2))%nat by lia.
    rewrite Nat.div_add_l by lia. lia.
Qed.
End base64.

Lemma StdEncoding_ok : enc_ok StdEncoding = true.
Proof. vm_compute. reflexivity. Qed.
Lemma RawStdEncoding_ok : enc_ok RawStdEncoding = true.
Proof. vm_compute. reflexivity. Qed.
Lemma URLEncoding_ok : enc_ok URLEncoding = true.
Proof. vm_compute. reflexivity. Qed.
Lemma RawURLEncoding_ok : enc_ok RawURLEncoding = true.
Proof. vm_compute. reflexivity. Qed.
#[export] Hint Resolve StdEncoding_ok RawStdEncoding_ok URLEncoding_ok RawURLEncoding_ok : go.

(** ** net/url query components *)

Definition unhex (c : byte) : option Z :=
  if between "0" "9" c then Some (bz c - 48)
  else if between "a" "f" c then Some (bz c - 87)
  else if between "A" "F" c then Some (bz c - 55)
  else None.

Definition upperhex (n : Z) : byte := zb (if n <? 10 then 48 + n else 55 + n).

(** [None] is an escape that is cut off or not hexadecimal. *)
Fixpoint QueryUnescape (s : bytes) : option bytes :=
  match s with
  | [] => Some []
  | c :: s' =>
      if c =b "%" then
        match s' with
        | h :: l :: t =>
            match unhex h, unhex l with
            | Some a, Some b => cons (zb (a * 16 + b)) <$> QueryUnescape t
            | _, _ => None
            end
        | _ => None
        end
      else cons (if c =b "+" then " "%byte else c) <$> QueryUnescape s'
  end.

Definition unreserved (c : byte) : bool :=
  is_digit c || between "a" "z" c || between "A" "Z" c || bool_decide (c ∈ str "-_.~").

Definition escape_byte (c : byte) : bytes :=
  if unreserved c then [c]
  else if c =b " " then ["+"%byte]
  else ["%"%byte; upperhex (bz c / 16); upperhex (bz c mod 16)].

Definition QueryEscape (s : bytes) : bytes := concat (map escape_byte s).

(** [url.ParseQuery]: the pairs in order, and whether any part was malformed. *)
Definition parse_pair (part : bytes) : option (bytes * bytes) * bool :=
  if bool_decide (";"%byte ∈ part) then (None, true)
  else if bytes_eqb part [] then (None, false)
  else
    let '(k, v) := match IndexByte part "=" with
                   | Some i => (take i part, drop (S i) part)
                   | None => (part, [])
                   end in
    match QueryUnescape k, QueryUnescape v with
    | Some k', Some v' => (Some (k', v'), false)
    | _, _ => (None, true)
    end.

Definition ParseQuery (query : bytes) : list (bytes * bytes) * bool :=
  let parts := map parse_pair (Split query "&") in
  (omap fst parts, existsb snd parts).

Definition values_of (l : list (bytes * bytes)) (k : bytes) : list bytes :=
  omap (λ p, if bytes_eqb p.1 k then Some p.2 else None) l.

Lemma QueryUnescape_escape_byte c t :
  QueryUnescape (escape_byte c ++ t) = cons c <$> QueryUnescape t.
Proof. by destruct c. Qed.

Lemma QueryUnescape_QueryEscape s : QueryUnescape (QueryEscape s) = Some s.
Proof.
  unfold QueryEscape. induction s as [|c s IH]; [done|]. cbn [map concat].
  rewrite QueryUnescape_escape_byte, IH. done.
Qed.

(** ** math/big: big-endian byte strings *)

Fixpoint be_bytes (n : nat) (z : Z) : bytes :=
  match n with
  | O => []
  | S n' => be_bytes n' (z / 256) ++ [zb z]
  end.

(** [SetBytes]. *)
Definition of_bytes (s : bytes) : Z := foldl (λ z c, z * 256 + bz c) 0 s.

(** [FillBytes] on a buffer of [n] bytes panics when the value does not fit. *)
Definition FillBytes (n : nat) (z : Z) : outcome bytes :=
  if z <? 256 ^ Z.of_nat n then Done (be_bytes n z) else Panic.

(** [Bytes]: without leading zeros. *)
Definition byte_len (z : Z) : nat := Z.to_nat ((Z.log2 (z * 2) + 7) / 8).
Definition big_Bytes (z : Z) : bytes := be_bytes (byte_len z) z.

Lemma be_bytes_length n z : length (be_bytes n z) = n.
Proof. revert z. induction n as [|n IH]; intros z; simpl; [done|]. rewrite length_app, IH. simpl. lia. Qed.

Lemma of_bytes_be_bytes n z : 0 <= z < 256 ^ Z.of_nat n → of_bytes (be_bytes n z) = z.
Proof.
  revert z. induction n as [|n IH]; intros z Hz.
  { change (256 ^ Z.of_nat 0) with 1 in Hz. change (of_bytes (be_bytes 0 z)) with 0. lia. }
  rewrite Nat2Z.inj_succ, Z.pow_succ_r in Hz by lia. simpl be_bytes. unfold of_bytes in *.
  rewrite foldl_app, IH by (split; [apply Z.div_pos; lia|apply Z.div_lt_upper_bound; lia]).
  simpl. rewrite bz_zb. pose proof (Z.div_mod z 256). lia.
Qed.

Lemma of_bytes_snoc s c : of_bytes (s ++ [c]) = of_bytes s * 256 + bz c.
Proof. unfold of_bytes. by rewrite foldl_app. Qed.

Lemma of_bytes_range s : 0 <= of_bytes s < 256 ^ Z.of_nat (length s).
Proof.
  induction s as [|c s IH] using rev_ind; [done|]. rewrite of_bytes_snoc, length_app.
  replace (Z.of_nat (length s + length [c])) with (Z.succ (Z.of_nat (length s))) by (simpl; lia).
  rewrite Z.pow_succ_r by lia. pose proof (bz_range c). nia.
Qed.

Lemma be_bytes_of_bytes s : be_bytes (length s) (of_bytes s) = s.
Proof.
  induction s as [|c s IH] using rev_ind; [done|]. rewrite of_bytes_snoc, length_app, Nat.add_1_r.
  cbn [be_bytes]. pose proof (bz_range c).
  replace ((of_bytes s * 256 + bz c) / 256) with (of_bytes s) by (Z.div_mod_to_equations; lia).
  rewrite IH. f_equal. f_equal. apply zb_cong. Z.div_mod_to_equations; lia.
Qed.

Lemma byte_len_spec z : 0 <= z → z < 256 ^ Z.of_nat (byte_len z).
Proof.
  intros Hz. unfold byte_len. destruct (Z.eq_dec z 0) as [->|]; [done|].
  pose proof (Z.log2_nonneg (z * 2)). pose proof (Z.log2_spec (z * 2) ltac:(lia)) as [_ Hs].
  rewrite Z2Nat.id by (apply Z.div_pos; lia). change 256 with (2 ^ 8). rewrite <- Z.pow_mul_r by (try apply Z.div_pos; lia).
  assert (Z.log2 (z * 2) <= 8 * ((Z.log2 (z * 2) + 7) / 8)) as Hle by (Z.div_mod_to_equations; lia).
  apply (Z.pow_le_mono_r 2) in Hle; [|lia]. rewrite Z.pow_succ_r in Hs by lia. lia.
Qed.

Lemma of_bytes_big_Bytes z : 0 <= z → of_bytes (big_Bytes z) = z.
Proof. intros Hz. apply of_bytes_be_bytes. split; [done|]. by apply byte_len_spec. Qed.

(** ** time

    A [time.Time] is its nanoseconds since year 1, whose seconds are a 64-bit
    integer; a [time.Duration] is a number of nanoseconds in 64 bits. *)

Definition wrap64 (z : Z) : Z := (z + 2 ^ 63) mod 2 ^ 64 - 2 ^ 63.
Definition Second : Z := 1000000000.
Definition Minute : Z := 60 * Second.
Definition Hour : Z := 60 * Minute.
Definition unixToInternal : Z := 62135596800.

Definition time_Unix (sec : Z) : Z := wrap64 (sec + unixToInternal) * Second.
Definition Time_Unix (t : Z) : Z := wrap64 (t / Second - unixToInternal).
Definition time_Add (t d : Z) : Z := wrap64 ((t + d) / Second) * Second + (t + d) mod Second.
Definition time_Sub (t u : Z) : Z := Z.max (- 2 ^ 63) (Z.min (2 ^ 63 - 1) (t - u)).
Definition After (t u : Z) : bool := u <? t.

Lemma wrap64_small z : - 2 ^ 63 <= z < 2 ^ 63 → wrap64 z = z.
Proof. intros Hz. unfold wrap64. rewrite Z.mod_small by lia. lia. Qed.

Lemma time_Add_small t d : - 2 ^ 63 * Second <= t + d < 2 ^ 63 * Second → time_Add t d = t + d.
Proof.
  unfold Second. intros Hr. unfold time_Add, Second.
  rewrite wrap64_small by (Z.div_mod_to_equations; lia).
  pose proof (Z.div_mod (t + d) 1000000000). lia.
Qed.

Lemma time_Unix_Unix t : 0 <= t / Second < 2 ^ 62 → time_Unix (Time_Unix t) = t / Second * Second.
Proof.
  unfold time_Unix, Time_Unix, unixToInternal. intros Ht.
  rewrite (wrap64_small (t / Second - _)) by lia. rewrite wrap64_small by lia. f_equal. lia.
Qed.

(** ** net: a host and a port; IPv6 addresses in brackets *)

Definition JoinHostPort (host port : bytes) : bytes :=
  match IndexByte host ":" with
  | Some _ => str "[" ++ host ++ str "]:" ++ port
  | None => host ++ str ":" ++ port
  end.
