(* ===== verification/GoURL.v ===== *)
(** * net/url

    URLs, their parsing and their text, after the Go package: the modes of
    percent-encoding, [Parse], [URL.String], [URL.Hostname] and [URL.Port]. *)

From S2P Require Import Prelude GoLib GoText.

#[local] Open Scope Z_scope.

Inductive encoding := encodePath | encodeUserPassword | encodeHost | encodeZone | encodeFragment.

Definition shouldEscape (c : byte) (mode : encoding) : bool :=
  if is_digit c || between "a" "z" c || between "A" "Z" c then false
  else if match mode with encodeHost | encodeZone => bool_decide (c ∈ x22 :: str "!$&'()*+,;=:[]<>")
          | _ => false end then false
  else if bool_decide (c ∈ str "-_.~") then false
  else if bool_decide (c ∈ str "$&+,/:;=?@") then
    match mode with
    | encodePath => c =b "?"
    | encodeUserPassword => bool_decide (c ∈ str "@/?:")
    | encodeFragment => false
    | _ => true
    end
  else match mode with
       | encodeFragment => negb (bool_decide (c ∈ str "!()*"))
       | _ => true
       end.

Definition url_escape (s : bytes) (mode : encoding) : bytes :=
  concat (map (λ c, if shouldEscape c mode
                    then ["%"%byte; upperhex (bz c / 16); upperhex (bz c mod 16)] else [c]) s).

Definition escape_allowed (mode : encoding) (h l : byte) (a b : Z) : bool :=
  let is25 := (h =b "2") && (l =b "5") in
  match mode with
  | encodeHost => (8 <=? a) || is25
  | encodeZone => is25 || (zb (a * 16 + b) =b " ") || negb (shouldEscape (zb (a * 16 + b)) encodeHost)
  | _ => true
  end.

Definition literal_allowed (mode : encoding) (c : byte) : bool :=
  match mode with
  | encodeHost | encodeZone => negb ((bz c <? 128) && shouldEscape c mode)
  | _ => true
  end.

Fixpoint url_unescape (s : bytes) (mode : encoding) : option bytes :=
  match s with
  | [] => Some []
  | c :: s' =>
      if c =b "%" then
        match s' with
        | h :: l :: t =>
            match unhex h, unhex l with
            | Some a, Some b =>
                if escape_allowed mode h l a b
                then cons (zb (a * 16 + b)) <$> url_unescape t mode else None
            | _, _ => None
            end
        | _ => None
        end
      else if literal_allowed mode c then cons c <$> url_unescape s' mode else None
  end.

Record Userinfo := { ui_username : bytes; ui_password : option bytes }.

Record URL := {
  u_Scheme : bytes;
  u_Opaque : bytes;
  u_User : option Userinfo;
  u_Host : bytes;
  u_Path : bytes;
  u_RawPath : bytes;
  u_OmitHost : bool;
  u_ForceQuery : bool;
  u_RawQuery : bytes;
  u_Fragment : bytes;
  u_RawFragment : bytes
}.

(** [strings.Cut] at one byte: the text before it, and the text after it. *)
Definition cut_byte (s : bytes) (c : byte) : bytes * bytes :=
  match IndexByte s c with
  | Some i => (take i s, drop (S i) s)
  | None => (s, [])
  end.

(** [getScheme]: [None] is a missing scheme, a pair of an empty scheme and the
    whole text is no scheme. *)
Fixpoint scheme_loop (first : bool) (acc s raw : bytes) : option (bytes * bytes) :=
  match s with
  | [] => Some ([], raw)
  | c :: s' =>
      if between "a" "z" c || between "A" "Z" c then scheme_loop false (acc ++ [c]) s' raw
      else if is_digit c || bool_decide (c ∈ str "+-.") then
        if first then Some ([], raw) else scheme_loop false (acc ++ [c]) s' raw
      else if c =b ":" then if first then None else Some (acc, s')
      else Some ([], raw)
  end.
Definition getScheme (raw : bytes) : option (bytes * bytes) := scheme_loop true [] raw raw.

Definition validOptionalPort (port : bytes) : bool :=
  match port with
  | [] => true
  | c :: ds => (c =b ":") && forallb is_digit ds
  end.

Definition parseHost (host : bytes) : option bytes :=
  match LastIndexByte host "[" with
  | Some _ =>
      match LastIndexByte host "]" with
      | None => None
      | Some i =>
          if validOptionalPort (drop (S i) host) then
            match Index (take i host) (str "%25") with
            | Some zone =>
                h1 ← url_unescape (take zone host) encodeHost;
                h2 ← url_unescape (drop zone (take i host)) encodeZone;
                h3 ← url_unescape (drop i host) encodeHost;
                Some (h1 ++ h2 ++ h3)
            | None => url_unescape host encodeHost
            end
          else None
      end
  | None =>
      match LastIndexByte host ":" with
      | Some i => if validOptionalPort (drop i host) then url_unescape host encodeHost else None
      | None => url_unescape host encodeHost
      end
  end.

Definition validUserinfo (s : bytes) : bool :=
  forallb (λ c, is_digit c || between "a" "z" c || between "A" "Z" c ||
                bool_decide (c ∈ str "-._:~!$&'()*+,;=%@")) s.

Definition parseAuthority (authority : bytes) : option (option Userinfo * bytes) :=
  match LastIndexByte authority "@" with
  | None => host ← parseHost authority; Some (None, host)
  | Some i =>
      host ← parseHost (drop (S i) authority);
      let ui := take i authority in
      if validUserinfo ui then
        if bool_decide (":"%byte ∈ ui) then
          let '(n, p) := cut_byte ui ":" in
          n' ← url_unescape n encodeUserPassword;
          p' ← url_unescape p encodeUserPassword;
          Some (Some {| ui_username := n'; ui_password := Some p' |}, host)
        else
          n' ← url_unescape ui encodeUserPassword;
          Some (Some {| ui_username := n'; ui_password := None |}, host)
      else None
  end.

(** The authority and the path of what follows the scheme and precedes the
    query; the flag is [OmitHost]. *)
Definition split_authority (scheme rest : bytes) : option (option Userinfo * bytes * bytes * bool) :=
  if HasPrefix rest (str "//") && (negb (bytes_eqb scheme []) || negb (HasPrefix rest (str "///"))) then
    let authority := drop 2 rest in
    let '(auth, path) := match IndexByte authority "/" with
                         | Some i => (take i authority, drop i authority)
                         | None => (authority, [])
                         end in
    '(user, host) ← parseAuthority auth; Some (user, host, path, false)
  else Some (None, [], rest, negb (bytes_eqb scheme []) && HasPrefix rest (str "/")).

Section parse.
Context `{UnicodeCase}.

Definition parse_rest (scheme rest query : bytes) (force : bool) (frag : bytes) : option URL :=
  if negb (HasPrefix rest (str "/")) && negb (bytes_eqb scheme []) then
    f ← url_unescape frag encodeFragment;
    Some {| u_Scheme := scheme; u_Opaque := rest; u_User := None; u_Host := []; u_Path := [];
            u_RawPath := []; u_OmitHost := false; u_ForceQuery := force; u_RawQuery := query;
            u_Fragment := f; u_RawFragment := if bytes_eqb (url_escape f encodeFragment) frag then [] else frag |}
  else if negb (HasPrefix rest (str "/")) && bool_decide (":"%byte ∈ (cut_byte rest "/").1) then None
  else
    '(user, host, path, omit) ← split_authority scheme rest;
    p ← url_unescape path encodePath;
    f ← url_unescape frag encodeFragment;
    Some {| u_Scheme := scheme; u_Opaque := []; u_User := user; u_Host := host; u_Path := p;
            u_RawPath := if bytes_eqb (url_escape p encodePath) path then [] else path;
            u_OmitHost := omit; u_ForceQuery := force; u_RawQuery := query;
            u_Fragment := f; u_RawFragment := if bytes_eqb (url_escape f encodeFragment) frag then [] else frag |}.

Definition is_ctl (c : byte) : bool := (bz c <? 32) || (bz c =? 127).

Definition url_Parse (raw : bytes) : option URL :=
  let '(u, frag) := cut_byte raw "#" in
  if existsb is_ctl u then None
  else if bytes_eqb u (str "*") then
    f ← url_unescape frag encodeFragment;
    Some {| u_Scheme := []; u_Opaque := []; u_User := None; u_Host := []; u_Path := str "*";
            u_RawPath := []; u_OmitHost := false; u_ForceQuery := false; u_RawQuery := [];
            u_Fragment := f; u_RawFragment := if bytes_eqb (url_escape f encodeFragment) frag then [] else frag |}
  else
    '(scheme, rest) ← getScheme u;
    let scheme := ToLower scheme in
    let '(r, q) := cut_byte rest "?" in
    let force := bytes_eqb rest (r ++ ["?"%byte]) in
    parse_rest scheme r q force frag.
End parse.

(** ** Texts of URLs *)

Definition validEncoded (s : bytes) (mode : encoding) : bool :=
  forallb (λ c, bool_decide (c ∈ str "!$&'()*+,;=:@[]%") || negb (shouldEscape c mode)) s.

Definition escaped (raw s : bytes) (mode : encoding) : option bytes :=
  if negb (bytes_eqb raw []) && validEncoded raw mode && bool_decide (url_unescape raw mode = Some s)
  then Some raw else None.

Definition EscapedPath (u : URL) : bytes :=
  match escaped (u_RawPath u) (u_Path u) encodePath with
  | Some p => p
  | None => if bytes_eqb (u_Path u) (str "*") then str "*" else url_escape (u_Path u) encodePath
  end.

Definition EscapedFragment (u : URL) : bytes :=
  match escaped (u_RawFragment u) (u_Fragment u) encodeFragment with
  | Some f => f
  | None => url_escape (u_Fragment u) encodeFragment
  end.

Definition Userinfo_String (ui : Userinfo) : bytes :=
  url_escape (ui_username ui) encodeUserPassword ++
  match ui_password ui with
  | Some p => str ":" ++ url_escape p encodeUserPassword
  | None => []
  end.

Definition nonempty (s : bytes) : bool := negb (bytes_eqb s []).

Definition authority_text (u : URL) : bytes :=
  let has_user := bool_decide (is_Some (u_User u)) in
  if nonempty (u_Scheme u) || nonempty (u_Host u) || has_user then
    if u_OmitHost u && negb (nonempty (u_Host u)) && negb has_user then []
    else
      (if nonempty (u_Host u) || nonempty (u_Path u) || has_user then str "//" else []) ++
      match u_User u with Some ui => Userinfo_String ui ++ str "@" | None => [] end ++
      url_escape (u_Host u) encodeHost
  else [].

Definition URL_String (u : URL) : bytes :=
  let scheme := if nonempty (u_Scheme u) then u_Scheme u ++ str ":" else [] in
  let body :=
    if nonempty (u_Opaque u) then scheme ++ u_Opaque u
    else
      let path := EscapedPath u in
      let buf := scheme ++ authority_text u ++
        (if nonempty path && negb (HasPrefix path (str "/")) && nonempty (u_Host u) then str "/" else []) in
      let dot := if negb (nonempty buf) && bool_decide (":"%byte ∈ (cut_byte path "/").1)
                 then str "./" else [] in
      buf ++ dot ++ path in
  body ++ (if u_ForceQuery u || nonempty (u_RawQuery u) then str "?" ++ u_RawQuery u else []) ++
  (if nonempty (u_Fragment u) then str "#" ++ EscapedFragment u else []).

(** [splitHostPort]: the host without brackets, and the port. *)
Definition splitHostPort (hostPort : bytes) : bytes * bytes :=
  let '(host, port) :=
    match LastIndexByte hostPort ":" with
    | Some colon =>
        if validOptionalPort (drop colon hostPort)
        then (take colon hostPort, drop (S colon) hostPort) else (hostPort, [])
    | None => (hostPort, [])
    end in
  if HasPrefix host (str "[") && HasSuffix host (str "]")
  then (take (length host - 2) (drop 1 host), port) else (host, port).

Definition Hostname (u : URL) : bytes := (splitHostPort (u_Host u)).1.
Definition Port (u : URL) : bytes := (splitHostPort (u_Host u)).2.
Definition IsAbs (u : URL) : bool := nonempty (u_Scheme u).

Definition RequestURI (u : URL) : bytes :=
  (if nonempty (u_Opaque u)
   then (if HasPrefix (u_Opaque u) (str "//") then u_Scheme u ++ str ":" ++ u_Opaque u else u_Opaque u)
   else let p := EscapedPath u in if nonempty p then p else str "/") ++
  (if u_ForceQuery u || nonempty (u_RawQuery u) then str "?" ++ u_RawQuery u else []).

(** ** Examples, with case tables for ASCII *)

Definition ascii_case : UnicodeCase :=
  {| unicode_ToLower := id; unicode_ToUpper := id; unicode_EqualFold := bytes_eqb |}.

Example parse_full :
  URL_String <$> @url_Parse ascii_case (str "HTTPS://u:p@Example.com:8443/a%2Fb?x=1#top") =
  Some (str "https://u:p@Example.com:8443/a%2Fb?x=1#top").
Proof. vm_compute. reflexivity. Qed.

Example parse_host_port :
  (λ u, (Hostname u, Port u)) <$> @url_Parse ascii_case (str "http://[::1]:80/") =
  Some (str "::1", str "80").
Proof. vm_compute. reflexivity. Qed.

Example parse_colon_segment : @url_Parse ascii_case (str "a_b:c/d") = None.
Proof. vm_compute. reflexivity. Qed.
