(* ===== verification/GoJson.v ===== *)
(** * encoding/json

    JSON texts as package encoding/json writes and reads them: the string
    quoting of [Marshal], the grammar its scanner accepts with the unquoting of
    [Unmarshal], and the decoding of objects into struct fields.  The main lemma
    is that a written value is read back ([parse_value_render]). *)

From S2P Require Import Prelude GoLib GoText.

#[local] Open Scope Z_scope.

(** Numbers keep their text. *)
Inductive json :=
| JNull
| JBool (b : bool)
| JNum (n : bytes)
| JStr (s : bytes)
| JArr (l : list json)
| JObj (m : list (bytes * json)).

(** ** Strings *)

Definition lowerhex (n : Z) : byte := zb (if n <? 10 then 48 + n else 87 + n).
Definition dquote : byte := x22.
Definition backslash : byte := x5c.

(** The six-character escape of a code unit. *)
Definition u_escape (v : Z) : bytes :=
  [backslash; "u"%byte; lowerhex (v / 4096); lowerhex (v / 256 mod 16); lowerhex (v / 16 mod 16); lowerhex (v mod 16)].

Definition quote_ascii (c : byte) : bytes :=
  if (c =b dquote) || (c =b backslash) then [backslash; c]
  else if c =b x08 then [backslash; "b"%byte]
  else if c =b x0c then [backslash; "f"%byte]
  else if c =b x0a then [backslash; "n"%byte]
  else if c =b x0d then [backslash; "r"%byte]
  else if c =b x09 then [backslash; "t"%byte]
  else if (bz c <? 32) || (c =b "<") || (c =b ">") || (c =b "&") then u_escape (bz c)
  else [c].

(** Line separators are escaped; a byte that starts no rune is written as the
    replacement character. *)
Definition quote_rune3 (a b c : byte) : bytes :=
  if (a =b xe2) && (b =b x80) && (c =b xa8) then u_escape 0x2028
  else if (a =b xe2) && (b =b x80) && (c =b xa9) then u_escape 0x2029
  else [a; b; c].

Fixpoint quote_body (s : bytes) : bytes :=
  match s with
  | [] => []
  | a :: s1 =>
      if bz a <? 128 then quote_ascii a ++ quote_body s1 else
      match s1 with
      | [] => u_escape RuneError
      | b :: s2 =>
          if utf8_2 a b then a :: b :: quote_body s2 else
          match s2 with
          | [] => u_escape RuneError ++ quote_body s1
          | c :: s3 =>
              if utf8_3 a b c then quote_rune3 a b c ++ quote_body s3 else
              match s3 with
              | [] => u_escape RuneError ++ quote_body s1
              | d :: s4 =>
                  if utf8_4 a b c d then a :: b :: c :: d :: quote_body s4
                  else u_escape RuneError ++ quote_body s1
              end
          end
      end
  end.

Definition hex4 (a b c d : byte) : option Z :=
  p ← unhex a; q ← unhex b; r ← unhex c; t ← unhex d; Some (p * 4096 + q * 256 + r * 16 + t).

Definition is_surrogate (v : Z) : bool := (0xD800 <=? v) && (v <? 0xE000).

(** [utf16.DecodeRune] of a pair. *)
Definition surrogate_pair (hi lo : Z) : option Z :=
  if (0xD800 <=? hi) && (hi <? 0xDC00) && (0xDC00 <=? lo) && (lo <? 0xE000)
  then Some ((hi - 0xD800) * 1024 + (lo - 0xDC00) + 0x10000) else None.

Definition simple_escape (e : byte) : option byte :=
  if (e =b dquote) || (e =b backslash) || (e =b "/") then Some e
  else if e =b "b" then Some x08 else if e =b "f" then Some x0c
  else if e =b "n" then Some x0a else if e =b "r" then Some x0d
  else if e =b "t" then Some x09 else None.

Definition cons_res (u : bytes) (r : option (bytes * bytes)) : option (bytes * bytes) :=
  match r with Some (s, rest) => Some (u ++ s, rest) | None => None end.

(** The text after an opening quote: the string and what follows its closing
    quote. *)
Fixpoint parse_str (s : bytes) : option (bytes * bytes) :=
  match s with
  | [] => None
  | a :: s1 =>
      if a =b dquote then Some ([], s1)
      else if a =b backslash then
        match s1 with
        | [] => None
        | e :: s2 =>
            if e =b "u" then
              match s2 with
              | h1 :: h2 :: h3 :: h4 :: s6 =>
                  match hex4 h1 h2 h3 h4 with
                  | None => None
                  | Some v =>
                      if is_surrogate v then
                        match s6 with
                        | f :: u :: g1 :: g2 :: g3 :: g4 :: s12 =>
                            match (if (f =b backslash) && (u =b "u") then hex4 g1 g2 g3 g4 else None) with
                            | Some w =>
                                match surrogate_pair v w with
                                | Some r => cons_res (EncodeRune r) (parse_str s12)
                                | None => cons_res (EncodeRune RuneError) (parse_str s6)
                                end
                            | None => cons_res (EncodeRune RuneError) (parse_str s6)
                            end
                        | _ => cons_res (EncodeRune RuneError) (parse_str s6)
                        end
                      else cons_res (EncodeRune v) (parse_str s6)
                  end
              | _ => None
              end
            else match simple_escape e with
                 | Some c => cons_res [c] (parse_str s2)
                 | None => None
                 end
        end
      else if bz a <? 32 then None
      else if bz a <? 128 then cons_res [a] (parse_str s1)
      else
        match s1 with
        | [] => None
        | b :: s2 =>
            if utf8_2 a b then cons_res [a; b] (parse_str s2) else
            match s2 with
            | [] => cons_res (EncodeRune RuneError) (parse_str s1)
            | c :: s3 =>
                if utf8_3 a b c then cons_res [a; b; c] (parse_str s3) else
                match s3 with
                | [] => cons_res (EncodeRune RuneError) (parse_str s1)
                | d :: s4 =>
                    if utf8_4 a b c d then cons_res [a; b; c; d] (parse_str s4)
                    else cons_res (EncodeRune RuneError) (parse_str s1)
                end
            end
        end
  end.

(** A valid text is read back from its quotation. *)
Lemma parse_quote_ascii a t : bz a < 128 → parse_str (quote_ascii a ++ t) = cons_res [a] (parse_str t).
Proof. intros Ha. destruct a; first [reflexivity | exfalso; vm_compute in Ha; discriminate]. Qed.

Lemma not_special a : 128 <= bz a →
  (a =b dquote) = false ∧ (a =b backslash) = false ∧ (bz a <? 32) = false ∧ (bz a <? 128) = false.
Proof.
  intros Ha. split_and!; [| |by apply Z.ltb_ge; lia|by apply Z.ltb_ge; lia]; apply beq_false; intros ->;
    vm_compute in Ha; by apply Ha.
Qed.

Lemma parse_quote_rune3 a b c t : 128 <= bz a → utf8_2 a b = false → utf8_3 a b c = true →
  parse_str (quote_rune3 a b c ++ t) = cons_res [a; b; c] (parse_str t).
Proof.
  intros Ha H2 H3. unfold quote_rune3. destruct ((a =b xe2) && _ && (c =b xa8)) eqn:E1; [|destruct (_ && (c =b xa9)) eqn:E2].
  - bools. subst. reflexivity.
  - bools. subst. reflexivity.
  - cbn [app parse_str]. destruct (not_special a Ha) as (-> & -> & -> & ->). by rewrite H2, H3.
Qed.

Lemma parse_quote s rest : Valid s = true → parse_str (quote_body s ++ dquote :: rest) = Some (s, rest).
Proof.
  remember (length s) as n eqn:En. revert s En. induction n as [n IH] using lt_wf_ind.
  intros [|a s1] -> HV; [done|]. cbn [quote_body Valid] in *. destruct (bz a <? 128) eqn:E1.
  { bools. rewrite <- app_assoc, parse_quote_ascii by done.
    by rewrite (IH (length s1)) by (done || simpl; lia). }
  bools. destruct s1 as [|b s2]; [done|]. destruct (utf8_2 a b) eqn:E2.
  { cbn [app parse_str]. destruct (not_special a E1) as (-> & -> & -> & ->).
    by rewrite E2, (IH (length s2)) by (done || simpl; lia). }
  destruct s2 as [|c s3]; [done|]. destruct (utf8_3 a b c) eqn:E3.
  { rewrite <- app_assoc, parse_quote_rune3 by done. by rewrite (IH (length s3)) by (done || simpl; lia). }
  destruct s3 as [|d s4]; [done|]. destruct (utf8_4 a b c d) eqn:E4; [|done].
  cbn [app parse_str]. destruct (not_special a E1) as (-> & -> & -> & ->).
  by rewrite E2, E3, E4, (IH (length s4)) by (done || simpl; lia).
Qed.

(** ** Numbers *)

Definition number_tail (r : bytes) : option (bytes * bytes) :=
  match r with
  | c :: r1 =>
      if (c =b "e") || (c =b "E") then
        let '(sign, r2) := match r1 with
                           | d :: r2 => if (d =b "+") || (d =b "-") then ([d], r2) else ([], r1)
                           | [] => ([], r1)
                           end in
        let '(ds, r3) := span is_digit r2 in
        if bytes_eqb ds [] then None else Some (c :: sign ++ ds, r3)
      else Some ([], r)
  | [] => Some ([], r)
  end.

Definition number_fraction (r : bytes) : option (bytes * bytes) :=
  match r with
  | c :: r1 =>
      if c =b "." then
        let '(ds, r2) := span is_digit r1 in
        if bytes_eqb ds [] then None else cons_res (c :: ds) (number_tail r2)
      else number_tail r
  | [] => Some ([], r)
  end.

Definition number_digits (s : bytes) : option (bytes * bytes) :=
  match s with
  | [] => None
  | c :: r =>
      if c =b "0" then cons_res [c] (number_fraction r)
      else if is_digit c then let '(ds, r') := span is_digit s in cons_res ds (number_fraction r')
      else None
  end.

Definition parse_num (s : bytes) : option (bytes * bytes) :=
  match s with
  | c :: r => if c =b "-" then cons_res [c] (number_digits r) else number_digits s
  | [] => None
  end.

(** ** Values *)

Definition is_ws (c : byte) : bool := (c =b " ") || (c =b x09) || (c =b x0a) || (c =b x0d).
Definition skip_ws (s : bytes) : bytes := (span is_ws s).2.

(** [depth] is the nesting the scanner still allows, of the 10000 it starts
    with.  Every call consumes a byte before it makes another, so the length of
    the text is enough fuel. *)
Fixpoint parse_value (fuel : nat) (depth : Z) (s : bytes) {struct fuel} : option (json * bytes) :=
  match fuel with
  | O => None
  | S f =>
      match skip_ws s with
      | [] => None
      | c :: r =>
          if c =b dquote then '(v, r1) ← parse_str r; Some (JStr v, r1)
          else if c =b "{" then
            if depth <=? 0 then None
            else if HasPrefix (skip_ws r) (str "}") then Some (JObj [], drop 1 (skip_ws r))
            else '(m, r1) ← parse_members f (depth - 1) r; Some (JObj m, r1)
          else if c =b "[" then
            if depth <=? 0 then None
            else if HasPrefix (skip_ws r) (str "]") then Some (JArr [], drop 1 (skip_ws r))
            else '(l, r1) ← parse_elements f (depth - 1) r; Some (JArr l, r1)
          else if HasPrefix (c :: r) (str "true") then Some (JBool true, drop 4 (c :: r))
          else if HasPrefix (c :: r) (str "false") then Some (JBool false, drop 5 (c :: r))
          else if HasPrefix (c :: r) (str "null") then Some (JNull, drop 4 (c :: r))
          else '(n, r1) ← parse_num (c :: r); Some (JNum n, r1)
      end
  end
with parse_members (fuel : nat) (depth : Z) (s : bytes) {struct fuel} : option (list (bytes * json) * bytes) :=
  match fuel with
  | O => None
  | S f =>
      match skip_ws s with
      | c :: r =>
          if negb (c =b dquote) then None
          else
            '(k, r1) ← parse_str r;
            if negb (HasPrefix (skip_ws r1) (str ":")) then None
            else
              '(v, r2) ← parse_value f depth (drop 1 (skip_ws r1));
              match skip_ws r2 with
              | e :: r3 =>
                  if e =b "," then '(m, r4) ← parse_members f depth r3; Some ((k, v) :: m, r4)
                  else if e =b "}" then Some ([(k, v)], r3) else None
              | [] => None
              end
      | [] => None
      end
  end
with parse_elements (fuel : nat) (depth : Z) (s : bytes) {struct fuel} : option (list json * bytes) :=
  match fuel with
  | O => None
  | S f =>
      '(v, r1) ← parse_value f depth s;
      match skip_ws r1 with
      | e :: r2 =>
          if e =b "," then '(l, r3) ← parse_elements f depth r2; Some (v :: l, r3)
          else if e =b "]" then Some ([v], r2) else None
      | [] => None
      end
  end.

(** The value of a whole text, as [Unmarshal] checks it first. *)
Definition parse_json (s : bytes) : option json :=
  match parse_value (S (length s)) 10000 s with
  | Some (v, r) => if bytes_eqb (skip_ws r) [] then Some v else None
  | None => None
  end.

(** ** Writing *)

(** What may follow a value. *)
Definition delim (rest : bytes) : Prop :=
  match rest with [] => True | c :: _ => c = ","%byte ∨ c = "}"%byte ∨ c = "]"%byte end.

Lemma digits_acc_head fuel n acc : 1 <= n < 2 ^ Z.of_nat fuel →
  ∃ d ds, digits_acc fuel n acc = d :: ds ∧ d ≠ "0"%byte ∧ is_digit d = true.
Proof.
  revert n acc. induction fuel as [|fuel IH]; intros n acc Hn; [simpl in Hn; lia|].
  cbn [digits_acc]. destruct (n <? 10) eqn:E; bools.
  - eexists _, _. split; [done|]. rewrite Z.mod_small by lia. split; [|by apply digit_char; lia].
    intros [=H]%(f_equal bz). rewrite bz_zb_small in H by lia. change (bz "0") with 48 in H. lia.
  - apply IH. rewrite Nat2Z.inj_succ, Z.pow_succ_r in Hn by lia.
    split; [apply Z.div_le_lower_bound; lia|apply Z.div_lt_upper_bound; lia].
Qed.

Lemma digits_head n : 0 <= n → digits n = str "0" ∨
  ∃ d ds, digits n = d :: ds ∧ d ≠ "0"%byte ∧ is_digit d = true.
Proof.
  intros Hn. destruct (decide (n = 0)) as [->|]; [by left|right]. apply digits_acc_head.
  split; [lia|]. rewrite Nat2Z.inj_succ, Z2Nat.id by apply Z.log2_nonneg. apply Z.log2_spec. lia.
Qed.

Lemma number_fraction_delim rest : delim rest → number_fraction rest = Some ([], rest).
Proof. destruct rest as [|c r]; [done|]. by intros [->|[->| ->]]. Qed.

Lemma number_digits_app n rest : 0 <= n → delim rest → number_digits (digits n ++ rest) = Some (digits n, rest).
Proof.
  intros Hn Hd. destruct (digits_head n Hn) as [->|(d & ds & Hds & Hd0 & Hdd)].
  { cbn. by rewrite number_fraction_delim. }
  pose proof (digits_spec n Hn) as (_ & Ha & _). rewrite Hds in *. cbn [app number_digits].
  rewrite (proj2 (beq_false _ _)) by done. rewrite Hdd.
  change (d :: ds ++ rest) with ((d :: ds) ++ rest). rewrite (span_spec is_digit (d :: ds) rest).
  - by rewrite number_fraction_delim; [cbn; rewrite app_nil_r|].
  - done.
  - intros c t ->. by destruct Hd as [->|[->| ->]].
Qed.

Lemma parse_num_Itoa z rest : delim rest → parse_num (Itoa z ++ rest) = Some (Itoa z, rest).
Proof.
  intros Hd. unfold Itoa. destruct (z <? 0) eqn:E; bools.
  - cbn [app parse_num]. change ("-" =b "-")%byte with true. cbn iota. by rewrite number_digits_app by (done || lia).
  - rewrite <- (number_digits_app z rest) by done.
    destruct (digits_head z E) as [->|(d & ds & Hds & _ & Hdd)]; [done|]. rewrite Hds. cbn [app parse_num].
    by rewrite (proj2 (beq_false _ _)) by (by apply digit_not).
Qed.

(** ** Round trip *)

Definition json_induction (P : json → Prop)
  (Hnull : P JNull) (Hbool : ∀ b, P (JBool b)) (Hnum : ∀ n, P (JNum n)) (Hstr : ∀ s, P (JStr s))
  (Harr : ∀ l, Forall P l → P (JArr l)) (Hobj : ∀ m, Forall (λ kv, P kv.2) m → P (JObj m)) : ∀ v, P v :=
  fix rec (v : json) : P v :=
    match v with
    | JNull => Hnull | JBool b => Hbool b | JNum n => Hnum n | JStr s => Hstr s
    | JArr l => Harr l ((fix go l := match l return Forall P l with
                                     | [] => List.Forall_nil _ | x :: l => List.Forall_cons _ _ _ (rec x) (go l) end) l)
    | JObj m => Hobj m ((fix go m := match m return Forall (λ kv, P kv.2) m with
                                     | [] => List.Forall_nil _ | kv :: m => List.Forall_cons _ _ _ (rec kv.2) (go m) end) m)
    end.

Lemma skip_ws_stop c s : is_ws c = false → skip_ws (c :: s) = c :: s.
Proof. intros Hc. unfold skip_ws. cbn [span]. by rewrite Hc. Qed.

Lemma skip_ws_delim c s : delim (c :: s) → skip_ws (c :: s) = c :: s.
Proof. intros [->|[->| ->]]; by apply skip_ws_stop. Qed.

(** The first byte of a written value. *)
Definition value_head (c : byte) : Prop := is_ws c = false ∧ c ≠ "}"%byte ∧ c ≠ "]"%byte.

Lemma Itoa_head z : ∃ c t, Itoa z = c :: t ∧ (c = "-"%byte ∨ is_digit c = true).
Proof.
  unfold Itoa. destruct (z <? 0) eqn:E; bools; [eexists _, _; split; [done|by left]|].
  destruct (digits_head z E) as [->|(d & ds & -> & _ & Hd)]; eexists _, _; (split; [done|by right]).
Qed.

(** The text of a number, as the scanner reads it before a delimiter. *)
Definition number_text (n : bytes) : Prop :=
  (∃ c t, n = c :: t ∧ (c = "-"%byte ∨ is_digit c = true)) ∧ ∀ rest, delim rest → parse_num (n ++ rest) = Some (n, rest).

Lemma Itoa_number z : number_text (Itoa z).
Proof. split; [apply Itoa_head|]. intros rest. apply parse_num_Itoa. Qed.
#[export] Hint Resolve Itoa_number : go.

(** *** With any way of writing strings

    [qbody] writes the inside of a string literal; [ok_string] are the strings
    the scanner reads back. *)
Section writing.
Variables (qbody : bytes → bytes) (ok_string : bytes → bool).
Hypothesis quote_reads : ∀ s rest, ok_string s = true → parse_str (qbody s ++ dquote :: rest) = Some (s, rest).

Definition quote_with (s : bytes) : bytes := dquote :: qbody s ++ [dquote].

Fixpoint render_with (v : json) : bytes :=
  match v with
  | JNull => str "null"
  | JBool b => if b then str "true" else str "false"
  | JNum n => n
  | JStr s => quote_with s
  | JArr l => "["%byte :: Join (map render_with l) (str ",") ++ str "]"
  | JObj m => "{"%byte :: Join (map (λ kv, quote_with kv.1 ++ ":"%byte :: render_with kv.2) m) (str ",") ++ str "}"
  end.

(** Values that come back: good strings and numbers, bounded nesting. *)
Fixpoint wf_with (depth : Z) (v : json) : Prop :=
  match v with
  | JNull | JBool _ => True
  | JNum n => number_text n
  | JStr s => ok_string s = true
  | JArr l => 0 < depth ∧ foldr (λ x P, wf_with (depth - 1) x ∧ P) True l
  | JObj m => 0 < depth ∧ foldr (λ kv P, ok_string kv.1 = true ∧ wf_with (depth - 1) kv.2 ∧ P) True m
  end.

Lemma render_head v d : wf_with d v → ∃ c t, render_with v = c :: t ∧ value_head c.
Proof.
  destruct v as [|[]|n|s|l|m]; cbn [wf_with render_with]; intros Hw; try (eexists _, _; split; [done|by split_and!]).
  destruct Hw as [(c & t & -> & Hc) _]. exists c, t. split; [done|].
  destruct Hc as [->|Hc]; [by split_and!|]. by destruct c.
Qed.

Definition reads (v : json) : Prop := ∀ d fuel rest,
  wf_with d v → (length (render_with v) <= fuel)%nat → delim rest → parse_value fuel d (render_with v ++ rest) = Some (v, rest).

Definition render_member (kv : bytes * json) : bytes := quote_with kv.1 ++ ":"%byte :: render_with kv.2.

Lemma parse_member f d kv t rest :
  reads kv.2 → ok_string kv.1 = true → wf_with d kv.2 → (length (render_with kv.2) <= f)%nat → delim (t :: rest) →
  parse_members (S f) d (render_member kv ++ t :: rest) =
    if t =b "," then '(m, r) ← parse_members f d rest; Some (kv :: m, r)
    else if t =b "}" then Some ([kv], rest) else None.
Proof.
  intros Hr Hk Hw Hf Hd. destruct kv as [k v]. unfold render_member, quote_with. cbn [fst snd] in *.
  rewrite <- !app_assoc. cbn [app parse_members]. rewrite skip_ws_stop by done.
  change (dquote =b dquote) with true. cbn [negb]. rewrite <- !app_assoc. cbn [app].
  rewrite quote_reads by done. cbn [mbind option_bind]. rewrite skip_ws_stop by done.
  change (HasPrefix (":"%byte :: render_with v ++ t :: rest) (str ":")) with true. cbn [negb].
  change (drop 1 (":"%byte :: render_with v ++ t :: rest)) with (render_with v ++ t :: rest).
  rewrite Hr by done. cbn [mbind option_bind]. rewrite skip_ws_delim by done. done.
Qed.

Lemma parse_members_with m d fuel rest : m ≠ [] → Forall (λ kv, reads kv.2) m →
  foldr (λ kv P, ok_string kv.1 = true ∧ wf_with d kv.2 ∧ P) True m →
  (length (Join (map render_member m) (str ",")) < fuel)%nat →
  parse_members fuel d (Join (map render_member m) (str ",") ++ "}"%byte :: rest) = Some (m, rest).
Proof.
  intros Hne Hr. revert fuel Hne. induction Hr as [|kv m Hkv Hr IH]; intros fuel Hne Hw Hf; [done|].
  destruct Hw as (Hk & Hv & Hw). destruct fuel as [|f]; [lia|]. destruct m as [|kv' m'].
  - cbn [map Join] in *. rewrite parse_member; [done|done|done|done| |by right; left].
    unfold render_member, quote_with in Hf. lens.
  - cbn [map] in *. rewrite Join_cons in * by done. rewrite <- !app_assoc.
    change (str "," ++ ?x) with (","%byte :: x) at 1.
    rewrite parse_member; [|done|done|done| |by left].
    + change ("," =b ",")%byte with true. cbn iota. rewrite IH; [done|done|done|].
      change (str ",") with [","%byte] in *. autorewrite with golen in *. lia.
    + unfold render_member at 1, quote_with in Hf. autorewrite with golen in *. lia.
Qed.

Lemma parse_elements_with l d fuel rest : l ≠ [] → Forall reads l →
  foldr (λ x P, wf_with d x ∧ P) True l → (length (Join (map render_with l) (str ",")) < fuel)%nat →
  parse_elements fuel d (Join (map render_with l) (str ",") ++ "]"%byte :: rest) = Some (l, rest).
Proof.
  intros Hne Hr. revert fuel Hne. induction Hr as [|v l Hv Hr IH]; intros fuel Hne Hw Hf; [done|].
  destruct Hw as (Hwv & Hw). destruct fuel as [|f]; [lia|]. cbn [parse_elements]. destruct l as [|v' l'].
  - cbn [map Join] in *. rewrite Hv; [|done|lia|by right; right].
    cbn [mbind option_bind]. by rewrite skip_ws_stop.
  - cbn [map] in *. rewrite Join_cons in * by done. rewrite <- !app_assoc. cbn [app].
    change (str "," ++ Join (render_with v' :: map render_with l') (str ",") ++ "]"%byte :: rest) with
      (","%byte :: Join (render_with v' :: map render_with l') (str ",") ++ "]"%byte :: rest).
    change (str ",") with [","%byte] in *. autorewrite with golen in Hf.
    rewrite Hv; [|done|lia|by left]. cbn [mbind option_bind]. rewrite skip_ws_stop by done.
    change ("," =b ",")%byte with true. cbn iota. by rewrite IH by (done || lia).
Qed.

Lemma first_not_close m rest : (∃ kv m', m = kv :: m') → 
  HasPrefix (skip_ws (Join (map render_member m) (str ",") ++ rest)) (str "}") = false.
Proof.
  intros (kv & m' & ->). cbn [map]. destruct m' as [|kv' m']; cbn [map Join]; unfold render_member at 1, quote_with;
    rewrite <- ?app_assoc; cbn [app]; by rewrite skip_ws_stop.
Qed.

Lemma first_not_bracket v l d rest : wf_with d v →
  HasPrefix (skip_ws (Join (map render_with (v :: l)) (str ",") ++ rest)) (str "]") = false.
Proof.
  intros Hw. destruct (render_head v d Hw) as (c & t & Hc & Hs & _ & Hb).
  assert (∃ u, Join (map render_with (v :: l)) (str ",") ++ rest = c :: u) as [u ->].
  { cbn [map]. destruct l as [|v' l]; cbn [map Join]; rewrite Hc; cbn [app]; by eexists. }
  rewrite skip_ws_stop by done. change (str "]") with ["]"%byte]. cbn [HasPrefix].
  by rewrite (proj2 (beq_false _ _)) by done.
Qed.

Lemma parse_value_with v : reads v.
Proof.
  induction v as [|b|n|s|l IH|m IH] using json_induction; intros d fuel rest Hw Hf Hd.
  - destruct fuel; [simpl in Hf; lia|]. done.
  - destruct b; (destruct fuel; [simpl in Hf; lia|]); done.
  - destruct Hw as [(c & t & Hc & Hh) Hp]. cbn [render_with] in *. specialize (Hp rest Hd).
    destruct fuel as [|f]; [rewrite Hc in Hf; simpl in Hf; lia|].
    rewrite Hc in *. cbn [app parse_value] in *. rewrite skip_ws_stop by (destruct Hh as [->|Hh]; [done|by destruct c]).
    rewrite Hp. destruct Hh as [->|Hh]; [done|]. by destruct c.
  - cbn [render_with wf_with] in *. unfold quote_with in *. destruct fuel as [|f]; [simpl in Hf; lia|].
    rewrite <- app_comm_cons, <- app_assoc. cbn [app parse_value]. rewrite skip_ws_stop by done. change (dquote =b dquote) with true. cbn iota.
    by rewrite quote_reads.
  - cbn [render_with wf_with] in *. destruct Hw as [Hp Hw]. destruct fuel as [|f]; [simpl in Hf; lia|].
    rewrite <- app_comm_cons, <- app_assoc. cbn [app parse_value]. rewrite skip_ws_stop by done.
    cbn -[HasPrefix skip_ws Join parse_elements map]. destruct (d <=? 0) eqn:E; bools; [lia|].
    destruct l as [|v l]; [reflexivity|]. rewrite (first_not_bracket v l (d - 1)) by (apply Hw).
    change (str "]" ++ rest) with ("]"%byte :: rest).
    rewrite parse_elements_with; [done|done|done|done|]. simpl in Hf. rewrite length_app in Hf. simpl in *. lia.
  - cbn [render_with wf_with] in *.
    change (λ kv : bytes * json, quote_with kv.1 ++ ":"%byte :: render_with kv.2) with render_member in *. destruct Hw as [Hp Hw]. destruct fuel as [|f]; [simpl in Hf; lia|].
    rewrite <- app_comm_cons, <- app_assoc. cbn [app parse_value]. rewrite skip_ws_stop by done.
    cbn -[HasPrefix skip_ws Join parse_members map]. destruct (d <=? 0) eqn:E; bools; [lia|].
    destruct m as [|kv m]; [reflexivity|]. rewrite first_not_close by eauto.
    change (str "}" ++ rest) with ("}"%byte :: rest).
    rewrite parse_members_with; [done|done|done|done|]. cbn [length] in Hf.
    rewrite length_app in Hf. change (length (str "}")) with 1%nat in Hf.
    apply le_S_n in Hf. rewrite Nat.add_1_r in Hf. exact Hf.
Qed.

Lemma parse_json_with v : wf_with 10000 v → parse_json (render_with v) = Some v.
Proof.
  intros Hw. unfold parse_json. rewrite <- (app_nil_r (render_with v)) at 2.
  rewrite parse_value_with; [done|done|lia|done].
Qed.
End writing.

(** As [encoding/json] writes. *)
Notation render := (render_with quote_body).
Notation wf_json := (wf_with Valid).

Lemma parse_json_render v : wf_json 10000 v → parse_json (render v) = Some v.
Proof. apply parse_json_with. intros s rest. apply parse_quote. Qed.

(** ** Structs

    [Unmarshal] into a struct visits the members in order; a key selects the
    field of that name, up to case.  [None] is the type error returned at the
    end. *)
Section fields.
Context `{UnicodeCase}.

Definition key_is (name key : bytes) : bool := bytes_eqb key name || EqualFold key name.

Definition decode_field {A} (dec : A → json → option A) (name : bytes) (init : A) (m : list (bytes * json)) :
    option A :=
  foldl (λ acc kv, if key_is name kv.1 then x ← acc; dec x kv.2 else acc) (Some init) m.

Definition decode_string (old : bytes) (v : json) : option bytes :=
  match v with JStr s => Some s | JNull => Some old | _ => None end.

Definition decode_int64 (old : Z) (v : json) : option Z :=
  match v with
  | JNum n => match ParseInt n with (z, None) => Some z | _ => None end
  | JNull => Some old
  | _ => None
  end.

(** A pointer to a struct is allocated unless the value is null. *)
Definition decode_pointer {A} (dec : A → json → option A) (zero : A) (old : option A) (v : json) : option (option A) :=
  match v with
  | JNull => Some None
  | _ => x ← dec (default zero old) v; Some (Some x)
  end.

(** The members of an object; null leaves a struct as it is. *)
Definition members (v : json) : option (list (bytes * json)) :=
  match v with JObj m => Some m | JNull => Some [] | _ => None end.

Definition other_key (name : bytes) (kv : bytes * json) : Prop := ascii kv.1 = true ∧ map lower kv.1 ≠ map lower name.

Lemma key_is_other name kv : ascii name = true → other_key name kv → key_is name kv.1 = false.
Proof.
  intros Hn [Ha Hk]. unfold key_is, EqualFold. rewrite Ha, Hn. apply orb_false_iff.
  split; apply bytes_eqb_false; [by intros <-|done].
Qed.

Lemma decode_field_skip {A} (dec : A → json → option A) name acc m :
  ascii name = true → Forall (other_key name) m →
  foldl (λ acc kv, if key_is name kv.1 then x ← acc; dec x kv.2 else acc) acc m = acc.
Proof.
  intros Hn Hm. induction Hm as [|kv m Hk Hm IH]; [done|]. cbn [foldl]. by rewrite key_is_other.
Qed.

Lemma decode_field_one {A} (dec : A → json → option A) name x l v r :
  ascii name = true → Forall (other_key name) l → Forall (other_key name) r →
  decode_field dec name x (l ++ (name, v) :: r) = dec x v.
Proof.
  intros Hn Hl Hr. unfold decode_field. rewrite foldl_app, (decode_field_skip dec name (Some x) l) by done. cbn [foldl fst snd].
  unfold key_is at 2. rewrite (proj2 (bytes_eqb_true _ _)) by done. cbn [orb mbind option_bind].
  by apply decode_field_skip.
Qed.

Lemma decode_field_none {A} (dec : A → json → option A) name x m :
  ascii name = true → Forall (other_key name) m → decode_field dec name x m = Some x.
Proof. apply decode_field_skip. Qed.
End fields.

(** A member of a struct with the [omitempty] option. *)
Definition omitempty (name s : bytes) : list (bytes * json) := if bytes_eqb s [] then [] else [(name, JStr s)].

Lemma wf_members d m : Forall (λ kv, Valid kv.1 = true ∧ wf_json d kv.2) m →
  foldr (λ kv P, Valid kv.1 = true ∧ wf_json d kv.2 ∧ P) True m.
Proof. induction 1 as [|kv m [? ?] _ IH]; by cbn. Qed.

Lemma wf_omitempty d name s : Valid name = true → Valid s = true →
  Forall (λ kv, Valid kv.1 = true ∧ wf_json d kv.2) (omitempty name s).
Proof. intros Hn Hs. unfold omitempty. destruct (bytes_eqb s []); by repeat constructor. Qed.
