(* ===== verification/GoFile.v ===== *)
(** * More of the Go standard library: paths, lines and fields

    [path/filepath] on Unix, the line scanner and [ReadString] of [bufio], and
    [strings.Fields]. *)

From S2P Require Import Prelude GoLib GoText.

#[local] Open Scope Z_scope.

(** ** path/filepath *)

(** The elements of a path, resolved from left to right; [out] is reversed. *)
Definition clean_element (rooted : bool) (out : list bytes) (e : bytes) : list bytes :=
  if bytes_eqb e [] || bytes_eqb e (str ".") then out
  else if bytes_eqb e (str "..") then
    match out with
    | [] => if rooted then [] else [e]
    | d :: out' => if bytes_eqb d (str "..") then e :: out else out'
    end
  else e :: out.

Definition Clean (path : bytes) : bytes :=
  let rooted := HasPrefix path (str "/") in
  let body := Join (rev (foldl (clean_element rooted) [] (Split path "/"))) (str "/") in
  if rooted then str "/" ++ body
  else if bytes_eqb body [] then str "." else body.

Fixpoint filepath_Join (elem : list bytes) : bytes :=
  match elem with
  | [] => []
  | e :: rest => if bytes_eqb e [] then filepath_Join rest else Clean (Join elem (str "/"))
  end.

Example clean_samples :
  map Clean [str "/root/.ssh/config"; str "/a//b/./../c/"; str "../x/../.."; str ""; str "/.."] =
  [str "/root/.ssh/config"; str "/a/c"; str "../.."; str "."; str "/"].
Proof. vm_compute. reflexivity. Qed.

(** ** strings.Fields *)

Definition push_field (w : bytes) (l : list bytes) : list bytes :=
  if bytes_eqb w [] then l else w :: l.

(** [w] is the field being read; every round consumes at least a byte. *)
Fixpoint fields_loop (fuel : nat) (w s : bytes) : list bytes :=
  match fuel, s with
  | S fuel', c :: t =>
      match List.find (HasPrefix s) space_runes with
      | Some r => push_field w (fields_loop fuel' [] (drop (length r) s))
      | None => fields_loop fuel' (w ++ [c]) t
      end
  | _, _ => push_field w []
  end.

Definition Fields (s : bytes) : list bytes := fields_loop (S (length s)) [] s.

Definition word (w : bytes) : Prop := w ≠ [] ∧ Forall graphic w.

Lemma fields_loop_word fuel w u s : Forall graphic u → (length u <= fuel)%nat →
  fields_loop fuel w (u ++ s) = fields_loop (fuel - length u) (w ++ u) s.
Proof.
  revert fuel w. induction u as [|c u IH]; intros fuel w Hu Hf; cbn [app length] in *.
  - by rewrite Nat.sub_0_r, app_nil_r.
  - apply Forall_cons in Hu as [Hc Hu]. destruct fuel as [|fuel]; [lia|]. cbn [fields_loop].
    rewrite no_space_prefix by done. rewrite IH by (done || lia). by rewrite <- app_assoc.
Qed.

(** Words joined by single blanks are the fields again. *)
Lemma Fields_Join ws : Forall word ws → Fields (Join ws (str " ")) = ws.
Proof.
  assert (∀ fuel, Forall word ws → (length (Join ws (str " ")) < fuel)%nat → fields_loop fuel [] (Join ws (str " ")) = ws) as H;
    [|intros Hw; apply H; [done|lia]].
  induction ws as [|w ws IH]; intros fuel Hw Hf; [by destruct fuel|].
  apply Forall_cons in Hw as [[Hne Hg] Hw].
  assert (∀ l, push_field w l = w :: l) as Hpush by (intros; unfold push_field; rewrite (proj2 (bytes_eqb_false _ _)); done).
  destruct ws as [|w' ws].
  - cbn [Join] in *. rewrite <- (app_nil_r w) at 1. rewrite fields_loop_word by (done || lia). cbn [app].
    destruct (fuel - length w)%nat; by cbn.
  - rewrite Join_cons in * by done. rewrite !length_app in Hf. cbn [length str String.list_byte_of_string] in Hf.
    rewrite fields_loop_word by (done || lia). rewrite app_nil_l. destruct (fuel - length w)%nat as [|f] eqn:Ef; [cbn in *; lia|].
    assert (∀ s, fields_loop (S f) w (str " " ++ s) = push_field w (fields_loop f [] s)) as -> by done.
    rewrite Hpush, IH; [done|done|]. change (length (str " ")) with 1%nat in Hf. lia.
Qed.

Lemma Join_words_tight ws : Forall word ws → tight (Join ws (str " ")).
Proof.
  induction ws as [|w ws IH]; [by auto with go|]. intros [[Hne Hg] Hw]%Forall_cons. destruct ws as [|w' ws].
  { by apply tight_all. }
  rewrite Join_cons by done. destruct (IH Hw) as [_ Hl]. split; intros c.
  - destruct w as [|a w]; [done|]. intros [= <-]. by apply Forall_cons in Hg as [? _].
  - rewrite app_assoc, last_app. destruct (last (Join (w' :: ws) (str " "))) as [z|] eqn:E; [intros [= <-]; by apply Hl|].
    apply last_None in E. apply Forall_cons in Hw as [[Hn _] _]. destruct ws; [by subst|]. rewrite Join_cons in E by done. by destruct w'.
Qed.

(** ** bufio: lines *)

Definition maxScanTokenSize : Z := 65536.

Definition dropCR (s : bytes) : bytes :=
  match last s with Some c => if c =b x0d then removelast s else s | None => s end.

(** The tokens of [ScanLines] of a file, and whether the scan ended with an
    error: a line that does not fit the buffer. *)
Fixpoint scan_pieces (l : list bytes) : list bytes * bool :=
  match l with
  | [] => ([], false)
  | [s] => if bytes_eqb s [] then ([], false)
           else if maxScanTokenSize <=? Z.of_nat (length s) then ([], true) else ([dropCR s], false)
  | s :: rest =>
      if maxScanTokenSize <=? Z.of_nat (length s) then ([], true)
      else let '(toks, err) := scan_pieces rest in (dropCR s :: toks, err)
  end.

Definition Scan_lines (s : bytes) : list bytes * bool := scan_pieces (Split s x0a).

(** A text of lines. *)
Definition unlines (l : list bytes) : bytes := concat (map (λ s, s ++ [x0a]) l).

Lemma Split_unlines l : Forall (λ s, x0a ∉ s) l → Split (unlines l) x0a = l ++ [[]].
Proof.
  induction l as [|s l IH]; [done|]. intros [Hs Hl]%Forall_cons. unfold unlines. cbn [map concat].
  rewrite <- app_assoc. cbn [app]. rewrite Split_app by done. fold (unlines l). by rewrite IH.
Qed.

Lemma Scan_unlines l : Forall (λ s, x0a ∉ s ∧ Z.of_nat (length s) < maxScanTokenSize ∧ last s ≠ Some x0d) l →
  Scan_lines (unlines l) = (l, false).
Proof.
  intros Hl. unfold Scan_lines. rewrite Split_unlines by (eapply Forall_impl; [exact Hl|]; by intros s (? & _)).
  induction Hl as [|s l (Hn & Hs & Hr) Hl IH]; [done|].
  assert (dropCR s = s) as Hd.
  { unfold dropCR. destruct (last s) as [c|]; [|done]. destruct (c =b x0d) eqn:E; [|done]. bools. congruence. }
  destruct l; cbn [app scan_pieces] in *; rewrite (proj2 (Z.leb_gt _ _)) by done; [by rewrite Hd|]. by rewrite IH, Hd.
Qed.

(** [ReadString('\n')] until the end: the lines with their terminators. *)
Fixpoint read_strings (cur s : bytes) : list bytes :=
  match s with
  | [] => if bytes_eqb cur [] then [] else [cur]
  | c :: t => if c =b x0a then (cur ++ [c]) :: read_strings [] t else read_strings (cur ++ [c]) t
  end.

Lemma read_strings_concat cur s : concat (read_strings cur s) = cur ++ s.
Proof.
  revert cur. induction s as [|c s IH]; intros cur; cbn [read_strings].
  - destruct (bytes_eqb cur []) eqn:E; bools; [by subst|]. by rewrite app_nil_r; cbn; rewrite app_nil_r.
  - destruct (c =b x0a); cbn [concat]; rewrite IH; by rewrite <- app_assoc.
Qed.

Lemma read_strings_line cur w t : x0a ∉ w → read_strings cur (w ++ x0a :: t) = (cur ++ w ++ [x0a]) :: read_strings [] t.
Proof.
  revert cur. induction w as [|c w IH]; intros cur Hw; cbn [app read_strings].
  - done.
  - apply not_elem_of_cons in Hw as [Hc Hw]. rewrite (proj2 (beq_false _ _)) by congruence. rewrite IH by done. by rewrite <- app_assoc.
Qed.

(** [strings.TrimRight(s, "\r\n")]. *)
Definition trim_newlines (s : bytes) : bytes := rev (span (λ c, (c =b x0d) || (c =b x0a)) (rev s)).2.

Lemma trim_newlines_line w nl : Forall (λ c, c = x0d ∨ c = x0a) nl → last w ≠ Some x0d → last w ≠ Some x0a →
  trim_newlines (w ++ nl) = w.
Proof.
  intros Hnl H1 H2. unfold trim_newlines. rewrite rev_app_distr, (span_spec _ (rev nl)).
  - cbn. apply rev_involutive.
  - apply Forall_rev. eapply Forall_impl; [exact Hnl|]. by intros c [-> | ->].
  - intros c t Ht. assert (last w = Some c) as Hl.
    { rewrite <- (rev_involutive w), Ht. cbn. apply last_snoc. }
    rewrite Hl in *. apply orb_false_iff. split; apply beq_false; congruence.
Qed.
