(* ===== verification/GoFloat.v ===== *)
(** * float64

    Go's [float64] as the binary64 numbers of the standard library's
    [SpecFloat]: conversions from and to integers, the arithmetic the repository
    uses, [time.Duration.Seconds] and [strconv.ParseFloat] on the number texts of
    JSON.  Integers below 2^53 are exact ([trunc_of_Z], [ParseFloat_Itoa]). *)

From Stdlib Require Import Floats.SpecFloat.
From S2P Require Import Prelude GoLib GoText.

#[local] Open Scope Z_scope.

Definition float64 : Type := spec_float.

Definition of_Z (n : Z) : float64 := binary_normalize 53 1024 n 0 false.
Definition f_add (x y : float64) : float64 := SFadd 53 1024 x y.
Definition f_mul (x y : float64) : float64 := SFmul 53 1024 x y.
Definition f_div (x y : float64) : float64 := SFdiv 53 1024 x y.
Definition f_lt (x y : float64) : bool := SFltb x y.
Definition f_le (x y : float64) : bool := SFleb x y.

(** The integer part, of a finite number. *)
Definition trunc (x : float64) : option Z :=
  match x with
  | S754_zero _ => Some 0
  | S754_finite s m e =>
      let a := if e <? 0 then Zpos m / 2 ^ (- e) else Zpos m * 2 ^ e in
      Some (if s then - a else a)
  | _ => None
  end.

(** Conversions of numbers out of range depend on the implementation. *)
Class FloatConversion := { int64_undefined : float64 → Z; uint64_undefined : float64 → Z }.

Definition in_range (lo hi : Z) (o : option Z) : option Z :=
  match o with Some z => if (lo <=? z) && (z <? hi) then Some z else None | None => None end.

Definition to_int64 `{FloatConversion} (x : float64) : Z :=
  default (int64_undefined x) (in_range (- 2 ^ 63) (2 ^ 63) (trunc x)).
Definition to_uint64 `{FloatConversion} (x : float64) : Z :=
  default (uint64_undefined x) (in_range 0 (2 ^ 64) (trunc x)).

(** [time.Duration.Seconds]; quotient and remainder truncate. *)
Definition Seconds (d : Z) : float64 := f_add (of_Z (Z.quot d Second)) (f_div (of_Z (Z.rem d Second)) (of_Z 1000000000)).

(** ** strconv.ParseFloat

    The correctly rounded value of a decimal number; [None] is the range error. *)

(** The value of [mant * 10 ^ exp], with [digs] digits in [mant]. *)
Definition decimal (neg : bool) (mant exp digs : Z) : option float64 :=
  match mant with
  | Zpos p =>
      let f :=
        if 310 <? exp + digs then S754_infinity neg
        else if exp + digs <? -330 then S754_zero neg
        else if 0 <=? exp then
          match mant * 10 ^ exp with Zpos q => binary_round 53 1024 neg q 0 | _ => S754_nan end
        else
          let '(mz, ez, lz) := SFdiv_core_binary 53 1024 mant 0 (10 ^ (- exp)) 0 in binary_round_aux 53 1024 neg mz ez lz
      in match f with S754_infinity _ => None | _ => Some f end
  | _ => Some (S754_zero neg)
  end.

(** The parts of a number text: sign, digits, fraction and exponent. *)
Definition number_exponent (s : bytes) : Z :=
  match s with
  | e :: d :: r => if d =b "-" then - dec_value r else if d =b "+" then dec_value r else dec_value (d :: r)
  | _ => 0
  end.

Definition ParseFloat (s : bytes) : option float64 :=
  let '(neg, s) := match s with c :: r => if c =b "-" then (true, r) else (false, s) | [] => (false, s) end in
  let '(int, s) := span is_digit s in
  let '(frac, s) := match s with c :: r => if c =b "." then span is_digit r else ([], s) | [] => ([], s) end in
  decimal neg (dec_value (int ++ frac)) (number_exponent s - Z.of_nat (length frac))
    (Z.of_nat (length (span (λ c, c =b "0") (int ++ frac)).2)).

(** ** Integers are exact *)

Definition digits2 (p : positive) : Z := Zpos (digits2_pos p).

Lemma digits2_spec p : 2 ^ (digits2 p - 1) <= Zpos p < 2 ^ digits2 p.
Proof.
  unfold digits2. induction p as [p IH|p IH|]; cbn [digits2_pos]; [..|done];
    rewrite Pos2Z.inj_succ, Z.sub_succ_l, !Z.pow_succ_r by lia; lia.
Qed.

Lemma digits2_small p : Zpos p < 2 ^ 53 → 1 <= digits2 p <= 53.
Proof.
  intros Hp. pose proof (digits2_spec p) as [H _]. split; [unfold digits2; lia|].
  destruct (Z.le_gt_cases (digits2 p) 53); [done|].
  assert (2 ^ 53 <= 2 ^ (digits2 p - 1)) by (apply Z.pow_le_mono_r; lia). lia.
Qed.

Lemma digits2_shift p n : digits2 (Pos.iter xO p n) = digits2 p + Zpos n.
Proof.
  revert p. induction n as [|n IH] using Pos.peano_ind; intros p.
  - cbn. unfold digits2. cbn [digits2_pos]. lia.
  - rewrite Pos.iter_succ. change (digits2 (Pos.iter xO p n)~0) with (Zpos (Pos.succ (digits2_pos (Pos.iter xO p n)))).
    specialize (IH p). unfold digits2 in *. lia.
Qed.

Lemma shift_value p n : Zpos (Pos.iter xO p n) = Zpos p * 2 ^ Zpos n.
Proof.
  induction n as [|n IH] using Pos.peano_ind; [cbn; lia|].
  rewrite Pos.iter_succ, Pos2Z.inj_succ, Z.pow_succ_r by lia. rewrite Pos2Z.inj_xO, IH. lia.
Qed.

(** A number of 53 digits is rounded to itself. *)
Lemma round_aux_exact s p e : digits2 p = 53 → -1074 <= e <= 971 → binary_round_aux 53 1024 s (Zpos p) e loc_Exact = S754_finite s p e.
Proof.
  intros Hd He. unfold binary_round_aux.
  assert (shr_fexp 53 1024 (Zpos p) e loc_Exact = (Build_shr_record (Zpos p) false false, e)) as E.
  { unfold shr_fexp. cbn [Zdigits2]. change (Zpos (digits2_pos p)) with (digits2 p).
    replace (fexp 53 1024 (digits2 p + e) - e) with 0 by (unfold fexp, emin; lia). done. }
  rewrite E. cbn [shr_m loc_of_shr_record round_nearest_even]. rewrite E. cbn [shr_m].
  by rewrite (proj2 (Z.leb_le e (1024 - 53))) by lia.
Qed.

(** A small integer with all 53 digits. *)
Lemma of_Z_digits s p : Zpos p < 2 ^ 53 → ∃ m, binary_round 53 1024 s p 0 = S754_finite s m (digits2 p - 53) ∧
  Zpos m = Zpos p * 2 ^ (53 - digits2 p) ∧ digits2 m = 53.
Proof.
  intros Hp. pose proof (digits2_small p Hp) as Hd. unfold binary_round, shl_align.
  change (Zpos (digits2_pos p)) with (digits2 p).
  replace (fexp 53 1024 (digits2 p + 0)) with (digits2 p - 53) by (unfold fexp, emin; lia).
  destruct (digits2 p - 53 - 0) as [|k|k] eqn:E; [..|].
  - exists p. rewrite round_aux_exact by lia. replace (53 - digits2 p) with 0 by lia. split_and!; [f_equal|..]; lia.
  - lia.
  - exists (Pos.iter xO p k). rewrite round_aux_exact by (rewrite ?digits2_shift; lia).
    split; [done|]. rewrite shift_value, digits2_shift. split; [do 2 f_equal|]; lia.
Qed.

Lemma of_Z_pos s p : Zpos p < 2 ^ 53 → ∃ m e,
  binary_round 53 1024 s p 0 = S754_finite s m e ∧ e <= 0 ∧ Zpos m = Zpos p * 2 ^ (- e).
Proof.
  intros Hp. pose proof (digits2_small p Hp) as Hd. destruct (of_Z_digits s p Hp) as (m & -> & Hm & _).
  exists m, (digits2 p - 53). split; [done|]. split; [lia|]. rewrite Hm. do 2 f_equal. lia.
Qed.

Lemma trunc_finite s m e p : e <= 0 → Zpos m = Zpos p * 2 ^ (- e) →
  trunc (S754_finite s m e) = Some (if s then - Zpos p else Zpos p).
Proof.
  intros He Hm. cbn [trunc]. destruct (e <? 0) eqn:El; bools.
  - rewrite Hm, Z.div_mul by (apply Z.pow_nonzero; lia). by destruct s.
  - assert (e = 0) as -> by lia. rewrite Hm. replace (2 ^ (- 0)) with 1 by done. rewrite !Z.mul_1_r. by destruct s.
Qed.

Lemma trunc_of_Z n : - 2 ^ 53 < n < 2 ^ 53 → trunc (of_Z n) = Some n.
Proof.
  intros Hn. unfold of_Z, binary_normalize. destruct n as [|p|p]; [done|..].
  - destruct (of_Z_pos false p) as (m & e & -> & He & Hm); [lia|]. by rewrite (trunc_finite _ _ _ p).
  - destruct (of_Z_pos true p) as (m & e & -> & He & Hm); [lia|]. by rewrite (trunc_finite _ _ _ p).
Qed.

Lemma of_Z_finite n : - 2 ^ 53 < n < 2 ^ 53 → (n = 0 ∧ of_Z n = S754_zero false) ∨ ∃ s m e, of_Z n = S754_finite s m e.
Proof.
  intros Hn. unfold of_Z, binary_normalize. destruct n as [|p|p]; [by left|..]; right.
  - destruct (of_Z_pos false p) as (m & e & -> & _); [lia|]. eauto.
  - destruct (of_Z_pos true p) as (m & e & -> & _); [lia|]. eauto.
Qed.

Lemma Seconds_whole k : 0 <= k < 2 ^ 53 → Seconds (k * Second) = of_Z k.
Proof.
  intros Hk. unfold Seconds. change Second with 1000000000. rewrite Z.quot_mul, Z.rem_mul by lia.
  replace (f_div (of_Z 0) (of_Z 1000000000)) with (S754_zero false) by (vm_compute; reflexivity).
  destruct (of_Z_finite k) as [[_ ->]|(s & m & e & ->)]; [lia|done..].
Qed.

Lemma to_uint64_of_Z `{FloatConversion} n : 0 <= n < 2 ^ 53 → to_uint64 (of_Z n) = n.
Proof.
  intros Hn. unfold to_uint64. rewrite trunc_of_Z by lia. cbn [in_range].
  by rewrite (proj2 (Z.leb_le _ _)), (proj2 (Z.ltb_lt _ _)) by lia.
Qed.

Lemma to_int64_of_Z `{FloatConversion} n : - 2 ^ 53 < n < 2 ^ 53 → to_int64 (of_Z n) = n.
Proof.
  intros Hn. unfold to_int64. rewrite trunc_of_Z by lia. cbn [in_range].
  by rewrite (proj2 (Z.leb_le _ _)), (proj2 (Z.ltb_lt _ _)) by lia.
Qed.

(** ** Scaling by a power of two is exact *)

Lemma iter_pos_iter {A} (f : A → A) p x : SpecFloat.iter_pos f p x = Pos.iter f x p.
Proof.
  revert x. induction p as [p IH|p IH|]; intros x; cbn [SpecFloat.iter_pos Pos.iter]; [..|done]; rewrite !IH; [|done].
  by rewrite !Pos.iter_swap.
Qed.

Lemma shr_shifted p n e : shr (Build_shr_record (Zpos (Pos.iter xO p n)) false false) e (Zpos n) =
  (Build_shr_record (Zpos p) false false, e + Zpos n).
Proof.
  unfold shr. rewrite iter_pos_iter. f_equal. induction n as [|n IH] using Pos.peano_ind; [done|].
  assert (Pos.iter xO p (Pos.succ n) = xO (Pos.iter xO p n)) as -> by apply Pos.iter_succ.
  rewrite Pos.iter_succ_r. exact IH.
Qed.

(** A number with more digits of which the last are zero. *)
Lemma round_aux_zeros s p n e : digits2 p = 53 → -1074 <= e + Zpos n <= 971 →
  binary_round_aux 53 1024 s (Zpos (Pos.iter xO p n)) e loc_Exact = S754_finite s p (e + Zpos n).
Proof.
  intros Hd He. pose proof (round_aux_exact s p (e + Zpos n) Hd He) as Hx. revert Hx. unfold binary_round_aux.
  assert (shr_fexp 53 1024 (Zpos (Pos.iter xO p n)) e loc_Exact = (Build_shr_record (Zpos p) false false, e + Zpos n)) as ->.
  { unfold shr_fexp. cbn [Zdigits2]. change (Zpos (digits2_pos (Pos.iter xO p n))) with (digits2 (Pos.iter xO p n)).
    rewrite digits2_shift, Hd. replace (fexp 53 1024 (53 + Zpos n + e) - e) with (Zpos n) by (unfold fexp, emin; lia).
    apply shr_shifted. }
  assert (shr_fexp 53 1024 (Zpos p) (e + Zpos n) loc_Exact = (Build_shr_record (Zpos p) false false, e + Zpos n)) as ->.
  { unfold shr_fexp. cbn [Zdigits2]. change (Zpos (digits2_pos p)) with (digits2 p).
    replace (fexp 53 1024 (digits2 p + (e + Zpos n)) - (e + Zpos n)) with 0 by (unfold fexp, emin; lia). done. }
  done.
Qed.

Definition valid (x : float64) : bool := valid_binary 53 1024 x.

Lemma valid_digits s m e : valid (S754_finite s m e) = true → 1 <= digits2 m <= 53 ∧ -1074 <= e <= 971 ∧ (digits2 m < 53 → e = -1074).
Proof.
  unfold valid, valid_binary, bounded, canonical_mantissa. intros H. apply andb_true_iff in H as [H1 H2]. apply Z.leb_le in H2.
  apply Z.eqb_eq in H1. change (Zpos (digits2_pos m)) with (digits2 m) in H1. unfold fexp, emin in H1.
  assert (1 <= digits2 m) by (unfold digits2; lia). lia.
Qed.

(** Multiplying a number below one by two to the 64. *)
Lemma mul_2_64 m e : valid (S754_finite false m e) = true → e <= -53 → ∃ m' k,
  f_mul (S754_finite false m e) (S754_finite false 4503599627370496 12) = S754_finite false m' (e + 64 - k) ∧
  0 <= k <= 52 ∧ Zpos m' = Zpos m * 2 ^ k.
Proof.
  intros Hv He. destruct (valid_digits _ _ _ Hv) as (Hd & Hr & _).
  set (k := 53 - digits2 m).
  assert (∃ m', digits2 m' = 53 ∧ Zpos m' = Zpos m * 2 ^ k) as (m' & Hm & Hv').
  { subst k. destruct (53 - digits2 m) as [|n|n] eqn:E; [|..|lia].
    - exists m. split; [lia|]. lia.
    - exists (Pos.iter xO m n). rewrite digits2_shift, shift_value. split; [lia|done]. }
  assert (Zpos (m * 4503599627370496)%positive = Zpos m' * 2 ^ (52 - k)) as Hprod.
  { rewrite Pos2Z.inj_mul, Hv', <- Z.mul_assoc, <- Z.pow_add_r by lia. by replace (k + (52 - k)) with 52 by lia. }
  exists m', k. split_and!; [|lia|lia|done]. unfold f_mul. cbn [SFmul xorb]. destruct (52 - k) as [|n|n] eqn:E; [| |lia].
  - assert ((m * 4503599627370496)%positive = m') as -> by lia. rewrite round_aux_exact by lia. f_equal. lia.
  - assert ((m * 4503599627370496)%positive = Pos.iter xO m' n) as -> by (apply Pos2Z.inj; by rewrite shift_value).
    rewrite round_aux_zeros by lia. f_equal. lia.
Qed.

(** Small integers written in decimal are parsed exactly. *)
Lemma digits_acc_length fuel n acc : (length (digits_acc fuel n acc) <= fuel + length acc)%nat.
Proof.
  revert n acc. induction fuel as [|fuel IH]; intros n acc; cbn [digits_acc]; [lia|].
  destruct (n <? 10); [cbn; lia|]. rewrite IH. cbn. lia.
Qed.

Lemma digits_length n : 0 < n < 2 ^ 53 → (length (digits n) <= 53)%nat.
Proof.
  intros Hn. unfold digits. pose proof (digits_acc_length (S (Z.to_nat (Z.log2 n))) n []) as H.
  assert (Z.log2 n < 53) by (apply Z.log2_lt_pow2; lia). pose proof (Z.log2_nonneg n). cbn [length] in H. lia.
Qed.

(** Small integers written in decimal are parsed exactly. *)
Lemma ParseFloat_digits n : 0 < n < 2 ^ 53 → ParseFloat (digits n) = Some (of_Z n).
Proof.
  intros Hn. destruct (digits_spec n ltac:(lia)) as (Hv & Hd & Hne). pose proof (digits_length n Hn) as Hl.
  assert (span is_digit (digits n) = (digits n, [])) as Hs.
  { rewrite <- (app_nil_r (digits n)) at 1. by apply span_spec. }
  unfold ParseFloat. destruct (digits n) as [|c s] eqn:E; [done|].
  rewrite (proj2 (beq_false c "-")) by (apply digit_not; [by apply Forall_inv in Hd|done]).
  rewrite Hs, app_nil_r, Hv. cbn [number_exponent length].
  pose proof (span_length (λ c, c =b "0") (c :: s)) as Hsp. cbn [length] in Hsp, Hl.
  change (Z.of_nat 0) with 0. rewrite Z.sub_0_r. unfold decimal. destruct n as [|p|p]; [lia| |lia].
  rewrite (proj2 (Z.ltb_ge _ _)) by lia. rewrite (proj2 (Z.ltb_ge _ _)) by lia. change (0 <=? 0) with true. cbn match.
  change (10 ^ 0) with 1. rewrite Z.mul_1_r. change (of_Z (Z.pos p)) with (binary_round 53 1024 false p 0).
  destruct (of_Z_pos false p) as (m & e & -> & _); [lia|done].
Qed.

(** ** Rounding between integers

    A number between two integers below 2^53 is rounded to one between them. *)

Lemma shr_1_spec r : 0 <= shr_m r → shr_m (shr_1 r) = shr_m r / 2 ∧
  (loc_of_shr_record r = loc_Exact → shr_m r = shr_m (shr_1 r) * 2 → loc_of_shr_record (shr_1 r) = loc_Exact).
Proof.
  destruct r as [[|[p|p|]|p] b c]; cbn [shr_m]; intros Hm; try lia; cbn [shr_1 shr_m].
  - split; [done|]. by destruct b, c.
  - split; [rewrite Pos2Z.inj_xI; Z.to_euclidean_division_equations; lia|]. intros _ He. exfalso. lia.
  - split; [rewrite Pos2Z.inj_xO; Z.to_euclidean_division_equations; lia|]. by destruct b, c.
  - split; [done|]. intros _ He. exfalso. lia.
Qed.

(** A shift to the right divides, and what is divided without a remainder stays exact. *)
Lemma shr_spec r e n : 0 <= shr_m r → let '(r', e') := shr r e n in
  e' = e + Z.max n 0 ∧ shr_m r' = shr_m r / 2 ^ Z.max n 0 ∧
  (loc_of_shr_record r = loc_Exact → shr_m r = shr_m r' * 2 ^ Z.max n 0 → loc_of_shr_record r' = loc_Exact).
Proof.
  intros Hm. unfold shr. destruct n as [|p|p]; [split_and!; [lia|by rewrite Z.div_1_r|done]| |split_and!; [lia|by rewrite Z.div_1_r|done]].
  rewrite iter_pos_iter. change (Z.max (Zpos p) 0) with (Zpos p). split; [done|].
  induction p as [|p IH] using Pos.peano_ind; [change (2 ^ 1) with 2; apply (shr_1_spec r Hm)|].
  rewrite Pos.iter_succ. destruct IH as [IH1 IH2]. set (q := Pos.iter shr_1 r p) in *.
  assert (0 < 2 ^ Zpos p) as Hp by (apply Z.pow_pos_nonneg; lia).
  assert (0 <= shr_m q) as Hq by (rewrite IH1; by apply Z.div_pos).
  destruct (shr_1_spec q Hq) as [S1 S2]. rewrite Pos2Z.inj_succ, Z.pow_succ_r, (Z.mul_comm 2) by lia.
  split; [by rewrite S1, IH1, Z.div_div by lia|]. intros Hl He.
  assert (shr_m q = shr_m (shr_1 q) * 2) as E2.
  { rewrite IH1, He. replace (shr_m (shr_1 q) * (2 ^ Zpos p * 2)) with (shr_m (shr_1 q) * 2 * 2 ^ Zpos p) by lia. apply Z.div_mul. lia. }
  apply S2; [|done]. apply IH2; [done|]. rewrite E2. lia.
Qed.

Lemma nearest_spec m l : m <= round_nearest_even m l <= m + 1 ∧ (l = loc_Exact → round_nearest_even m l = m).
Proof. destruct l as [|[]]; cbn; [lia|destruct (Z.even m)|..]; split; (lia || done). Qed.

Lemma Zdigits2_spec m : 0 <= m → 0 <= Zdigits2 m ∧ m < 2 ^ Zdigits2 m ∧ (∀ b, 0 <= b → m < 2 ^ b → Zdigits2 m <= b).
Proof.
  destruct m as [|p|p]; [by intros _; split_and!| |lia]. intros _. cbn [Zdigits2]. change (Zpos (digits2_pos p)) with (digits2 p).
  pose proof (digits2_spec p) as [H1 H2]. split; [unfold digits2; lia|]. split; [done|]. intros b Hb Hp.
  destruct (Z.le_gt_cases (digits2 p) b); [done|]. assert (2 ^ b <= 2 ^ (digits2 p - 1)) by (apply Z.pow_le_mono_r; lia). lia.
Qed.

(** A number that is not negative, at least [lo] and at most [hi]. *)
Definition between_Z (lo hi : Z) (x : float64) : Prop :=
  match x with
  | S754_zero false => lo <= 0 <= hi
  | S754_finite false m e => -1074 <= e <= 0 ∧ lo * 2 ^ (- e) <= Zpos m <= hi * 2 ^ (- e)
  | _ => False
  end.

Lemma trunc_between lo hi x : between_Z lo hi x → ∃ z, trunc x = Some z ∧ lo <= z <= hi.
Proof.
  destruct x as [[]| | |[] m e]; try done; cbn [between_Z trunc]; [by exists 0|]. intros [He Hm].
  assert (0 < 2 ^ (- e)) as Hp by (apply Z.pow_pos_nonneg; lia). eexists. split; [reflexivity|]. destruct (e <? 0) eqn:E; bools.
  - split; [apply Z.div_le_lower_bound; lia|]. apply Z.div_le_upper_bound; lia.
  - assert (e = 0) as -> by lia. change (2 ^ (- 0)) with 1 in *. change (2 ^ 0) with 1. lia.
Qed.

(** The rounded mantissa, written without a spare digit. *)
Lemma last_shift R e lo hi : 0 <= lo → hi < 2 ^ 53 → -1074 <= e <= 0 → 0 <= R <= 2 ^ 53 → lo * 2 ^ (- e) <= R <= hi * 2 ^ (- e) →
  between_Z lo hi (let '(r, e') := shr_fexp 53 1024 R e loc_Exact in
    match shr_m r with
    | Z0 => S754_zero false
    | Zpos m => if e' <=? 1024 - 53 then S754_finite false m e' else S754_infinity false
    | Zneg _ => S754_nan
    end).
Proof.
  intros Hlo Hhi He HR Hb. assert (0 < 2 ^ (- e)) as Hp by (apply Z.pow_pos_nonneg; lia).
  destruct (Z.eq_dec R (2 ^ 53)) as [->|Hne].
  - assert (e < 0) by (destruct (Z.eq_dec e 0) as [->|]; [change (2 ^ (- 0)) with 1 in Hb; lia|lia]).
    unfold shr_fexp. change (Zdigits2 (2 ^ 53)) with 54. unfold fexp, emin.
    replace (Z.max (54 + e - 53) (3 - 1024 - 53) - e) with 1 by lia.
    change (shr (shr_record_of_loc (2 ^ 53) loc_Exact) e 1) with (Build_shr_record (2 ^ 52) false false, e + 1). cbn [shr_m].
    change (2 ^ 52) with (Zpos 4503599627370496). cbn match. rewrite (proj2 (Z.leb_le _ _)) by lia. cbn [between_Z].
    split; [lia|]. replace (- e) with (Z.succ (- (e + 1))) in Hb by lia. rewrite Z.pow_succ_r in Hb by lia.
    change (2 ^ 53) with (2 * 4503599627370496) in Hb. lia.
  - destruct (Zdigits2_spec R ltac:(lia)) as (D0 & _ & D). specialize (D 53 ltac:(lia) ltac:(lia)).
    assert (shr_fexp 53 1024 R e loc_Exact = (Build_shr_record R false false, e)) as ->.
    { unfold shr_fexp, fexp, emin. destruct (Z.max (Zdigits2 R + e - 53) (3 - 1024 - 53) - e) eqn:E; [done|lia|done]. }
    cbn [shr_m]. destruct R as [|p|p]; [|rewrite (proj2 (Z.leb_le _ _)) by lia; by split|lia]. cbn [between_Z]. nia.
Qed.

Lemma round_aux_between m e l lo hi : 0 <= lo → hi < 2 ^ 53 → e <= 0 → 0 <= m → lo * 2 ^ (- e) <= m →
  (m < hi * 2 ^ (- e) ∨ m = hi * 2 ^ (- e) ∧ l = loc_Exact) → between_Z lo hi (binary_round_aux 53 1024 false m e l).
Proof.
  intros Hlo Hhi He Hm Hl Hu. destruct (Zdigits2_spec m Hm) as (D0 & D1 & D2).
  assert (0 < 2 ^ (- e)) as Hp by (apply Z.pow_pos_nonneg; lia).
  specialize (D2 (53 - e) ltac:(lia)). replace (2 ^ (53 - e)) with (2 ^ 53 * 2 ^ (- e)) in D2 by (rewrite <- Z.pow_add_r by lia; f_equal; lia).
  specialize (D2 ltac:(nia)). unfold binary_round_aux. unfold shr_fexp at 1. set (n := fexp 53 1024 (Zdigits2 m + e) - e).
  assert (shr_m (shr_record_of_loc m l) = m ∧ loc_of_shr_record (shr_record_of_loc m l) = l) as [Em El] by (by destruct l as [|[]]).
  pose proof (shr_spec (shr_record_of_loc m l) e n ltac:(lia)) as Hs. destruct (shr _ e n) as [r e1]. rewrite Em, El in Hs.
  destruct Hs as (He1 & Hr & Hx). set (N := Z.max n 0) in *.
  assert (-1074 <= e1 <= 0 ∧ Zdigits2 m <= 53 + N ∧ 0 <= N) as (He1' & HD & HN) by (subst N n; unfold fexp, emin in *; lia).
  assert (0 < 2 ^ N ∧ 0 < 2 ^ (- e1)) as [HpN Hp1] by (split; apply Z.pow_pos_nonneg; lia).
  assert (2 ^ (- e) = 2 ^ (- e1) * 2 ^ N) as Epow by (rewrite <- Z.pow_add_r by lia; f_equal; lia). rewrite Epow in Hl, Hu.
  assert (shr_m r < 2 ^ 53) as Hq53.
  { rewrite Hr. apply Z.div_lt_upper_bound; [done|]. eapply Z.lt_le_trans; [exact D1|]. rewrite Z.mul_comm, <- Z.pow_add_r by lia. apply Z.pow_le_mono_r; lia. }
  assert (lo * 2 ^ (- e1) <= shr_m r) as Hql by (rewrite Hr; apply Z.div_le_lower_bound; lia).
  destruct (nearest_spec (shr_m r) (loc_of_shr_record r)) as [Hn1 Hn2].
  apply last_shift; [done|done|done|nia|]. split; [lia|]. destruct Hu as [Hu|[Hu ->]].
  - assert (shr_m r < hi * 2 ^ (- e1)) by (rewrite Hr; apply Z.div_lt_upper_bound; lia). lia.
  - assert (shr_m r = hi * 2 ^ (- e1)) as Eq by (rewrite Hr, Hu, Z.mul_assoc, Z.div_mul by lia; done).
    rewrite Hn2; [lia|]. apply Hx; [done|]. rewrite Eq. lia.
Qed.

(** ** Seconds of a duration *)

(** The nanoseconds of a second, as a fraction, are at most one. *)
Lemma fraction_between r : 0 <= r < 1000000000 → between_Z 0 1 (f_div (of_Z r) (of_Z 1000000000)).
Proof.
  intros Hr. change (of_Z 1000000000) with (S754_finite false 8388608000000000 (-23)).
  destruct r as [|p|p]; [done| |lia]. assert (Zpos p < 2 ^ 53) as Hp by (eapply Z.lt_trans; [apply Hr|done]).
  unfold of_Z. cbn [binary_normalize]. destruct (of_Z_digits false p Hp) as (m & -> & Hm & Hd).
  destruct (Zdigits2_spec (Zpos p)) as (_ & _ & HD); [lia|]. specialize (HD 30 ltac:(lia) ltac:(eapply Z.lt_trans; [apply Hr|done])).
  change (Zdigits2 (Zpos p)) with (digits2 p) in HD. assert (1 <= digits2 p) as HD1 by (unfold digits2; lia). set (D := digits2 p) in *.
  unfold f_div. cbn [SFdiv xorb]. unfold SFdiv_core_binary. change (Zdigits2 (Zpos m)) with (digits2 m). rewrite Hd.
  change (Zdigits2 8388608000000000) with 53.
  assert (Z.min (fexp 53 1024 (53 + (D - 53) - (53 + -23))) (D - 53 - -23) = D - 83) as -> by (unfold fexp, emin; lia).
  replace (D - 53 - -23 - (D - 83)) with 53 by lia. cbn match.
  pose proof (Z_div_mod (Z.shiftl (Zpos m) 53) 8388608000000000 ltac:(lia)) as Hq.
  destruct (Z.div_eucl _ _) as [q rem]. destruct Hq as [Hq Hrem]. rewrite Z.shiftl_mul_pow2 in Hq by lia.
  assert (0 < 2 ^ (83 - D)) as Hpow by (apply Z.pow_pos_nonneg; lia).
  assert (Zpos m * 2 ^ 53 = Zpos p * (8388608 * 2 ^ (83 - D))) as Em.
  { rewrite Hm. change 8388608 with (2 ^ 23). rewrite <- Z.mul_assoc, <- !Z.pow_add_r by lia. do 2 f_equal. lia. }
  apply round_aux_between; [lia|lia|lia|lia|lia|]. left. replace (- (D - 83)) with (83 - D) by lia. nia.
Qed.

Lemma shl_align_value m e e' : e' <= e → Zpos (fst (shl_align m e e')) = Zpos m * 2 ^ (e - e').
Proof.
  intros He. unfold shl_align. destruct (e' - e) as [|k|k] eqn:E; [|lia|].
  - replace (e - e') with 0 by lia. cbn. lia.
  - cbn [fst]. rewrite shift_value. do 2 f_equal. lia.
Qed.

Lemma round_between m e lo hi : 0 <= lo → hi < 2 ^ 53 → e <= 0 → lo * 2 ^ (- e) <= Zpos m <= hi * 2 ^ (- e) →
  between_Z lo hi (binary_round 53 1024 false m e).
Proof.
  intros Hlo Hhi He Hm. unfold binary_round. set (f := fexp _ _ _). pose proof (shl_align_value m e (Z.min f e) ltac:(lia)) as Hv.
  destruct (Z.le_gt_cases e f).
  - unfold shl_align. destruct (f - e) eqn:E; [| |lia];
    (apply round_aux_between; [lia..|]; destruct (Z.eq_dec (Zpos m) (hi * 2 ^ (- e))); [by right|left; lia]).
  - assert (shl_align m e f = (fst (shl_align m e f), f)) as Ef by (unfold shl_align; by destruct (f - e) eqn:E; [lia|lia|]).
    rewrite (Z.min_l f e) in Hv by lia. rewrite Ef. assert (0 < 2 ^ (e - f)) by (apply Z.pow_pos_nonneg; lia).
    assert (2 ^ (- f) = 2 ^ (- e) * 2 ^ (e - f)) as Epow by (rewrite <- Z.pow_add_r by lia; f_equal; lia).
    apply round_aux_between; rewrite ?Hv, ?Epow; [lia|lia|lia|lia|nia|].
    destruct (Z.eq_dec (Zpos m) (hi * 2 ^ (- e))) as [E|E]; [right; rewrite E; split; [lia|done]|left; nia].
Qed.

(** The sum of an integer and a fraction. *)
Lemma add_between k x : 0 <= k < 2 ^ 53 - 1 → between_Z 0 1 x → between_Z k (k + 1) (f_add (of_Z k) x).
Proof.
  intros Hk Hx. destruct k as [|p|p]; [by destruct x as [[]| | |[] m e]| |lia].
  unfold of_Z. cbn [binary_normalize]. pose proof (digits2_small p ltac:(lia)) as HD.
  destruct (of_Z_digits false p) as (mk & -> & Hmk & _); [lia|]. set (ek := digits2 p - 53) in *.
  replace (53 - digits2 p) with (- ek) in Hmk by lia.
  destruct x as [[]| | |[] m e]; try done; unfold f_add; cbn [SFadd].
  - split; [lia|]. assert (0 < 2 ^ (- ek)) by (apply Z.pow_pos_nonneg; lia). lia.
  - destruct Hx as [He Hx]. set (ez := Z.min ek e). cbn [cond_Zopp].
    set (a := fst (shl_align mk ek ez)). set (b := fst (shl_align m e ez)).
    assert (Zpos a = Zpos p * 2 ^ (- ez)) as Ha.
    { unfold a. rewrite shl_align_value, Hmk, <- Z.mul_assoc, <- Z.pow_add_r by lia. do 2 f_equal. lia. }
    assert (Zpos b <= 2 ^ (- ez)) as Hb.
    { unfold b. rewrite shl_align_value by lia. replace (- ez) with (- e + (e - ez)) by lia. rewrite Z.pow_add_r by lia.
      apply Z.mul_le_mono_nonneg_r; [apply Z.pow_nonneg; lia|lia]. }
    change (Zpos a + Zpos b) with (Zpos (a + b)). cbn [binary_normalize]. apply round_between; [lia|lia|lia|].
    rewrite Pos2Z.inj_add, Ha. lia.
Qed.

(** The whole seconds of a duration, or one more when it is rounded up. *)
Lemma Seconds_between d : 0 <= d < 2 ^ 63 → ∃ z, trunc (Seconds d) = Some z ∧ d / Second <= z <= d / Second + 1.
Proof.
  intros Hd. apply trunc_between. unfold Seconds. change Second with 1000000000.
  rewrite Z.quot_div_nonneg, Z.rem_mod_nonneg by lia. pose proof (Z.mod_pos_bound d 1000000000).
  apply add_between; [|by apply fraction_between; lia]. split; [apply Z.div_pos; lia|]. apply Z.div_lt_upper_bound; lia.
Qed.

(** A double has 53 bits; a long fraction is rounded. *)
Example ParseFloat_samples :
  ParseFloat (str "1700000000.5") = Some (f_add (of_Z 1700000000) (f_div (of_Z 1) (of_Z 2))) ∧
  ParseFloat (str "9007199254740993") = Some (of_Z 9007199254740992) ∧
  ParseFloat (str "1e400") = None ∧ ParseFloat (str "-12.5e1") = Some (of_Z (-125)) ∧
  ParseFloat (str "0.1") = Some (f_div (of_Z 1) (of_Z 10)) ∧
  trunc (Seconds 1999999999) = Some 1 ∧ trunc (Seconds (2 ^ 24 * Second + 999999999)) = Some (2 ^ 24 + 1).
Proof. split_and!; vm_compute; reflexivity. Qed.
