(* ===== verification/GoQuote.v ===== *)
(** * strconv.Quote

    The Go literal of a string, as [strconv.Quote] and the verb %q write it. *)

From S2P Require Import Prelude GoLib GoJson.

#[local] Open Scope Z_scope.

(** Which runes are printable is a table of package strconv: an argument, on
    their encodings. *)
Class UnicodePrint := { IsPrint : bytes → bool }.

(** A backslash, the letter x and two digits. *)
Definition x_escape (c : byte) : bytes := [backslash; "x"%byte; lowerhex (bz c / 16); lowerhex (bz c mod 16)].

Definition U_escape (v : Z) : bytes :=
  if v <? 65536 then u_escape v
  else [backslash; "U"%byte] ++ map (λ k, lowerhex (v / 16 ^ k mod 16)) [7; 6; 5; 4; 3; 2; 1; 0].

Definition Quote_ascii (c : byte) : bytes :=
  if (c =b dquote) || (c =b backslash) then [backslash; c]
  else if (32 <=? bz c) && (bz c <? 127) then [c]
  else if c =b x07 then [backslash; "a"%byte]
  else if c =b x08 then [backslash; "b"%byte]
  else if c =b x0c then [backslash; "f"%byte]
  else if c =b x0a then [backslash; "n"%byte]
  else if c =b x0d then [backslash; "r"%byte]
  else if c =b x09 then [backslash; "t"%byte]
  else if c =b x0b then [backslash; "v"%byte]
  else x_escape c.

Section quote.
Context `{UnicodePrint}.

Definition Quote_rune (r : bytes) (v : Z) : bytes := if IsPrint r then r else U_escape v.

Fixpoint Quote_body (s : bytes) : bytes :=
  match s with
  | [] => []
  | a :: s1 =>
      if bz a <? 128 then Quote_ascii a ++ Quote_body s1 else
      match s1 with
      | [] => x_escape a
      | b :: s2 =>
          if utf8_2 a b then Quote_rune [a; b] ((bz a - 192) * 64 + (bz b - 128)) ++ Quote_body s2 else
          match s2 with
          | [] => x_escape a ++ Quote_body s1
          | c :: s3 =>
              if utf8_3 a b c
              then Quote_rune [a; b; c] ((bz a - 224) * 4096 + (bz b - 128) * 64 + (bz c - 128)) ++ Quote_body s3 else
              match s3 with
              | [] => x_escape a ++ Quote_body s1
              | d :: s4 =>
                  if utf8_4 a b c d
                  then Quote_rune [a; b; c; d] ((bz a - 240) * 262144 + (bz b - 128) * 4096 + (bz c - 128) * 64 + (bz d - 128)) ++ Quote_body s4
                  else x_escape a ++ Quote_body s1
              end
          end
      end
  end.

Definition Quote (s : bytes) : bytes := quote_with Quote_body s.
End quote.
