(* ===== verification/HttpSigBase.v ===== *)
(** * HTTP message signatures: the signature base (src/auth/httpsig/base.go, types.go)

    Component identifiers, signature parameters and their text, the derivation
    of component values from a message, and the base that is signed. *)

From S2P Require Import Prelude GoLib GoText GoURL.

#[local] Open Scope Z_scope.

(** ** Errors and constants (types.go) *)

Inductive sig_error :=
| ErrInvalidSignature | ErrSignatureExpired | ErrSignatureTooOld | ErrSignatureInFuture
| ErrMissingComponent | ErrUnsupportedAlgorithm | ErrMissingSignature | ErrLabelMismatch
| ErrKeyMismatch | ErrDuplicateComponent | ErrInvalidStructuredField | ErrDigestMismatch
| ErrText (msg : bytes).

Definition AlgRSAPSSSHA512 : bytes := str "rsa-pss-sha512".
Definition AlgRSAPKCS1v15SHA256 : bytes := str "rsa-v1_5-sha256".
Definition AlgHMACSHA256 : bytes := str "hmac-sha256".
Definition AlgECDSAP256SHA256 : bytes := str "ecdsa-p256-sha256".
Definition AlgECDSAP384SHA384 : bytes := str "ecdsa-p384-sha384".
Definition AlgEd25519 : bytes := str "ed25519".

Definition HeaderSignatureInput : bytes := str "Signature-Input".
Definition HeaderSignature : bytes := str "Signature".

Definition CompMethod : bytes := str "@method".
Definition CompTargetURI : bytes := str "@target-uri".
Definition CompAuthority : bytes := str "@authority".
Definition CompScheme : bytes := str "@scheme".
Definition CompRequestTarget : bytes := str "@request-target".
Definition CompPath : bytes := str "@path".
Definition CompQuery : bytes := str "@query".
Definition CompQueryParam : bytes := str "@query-param".
Definition CompStatus : bytes := str "@status".

Record SignatureParams := {
  sp_Label : bytes;
  sp_Components : list bytes;
  sp_Created : Z;
  sp_Expires : Z;
  sp_Nonce : bytes;
  sp_Alg : bytes;
  sp_KeyID : bytes;
  sp_Tag : bytes
}.

(** ** Component identifiers *)

Record ParsedComponent := {
  pc_Raw : bytes;
  pc_Name : bytes;
  pc_Key : bytes;
  pc_NameParam : bytes;
  pc_SF : bool;
  pc_BS : bool;
  pc_Req : bool;
  pc_TR : bool;
  pc_Serialized : bytes
}.

Definition q : byte := x22.
Definition quoted (s : bytes) : bytes := q :: s ++ [q].

(** [v[1:len(v)-1]] when [v] is at least two bytes long and quoted. *)
Definition strip_quotes (v : bytes) : bytes :=
  if (2 <=? length v)%nat && HasPrefix v [q] && HasSuffix v [q]
  then take (length v - 2) (drop 1 v) else v.

(** The assignments of the parameter loop; the serialized text grows with every
    parameter. *)
Definition set_SF (c : ParsedComponent) : ParsedComponent :=
  {| pc_Raw := pc_Raw c; pc_Name := pc_Name c; pc_Key := pc_Key c; pc_NameParam := pc_NameParam c;
     pc_SF := true; pc_BS := pc_BS c; pc_Req := pc_Req c; pc_TR := pc_TR c; pc_Serialized := pc_Serialized c |}.
Definition set_BS (c : ParsedComponent) : ParsedComponent :=
  {| pc_Raw := pc_Raw c; pc_Name := pc_Name c; pc_Key := pc_Key c; pc_NameParam := pc_NameParam c;
     pc_SF := pc_SF c; pc_BS := true; pc_Req := pc_Req c; pc_TR := pc_TR c; pc_Serialized := pc_Serialized c |}.
Definition set_Req (c : ParsedComponent) : ParsedComponent :=
  {| pc_Raw := pc_Raw c; pc_Name := pc_Name c; pc_Key := pc_Key c; pc_NameParam := pc_NameParam c;
     pc_SF := pc_SF c; pc_BS := pc_BS c; pc_Req := true; pc_TR := pc_TR c; pc_Serialized := pc_Serialized c |}.
Definition set_TR (c : ParsedComponent) : ParsedComponent :=
  {| pc_Raw := pc_Raw c; pc_Name := pc_Name c; pc_Key := pc_Key c; pc_NameParam := pc_NameParam c;
     pc_SF := pc_SF c; pc_BS := pc_BS c; pc_Req := pc_Req c; pc_TR := true; pc_Serialized := pc_Serialized c |}.
Definition set_Key (k : bytes) (c : ParsedComponent) : ParsedComponent :=
  {| pc_Raw := pc_Raw c; pc_Name := pc_Name c; pc_Key := k; pc_NameParam := pc_NameParam c;
     pc_SF := pc_SF c; pc_BS := pc_BS c; pc_Req := pc_Req c; pc_TR := pc_TR c; pc_Serialized := pc_Serialized c |}.
Definition set_NameParam (n : bytes) (c : ParsedComponent) : ParsedComponent :=
  {| pc_Raw := pc_Raw c; pc_Name := pc_Name c; pc_Key := pc_Key c; pc_NameParam := n;
     pc_SF := pc_SF c; pc_BS := pc_BS c; pc_Req := pc_Req c; pc_TR := pc_TR c; pc_Serialized := pc_Serialized c |}.
Definition write (t : bytes) (c : ParsedComponent) : ParsedComponent :=
  {| pc_Raw := pc_Raw c; pc_Name := pc_Name c; pc_Key := pc_Key c; pc_NameParam := pc_NameParam c;
     pc_SF := pc_SF c; pc_BS := pc_BS c; pc_Req := pc_Req c; pc_TR := pc_TR c;
     pc_Serialized := pc_Serialized c ++ t |}.

Section base.
Context `{UnicodeCase}.

(** A parameter without a value, and one with a value. *)
Definition flag_param (n : bytes) (c : ParsedComponent) : ParsedComponent :=
  if bytes_eqb n (str "sf") then write (str ";sf") (set_SF c)
  else if bytes_eqb n (str "bs") then write (str ";bs") (set_BS c)
  else if bytes_eqb n (str "req") then write (str ";req") (set_Req c)
  else if bytes_eqb n (str "tr") then write (str ";tr") (set_TR c)
  else write (str ";" ++ n) c.

Definition value_param (n v : bytes) (c : ParsedComponent) : ParsedComponent :=
  if bytes_eqb n (str "key") then write (str ";key=" ++ quoted v) (set_Key v c)
  else if bytes_eqb n (str "name") then write (str ";name=" ++ quoted v) (set_NameParam v c)
  else write (str ";" ++ n ++ str "=" ++ quoted v) c.

Definition param_step (c : ParsedComponent) (part : bytes) : ParsedComponent :=
  let p := TrimSpace part in
  if bytes_eqb p [] then c
  else match IndexByte p "=" with
       | None => flag_param (ToLower (TrimSpace p)) c
       | Some eqIdx =>
           value_param (ToLower (TrimSpace (take eqIdx p)))
             (strip_quotes (TrimSpace (drop (S eqIdx) p))) c
       end.

(** The name and the text after it, or an unclosed quote. *)
Definition split_name (s : bytes) : result sig_error (bytes * bytes) :=
  if HasPrefix s [q] then
    match IndexByte (drop 1 s) q with
    | None => Err ErrInvalidStructuredField
    | Some endIdx => Ok (take endIdx (drop 1 s), TrimSpace (drop (endIdx + 2) s))
    end
  else
    match IndexByte s ";" with
    | Some semicolon => Ok (TrimSpace (take semicolon s), TrimSpace (drop semicolon s))
    | None => Ok (s, [])
    end.

Definition ParseComponentIdentifier (raw : bytes) : result sig_error ParsedComponent :=
  let s := TrimSpace raw in
  if bytes_eqb s [] then Err ErrMissingComponent
  else
    '(namePart, remainder) ← split_name s;
    let name := ToLower namePart in
    let c0 := {| pc_Raw := raw; pc_Name := name; pc_Key := []; pc_NameParam := []; pc_SF := false;
                 pc_BS := false; pc_Req := false; pc_TR := false; pc_Serialized := quoted name |} in
    let comp := if bytes_eqb remainder [] then c0 else foldl param_step c0 (Split remainder ";") in
    if pc_BS comp && (pc_SF comp || nonempty (pc_Key comp)) then Err ErrInvalidStructuredField
    else Ok comp.

(** ** Signature parameters *)

Fixpoint serialize_components (comps : list bytes) (first : bool) : result sig_error bytes :=
  match comps with
  | [] => Ok []
  | raw :: rest =>
      parsed ← ParseComponentIdentifier raw;
      t ← serialize_components rest false;
      Ok ((if first then [] else str " ") ++ pc_Serialized parsed ++ t)
  end.

Definition string_param (key v : bytes) : bytes :=
  if nonempty v then str ";" ++ key ++ str "=" ++ quoted v else [].
Definition int_param (key : bytes) (v : Z) : bytes :=
  if 0 <? v then str ";" ++ key ++ str "=" ++ Itoa v else [].

Definition SerializeSignatureParams (params : SignatureParams) : result sig_error bytes :=
  comps ← serialize_components (sp_Components params) true;
  Ok (str "(" ++ comps ++ str ")" ++
      int_param (str "created") (sp_Created params) ++
      int_param (str "expires") (sp_Expires params) ++
      string_param (str "keyid") (sp_KeyID params) ++
      string_param (str "alg") (sp_Alg params) ++
      string_param (str "nonce") (sp_Nonce params) ++
      string_param (str "tag") (sp_Tag params)).

(** [splitInnerList]: split at blanks outside quotes. *)
Fixpoint split_inner (s current : bytes) (inQuote : bool) : list bytes :=
  match s with
  | [] => if nonempty current then [current] else []
  | ch :: s' =>
      if ch =b q then split_inner s' (current ++ [ch]) (negb inQuote)
      else if (ch =b " ") && negb inQuote then
        if nonempty current then current :: split_inner s' [] inQuote else split_inner s' current inQuote
      else split_inner s' (current ++ [ch]) inQuote
  end.
Definition splitInnerList (inner : bytes) : list bytes := split_inner inner [] false.

(** The switch over the parameter's key. *)
Definition assign_param (params : SignatureParams) (k v : bytes) : SignatureParams :=
  let '(Build_SignatureParams la co cr ex no al ke ta) := params in
  if bytes_eqb k (str "created") then
    match ParseInt v with (c, None) => Build_SignatureParams la co c ex no al ke ta | _ => params end
  else if bytes_eqb k (str "expires") then
    match ParseInt v with (e, None) => Build_SignatureParams la co cr e no al ke ta | _ => params end
  else if bytes_eqb k (str "keyid") then Build_SignatureParams la co cr ex no al v ta
  else if bytes_eqb k (str "alg") then Build_SignatureParams la co cr ex no v ke ta
  else if bytes_eqb k (str "nonce") then Build_SignatureParams la co cr ex v al ke ta
  else if bytes_eqb k (str "tag") then Build_SignatureParams la co cr ex no al ke v
  else params.

Definition parse_param (params : SignatureParams) (part : bytes) : SignatureParams :=
  let p := TrimSpace part in
  if bytes_eqb p [] then params
  else match IndexByte p "=" with
       | None => params
       | Some eqIdx =>
           assign_param params (ToLower (TrimSpace (take eqIdx p)))
             (strip_quotes (TrimSpace (drop (S eqIdx) p)))
       end.

Definition ParseSignatureParams (input : bytes) : result sig_error SignatureParams :=
  let input := TrimSpace input in
  if negb (HasPrefix input (str "(")) then Err ErrInvalidStructuredField
  else match IndexByte input ")" with
       | None => Err ErrInvalidStructuredField
       | Some closeParen =>
           let innerList := TrimSpace (drop 1 (take closeParen input)) in
           let paramsPart := TrimSpace (drop (S closeParen) input) in
           let p0 := {| sp_Label := [];
                        sp_Components := if nonempty innerList then splitInnerList innerList else [];
                        sp_Created := 0; sp_Expires := 0; sp_Nonce := []; sp_Alg := [];
                        sp_KeyID := []; sp_Tag := [] |} in
           Ok (if nonempty paramsPart then foldl parse_param p0 (Split paramsPart ";") else p0)
       end.

(** ** Messages *)

(** A nil header map and an empty one behave alike here. *)
Inductive RequestContext := mkContext {
  rc_Method : bytes;
  rc_URL : option URL;
  rc_Header : Header;
  rc_StatusCode : Z;
  rc_Trailers : Header;
  rc_IsResponse : bool;
  rc_ReqContext : option RequestContext
}.

Definition normalizeAuthority (u : URL) : bytes :=
  let host := ToLower (Hostname u) in
  let port := Port u in
  if bytes_eqb port [] then host
  else if (EqualFold (u_Scheme u) (str "http") && bytes_eqb port (str "80")) ||
          (EqualFold (u_Scheme u) (str "https") && bytes_eqb port (str "443"))
  then host
  else host ++ str ":" ++ port.

Definition deriveQueryParam (rawQuery paramName : bytes) : result sig_error bytes :=
  if bytes_eqb rawQuery [] then Err ErrMissingComponent
  else
    let '(values, bad) := ParseQuery rawQuery in
    if bad then Err ErrMissingComponent
    else match values_of values paramName with
         | [v] => Ok (QueryEscape v)
         | _ => Err ErrMissingComponent
         end.

Definition deriveDerivedComponent (ctx : RequestContext) (comp : ParsedComponent) : result sig_error bytes :=
  let n := pc_Name comp in
  if bytes_eqb n CompMethod then
    if bytes_eqb (rc_Method ctx) [] then Err ErrMissingComponent else Ok (rc_Method ctx)
  else if bytes_eqb n CompTargetURI then
    match rc_URL ctx with None => Err ErrMissingComponent | Some u => Ok (URL_String u) end
  else if bytes_eqb n CompAuthority then
    match rc_URL ctx with
    | Some u => if bytes_eqb (u_Host u) [] then Err ErrMissingComponent else Ok (normalizeAuthority u)
    | None => Err ErrMissingComponent
    end
  else if bytes_eqb n CompScheme then
    match rc_URL ctx with
    | Some u => if bytes_eqb (u_Scheme u) [] then Err ErrMissingComponent else Ok (ToLower (u_Scheme u))
    | None => Err ErrMissingComponent
    end
  else if bytes_eqb n CompRequestTarget then
    match rc_URL ctx with
    | None => Err ErrMissingComponent
    | Some u =>
        let path := if bytes_eqb (u_Path u) [] then str "/" else u_Path u in
        Ok (if nonempty (u_RawQuery u) then path ++ str "?" ++ u_RawQuery u else path)
    end
  else if bytes_eqb n CompPath then
    match rc_URL ctx with
    | None => Err ErrMissingComponent
    | Some u => Ok (if bytes_eqb (u_Path u) [] then str "/" else u_Path u)
    end
  else if bytes_eqb n CompQuery then
    match rc_URL ctx with
    | None => Err ErrMissingComponent
    | Some u => Ok (if nonempty (u_RawQuery u) then str "?" ++ u_RawQuery u else str "?")
    end
  else if bytes_eqb n CompQueryParam then
    match rc_URL ctx with
    | Some u => if bytes_eqb (pc_NameParam comp) [] then Err ErrMissingComponent
                else deriveQueryParam (u_RawQuery u) (pc_NameParam comp)
    | None => Err ErrMissingComponent
    end
  else if bytes_eqb n CompStatus then
    if negb (rc_IsResponse ctx) then Err ErrMissingComponent
    else if rc_StatusCode ctx =? 0 then Err ErrMissingComponent
    else Ok (Itoa (rc_StatusCode ctx))
  else Err ErrMissingComponent.

(** [strings.ReplaceAll(v, "\r\n", " ")] and of single bytes. *)
Fixpoint replace_crlf (v : bytes) : bytes :=
  match v with
  | c :: ((d :: v') as t) =>
      if (c =b x0d) && (d =b x0a) then " "%byte :: replace_crlf v' else c :: replace_crlf t
  | _ => v
  end.
Definition replace_byte (a : byte) (v : bytes) : bytes := map (λ c, if c =b a then " "%byte else c) v.

Definition cleanHeaderValue (v : bytes) : bytes :=
  replace_byte x0d (replace_byte x0a (replace_crlf (TrimSpace v))).

Fixpoint dict_lookup (items : list bytes) (key : bytes) : result sig_error bytes :=
  match items with
  | [] => Err ErrMissingComponent
  | item :: rest =>
      let item := TrimSpace item in
      if bytes_eqb item [] then dict_lookup rest key
      else match IndexByte item "=" with
           | None => if EqualFold item key then Ok (str "?1") else dict_lookup rest key
           | Some eqIdx =>
               if EqualFold (TrimSpace (take eqIdx item)) key
               then Ok (TrimSpace (drop (S eqIdx) item)) else dict_lookup rest key
           end
  end.
Definition extractDictionaryKey (dictHeader key : bytes) : result sig_error bytes :=
  dict_lookup (Split dictHeader ",") key.

Definition match_values (ord : range_order) (h : Header) (name : bytes) : list bytes :=
  concat (map (λ kv, if EqualFold kv.1 name then kv.2 else []) (ord h)).

Definition deriveHTTPField (ord : range_order) (ctx : RequestContext) (comp : ParsedComponent) :
    result sig_error bytes :=
  let headers := if pc_TR comp then rc_Trailers ctx else rc_Header ctx in
  let matchValues := match_values ord headers (pc_Name comp) in
  if bool_decide (matchValues = []) then Err ErrMissingComponent
  else if pc_BS comp then
    Ok (Join (map (λ v, str ":" ++ EncodeToString StdEncoding (cleanHeaderValue v) ++ str ":") matchValues)
          (str ", "))
  else if nonempty (pc_Key comp) then extractDictionaryKey (Join matchValues (str ", ")) (pc_Key comp)
  else Ok (Join (map cleanHeaderValue matchValues) (str ", ")).

Definition deriveComponentValue (ord : range_order) (ctx : RequestContext) (comp : ParsedComponent) :
    result sig_error bytes :=
  if HasPrefix (pc_Name comp) (str "@") then deriveDerivedComponent ctx comp
  else deriveHTTPField ord ctx comp.

(** ** The signature base *)

(** The context a component is derived from: the related request under [req]. *)
Definition target_ctx (ctx : RequestContext) (c : ParsedComponent) : result sig_error RequestContext :=
  if pc_Req c then
    if negb (rc_IsResponse ctx) then Err ErrMissingComponent
    else match rc_ReqContext ctx with
         | None => Err ErrMissingComponent
         | Some r => Ok r
         end
  else Ok ctx.

Definition base_line (c : ParsedComponent) (val : bytes) : bytes :=
  pc_Serialized c ++ str ": " ++ val ++ [x0a].

Fixpoint base_lines (ord : range_order) (ctx : RequestContext) (comps : list bytes)
    (seen : list bytes) : result sig_error bytes :=
  match comps with
  | [] => Ok []
  | raw :: rest =>
      parsed ← ParseComponentIdentifier raw;
      if bool_decide (pc_Serialized parsed ∈ seen) then Err ErrDuplicateComponent
      else
        target ← target_ctx ctx parsed;
        val ← deriveComponentValue ord target parsed;
        lines ← base_lines ord ctx rest (pc_Serialized parsed :: seen);
        Ok (base_line parsed val ++ lines)
  end.

Definition signature_params_id : bytes := quoted (str "@signature-params").

(** The base of non-nil parameters; [BuildSignatureBase] refuses nil ones. *)
Definition signature_base (ord : range_order) (ctx : RequestContext) (params : SignatureParams) :
    result sig_error bytes :=
  lines ← base_lines ord ctx (sp_Components params) [];
  sigParamsVal ← SerializeSignatureParams params;
  let baseStr := lines ++ signature_params_id ++ str ": " ++ sigParamsVal in
  if ascii baseStr then Ok baseStr else Err ErrInvalidStructuredField.

Definition BuildSignatureBase (ord : range_order) (ctx : RequestContext)
    (params : option SignatureParams) : result sig_error bytes :=
  match params with
  | None => Err ErrMissingComponent
  | Some p => signature_base ord ctx p
  end.
End base.

(** ** Well-formed identifiers

    The grammar of RFC 9421 section 2, as far as the package prints it: a name
    and a list of parameters. *)

Inductive cparam := Flag (n : bytes) | Valued (n v : bytes).
Record ident := { id_name : bytes; id_params : list cparam }.

Definition render_param (p : cparam) : bytes :=
  match p with
  | Flag n => str ";" ++ n
  | Valued n v => str ";" ++ n ++ str "=" ++ quoted v
  end.
Definition render (i : ident) : bytes := quoted (id_name i) ++ concat (map render_param (id_params i)).

(** Bytes of a name: no capital, no quote, no closing parenthesis. *)
Definition name_byte (c : byte) : bool :=
  is_lower c && negb (bool_decide (c ∈ q :: str ")")) && (32 <=? bz c).
(** Bytes of a parameter name. *)
Definition key_byte (c : byte) : bool :=
  between "a" "z" c || is_digit c || bool_decide (c ∈ str "_-.*").
(** Bytes of a quoted value. *)
Definition value_byte (c : byte) : bool :=
  (bz c <? 128) && negb (bool_decide (c ∈ q :: str ";)")).

Definition wf_param (p : cparam) : bool :=
  match p with
  | Flag n => nonempty n && forallb key_byte n
  | Valued n v => nonempty n && forallb key_byte n && forallb value_byte v
  end.
Definition wf_ident (i : ident) : bool := forallb name_byte (id_name i) && forallb wf_param (id_params i).

Definition param_effect (c : ParsedComponent) (p : cparam) : ParsedComponent :=
  match p with Flag n => flag_param n c | Valued n v => value_param n v c end.

(** What an identifier means. *)
Definition component_of (raw : bytes) (i : ident) : ParsedComponent :=
  foldl param_effect
    {| pc_Raw := raw; pc_Name := id_name i; pc_Key := []; pc_NameParam := []; pc_SF := false;
       pc_BS := false; pc_Req := false; pc_TR := false; pc_Serialized := quoted (id_name i) |}
    (id_params i).

Definition compatible (c : ParsedComponent) : bool :=
  negb (pc_BS c && (pc_SF c || nonempty (pc_Key c))).

Lemma nonempty_true s : nonempty s = true ↔ s ≠ [].
Proof. unfold nonempty. rewrite negb_true_iff. apply bytes_eqb_false. Qed.
Lemma nonempty_false s : nonempty s = false ↔ s = [].
Proof. unfold nonempty. rewrite negb_false_iff. apply bytes_eqb_true. Qed.

Lemma strip_quoted v : strip_quotes (quoted v) = v.
Proof.
  unfold strip_quotes, quoted.
  assert (HasPrefix (q :: v ++ [q]) [q] = true) as -> by reflexivity.
  assert (HasSuffix (q :: v ++ [q]) [q] = true) as ->.
  { unfold HasSuffix. rewrite app_comm_cons, rev_app_distr. reflexivity. }
  replace (2 <=? length (q :: v ++ [q]))%nat with true by (symmetry; apply Nat.leb_le; lens).
  simpl. rewrite length_app. simpl. replace (length v + 1 - 1)%nat with (length v) by lia.
  apply take_app_exact.
Qed.

Lemma quoted_tight s : tight (quoted s).
Proof. apply tight_app_ends; done. Qed.

Lemma write_serialized t c : pc_Serialized (write t c) = pc_Serialized c ++ t.
Proof. done. Qed.

Lemma param_effect_serialized c p :
  pc_Serialized (param_effect c p) = pc_Serialized c ++ render_param p.
Proof.
  destruct p as [n|n v]; simpl; unfold flag_param, value_param.
  - repeat case_match; bools; subst; done.
  - repeat case_match; bools; subst; done.
Qed.

Lemma foldl_effect_serialized ps c :
  pc_Serialized (foldl param_effect c ps) = pc_Serialized c ++ concat (map render_param ps).
Proof.
  revert c. induction ps as [|p ps IH]; intros c; simpl; [by rewrite app_nil_r|].
  by rewrite IH, param_effect_serialized, <- app_assoc.
Qed.

Lemma component_of_serialized raw i : pc_Serialized (component_of raw i) = render i.
Proof. unfold component_of. by rewrite foldl_effect_serialized. Qed.

(** Byte classes, by inspection of the 256 bytes. *)
Lemma key_byte_facts c : key_byte c = true →
  graphic c ∧ is_lower c = true ∧ c ≠ q ∧ c ≠ ";"%byte ∧ c ≠ "="%byte ∧ c ≠ ")"%byte ∧ c ≠ " "%byte ∧
  c ≠ "("%byte ∧ c ≠ ":"%byte ∧ c ≠ ","%byte.
Proof. intros Hc. destruct c; try (vm_compute in Hc; discriminate); repeat split; try done. Qed.

Lemma name_byte_facts c : name_byte c = true → is_lower c = true ∧ c ≠ q ∧ c ≠ ")"%byte.
Proof. intros Hc. destruct c; try (vm_compute in Hc; discriminate); repeat split; done. Qed.

Lemma value_byte_facts c : value_byte c = true → bz c < 128 ∧ c ≠ q ∧ c ≠ ";"%byte ∧ c ≠ ")"%byte.
Proof. intros Hc. destruct c; try (vm_compute in Hc; discriminate); repeat split; done. Qed.

Lemma forallb_notin (p : byte → bool) d s : p d = false → forallb p s = true → d ∉ s.
Proof.
  intros Hd Hs Hin. rewrite forallb_forall in Hs. apply list_elem_of_In in Hin.
  apply Hs in Hin. congruence.
Qed.

Lemma forallb_imp (p r : byte → bool) s :
  (∀ c, p c = true → r c = true) → forallb p s = true → forallb r s = true.
Proof. intros Hi Hs. apply forallb_forall. intros c Hc. apply Hi. rewrite forallb_forall in Hs. auto. Qed.

Definition param_body (p : cparam) : bytes :=
  match p with Flag n => n | Valued n v => n ++ str "=" ++ quoted v end.

Lemma key_tight n : forallb key_byte n = true → tight n.
Proof.
  intros Hn. apply tight_all, Forall_forall. intros c Hc%list_elem_of_In.
  rewrite forallb_forall in Hn. by apply key_byte_facts, Hn.
Qed.

Lemma body_tight p : wf_param p = true → param_body p ≠ [] ∧ tight (param_body p).
Proof.
  destruct p as [n|n v]; simpl; intros Hw; bools.
  - split; [by apply nonempty_true|by apply key_tight].
  - destruct n as [|a n]; [done|]. split; [done|]. simpl in *. bools.
    replace (n ++ "="%byte :: quoted v) with ((n ++ "="%byte :: q :: v) ++ [q])
      by (unfold quoted; by rewrite <- app_assoc).
    apply tight_app_ends; [by apply key_byte_facts|done].
Qed.

Lemma body_no_semicolon p : wf_param p = true → ";"%byte ∉ param_body p.
Proof.
  destruct p as [n|n v]; simpl; intros Hw; bools; [by apply (forallb_notin key_byte)|].
  assert (";"%byte ∉ n) by by apply (forallb_notin key_byte).
  assert (";"%byte ∉ v) by by apply (forallb_notin value_byte).
  unfold quoted. change (str "=") with ["="%byte]. set_solver.
Qed.

(** A list of fields, each after a semicolon. *)
Definition fields (bs : list bytes) : bytes := concat (map (cons ";"%byte) bs).

Lemma fields_split bs : Forall (λ b, ";"%byte ∉ b) bs → Split (fields bs) ";" = [] :: bs.
Proof.
  intros Hf. replace (fields bs) with (Join ([] :: bs) (str ";")).
  - apply Split_Join; [done|]. constructor; [apply not_elem_of_nil|done].
  - clear. induction bs as [|b bs IH]; [done|]. unfold fields in *. cbn [map concat]. rewrite <- IH.
    destruct bs; simpl; by rewrite ?app_nil_r.
Qed.

Lemma last_tight b d : b ≠ [] → tight b → last (";"%byte :: b) = Some d → graphic d.
Proof.
  intros Hne [_ Hl]. rewrite last_cons. destruct (last b) eqn:E; [by intros [= <-]; apply Hl|].
  by apply last_None in E.
Qed.

Lemma fields_tight bs : Forall (λ b, b ≠ [] ∧ tight b) bs → tight (fields bs).
Proof.
  intros Hf. split.
  { destruct bs; simpl; [done|]. by intros c [= <-]. }
  intros d. induction Hf as [|b bs [Hne Ht] Hf IH]; [done|]. unfold fields in *. cbn [map concat].
  rewrite last_app. destruct (last (concat _)) as [x|] eqn:E; [done|].
  by apply last_tight.
Qed.

Lemma params_fields ps : concat (map render_param ps) = fields (map param_body ps).
Proof. unfold fields. rewrite map_map. f_equal. apply map_ext. by intros []. Qed.

Lemma params_tight ps : forallb wf_param ps = true → tight (concat (map render_param ps)).
Proof.
  intros Hw. rewrite params_fields. apply fields_tight, Forall_map, Forall_forall.
  intros p Hp%list_elem_of_In. rewrite forallb_forall in Hw. by apply body_tight, Hw.
Qed.

Lemma params_split ps : forallb wf_param ps = true →
  Split (concat (map render_param ps)) ";" = [] :: map param_body ps.
Proof.
  intros Hw. rewrite params_fields. apply fields_split, Forall_map, Forall_forall.
  intros p Hp%list_elem_of_In. rewrite forallb_forall in Hw. by apply body_no_semicolon, Hw.
Qed.

Section identifiers.
Context `{UnicodeCase}.

Lemma key_lower n : forallb key_byte n = true → ToLower n = n.
Proof. intros Hn. apply ToLower_lower. eapply forallb_imp; [|exact Hn]. intros c Hc. by apply key_byte_facts. Qed.

Lemma param_step_body c p : wf_param p = true → param_step c (param_body p) = param_effect c p.
Proof.
  intros Hw. destruct (body_tight p Hw) as [Hne Ht]. unfold param_step. rewrite TrimSpace_tight by done.
  rewrite (proj2 (bytes_eqb_false _ _) Hne). destruct p as [n|n v]; simpl in *; bools.
  - rewrite (proj2 (IndexByte_None n _)) by by apply (forallb_notin key_byte). by rewrite TrimSpace_tight, key_lower by done.
  - rewrite IndexByte_app by by apply (forallb_notin key_byte). rewrite take_app_exact.
    rewrite (TrimSpace_tight n) by by apply key_tight. rewrite key_lower by done. f_equal.
    rewrite drop_app_cons, TrimSpace_tight by apply quoted_tight. apply strip_quoted.
Qed.

Lemma foldl_body ps c : forallb wf_param ps = true →
  foldl param_step c (map param_body ps) = foldl param_effect c ps.
Proof.
  revert c. induction ps as [|p ps IH]; intros c Hw; [done|]. simpl in *. bools.
  by rewrite param_step_body, IH.
Qed.

Lemma name_lower n : forallb name_byte n = true → ToLower n = n.
Proof. intros Hn. apply ToLower_lower. eapply forallb_imp; [|exact Hn]. intros c Hc. by apply name_byte_facts. Qed.

Lemma render_tight i : wf_ident i = true → tight (render i).
Proof.
  unfold wf_ident. intros Hw. bools. split; [by intros c [= <-]|].
  unfold render. rewrite last_app. pose proof (params_tight (id_params i)) as [_ Hl]; [done|].
  destruct (last (concat _)) as [x|]; [by intros c [= <-]; apply Hl|].
  unfold quoted. rewrite app_comm_cons, last_snoc. by intros c [= <-].
Qed.

Lemma split_name_render i : wf_ident i = true →
  split_name (render i) = Ok (id_name i, concat (map render_param (id_params i))).
Proof.
  unfold wf_ident. intros Hw. bools. unfold split_name, render, quoted. set (ps := concat _).
  assert (HasPrefix ((q :: id_name i ++ [q]) ++ ps) [q] = true) as -> by reflexivity.
  cbn [app]. change (drop 1 (q :: (id_name i ++ [q]) ++ ps)) with ((id_name i ++ [q]) ++ ps).
  rewrite <- app_assoc. cbn [app].
  rewrite IndexByte_app by by apply (forallb_notin name_byte).
  rewrite take_app_exact. do 2 f_equal. rewrite Nat.add_comm. simpl. rewrite drop_app_cons.
  by apply TrimSpace_tight, params_tight.
Qed.

Lemma parse_render i : wf_ident i = true →
  ParseComponentIdentifier (render i) =
    (if compatible (component_of (render i) i) then Ok (component_of (render i) i)
     else Err ErrInvalidStructuredField).
Proof.
  intros Hw. unfold ParseComponentIdentifier.
  rewrite TrimSpace_tight by by apply render_tight.
  rewrite (proj2 (bytes_eqb_false (render i) [])) by done.
  rewrite split_name_render by done. cbn [mbind result_bind].
  unfold wf_ident in Hw. bools. rewrite name_lower by done.
  assert (∀ c0, (if bytes_eqb (concat (map render_param (id_params i))) [] then c0
     else foldl param_step c0 (Split (concat (map render_param (id_params i))) ";")) =
     foldl param_effect c0 (id_params i)) as ->.
  { intros c0. destruct (id_params i) as [|p ps] eqn:E; [done|]. rewrite <- E in *.
    rewrite params_split by done. rewrite E in *.
    destruct (bytes_eqb _ _) eqn:Eb; bools; [by destruct p|].
    rewrite <- (foldl_body (p :: ps)) by done. reflexivity. }
  fold (component_of (render i) i). unfold compatible.
  destruct (pc_BS _ && _); done.
Qed.

(** The text of a well-formed identifier is parsed to what the identifier
    means, and it is its own serialized form; it is refused exactly when [bs]
    is combined with [sf] or [key]. *)
Theorem parse_render_identifier i :
  wf_ident i = true →
  ParseComponentIdentifier (render i) =
    (if compatible (component_of (render i) i) then Ok (component_of (render i) i)
     else Err ErrInvalidStructuredField) ∧
  pc_Serialized (component_of (render i) i) = render i.
Proof. intros Hw. split; [by apply parse_render|apply component_of_serialized]. Qed.

(** *** The inner list *)

(** Whether [split_inner] passes a text without splitting it, and the state it
    is left in. *)
Fixpoint inner_scan (s : bytes) (inQuote : bool) : option bool :=
  match s with
  | [] => Some inQuote
  | ch :: s' =>
      if ch =b q then inner_scan s' (negb inQuote)
      else if (ch =b " ") && negb inQuote then None
      else inner_scan s' inQuote
  end.

Lemma split_inner_scan u v cur b b' :
  inner_scan u b = Some b' → split_inner (u ++ v) cur b = split_inner v (cur ++ u) b'.
Proof.
  revert cur b. induction u as [|ch u IH]; intros cur b; cbn [inner_scan app split_inner].
  { intros [= ->]. by rewrite app_nil_r. }
  destruct (ch =b q); [|destruct (_ && _); [done|]]; intros Hs;
    rewrite (IH _ _ Hs), <- app_assoc; done.
Qed.

Lemma inner_scan_app u v b : inner_scan (u ++ v) b = inner_scan u b ≫= inner_scan v.
Proof.
  revert b. induction u as [|ch u IH]; intros b; cbn [inner_scan app]; [done|].
  destruct (ch =b q); [apply IH|]. destruct (_ && _); [done|apply IH].
Qed.

Lemma inner_scan_quote v : q ∉ v → inner_scan v true = Some true.
Proof.
  induction v as [|c v IH]; intros Hq; cbn [inner_scan]; [done|].
  rewrite (proj2 (beq_false c q)) by set_solver. rewrite andb_false_r. apply IH. set_solver.
Qed.

Lemma inner_scan_quoted v : q ∉ v → inner_scan (quoted v) false = Some false.
Proof.
  intros Hq. change (inner_scan (v ++ [q]) true = Some false).
  by rewrite inner_scan_app, inner_scan_quote.
Qed.

Lemma inner_scan_key n : forallb key_byte n = true → inner_scan n false = Some false.
Proof.
  induction n as [|c n IH]; cbn [inner_scan forallb]; [done|]. intros Hn. bools.
  destruct (key_byte_facts c) as (_ & _ & Hq & _ & _ & _ & Hs & _); [done|].
  rewrite (proj2 (beq_false c q)), (proj2 (beq_false c " ")) by done. by apply IH.
Qed.

Lemma inner_scan_param p : wf_param p = true → inner_scan (render_param p) false = Some false.
Proof.
  destruct p as [n|n v]; simpl; intros Hw; bools; [by apply inner_scan_key|].
  rewrite inner_scan_app, inner_scan_key by done.
  apply (inner_scan_quoted v). by apply (forallb_notin value_byte).
Qed.

Lemma inner_scan_render i : wf_ident i = true → inner_scan (render i) false = Some false.
Proof.
  unfold wf_ident. intros Hw. bools. unfold render. rewrite inner_scan_app, inner_scan_quoted
    by by apply (forallb_notin name_byte).
  cbn [mbind option_bind]. induction (id_params i) as [|p ps IH]; [done|]. cbn [map concat forallb] in *.
  bools. rewrite inner_scan_app, inner_scan_param by done. by apply IH.
Qed.

Lemma splitInnerList_join ids :
  Forall (λ i, wf_ident i = true) ids → splitInnerList (Join (map render ids) (str " ")) = map render ids.
Proof.
  unfold splitInnerList. induction 1 as [|i ids Hi Hids IH]; [done|].
  destruct ids as [|j ids].
  - cbn [map Join]. rewrite <- (app_nil_r (render i)) at 1.
    rewrite (split_inner_scan _ _ _ _ false) by by apply inner_scan_render. done.
  - change (Join (map render (i :: j :: ids)) (str " "))
      with (render i ++ str " " ++ Join (map render (j :: ids)) (str " ")).
    rewrite (split_inner_scan _ _ _ _ false) by by apply inner_scan_render.
    exact (f_equal (cons (render i)) IH).
Qed.

(** *** Parameters *)

(** Text that can be quoted in a parameter list. *)
Definition param_text (s : bytes) : bool := forallb (λ c, negb (c =b q) && negb (c =b ";")) s.

Definition int_field (k : bytes) (v : Z) : list bytes := if 0 <? v then [k ++ "="%byte :: Itoa v] else [].
Definition string_field (k v : bytes) : list bytes :=
  if nonempty v then [k ++ "="%byte :: quoted v] else [].
Definition param_fields (p : SignatureParams) : list bytes :=
  int_field (str "created") (sp_Created p) ++ int_field (str "expires") (sp_Expires p) ++
  string_field (str "keyid") (sp_KeyID p) ++ string_field (str "alg") (sp_Alg p) ++
  string_field (str "nonce") (sp_Nonce p) ++ string_field (str "tag") (sp_Tag p).

Definition wf_params (p : SignatureParams) : Prop :=
  0 <= sp_Created p < 2 ^ 63 ∧ 0 <= sp_Expires p < 2 ^ 63 ∧
  param_text (sp_KeyID p) = true ∧ param_text (sp_Alg p) = true ∧
  param_text (sp_Nonce p) = true ∧ param_text (sp_Tag p) = true.

Lemma param_text_facts v : param_text v = true → q ∉ v ∧ ";"%byte ∉ v.
Proof. intros Hv. split; by apply (forallb_notin (λ c, negb (c =b q) && negb (c =b ";"))). Qed.

Lemma fields_app a b : fields (a ++ b) = fields a ++ fields b.
Proof. unfold fields. by rewrite map_app, concat_app. Qed.

Lemma int_param_fields k v : int_param k v = fields (int_field k v).
Proof. unfold int_param, int_field, fields. destruct (0 <? v); [|done]. simpl. by rewrite app_nil_r. Qed.
Lemma string_param_fields k v : string_param k v = fields (string_field k v).
Proof. unfold string_param, string_field, fields. destruct (nonempty v); [|done]. simpl. by rewrite app_nil_r. Qed.

Lemma params_text p :
  int_param (str "created") (sp_Created p) ++ int_param (str "expires") (sp_Expires p) ++
  string_param (str "keyid") (sp_KeyID p) ++ string_param (str "alg") (sp_Alg p) ++
  string_param (str "nonce") (sp_Nonce p) ++ string_param (str "tag") (sp_Tag p) =
  fields (param_fields p).
Proof. unfold param_fields. by rewrite !fields_app, !int_param_fields, !string_param_fields. Qed.

Lemma digit_graphic c : is_digit c = true → graphic c ∧ c ≠ q ∧ c ≠ ";"%byte ∧ c ≠ ","%byte ∧ c ≠ ":"%byte.
Proof. intros Hc. destruct c; try (vm_compute in Hc; discriminate); done. Qed.

Lemma digits_tight n : 0 <= n → digits n ≠ [] ∧ tight (digits n) ∧ strip_quotes (digits n) = digits n ∧
  ";"%byte ∉ digits n.
Proof.
  intros Hn. destruct (digits_spec n Hn) as (_ & Hd & Hne). split; [done|]. split; [|split].
  - apply tight_all. eapply Forall_impl; [exact Hd|]. intros c Hc. by apply digit_graphic.
  - unfold strip_quotes. destruct (digits n) as [|c s]; [done|]. apply Forall_cons in Hd as [Hc _].
    apply digit_graphic in Hc as (_ & Hq & _). cbn [HasPrefix].
    rewrite (proj2 (beq_false q c)) by congruence. by rewrite andb_false_r.
  - intros Hin. rewrite Forall_forall in Hd. by apply Hd in Hin.
Qed.

Lemma field_tight k w : k ≠ [] → forallb key_byte k = true → w ≠ [] → tight w →
  (k ++ "="%byte :: w) ≠ [] ∧ tight (k ++ "="%byte :: w).
Proof.
  intros Hk Hb Hw [_ Hl]. destruct k as [|a k]; [done|]. split; [done|]. cbn [forallb] in Hb. bools.
  change (tight (a :: (k ++ "="%byte :: w))).
  apply tight_cons_last; [by apply key_byte_facts|]. intros c.
  assert (last (a :: k ++ "="%byte :: w) = last w) as ->.
  { rewrite app_comm_cons, last_app_cons. destruct w; [done|]. by rewrite last_cons_cons. }
  apply Hl.
Qed.

Lemma parse_param_field P k w : k ≠ [] → forallb key_byte k = true → w ≠ [] → tight w →
  parse_param P (k ++ "="%byte :: w) = assign_param P k (strip_quotes w).
Proof.
  intros Hk Hb Hw Ht. destruct (field_tight k w) as [Hne Htt]; [done..|].
  unfold parse_param. rewrite TrimSpace_tight by done. rewrite (proj2 (bytes_eqb_false _ _) Hne).
  rewrite IndexByte_app by by apply (forallb_notin key_byte).
  rewrite take_app_exact, drop_app_cons, !TrimSpace_tight by (done || by apply key_tight).
  by rewrite key_lower.
Qed.

Lemma parse_string_field P k v : k ≠ [] → forallb key_byte k = true → v ≠ [] →
  foldl parse_param P (string_field k v) = assign_param P k v.
Proof.
  intros Hk Hb Hv. unfold string_field. rewrite (proj2 (nonempty_true v) Hv). cbn [foldl].
  rewrite parse_param_field by (done || apply quoted_tight). by rewrite strip_quoted.
Qed.

Lemma parse_int_field P k v : k ≠ [] → forallb key_byte k = true → 0 < v →
  foldl parse_param P (int_field k v) = assign_param P k (digits v).
Proof.
  intros Hk Hb Hv. unfold int_field, Itoa. destruct (0 <? v) eqn:E; bools; [|lia].
  destruct (v <? 0) eqn:E'; bools; [lia|]. cbn [foldl].
  destruct (digits_tight v) as (? & ? & Hs & _); [lia|].
  by rewrite parse_param_field, Hs by done.
Qed.

Lemma string_field_nil k : string_field k [] = [].
Proof. done. Qed.

(** Each optional field sets its own entry. *)
Lemma created_chunk la co v ex no al ke ta : 0 <= v < 2 ^ 63 →
  foldl parse_param (Build_SignatureParams la co 0 ex no al ke ta) (int_field (str "created") v) =
  Build_SignatureParams la co v ex no al ke ta.
Proof.
  intros Hv. destruct (Z.eq_dec v 0) as [->|]; [done|].
  rewrite parse_int_field by (done || lia). unfold assign_param.
  change (bytes_eqb (str "created") (str "created")) with true. cbv iota beta.
  by rewrite ParseInt_digits.
Qed.

Lemma expires_chunk la co cr v no al ke ta : 0 <= v < 2 ^ 63 →
  foldl parse_param (Build_SignatureParams la co cr 0 no al ke ta) (int_field (str "expires") v) =
  Build_SignatureParams la co cr v no al ke ta.
Proof.
  intros Hv. destruct (Z.eq_dec v 0) as [->|]; [done|].
  rewrite parse_int_field by (done || lia). unfold assign_param.
  change (bytes_eqb (str "expires") (str "created")) with false.
  change (bytes_eqb (str "expires") (str "expires")) with true. cbv iota beta.
  by rewrite ParseInt_digits.
Qed.

Ltac string_chunk v :=
  destruct (decide (v = [])) as [->|]; [done|]; rewrite parse_string_field by done; reflexivity.

Lemma keyid_chunk la co cr ex no al ta v :
  foldl parse_param (Build_SignatureParams la co cr ex no al [] ta) (string_field (str "keyid") v) =
  Build_SignatureParams la co cr ex no al v ta.
Proof. string_chunk v. Qed.
Lemma alg_chunk la co cr ex no ke ta v :
  foldl parse_param (Build_SignatureParams la co cr ex no [] ke ta) (string_field (str "alg") v) =
  Build_SignatureParams la co cr ex no v ke ta.
Proof. string_chunk v. Qed.
Lemma nonce_chunk la co cr ex al ke ta v :
  foldl parse_param (Build_SignatureParams la co cr ex [] al ke ta) (string_field (str "nonce") v) =
  Build_SignatureParams la co cr ex v al ke ta.
Proof. string_chunk v. Qed.
Lemma tag_chunk la co cr ex no al ke v :
  foldl parse_param (Build_SignatureParams la co cr ex no al ke []) (string_field (str "tag") v) =
  Build_SignatureParams la co cr ex no al ke v.
Proof. string_chunk v. Qed.

Lemma parse_fields co p : wf_params p →
  foldl parse_param (Build_SignatureParams [] co 0 0 [] [] [] []) (param_fields p) =
  Build_SignatureParams [] co (sp_Created p) (sp_Expires p) (sp_Nonce p) (sp_Alg p) (sp_KeyID p) (sp_Tag p).
Proof.
  intros (Hc & He & _). unfold param_fields. rewrite !foldl_app.
  by rewrite created_chunk, expires_chunk, keyid_chunk, alg_chunk, nonce_chunk, tag_chunk.
Qed.

Lemma quoted_no_semicolon v : param_text v = true → ";"%byte ∉ quoted v.
Proof. intros [_ Hs]%param_text_facts. unfold quoted. set_solver. Qed.

Lemma param_fields_ok p : wf_params p →
  Forall (λ b, (b ≠ [] ∧ tight b) ∧ ";"%byte ∉ b) (param_fields p).
Proof.
  assert (∀ k v, k ≠ [] → forallb key_byte k = true → param_text v = true →
    Forall (λ b, (b ≠ [] ∧ tight b) ∧ ";"%byte ∉ b) (string_field k v)) as Hs.
  { intros k v Hk Hb Hv. unfold string_field. destruct (nonempty v); [|constructor].
    apply Forall_cons. split; [|constructor]. split; [by apply field_tight; [..|apply quoted_tight]|].
    pose proof (quoted_no_semicolon v Hv). pose proof (forallb_notin key_byte ";" k eq_refl Hb). set_solver. }
  assert (∀ k v, k ≠ [] → forallb key_byte k = true → 0 <= v →
    Forall (λ b, (b ≠ [] ∧ tight b) ∧ ";"%byte ∉ b) (int_field k v)) as Hi.
  { intros k v Hk Hb Hv. unfold int_field, Itoa. destruct (0 <? v); [|constructor].
    destruct (v <? 0) eqn:E; bools; [lia|]. destruct (digits_tight v Hv) as (? & ? & _ & ?).
    apply Forall_cons. split; [|constructor]. split; [by apply field_tight|].
    pose proof (forallb_notin key_byte ";" k eq_refl Hb). set_solver. }
  intros (Hc & He & Hk & Ha & Hn & Ht). unfold param_fields. rewrite !Forall_app.
  split_and!; [apply Hi|apply Hi|apply Hs..]; try done; lia.
Qed.

(** An identifier as it is given in a configuration. *)
Definition denotes (raw : bytes) (i : ident) : Prop :=
  wf_ident i = true ∧ ParseComponentIdentifier raw = Ok (component_of raw i).

Lemma serialize_components_tail raws ids : Forall2 denotes raws ids →
  serialize_components raws false = Ok (concat (map (λ i, str " " ++ render i) ids)).
Proof.
  induction 1 as [|raw i raws ids [_ Hd] _ IH]; [done|]. cbn [serialize_components]. rewrite Hd.
  cbn [mbind result_bind]. rewrite IH. cbn [mbind result_bind map concat].
  by rewrite component_of_serialized, <- app_assoc.
Qed.

Lemma serialize_components_join raws ids : Forall2 denotes raws ids →
  serialize_components raws true = Ok (Join (map render ids) (str " ")).
Proof.
  intros [|raw i raws' ids' [_ Hd] Hds]; [done|]. cbn [serialize_components]. rewrite Hd.
  cbn [mbind result_bind]. rewrite (serialize_components_tail _ _ Hds). cbn [mbind result_bind].
  rewrite component_of_serialized. f_equal. simpl.
  clear. revert i. induction ids' as [|j ids IH]; intros i; simpl; [by rewrite app_nil_r|].
  f_equal. by rewrite <- IH.
Qed.

Lemma render_no_paren i : wf_ident i = true → ")"%byte ∉ render i.
Proof.
  unfold wf_ident, render. intros Hw. bools. rewrite not_elem_of_app. split.
  - pose proof (forallb_notin name_byte ")" (id_name i) eq_refl ltac:(done)). unfold quoted. set_solver.
  - induction (id_params i) as [|p ps IH]; [apply not_elem_of_nil|]. cbn [map concat forallb] in *. bools.
    rewrite not_elem_of_app. split; [|by apply IH]. destruct p as [n|n v]; simpl in *; bools.
    + pose proof (forallb_notin key_byte ")" n eq_refl ltac:(done)). set_solver.
    + pose proof (forallb_notin key_byte ")" n eq_refl ltac:(done)).
      pose proof (forallb_notin value_byte ")" v eq_refl ltac:(done)). unfold quoted. set_solver.
Qed.

Lemma join_no_paren ids : Forall (λ i, wf_ident i = true) ids → ")"%byte ∉ Join (map render ids) (str " ").
Proof.
  induction 1 as [|i ids Hi Hids IH]; [apply not_elem_of_nil|]. apply render_no_paren in Hi.
  destruct ids as [|j ids]; [done|].
  change (Join (map render (i :: j :: ids)) (str " "))
    with (render i ++ " "%byte :: Join (map render (j :: ids)) (str " ")). set_solver.
Qed.

Lemma join_tight ids : Forall (λ i, wf_ident i = true) ids → tight (Join (map render ids) (str " ")).
Proof.
  intros Hids. split.
  - destruct Hids as [|i [|j ids] Hi _]; simpl; [done| |]; by intros c [= <-].
  - induction Hids as [|i ids Hi Hids IH]; [done|]. destruct ids as [|j ids].
    + simpl. by apply render_tight.
    + change (Join (map render (i :: j :: ids)) (str " "))
        with (render i ++ " "%byte :: Join (map render (j :: ids)) (str " ")).
      rewrite last_app_cons. destruct (Join (map render (j :: ids)) (str " ")) eqn:E.
      * destruct ids; simpl in E; done.
      * rewrite last_cons_cons. exact IH.
Qed.

Lemma SerializeSignatureParams_text p ids : Forall2 denotes (sp_Components p) ids →
  SerializeSignatureParams p =
  Ok ("("%byte :: Join (map render ids) (str " ") ++ ")"%byte :: fields (param_fields p)).
Proof.
  intros Hd. unfold SerializeSignatureParams. rewrite (serialize_components_join _ _ Hd).
  cbn [mbind result_bind]. rewrite params_text. done.
Qed.

Lemma params_text_tight ids p : Forall (λ i, wf_ident i = true) ids → wf_params p →
  tight ("("%byte :: Join (map render ids) (str " ") ++ ")"%byte :: fields (param_fields p)).
Proof.
  intros Hids Hp. apply tight_cons_last; [done|]. intros c. rewrite app_comm_cons, last_app_cons, last_cons.
  destruct (fields_tight (param_fields p)) as [_ Hl].
  { eapply Forall_impl; [by apply param_fields_ok|]. by intros b [? _]. }
  destruct (last (fields (param_fields p))); [by intros [= <-]; apply Hl|by intros [= <-]].
Qed.

Lemma parse_params_text ids p : Forall (λ i, wf_ident i = true) ids → wf_params p →
  ParseSignatureParams ("("%byte :: Join (map render ids) (str " ") ++ ")"%byte :: fields (param_fields p)) =
  Ok (Build_SignatureParams [] (map render ids) (sp_Created p) (sp_Expires p) (sp_Nonce p) (sp_Alg p)
        (sp_KeyID p) (sp_Tag p)).
Proof.
  intros Hids Hp. unfold ParseSignatureParams. rewrite TrimSpace_tight by by apply params_text_tight.
  set (J := Join (map render ids) (str " ")). set (F := fields (param_fields p)).
  assert (HasPrefix ("("%byte :: J ++ ")"%byte :: F) (str "(") = true) as -> by reflexivity.
  cbn [negb]. rewrite app_comm_cons, IndexByte_app.
  2:{ apply not_elem_of_cons. split; [done|]. by apply join_no_paren. }
  rewrite take_app_exact, drop_app_cons. change (drop 1 ("("%byte :: J)) with J.
  assert (tight F) by (apply fields_tight; eapply Forall_impl; [by apply param_fields_ok|]; by intros b [? _]).
  rewrite (TrimSpace_tight J), (TrimSpace_tight F) by (done || by apply join_tight). f_equal.
  replace (if nonempty J then splitInnerList J else []) with (map render ids).
  2:{ destruct (nonempty J) eqn:EJ; [by symmetry; apply splitInnerList_join|].
      apply nonempty_false in EJ. destruct ids as [|i [|j l]]; [done|..]; unfold J in EJ; simpl in EJ; done. }
  rewrite <- (parse_fields (map render ids) p Hp). destruct (nonempty F) eqn:EF.
  - unfold F. rewrite fields_split; [done|]. eapply Forall_impl; [by apply param_fields_ok|]. by intros b [_ ?].
  - apply nonempty_false in EF. unfold F in EF. by destruct (param_fields p).
Qed.

(** Signature parameters survive their serialization: parsing the serialized
    text gives back the timestamps, key identifier, algorithm, nonce and tag, and
    the components in canonical form. *)
Theorem parse_serialize_params p ids text :
  Forall2 denotes (sp_Components p) ids → wf_params p → SerializeSignatureParams p = Ok text →
  ParseSignatureParams text =
  Ok {| sp_Label := []; sp_Components := map render ids; sp_Created := sp_Created p;
        sp_Expires := sp_Expires p; sp_Nonce := sp_Nonce p; sp_Alg := sp_Alg p;
        sp_KeyID := sp_KeyID p; sp_Tag := sp_Tag p |}.
Proof.
  intros Hd Hp. rewrite (SerializeSignatureParams_text _ _ Hd). intros [= <-].
  apply parse_params_text; [|done]. clear -Hd. induction Hd as [|? ? ? ? [? _]]; by constructor.
Qed.

(** *** The base does not depend on how its components are written *)

Definition set_Raw (r : bytes) (c : ParsedComponent) : ParsedComponent :=
  {| pc_Raw := r; pc_Name := pc_Name c; pc_Key := pc_Key c; pc_NameParam := pc_NameParam c;
     pc_SF := pc_SF c; pc_BS := pc_BS c; pc_Req := pc_Req c; pc_TR := pc_TR c;
     pc_Serialized := pc_Serialized c |}.

Lemma param_effect_Raw r c p : param_effect (set_Raw r c) p = set_Raw r (param_effect c p).
Proof. destruct p; simpl; unfold flag_param, value_param; by repeat case_match. Qed.

Lemma component_of_Raw r raw i : component_of r i = set_Raw r (component_of raw i).
Proof.
  unfold component_of. match goal with |- foldl _ ?x _ = set_Raw _ (foldl _ ?y _) =>
    change x with (set_Raw r y); generalize y end.
  induction (id_params i) as [|p ps IH]; intros c; simpl; [done|]. by rewrite param_effect_Raw, IH.
Qed.

Lemma parse_compatible raw c : ParseComponentIdentifier raw = Ok c → compatible c = true.
Proof.
  unfold ParseComponentIdentifier, compatible. destruct (bytes_eqb _ _); [done|].
  destruct (split_name _) as [[n r]|]; [|done]. cbn [mbind result_bind].
  destruct (pc_BS _ && _) eqn:E; [done|]. intros [= <-]. by rewrite E.
Qed.

Lemma denotes_render raw i : denotes raw i → denotes (render i) i.
Proof.
  intros [Hw Hp]. split; [done|]. rewrite parse_render by done. apply parse_compatible in Hp.
  rewrite (component_of_Raw (render i) raw). unfold compatible in *. simpl. by rewrite Hp.
Qed.

Lemma denotes_wf raws ids : Forall2 denotes raws ids → Forall (λ i, wf_ident i = true) ids.
Proof. induction 1 as [|? ? ? ? [? _]]; by constructor. Qed.

Lemma denotes_renders raws ids : Forall2 denotes raws ids → Forall2 denotes (map render ids) ids.
Proof. induction 1; simpl; constructor; [by eapply denotes_render|done]. Qed.

(** Header maps whose keys are distinct without regard to case. *)
Definition fold_unique (h : Header) : Prop :=
  ∀ n k1 k2, is_Some (h !! k1) → is_Some (h !! k2) →
    EqualFold k1 n = true → EqualFold k2 n = true → k1 = k2.

Lemma short_perm {A} (l k : list A) :
  (∀ x y, x ∈ l → y ∈ l → x = y) → NoDup l → l ≡ₚ k → l = k.
Proof.
  intros Hu Hn Hp. destruct l as [|x [|y l]].
  - by apply Permutation_nil in Hp.
  - by apply Permutation_length_1_inv in Hp.
  - apply NoDup_cons in Hn as [Hx _]. destruct Hx. rewrite (Hu x y); set_solver.
Qed.

Lemma match_values_filter ord h n :
  match_values ord h n = concat (map snd (filter (λ kv, EqualFold kv.1 n = true) (ord h))).
Proof.
  unfold match_values. induction (ord h) as [|kv l IH]; [done|]. rewrite filter_cons. cbn [map concat].
  destruct (decide _) as [E|E]; [by rewrite E; cbn [map concat]; rewrite IH|].
  apply not_true_iff_false in E. by rewrite E, IH.
Qed.

(** The values found do not depend on the order of the map, nor on the entries
    under other names. *)
Lemma match_values_agree ord ord' h h' n :
  range_ok ord → range_ok ord' → fold_unique h →
  (∀ k, EqualFold k n = true → h !! k = h' !! k) → match_values ord h n = match_values ord' h' n.
Proof.
  intros Ho Ho' Hu Ha. rewrite !match_values_filter. do 2 f_equal.
  assert (∀ o (m : Header) k v, range_ok o →
    (k, v) ∈ filter (λ kv, EqualFold kv.1 n = true) (o m) ↔ EqualFold k n = true ∧ m !! k = Some v) as Hin.
  { intros o m k v Hom. rewrite list_elem_of_filter, (Hom m), elem_of_map_to_list. done. }
  assert (∀ o (m : Header), range_ok o → NoDup (filter (λ kv, EqualFold kv.1 n = true) (o m))) as Hnd.
  { intros o m Hom. apply NoDup_filter. rewrite (Hom m). apply NoDup_map_to_list. }
  apply short_perm; [|by apply Hnd|].
  - intros [k1 v1] [k2 v2] [E1 H1]%Hin [E2 H2]%Hin; [|done..].
    assert (k1 = k2) as -> by (eapply (Hu n); eauto). congruence.
  - apply NoDup_Permutation; [by apply Hnd..|]. intros [k v]. rewrite !Hin by done.
    split; intros [E1 H1]; split; try done; [by rewrite <- Ha|by rewrite Ha].
Qed.

Definition with_header (h : Header) (ctx : RequestContext) : RequestContext :=
  mkContext (rc_Method ctx) (rc_URL ctx) h (rc_StatusCode ctx) (rc_Trailers ctx) (rc_IsResponse ctx)
    (rc_ReqContext ctx).

Definition ctx_unique (ctx : RequestContext) : Prop :=
  fold_unique (rc_Header ctx) ∧ fold_unique (rc_Trailers ctx) ∧
  (∀ r, rc_ReqContext ctx = Some r → fold_unique (rc_Header r) ∧ fold_unique (rc_Trailers r)).

Lemma foldl_effect_name ps c : pc_Name (foldl param_effect c ps) = pc_Name c.
Proof.
  revert c. induction ps as [|p ps IH]; intros c; simpl; [done|]. rewrite IH.
  destruct p; simpl; unfold flag_param, value_param; by repeat case_match.
Qed.

Lemma component_of_name raw i : pc_Name (component_of raw i) = id_name i.
Proof. apply foldl_effect_name. Qed.

Lemma deriveDerivedComponent_header ctx h c :
  deriveDerivedComponent (with_header h ctx) c = deriveDerivedComponent ctx c.
Proof. done. Qed.

Lemma derive_agree ord ord' ctx h' c r :
  range_ok ord → range_ok ord' → fold_unique (rc_Header ctx) → fold_unique (rc_Trailers ctx) →
  (∀ k, EqualFold k (pc_Name c) = true → rc_Header ctx !! k = h' !! k) →
  deriveComponentValue ord ctx c = deriveComponentValue ord' (with_header h' ctx) (set_Raw r c).
Proof.
  intros Ho Ho' Hh Ht Ha. unfold deriveComponentValue. cbn [pc_Name set_Raw].
  destruct (HasPrefix _ _); [done|]. unfold deriveHTTPField. cbn [pc_TR pc_Name set_Raw pc_BS pc_Key].
  assert (match_values ord (if pc_TR c then rc_Trailers ctx else rc_Header ctx) (pc_Name c) =
    match_values ord' (if pc_TR c then rc_Trailers (with_header h' ctx) else rc_Header (with_header h' ctx))
      (pc_Name c)) as ->; [|done].
  destruct (pc_TR c); by apply match_values_agree.
Qed.

Lemma with_header_id ctx : with_header (rc_Header ctx) ctx = ctx.
Proof. by destruct ctx. Qed.

(** The value of one component, from whichever message it is taken. *)
Definition component_value (ord : range_order) (ctx : RequestContext) (c : ParsedComponent) :
    result sig_error bytes :=
  target ← target_ctx ctx c; deriveComponentValue ord target c.

Lemma value_agree ord ord' ctx h' c r :
  range_ok ord → range_ok ord' → ctx_unique ctx →
  (∀ k, EqualFold k (pc_Name c) = true → rc_Header ctx !! k = h' !! k) →
  component_value ord ctx c = component_value ord' (with_header h' ctx) (set_Raw r c).
Proof.
  intros Ho Ho' (Hh & Ht & Hr) Ha. unfold component_value, target_ctx. cbn [pc_Req set_Raw].
  destruct (pc_Req c); [|by apply derive_agree]. cbn [rc_IsResponse with_header rc_ReqContext].
  destruct (negb _); [done|]. destruct (rc_ReqContext ctx) as [x|]; [|done]. cbn [mbind result_bind].
  destruct (Hr x eq_refl). rewrite <- (with_header_id x) at 2. by apply derive_agree.
Qed.

Lemma base_lines_step ord ctx raw i rest seen : denotes raw i →
  base_lines ord ctx (raw :: rest) seen =
  (if bool_decide (render i ∈ seen) then Err ErrDuplicateComponent
   else
     val ← component_value ord ctx (component_of raw i);
     lines ← base_lines ord ctx rest (render i :: seen);
     Ok (render i ++ str ": " ++ val ++ [x0a] ++ lines)).
Proof.
  intros [_ Hp]. cbn [base_lines]. rewrite Hp. cbn [mbind result_bind].
  rewrite !component_of_serialized. case_bool_decide; [done|]. unfold component_value.
  destruct (target_ctx _ _); [|done].
  cbn [mbind result_bind]. destruct (deriveComponentValue _ _ _); [|done]. cbn [mbind result_bind].
  destruct (base_lines _ _ _ _); [|done]. cbn [mbind result_bind]. unfold base_line.
  by rewrite component_of_serialized, <- !app_assoc.
Qed.

Lemma base_lines_agree ord ord' ctx h' raws ids seen :
  range_ok ord → range_ok ord' → ctx_unique ctx → Forall2 denotes raws ids →
  (∀ i k, i ∈ ids → EqualFold k (id_name i) = true → rc_Header ctx !! k = h' !! k) →
  base_lines ord ctx raws seen = base_lines ord' (with_header h' ctx) (map render ids) seen.
Proof.
  intros Ho Ho' Hu Hd Ha. revert seen. induction Hd as [|raw i raws ids Hi Hd IH]; intros seen; [done|].
  cbn [map]. rewrite (base_lines_step _ _ raw i) by done.
  rewrite (base_lines_step _ _ (render i) i) by by eapply denotes_render.
  case_bool_decide; [done|]. rewrite (component_of_Raw (render i) raw).
  rewrite <- (value_agree ord ord' ctx h' (component_of raw i) (render i)); [|done..|].
  - destruct (component_value _ _ _); [|done]. cbn [mbind result_bind]. rewrite IH; [done|]. set_solver.
  - intros k. rewrite component_of_name. apply Ha. set_solver.
Qed.

(** Signing parameters and the parameters read back give the same base. *)
Lemma signature_base_agree ord ord' ctx h' p ids l :
  range_ok ord → range_ok ord' → ctx_unique ctx → Forall2 denotes (sp_Components p) ids →
  (∀ i k, i ∈ ids → EqualFold k (id_name i) = true → rc_Header ctx !! k = h' !! k) →
  signature_base ord ctx p =
  signature_base ord' (with_header h' ctx)
    (Build_SignatureParams l (map render ids) (sp_Created p) (sp_Expires p) (sp_Nonce p) (sp_Alg p)
       (sp_KeyID p) (sp_Tag p)).
Proof.
  intros Ho Ho' Hu Hd Ha. unfold signature_base.
  rewrite (base_lines_agree ord ord' ctx h' _ ids) by done. cbn [sp_Components].
  rewrite (SerializeSignatureParams_text _ _ Hd).
  rewrite (SerializeSignatureParams_text _ ids) by by eapply denotes_renders. done.
Qed.
End identifiers.

Module BaseSample.
#[local] Existing Instance ascii_case.

Definition page : ident := {| id_name := str "@query-param"; id_params := [Flag (str "req"); Valued (str "name") (str "page 1")] |}.

Lemma parse_render_identifier_witness :
  ParseComponentIdentifier (render page) = Ok (component_of (render page) page) ∧
  pc_NameParam (component_of (render page) page) = str "page 1".
Proof. split; [|reflexivity]. destruct (parse_render_identifier page) as [He _]; [reflexivity|]. exact He. Defined.

Definition params : SignatureParams :=
  {| sp_Label := str "sig1"; sp_Components := [str "@Method"; str "@query-param;req; name= page 1 "];
     sp_Created := 1618884473; sp_Expires := 0; sp_Nonce := []; sp_Alg := AlgEd25519;
     sp_KeyID := str "key (1), a:b"; sp_Tag := str "app" |}.

Lemma parse_serialize_params_witness :
  ∃ text, SerializeSignatureParams params = Ok text ∧
    sp_KeyID <$> (match ParseSignatureParams text with Ok p => Some p | Err _ => None end) =
    Some (str "key (1), a:b").
Proof.
  eexists. split; [vm_compute; reflexivity|].
  rewrite (parse_serialize_params params [{| id_name := str "@method"; id_params := [] |}; page]); [done| | |].
  - repeat constructor; vm_compute; reflexivity.
  - vm_compute. repeat split; congruence.
  - vm_compute. reflexivity.
Defined.

(** A comma inside a quoted string ends a dictionary member: the value of the
    key [a] is cut. *)
Lemma dictionary_string_cut :
  extractDictionaryKey (str "a=" ++ quoted (str "x, y") ++ str ", b=2") (str "a") =
  Ok (q :: str "x").
Proof. vm_compute. reflexivity. Qed.
End BaseSample.
