(* ===== verification/HttpSigVerify.v ===== *)
(** * HTTP message signatures: signing and verification
      (src/auth/httpsig/sign.go, verify.go)

    Signers and verifiers are records of operations; the clock is an argument. *)

From S2P Require Import Prelude GoLib GoText GoURL HttpSigBase.

#[local] Open Scope Z_scope.

Record Signer := {
  sg_Algorithm : bytes;
  sg_KeyID : bytes;
  sg_Sign : bytes → result sig_error bytes
}.

Record Verifier := {
  vr_Algorithm : bytes;
  vr_KeyID : bytes;
  vr_Verify : bytes → bytes → result sig_error unit
}.

(** A zero [time.Time] is [None]; the other times are in nanoseconds. *)
Record SignConfig := {
  sc_Label : bytes;
  sc_Signer : option Signer;
  sc_Components : list bytes;
  sc_Created : option Z;
  sc_Expires : option Z;
  sc_Nonce : bytes;
  sc_Tag : bytes
}.

Record VerifyConfig := {
  vc_Label : bytes;
  vc_Verifier : option Verifier;
  vc_RequiredComponents : list bytes;
  vc_MaxAge : Z;
  vc_AllowedClockSkew : Z;
  vc_RequiredTag : bytes
}.

Section httpsig.
Context `{UnicodeCase}.

(** ** Signing *)

Definition default_components (ctx : RequestContext) : list bytes :=
  if rc_IsResponse ctx then [CompStatus] else [CompMethod; CompAuthority; CompPath].

Definition sign_params (ctx : RequestContext) (cfg : SignConfig) (s : Signer) (now : Z) : SignatureParams :=
  {| sp_Label := if nonempty (sc_Label cfg) then sc_Label cfg else str "sig1";
     sp_Components := match sc_Components cfg with [] => default_components ctx | cs => cs end;
     sp_Created := Time_Unix (default now (sc_Created cfg));
     sp_Expires := match sc_Expires cfg with Some e => Time_Unix e | None => 0 end;
     sp_Nonce := sc_Nonce cfg;
     sp_Alg := sg_Algorithm s;
     sp_KeyID := sg_KeyID s;
     sp_Tag := sc_Tag cfg |}.

Definition Sign (ord : range_order) (now : Z) (ctx : option RequestContext) (cfg : SignConfig) :
    result sig_error (bytes * bytes) :=
  match ctx with
  | None => Err (ErrText (str "httpsig: nil request context"))
  | Some ctx =>
      match sc_Signer cfg with
      | None => Err (ErrText (str "httpsig: signer is required"))
      | Some s =>
          let params := sign_params ctx cfg s now in
          baseBytes ← BuildSignatureBase ord ctx (Some params);
          sigBytes ← sg_Sign s baseBytes;
          serializedParams ← SerializeSignatureParams params;
          Ok (sp_Label params ++ str "=" ++ serializedParams,
              sp_Label params ++ str "=:" ++ EncodeToString StdEncoding sigBytes ++ str ":")
      end
  end.

Definition appendHeader (h : Header) (key member : bytes) : Header :=
  let existing := Header_Get h key in
  if bytes_eqb existing [] then Header_Set h key member
  else Header_Set h key (existing ++ str ", " ++ member).

(** The parts of [http.Request] and [http.Response] the package reads. *)
Record Request := { req_Method : bytes; req_URL : option URL; req_Header : Header }.
Record Response := { resp_StatusCode : Z; resp_Header : Header; resp_Trailer : Header }.

Definition request_ctx (req : Request) : RequestContext :=
  {| rc_Method := req_Method req; rc_URL := req_URL req; rc_Header := req_Header req;
     rc_StatusCode := 0; rc_Trailers := ∅; rc_IsResponse := false; rc_ReqContext := None |}.

Definition response_ctx (resp : Response) (origReq : option Request) : RequestContext :=
  {| rc_Method := []; rc_URL := None; rc_Header := resp_Header resp;
     rc_StatusCode := resp_StatusCode resp; rc_Trailers := resp_Trailer resp; rc_IsResponse := true;
     rc_ReqContext := request_ctx <$> origReq |}.

Definition sign_headers (h : Header) (members : bytes * bytes) : Header :=
  appendHeader (appendHeader h HeaderSignatureInput members.1) HeaderSignature members.2.

Definition SignRequest (ord : range_order) (now : Z) (req : option Request) (cfg : SignConfig) :
    result sig_error Request :=
  match req with
  | None => Err (ErrText (str "httpsig: nil request"))
  | Some r =>
      members ← Sign ord now (Some (request_ctx r)) cfg;
      Ok {| req_Method := req_Method r; req_URL := req_URL r;
            req_Header := sign_headers (req_Header r) members |}
  end.

Definition SignResponse (ord : range_order) (now : Z) (resp : option Response)
    (origReq : option Request) (cfg : SignConfig) : result sig_error Response :=
  match resp with
  | None => Err (ErrText (str "httpsig: nil response"))
  | Some r =>
      members ← Sign ord now (Some (response_ctx r origReq)) cfg;
      Ok {| resp_StatusCode := resp_StatusCode r; resp_Header := sign_headers (resp_Header r) members;
            resp_Trailer := resp_Trailer r |}
  end.

(** ** Dictionary members *)

(** The state of [splitHeaderComma]. *)
Record comma_state := { cs_quote : bool; cs_paren : Z; cs_colon : bool }.

Fixpoint split_comma (s current : bytes) (st : comma_state) : list bytes :=
  match s with
  | [] => if nonempty current then [current] else []
  | ch :: s' =>
      let '(Build_comma_state inQuote inParen inColon) := st in
      if (ch =b q) && negb inColon then
        split_comma s' (current ++ [ch]) (Build_comma_state (negb inQuote) inParen inColon)
      else if (ch =b "(") && negb inQuote then
        split_comma s' (current ++ [ch]) (Build_comma_state inQuote (inParen + 1) inColon)
      else if (ch =b ")") && negb inQuote && (0 <? inParen) then
        split_comma s' (current ++ [ch]) (Build_comma_state inQuote (inParen - 1) inColon)
      else if (ch =b ":") && negb inQuote then
        split_comma s' (current ++ [ch]) (Build_comma_state inQuote inParen (negb inColon))
      else if (ch =b ",") && negb inQuote && (inParen =? 0) && negb inColon then
        if nonempty current then current :: split_comma s' [] st else split_comma s' current st
      else split_comma s' (current ++ [ch]) st
  end.

Definition comma_init : comma_state := Build_comma_state false 0 false.
Definition splitHeaderComma (val : bytes) : list bytes := split_comma val [] comma_init.

Definition dict_entry (item : bytes) : option (bytes * bytes) :=
  let item := TrimSpace item in
  if bytes_eqb item [] then None
  else match IndexByte item "=" with
       | None => None
       | Some eqIdx => Some (TrimSpace (take eqIdx item), TrimSpace (drop (S eqIdx) item))
       end.

Definition parseDictionaryMembers (headerVal : bytes) : list (bytes * bytes) :=
  omap dict_entry (splitHeaderComma headerVal).

Definition find_label (entries : list (bytes * bytes)) (label : bytes) : bytes :=
  match List.find (λ e, bytes_eqb e.1 label) entries with Some e => e.2 | None => [] end.

Definition decodeByteSequence (val : bytes) : option bytes :=
  let val := TrimSpace val in
  let val := if HasPrefix val (str ":") && HasSuffix val (str ":") && (2 <=? length val)%nat
             then take (length val - 2) (drop 1 val) else val in
  DecodeString StdEncoding val.

(** ** Verification *)

Definition check_times (now : Z) (cfg : VerifyConfig) (params : SignatureParams) : result sig_error unit :=
  let skew := if vc_AllowedClockSkew cfg <=? 0 then Minute else vc_AllowedClockSkew cfg in
  if (0 <? sp_Expires params) && After now (time_Add (time_Unix (sp_Expires params)) skew)
  then Err ErrSignatureExpired
  else if 0 <? sp_Created params then
    let createdTime := time_Unix (sp_Created params) in
    if After createdTime (time_Add now skew) then Err ErrSignatureInFuture
    else if (0 <? vc_MaxAge cfg) && (wrap64 (vc_MaxAge cfg + skew) <? time_Sub now createdTime)
    then Err ErrSignatureTooOld
    else Ok ()
  else Ok ().

(** The names and serialized identifiers of the components that parse. *)
Definition covered_set (comps : list bytes) : list bytes :=
  concat (map (λ c, match ParseComponentIdentifier c with
                    | Ok p => [pc_Serialized p; pc_Name p]
                    | Err _ => []
                    end) comps).

Fixpoint check_required (covered reqs : list bytes) : result sig_error unit :=
  match reqs with
  | [] => Ok ()
  | r :: rest =>
      parsedReq ← ParseComponentIdentifier r;
      if bool_decide (pc_Serialized parsedReq ∈ covered) || bool_decide (pc_Name parsedReq ∈ covered)
      then check_required covered rest else Err ErrMissingComponent
  end.

Definition check_policy (now : Z) (cfg : VerifyConfig) (v : Verifier) (params : SignatureParams) :
    result sig_error unit :=
  if nonempty (sp_Alg params) && negb (bytes_eqb (sp_Alg params) (vr_Algorithm v))
  then Err ErrUnsupportedAlgorithm
  else if nonempty (sp_KeyID params) && nonempty (vr_KeyID v) &&
          negb (bytes_eqb (sp_KeyID params) (vr_KeyID v))
  then Err ErrKeyMismatch
  else if nonempty (vc_RequiredTag cfg) && negb (bytes_eqb (sp_Tag params) (vc_RequiredTag cfg))
  then Err ErrInvalidSignature
  else
    _ ← check_times now cfg params;
    check_required (covered_set (sp_Components params)) (vc_RequiredComponents cfg).

Definition with_label (l : bytes) (p : SignatureParams) : SignatureParams :=
  {| sp_Label := l; sp_Components := sp_Components p; sp_Created := sp_Created p;
     sp_Expires := sp_Expires p; sp_Nonce := sp_Nonce p; sp_Alg := sp_Alg p;
     sp_KeyID := sp_KeyID p; sp_Tag := sp_Tag p |}.

(** The label, the parameters and the signature the headers give. *)
Definition read_signature (cfg : VerifyConfig) (sigInputHeader sigHeader : bytes) :
    result sig_error (SignatureParams * bytes) :=
  if bytes_eqb sigInputHeader [] || bytes_eqb sigHeader [] then Err ErrMissingSignature
  else
    let inputEntries := parseDictionaryMembers sigInputHeader in
    let sigEntries := parseDictionaryMembers sigHeader in
    targetLabel ← (if nonempty (vc_Label cfg) then Ok (vc_Label cfg)
                   else match inputEntries with [] => Err ErrMissingSignature | e :: _ => Ok e.1 end);
    let rawParams := find_label inputEntries targetLabel in
    if bytes_eqb rawParams [] then Err ErrLabelMismatch
    else
      let rawSig := find_label sigEntries targetLabel in
      if bytes_eqb rawSig [] then Err ErrLabelMismatch
      else
        match ParseSignatureParams rawParams with
        | Err _ => Err ErrInvalidStructuredField
        | Ok p =>
            match decodeByteSequence rawSig with
            | None => Err ErrInvalidStructuredField
            | Some sigBytes => Ok (with_label targetLabel p, sigBytes)
            end
        end.

Definition Verify (ord : range_order) (now : Z) (ctx : option RequestContext) (cfg : VerifyConfig) :
    result sig_error SignatureParams :=
  match ctx with
  | None => Err (ErrText (str "httpsig: nil request context"))
  | Some ctx =>
      match vc_Verifier cfg with
      | None => Err (ErrText (str "httpsig: verifier is required"))
      | Some v =>
          '(params, sigBytes) ← read_signature cfg (Header_Get (rc_Header ctx) HeaderSignatureInput)
                                  (Header_Get (rc_Header ctx) HeaderSignature);
          _ ← check_policy now cfg v params;
          baseBytes ← BuildSignatureBase ord ctx (Some params);
          _ ← vr_Verify v baseBytes sigBytes;
          Ok params
      end
  end.

Definition VerifyRequest (ord : range_order) (now : Z) (req : option Request) (cfg : VerifyConfig) :
    result sig_error SignatureParams :=
  match req with
  | None => Err (ErrText (str "httpsig: nil request"))
  | Some r => Verify ord now (Some (request_ctx r)) cfg
  end.

Definition VerifyResponse (ord : range_order) (now : Z) (resp : option Response)
    (origReq : option Request) (cfg : VerifyConfig) : result sig_error SignatureParams :=
  match resp with
  | None => Err (ErrText (str "httpsig: nil response"))
  | Some r => Verify ord now (Some (response_ctx r origReq)) cfg
  end.
End httpsig.

(** ** Scanning of header lists *)

Definition comma_next (st : comma_state) (ch : byte) : comma_state :=
  let '(Build_comma_state inQuote inParen inColon) := st in
  if (ch =b q) && negb inColon then Build_comma_state (negb inQuote) inParen inColon
  else if (ch =b "(") && negb inQuote then Build_comma_state inQuote (inParen + 1) inColon
  else if (ch =b ")") && negb inQuote && (0 <? inParen) then Build_comma_state inQuote (inParen - 1) inColon
  else if (ch =b ":") && negb inQuote then Build_comma_state inQuote inParen (negb inColon)
  else st.

Definition is_sep (st : comma_state) (ch : byte) : bool :=
  (ch =b ",") && negb (cs_quote st) && (cs_paren st =? 0) && negb (cs_colon st).

Lemma split_comma_cons ch s cur st :
  split_comma (ch :: s) cur st =
  (if is_sep st ch then if nonempty cur then cur :: split_comma s [] st else split_comma s cur st
   else split_comma s (cur ++ [ch]) (comma_next st ch)).
Proof.
  destruct st as [b p c]. unfold is_sep, comma_next. cbn [split_comma cs_quote cs_paren cs_colon].
  destruct (ch =b ",") eqn:E; bools; [subst ch; by destruct b, c, (p =? 0)|]. cbn [andb].
  by repeat match goal with |- context [if ?x then split_comma _ _ _ else _] => destruct x end.
Qed.

Definition end_state (st : comma_state) (s : bytes) : comma_state := foldl comma_next st s.

Lemma comma_next_sep st ch : is_sep st ch = true → comma_next st ch = st.
Proof.
  destruct st as [b p c]. unfold is_sep. cbn [cs_quote cs_paren cs_colon]. intros Hs. bools. by subst.
Qed.

(** Balanced text before a comma is split on its own. *)
Lemma split_comma_balanced u v cur st : end_state st u = comma_init →
  split_comma (u ++ ","%byte :: v) cur st = split_comma u cur st ++ split_comma v [] comma_init.
Proof.
  revert cur st. induction u as [|ch u IH]; intros cur st He.
  - cbn [end_state foldl] in He. subst. cbn [app]. rewrite split_comma_cons.
    change (is_sep comma_init ",") with true. cbv iota. cbn [split_comma].
    destruct (nonempty cur) eqn:E; [done|]. by apply nonempty_false in E as ->.
  - cbn [app]. rewrite !split_comma_cons. unfold end_state in He. cbn [foldl] in He.
    destruct (is_sep st ch) eqn:Es.
    + rewrite (comma_next_sep st ch Es) in He. destruct (nonempty cur); by rewrite IH.
    + by rewrite IH.
Qed.

(** Text that contains no separator is passed whole. *)
Fixpoint clean (st : comma_state) (s : bytes) : bool :=
  match s with [] => true | ch :: s' => negb (is_sep st ch) && clean (comma_next st ch) s' end.

Lemma clean_app st u v : clean st (u ++ v) = clean st u && clean (end_state st u) v.
Proof.
  revert st. induction u as [|ch u IH]; intros st; [done|]. cbn [app clean]. rewrite IH.
  unfold end_state. cbn [foldl]. by rewrite andb_assoc.
Qed.

Lemma end_state_app st u v : end_state st (u ++ v) = end_state (end_state st u) v.
Proof. apply foldl_app. Qed.

Lemma split_comma_clean u cur st : clean st u = true → cur ++ u ≠ [] → split_comma u cur st = [cur ++ u].
Proof.
  revert cur st. induction u as [|ch u IH]; intros cur st Hc Hne; cbn [clean] in *; bools.
  - cbn [split_comma]. rewrite app_nil_r in *. by rewrite (proj2 (nonempty_true cur) Hne).
  - rewrite split_comma_cons. match goal with H : is_sep st ch = false |- _ => rewrite H end.
    rewrite IH; [by rewrite <- app_assoc|done|]. by destruct cur.
Qed.

(** Passing a chunk without a trace: no separator, same state. *)
Definition transparent (st : comma_state) (u : bytes) : Prop := clean st u = true ∧ end_state st u = st.

Lemma transparent_app st u v : transparent st u → transparent st v → transparent st (u ++ v).
Proof. intros [Hu Eu] [Hv Ev]. split; [by rewrite clean_app, Eu, Hu|by rewrite end_state_app, Eu]. Qed.

Lemma transparent_nil st : transparent st [].
Proof. done. Qed.

Definition plain_byte (c : byte) : bool := negb (bool_decide (c ∈ q :: str "():,")).

Lemma transparent_plain st u : forallb plain_byte u = true → transparent st u.
Proof.
  induction u as [|c u IH]; cbn [forallb]; [done|]. intros Hu. bools.
  assert (is_sep st c = false ∧ comma_next st c = st) as [Hs Hn].
  { destruct st as [b p e]. match goal with H : plain_byte c = true |- _ =>
      destruct c; try (vm_compute in H; discriminate); done end. }
  destruct IH as [Hc He]; [done|]. split; [cbn [clean]; by rewrite Hs, Hn|].
  unfold end_state in *. cbn [foldl]. by rewrite Hn.
Qed.

Lemma in_quote_transparent p v : q ∉ v → transparent (Build_comma_state true p false) v.
Proof.
  induction v as [|c v IH]; intros Hv; [done|].
  assert (c ≠ q) by set_solver.
  assert (is_sep (Build_comma_state true p false) c = false ∧
          comma_next (Build_comma_state true p false) c = Build_comma_state true p false) as [Hs Hn].
  { unfold is_sep, comma_next. rewrite (proj2 (beq_false c q)) by done. cbn [cs_quote negb].
    by rewrite !andb_false_r. }
  destruct IH as [Hc He]; [set_solver|]. split; [cbn [clean]; by rewrite Hs, Hn|].
  unfold end_state in *. cbn [foldl]. by rewrite Hn.
Qed.

Lemma transparent_quoted p v : q ∉ v → transparent (Build_comma_state false p false) (quoted v).
Proof.
  intros Hv. destruct (in_quote_transparent p v Hv) as [Hc He]. unfold transparent, quoted.
  cbn [clean]. unfold end_state. cbn [foldl]. change (is_sep (Build_comma_state false p false) q) with false.
  change (comma_next (Build_comma_state false p false) q) with (Build_comma_state true p false).
  rewrite clean_app, Hc, He, foldl_app. fold (end_state (Build_comma_state true p false) v).
  rewrite He. done.
Qed.

Section roundtrip.
Context `{UnicodeCase}.

Lemma key_plain n : forallb key_byte n = true → forallb plain_byte n = true.
Proof.
  apply forallb_imp. intros c Hc. by destruct c; try (vm_compute in Hc; discriminate).
Qed.

Lemma key_field_plain n : forallb key_byte n = true → forallb plain_byte (";"%byte :: n) = true.
Proof. intros Hn. cbn [forallb]. by rewrite key_plain. Qed.

Lemma render_transparent p i : wf_ident i = true → transparent (Build_comma_state false p false) (render i).
Proof.
  unfold wf_ident, render. intros Hw. bools. apply transparent_app.
  { apply transparent_quoted. by apply (forallb_notin name_byte). }
  induction (id_params i) as [|x ps IH]; [done|]. cbn [map concat forallb] in *. bools.
  apply transparent_app; [|by apply IH]. destruct x as [n|n v]; simpl in *; bools.
  - apply (transparent_plain _ (";"%byte :: n)). by apply key_field_plain.
  - change (";"%byte :: n ++ "="%byte :: quoted v) with ((";"%byte :: n) ++ ["="%byte] ++ quoted v).
    apply transparent_app; [apply transparent_plain; by apply key_field_plain|].
    apply transparent_app; [by apply transparent_plain|].
    apply transparent_quoted. by apply (forallb_notin value_byte).
Qed.

Lemma join_transparent p ids : Forall (λ i, wf_ident i = true) ids →
  transparent (Build_comma_state false p false) (Join (map render ids) (str " ")).
Proof.
  induction 1 as [|i ids Hi Hids IH]; [done|]. destruct ids as [|j ids]; [by apply render_transparent|].
  change (Join (map render (i :: j :: ids)) (str " "))
    with (render i ++ str " " ++ Join (map render (j :: ids)) (str " ")).
  apply transparent_app; [by apply render_transparent|]. apply transparent_app; [by apply transparent_plain|done].
Qed.

Lemma digits_plain v : 0 <= v → forallb plain_byte (digits v) = true.
Proof.
  intros Hv. destruct (digits_spec v Hv) as (_ & Hd & _). apply forallb_forall. intros c Hc%list_elem_of_In.
  rewrite Forall_forall in Hd. apply Hd in Hc. by destruct c; try (vm_compute in Hc; discriminate).
Qed.

Lemma fields_transparent p : wf_params p → transparent comma_init (fields (param_fields p)).
Proof.
  assert (∀ k v, forallb key_byte k = true → param_text v = true →
    transparent comma_init (fields (string_field k v))) as Hs.
  { intros k v Hk [Hv _]%param_text_facts. unfold string_field, fields. destruct (nonempty v); [|done].
    cbn [map concat]. rewrite app_nil_r.
    change (";"%byte :: k ++ "="%byte :: quoted v) with ((";"%byte :: k) ++ ["="%byte] ++ quoted v).
    apply transparent_app; [apply transparent_plain; by apply key_field_plain|].
    apply transparent_app; [by apply transparent_plain|by apply transparent_quoted]. }
  assert (∀ k v, forallb key_byte k = true → 0 <= v →
    transparent comma_init (fields (int_field k v))) as Hi.
  { intros k v Hk Hv. unfold int_field, fields, Itoa. destruct (0 <? v); [|done].
    destruct (v <? 0) eqn:E; bools; [lia|]. cbn [map concat]. rewrite app_nil_r. apply transparent_plain.
    cbn [forallb]. rewrite forallb_app. cbn [forallb]. rewrite key_plain, digits_plain by done. done. }
  intros (Hc & He & Hk & Ha & Hn & Ht). unfold param_fields. rewrite !fields_app.
  repeat apply transparent_app; [apply Hi|apply Hi|apply Hs..]; try done; lia.
Qed.

(** One member of a dictionary header. *)
Definition input_member (label : bytes) (ids : list ident) (p : SignatureParams) : bytes :=
  label ++ "="%byte :: "("%byte :: Join (map render ids) (str " ") ++ ")"%byte :: fields (param_fields p).
Definition sig_member (label sig : bytes) : bytes :=
  label ++ "="%byte :: ":"%byte :: EncodeToString StdEncoding sig ++ str ":".

Lemma input_member_clean label ids p : forallb key_byte label = true →
  Forall (λ i, wf_ident i = true) ids → wf_params p → transparent comma_init (input_member label ids p).
Proof.
  intros Hl Hids Hp. unfold input_member. set (J := Join (map render ids) (str " ")).
  apply transparent_app; [apply transparent_plain; by apply key_plain|].
  destruct (join_transparent 1 ids Hids) as [Hc He]. destruct (fields_transparent p Hp) as [Hc' He'].
  change (transparent comma_init (str "=(" ++ J ++ str ")" ++ fields (param_fields p))).
  unfold transparent. rewrite !clean_app, !end_state_app.
  change (end_state comma_init (str "=(")) with (Build_comma_state false 1 false).
  fold J in Hc, He. rewrite Hc, He. 
  change (end_state (Build_comma_state false 1 false) (str ")")) with comma_init.
  rewrite Hc', He'. done.
Qed.

Lemma b64_plain s : forallb (λ c, plain_byte c && negb (c =b " ") && between "!" "~" c)
  (EncodeToString StdEncoding s) = true.
Proof.
  apply forallb_forall. intros c Hc%list_elem_of_In.
  pose proof (EncodeToString_bytes StdEncoding StdEncoding_ok s) as Hf. rewrite Forall_forall in Hf.
  apply Hf in Hc. by destruct c; try (vm_compute in Hc; discriminate).
Qed.

Lemma sig_member_clean label sig : forallb key_byte label = true →
  transparent comma_init (sig_member label sig).
Proof.
  intros Hl. unfold sig_member. apply transparent_app; [apply transparent_plain; by apply key_plain|].
  change (transparent comma_init (str "=:" ++ EncodeToString StdEncoding sig ++ str ":")).
  destruct (transparent_plain (Build_comma_state false 0 true) (EncodeToString StdEncoding sig)) as [Hc He].
  { eapply forallb_imp; [|apply b64_plain]. intros c Hc. cbv beta in Hc. by bools. }
  unfold transparent. rewrite !clean_app, !end_state_app.
  change (end_state comma_init (str "=:")) with (Build_comma_state false 0 true). rewrite Hc, He. done.
Qed.

Lemma dict_entry_field label w : label ≠ [] → forallb key_byte label = true → w ≠ [] → tight w →
  dict_entry (label ++ "="%byte :: w) = Some (label, w) ∧
  dict_entry (" "%byte :: label ++ "="%byte :: w) = Some (label, w).
Proof.
  intros Hl Hb Hw Ht. destruct (field_tight label w) as [Hne Htt]; [done..|].
  assert (dict_entry (label ++ "="%byte :: w) = Some (label, w)) as He.
  { unfold dict_entry. rewrite TrimSpace_tight by done. rewrite (proj2 (bytes_eqb_false _ _) Hne).
    rewrite IndexByte_app by by apply (forallb_notin key_byte).
    rewrite take_app_exact, drop_app_cons. by rewrite !TrimSpace_tight by (done || by apply key_tight). }
  split; [done|]. rewrite <- He. unfold dict_entry. by rewrite TrimSpace_blank, TrimSpace_tight.
Qed.

(** Adding a member to a header list: the entries grow by one. *)
Definition balanced (s : bytes) : Prop := end_state comma_init s = comma_init.

Definition list_add (existing member : bytes) : bytes :=
  if bytes_eqb existing [] then member else existing ++ str ", " ++ member.

Lemma members_add existing label w :
  balanced existing → label ≠ [] → forallb key_byte label = true → w ≠ [] → tight w →
  clean comma_init (label ++ "="%byte :: w) = true →
  parseDictionaryMembers (list_add existing (label ++ "="%byte :: w)) =
  parseDictionaryMembers existing ++ [(label, w)].
Proof.
  intros Hb Hl Hk Hw Ht Hc. destruct (dict_entry_field label w) as [He Hs]; [done..|].
  unfold parseDictionaryMembers, splitHeaderComma, list_add. destruct (bytes_eqb existing []) eqn:E; bools.
  - subst. rewrite split_comma_clean by (done || by destruct label). cbn [app omap list_omap].
    change ([] ++ label ++ "="%byte :: w) with (label ++ "="%byte :: w). by rewrite He.
  - change (str ", " ++ label ++ "="%byte :: w) with (","%byte :: " "%byte :: label ++ "="%byte :: w).
    rewrite split_comma_balanced by done. rewrite omap_app. f_equal.
    assert (clean comma_init (" "%byte :: label ++ "="%byte :: w) = true) by done.
    rewrite split_comma_clean by done. cbn [omap list_omap].
    change ([] ++ " "%byte :: label ++ "="%byte :: w) with (" "%byte :: label ++ "="%byte :: w). by rewrite Hs.
Qed.

Lemma find_label_add entries label w :
  label ∉ map fst entries → find_label (entries ++ [(label, w)]) label = w.
Proof.
  unfold find_label. induction entries as [|[l v] es IH]; intros Hn.
  - cbn [app List.find fst]. by rewrite (proj2 (bytes_eqb_true label label) eq_refl).
  - cbn [app List.find fst map] in *. rewrite (proj2 (bytes_eqb_false l label)) by set_solver.
    apply IH. set_solver.
Qed.

Lemma appendHeader_get h key member : Header_Get (appendHeader h key member) key = list_add (Header_Get h key) member.
Proof. unfold appendHeader, list_add. destruct (bytes_eqb _ _); apply Header_Get_Set. Qed.

Lemma appendHeader_lookup h key member k :
  k ≠ CanonicalHeaderKey key → appendHeader h key member !! k = h !! k.
Proof. intros Hk. unfold appendHeader, Header_Set. case_match; by rewrite lookup_insert_ne by congruence. Qed.

Lemma sign_headers_get h m :
  Header_Get (sign_headers h m) HeaderSignatureInput = list_add (Header_Get h HeaderSignatureInput) m.1 ∧
  Header_Get (sign_headers h m) HeaderSignature = list_add (Header_Get h HeaderSignature) m.2.
Proof.
  unfold sign_headers. split.
  - rewrite <- appendHeader_get. unfold Header_Get. by rewrite appendHeader_lookup.
  - rewrite appendHeader_get. f_equal. unfold Header_Get. by rewrite appendHeader_lookup.
Qed.

Lemma decode_sig sig :
  decodeByteSequence (":"%byte :: EncodeToString StdEncoding sig ++ str ":") = Some sig.
Proof.
  unfold decodeByteSequence. rewrite TrimSpace_tight by by apply tight_app_ends. set (t := EncodeToString _ _).
  assert (HasPrefix (":"%byte :: t ++ str ":") (str ":") = true) as -> by reflexivity.
  assert (HasSuffix (":"%byte :: t ++ str ":") (str ":") = true) as ->.
  { unfold HasSuffix. rewrite app_comm_cons, rev_app_distr. reflexivity. }
  replace (2 <=? length (":"%byte :: t ++ str ":"))%nat with true
    by (symmetry; apply Nat.leb_le; simpl; rewrite length_app; simpl; lia).
  cbn [andb]. change (drop 1 (":"%byte :: t ++ str ":")) with (t ++ str ":"). simpl length.
  rewrite length_app. simpl. replace (length t + 1 - 1)%nat with (length t) by lia.
  rewrite take_app_exact. apply DecodeString_EncodeToString, StdEncoding_ok.
Qed.

(** The headers of a message leave room for a signature under [label], and a
    verifier looks for it. *)
Definition label_free (h : Header) (label : bytes) (vcfg : VerifyConfig) : Prop :=
  balanced (Header_Get h HeaderSignatureInput) ∧ balanced (Header_Get h HeaderSignature) ∧
  label ∉ map fst (parseDictionaryMembers (Header_Get h HeaderSignatureInput)) ∧
  label ∉ map fst (parseDictionaryMembers (Header_Get h HeaderSignature)) ∧
  (vc_Label vcfg = label ∨
   vc_Label vcfg = [] ∧ parseDictionaryMembers (Header_Get h HeaderSignatureInput) = []).

Lemma list_add_nonempty ex m : m ≠ [] → bytes_eqb (list_add ex m) [] = false.
Proof.
  intros Hm. apply bytes_eqb_false. unfold list_add. destruct (bytes_eqb ex []) eqn:E; [done|].
  bools. by destruct ex.
Qed.

Lemma read_signed h label ids p sig vcfg :
  label ≠ [] → forallb key_byte label = true → Forall (λ i, wf_ident i = true) ids → wf_params p →
  label_free h label vcfg →
  read_signature vcfg (list_add (Header_Get h HeaderSignatureInput) (input_member label ids p))
    (list_add (Header_Get h HeaderSignature) (sig_member label sig)) =
  Ok (Build_SignatureParams label (map render ids) (sp_Created p) (sp_Expires p) (sp_Nonce p) (sp_Alg p)
        (sp_KeyID p) (sp_Tag p), sig).
Proof.
  intros Hl Hk Hids Hp (Hb1 & Hb2 & Hf1 & Hf2 & Hv). unfold read_signature.
  destruct (input_member_clean label ids p) as [Hc1 _]; [done..|].
  destruct (sig_member_clean label sig) as [Hc2 _]; [done|].
  rewrite !list_add_nonempty by by destruct label. cbn [orb].
  unfold input_member, sig_member in *.
  pose proof (params_text_tight ids p Hids Hp) as Ht1.
  assert (tight (":"%byte :: EncodeToString StdEncoding sig ++ str ":")) as Ht2 by by apply tight_app_ends.
  rewrite (λ Hne, members_add _ _ _ Hb1 Hl Hk Hne Ht1 Hc1) by done.
  rewrite (λ Hne, members_add _ _ _ Hb2 Hl Hk Hne Ht2 Hc2) by done. clear Ht1 Ht2 Hc1 Hc2.
  set (w := "("%byte :: _) in *.
  assert ((if nonempty (vc_Label vcfg) then Ok (vc_Label vcfg)
    else match parseDictionaryMembers (Header_Get h HeaderSignatureInput) ++ [(label, w)] with
         | [] => Err ErrMissingSignature | e :: _ => Ok e.1 end) = @Ok sig_error bytes label) as ->.
  { destruct Hv as [->|[-> ->]]; [by rewrite (proj2 (nonempty_true label) Hl)|done]. }
  cbn [mbind result_bind]. rewrite !find_label_add by done.
  rewrite (proj2 (bytes_eqb_false w [])), (proj2 (bytes_eqb_false (":"%byte :: _) [])) by done.
  unfold w. rewrite parse_params_text by done. by rewrite decode_sig.
Qed.

Lemma policy_check a b : nonempty a && negb (bytes_eqb b a) = false → a = [] ∨ b = a.
Proof. intros [E|E]%andb_false_iff; [left; by apply nonempty_false|right; by bools]. Qed.

Lemma policy_check' a b : nonempty a && negb (bytes_eqb a b) = false → a = [] ∨ a = b.
Proof. intros [E|E]%andb_false_iff; [left; by apply nonempty_false|right; by bools]. Qed.

Lemma check_required_inv comps reqs r :
  check_required (covered_set comps) reqs = Ok () → r ∈ reqs →
  ∃ rc c cc, c ∈ comps ∧ ParseComponentIdentifier r = Ok rc ∧ ParseComponentIdentifier c = Ok cc ∧
    (pc_Serialized rc ∈ [pc_Serialized cc; pc_Name cc] ∨ pc_Name rc ∈ [pc_Serialized cc; pc_Name cc]).
Proof.
  assert (∀ x, x ∈ covered_set comps → ∃ c cc, c ∈ comps ∧ ParseComponentIdentifier c = Ok cc ∧
    x ∈ [pc_Serialized cc; pc_Name cc]) as Hcov.
  { intros x (l & Hl & Hx)%list_elem_of_In%in_concat. apply in_map_iff in Hl as (c & <- & Hc).
    destruct (ParseComponentIdentifier c) as [cc|] eqn:E; [|done]. exists c, cc.
    split; [by apply list_elem_of_In|]. split; [done|]. by apply list_elem_of_In. }
  induction reqs as [|r' reqs IH]; [by intros _ ?%not_elem_of_nil|]. cbn [check_required].
  destruct (ParseComponentIdentifier r') as [rc|] eqn:E; [|done]. cbn [mbind result_bind].
  destruct (_ || _) eqn:Eo; [|done]. intros Hr [->|Hin]%elem_of_cons; [|by apply IH].
  apply orb_true_iff in Eo as [Eo|Eo]; bools; apply Hcov in Eo as (c & cc & ? & ? & ?); exists rc, c, cc; auto.
Qed.

(** A verifier that accepts what a signer signs. *)
Definition key_pair (s : Signer) (v : Verifier) : Prop :=
  vr_Algorithm v = sg_Algorithm s ∧ (vr_KeyID v = [] ∨ vr_KeyID v = sg_KeyID s) ∧
  ∀ base sig, sg_Sign s base = Ok sig → vr_Verify v base sig = Ok ().

Lemma covered_set_elem comps i : Forall2 denotes (map render comps) comps → i ∈ comps →
  id_name i ∈ covered_set (map render comps).
Proof.
  intros Hd Hi. unfold covered_set. apply list_elem_of_In, in_concat.
  assert (denotes (render i) i) as [_ Hp].
  { clear -Hd Hi. induction comps as [|j l IH]; [by apply not_elem_of_nil in Hi|]. cbn [map] in Hd.
    apply Forall2_cons in Hd as [Hj Hl]. apply elem_of_cons in Hi as [->|Hi]; auto. }
  eexists. split; [|].
  - apply in_map_iff. exists (render i). split; [reflexivity|]. apply in_map. by apply list_elem_of_In.
  - rewrite Hp, component_of_name. simpl. auto.
Qed.

Lemma check_required_ok covered reqs :
  (∀ r, r ∈ reqs → ∃ j, denotes r j ∧ id_name j ∈ covered) → check_required covered reqs = Ok ().
Proof.
  induction reqs as [|r reqs IH]; intros Hr; [done|]. cbn [check_required].
  destruct (Hr r) as (j & [_ Hp] & Hin); [by left|]. rewrite Hp. cbn [mbind result_bind].
  rewrite component_of_name, (bool_decide_eq_true_2 (id_name j ∈ covered)), orb_true_r by done.
  apply IH. intros r' Hr'. apply Hr. by right.
Qed.

Lemma check_policy_ok now vcfg s v p :
  key_pair s v → sp_Alg p = sg_Algorithm s → sp_KeyID p = sg_KeyID s →
  (vc_RequiredTag vcfg = [] ∨ vc_RequiredTag vcfg = sp_Tag p) → check_times now vcfg p = Ok () →
  check_required (covered_set (sp_Components p)) (vc_RequiredComponents vcfg) = Ok () →
  check_policy now vcfg v p = Ok ().
Proof.
  intros (Ha & Hk & _) Ea Ek Ht Hti Hr. unfold check_policy.
  rewrite (proj2 (bytes_eqb_true (sp_Alg p) (vr_Algorithm v))) by congruence. rewrite andb_false_r.
  assert (nonempty (sp_KeyID p) && nonempty (vr_KeyID v) &&
    negb (bytes_eqb (sp_KeyID p) (vr_KeyID v)) = false) as ->.
  { destruct Hk as [->|Hk]; [by rewrite andb_false_r|].
    rewrite (proj2 (bytes_eqb_true (sp_KeyID p) (vr_KeyID v))) by congruence. by rewrite andb_false_r. }
  assert (nonempty (vc_RequiredTag vcfg) && negb (bytes_eqb (sp_Tag p) (vc_RequiredTag vcfg)) = false) as ->.
  { destruct Ht as [->| ->]; [done|]. rewrite (proj2 (bytes_eqb_true (sp_Tag p) _)) by done. by rewrite andb_false_r. }
  rewrite Hti. exact Hr.
Qed.

Lemma sign_label ctx cfg s now : sp_Label (sign_params ctx cfg s now) ≠ [].
Proof. simpl. destruct (nonempty (sc_Label cfg)) eqn:E; [by apply nonempty_true|done]. Qed.

Lemma Sign_inv ord now ctx cfg s m ids : sc_Signer cfg = Some s →
  Forall2 denotes (sp_Components (sign_params ctx cfg s now)) ids →
  Sign ord now (Some ctx) cfg = Ok m →
  ∃ base sig, signature_base ord ctx (sign_params ctx cfg s now) = Ok base ∧ sg_Sign s base = Ok sig ∧
    m = (input_member (sp_Label (sign_params ctx cfg s now)) ids (sign_params ctx cfg s now),
         sig_member (sp_Label (sign_params ctx cfg s now)) sig).
Proof.
  intros Hs Hd. unfold Sign. rewrite Hs. set (p := sign_params ctx cfg s now) in *. cbv zeta.
  unfold BuildSignatureBase. destruct (signature_base ord ctx p) as [base|] eqn:Eb; [|done].
  cbn [mbind result_bind]. destruct (sg_Sign s base) as [sig|] eqn:Es; [|done].
  cbn [mbind result_bind]. rewrite (SerializeSignatureParams_text _ _ Hd). cbn [mbind result_bind].
  intros [= <-]. by exists base, sig.
Qed.

(** The signature headers are not among the covered components. *)
Definition not_self_covered (ids : list ident) : Prop :=
  ∀ i, i ∈ ids → EqualFold HeaderSignatureInput (id_name i) = false ∧
                 EqualFold HeaderSignature (id_name i) = false.

Lemma sign_headers_lookup h m k : k ≠ HeaderSignatureInput → k ≠ HeaderSignature →
  sign_headers h m !! k = h !! k.
Proof. intros H1 H2. unfold sign_headers. by rewrite !appendHeader_lookup. Qed.


(** The first member of a dictionary with a label. *)
Definition first_member (entries : list (bytes * bytes)) (label value : bytes) : Prop :=
  ∃ before behind, entries = before ++ (label, value) :: behind ∧ label ∉ map fst before.

Lemma find_label_first entries label : find_label entries label ≠ [] → first_member entries label (find_label entries label).
Proof.
  unfold find_label. induction entries as [|[l v] es IH]; [done|]. cbn [List.find fst]. destruct (bytes_eqb l label) eqn:E; bools.
  - intros _. subst l. exists [], es. split; [done|apply not_elem_of_nil].
  - intros Hn. destruct (IH Hn) as (b & a & He & Hb). exists ((l, v) :: b), a. split; [by rewrite He at 1|]. apply not_elem_of_cons. by split; [intros ->|].
Qed.

(** The label: the configured one, or that of the first member of Signature-Input. *)
Definition chosen_label (cfg : VerifyConfig) (entries : list (bytes * bytes)) (label : bytes) : Prop :=
  (vc_Label cfg ≠ [] ∧ label = vc_Label cfg) ∨ (vc_Label cfg = [] ∧ ∃ value rest, entries = (label, value) :: rest).

(** What the headers give is what stands in them under one label. *)
Lemma read_signature_inv cfg input sigh params sig : read_signature cfg input sigh = Ok (params, sig) →
  let inputs := parseDictionaryMembers input in let sigs := parseDictionaryMembers sigh in
  ∃ rawParams rawSig parsed, chosen_label cfg inputs (sp_Label params) ∧
    first_member inputs (sp_Label params) rawParams ∧ first_member sigs (sp_Label params) rawSig ∧
    ParseSignatureParams rawParams = Ok parsed ∧ params = with_label (sp_Label params) parsed ∧ decodeByteSequence rawSig = Some sig.
Proof.
  unfold read_signature. destruct (_ || _); [done|]. cbn zeta.
  destruct (if nonempty (vc_Label cfg) then _ else _) as [label|] eqn:El; [|done]. cbn [mbind result_bind].
  destruct (bytes_eqb (find_label _ label) []) eqn:E1; [done|]. destruct (bytes_eqb (find_label (parseDictionaryMembers sigh) label) []) eqn:E2; [done|].
  destruct (ParseSignatureParams _) as [p|] eqn:Ep; [|done]. destruct (decodeByteSequence _) as [sb|] eqn:Es; [|done].
  intros [= <- <-]. bools. cbn [with_label sp_Label].
  exists (find_label (parseDictionaryMembers input) label), (find_label (parseDictionaryMembers sigh) label), p. split_and!; try done.
  - destruct (nonempty (vc_Label cfg)) eqn:En.
    + left. injection El as <-. split; [|done]. intros Hn. by rewrite Hn in En.
    + right. split; [by apply nonempty_false|]. destruct (parseDictionaryMembers input) as [|[l v] es]; [done|]. injection El as <-. eauto.
  - by apply find_label_first.
  - by apply find_label_first.
Qed.

(** C25: [Verify] accepts only what it should. The returned parameters are those the
    first member of Signature-Input under one label gives, the label being the
    configured one or, without one, that of the first member; the verifier
    accepted the bytes of the first member of Signature under the same label as a
    signature of the base rebuilt from the message and these parameters; the
    algorithm, key identifier and tag agree with the configuration, as far as both
    sides name them; the time checks passed; and every required component has the
    identifier or the name of a covered one. *)
Theorem verify_sound ord now ctx cfg params :
  Verify ord now (Some ctx) cfg = Ok params →
  let inputs := parseDictionaryMembers (Header_Get (rc_Header ctx) HeaderSignatureInput) in
  let sigs := parseDictionaryMembers (Header_Get (rc_Header ctx) HeaderSignature) in
  ∃ v base sig rawParams rawSig parsed,
    chosen_label cfg inputs (sp_Label params) ∧
    first_member inputs (sp_Label params) rawParams ∧ ParseSignatureParams rawParams = Ok parsed ∧
    params = with_label (sp_Label params) parsed ∧
    first_member sigs (sp_Label params) rawSig ∧ decodeByteSequence rawSig = Some sig ∧
    vc_Verifier cfg = Some v ∧ signature_base ord ctx params = Ok base ∧ vr_Verify v base sig = Ok () ∧
    (sp_Alg params = [] ∨ sp_Alg params = vr_Algorithm v) ∧
    (sp_KeyID params = [] ∨ vr_KeyID v = [] ∨ sp_KeyID params = vr_KeyID v) ∧
    (vc_RequiredTag cfg = [] ∨ sp_Tag params = vc_RequiredTag cfg) ∧
    check_times now cfg params = Ok () ∧
    (∀ r, r ∈ vc_RequiredComponents cfg → ∃ rc c cc, c ∈ sp_Components params ∧
       ParseComponentIdentifier r = Ok rc ∧ ParseComponentIdentifier c = Ok cc ∧
       (pc_Serialized rc ∈ [pc_Serialized cc; pc_Name cc] ∨ pc_Name rc ∈ [pc_Serialized cc; pc_Name cc])).
Proof.
  unfold Verify. destruct (vc_Verifier cfg) as [v|]; [|done].
  destruct (read_signature _ _ _) as [[p sig]|] eqn:Er; [|done]. cbn [mbind result_bind].
  destruct (check_policy now cfg v p) as [[]|] eqn:Ep; [|done]. cbn [mbind result_bind BuildSignatureBase].
  destruct (signature_base ord ctx p) as [base|] eqn:Eb; [|done]. cbn [mbind result_bind].
  destruct (vr_Verify v base sig) as [[]|] eqn:Ev; [|done]. intros [= <-].
  apply read_signature_inv in Er as (rp & rs & parsed & Hl & Hi & Hs & Hp & Hw & Hd).
  exists v, base, sig, rp, rs, parsed. split_and!; try done; revert Ep; unfold check_policy.
  1-3: destruct (_ && negb (bytes_eqb (sp_Alg p) _)) eqn:E1; [done|];
       destruct (_ && negb (bytes_eqb (sp_KeyID p) _)) eqn:E2; [done|];
       destruct (_ && negb (bytes_eqb (sp_Tag p) _)) eqn:E3; [done|]; intros _.
  - by apply policy_check' in E1.
  - apply andb_false_iff in E2 as [E2|E2]; [apply andb_false_iff in E2 as [E2|E2]|];
      rewrite ?nonempty_false in E2; auto. bools. auto.
  - by apply policy_check in E3.
  - repeat (destruct (_ && negb _); [done|]). by destruct (check_times now cfg p) as [[]|].
  - repeat (destruct (_ && negb _); [done|]). destruct (check_times now cfg p) as [[]|]; [|done].
    cbn [mbind result_bind]. intros Hr r Hin. by eapply check_required_inv.
Qed.
End roundtrip.

(** ** The validity window *)

Definition clock_skew (cfg : VerifyConfig) : Z :=
  if vc_AllowedClockSkew cfg <=? 0 then Minute else vc_AllowedClockSkew cfg.

(** A timestamp in seconds, on the clock of the program. *)
Definition stamp (sec : Z) : Z := (sec + unixToInternal) * Second.

Lemma time_Unix_stamp sec : 0 <= sec < 2 ^ 62 → time_Unix sec = stamp sec.
Proof. intros Hs. unfold time_Unix, stamp, unixToInternal. rewrite wrap64_small by lia. done. Qed.

(** Within the range of the clock, the time checks accept exactly the window:
    not after the expiry plus the skew, not created after now plus the skew, and,
    with a maximal age, not older than that age plus the skew. *)
Theorem check_times_spec now cfg p :
  stamp 0 <= now < stamp (2 ^ 33) → 0 <= sp_Created p < 2 ^ 33 → 0 <= sp_Expires p < 2 ^ 62 →
  clock_skew cfg < 2 ^ 61 → vc_MaxAge cfg < 2 ^ 61 →
  check_times now cfg p = Ok () ↔
  (0 < sp_Expires p → now <= stamp (sp_Expires p) + clock_skew cfg) ∧
  (0 < sp_Created p → stamp (sp_Created p) <= now + clock_skew cfg ∧
     (0 < vc_MaxAge cfg → now - stamp (sp_Created p) <= vc_MaxAge cfg + clock_skew cfg)).
Proof.
  intros Hn Hc He Hs Hm. unfold check_times. fold (clock_skew cfg).
  assert (0 < clock_skew cfg) as Hs0.
  { unfold clock_skew. destruct (_ <=? 0) eqn:E; bools; [done|lia]. }
  rewrite !time_Unix_stamp by lia. unfold stamp, unixToInternal, Second in *.
  rewrite !time_Add_small by (unfold Second; lia). unfold time_Sub, After.
  destruct (0 <? sp_Expires p) eqn:E1, (0 <? sp_Created p) eqn:E2, (0 <? vc_MaxAge cfg) eqn:E3; bools;
    cbn [andb]; rewrite ?wrap64_small by lia; repeat match goal with |- context [if ?x then _ else _] => destruct x eqn:?; bools end;
    (split; [intros ?; first [discriminate|split; intros; try split; intros; lia]
            |intros [? ?]; first [reflexivity|exfalso; lia]]).
Qed.

(** A required component is compared by its name alone: covering
    [@query-param] for one parameter satisfies the requirement of another one,
    and covering a header of the related request satisfies the requirement of the
    response's own header. *)
Theorem required_parameters_ignored `{UnicodeCase} raw i req j :
  denotes raw i → denotes req j → id_name i = id_name j →
  check_required (covered_set [raw]) [req] = Ok ().
Proof.
  intros [_ Hi] Hj Hn. apply check_required_ok. intros r [->|Hr]%elem_of_cons; [|by apply not_elem_of_nil in Hr].
  exists j. split; [done|]. unfold covered_set. cbn [map concat]. rewrite Hi, component_of_name, Hn. set_solver.
Qed.

(** The maximal age does not apply to a signature that states no creation
    time: without timestamps every moment is accepted. *)
Theorem max_age_needs_created now cfg p :
  sp_Created p <= 0 → sp_Expires p <= 0 → check_times now cfg p = Ok ().
Proof.
  intros Hc He. unfold check_times. destruct (0 <? sp_Expires p) eqn:E; bools; [lia|].
  destruct (0 <? sp_Created p) eqn:E'; bools; [lia|]. done.
Qed.

(** ** A signer, a verifier and a request *)

Module Sample.
#[local] Existing Instance ascii_case.

Definition mac (base : bytes) : bytes := be32 (Z.of_nat (length base)).
Definition signer : Signer :=
  {| sg_Algorithm := AlgHMACSHA256; sg_KeyID := str "k1"; sg_Sign := λ base, Ok (mac base) |}.
Definition verifier : Verifier :=
  {| vr_Algorithm := AlgHMACSHA256; vr_KeyID := str "k1";
     vr_Verify := λ base sig, if bytes_eqb sig (mac base) then Ok () else Err ErrInvalidSignature |}.

Definition url : URL :=
  default {| u_Scheme := []; u_Opaque := []; u_User := None; u_Host := []; u_Path := []; u_RawPath := [];
             u_OmitHost := false; u_ForceQuery := false; u_RawQuery := []; u_Fragment := []; u_RawFragment := [] |}
    (url_Parse (str "https://Example.com:443/items?page=2&user=eve")).

Definition request : Request :=
  {| req_Method := str "GET"; req_URL := Some url;
     req_Header := {[ str "Date" := [str " today "; str "later"] ]} |}.

Definition ids : list ident :=
  [{| id_name := str "@method"; id_params := [] |};
   {| id_name := str "@authority"; id_params := [] |};
   {| id_name := str "@query-param"; id_params := [Valued (str "name") (str "page")] |};
   {| id_name := str "date"; id_params := [] |}].

Definition config : SignConfig :=
  {| sc_Label := []; sc_Signer := Some signer;
     sc_Components := [str "@method"; str "@Authority"; str "@query-param;name=page"; str "Date"];
     sc_Created := Some (stamp 1700000000); sc_Expires := Some (stamp 1700000600);
     sc_Nonce := str "n1"; sc_Tag := str "app" |}.

Definition policy (required : list bytes) : VerifyConfig :=
  {| vc_Label := []; vc_Verifier := Some verifier; vc_RequiredComponents := required;
     vc_MaxAge := 5 * Minute; vc_AllowedClockSkew := 0; vc_RequiredTag := str "app" |}.

Definition order : range_order := map_to_list.

Lemma order_ok : range_ok order.
Proof. by intros h. Qed.

Lemma request_unique : ctx_unique (request_ctx request).
Proof.
  split_and!; [|by intros ? ? ? [? ?]|done]. intros n k1 k2 [v1 H1] [v2 H2] _ _.
  cbn [rc_Header request_ctx request req_Header] in H1, H2.
  apply lookup_singleton_Some in H1 as [<- _]. by apply lookup_singleton_Some in H2 as [<- _].
Qed.

Lemma sample_keys : key_pair signer verifier.
Proof.
  split_and!; [done|by right|]. intros base sig [= <-]. cbn [vr_Verify verifier].
  by rewrite (proj2 (bytes_eqb_true (mac base) (mac base)) eq_refl).
Qed.

Lemma sample_denotes :
  Forall2 denotes (sp_Components (sign_params (request_ctx request) config signer 0)) ids.
Proof. repeat constructor; vm_compute; reflexivity. Qed.

Definition required : list bytes := [str "@method"; quoted (str "@query-param") ++ str ";name=user"].


Definition signed : Request :=
  match SignRequest order 0 (Some request) config with Ok r => r | Err _ => request end.

Definition accepted : SignatureParams :=
  match VerifyRequest order (stamp 1700000100) (Some signed) (policy []) with
  | Ok p => p
  | Err _ => BaseSample.params
  end.

Lemma verify_sound_witness :
  ∃ base, signature_base order (request_ctx signed) accepted = Ok base ∧ base ≠ [].
Proof.
  destruct (verify_sound order (stamp 1700000100) (request_ctx signed) (policy []) accepted)
    as (v & base & sig & _ & _ & _ & _ & _ & _ & _ & _ & _ & _ & Hb & _); [vm_compute; reflexivity|].
  exists base. split; [exact Hb|]. intros ->. vm_compute in Hb. discriminate.
Defined.

Lemma check_times_spec_witness :
  check_times (stamp 1700000360) (policy []) accepted = Ok () ∧
  check_times (stamp 1700000361) (policy []) accepted ≠ Ok ().
Proof.
  split.
  - apply (check_times_spec (stamp 1700000360)); try (vm_compute; split; congruence); [done..|].
    split; [intros _; vm_compute; congruence|]. intros _. split; [vm_compute; congruence|].
    intros _. vm_compute. congruence.
  - intros Hc. apply (check_times_spec (stamp 1700000361)) in Hc as [_ Hc]; try (vm_compute; split; congruence); [|done..].
    destruct Hc as [_ Hc]; [done|]. specialize (Hc eq_refl). vm_compute in Hc. congruence.
Defined.

Lemma required_parameters_ignored_witness :
  check_required (covered_set [render BaseSample.page]) [str "@query-param;name=user"] = Ok ().
Proof.
  apply (required_parameters_ignored (render BaseSample.page) BaseSample.page (str "@query-param;name=user")
           {| id_name := str "@query-param"; id_params := [Valued (str "name") (str "user")] |});
    [split; vm_compute; reflexivity..|reflexivity].
Defined.

Definition untimed : SignatureParams :=
  {| sp_Label := str "sig1"; sp_Components := []; sp_Created := 0; sp_Expires := 0; sp_Nonce := [];
     sp_Alg := []; sp_KeyID := []; sp_Tag := [] |}.

Lemma max_age_needs_created_witness : check_times (stamp (10 ^ 9)) (policy []) untimed = Ok ().
Proof. apply (max_age_needs_created (stamp (10 ^ 9)) (policy []) untimed); vm_compute; congruence. Defined.

(** An expiry at the largest 64-bit second wraps to the past. *)
Definition far : SignatureParams :=
  {| sp_Label := str "sig1"; sp_Components := []; sp_Created := 0; sp_Expires := 2 ^ 63 - 1; sp_Nonce := [];
     sp_Alg := []; sp_KeyID := []; sp_Tag := [] |}.

Lemma far_expiry_is_past : check_times (stamp 1700000000) (policy []) far = Err ErrSignatureExpired.
Proof. vm_compute. reflexivity. Qed.

(** A key identifier with a semicolon is signed but cannot be verified: the
    parameter list is split inside the quoted string. *)
Definition odd_key : bytes := str "team;1".
Definition odd_config : SignConfig :=
  {| sc_Label := []; sc_Signer := Some {| sg_Algorithm := AlgHMACSHA256; sg_KeyID := odd_key;
       sg_Sign := λ base, Ok (mac base) |};
     sc_Components := []; sc_Created := Some (stamp 1700000000); sc_Expires := None; sc_Nonce := []; sc_Tag := [] |}.
Definition odd_policy : VerifyConfig :=
  {| vc_Label := []; vc_Verifier := Some {| vr_Algorithm := AlgHMACSHA256; vr_KeyID := odd_key;
       vr_Verify := λ base sig, if bytes_eqb sig (mac base) then Ok () else Err ErrInvalidSignature |};
     vc_RequiredComponents := []; vc_MaxAge := 0; vc_AllowedClockSkew := 0; vc_RequiredTag := [] |}.

Lemma semicolon_keyid_unverifiable :
  match SignRequest order 0 (Some request) odd_config with
  | Ok r => VerifyRequest order (stamp 1700000001) (Some r) odd_policy
  | Err e => Err e
  end = Err ErrKeyMismatch.
Proof. vm_compute. reflexivity. Qed.
End Sample.
