(* ===== verification/HttpSigAlg.v ===== *)
(** * HTTP message signatures: algorithms and digests
      (src/auth/httpsig/algorithms.go, digest.go)

    The signers and verifiers of the package over an interface of cryptographic
    primitives, and the Content-Digest header. *)

From S2P Require Import Prelude GoLib GoText GoURL HttpSigBase HttpSigVerify.

#[local] Open Scope Z_scope.

(** ** Primitives

    The hash functions, MAC and signature schemes of the crypto packages.  A
    signing operation that draws random numbers takes them as its first
    argument. *)
Inductive curve := P256 | P384 | other_curve.

Class Crypto := {
  sha256 : bytes → bytes;
  sha384 : bytes → bytes;
  sha512 : bytes → bytes;
  hmac_sha256 : bytes → bytes → bytes;
  ed25519_Public : bytes → bytes;
  ed25519_Sign : bytes → bytes → bytes;
  ed25519_Verify : bytes → bytes → bytes → bool;
  ECPrivate : Type;
  ECPublic : Type;
  ec_curve : ECPublic → curve;
  ec_public : ECPrivate → ECPublic;
  ecdsa_Sign : bytes → ECPrivate → bytes → option (Z * Z);
  ecdsa_Verify : ECPublic → bytes → Z → Z → bool;
  RSAPrivate : Type;
  RSAPublic : Type;
  rsa_public : RSAPrivate → RSAPublic;
  rsa_SignPSS : bytes → RSAPrivate → bytes → option bytes;
  rsa_VerifyPSS : RSAPublic → bytes → bytes → bool;
  rsa_SignPKCS1v15 : bytes → RSAPrivate → bytes → option bytes;
  rsa_VerifyPKCS1v15 : RSAPublic → bytes → bytes → bool
}.

Definition octet_len (c : curve) : nat := match c with P256 => 32 | P384 => 48 | other_curve => 66 end.

(** What the packages document: a signature verifies under the public key, an
    Ed25519 signature has 64 bytes, the numbers of an ECDSA signature are below
    the order of the curve. *)
Class CryptoLaws `{Crypto} : Prop := {
  ed25519_public_size : ∀ k, length (ed25519_Public k) = 32%nat;
  ed25519_size : ∀ k m, length (ed25519_Sign k m) = 64%nat;
  ed25519_ok : ∀ k m, ed25519_Verify (ed25519_Public k) m (ed25519_Sign k m) = true;
  ecdsa_range : ∀ rnd k d r s, ecdsa_Sign rnd k d = Some (r, s) →
    0 <= r < 256 ^ Z.of_nat (octet_len (ec_curve (ec_public k))) ∧
    0 <= s < 256 ^ Z.of_nat (octet_len (ec_curve (ec_public k)));
  ecdsa_ok : ∀ rnd k d r s, ecdsa_Sign rnd k d = Some (r, s) → ecdsa_Verify (ec_public k) d r s = true;
  rsa_pss_ok : ∀ rnd k d sig, rsa_SignPSS rnd k d = Some sig → rsa_VerifyPSS (rsa_public k) d sig = true;
  rsa_pkcs_ok : ∀ rnd k d sig, rsa_SignPKCS1v15 rnd k d = Some sig →
    rsa_VerifyPKCS1v15 (rsa_public k) d sig = true
}.

#[export] Instance curve_eq_dec : EqDecision curve.
Proof. solve_decision. Defined.

Section algorithms.
Context `{Crypto}.

(** ** HMAC *)

Definition hmacSigner (keyID secret : bytes) : Signer :=
  {| sg_Algorithm := AlgHMACSHA256; sg_KeyID := keyID; sg_Sign := λ base, Ok (hmac_sha256 secret base) |}.
Definition hmacVerifier (keyID secret : bytes) : Verifier :=
  {| vr_Algorithm := AlgHMACSHA256; vr_KeyID := keyID;
     vr_Verify := λ base sig, if bytes_eqb (hmac_sha256 secret base) sig then Ok () else Err ErrInvalidSignature |}.

Definition NewHMACSigner (keyID secret : bytes) : result sig_error Signer :=
  if bytes_eqb secret [] then Err (ErrText (str "httpsig: HMAC secret key cannot be empty"))
  else Ok (hmacSigner keyID secret).
Definition NewHMACVerifier (keyID secret : bytes) : result sig_error Verifier :=
  if bytes_eqb secret [] then Err (ErrText (str "httpsig: HMAC secret key cannot be empty"))
  else Ok (hmacVerifier keyID secret).

(** ** Ed25519 *)

Definition NewEd25519Signer (keyID priv : bytes) : result sig_error Signer :=
  if negb (length priv =? 64)%nat then Err ErrKeyMismatch
  else Ok {| sg_Algorithm := AlgEd25519; sg_KeyID := keyID; sg_Sign := λ base, Ok (ed25519_Sign priv base) |}.
Definition NewEd25519Verifier (keyID pub : bytes) : result sig_error Verifier :=
  if negb (length pub =? 32)%nat then Err ErrKeyMismatch
  else Ok {| vr_Algorithm := AlgEd25519; vr_KeyID := keyID;
             vr_Verify := λ base sig,
               if negb (length sig =? 64)%nat then Err ErrInvalidSignature
               else if ed25519_Verify pub base sig then Ok () else Err ErrInvalidSignature |}.

(** ** ECDSA: raw concatenation of r and s *)

(** The digest and the octet length of an algorithm. *)
Definition ec_digest (alg base : bytes) : bytes * nat :=
  if bytes_eqb alg AlgECDSAP256SHA256 then (sha256 base, 32%nat)
  else if bytes_eqb alg AlgECDSAP384SHA384 then (sha384 base, 48%nat)
  else ([], 0%nat).

(** A value that does not fit its half of the buffer is a panic of the program. *)
Definition ecdsaSign (rnd : bytes) (alg : bytes) (priv : ECPrivate) (base : bytes) : result sig_error bytes :=
  let '(digest, octetLen) := ec_digest alg base in
  match ecdsa_Sign rnd priv digest with
  | None => Err (ErrText (str "httpsig: ecdsa sign failed"))
  | Some (r, s) =>
      match FillBytes octetLen r, FillBytes octetLen s with
      | Done a, Done b => Ok (a ++ b)
      | _, _ => Err (ErrText (str "panic: math/big: buffer too small to fit value"))
      end
  end.

Definition ecdsaVerify (alg : bytes) (pub : ECPublic) (base sig : bytes) : result sig_error unit :=
  let '(digest, octetLen) := ec_digest alg base in
  if (bytes_eqb alg AlgECDSAP256SHA256 || bytes_eqb alg AlgECDSAP384SHA384) &&
     negb (length sig =? octetLen * 2)%nat then Err ErrInvalidSignature
  else if ecdsa_Verify pub digest (of_bytes (take octetLen sig)) (of_bytes (drop octetLen sig))
  then Ok () else Err ErrInvalidSignature.

Definition check_curve (alg : bytes) (c : curve) : result sig_error unit :=
  if bytes_eqb alg AlgECDSAP256SHA256 then
    if bool_decide (c = P256) then Ok () else Err ErrKeyMismatch
  else if bytes_eqb alg AlgECDSAP384SHA384 then
    if bool_decide (c = P384) then Ok () else Err ErrKeyMismatch
  else Err ErrUnsupportedAlgorithm.

Definition NewECDSASigner (rnd keyID alg : bytes) (priv : option ECPrivate) : result sig_error Signer :=
  match priv with
  | None => Err ErrKeyMismatch
  | Some k =>
      _ ← check_curve alg (ec_curve (ec_public k));
      Ok {| sg_Algorithm := alg; sg_KeyID := keyID; sg_Sign := ecdsaSign rnd alg k |}
  end.
Definition NewECDSAVerifier (keyID alg : bytes) (pub : option ECPublic) : result sig_error Verifier :=
  match pub with
  | None => Err ErrKeyMismatch
  | Some k =>
      _ ← check_curve alg (ec_curve k);
      Ok {| vr_Algorithm := alg; vr_KeyID := keyID; vr_Verify := ecdsaVerify alg k |}
  end.

(** ** RSA *)

Definition rsaSign (rnd alg : bytes) (priv : RSAPrivate) (base : bytes) : result sig_error bytes :=
  if bytes_eqb alg AlgRSAPSSSHA512 then
    match rsa_SignPSS rnd priv (sha512 base) with
    | None => Err (ErrText (str "httpsig: rsa-pss sign failed"))
    | Some sig => Ok sig
    end
  else if bytes_eqb alg AlgRSAPKCS1v15SHA256 then
    match rsa_SignPKCS1v15 rnd priv (sha256 base) with
    | None => Err (ErrText (str "httpsig: rsa-v1_5 sign failed"))
    | Some sig => Ok sig
    end
  else Err ErrUnsupportedAlgorithm.

Definition rsaVerify (alg : bytes) (pub : RSAPublic) (base sig : bytes) : result sig_error unit :=
  if bytes_eqb alg AlgRSAPSSSHA512 then
    if rsa_VerifyPSS pub (sha512 base) sig then Ok () else Err ErrInvalidSignature
  else if bytes_eqb alg AlgRSAPKCS1v15SHA256 then
    if rsa_VerifyPKCS1v15 pub (sha256 base) sig then Ok () else Err ErrInvalidSignature
  else Err ErrUnsupportedAlgorithm.

Definition rsa_alg (alg : bytes) : bool := bytes_eqb alg AlgRSAPSSSHA512 || bytes_eqb alg AlgRSAPKCS1v15SHA256.

Definition NewRSASigner (rnd keyID alg : bytes) (priv : option RSAPrivate) : result sig_error Signer :=
  match priv with
  | None => Err ErrKeyMismatch
  | Some k => if negb (rsa_alg alg) then Err ErrUnsupportedAlgorithm
              else Ok {| sg_Algorithm := alg; sg_KeyID := keyID; sg_Sign := rsaSign rnd alg k |}
  end.
Definition NewRSAVerifier (keyID alg : bytes) (pub : option RSAPublic) : result sig_error Verifier :=
  match pub with
  | None => Err ErrKeyMismatch
  | Some k => if negb (rsa_alg alg) then Err ErrUnsupportedAlgorithm
              else Ok {| vr_Algorithm := alg; vr_KeyID := keyID; vr_Verify := rsaVerify alg k |}
  end.

(** ** Choice by the type of the key *)

(** The dynamic types of the [key any] argument; a typed nil pointer is [None]. *)
Inductive private_key :=
| PrivNil | PrivEd25519 (k : bytes) | PrivECDSA (k : option ECPrivate) | PrivRSA (k : option RSAPrivate)
| PrivBytes (b : bytes) | PrivString (s : bytes) | PrivOther.
Inductive public_key :=
| PubNil | PubEd25519 (k : bytes) | PubECDSA (k : option ECPublic) | PubRSA (k : option RSAPublic)
| PubBytes (b : bytes) | PubString (s : bytes) | PubOther.

(** The first of the optional algorithms, if any. *)
Definition chosen (alg : list bytes) : bytes := match alg with a :: _ => a | [] => [] end.

Definition curve_alg (c : curve) : result sig_error bytes :=
  match c with
  | P256 => Ok AlgECDSAP256SHA256
  | P384 => Ok AlgECDSAP384SHA384
  | other_curve => Err ErrUnsupportedAlgorithm
  end.

(** Reading the curve of a nil pointer panics. *)
Definition NewSignerFromKey (rnd keyID : bytes) (key : private_key) (alg : list bytes) :
    outcome (result sig_error Signer) :=
  match key with
  | PrivNil => Done (Err ErrKeyMismatch)
  | PrivEd25519 k => Done (NewEd25519Signer keyID k)
  | PrivECDSA k =>
      if nonempty (chosen alg) then Done (NewECDSASigner rnd keyID (chosen alg) k)
      else match k with
           | None => Panic
           | Some p => Done (a ← curve_alg (ec_curve (ec_public p)); NewECDSASigner rnd keyID a k)
           end
  | PrivRSA k => Done (NewRSASigner rnd keyID (if nonempty (chosen alg) then chosen alg else AlgRSAPSSSHA512) k)
  | PrivBytes b => Done (NewHMACSigner keyID b)
  | PrivString s => Done (NewHMACSigner keyID s)
  | PrivOther => Done (Err ErrKeyMismatch)
  end.

Definition NewVerifierFromKey (keyID : bytes) (key : public_key) (alg : list bytes) :
    outcome (result sig_error Verifier) :=
  match key with
  | PubNil => Done (Err ErrKeyMismatch)
  | PubEd25519 k => Done (NewEd25519Verifier keyID k)
  | PubECDSA k =>
      if nonempty (chosen alg) then Done (NewECDSAVerifier keyID (chosen alg) k)
      else match k with
           | None => Panic
           | Some p => Done (a ← curve_alg (ec_curve p); NewECDSAVerifier keyID a k)
           end
  | PubRSA k => Done (NewRSAVerifier keyID (if nonempty (chosen alg) then chosen alg else AlgRSAPSSSHA512) k)
  | PubBytes b => Done (NewHMACVerifier keyID b)
  | PubString s => Done (NewHMACVerifier keyID s)
  | PubOther => Done (Err ErrKeyMismatch)
  end.

(** The key a peer verifies with. *)
Definition public_of (k : private_key) : public_key :=
  match k with
  | PrivNil => PubNil
  | PrivEd25519 k => PubEd25519 (ed25519_Public k)
  | PrivECDSA k => PubECDSA (ec_public <$> k)
  | PrivRSA k => PubRSA (rsa_public <$> k)
  | PrivBytes b => PubBytes b
  | PrivString s => PubString s
  | PrivOther => PubOther
  end.
End algorithms.

(** ** Content-Digest (digest.go) *)

Definition DigestSHA256 : bytes := str "sha-256".
Definition DigestSHA512 : bytes := str "sha-512".

Section digest.
Context `{Crypto} `{UnicodeCase}.

Definition digest_member (alg hash : bytes) : bytes := alg ++ str "=:" ++ EncodeToString StdEncoding hash ++ str ":".

Definition digest_part (body alg : bytes) : option bytes :=
  let a := ToLower alg in
  if bytes_eqb a DigestSHA256 || bytes_eqb a (str "sha256") then Some (digest_member DigestSHA256 (sha256 body))
  else if bytes_eqb a DigestSHA512 || bytes_eqb a (str "sha512") then Some (digest_member DigestSHA512 (sha512 body))
  else None.

Definition ComputeContentDigest (body : bytes) (algs : list bytes) : bytes :=
  let algs := match algs with [] => [DigestSHA256] | _ => algs end in
  match omap (digest_part body) algs with
  | [] => digest_member DigestSHA256 (sha256 body)
  | parts => Join parts (str ", ")
  end.

(** One item of the header: nothing to check, a failure, or a digest that
    agrees with the body. *)
Definition check_item (body item : bytes) : result sig_error bool :=
  let item := TrimSpace item in
  if bytes_eqb item [] then Ok false
  else match IndexByte item "=" with
       | None => Ok false
       | Some eqIdx =>
           let alg := ToLower (TrimSpace (take eqIdx item)) in
           let val := TrimSpace (drop (S eqIdx) item) in
           match decodeByteSequence val with
           | None => Err ErrInvalidStructuredField
           | Some expected =>
               if bytes_eqb alg DigestSHA256 then
                 if bytes_eqb (sha256 body) expected then Ok true else Err ErrDigestMismatch
               else if bytes_eqb alg DigestSHA512 then
                 if bytes_eqb (sha512 body) expected then Ok true else Err ErrDigestMismatch
               else Ok false
           end
       end.

Fixpoint check_items (body : bytes) (items : list bytes) (verifiedAny : bool) : result sig_error bool :=
  match items with
  | [] => Ok verifiedAny
  | item :: rest => ok ← check_item body item; check_items body rest (verifiedAny || ok)
  end.

Definition VerifyContentDigest (body headerVal : bytes) : result sig_error unit :=
  let headerVal := TrimSpace headerVal in
  if bytes_eqb headerVal [] then Err (ErrText (str "httpsig: empty content-digest header"))
  else
    ok ← check_items body (Split headerVal ",") false;
    if (ok : bool) then Ok () else Err ErrUnsupportedAlgorithm.
End digest.

(** ** Signers and verifiers match *)

Section pairs.
Context `{CryptoLaws}.

Lemma hmac_pair kid b : key_pair (hmacSigner kid b) (hmacVerifier kid b).
Proof.
  split_and!; [done|by right|]. intros base sig [= <-]. simpl.
  by rewrite (proj2 (bytes_eqb_true (hmac_sha256 b base) _) eq_refl).
Qed.

Lemma octets_roundtrip n r s : 0 <= r < 256 ^ Z.of_nat n → 0 <= s < 256 ^ Z.of_nat n →
  of_bytes (take n (be_bytes n r ++ be_bytes n s)) = r ∧ of_bytes (drop n (be_bytes n r ++ be_bytes n s)) = s ∧
  length (be_bytes n r ++ be_bytes n s) = (n * 2)%nat.
Proof.
  intros Hr Hs. pose proof (be_bytes_length n r) as Hl.
  rewrite take_app_length', drop_app_length', !of_bytes_be_bytes by done.
  rewrite length_app, !be_bytes_length. split_and!; lia.
Qed.

(** The algorithm, the curve and the octet length agree. *)
Lemma check_curve_ok alg c base : check_curve alg c = Ok () →
  (ec_digest alg base).2 = octet_len c ∧
  (bytes_eqb alg AlgECDSAP256SHA256 || bytes_eqb alg AlgECDSAP384SHA384) = true.
Proof.
  unfold check_curve, ec_digest. destruct (bytes_eqb alg AlgECDSAP256SHA256).
  { case_bool_decide; [|done]. by subst. }
  destruct (bytes_eqb alg AlgECDSAP384SHA384); [|done]. case_bool_decide; [|done]. by subst.
Qed.

Lemma ecdsa_roundtrip rnd alg k base sig : check_curve alg (ec_curve (ec_public k)) = Ok () →
  ecdsaSign rnd alg k base = Ok sig → ecdsaVerify alg (ec_public k) base sig = Ok ().
Proof.
  intros Hc. destruct (check_curve_ok alg _ base Hc) as [Hn Ha]. unfold ecdsaSign, ecdsaVerify.
  destruct (ec_digest alg base) as [d n]. simpl in Hn. subst n. rewrite Ha.
  destruct (ecdsa_Sign rnd k d) as [[r s]|] eqn:E; [|done].
  destruct (ecdsa_range _ _ _ _ _ E) as [Hr Hs]. unfold FillBytes.
  rewrite (proj2 (Z.ltb_lt r _)), (proj2 (Z.ltb_lt s _)) by lia. intros [= <-].
  destruct (octets_roundtrip _ r s Hr Hs) as (-> & -> & ->).
  rewrite Nat.eqb_refl. cbn [negb andb]. by rewrite (ecdsa_ok _ _ _ _ _ E).
Qed.

Lemma ecdsa_pair rnd kid alg k s v :
  NewECDSASigner rnd kid alg (Some k) = Ok s → NewECDSAVerifier kid alg (Some (ec_public k)) = Ok v →
  key_pair s v.
Proof.
  unfold NewECDSASigner, NewECDSAVerifier.
  destruct (check_curve alg (ec_curve (ec_public k))) as [[]|] eqn:E; [|done]. cbn [mbind result_bind].
  intros [= <-] [= <-]. split_and!; [done|by right|]. intros base sig. by apply ecdsa_roundtrip.
Qed.

Lemma rsa_roundtrip rnd alg k base sig :
  rsaSign rnd alg k base = Ok sig → rsaVerify alg (rsa_public k) base sig = Ok ().
Proof.
  unfold rsaSign, rsaVerify. destruct (bytes_eqb alg AlgRSAPSSSHA512).
  - destruct (rsa_SignPSS _ _ _) eqn:E; [|done]. intros [= <-]. by rewrite (rsa_pss_ok _ _ _ _ E).
  - destruct (bytes_eqb alg _); [|done]. destruct (rsa_SignPKCS1v15 _ _ _) eqn:E; [|done].
    intros [= <-]. by rewrite (rsa_pkcs_ok _ _ _ _ E).
Qed.

Lemma rsa_pair rnd kid alg k s v :
  NewRSASigner rnd kid alg (Some k) = Ok s → NewRSAVerifier kid alg (Some (rsa_public k)) = Ok v → key_pair s v.
Proof.
  unfold NewRSASigner, NewRSAVerifier. destruct (negb _); [done|]. intros [= <-] [= <-].
  split_and!; [done|by right|]. intros base sig. apply rsa_roundtrip.
Qed.

Lemma ed25519_pair kid k s v :
  NewEd25519Signer kid k = Ok s → NewEd25519Verifier kid (ed25519_Public k) = Ok v → key_pair s v.
Proof.
  unfold NewEd25519Signer, NewEd25519Verifier. destruct (negb _); [done|]. intros [= <-].
  destruct (negb _); [done|]. intros [= <-]. split_and!; [done|by right|]. intros base sig [= <-]. simpl.
  by rewrite ed25519_size, Nat.eqb_refl, ed25519_ok.
Qed.

Lemma hmac_new_pair kid b s v : NewHMACSigner kid b = Ok s → NewHMACVerifier kid b = Ok v → key_pair s v.
Proof.
  unfold NewHMACSigner, NewHMACVerifier. destruct (bytes_eqb b []); [done|]. intros [= <-] [= <-]. apply hmac_pair.
Qed.

(** For every type of key, the signer and the verifier made from a private
    key and its public key match: same algorithm, same key identifier, and the
    verifier accepts every signature of the signer, with the padding of ECDSA
    numbers to their octet length undone. *)
Theorem signer_verifier_match rnd kid key alg s v :
  NewSignerFromKey rnd kid key alg = Done (Ok s) →
  NewVerifierFromKey kid (public_of key) alg = Done (Ok v) → key_pair s v.
Proof.
  destruct key as [|k|[k|]|[k|]|b|b|]; cbn [NewSignerFromKey NewVerifierFromKey public_of]; try done.
  - intros [= Hs] [= Hv]. by eapply ed25519_pair.
  - cbn [fmap option_fmap option_map]. destruct (nonempty (chosen alg)).
    + intros [= Hs] [= Hv]. by eapply ecdsa_pair.
    + destruct (curve_alg _) as [a|]; [|done]. cbn [mbind result_bind]. intros [= Hs] [= Hv].
      by eapply ecdsa_pair.
  - destruct (nonempty _); done.
  - intros [= Hs] [= Hv]. by eapply rsa_pair.
  - intros [= Hs] [= Hv]. by eapply hmac_new_pair.
  - intros [= Hs] [= Hv]. by eapply hmac_new_pair.
Qed.
End pairs.

(** A typed nil ECDSA pointer without an explicit algorithm is a panic, where
    the constructors report a nil key as an error. *)
Theorem nil_ecdsa_key_panics `{Crypto} rnd kid :
  NewSignerFromKey rnd kid (PrivECDSA None) [] = Panic ∧
  NewVerifierFromKey kid (PubECDSA None) [] = Panic ∧
  ∀ alg, NewECDSASigner rnd kid alg None = Err ErrKeyMismatch ∧ NewECDSAVerifier kid alg None = Err ErrKeyMismatch.
Proof. done. Qed.

(** ** Digests *)

Section digests.
Context `{Crypto} `{UnicodeCase}.

Lemma member_facts alg h : alg = DigestSHA256 ∨ alg = DigestSHA512 →
  alg ≠ [] ∧ forallb key_byte alg = true ∧ ","%byte ∉ digest_member alg h ∧
  (digest_member alg h ≠ [] ∧ tight (digest_member alg h)) ∧
  digest_member alg h = alg ++ "="%byte :: ":"%byte :: EncodeToString StdEncoding h ++ str ":".
Proof.
  intros Ha. assert (alg ≠ [] ∧ forallb key_byte alg = true) as [Hne Hk] by (destruct Ha as [-> | ->]; done).
  split_and!; [done|done| | | |done].
  - pose proof (forallb_notin key_byte "," alg eq_refl Hk).
    assert (","%byte ∉ EncodeToString StdEncoding h).
    { eapply (forallb_notin (λ c, plain_byte c && negb (c =b " ") && between "!" "~" c)); [done|apply b64_plain]. }
    unfold digest_member. change (str "=:") with ["="%byte; ":"%byte]. change (str ":") with [":"%byte]. set_solver.
  - by destruct Ha as [-> | ->].
  - apply field_tight; [done|done|done|by apply tight_app_ends].
Qed.

Lemma check_member body alg h : (alg = DigestSHA256 ∧ h = sha256 body ∨ alg = DigestSHA512 ∧ h = sha512 body) →
  check_item body (digest_member alg h) = Ok true ∧ check_item body (" "%byte :: digest_member alg h) = Ok true.
Proof.
  intros Ha. destruct (member_facts alg h) as (Hne & Hk & _ & [Hm Ht] & Heq); [tauto|].
  assert (check_item body (digest_member alg h) = Ok true) as Hc.
  { unfold check_item. rewrite TrimSpace_tight by done. rewrite (proj2 (bytes_eqb_false _ _) Hm).
    rewrite Heq, IndexByte_app by by apply (forallb_notin key_byte).
    rewrite take_app_exact, drop_app_cons, (TrimSpace_tight alg), key_lower by (done || by apply key_tight).
    rewrite TrimSpace_tight by by apply tight_app_ends. rewrite decode_sig.
    destruct Ha as [[-> ->]|[-> ->]].
    - change (bytes_eqb DigestSHA256 DigestSHA256) with true. cbv iota.
      by rewrite (proj2 (bytes_eqb_true (sha256 body) _) eq_refl).
    - change (bytes_eqb DigestSHA512 DigestSHA256) with false.
      change (bytes_eqb DigestSHA512 DigestSHA512) with true. cbv iota.
      by rewrite (proj2 (bytes_eqb_true (sha512 body) _) eq_refl). }
  split; [done|]. rewrite <- Hc. unfold check_item. by rewrite TrimSpace_blank, TrimSpace_tight.
Qed.

(** The members [ComputeContentDigest] joins. *)
Definition good_part (body part : bytes) : Prop :=
  ∃ alg h, part = digest_member alg h ∧ (alg = DigestSHA256 ∧ h = sha256 body ∨ alg = DigestSHA512 ∧ h = sha512 body).

Lemma digest_part_good body alg part : digest_part body alg = Some part → good_part body part.
Proof.
  unfold digest_part. destruct (_ || _); [intros [= <-]; eexists _, _; eauto|].
  destruct (_ || _); [|done]. intros [= <-]. eexists _, _. eauto.
Qed.

Lemma join_split_parts body part parts : Forall (good_part body) (part :: parts) →
  Split (Join (part :: parts) (str ", ")) "," = part :: map (cons " "%byte) parts.
Proof.
  revert part. induction parts as [|p2 parts IH]; intros part Hg.
  - apply Split_word. apply Forall_cons in Hg as [(alg & h & -> & Ha) _].
    apply member_facts. tauto.
  - apply Forall_cons in Hg as [(alg & h & -> & Ha) Hg].
    change (Join (digest_member alg h :: p2 :: parts) (str ", "))
      with (digest_member alg h ++ ","%byte :: " "%byte :: Join (p2 :: parts) (str ", ")).
    rewrite Split_app by (apply member_facts; tauto). f_equal. cbn [Split].
    change (" "%byte =b ",") with false. cbv iota. by rewrite IH.
Qed.

Lemma join_parts_tight body part parts : Forall (good_part body) (part :: parts) →
  Join (part :: parts) (str ", ") ≠ [] ∧ tight (Join (part :: parts) (str ", ")).
Proof.
  revert part. induction parts as [|p2 parts IH]; intros part Hg.
  - apply Forall_cons in Hg as [(alg & h & -> & Ha) _]. apply member_facts. tauto.
  - apply Forall_cons in Hg as [(alg & h & -> & Ha) Hg]. destruct (IH p2 Hg) as [Hne [_ Hl]].
    destruct (member_facts alg h) as (_ & _ & _ & [Hm [Hh _]] & _); [tauto|].
    change (Join (digest_member alg h :: p2 :: parts) (str ", "))
      with (digest_member alg h ++ ","%byte :: " "%byte :: Join (p2 :: parts) (str ", ")).
    split; [by destruct (digest_member alg h)|]. split.
    + intros c. destruct (digest_member alg h); [done|]. exact (Hh c).
    + intros c. rewrite last_app_cons, last_cons_cons. destruct (Join (p2 :: parts) _); [done|].
      rewrite last_cons_cons. apply Hl.
Qed.

Lemma check_items_good body items : Forall (λ i, check_item body i = Ok true) items → ∀ b,
  check_items body items b = Ok (b || bool_decide (items ≠ [])).
Proof.
  induction 1 as [|i items Hi _ IH]; intros b; cbn [check_items]; [by rewrite orb_false_r|].
  rewrite Hi. cbn [mbind result_bind]. rewrite IH, (bool_decide_eq_true_2 (i :: items ≠ [])) by done. by destruct b.
Qed.

(** The Content-Digest header computed for a body is accepted for that body,
    whatever algorithms were asked for. *)
Theorem content_digest_roundtrip body algs :
  VerifyContentDigest body (ComputeContentDigest body algs) = Ok ().
Proof.
  assert (∃ part parts, ComputeContentDigest body algs = Join (part :: parts) (str ", ") ∧
    Forall (good_part body) (part :: parts)) as (part & parts & -> & Hg).
  { unfold ComputeContentDigest. set (al := match algs with [] => _ | _ => _ end).
    assert (Forall (good_part body) (omap (digest_part body) al)) as Hf.
    { apply Forall_forall. intros x (a & _ & Ha)%list_elem_of_omap. by eapply digest_part_good. }
    destruct (omap (digest_part body) al) as [|p ps]; [|by exists p, ps].
    exists (digest_member DigestSHA256 (sha256 body)), []. split; [done|]. constructor; [|constructor].
    eexists _, _. eauto. }
  destruct (join_parts_tight body part parts Hg) as [Hne Ht].
  unfold VerifyContentDigest. rewrite TrimSpace_tight by done. rewrite (proj2 (bytes_eqb_false _ _) Hne).
  rewrite (join_split_parts body) by done. rewrite check_items_good; [done|].
  apply Forall_cons in Hg as [(alg & h & -> & Ha) Hg]. constructor; [by apply check_member|].
  apply Forall_map. eapply Forall_impl; [exact Hg|]. intros x (a & h' & -> & Ha'). by apply check_member.
Qed.

(** An item in which a supported algorithm declares a digest. *)
Definition declares (item alg : bytes) (expected : bytes) : Prop :=
  ∃ eqIdx, IndexByte (TrimSpace item) "=" = Some eqIdx ∧
    ToLower (TrimSpace (take eqIdx (TrimSpace item))) = alg ∧
    decodeByteSequence (TrimSpace (drop (S eqIdx) (TrimSpace item))) = Some expected.

Lemma check_item_sound body item b : check_item body item = Ok b →
  (∀ e, declares item DigestSHA256 e → e = sha256 body) ∧ (∀ e, declares item DigestSHA512 e → e = sha512 body) ∧
  (b = true → declares item DigestSHA256 (sha256 body) ∨ declares item DigestSHA512 (sha512 body)).
Proof.
  unfold check_item, declares. destruct (bytes_eqb (TrimSpace item) []) eqn:E0; bools.
  { rewrite E0. intros [= <-]. split_and!; [by intros e (? & ? & _)..|done]. }
  destruct (IndexByte (TrimSpace item) "=") as [i|]; [|intros [= <-]; split_and!; [by intros e (? & ? & _)..|done]].
  destruct (decodeByteSequence _) as [d|] eqn:Ed; [|done].
  destruct (bytes_eqb _ DigestSHA256) eqn:E1; bools.
  - destruct (bytes_eqb (sha256 body) d) eqn:E2; [|done]. bools. intros [= <-]. subst d.
    split_and!; [by intros e (j & [= <-] & _ & [= ->]%(eq_trans (eq_sym Ed))) | |intros _; left; eauto].
    intros e (j & [= <-] & Hx & _). rewrite E1 in Hx. discriminate.
  - destruct (bytes_eqb _ DigestSHA512) eqn:E3; bools.
    + destruct (bytes_eqb (sha512 body) d) eqn:E2; [|done]. bools. intros [= <-]. subst d.
      split_and!; [by intros e (j & [= <-] & Hx & _)
                  |by intros e (j & [= <-] & _ & [= ->]%(eq_trans (eq_sym Ed)))|intros _; right; eauto].
    + intros [= <-]. split_and!; [by intros e (j & [= <-] & Hx & _)..|done].
Qed.

(** A header that is accepted declares at least one supported digest, and
    every supported digest it declares is the body's. *)
Theorem content_digest_sound body h :
  VerifyContentDigest body h = Ok () →
  (∃ item, item ∈ Split (TrimSpace h) "," ∧
     (declares item DigestSHA256 (sha256 body) ∨ declares item DigestSHA512 (sha512 body))) ∧
  (∀ item e, item ∈ Split (TrimSpace h) "," →
     (declares item DigestSHA256 e → e = sha256 body) ∧ (declares item DigestSHA512 e → e = sha512 body)).
Proof.
  unfold VerifyContentDigest. destruct (bytes_eqb _ _); [done|].
  assert (∀ items b r, check_items body items b = Ok r →
    (∀ i e, i ∈ items → (declares i DigestSHA256 e → e = sha256 body) ∧ (declares i DigestSHA512 e → e = sha512 body)) ∧
    (r = true → b = true ∨ ∃ i, i ∈ items ∧
       (declares i DigestSHA256 (sha256 body) ∨ declares i DigestSHA512 (sha512 body)))) as Hspec.
  { induction items as [|i items IH]; intros b r; cbn [check_items].
    { intros [= <-]. split; [by intros i e ?%not_elem_of_nil|by left]. }
    destruct (check_item body i) as [ok|] eqn:E; [|done]. cbn [mbind result_bind]. intros [H1 H2]%IH.
    apply check_item_sound in E as (Ha & Hb & Hc). split.
    - intros j e [->|Hj]%elem_of_cons; [split; auto|by apply H1].
    - intros Hr. destruct (H2 Hr) as [Ho|(j & Hj & Hd)]; [|right; exists j; split; [by right|done]].
      apply orb_true_iff in Ho as [Ho|Ho]; [by left|]. right. exists i. split; [by left|auto]. }
  destruct (check_items body (Split (TrimSpace h) ",") false) as [[]|] eqn:E; try done.
  intros _. apply Hspec in E as [H1 H2]. split; [|done]. by destruct (H2 eq_refl).
Qed.
End digests.

(** ** An instance of the interface: checksums in place of cryptography *)

Module Toy.
Definition sum (n : nat) (b : bytes) : bytes := be_bytes n (foldl (λ z c, (z * 31 + bz c) mod 65521) 7 b).

Definition toy : Crypto := {|
  sha256 := sum 32; sha384 := sum 48; sha512 := sum 64;
  hmac_sha256 := λ k m, sum 32 (k ++ m);
  ed25519_Public := λ k, sum 32 k;
  ed25519_Sign := λ k m, sum 64 (sum 32 k ++ m);
  ed25519_Verify := λ p m s, bytes_eqb s (sum 64 (p ++ m));
  ECPrivate := curve * Z; ECPublic := curve * Z; ec_curve := fst; ec_public := id;
  ecdsa_Sign := λ rnd k d, Some ((of_bytes d + k.2) mod 256 ^ 32, of_bytes rnd mod 256 ^ 32);
  ecdsa_Verify := λ p d r s, r =? (of_bytes d + p.2) mod 256 ^ 32;
  RSAPrivate := Z; RSAPublic := Z; rsa_public := id;
  rsa_SignPSS := λ rnd k d, Some (big_Bytes (of_bytes d + k));
  rsa_VerifyPSS := λ k d s, bytes_eqb s (big_Bytes (of_bytes d + k));
  rsa_SignPKCS1v15 := λ rnd k d, Some (big_Bytes (of_bytes d * k));
  rsa_VerifyPKCS1v15 := λ k d s, bytes_eqb s (big_Bytes (of_bytes d * k))
|}.

#[export] Instance toy_laws : @CryptoLaws toy.
Proof.
  assert (∀ x n, (32 <= n)%nat → 0 <= x mod 256 ^ 32 < 256 ^ Z.of_nat n) as Hr.
  { intros x n Hn. pose proof (Z.mod_pos_bound x (256 ^ 32) ltac:(lia)).
    assert (256 ^ 32 <= 256 ^ Z.of_nat n) by (apply Z.pow_le_mono_r; lia). lia. }
  split.
  - intros k. apply be_bytes_length.
  - intros k m. apply be_bytes_length.
  - intros k m. apply bytes_eqb_true. reflexivity.
  - intros rnd k d r s [= <- <-]. split; apply Hr; destruct (ec_curve _); simpl; lia.
  - intros rnd k d r s [= <- <-]. apply Z.eqb_refl.
  - intros rnd k d sig [= <-]. by apply bytes_eqb_true.
  - intros rnd k d sig [= <-]. by apply bytes_eqb_true.
Qed.

#[local] Existing Instance toy.
#[local] Existing Instance ascii_case.

Definition sample_key : @private_key toy := @PrivECDSA toy (Some (P384, 5)).

Lemma signer_verifier_match_witness :
  ∃ s v, NewSignerFromKey (str "r") (str "k") sample_key [] = Done (Ok s) ∧
    NewVerifierFromKey (str "k") (public_of sample_key) [] = Done (Ok v) ∧
    vr_Algorithm v = AlgECDSAP384SHA384 ∧ key_pair s v.
Proof.
  eexists. eexists. split; [reflexivity|]. split; [reflexivity|]. split; [reflexivity|].
  eapply (@signer_verifier_match toy toy_laws (str "r") (str "k") sample_key []); reflexivity.
Defined.

Definition header : bytes := ComputeContentDigest (str "hello") [str "SHA-512"; str "md5"; str "sha256"].

Lemma content_digest_sound_witness :
  ∃ item, item ∈ Split (TrimSpace header) "," ∧
    (declares item DigestSHA256 (sha256 (str "hello")) ∨ declares item DigestSHA512 (sha512 (str "hello"))).
Proof. apply (content_digest_sound (str "hello") header). vm_compute. reflexivity. Defined.

(** An algorithm that is not supported is not ignored when its value is not
    base64. *)
Lemma unsupported_digest_rejects :
  VerifyContentDigest (str "hello") (ComputeContentDigest (str "hello") [] ++ str ", unixsum=30637") =
  Err ErrInvalidStructuredField.
Proof. vm_compute. reflexivity. Qed.
End Toy.
