(* ===== verification/Dpop.v ===== *)
(** * DPoP proofs (src/auth/dpop)

    Proof-of-possession tokens: public keys as JSON Web Keys and their
    thumbprints (jwk.go), the creation of a signed proof for a request
    (proof.go) and its verification (verify.go).  The primitives are the class
    [Crypto] of [HttpSigAlg], extended by the coordinates of public keys. *)

From S2P Require Import Prelude GoLib GoText GoURL GoJson HttpSigAlg.

#[local] Open Scope Z_scope.

Inductive dpop_error :=
| ErrInvalidDPoPProof
| ErrInvalidHeader
| ErrInvalidClaims
| ErrInvalidSignature
| ErrProofExpired
| ErrProofInFuture
| ErrMethodMismatch
| ErrURIMismatch
| ErrAccessTokenMismatch
| ErrNonceMismatch
| ErrUnsupportedKey
| ErrSign
| ErrNilRequest.

Definition TypeDPoPJWT : bytes := str "dpop+jwt".
Definition AlgES256 : bytes := str "ES256".
Definition AlgES384 : bytes := str "ES384".
Definition AlgEdDSA : bytes := str "EdDSA".
Definition AlgRS256 : bytes := str "RS256".
Definition AlgPS256 : bytes := str "PS256".

Record JWK := {
  Kty : bytes;
  Crv : bytes;
  X : bytes;
  Y : bytes;
  N : bytes;
  E : bytes;
  Alg : bytes;
  Kid : bytes
}.

Record ProofHeader := { ph_Typ : bytes; ph_Alg : bytes; ph_JWK : option JWK }.

Record ProofClaims := { JTI : bytes; HTM : bytes; HTU : bytes; IAT : Z; Nonce : bytes; ATH : bytes }.

(** [po_IAT] is [None] for the zero time. *)
Record ProofOptions := { po_Nonce : bytes; po_AccessToken : bytes; po_CustomJTI : bytes; po_IAT : option Z }.

Record VerifierConfig := {
  ExpectedMethod : bytes;
  ExpectedURI : bytes;
  AccessToken : bytes;
  ExpectedNonce : bytes;
  MaxAge : Z;
  AllowedClockSkew : Z
}.

(** ** JSON of the records *)

Definition jwk_json (k : JWK) : json :=
  JObj ((str "kty", JStr (Kty k)) :: omitempty (str "crv") (Crv k) ++ omitempty (str "x") (X k) ++
        omitempty (str "y") (Y k) ++ omitempty (str "n") (N k) ++ omitempty (str "e") (E k) ++
        omitempty (str "alg") (Alg k) ++ omitempty (str "kid") (Kid k)).

Definition header_json (h : ProofHeader) : json :=
  JObj [(str "typ", JStr (ph_Typ h)); (str "alg", JStr (ph_Alg h));
        (str "jwk", match ph_JWK h with Some k => jwk_json k | None => JNull end)].

Definition claims_json (c : ProofClaims) : json :=
  JObj ([(str "jti", JStr (JTI c)); (str "htm", JStr (HTM c)); (str "htu", JStr (HTU c));
         (str "iat", JNum (Itoa (IAT c)))] ++ omitempty (str "nonce") (Nonce c) ++ omitempty (str "ath") (ATH c)).

Definition no_jwk : JWK := {| Kty := []; Crv := []; X := []; Y := []; N := []; E := []; Alg := []; Kid := [] |}.

Section json.
Context `{UnicodeCase}.

Definition decode_JWK (k : JWK) (v : json) : option JWK :=
  m ← members v;
  kty ← decode_field decode_string (str "kty") (Kty k) m;
  crv ← decode_field decode_string (str "crv") (Crv k) m;
  x ← decode_field decode_string (str "x") (X k) m;
  y ← decode_field decode_string (str "y") (Y k) m;
  n ← decode_field decode_string (str "n") (N k) m;
  e ← decode_field decode_string (str "e") (E k) m;
  alg ← decode_field decode_string (str "alg") (Alg k) m;
  kid ← decode_field decode_string (str "kid") (Kid k) m;
  Some {| Kty := kty; Crv := crv; X := x; Y := y; N := n; E := e; Alg := alg; Kid := kid |}.

Definition decode_header (v : json) : option ProofHeader :=
  m ← members v;
  typ ← decode_field decode_string (str "typ") [] m;
  alg ← decode_field decode_string (str "alg") [] m;
  jwk ← decode_field (decode_pointer decode_JWK no_jwk) (str "jwk") None m;
  Some {| ph_Typ := typ; ph_Alg := alg; ph_JWK := jwk |}.

Definition decode_claims (v : json) : option ProofClaims :=
  m ← members v;
  jti ← decode_field decode_string (str "jti") [] m;
  htm ← decode_field decode_string (str "htm") [] m;
  htu ← decode_field decode_string (str "htu") [] m;
  iat ← decode_field decode_int64 (str "iat") 0 m;
  nonce ← decode_field decode_string (str "nonce") [] m;
  ath ← decode_field decode_string (str "ath") [] m;
  Some {| JTI := jti; HTM := htm; HTU := htu; IAT := iat; Nonce := nonce; ATH := ath |}.
End json.

(** ** Keys *)

(** The fields of the public key structs, and RSA-PSS with SHA-256. *)
Class KeyFields `{Crypto} := {
  ec_X : ECPublic → Z;
  ec_Y : ECPublic → Z;
  ec_make : curve → Z → Z → ECPublic;
  rsa_N : RSAPublic → Z;
  rsa_E : RSAPublic → Z;
  rsa_make : Z → Z → RSAPublic;
  rsa_SignPSS256 : bytes → RSAPrivate → bytes → option bytes;
  rsa_VerifyPSS256 : RSAPublic → bytes → bytes → bool
}.

(** A public key is its fields; the key of a private key is on its curve, and
    has a positive modulus and exponent. *)
Class KeyLaws `{KeyFields} : Prop := {
  ec_make_fields : ∀ p, ec_make (ec_curve p) (ec_X p) (ec_Y p) = p;
  ec_coordinates : ∀ k,
    0 <= ec_X (ec_public k) < 256 ^ Z.of_nat (octet_len (ec_curve (ec_public k))) ∧
    0 <= ec_Y (ec_public k) < 256 ^ Z.of_nat (octet_len (ec_curve (ec_public k)));
  rsa_make_fields : ∀ p, rsa_make (rsa_N p) (rsa_E p) = p;
  rsa_positive : ∀ k, 0 < rsa_N (rsa_public k) ∧ 0 < rsa_E (rsa_public k) < 2 ^ 63
}.

Section dpop.
Context `{UnicodeCase} `{KeyFields}.

(** The dynamic types of a key; [KSigner] is another type with a [Public] method. *)
Inductive pub_key := PubEC (p : ECPublic) | PubEd (p : bytes) | PubRSA (p : RSAPublic) | PubOther.
Inductive priv_key :=
| KNil | KEC (k : option ECPrivate) | KEd (k : bytes) | KRSA (k : option RSAPrivate)
| KSigner (p : option pub_key) | KOther.

Definition b64 (s : bytes) : bytes := EncodeToString RawURLEncoding s.

Definition ec_jwk (crv : bytes) (len : nat) (p : ECPublic) : outcome JWK :=
  xBuf ← FillBytes len (ec_X p);
  yBuf ← FillBytes len (ec_Y p);
  Done {| Kty := str "EC"; Crv := crv; X := b64 xBuf; Y := b64 yBuf; N := []; E := []; Alg := []; Kid := [] |}.

Definition PublicKeyToJWK (pub : pub_key) : outcome (result dpop_error (JWK * bytes)) :=
  match pub with
  | PubEC p =>
      match ec_curve p with
      | P256 => k ← ec_jwk (str "P-256") 32 p; Done (Ok (k, AlgES256))
      | P384 => k ← ec_jwk (str "P-384") 48 p; Done (Ok (k, AlgES384))
      | other_curve => Done (Err ErrUnsupportedKey)
      end
  | PubEd p =>
      if negb (length p =? 32)%nat then Done (Err ErrUnsupportedKey)
      else Done (Ok ({| Kty := str "OKP"; Crv := str "Ed25519"; X := b64 p; Y := []; N := []; E := [];
                        Alg := []; Kid := [] |}, AlgEdDSA))
  | PubRSA p =>
      Done (Ok ({| Kty := str "RSA"; Crv := []; X := []; Y := []; N := b64 (big_Bytes (rsa_N p));
                   E := b64 (big_Bytes (Z.abs (rsa_E p))); Alg := []; Kid := [] |}, AlgRS256))
  | PubOther => Done (Err ErrUnsupportedKey)
  end.

(** A field in base64url of a given length. *)
Definition sized (field : bytes) (len : nat) : result dpop_error bytes :=
  match DecodeString RawURLEncoding field with
  | Some b => if (length b =? len)%nat then Ok b else Err ErrInvalidHeader
  | None => Err ErrInvalidHeader
  end.

Definition nonempty_field (field : bytes) : result dpop_error bytes :=
  match DecodeString RawURLEncoding field with
  | Some b => if (length b =? 0)%nat then Err ErrInvalidHeader else Ok b
  | None => Err ErrInvalidHeader
  end.

Definition JWKToPublicKey (jwk : option JWK) : result dpop_error pub_key :=
  match jwk with
  | None => Err ErrInvalidHeader
  | Some k =>
      if bytes_eqb (Kty k) (str "EC") then
        '(c, len) ← (if bytes_eqb (Crv k) (str "P-256") then Ok (P256, 32%nat)
                     else if bytes_eqb (Crv k) (str "P-384") then Ok (P384, 48%nat) else Err ErrUnsupportedKey);
        xBytes ← sized (X k) len;
        yBytes ← sized (Y k) len;
        Ok (PubEC (ec_make c (of_bytes xBytes) (of_bytes yBytes)))
      else if bytes_eqb (Kty k) (str "OKP") then
        if negb (bytes_eqb (Crv k) (str "Ed25519")) then Err ErrUnsupportedKey
        else pubBytes ← sized (X k) 32; Ok (PubEd pubBytes)
      else if bytes_eqb (Kty k) (str "RSA") then
        nBytes ← nonempty_field (N k);
        eBytes ← nonempty_field (E k);
        Ok (PubRSA (rsa_make (of_bytes nBytes) (wrap64 (of_bytes eBytes))))
      else Err ErrUnsupportedKey
  end.

(** The text whose hash is the thumbprint. *)
Definition canonicalJSON (k : JWK) : result dpop_error bytes :=
  let open := str "{" ++ [dquote] in
  let field := λ name v, str name ++ [dquote] ++ str ":" ++ [dquote] ++ v ++ [dquote] in
  let sep := str "," ++ [dquote] in
  if bytes_eqb (Kty k) (str "EC") then
    Ok (open ++ field "crv" (Crv k) ++ sep ++ field "kty" (str "EC") ++ sep ++ field "x" (X k) ++ sep ++
        field "y" (Y k) ++ str "}")
  else if bytes_eqb (Kty k) (str "OKP") then
    Ok (open ++ field "crv" (Crv k) ++ sep ++ field "kty" (str "OKP") ++ sep ++ field "x" (X k) ++ str "}")
  else if bytes_eqb (Kty k) (str "RSA") then
    Ok (open ++ field "e" (E k) ++ sep ++ field "kty" (str "RSA") ++ sep ++ field "n" (N k) ++ str "}")
  else Err ErrUnsupportedKey.

Definition ComputeThumbprint (jwk : option JWK) : result dpop_error bytes :=
  match jwk with
  | None => Err ErrInvalidHeader
  | Some k => t ← canonicalJSON k; Ok (b64 (sha256 t))
  end.

(** ** Proofs *)

Definition ComputeAccessTokenHash (accessToken : bytes) : bytes := b64 (sha256 accessToken).

Definition set_norm (u : URL) : URL :=
  {| u_Scheme := ToLower (u_Scheme u); u_Opaque := u_Opaque u; u_User := u_User u; u_Host := u_Host u;
     u_Path := if bytes_eqb (u_Path u) [] then str "/" else u_Path u; u_RawPath := u_RawPath u;
     u_OmitHost := u_OmitHost u; u_ForceQuery := u_ForceQuery u; u_RawQuery := []; u_Fragment := [];
     u_RawFragment := u_RawFragment u |}.

Definition NormalizeTargetURI (rawURI : bytes) : result dpop_error bytes :=
  if bytes_eqb rawURI [] then Err ErrInvalidClaims
  else match url_Parse rawURI with
       | None => Err ErrInvalidClaims
       | Some u => Ok (URL_String (set_norm u))
       end.

(** [rand] is what the random source delivers, [nano] the clock. *)
Definition GenerateJTI (rand : option bytes) (nano : Z) : bytes :=
  match rand with
  | Some b => b64 b
  | None => str "jti-" ++ Itoa nano
  end.

Definition extractPublicKey (priv : priv_key) : outcome (option pub_key) :=
  match priv with
  | KEC None | KRSA None => Panic
  | KEC (Some k) => Done (Some (PubEC (ec_public k)))
  | KEd k => if (length k <? 32)%nat then Panic else Done (Some (PubEd (ed25519_Public k)))
  | KRSA (Some k) => Done (Some (PubRSA (rsa_public k)))
  | KSigner p => Done p
  | KNil | KOther => Done None
  end.

Definition sign_ec (rnd : bytes) (k : ECPrivate) (len : nat) (digest : bytes) : outcome (result dpop_error bytes) :=
  match ecdsa_Sign rnd k digest with
  | None => Done (Err ErrSign)
  | Some (r, s) => a ← FillBytes len r; b ← FillBytes len s; Done (Ok (a ++ b))
  end.

Definition or_sign (o : option bytes) : result dpop_error bytes :=
  match o with Some s => Ok s | None => Err ErrSign end.

Definition signJWS (rnd : bytes) (priv : priv_key) (alg input : bytes) : outcome (result dpop_error bytes) :=
  match priv with
  | KEC None | KRSA None => Panic
  | KEC (Some k) =>
      if bytes_eqb alg AlgES256 then sign_ec rnd k 32 (sha256 input)
      else if bytes_eqb alg AlgES384 then sign_ec rnd k 48 (sha384 input)
      else Done (Err ErrUnsupportedKey)
  | KEd k => if negb (length k =? 64)%nat then Panic else Done (Ok (ed25519_Sign k input))
  | KRSA (Some k) =>
      if bytes_eqb alg AlgRS256 then Done (or_sign (rsa_SignPKCS1v15 rnd k (sha256 input)))
      else if bytes_eqb alg AlgPS256 then Done (or_sign (rsa_SignPSS256 rnd k (sha256 input)))
      else Done (Err ErrUnsupportedKey)
  | KNil | KSigner _ | KOther => Done (Err ErrUnsupportedKey)
  end.

Definition proof_claims (jti method normURI : bytes) (iat : Z) (opt : ProofOptions) : ProofClaims :=
  {| JTI := jti; HTM := ToUpper (TrimSpace method); HTU := normURI; IAT := Time_Unix iat; Nonce := po_Nonce opt;
     ATH := if nonempty (po_AccessToken opt) then ComputeAccessTokenHash (po_AccessToken opt) else [] |}.

(** The environment of a call: the random bytes for the identifier and for the
    signature, and the clock. *)
Record Env := { env_jti : option bytes; env_rnd : bytes; env_now : Z }.

Definition CreateProof (env : Env) (privKey : priv_key) (method targetURI : bytes) (opt : ProofOptions) :
    outcome (result dpop_error bytes) :=
  match privKey with
  | KNil => Done (Err ErrUnsupportedKey)
  | _ =>
      pub ← extractPublicKey privKey;
      match pub with
      | None => Done (Err ErrUnsupportedKey)
      | Some pubKey =>
          '(jwk, defaultAlg) ←! PublicKeyToJWK pubKey;
          let headerB64 := b64 (render (header_json {| ph_Typ := TypeDPoPJWT; ph_Alg := defaultAlg; ph_JWK := Some jwk |})) in
          normURI ←! Done (NormalizeTargetURI targetURI);
          let jti := if bytes_eqb (po_CustomJTI opt) [] then GenerateJTI (env_jti env) (env_now env) else po_CustomJTI opt in
          let iat := default (env_now env) (po_IAT opt) in
          let claimsB64 := b64 (render (claims_json (proof_claims jti method normURI iat opt))) in
          let signingInput := headerB64 ++ str "." ++ claimsB64 in
          sigBytes ←! signJWS (env_rnd env) privKey defaultAlg signingInput;
          Done (Ok (signingInput ++ str "." ++ b64 sigBytes))
      end
  end.

(** ** Requests

    [rq_TLS] says whether the request came over TLS. *)
Record Request := { rq_Method : bytes; rq_URL : option URL; rq_Host : bytes; rq_TLS : bool; rq_Header : Header }.

Definition target_url (req : Request) (u : URL) : bytes :=
  if IsAbs u then URL_String u
  else if nonempty (rq_Host req)
  then (if rq_TLS req then str "https" else str "http") ++ str "://" ++ rq_Host req ++ RequestURI u
  else URL_String u.

Definition CreateProofForRequest (env : Env) (req : option Request) (privKey : priv_key) (opt : ProofOptions) :
    outcome (result dpop_error bytes) :=
  match req with
  | None => Done (Err ErrNilRequest)
  | Some r =>
      CreateProof env privKey (rq_Method r) (match rq_URL r with Some u => target_url r u | None => [] end) opt
  end.

(** ** Verification *)

Definition verify_ec (p : ECPublic) (len : nat) (digest sig : bytes) : result dpop_error unit :=
  if negb (length sig =? 2 * len)%nat then Err ErrInvalidSignature
  else if ecdsa_Verify p digest (of_bytes (take len sig)) (of_bytes (drop len sig)) then Ok ()
  else Err ErrInvalidSignature.

Definition accept (b : bool) : result dpop_error unit := if b then Ok () else Err ErrInvalidSignature.

Definition verifyJWSSignature (pub : pub_key) (alg input sig : bytes) : result dpop_error unit :=
  match pub with
  | PubEC p =>
      if bytes_eqb alg AlgES256 then verify_ec p 32 (sha256 input) sig
      else if bytes_eqb alg AlgES384 then verify_ec p 48 (sha384 input) sig
      else Err ErrUnsupportedKey
  | PubEd p => if negb (length sig =? 64)%nat then Err ErrInvalidSignature else accept (ed25519_Verify p input sig)
  | PubRSA p =>
      if bytes_eqb alg AlgRS256 then accept (rsa_VerifyPKCS1v15 p (sha256 input) sig)
      else if bytes_eqb alg AlgPS256 then accept (rsa_VerifyPSS256 p (sha256 input) sig)
      else Err ErrUnsupportedKey
  | PubOther => Err ErrUnsupportedKey
  end.

Definition prohibited_alg (alg : bytes) : bool :=
  EqualFold alg (str "none") || HasPrefix (ToUpper alg) (str "HS").

Definition read_header (headerB64 : bytes) : result dpop_error (ProofHeader * JWK) :=
  match DecodeString RawURLEncoding headerB64 with
  | None => Err ErrInvalidHeader
  | Some headerBytes =>
      match (v ← parse_json headerBytes; decode_header v) with
      | None => Err ErrInvalidHeader
      | Some header =>
          if negb (EqualFold (ph_Typ header) TypeDPoPJWT) then Err ErrInvalidHeader
          else match ph_JWK header with
               | None => Err ErrInvalidHeader
               | Some jwk => if prohibited_alg (ph_Alg header) then Err ErrUnsupportedKey else Ok (header, jwk)
               end
      end
  end.

Definition read_claims (claimsB64 : bytes) : result dpop_error ProofClaims :=
  match DecodeString RawURLEncoding claimsB64 with
  | None => Err ErrInvalidClaims
  | Some claimsBytes =>
      match (v ← parse_json claimsBytes; decode_claims v) with
      | None => Err ErrInvalidClaims
      | Some c => if bytes_eqb (JTI c) [] then Err ErrInvalidClaims else Ok c
      end
  end.

Definition skew_of (cfg : VerifierConfig) : Z := if AllowedClockSkew cfg <=? 0 then Minute else AllowedClockSkew cfg.
Definition age_of (cfg : VerifierConfig) : Z := if MaxAge cfg <=? 0 then 5 * Minute else MaxAge cfg.

Definition check_claims (now : Z) (cfg : VerifierConfig) (c : ProofClaims) : result dpop_error unit :=
  _ ← (if nonempty (ExpectedMethod cfg) && negb (EqualFold (HTM c) (ExpectedMethod cfg))
       then Err ErrMethodMismatch else Ok ());
  _ ← (if nonempty (ExpectedURI cfg)
       then expectedNorm ← NormalizeTargetURI (ExpectedURI cfg);
            if bytes_eqb (HTU c) expectedNorm then Ok () else Err ErrURIMismatch
       else Ok ());
  _ ← (if After (time_Unix (IAT c)) (time_Add now (skew_of cfg)) then Err ErrProofInFuture
       else if wrap64 (age_of cfg + skew_of cfg) <? time_Sub now (time_Unix (IAT c)) then Err ErrProofExpired else Ok ());
  _ ← (if nonempty (AccessToken cfg) && negb (bytes_eqb (ATH c) (ComputeAccessTokenHash (AccessToken cfg)))
       then Err ErrAccessTokenMismatch else Ok ());
  if nonempty (ExpectedNonce cfg) && negb (bytes_eqb (Nonce c) (ExpectedNonce cfg)) then Err ErrNonceMismatch else Ok ().

Definition VerifyProof (now : Z) (proofJWT : bytes) (cfg : VerifierConfig) : result dpop_error (ProofClaims * JWK) :=
  let proofJWT := TrimSpace proofJWT in
  if bytes_eqb proofJWT [] then Err ErrInvalidDPoPProof
  else match Split proofJWT "." with
       | [headerB64; claimsB64; sigB64] =>
           '(header, jwk) ← read_header headerB64;
           pubKey ← JWKToPublicKey (Some jwk);
           match DecodeString RawURLEncoding sigB64 with
           | None => Err ErrInvalidSignature
           | Some sigBytes =>
               _ ← verifyJWSSignature pubKey (ph_Alg header) (headerB64 ++ str "." ++ claimsB64) sigBytes;
               claims ← read_claims claimsB64;
               _ ← check_claims now cfg claims;
               Ok (claims, jwk)
           end
       | _ => Err ErrInvalidDPoPProof
       end.

(** Constants of the mach header package. *)
Record HeaderNames := { HeaderDPoP : bytes; HeaderAuthorization : bytes; SchemeDPoP : bytes }.

Definition VerifyProofForRequest (hn : HeaderNames) (now : Z) (req : option Request) (cfg : VerifierConfig) :
    result dpop_error (ProofClaims * JWK) :=
  match req with
  | None => Err ErrNilRequest
  | Some r =>
      let proofHeader := Header_Get (rq_Header r) (HeaderDPoP hn) in
      if bytes_eqb proofHeader [] then Err ErrInvalidDPoPProof
      else
        let uri := match rq_URL r with
                   | Some u => if bytes_eqb (ExpectedURI cfg) [] then target_url r u else ExpectedURI cfg
                   | None => ExpectedURI cfg
                   end in
        let authVal := Header_Get (rq_Header r) (HeaderAuthorization hn) in
        let token := if bytes_eqb (AccessToken cfg) [] && HasPrefix authVal (SchemeDPoP hn ++ str " ")
                     then TrimSpace (drop (length (SchemeDPoP hn) + 1) authVal) else AccessToken cfg in
        VerifyProof now proofHeader
          {| ExpectedMethod := if bytes_eqb (ExpectedMethod cfg) [] then rq_Method r else ExpectedMethod cfg;
             ExpectedURI := uri; AccessToken := token; ExpectedNonce := ExpectedNonce cfg; MaxAge := MaxAge cfg;
             AllowedClockSkew := AllowedClockSkew cfg |}
  end.
End dpop.

(** ** Keys and records come back *)

Lemma Valid_ascii s : ascii s = true → Valid s = true.
Proof. induction s as [|c s IH]; [done|]. cbn. intros Ha. bools. destruct (_ <? _) eqn:E; bools; [auto|lia]. Qed.

Lemma b64_ascii s : ascii (b64 s) = true.
Proof.
  unfold b64, ascii. apply forallb_forall. intros c Hc%list_elem_of_In.
  pose proof (EncodeToString_bytes RawURLEncoding ltac:(auto with go) s) as Hb.
  rewrite Forall_forall in Hb. specialize (Hb c Hc). by destruct c.
Qed.

(** Decide comparisons of constants. *)
Ltac eval_eqb :=
  repeat match goal with
  | |- context [bytes_eqb ?a ?b] =>
      let r := eval vm_compute in (bytes_eqb a b) in
      lazymatch r with true => idtac | false => idtac end; change (bytes_eqb a b) with r; cbn iota
  end.

Section keys.
Context `{UnicodeCase} `{KeyLaws} {CL : CryptoLaws}.

Lemma decode_JWK_json k : decode_JWK no_jwk (jwk_json k) = Some k.
Proof.
  destruct k as [kty crv x y n e alg kid]. unfold jwk_json, omitempty. cbn [Kty Crv X Y N E Alg Kid].
  destruct crv, x, y, n, e, alg, kid; vm_compute; reflexivity.
Qed.

Lemma decode_header_json h : decode_header (header_json h) = Some h.
Proof.
  destruct h as [typ alg [k|]]; unfold header_json; cbn [ph_Typ ph_Alg ph_JWK]; [|reflexivity].
  assert (decode_field (decode_pointer decode_JWK no_jwk) (str "jwk") None
    [(str "typ", JStr typ); (str "alg", JStr alg); (str "jwk", jwk_json k)] = Some (Some k)) as Hj.
  { etransitivity; [apply (decode_field_one _ (str "jwk") None [(str "typ", JStr typ); (str "alg", JStr alg)] _ [])|].
    - done.
    - repeat constructor; by vm_compute.
    - constructor.
    - unfold jwk_json. cbn [decode_pointer default]. change (JObj _) with (jwk_json k).
      by rewrite decode_JWK_json. }
  unfold decode_header. cbn [members mbind option_bind]. rewrite Hj. reflexivity.
Qed.

Lemma decode_claims_json c : - 2 ^ 63 <= IAT c < 2 ^ 63 → decode_claims (claims_json c) = Some c.
Proof.
  destruct c as [jti htm htu iat nonce ath]. cbn [IAT]. intros Hi. unfold claims_json, omitempty.
  cbn [JTI HTM HTU IAT Nonce ATH]. unfold decode_claims. cbn [members mbind option_bind].
  remember (Itoa iat) as n eqn:En.
  assert (decode_int64 0 (JNum n) = Some iat) as Hn by (subst; cbn; by rewrite ParseInt_Itoa).
  destruct nonce, ath; vm_compute in Hn |- *; rewrite Hn; reflexivity.
Qed.

Lemma of_bytes_FillBytes n z b : 0 <= z → FillBytes n z = Done b → of_bytes b = z ∧ length b = n.
Proof.
  unfold FillBytes. intros Hz. destruct (z <? _) eqn:E0; [|done]. bools. intros [= <-].
  by rewrite of_bytes_be_bytes, be_bytes_length.
Qed.

Lemma DecodeString_b64 s : DecodeString RawURLEncoding (b64 s) = Some s.
Proof. apply DecodeString_EncodeToString. auto with go. Qed.

Lemma sized_b64 s n : length s = n → sized (b64 s) n = Ok s.
Proof. intros <-. unfold sized. rewrite DecodeString_b64. by rewrite Nat.eqb_refl. Qed.

Lemma nonempty_field_Bytes z : 0 < z → nonempty_field (b64 (big_Bytes z)) = Ok (big_Bytes z).
Proof.
  intros Hz. unfold nonempty_field. rewrite DecodeString_b64. destruct (_ =? 0)%nat eqn:E0; [|done]. bools.
  pose proof (of_bytes_big_Bytes z ltac:(lia)) as Hb. destruct (big_Bytes z); [|done]. cbn in Hb. lia.
Qed.

Lemma ec_jwk_public k c crv len : ec_curve (ec_public k) = c → octet_len c = len →
  ∃ xb yb, length xb = len ∧ length yb = len ∧ of_bytes xb = ec_X (ec_public k) ∧ of_bytes yb = ec_Y (ec_public k) ∧
    ec_jwk crv len (ec_public k) =
      Done {| Kty := str "EC"; Crv := crv; X := b64 xb; Y := b64 yb; N := []; E := []; Alg := []; Kid := [] |}.
Proof.
  intros Hc Hl. destruct (ec_coordinates k) as [Hx Hy]. rewrite Hc, Hl in Hx, Hy. unfold ec_jwk, FillBytes.
  rewrite (proj2 (Z.ltb_lt (ec_X (ec_public k)) _)) by apply Hx.
  rewrite (proj2 (Z.ltb_lt (ec_Y (ec_public k)) _)) by apply Hy.
  exists (be_bytes len (ec_X (ec_public k))), (be_bytes len (ec_Y (ec_public k))).
  by rewrite !be_bytes_length, !of_bytes_be_bytes.
Qed.

(** The keys proofs are made with, and what a successful encoding gives. *)
Definition encodes (p : pub_key) (jwk : JWK) (alg : bytes) : Prop :=
  JWKToPublicKey (Some jwk) = Ok p ∧ prohibited_alg alg = false ∧ Valid alg = true ∧
  Forall (λ f, Valid f = true) [Kty jwk; Crv jwk; X jwk; Y jwk; N jwk; E jwk; Alg jwk; Kid jwk].

Lemma PublicKeyToJWK_encodes k p jwk alg : (∀ q, k ≠ KSigner q) → extractPublicKey k = Done (Some p) →
  PublicKeyToJWK p = Done (Ok (jwk, alg)) → encodes p jwk alg.
Proof.
  pose proof (λ s, Valid_ascii _ (b64_ascii s)) as Hv.
  intros Hk. destruct k as [|[k|]|k|[k|]| |]; cbn [extractPublicKey]; try done.
  - intros [= <-]. cbn [PublicKeyToJWK]. destruct (ec_curve (ec_public k)) eqn:Ec; [| |done].
    + destruct (ec_jwk_public k P256 (str "P-256") 32 Ec eq_refl) as (xb & yb & Hx & Hy & Ex & Ey & ->).
      intros [= <- <-]. split_and!; [|done|done|repeat constructor; apply Hv].
      unfold JWKToPublicKey. cbn [Kty Crv X Y]. eval_eqb. cbn [mbind result_bind]. rewrite !sized_b64 by done. cbn [mbind result_bind].
      by rewrite Ex, Ey, <- Ec, ec_make_fields.
    + destruct (ec_jwk_public k P384 (str "P-384") 48 Ec eq_refl) as (xb & yb & Hx & Hy & Ex & Ey & ->).
      intros [= <- <-]. split_and!; [|done|done|repeat constructor; apply Hv].
      unfold JWKToPublicKey. cbn [Kty Crv X Y]. eval_eqb. cbn [mbind result_bind]. rewrite !sized_b64 by done. cbn [mbind result_bind].
      by rewrite Ex, Ey, <- Ec, ec_make_fields.
  - destruct (_ <? 32)%nat; [done|]. intros [= <-]. cbn [PublicKeyToJWK].
    rewrite (ed25519_public_size k). cbn [Nat.eqb negb]. intros [= <- <-].
    split_and!; [|done|done|repeat constructor; apply Hv].
    unfold JWKToPublicKey. cbn [Kty Crv X]. eval_eqb. cbn [negb].
    by rewrite sized_b64 by apply ed25519_public_size.
  - intros [= <-]. cbn [PublicKeyToJWK]. intros [= <- <-]. destruct (rsa_positive k) as [Hn He].
    split_and!; [|done|done|repeat constructor; apply Hv].
    rewrite Z.abs_eq by lia. unfold JWKToPublicKey. cbn [Kty N E]. eval_eqb. rewrite !nonempty_field_Bytes by lia. cbn [mbind result_bind].
    by rewrite !of_bytes_big_Bytes, wrap64_small, rsa_make_fields by lia.
  - by destruct (Hk p0).
Qed.

Lemma sign_ec_verifies rnd k len d sig : octet_len (ec_curve (ec_public k)) = len →
  sign_ec rnd k len d = Done (Ok sig) → verify_ec (ec_public k) len d sig = Ok ().
Proof.
  intros Hl. unfold sign_ec. destruct (ecdsa_Sign rnd k d) as [[r s]|] eqn:Es; [|done].
  destruct (ecdsa_range _ _ _ _ _ Es) as [Hr Hs]. rewrite Hl in *.
  destruct (FillBytes len r) as [a|] eqn:Ea; [|done]. destruct (FillBytes len s) as [b|] eqn:Eb; [|done].
  cbn. intros [= <-]. apply of_bytes_FillBytes in Ea as [Ha La], Eb as [Hb Lb]; [|lia..].
  unfold verify_ec. rewrite length_app, La, Lb. replace (len + len =? 2 * len)%nat with true by (symmetry; apply Nat.eqb_eq; lia).
  cbn [negb]. subst len. rewrite <- La at 1 2. rewrite take_app_exact, drop_app_exact, Ha, Hb.
  by rewrite (ecdsa_ok _ _ _ _ _ Es).
Qed.

Lemma signJWS_verifies rnd k p jwk alg input sig : extractPublicKey k = Done (Some p) →
  PublicKeyToJWK p = Done (Ok (jwk, alg)) → signJWS rnd k alg input = Done (Ok sig) →
  verifyJWSSignature p alg input sig = Ok ().
Proof.
  destruct k as [|[k|]|k|[k|]| |]; cbn [extractPublicKey signJWS]; try done.
  - intros [= <-]. cbn [PublicKeyToJWK]. destruct (ec_curve (ec_public k)) eqn:Ec; [| |done];
      (destruct (ec_jwk _ _ _); [|done]); intros [= <- <-]; cbn; by apply sign_ec_verifies; rewrite Ec.
  - destruct (_ <? 32)%nat; [done|]. intros [= <-]. cbn [PublicKeyToJWK]. destruct (negb _); [done|].
    intros [= <- <-]. destruct (negb (length k =? 64)%nat); [done|]. intros [= <-]. cbn.
    by rewrite ed25519_size, ed25519_ok.
  - intros [= <-] [= <- <-]. cbn. destruct (rsa_SignPKCS1v15 _ _ _) as [s|] eqn:Es; [|done].
    intros [= <-]. by rewrite (rsa_pkcs_ok _ _ _ _ Es).
Qed.

Lemma wf_header p jwk alg : encodes p jwk alg →
  wf_json 10000 (header_json {| ph_Typ := TypeDPoPJWT; ph_Alg := alg; ph_JWK := Some jwk |}).
Proof.
  intros (_ & _ & Ha & Hf). repeat match goal with H : Forall _ (_ :: _) |- _ => apply Forall_cons in H as [? H] end.
  split; [lia|]. cbn [foldr fst snd ph_Typ ph_Alg ph_JWK]. split_and!; try done. split; [lia|]. apply wf_members.
  constructor; [done|]. repeat apply Forall_app_2; by apply wf_omitempty.
Qed.

Lemma wf_claims c : Valid (JTI c) = true → Valid (HTM c) = true → Valid (HTU c) = true → Valid (Nonce c) = true →
  Valid (ATH c) = true → wf_json 10000 (claims_json c).
Proof.
  intros. split; [lia|]. apply wf_members. repeat apply Forall_app_2.
  - repeat constructor; try done; try apply Itoa_number.
  - by apply wf_omitempty.
  - by apply wf_omitempty.
Qed.

Lemma url64_graphic s : Forall (λ c, graphic c ∧ c ≠ "."%byte) (b64 s).
Proof.
  eapply Forall_impl; [apply EncodeToString_bytes; auto with go|]. intros c Hc. unfold graphic.
  destruct c; try discriminate Hc; (split; [vm_compute; split; congruence|congruence]).
Qed.

Lemma read_header_json p jwk alg : encodes p jwk alg →
  read_header (b64 (render (header_json {| ph_Typ := TypeDPoPJWT; ph_Alg := alg; ph_JWK := Some jwk |}))) =
  Ok ({| ph_Typ := TypeDPoPJWT; ph_Alg := alg; ph_JWK := Some jwk |}, jwk).
Proof.
  intros He. unfold read_header. rewrite DecodeString_b64, parse_json_render by (by eapply wf_header).
  cbn [mbind option_bind]. rewrite decode_header_json. cbn [ph_Typ ph_Alg ph_JWK].
  rewrite EqualFold_refl by done. destruct He as (_ & -> & _). done.
Qed.

Lemma read_claims_json c : wf_json 10000 (claims_json c) → - 2 ^ 63 <= IAT c < 2 ^ 63 → JTI c ≠ [] →
  read_claims (b64 (render (claims_json c))) = Ok c.
Proof.
  intros Hw Hi Hj. unfold read_claims. rewrite DecodeString_b64, parse_json_render by done.
  cbn [mbind option_bind]. rewrite decode_claims_json by done. by rewrite (proj2 (bytes_eqb_false _ _)).
Qed.

(** The three parts of a proof are found again. *)
Lemma split_proof h c s : let t := b64 h ++ str "." ++ b64 c ++ str "." ++ b64 s in
  b64 h ≠ [] → TrimSpace t = t ∧ t ≠ [] ∧ Split t "." = [b64 h; b64 c; b64 s].
Proof.
  intros t Hh. assert (∀ x, "."%byte ∉ b64 x) as Hd.
  { intros x Hx. pose proof (url64_graphic x) as Hg. rewrite Forall_forall in Hg. by destruct (Hg _ Hx). }
  assert (Forall graphic t) as Hg.
  { assert (∀ x, Forall graphic (b64 x)) as Hx.
    { intros x. eapply Forall_impl; [apply url64_graphic|]. by intros ? []. }
    unfold t. repeat apply Forall_app_2; try apply Hx; repeat constructor; vm_compute; congruence. }
  split_and!; [by apply TrimSpace_tight, tight_all|by unfold t; destruct (b64 h)|].
  unfold t. change (str ".") with ["."%byte]. cbn [app].
  by rewrite Split_app, Split_app, Split_word by done.
Qed.

(** ** Proofs verify *)

(** The claims of a proof for a request. *)
Definition claims_for (env : Env) (method normURI : bytes) (opt : ProofOptions) : ProofClaims :=
  proof_claims (if bytes_eqb (po_CustomJTI opt) [] then GenerateJTI (env_jti env) (env_now env) else po_CustomJTI opt)
    method normURI (default (env_now env) (po_IAT opt)) opt.

Lemma CreateProof_parts env key method uri opt proof : CreateProof env key method uri opt = Done (Ok proof) →
  ∃ p jwk alg norm sig,
    let h := render (header_json {| ph_Typ := TypeDPoPJWT; ph_Alg := alg; ph_JWK := Some jwk |}) in
    let c := render (claims_json (claims_for env method norm opt)) in
    extractPublicKey key = Done (Some p) ∧ PublicKeyToJWK p = Done (Ok (jwk, alg)) ∧
    NormalizeTargetURI uri = Ok norm ∧ encodes p jwk alg ∧
    verifyJWSSignature p alg (b64 h ++ str "." ++ b64 c) sig = Ok () ∧
    proof = b64 h ++ str "." ++ b64 c ++ str "." ++ b64 sig.
Proof.
  intros Hp. assert (∀ q, key ≠ KSigner q) as Hs.
  { intros q ->. cbn in Hp. destruct q as [q|]; [|done]. destruct (PublicKeyToJWK q) as [[[? ?]|]|]; try done.
    cbn in Hp. by destruct (NormalizeTargetURI uri). }
  assert (key ≠ KNil) as Hn by (by intros ->).
  assert ((pub ← extractPublicKey key;
      match pub with
      | None => Done (Err ErrUnsupportedKey)
      | Some pubKey =>
          '(jwk, defaultAlg) ←! PublicKeyToJWK pubKey;
          let headerB64 := b64 (render (header_json {| ph_Typ := TypeDPoPJWT; ph_Alg := defaultAlg; ph_JWK := Some jwk |})) in
          normURI ←! Done (NormalizeTargetURI uri);
          let claimsB64 := b64 (render (claims_json (claims_for env method normURI opt))) in
          let signingInput := headerB64 ++ str "." ++ claimsB64 in
          sigBytes ←! signJWS (env_rnd env) key defaultAlg signingInput;
          Done (Ok (signingInput ++ str "." ++ b64 sigBytes))
      end) = Done (Ok proof)) as Hq by (destruct key; done).
  clear Hp. destruct (extractPublicKey key) as [[p|]|] eqn:Ep; try done. cbn [mbind outcome_bind try_bind] in Hq.
  destruct (PublicKeyToJWK p) as [[[jwk alg]|]|] eqn:Ej; try done. cbn [mbind outcome_bind try_bind] in Hq.
  destruct (NormalizeTargetURI uri) as [norm|] eqn:En; [|done]. cbn [mbind outcome_bind try_bind] in Hq.
  destruct (signJWS _ _ _ _) as [[sig|]|] eqn:Eg; try done. apply Done_Ok_inj in Hq.
  exists p, jwk, alg, norm, sig. split_and!; try done.
  - by eapply PublicKeyToJWK_encodes.
  - exact (signJWS_verifies _ _ _ _ _ _ _ Ep Ej Eg).
  - by rewrite <- Hq, <- !app_assoc.
Qed.

(** What the verifier may know of the request: each setting is empty or agrees. *)
Definition agrees (cfg : VerifierConfig) (method uri : bytes) (opt : ProofOptions) : Prop :=
  (ExpectedMethod cfg = [] ∨ EqualFold (ToUpper (TrimSpace method)) (ExpectedMethod cfg) = true) ∧
  (ExpectedURI cfg = [] ∨ NormalizeTargetURI (ExpectedURI cfg) = NormalizeTargetURI uri) ∧
  (AccessToken cfg = [] ∨ AccessToken cfg = po_AccessToken opt) ∧
  (ExpectedNonce cfg = [] ∨ ExpectedNonce cfg = po_Nonce opt).

(** The proof was issued within the window, in years the clock represents. *)
Definition fresh (now iat : Z) (cfg : VerifierConfig) : Prop :=
  0 <= iat / Second < 2 ^ 62 ∧ - 2 ^ 63 * Second <= now + skew_of cfg < 2 ^ 63 * Second ∧
  age_of cfg + skew_of cfg < 2 ^ 63 ∧
  iat <= now + skew_of cfg ∧ now - iat / Second * Second <= age_of cfg + skew_of cfg.

Lemma skew_age_pos cfg : 0 < skew_of cfg ∧ 0 < age_of cfg.
Proof.
  unfold skew_of, age_of. destruct (AllowedClockSkew cfg <=? 0) eqn:?, (MaxAge cfg <=? 0) eqn:?; bools;
    split; try done; lia.
Qed.

Lemma check_claims_agree now cfg env method uri norm opt :
  NormalizeTargetURI uri = Ok norm → agrees cfg method uri opt → fresh now (default (env_now env) (po_IAT opt)) cfg →
  check_claims now cfg (claims_for env method norm opt) = Ok ().
Proof.
  set (iat := default _ _). intros Hn (Hm & Hu & Ha & Hc) (Hi & Hr & Hs & Hf & Ho). unfold check_claims, claims_for.
  pose proof (skew_age_pos cfg) as [Hk Hg]. cbn [HTM HTU IAT ATH Nonce proof_claims]. fold iat.
  assert (nonempty (ExpectedMethod cfg) && negb (EqualFold (ToUpper (TrimSpace method)) (ExpectedMethod cfg)) = false) as ->.
  { destruct Hm as [->| ->]; [done|]. by rewrite andb_false_r. }
  cbn [mbind result_bind].
  assert ((if nonempty (ExpectedURI cfg)
     then expectedNorm ← NormalizeTargetURI (ExpectedURI cfg);
          if bytes_eqb norm expectedNorm then Ok () else Err ErrURIMismatch
     else Ok ()) = (Ok () : result dpop_error unit)) as ->.
  { destruct Hu as [->|Hu]; [done|]. rewrite Hu, Hn. destruct (nonempty _); [|done]. cbn.
    by rewrite (proj2 (bytes_eqb_true _ _)). }
  cbn [mbind result_bind]. rewrite time_Unix_Unix, time_Add_small by done. unfold After.
  assert (iat / Second * Second <= iat) by (pose proof (Z.mul_div_le iat Second); unfold Second in *; lia).
  rewrite (proj2 (Z.ltb_ge _ _)) by lia.
  rewrite wrap64_small by lia. unfold time_Sub.
  rewrite (proj2 (Z.ltb_ge _ _)) by lia. cbn [mbind result_bind].
  assert (nonempty (AccessToken cfg) && negb (bytes_eqb (if nonempty (po_AccessToken opt) then
     ComputeAccessTokenHash (po_AccessToken opt) else []) (ComputeAccessTokenHash (AccessToken cfg))) = false) as ->.
  { destruct Ha as [->|Ha]; [done|]. rewrite Ha. destruct (nonempty (po_AccessToken opt)); [|done].
    by rewrite (proj2 (bytes_eqb_true _ _)). }
  cbn [mbind result_bind]. destruct Hc as [->|Hc]; [done|]. rewrite Hc, (proj2 (bytes_eqb_true _ _)) by done.
  by rewrite andb_false_r.
Qed.

Lemma Time_Unix_range t : - 2 ^ 63 <= Time_Unix t < 2 ^ 63.
Proof.
  unfold Time_Unix, wrap64. pose proof (Z.mod_pos_bound (t / Second - unixToInternal + 2 ^ 63) (2 ^ 64) ltac:(lia)). lia.
Qed.

(** C7: a proof created for a request is accepted by a verifier that expects that
    request, within the time window; the verifier gets the claims that were
    signed and the public key of the signing key. *)
Theorem created_proof_verifies env key method uri norm opt cfg now proof :
  CreateProof env key method uri opt = Done (Ok proof) → NormalizeTargetURI uri = Ok norm →
  let c := claims_for env method norm opt in
  Forall (λ t, Valid t = true) [JTI c; HTM c; HTU c; Nonce c] → JTI c ≠ [] →
  agrees cfg method uri opt → fresh now (default (env_now env) (po_IAT opt)) cfg →
  ∃ jwk p, VerifyProof now proof cfg = Ok (c, jwk) ∧
    extractPublicKey key = Done (Some p) ∧ JWKToPublicKey (Some jwk) = Ok p.
Proof.
  intros Hp Hn c Hv Hj Ha Hf. apply CreateProof_parts in Hp as (p & jwk & alg & norm' & sig & Ep & _ & En & He & Hs & ->).
  rewrite Hn in En. injection En as <-. fold c in Hs |- *.
  set (h := render (header_json _)) in *. set (t := render (claims_json c)) in *.
  exists jwk, p. split_and!; [|done|apply He].
  repeat match goal with H : Forall _ (_ :: _) |- _ => apply Forall_cons in H as [? H] end.
  destruct (split_proof h t sig) as (Ht & Hne & Hsp); [by unfold h|]. unfold VerifyProof. rewrite Ht.
  rewrite (proj2 (bytes_eqb_false _ _)) by done. rewrite Hsp.
  pose proof (read_header_json p jwk alg He) as Hh. fold h in Hh. rewrite Hh.
  cbn [mbind result_bind]. rewrite (proj1 He). cbn [mbind result_bind]. rewrite DecodeString_b64. cbn [ph_Alg].
  rewrite Hs. cbn [mbind result_bind]. unfold t.
  rewrite read_claims_json; [|apply wf_claims; try done|apply Time_Unix_range|done].
  - cbn [mbind result_bind]. unfold c. by rewrite (check_claims_agree now cfg env method uri norm opt).
  - unfold c, claims_for. cbn [ATH proof_claims]. destruct (nonempty _); [|done]. apply Valid_ascii, b64_ascii.
Qed.

Lemma check_claims_sound now cfg c : check_claims now cfg c = Ok () →
  (ExpectedMethod cfg ≠ [] → EqualFold (HTM c) (ExpectedMethod cfg) = true) ∧
  (ExpectedURI cfg ≠ [] → NormalizeTargetURI (ExpectedURI cfg) = Ok (HTU c)) ∧
  (AccessToken cfg ≠ [] → ATH c = ComputeAccessTokenHash (AccessToken cfg)) ∧
  (ExpectedNonce cfg ≠ [] → Nonce c = ExpectedNonce cfg) ∧
  time_Unix (IAT c) <= time_Add now (skew_of cfg) ∧
  time_Sub now (time_Unix (IAT c)) <= wrap64 (age_of cfg + skew_of cfg).
Proof.
  assert (∀ s b, nonempty s && negb b = false → s ≠ [] → b = true) as Hb.
  { intros s b Hs Hn. unfold nonempty in Hs. rewrite (proj2 (bytes_eqb_false _ _)) in Hs by done. by destruct b. }
  unfold check_claims, After. destruct (nonempty (ExpectedMethod cfg) && _) eqn:Em; [done|]. cbn [mbind result_bind].
  destruct (if nonempty (ExpectedURI cfg) then _ else _) as [[]|] eqn:Eu; [|done]. cbn [mbind result_bind].
  destruct (_ <? time_Unix (IAT c)) eqn:Ef; [done|].
  destruct (_ <? time_Sub now _) eqn:Eo; [done|]. cbn [mbind result_bind].
  destruct (nonempty (AccessToken cfg) && _) eqn:Ea; [done|]. cbn [mbind result_bind].
  destruct (nonempty (ExpectedNonce cfg) && _) eqn:Ex; [done|]. intros _. split_and!; intros; bools; try done.
  - by apply (Hb _ _ Em).
  - revert Eu. unfold nonempty. rewrite (proj2 (bytes_eqb_false _ _)) by done. cbn [negb].
    destruct (NormalizeTargetURI (ExpectedURI cfg)) as [norm|]; [|done]. cbn [mbind result_bind].
    destruct (bytes_eqb (HTU c) norm) eqn:Et; [|done]. by bools; subst.
  - apply bytes_eqb_true. by apply (Hb _ _ Ea).
  - apply bytes_eqb_true. by apply (Hb _ _ Ex).
Qed.

Lemma read_header_sound headerB64 header jwk : read_header headerB64 = Ok (header, jwk) →
  ∃ text v, DecodeString RawURLEncoding headerB64 = Some text ∧ parse_json text = Some v ∧ decode_header v = Some header ∧
    EqualFold (ph_Typ header) (str "dpop+jwt") = true ∧ ph_JWK header = Some jwk ∧
    EqualFold (ph_Alg header) (str "none") = false ∧ HasPrefix (ToUpper (ph_Alg header)) (str "HS") = false.
Proof.
  unfold read_header. destruct (DecodeString _ headerB64) as [text|]; [|done].
  destruct (parse_json text) as [v|] eqn:Ev; [|done]. cbn [mbind option_bind]. destruct (decode_header v) as [h|] eqn:Ed; [|done].
  destruct (EqualFold (ph_Typ h) TypeDPoPJWT) eqn:Et; [|done]. cbn [negb]. destruct (ph_JWK h) as [k|] eqn:Ek; [|done].
  unfold prohibited_alg. destruct (EqualFold (ph_Alg h) _) eqn:En; [done|]. destruct (HasPrefix _ _) eqn:Eh; [done|].
  intros [= <- <-]. exists text, v. by split_and!.
Qed.

Lemma read_claims_sound claimsB64 c : read_claims claimsB64 = Ok c →
  ∃ text v, DecodeString RawURLEncoding claimsB64 = Some text ∧ parse_json text = Some v ∧ decode_claims v = Some c ∧ JTI c ≠ [].
Proof.
  unfold read_claims. destruct (DecodeString _ claimsB64) as [text|]; [|done].
  destruct (parse_json text) as [v|] eqn:Ev; [|done]. cbn [mbind option_bind]. destruct (decode_claims v) as [c'|] eqn:Ed; [|done].
  destruct (bytes_eqb (JTI c') []) eqn:E0; [done|]. intros [= <-]. bools. exists text, v. by split_and!.
Qed.


(** ** Thumbprints *)

(** The required members of a key in the order of RFC 7638. *)
Definition thumbprint_json (k : JWK) : json :=
  if bytes_eqb (Kty k) (str "EC") then
    JObj [(str "crv", JStr (Crv k)); (str "kty", JStr (Kty k)); (str "x", JStr (X k)); (str "y", JStr (Y k))]
  else if bytes_eqb (Kty k) (str "OKP") then
    JObj [(str "crv", JStr (Crv k)); (str "kty", JStr (Kty k)); (str "x", JStr (X k))]
  else JObj [(str "e", JStr (E k)); (str "kty", JStr (Kty k)); (str "n", JStr (N k))].

Lemma quote_b64 s : quote_body (b64 s) = b64 s.
Proof.
  pose proof (EncodeToString_bytes RawURLEncoding ltac:(auto with go) s) as Hb. fold (b64 s) in Hb.
  induction Hb as [|c t Hc Ht IH]; [done|]. cbn [quote_body].
  assert ((bz c <? 128) = true ∧ quote_ascii c = [c]) as [-> ->] by (by destruct c).
  cbn [app]. by rewrite IH.
Qed.

Lemma canonical_render k : quote_body (Crv k) = Crv k → quote_body (X k) = X k → quote_body (Y k) = Y k →
  quote_body (N k) = N k → quote_body (E k) = E k → Kty k ∈ [str "EC"; str "OKP"; str "RSA"] →
  canonicalJSON k = Ok (render (thumbprint_json k)).
Proof.
  destruct k as [kty crv x y n e alg kid]. cbn [Kty Crv X Y N E]. intros Hc Hx Hy Hn He Hk.
  unfold canonicalJSON, thumbprint_json. cbn [Kty Crv X Y N E].
  rewrite !elem_of_cons in Hk. destruct Hk as [->|[->|[->|[]%not_elem_of_nil]]]; eval_eqb; f_equal;
    cbn; unfold quote_with; rewrite ?Hc, ?Hx, ?Hy, ?Hn, ?He; repeat (rewrite <- ?app_assoc; cbn [app]); reflexivity.
Qed.

(** The thumbprint of an encoded key is the hash of the canonical JSON text
    of RFC 7638, whatever the key. *)
Theorem thumbprint_canonical p jwk alg : PublicKeyToJWK p = Done (Ok (jwk, alg)) →
  ComputeThumbprint (Some jwk) = Ok (b64 (sha256 (render (thumbprint_json jwk)))).
Proof.
  intros Hp. unfold ComputeThumbprint. rewrite canonical_render; [done|..]; revert Hp;
    (destruct p as [p|p|p|]; cbn [PublicKeyToJWK]; [|destruct (negb _); [done|]| |done]);
    try (intros [= <- <-]; solve [apply quote_b64 | done | set_solver]);
    unfold ec_jwk; (destruct (ec_curve p); [| |done]);
    (destruct (FillBytes _ (ec_X p)); [|done]); cbn [mbind outcome_bind];
    (destruct (FillBytes _ (ec_Y p)); [|done]); cbn [mbind outcome_bind]; intros [= <- <-];
    solve [apply quote_b64 | done | set_solver].
Qed.
End keys.

(** ** A concrete key and request *)

Module DpopSample.
Definition sum (n : nat) (b : bytes) : bytes := be_bytes n (foldl (λ z c, (z * 31 + bz c) mod 65521) 7 b).

(** Checksums in place of cryptography; a public key is a curve and a small
    number, or a modulus and an exponent. *)
#[local] Instance toy : Crypto := {|
  sha256 := sum 32; sha384 := sum 48; sha512 := sum 64;
  hmac_sha256 := λ k m, sum 32 (k ++ m);
  ed25519_Public := λ k, sum 32 k;
  ed25519_Sign := λ k m, sum 64 (sum 32 k ++ m);
  ed25519_Verify := λ p m s, bytes_eqb s (sum 64 (p ++ m));
  ECPrivate := curve * Z; ECPublic := curve * Z; ec_curve := fst; ec_public := λ k, (k.1, k.2 mod 256);
  ecdsa_Sign := λ rnd k d, Some ((of_bytes d + k.2 mod 256) mod 256 ^ 32, of_bytes rnd mod 256 ^ 32);
  ecdsa_Verify := λ p d r s, r =? (of_bytes d + p.2) mod 256 ^ 32;
  RSAPrivate := Z; RSAPublic := Z * Z; rsa_public := λ k, (Z.abs k + 1, 65537);
  rsa_SignPSS := λ rnd k d, Some (big_Bytes (of_bytes d + Z.abs k + 1));
  rsa_VerifyPSS := λ k d s, bytes_eqb s (big_Bytes (of_bytes d + k.1));
  rsa_SignPKCS1v15 := λ rnd k d, Some (big_Bytes (of_bytes d * (Z.abs k + 1)));
  rsa_VerifyPKCS1v15 := λ k d s, bytes_eqb s (big_Bytes (of_bytes d * k.1))
|}.

#[local] Instance toy_laws : CryptoLaws.
Proof.
  assert (∀ x n, (32 <= n)%nat → 0 <= x mod 256 ^ 32 < 256 ^ Z.of_nat n) as Hr.
  { intros x n Hn. pose proof (Z.mod_pos_bound x (256 ^ 32) ltac:(lia)).
    assert (256 ^ 32 <= 256 ^ Z.of_nat n) by (apply Z.pow_le_mono_r; lia). lia. }
  split.
  - intros k. apply be_bytes_length.
  - intros k m. apply be_bytes_length.
  - intros k m. apply bytes_eqb_true. reflexivity.
  - intros rnd k d r s [= <- <-]. split; apply Hr; destruct (ec_curve _); simpl; lia.
  - intros rnd k d r s [= <- <-]. apply Z.eqb_refl.
  - intros rnd k d sig [= <-]. apply bytes_eqb_true. f_equal. cbn. lia.
  - intros rnd k d sig [= <-]. by apply bytes_eqb_true.
Qed.

#[local] Instance fields : KeyFields := {|
  ec_X := snd; ec_Y := λ _, 0; ec_make := λ c x _, (c, x);
  rsa_N := fst; rsa_E := snd; rsa_make := pair;
  rsa_SignPSS256 := λ rnd k d, Some (big_Bytes (of_bytes d + Z.abs k + 1));
  rsa_VerifyPSS256 := λ k d s, bytes_eqb s (big_Bytes (of_bytes d + k.1))
|}.

#[local] Instance field_laws : KeyLaws.
Proof.
  split.
  - by intros [].
  - intros k. cbn [ec_X ec_Y fields ec_public toy snd].
    assert (256 ^ 1 <= 256 ^ Z.of_nat (octet_len (ec_curve (ec_public k)))).
    { apply Z.pow_le_mono_r; [lia|]. destruct (ec_curve _); simpl; lia. }
    pose proof (Z.mod_pos_bound k.2 256). cbn in *. lia.
  - by intros [].
  - intros k. cbn. lia.
Qed.

#[local] Existing Instance ascii_case.

Definition key : priv_key := KEC (Some (P256, 77)).
Definition env : Env := {| env_jti := Some (str "some random bytes."); env_rnd := str "r"; env_now := (unixToInternal + 1700000000) * Second |}.
Definition opt : ProofOptions :=
  {| po_Nonce := str "n-1"; po_AccessToken := str "tok"; po_CustomJTI := []; po_IAT := None |}.
Definition uri : bytes := str "HTTPS://api.example.com/v1?page=2#top".
Definition proof : bytes := match CreateProof env key (str "post ") uri opt with Done (Ok p) => p | _ => [] end.
Definition norm : bytes := str "https://api.example.com/v1".
Definition cfg : VerifierConfig :=
  {| ExpectedMethod := str "POST"; ExpectedURI := str "https://api.example.com/v1"; AccessToken := str "tok";
     ExpectedNonce := str "n-1"; MaxAge := 0; AllowedClockSkew := 0 |}.

Lemma created : CreateProof env key (str "post ") uri opt = Done (Ok proof).
Proof. vm_compute. reflexivity. Qed.

Lemma created_proof_verifies_witness :
  ∃ jwk p, VerifyProof (env_now env + Minute) proof cfg = Ok (claims_for env (str "post ") norm opt, jwk) ∧
    extractPublicKey key = Done (Some p) ∧ JWKToPublicKey (Some jwk) = Ok p.
Proof.
  apply (created_proof_verifies env key (str "post ") uri norm opt cfg (env_now env + Minute) proof created).
  - vm_compute. reflexivity.
  - repeat constructor.
  - vm_compute. discriminate.
  - split_and!; right; vm_compute; reflexivity.
  - unfold fresh. vm_compute. split_and!; congruence.
Defined.

Definition claims : ProofClaims := claims_for env (str "post ") norm opt.
Definition public : pub_key := PubEC (P256, 77).
Definition jwk : JWK :=
  match PublicKeyToJWK public with Done (Ok (k, _)) => k | _ => no_jwk end.


Lemma thumbprint_canonical_witness :
  ComputeThumbprint (Some jwk) = Ok (b64 (sha256 (render (thumbprint_json jwk)))).
Proof. apply (thumbprint_canonical public jwk AlgES256). vm_compute. reflexivity. Defined.

(** The host keeps its case, and an empty query keeps its question mark. *)
Lemma host_case_kept : NormalizeTargetURI (str "https://API.Example.com/v1") = Ok (str "https://API.Example.com/v1").
Proof. vm_compute. reflexivity. Qed.

Lemma empty_query_kept : NormalizeTargetURI (str "https://api.example.com/v1?") = Ok (str "https://api.example.com/v1?").
Proof. vm_compute. reflexivity. Qed.

(** The algorithm of an Ed25519 header is not compared with the key. *)
Lemma ed25519_any_alg : ∀ alg m, verifyJWSSignature (PubEd (ed25519_Public (str "k"))) alg m (ed25519_Sign (str "k") m) = Ok ().
Proof. intros alg m. cbn [verifyJWSSignature]. by rewrite ed25519_size, ed25519_ok. Qed.
End DpopSample.
