(* ===== verification/Pkce.v ===== *)
(** * PKCE (src/auth/pkce/pkce.go)

    Code verifiers and challenges, and the comparison of redirect URIs.  The
    hash is a parameter, the random source a function from the number of bytes
    asked for. *)

From S2P Require Import Prelude GoLib GoText GoURL.

#[local] Open Scope Z_scope.

Inductive pkce_error := ErrVerifierLength | ErrInvalidMethod | ErrEntropy.

Definition MethodS256 : bytes := str "S256".
Definition MethodPlain : bytes := str "plain".

Record ChallengePair := { cp_Verifier : bytes; cp_Challenge : bytes; cp_Method : bytes }.

Definition GenerateVerifier (read : nat → option bytes) (len : Z) : result pkce_error bytes :=
  let len := if len <=? 0 then 64 else len in
  if (len <? 43) || (128 <? len) then Err ErrVerifierLength
  else
    let rawLen := len * 3 / 4 + (if negb (len * 3 mod 4 =? 0) then 1 else 0) in
    match read (Z.to_nat rawLen) with
    | None => Err ErrEntropy
    | Some buf =>
        let encoded := EncodeToString RawURLEncoding buf in
        Ok (if len <? Z.of_nat (length encoded) then take (Z.to_nat len) encoded else encoded)
    end.

Definition MustGenerateVerifier (read : nat → option bytes) (len : Z) : outcome bytes :=
  match GenerateVerifier read len with Ok v => Done v | Err _ => Panic end.

(** The first of the optional methods. *)
Definition method_of (method : list bytes) : bytes :=
  match method with m :: _ => if nonempty m then m else MethodS256 | [] => MethodS256 end.

Section pkce.
Variable sha256 : bytes → bytes.

Definition ComputeChallenge (verifier : bytes) (method : list bytes) : result pkce_error bytes :=
  if (length verifier <? 43)%nat || (128 <? length verifier)%nat then Err ErrVerifierLength
  else
    let m := method_of method in
    if bytes_eqb m MethodS256 then Ok (EncodeToString RawURLEncoding (sha256 verifier))
    else if bytes_eqb m MethodPlain then Ok verifier
    else Err ErrInvalidMethod.

Definition Validate (verifier challenge : bytes) (method : list bytes) : bool :=
  let m := method_of method in
  match ComputeChallenge verifier [m] with
  | Err _ => false
  | Ok computed =>
      if negb (length computed =? length challenge)%nat then false else bytes_eqb computed challenge
  end.

Definition New (read : nat → option bytes) (lens : list Z) : result pkce_error ChallengePair :=
  let l := match lens with n :: _ => if 0 <? n then n else 64 | [] => 64 end in
  verifier ← GenerateVerifier read l;
  challenge ← ComputeChallenge verifier [MethodS256];
  Ok {| cp_Verifier := verifier; cp_Challenge := challenge; cp_Method := MethodS256 |}.

(** ** Verifiers *)

(** A random source delivers what it is asked for. *)
Definition delivers (read : nat → option bytes) : Prop := ∀ n, ∃ b, read n = Some b ∧ length b = n.

Definition unreserved_char (c : byte) : bool :=
  is_digit c || between "a" "z" c || between "A" "Z" c || (c =b "-") || (c =b ".") || (c =b "_") || (c =b "~").

Lemma url64_unreserved s : Forall (λ c, unreserved_char c = true) (EncodeToString RawURLEncoding s).
Proof.
  assert (∀ v, 0 <= v < 64 → unreserved_char (b64_char RawURLEncoding v) = true) as Hc.
  { intros v Hv. assert (forallb (λ n, unreserved_char (b64_char RawURLEncoding (Z.of_nat n))) (seq 0 64) = true) as Ha
      by (vm_compute; reflexivity).
    rewrite forallb_forall in Ha. specialize (Ha (Z.to_nat v)). rewrite Z2Nat.id in Ha by lia. apply Ha, in_seq. lia. }
  induction s as [|x|x y|x y z s IH] using group_ind; cbn [EncodeToString]; [constructor| | |];
    [destruct (b64_sextets x x00 x00) as (?&?&?&?&?&?)
    |destruct (b64_sextets x y x00) as (?&?&?&?&?&?)
    |destruct (b64_sextets x y z) as (?&?&?&?&?&?)];
    repeat (apply Forall_cons; split; [by apply Hc|]); auto; constructor.
Qed.

Lemma raw_length n : 43 <= n <= 128 →
  let raw := n * 3 / 4 + (if negb (n * 3 mod 4 =? 0) then 1 else 0) in
  n <= (raw * 4 + 2) / 3 ∧ 0 <= raw.
Proof.
  intros Hn raw. assert (n * 3 <= raw * 4) as Hr.
  { unfold raw. pose proof (Z.div_mod (n * 3) 4 ltac:(lia)). pose proof (Z.mod_pos_bound (n * 3) 4 ltac:(lia)).
    destruct (_ =? 0) eqn:E; bools; cbn [negb]; lia. }
  split; [apply Z.div_le_lower_bound; lia|lia].
Qed.

(** With a working random source, a verifier has exactly the length asked for
    (64 by default), between 43 and 128, and consists of unreserved characters;
    any other length is refused. *)
Theorem verifier_length read l : delivers read →
  let n := if l <=? 0 then 64 else l in
  if (43 <=? n) && (n <=? 128)
  then ∃ v, GenerateVerifier read l = Ok v ∧ Z.of_nat (length v) = n ∧ Forall (λ c, unreserved_char c = true) v
  else GenerateVerifier read l = Err ErrVerifierLength.
Proof.
  intros Hread n. unfold GenerateVerifier. fold n. destruct ((43 <=? n) && (n <=? 128)) eqn:E.
  - bools. rewrite (proj2 (Z.ltb_ge n 43)), (proj2 (Z.ltb_ge 128 n)) by lia. cbn [orb].
    destruct (raw_length n ltac:(lia)) as [Hr Hp].
    set (raw := n * 3 / 4 + (if negb (n * 3 mod 4 =? 0) then 1 else 0)) in *.
    destruct (Hread (Z.to_nat raw)) as (b & -> & Hb). eexists. split; [done|].
    pose proof (EncodeToString_length RawURLEncoding b) as Hl. cbn [enc_pad RawURLEncoding] in Hl.
    rewrite Hb in Hl. assert (Z.of_nat (length (EncodeToString RawURLEncoding b)) = (raw * 4 + 2) / 3) as Hz.
    { rewrite Hl, Nat2Z.inj_div, Nat2Z.inj_add, Nat2Z.inj_mul, Z2Nat.id by lia. done. }
    destruct (n <? _) eqn:E'; bools.
    + split; [rewrite length_take; lia|]. apply Forall_take, url64_unreserved.
    + split; [lia|apply url64_unreserved].
  - apply andb_false_iff in E as [E|E]; bools.
    + by rewrite (proj2 (Z.ltb_lt n 43)).
    + by rewrite (proj2 (Z.ltb_lt 128 n)), orb_true_r.
Qed.

(** A verifier is accepted for exactly the challenge computed from it by the
    same method, and a generated pair is accepted. *)
Theorem validate_spec v c ms read ls :
  (Validate v c ms = true ↔ ComputeChallenge v ms = Ok c) ∧
  ∀ pair, New read ls = Ok pair → Validate (cp_Verifier pair) (cp_Challenge pair) [cp_Method pair] = true.
Proof.
  assert (∀ v ms, ComputeChallenge v [method_of ms] = ComputeChallenge v ms) as Hm.
  { intros v' ms'. unfold ComputeChallenge. assert (method_of [method_of ms'] = method_of ms') as ->; [|done].
    unfold method_of. destruct ms' as [|m ms']; [done|]. destruct (nonempty m) eqn:E; [by rewrite E|done]. }
  assert (∀ v c ms, Validate v c ms = true ↔ ComputeChallenge v ms = Ok c) as Hv.
  { intros v' c' ms'. unfold Validate. rewrite Hm. destruct (ComputeChallenge v' ms') as [d|]; [|done].
    destruct (_ =? _)%nat eqn:E; cbn [negb]; bools; [rewrite bytes_eqb_true|]; split; congruence. }
  split; [apply Hv|]. intros pair. unfold New. destruct (GenerateVerifier _ _) as [w|]; [|done]. cbn [mbind result_bind].
  destruct (ComputeChallenge w [MethodS256]) as [d|] eqn:E; [|done]. intros [= <-]. cbn. by apply Hv.
Qed.
End pkce.

(** ** Redirect URIs *)

Section redirect.
Context `{UnicodeCase}.

Definition isLoopbackHost (host : bytes) : bool :=
  let host := ToLower (TrimSpace host) in
  bytes_eqb host (str "localhost") || bytes_eqb host (str "127.0.0.1") || bytes_eqb host (str "::1") ||
  bytes_eqb host (str "[::1]").

Definition MatchRedirectURI (registeredURI requestURI : bytes) : bool :=
  if bytes_eqb registeredURI [] || bytes_eqb requestURI [] then false
  else if bytes_eqb registeredURI requestURI then true
  else
    match url_Parse registeredURI, url_Parse requestURI with
    | Some regURL, Some reqURL =>
        isLoopbackHost (Hostname regURL) && isLoopbackHost (Hostname reqURL) &&
        EqualFold (u_Scheme regURL) (u_Scheme reqURL) && bytes_eqb (u_Path regURL) (u_Path reqURL) &&
        bytes_eqb (u_RawQuery regURL) (u_RawQuery reqURL) && bytes_eqb (u_Fragment regURL) (u_Fragment reqURL)
    | _, _ => false
    end.

(** A redirect to anything but the registered URI is accepted only between
    loopback addresses, with the scheme (up to case), path, query and fragment
    of the registered one. *)
Theorem redirect_exact_unless_loopback reg req u : url_Parse reg = Some u →
  MatchRedirectURI reg req = true →
  reg = req ∨
  ∃ v, url_Parse req = Some v ∧ isLoopbackHost (Hostname u) = true ∧ isLoopbackHost (Hostname v) = true ∧
    EqualFold (u_Scheme u) (u_Scheme v) = true ∧ u_Path u = u_Path v ∧ u_RawQuery u = u_RawQuery v ∧
    u_Fragment u = u_Fragment v.
Proof.
  intros Hu. unfold MatchRedirectURI. destruct (_ || _); [done|]. destruct (bytes_eqb reg req) eqn:E; bools; [by left|].
  rewrite Hu. destruct (url_Parse req) as [v|]; [|done]. intros Hm. bools. right. by exists v.
Qed.
End redirect.

Module PkceSample.
Definition zeros (n : nat) : option bytes := Some (replicate n x00).

Lemma verifier_length_witness :
  ∃ v, GenerateVerifier zeros 45 = Ok v ∧ Z.of_nat (length v) = 45 ∧ Forall (λ c, unreserved_char c = true) v.
Proof. apply (verifier_length zeros 45). intros n. eexists. split; [done|]. apply length_replicate. Defined.

Definition first (s : bytes) : bytes := take 32 s.

Lemma validate_spec_witness :
  ∃ pair, New first zeros [50] = Ok pair ∧ Validate first (cp_Verifier pair) (cp_Challenge pair) [cp_Method pair] = true.
Proof.
  destruct (New first zeros [50]) as [pair|] eqn:E; [|vm_compute in E; discriminate E]. exists pair. split; [done|].
  by apply (validate_spec first [] [] [] zeros [50]).
Defined.

#[local] Existing Instance ascii_case.

(** Two loopback redirects may also differ in the host name and the user. *)
Definition registered : bytes := str "http://127.0.0.1:8000/cb".
Definition requested : bytes := str "http://evil@LOCALHOST:99/cb".

Lemma redirect_exact_unless_loopback_witness : ∃ v, url_Parse requested = Some v ∧ isLoopbackHost (Hostname v) = true.
Proof.
  destruct (url_Parse registered) as [u|] eqn:E; [|vm_compute in E; discriminate E].
  destruct (redirect_exact_unless_loopback registered requested u E) as [Hr|(v & Hv & _ & Hl & _)];
    [vm_compute; reflexivity|vm_compute in Hr; discriminate Hr|]. by exists v.
Defined.

Lemma loopback_host_and_user_ignored :
  MatchRedirectURI registered requested = true ∧ Hostname <$> url_Parse registered ≠ Hostname <$> url_Parse requested ∧
  u_User <$> url_Parse registered ≠ u_User <$> url_Parse requested.
Proof. vm_compute. split_and!; congruence. Qed.
End PkceSample.
