(* ===== verification/WebPush.v ===== *)
(** * Web push (src/webpush)

    Message encryption (encrypt.go), VAPID tokens (vapid.go) and the delivery of
    a notification (client.go).  Elliptic-curve Diffie-Hellman, HMAC, AES-GCM and
    ECDSA are a class of primitives. *)

From S2P Require Import Prelude GoLib GoText GoURL GoJson.

#[local] Open Scope Z_scope.

Inductive push_error :=
| ErrInvalidSubscription
| ErrInvalidP256DHKey
| ErrInvalidAuthSecret
| ErrInvalidVAPIDKeys
| ErrPayloadTooLarge
| ErrDecryptionFailed
| ErrPushRejected (status : Z) (body : bytes)
| ErrCrypto
| ErrJSON
| ErrTransport (n : Z).

Definition MaxPayloadSize : Z := 3993.
Definition DefaultRecordSize : Z := 4096.
Definition HeaderLength : nat := 86.

Record Keys := { k_P256DH : bytes; k_Auth : bytes }.
Record Subscription := { s_Endpoint : bytes; s_Keys : Keys }.

(** [PrivateKey], [PublicKey]: ECDH keys on P-256; [SigningKey]: ECDSA keys. *)
Class PushCrypto := {
  hmacSHA256 : bytes → bytes → bytes;
  sha256 : bytes → bytes;
  PrivateKey : Type;
  PublicKey : Type;
  public_of : PrivateKey → PublicKey;
  Bytes : PublicKey → bytes;
  NewPublicKey : bytes → option PublicKey;
  ECDH : PrivateKey → PublicKey → option bytes;
  gcm_Seal : bytes → bytes → bytes → bytes;
  gcm_Open : bytes → bytes → bytes → option bytes;
  ScalarBaseMult : bytes → Z * Z;
  IsOnCurve : Z → Z → bool;
  ecdsa_Sign : bytes → Z → bytes → option (Z * Z);
  ecdsa_Verify : Z * Z → bytes → Z → Z → bool
}.

(** What the packages document: point encodings are uncompressed, both ends
    agree on the secret, which exists for any two keys of the curve, a sealed text opens with the same key and nonce and has
    a 16-byte tag, an ECDSA signature made with a scalar verifies under its
    point. *)
Class PushLaws `{PushCrypto} : Prop := {
  hmac_size : ∀ k m, length (hmacSHA256 k m) = 32%nat;
  Bytes_form : ∀ p, ∃ t, Bytes p = x04 :: t ∧ length t = 64%nat;
  NewPublicKey_Bytes : ∀ p, NewPublicKey (Bytes p) = Some p;
  ECDH_agree : ∀ a b, ECDH a (public_of b) = ECDH b (public_of a);
  ECDH_total : ∀ a b, is_Some (ECDH a (public_of b));
  gcm_open_seal : ∀ k n m, gcm_Open k n (gcm_Seal k n m) = Some m;
  gcm_tag : ∀ k n m, length (gcm_Seal k n m) = (length m + 16)%nat;
  ScalarBaseMult_point : ∀ d, let '(x, y) := ScalarBaseMult d in
    0 <= x < 2 ^ 256 ∧ 0 <= y < 2 ^ 256 ∧ (IsOnCurve x y = true ∨ x = 0 ∧ y = 0);
  ecdsa_sound : ∀ rnd d h r s, ecdsa_Sign rnd d h = Some (r, s) →
    0 <= r < 2 ^ 256 ∧ 0 <= s < 2 ^ 256 ∧ ecdsa_Verify (ScalarBaseMult (be_bytes 32 d)) h r s = true
}.

(** ** Base64 *)

Definition decodeBase64URL (s : bytes) : option bytes :=
  let s := TrimSpace s in
  let m := (length s mod 4)%nat in
  let s := if negb (m =? 0)%nat then s ++ replicate (4 - m) "="%byte else s in
  DecodeString URLEncoding s.

Lemma pad_length s : EncodeToString URLEncoding s =
  EncodeToString RawURLEncoding s ++
  replicate (if length (EncodeToString RawURLEncoding s) mod 4 =? 0 then 0
             else 4 - length (EncodeToString RawURLEncoding s) mod 4)%nat "="%byte.
Proof.
  induction s as [|x|x y|x y z s IH] using group_ind; cbn [EncodeToString]; try reflexivity.
  unfold b64_char in *. cbn [enc_alphabet URLEncoding RawURLEncoding] in *.
  change (enc_alphabet URLEncoding) with (letters ++ str "-_") in *.
  change (enc_alphabet RawURLEncoding) with (letters ++ str "-_") in *.
  rewrite IH. cbn [length app]. do 4 f_equal.
  set (n := length _). replace (S (S (S (S n))) mod 4)%nat with (n mod 4)%nat; [done|].
  replace (S (S (S (S n)))) with (n + 1 * 4)%nat by lia. by rewrite Nat.Div0.mod_add.
Qed.

Lemma url64_tight e s : enc_ok e = true → tight (EncodeToString e s).
Proof.
  intros He. apply tight_all. eapply Forall_impl; [by apply EncodeToString_bytes|]. intros c Hc. unfold graphic.
  destruct c; try discriminate Hc; vm_compute; split; congruence.
Qed.

Lemma url64_nonempty b : b ≠ [] → bytes_eqb (EncodeToString RawURLEncoding b) [] = false.
Proof. intros Hb. apply bytes_eqb_false. by destruct b as [|? [|? [|? ?]]]. Qed.

(** The unpadded form is read. *)
Lemma decode_raw s : decodeBase64URL (EncodeToString RawURLEncoding s) = Some s.
Proof.
  unfold decodeBase64URL. rewrite TrimSpace_tight by (apply url64_tight; auto with go).
  rewrite <- (DecodeString_EncodeToString URLEncoding ltac:(auto with go) s), pad_length.
  destruct (_ =? 0)%nat eqn:E; cbn [negb replicate]; [by rewrite app_nil_r|done].
Qed.

(** ** Encryption *)

Section encrypt.
Context `{PushCrypto}.

Record EncryptConfig := { cf_Salt : bytes; cf_SenderPriv : option PrivateKey; cf_RecordSize : Z }.

(** What the random source delivers: an ephemeral key and a salt. *)
Record Entropy := { en_key : option PrivateKey; en_salt : option bytes }.

(** The content-encryption key and the nonce, derived by HKDF; the same lines
    stand in [encryptWithKeys] and in [Decrypt]. *)
Definition derive (authSecret ecdhSecret uaPubBytes asPubBytes salt : bytes) : bytes * bytes :=
  let prkKey := hmacSHA256 authSecret ecdhSecret in
  let keyInfo := str "WebPush: info" ++ [x00] ++ uaPubBytes ++ asPubBytes ++ [x01] in
  let ikm := hmacSHA256 prkKey keyInfo in
  let prk := hmacSHA256 salt ikm in
  (take 16 (hmacSHA256 prk (str "Content-Encoding: aes128gcm" ++ [x00; x01])),
   take 12 (hmacSHA256 prk (str "Content-Encoding: nonce" ++ [x00; x01]))).

(** [copy] into the region [lo, hi) of a buffer. *)
Definition copy_region (buf : bytes) (lo hi : nat) (src : bytes) : bytes :=
  let n := Nat.min (hi - lo) (length src) in
  take lo buf ++ take n src ++ drop (lo + n) buf.

Definition ece_header (salt : bytes) (rs : Z) (asPubBytes : bytes) : bytes :=
  let h := replicate HeaderLength x00 in
  let h := copy_region h 0 16 salt in
  let h := copy_region h 16 20 (be32 rs) in
  let h := <[20%nat := zb (Z.of_nat (length asPubBytes))]> h in
  copy_region h 21 86 asPubBytes.

Definition encryptWithKeys (en : Entropy) (plaintext : bytes) (uaPub : PublicKey) (authSecret : bytes)
    (cfg : option EncryptConfig) : result push_error bytes :=
  match (match (c ← cfg; cf_SenderPriv c) with Some k => Some k | None => en_key en end) with
  | None => Err ErrCrypto
  | Some asPriv =>
      let asPubBytes := Bytes (public_of asPriv) in
      let fixed := match cfg with
                   | Some c => if (length (cf_Salt c) =? 16)%nat then Some (cf_Salt c) else en_salt en
                   | None => en_salt en
                   end in
      match fixed with
      | None => Err ErrCrypto
      | Some salt =>
          let rs := match cfg with Some c => if 0 <? cf_RecordSize c then cf_RecordSize c else DefaultRecordSize
                                 | None => DefaultRecordSize end in
          match ECDH asPriv uaPub with
          | None => Err ErrCrypto
          | Some ecdhSecret =>
              let '(cek, nonce) := derive authSecret ecdhSecret (Bytes uaPub) asPubBytes salt in
              let header := ece_header salt rs asPubBytes in
              Ok (header ++ gcm_Seal cek nonce (plaintext ++ [x02]))
          end
      end
  end.

Definition Encrypt (en : Entropy) (plaintext : bytes) (sub : option Subscription) (cfg : option EncryptConfig) :
    result push_error bytes :=
  match sub with
  | None => Err ErrInvalidSubscription
  | Some sub =>
      if bytes_eqb (k_P256DH (s_Keys sub)) [] || bytes_eqb (k_Auth (s_Keys sub)) [] then Err ErrInvalidSubscription
      else if MaxPayloadSize <? Z.of_nat (length plaintext) then Err ErrPayloadTooLarge
      else
        match decodeBase64URL (k_P256DH (s_Keys sub)) with
        | Some uaPubBytes =>
            if negb (length uaPubBytes =? 65)%nat || negb (bool_decide (head uaPubBytes = Some x04))
            then Err ErrInvalidP256DHKey
            else
              match decodeBase64URL (k_Auth (s_Keys sub)) with
              | Some authSecret =>
                  if negb (length authSecret =? 16)%nat then Err ErrInvalidAuthSecret
                  else match NewPublicKey uaPubBytes with
                       | None => Err ErrCrypto
                       | Some uaPub => encryptWithKeys en plaintext uaPub authSecret cfg
                       end
              | None => Err ErrInvalidAuthSecret
              end
        | None => Err ErrInvalidP256DHKey
        end
  end.

(** The loop that strips the padding: the bytes are visited from the end. *)
Fixpoint strip_padding (rev_text : bytes) : option bytes :=
  match rev_text with
  | [] => None
  | c :: t => if c =b x00 then strip_padding t else if c =b x02 then Some (rev t) else None
  end.

Definition Decrypt (payload : bytes) (uaPriv : option PrivateKey) (authSecret : bytes) : result push_error bytes :=
  if (length payload <? HeaderLength + 16)%nat then Err ErrDecryptionFailed
  else match uaPriv with
  | None => Err ErrInvalidSubscription
  | Some uaPriv =>
      if negb (length authSecret =? 16)%nat then Err ErrInvalidSubscription
      else
        let salt := take 16 payload in
        let idLen := bz (default x00 (payload !! 20%nat)) in
        if negb (idLen =? 65) || (Z.of_nat (length payload) <? 21 + idLen) then Err ErrDecryptionFailed
        else
          let asPubBytes := take (Z.to_nat idLen) (drop 21 payload) in
          let ciphertext := drop HeaderLength payload in
          match NewPublicKey asPubBytes with
          | None => Err ErrDecryptionFailed
          | Some asPub =>
              match ECDH uaPriv asPub with
              | None => Err ErrDecryptionFailed
              | Some ecdhSecret =>
                  let '(cek, nonce) := derive authSecret ecdhSecret (Bytes (public_of uaPriv)) asPubBytes salt in
                  match gcm_Open cek nonce ciphertext with
                  | None => Err ErrDecryptionFailed
                  | Some padded =>
                      match strip_padding (rev padded) with
                      | None => Err ErrDecryptionFailed
                      | Some text => Ok text
                      end
                  end
              end
          end
  end.
End encrypt.

Section roundtrip.
Context `{PushLaws}.

Lemma Bytes_length p : length (Bytes p) = 65%nat.
Proof. destruct (Bytes_form p) as (t & -> & Ht). simpl. lia. Qed.

Lemma copy_region_exact pre mid post lo hi src : length pre = lo → length mid = (hi - lo)%nat →
  length src = (hi - lo)%nat → copy_region (pre ++ mid ++ post) lo hi src = pre ++ src ++ post.
Proof.
  intros Hp Hm Hs. unfold copy_region. rewrite Hs, Nat.min_id. subst lo. rewrite take_app_exact, (take_ge src) by lia.
  by rewrite (app_assoc pre mid post), <- Hm, <- length_app, drop_app_exact.
Qed.

(** Salt, record size, length of the key id and key id, 86 bytes in all. *)
Lemma ece_header_layout salt rs p : length salt = 16%nat →
  ece_header salt rs (Bytes p) = salt ++ be32 rs ++ [x41] ++ Bytes p.
Proof.
  intros Hs. pose proof (Bytes_length p) as Hp. unfold ece_header. rewrite Hp.
  change (zb (Z.of_nat 65)) with x41.
  change (replicate HeaderLength x00) with ([] ++ replicate 16 x00 ++ replicate 70 x00).
  rewrite copy_region_exact by (done || lia). cbn [app].
  change (replicate 70 x00) with (replicate 4 x00 ++ x00 :: replicate 65 x00).
  rewrite copy_region_exact by (done || lia).
  rewrite (app_assoc salt (be32 rs) (x00 :: replicate 65 x00)).
  assert (@insert nat byte bytes _ 20%nat x41 ((salt ++ be32 rs) ++ x00 :: replicate 65 x00) =
          (salt ++ be32 rs) ++ x41 :: replicate 65 x00) as ->.
  { pose proof (insert_app_r (salt ++ be32 rs) (x00 :: replicate 65 x00) 0 x41) as Hi.
    rewrite length_app, Hs in Hi. exact Hi. }
  change (x41 :: replicate 65 x00) with ([x41] ++ replicate 65 x00 ++ []). rewrite app_assoc.
  rewrite copy_region_exact; [|rewrite !length_app, Hs; done|done|done]. by rewrite app_nil_r, <- !app_assoc.
Qed.

Lemma ece_header_length salt rs p : length salt = 16%nat → length (ece_header salt rs (Bytes p)) = HeaderLength.
Proof. intros Hs. rewrite ece_header_layout, !length_app, Hs, Bytes_length by done. reflexivity. Qed.

(** The fields of a payload are where [Decrypt] looks for them. *)
Lemma payload_parts salt rs p c (pl : bytes) : length salt = 16%nat → pl = ece_header salt rs (Bytes p) ++ c →
  length pl = (HeaderLength + length c)%nat ∧ take 16 pl = salt ∧ pl !! 20%nat = Some x41 ∧
  take (Z.to_nat 65) (drop 21 pl) = Bytes p ∧ drop HeaderLength pl = c.
Proof.
  intros Hs Hp. pose proof (ece_header_length salt rs p Hs) as Hh.
  split_and!; [by rewrite Hp, length_app, Hh| | | |by rewrite Hp, <- Hh, drop_app_exact];
    rewrite ece_header_layout, <- !app_assoc in Hp by done.
  - by rewrite Hp, <- Hs, take_app_exact.
  - rewrite app_assoc in Hp. pose proof (lookup_app_r (salt ++ be32 rs) ([x41] ++ Bytes p ++ c) 20) as Hl.
    rewrite length_app, Hs in Hl. rewrite Hp. apply Hl. simpl. lia.
  - rewrite app_assoc, (app_assoc (salt ++ be32 rs)) in Hp. rewrite Hp.
    pose proof (drop_app_exact ((salt ++ be32 rs) ++ [x41]) (Bytes p ++ c)) as Hd.
    rewrite !length_app, Hs in Hd. change (16 + length (be32 rs) + length [x41])%nat with 21%nat in Hd. rewrite Hd.
    change (Z.to_nat 65) with 65%nat. rewrite <- (Bytes_length p). apply take_app_exact.
Qed.

Lemma strip_padding_text t : strip_padding (rev (t ++ [x02])) = Some t.
Proof. rewrite rev_unit. cbn. by rewrite rev_involutive. Qed.

(** A random source that delivers delivers a salt of 16 bytes. *)
Definition salted (en : Entropy) : Prop := ∀ b, en_salt en = Some b → length b = 16%nat.

Lemma encrypt_decrypt en plaintext ua authSecret cfg payload : salted en → length authSecret = 16%nat →
  encryptWithKeys en plaintext (public_of ua) authSecret cfg = Ok payload →
  length payload = (HeaderLength + length plaintext + 17)%nat ∧
  Decrypt payload (Some ua) authSecret = Ok plaintext.
Proof.
  intros Hen Ha. unfold encryptWithKeys.
  destruct (match _ ≫= _ with Some k => Some k | None => en_key en end) as [k|]; [|done].
  destruct (match cfg with Some c => _ | None => _ end) as [salt|] eqn:Es; [|done].
  assert (length salt = 16%nat) as Hs.
  { destruct cfg as [c|]; [|by apply Hen]. destruct (_ =? 16)%nat eqn:E; [|by apply Hen]. bools. by injection Es as <-. }
  destruct (ECDH k (public_of ua)) as [secret|] eqn:Ee; [|done]. destruct (derive _ _ _ _ _) as [cek nonce] eqn:Ed.
  set (rs := match cfg with Some c => _ | None => _ end). intros [= <-].
  set (c := gcm_Seal cek nonce (plaintext ++ [x02])).
  assert (length c = (length plaintext + 17)%nat) as Hc by (unfold c; rewrite gcm_tag, length_app; simpl; lia).
  destruct (payload_parts salt rs (public_of k) c _ Hs eq_refl) as (Hl & H1 & H2 & H3 & H4).
  split; [rewrite Hl, Hc; lia|]. unfold Decrypt.
  rewrite Hl, (proj2 (Nat.ltb_ge _ _)), Ha, Nat.eqb_refl by lia. cbn [negb].
  rewrite H1, H2, H4. change (bz (default x00 (Some x41))) with 65.
  assert ((Z.of_nat (HeaderLength + length c) <? 21 + 65) = false) as -> by (apply Z.ltb_ge; unfold HeaderLength; lia).
  cbn [negb orb Z.eqb Pos.eqb]. rewrite H3.
  rewrite NewPublicKey_Bytes, ECDH_agree, Ee, Ed. unfold c. rewrite gcm_open_seal. by rewrite strip_padding_text.
Qed.

(** The subscription a user agent hands out. *)
Definition subscription (ep : bytes) (ua : PrivateKey) (auth : bytes) : Subscription :=
  {| s_Endpoint := ep;
     s_Keys := {| k_P256DH := EncodeToString RawURLEncoding (Bytes (public_of ua));
                  k_Auth := EncodeToString RawURLEncoding auth |} |}.

Lemma Encrypt_subscription en plaintext ep ua auth cfg : length auth = 16%nat →
  Z.of_nat (length plaintext) <= MaxPayloadSize →
  Encrypt en plaintext (Some (subscription ep ua auth)) cfg = encryptWithKeys en plaintext (public_of ua) auth cfg.
Proof.
  intros Ha Hl. unfold Encrypt. cbn [s_Keys subscription k_P256DH k_Auth]. rewrite !decode_raw, Bytes_length, Ha.
  destruct (Bytes_form (public_of ua)) as (t & Ht & _). rewrite (proj2 (Z.ltb_ge _ _)) by done.
  rewrite !url64_nonempty by (by rewrite ?Ht; destruct auth). cbn [orb]. rewrite bool_decide_eq_true_2 by (by rewrite Ht).
  cbn [Nat.eqb negb orb]. by rewrite NewPublicKey_Bytes.
Qed.

(** C16: a message of up to 3993 bytes is encrypted for a subscription into a
    record of at most 4096 bytes that the user agent decrypts to the message; a
    longer one is refused. *)
Theorem push_message_roundtrip en plaintext ep ua auth cfg :
  salted en → is_Some (en_key en) → is_Some (en_salt en) → length auth = 16%nat →
  if Z.of_nat (length plaintext) <=? MaxPayloadSize
  then ∃ payload, Encrypt en plaintext (Some (subscription ep ua auth)) cfg = Ok payload ∧
         Z.of_nat (length payload) = Z.of_nat (length plaintext) + 103 ∧
         Z.of_nat (length payload) <= DefaultRecordSize ∧
         Decrypt payload (Some ua) auth = Ok plaintext
  else Encrypt en plaintext (Some (subscription ep ua auth)) cfg = Err ErrPayloadTooLarge.
Proof.
  intros Hen [k Hk] [salt Hs] Ha. destruct (_ <=? _) eqn:E; bools.
  - rewrite Encrypt_subscription by done.
    assert (∃ payload, encryptWithKeys en plaintext (public_of ua) auth cfg = Ok payload) as [payload Hp].
    { unfold encryptWithKeys. rewrite Hk, Hs. destruct (_ ≫= _) as [k'|];
        (destruct (match cfg with Some c => _ | None => _ end) eqn:Ec; [|destruct cfg; [by destruct (_ =? 16)%nat|done]]);
        [destruct (ECDH_total k' ua) as [x ->]|destruct (ECDH_total k ua) as [x ->]];
        destruct (derive _ _ _ _ _); eauto. }
    exists payload. destruct (encrypt_decrypt en plaintext ua auth cfg payload Hen Ha Hp) as [Hl Hd].
    unfold MaxPayloadSize, DefaultRecordSize, HeaderLength in *. split_and!; [done|lia|lia|done].
  - unfold Encrypt. cbn [s_Keys subscription k_P256DH k_Auth].
    destruct (Bytes_form (public_of ua)) as (t & Ht & _).
    rewrite !url64_nonempty by (by rewrite ?Ht; destruct auth). cbn [orb]. by rewrite (proj2 (Z.ltb_lt _ _)).
Qed.
End roundtrip.

(** ** VAPID keys and tokens *)

Section vapid.
Context `{PushCrypto} `{UnicodeCase}.

(** An ECDSA private key: scalar and point. *)
Record SigningKey := { sk_D : option Z; sk_X : Z; sk_Y : Z }.
Record VAPIDKeys := { vk_PrivateKey : option SigningKey; vk_PublicKey : option (Z * Z) }.

Definition GenerateVAPIDKeys (generated : option SigningKey) : result push_error VAPIDKeys :=
  match generated with
  | None => Err ErrCrypto
  | Some priv => Ok {| vk_PrivateKey := Some priv; vk_PublicKey := Some (sk_X priv, sk_Y priv) |}
  end.

Definition NewVAPIDKeysFromRaw (privBytes : bytes) : result push_error VAPIDKeys :=
  if negb (length privBytes =? 32)%nat then Err ErrInvalidVAPIDKeys
  else
    let '(x, y) := ScalarBaseMult privBytes in
    Ok {| vk_PrivateKey := Some {| sk_D := Some (of_bytes privBytes); sk_X := x; sk_Y := y |};
          vk_PublicKey := Some (x, y) |}.

Definition NewVAPIDKeys (privateKeyBase64 publicKeyBase64 : bytes) : result push_error VAPIDKeys :=
  match decodeBase64URL privateKeyBase64 with
  | None => Err ErrInvalidVAPIDKeys
  | Some privBytes => NewVAPIDKeysFromRaw privBytes
  end.

(** [elliptic.Marshal] on P-256: it panics off the curve. *)
Definition elliptic_Marshal (x y : Z) : outcome bytes :=
  if negb (IsOnCurve x y) && negb ((x =? 0) && (y =? 0)) then Panic
  else a ← FillBytes 32 x; b ← FillBytes 32 y; Done (x04 :: a ++ b).

Definition PublicKeyBase64 (k : option VAPIDKeys) : outcome bytes :=
  match k with
  | Some {| vk_PublicKey := Some (x, y) |} => raw ← elliptic_Marshal x y; Done (EncodeToString RawURLEncoding raw)
  | _ => Done []
  end.

Definition PrivateKeyBase64 (k : option VAPIDKeys) : outcome bytes :=
  match k with
  | Some {| vk_PrivateKey := Some {| sk_D := Some d |} |} =>
      dBytes ← FillBytes 32 d; Done (EncodeToString RawURLEncoding dBytes)
  | _ => Done []
  end.

Definition jwtHeader_json : json := JObj [(str "typ", JStr (str "JWT")); (str "alg", JStr (str "ES256"))].
Definition jwtClaims_json (aud : bytes) (exp : Z) (sub : bytes) : json :=
  JObj ([(str "aud", JStr aud); (str "exp", JNum (Itoa exp))] ++ omitempty (str "sub") sub).

Definition jwt_ttl (ttl : Z) : Z := if (ttl <=? 0) || (24 * Hour <? ttl) then 12 * Hour else ttl.

Definition url64 (s : bytes) : bytes := EncodeToString RawURLEncoding s.

(** [rnd] is the randomness of the signature. *)
Definition SignJWT (now : Z) (rnd : bytes) (k : option VAPIDKeys) (endpoint subject : bytes) (ttl : Z) :
    outcome (result push_error bytes) :=
  match k with
  | Some {| vk_PrivateKey := Some priv |} =>
      match url_Parse endpoint with
      | None => Done (Err ErrInvalidSubscription)
      | Some u =>
          if bytes_eqb (u_Scheme u) [] || bytes_eqb (u_Host u) [] then Done (Err ErrInvalidSubscription)
          else
            let aud := u_Scheme u ++ str "://" ++ u_Host u in
            let exp := Time_Unix (time_Add now (jwt_ttl ttl)) in
            let signingInput := url64 (render jwtHeader_json) ++ str "." ++ url64 (render (jwtClaims_json aud exp subject)) in
            match sk_D priv with
            | None => Panic
            | Some d =>
                match ecdsa_Sign rnd d (sha256 signingInput) with
                | None => Done (Err ErrCrypto)
                | Some (r, s) =>
                    a ← FillBytes 32 r; b ← FillBytes 32 s;
                    Done (Ok (signingInput ++ str "." ++ url64 (a ++ b)))
                end
            end
      end
  | _ => Done (Err ErrInvalidVAPIDKeys)
  end.

Definition AuthorizationHeader (now : Z) (rnd : bytes) (k : option VAPIDKeys) (endpoint subject : bytes) (ttl : Z) :
    outcome (result push_error bytes) :=
  jwtToken ←! SignJWT now rnd k endpoint subject ttl;
  pubKeyB64 ← PublicKeyBase64 k;
  Done (Ok (str "vapid t=" ++ jwtToken ++ str ", k=" ++ pubKeyB64)).
End vapid.

Section tokens.
Context `{PushLaws} `{UnicodeCase}.

(** The private key of a key pair, written out and read again, gives the same
    pair, whatever is passed as the public key. *)
Theorem vapid_keys_roundtrip raw k pub : NewVAPIDKeysFromRaw raw = Ok k →
  ∃ t, PrivateKeyBase64 (Some k) = Done t ∧ NewVAPIDKeys t pub = Ok k.
Proof.
  unfold NewVAPIDKeysFromRaw at 1. destruct (length raw =? 32)%nat eqn:E; [|done]. cbn [negb]. bools.
  destruct (ScalarBaseMult raw) as [x y] eqn:Es. intros [= <-]. cbn [PrivateKeyBase64].
  pose proof (of_bytes_range raw) as Hr. rewrite E in Hr. unfold FillBytes. rewrite (proj2 (Z.ltb_lt _ _)) by lia.
  cbn [mbind outcome_bind]. eexists. split; [done|]. unfold NewVAPIDKeys. rewrite decode_raw.
  rewrite <- E at 1. rewrite be_bytes_of_bytes. unfold NewVAPIDKeysFromRaw. by rewrite E, Es.
Qed.

Lemma jwt_ttl_range ttl : 0 < jwt_ttl ttl <= 24 * Hour.
Proof. unfold jwt_ttl. destruct (_ || _) eqn:E; [unfold Hour, Minute, Second; lia|]. bools. lia. Qed.

Lemma FillBytes_32 z : 0 <= z < 2 ^ 256 → FillBytes 32 z = Done (be_bytes 32 z) ∧ of_bytes (be_bytes 32 z) = z.
Proof.
  intros Hz. unfold FillBytes. change (256 ^ Z.of_nat 32) with (2 ^ 256). rewrite (proj2 (Z.ltb_lt _ _)) by lia.
  split; [done|]. by apply of_bytes_be_bytes.
Qed.

Lemma wf_jwtClaims aud exp sub : Valid aud = true → Valid sub = true → wf_json 10000 (jwtClaims_json aud exp sub).
Proof.
  intros. split; [lia|]. apply wf_members, Forall_app_2; [|by apply wf_omitempty].
  repeat constructor; try done; apply Itoa_number.
Qed.

(** For a key pair made from a raw scalar and an endpoint with scheme and
    host, signing yields a token of three base64url parts: its claims name the
    origin of the endpoint and expire after now, within 24 hours; the two halves
    of its 64-byte signature verify under the public key. *)
Theorem vapid_token raw k now rnd endpoint u subject ttl token :
  NewVAPIDKeysFromRaw raw = Ok k → url_Parse endpoint = Some u →
  let aud := u_Scheme u ++ str "://" ++ u_Host u in
  Valid aud = true → Valid subject = true → 0 <= now / Second < 2 ^ 61 →
  SignJWT now rnd (Some k) endpoint subject ttl = Done (Ok token) →
  ∃ h c sig exp pub, token = url64 h ++ str "." ++ url64 c ++ str "." ++ url64 sig ∧
    parse_json h = Some jwtHeader_json ∧ parse_json c = Some (jwtClaims_json aud exp subject) ∧
    now - Second < time_Unix exp ∧ time_Unix exp <= now + 24 * Hour ∧
    vk_PublicKey k = Some pub ∧ length sig = 64%nat ∧
    ecdsa_Verify pub (sha256 (url64 h ++ str "." ++ url64 c)) (of_bytes (take 32 sig)) (of_bytes (drop 32 sig)) = true.
Proof.
  intros Hk Hu aud Ha Hs Hn. unfold NewVAPIDKeysFromRaw in Hk. destruct (length raw =? 32)%nat eqn:E; [|done].
  cbn [negb] in Hk. bools. destruct (ScalarBaseMult raw) as [x y] eqn:Es. injection Hk as <-.
  cbn [SignJWT]. rewrite Hu. destruct (_ || _); [done|]. fold aud. cbn [sk_D].
  set (exp := Time_Unix _). set (h := render jwtHeader_json). set (c := render (jwtClaims_json aud exp subject)).
  destruct (ecdsa_Sign rnd (of_bytes raw) _) as [[r s]|] eqn:Eg; [|done].
  destruct (ecdsa_sound _ _ _ _ _ Eg) as (Hr & Hss & Hv).
  destruct (FillBytes_32 r Hr) as [-> Er], (FillBytes_32 s Hss) as [-> Es']. cbn [mbind outcome_bind].
  intros Ht. assert (token = (url64 h ++ str "." ++ url64 c) ++ str "." ++ url64 (be_bytes 32 r ++ be_bytes 32 s)) as ->
    by congruence. clear Ht. pose proof (jwt_ttl_range ttl) as Ht.
  exists h, c, (be_bytes 32 r ++ be_bytes 32 s), exp, (x, y).
  assert (time_Unix exp = (now + jwt_ttl ttl) / Second * Second) as He.
  { unfold exp. rewrite time_Add_small.
    - apply time_Unix_Unix. pose proof (Z.div_mod now Second ltac:(unfold Second; lia)).
      pose proof (Z.mod_pos_bound now Second ltac:(unfold Second; lia)).
      split; [apply Z.div_pos|apply Z.div_lt_upper_bound]; unfold Hour, Minute, Second in *; lia.
    - pose proof (Z.div_mod now Second ltac:(unfold Second; lia)).
      pose proof (Z.mod_pos_bound now Second ltac:(unfold Second; lia)). unfold Hour, Minute, Second in *. lia. }
  pose proof (Z.mul_div_le (now + jwt_ttl ttl) Second ltac:(unfold Second; lia)).
  pose proof (Z.mul_succ_div_gt (now + jwt_ttl ttl) Second ltac:(unfold Second; lia)).
  split_and!; try done.
  - by apply parse_json_render, wf_jwtClaims.
  - rewrite He. lia.
  - rewrite He. lia.
  - pose proof (take_app_exact (be_bytes 32 r) (be_bytes 32 s)) as Ht1.
    pose proof (drop_app_exact (be_bytes 32 r) (be_bytes 32 s)) as Ht2.
    rewrite be_bytes_length in Ht1, Ht2. rewrite Ht1, Ht2, Er, Es'.
    rewrite <- (be_bytes_of_bytes raw), E in Es. rewrite <- Es. exact Hv.
Qed.
End tokens.

(** ** Delivery *)

(** [Duration.Seconds]: the nearest float64 of a positive ratio, as mantissa and
    exponent, ties to even. *)
Definition float_ratio (n d : Z) : Z * Z :=
  if n =? 0 then (0, 0)
  else
    let e0 := Z.log2 n - Z.log2 d in
    let below := if 0 <=? e0 then n <? d * 2 ^ e0 else n * 2 ^ (- e0) <? d in
    let e := (if below then e0 - 1 else e0) - 52 in
    let n' := if 0 <=? e then n else n * 2 ^ (- e) in
    let d' := if 0 <=? e then d * 2 ^ e else d in
    let q := n' / d' in
    let r := n' mod d' in
    ((if (2 * r <? d') || (2 * r =? d') && Z.even q then q else q + 1), e).

(** [int64(ttl.Seconds())] of a non-negative duration: whole seconds and the
    fraction are added as floats and the sum is truncated. *)
Definition whole_seconds (ttl : Z) : Z :=
  let '(m, e) := float_ratio (ttl mod Second) Second in
  let '(n, d) := if 0 <=? e then (ttl / Second + m * 2 ^ e, 1) else (ttl / Second * 2 ^ (- e) + m, 2 ^ (- e)) in
  let '(m', e') := float_ratio n d in
  if 0 <=? e' then m' * 2 ^ e' else m' / 2 ^ (- e').

Definition UrgencyNormal : bytes := str "normal".
Definition HeaderTTL : bytes := str "TTL".
Definition HeaderUrgency : bytes := str "Urgency".
Definition HeaderTopic : bytes := str "Topic".
Definition ContentEncodingAES128GCM : bytes := str "aes128gcm".

Inductive push_mod := WithHeader (name value : bytes) | WithBodyBytes (b : bytes).
Record response := { rs_StatusCode : Z; rs_Body : bytes }.

Section client.
Context `{PushCrypto} `{UnicodeCase}.

Record VAPIDConfig := { vc_Keys : option VAPIDKeys; vc_Subject : bytes; vc_TTL : Z }.
Record Message := {
  m_Payload : bytes;
  m_TTL : Z;
  m_Urgency : bytes;
  m_Topic : bytes;
  m_VAPID : option VAPIDConfig
}.

(** Constants of the mach header package and functions of the foundation
    module. *)
Record Lib := {
  HeaderContentEncoding : bytes;
  HeaderAuthorization : bytes;
  Coalesce : bytes → bytes → bytes;
  CoalesceNil : option VAPIDConfig → option VAPIDConfig → option VAPIDConfig
}.

(** The environment of a call: clock, encryption entropy, signature randomness
    and the HTTP client. *)
Record World := {
  w_now : Z;
  w_entropy : Entropy;
  w_rnd : bytes;
  w_Request : bytes → list push_mod → result push_error response
}.

Definition no_message : Message := {| m_Payload := []; m_TTL := 0; m_Urgency := []; m_Topic := []; m_VAPID := None |}.

(** The modifiers of the request, without and with authorization. *)
Definition base_mods (lib : Lib) (msg : Message) (ciphertext : bytes) : list push_mod :=
  let ttl := if m_TTL msg <=? 0 then 24 * Hour else m_TTL msg in
  let ttlSeconds := Z.max (whole_seconds ttl) 0 in
  let urgency := Coalesce lib (m_Urgency msg) UrgencyNormal in
  [WithHeader HeaderTTL (Itoa ttlSeconds); WithHeader HeaderUrgency urgency] ++
  (if nonempty (m_Topic msg) then [WithHeader HeaderTopic (m_Topic msg)] else []) ++
  (if (0 <? length ciphertext)%nat
   then [WithHeader (HeaderContentEncoding lib) ContentEncodingAES128GCM; WithBodyBytes ciphertext] else []).

Definition push_mods (lib : Lib) (w : World) (vapid : option VAPIDConfig) (sub : Subscription) (msg : Message) :
    outcome (result push_error (list push_mod)) :=
  ciphertext ←! Done (if (0 <? length (m_Payload msg))%nat then Encrypt (w_entropy w) (m_Payload msg) (Some sub) None
                      else Ok []);
  let mods := base_mods lib msg ciphertext in
  match CoalesceNil lib (m_VAPID msg) vapid with
  | Some {| vc_Keys := Some k; vc_Subject := subject; vc_TTL := jwtTTL |} =>
      authVal ←! AuthorizationHeader (w_now w) (w_rnd w) (Some k) (s_Endpoint sub) subject jwtTTL;
      Done (Ok (mods ++ [WithHeader (HeaderAuthorization lib) authVal]))
  | _ => Done (Ok mods)
  end.

(** An error of the push service comes with its response. *)
Definition Send (lib : Lib) (w : World) (vapid : option VAPIDConfig) (sub : option Subscription) (msg : option Message) :
    outcome (result push_error response) :=
  match sub with
  | None => Done (Err ErrInvalidSubscription)
  | Some sub =>
      if bytes_eqb (s_Endpoint sub) [] then Done (Err ErrInvalidSubscription)
      else
        mods ←! push_mods lib w vapid sub (default no_message msg);
        resp ←! Done (w_Request w (s_Endpoint sub) mods);
        if (rs_StatusCode resp =? 201) || (rs_StatusCode resp =? 202) || (rs_StatusCode resp =? 200)
        then Done (Ok resp) else Done (Err (ErrPushRejected (rs_StatusCode resp) (rs_Body resp)))
  end.

(** [generic.ApplyOptions] runs the options in order; [json] is the result of
    marshalling the payload. *)
Definition SendJSON (lib : Lib) (w : World) (vapid : option VAPIDConfig) (sub : option Subscription)
    (json : option bytes) (opts : list (Message → Message)) : outcome (result push_error response) :=
  match json with
  | None => Done (Err ErrJSON)
  | Some data =>
      Send lib w vapid sub
        (Some (foldl (λ m f, f m) {| m_Payload := data; m_TTL := 0; m_Urgency := []; m_Topic := []; m_VAPID := None |} opts))
  end.

Definition WithTTL (ttl : Z) (m : Message) : Message :=
  {| m_Payload := m_Payload m; m_TTL := ttl; m_Urgency := m_Urgency m; m_Topic := m_Topic m; m_VAPID := m_VAPID m |}.
Definition WithUrgency (urgency : bytes) (m : Message) : Message :=
  {| m_Payload := m_Payload m; m_TTL := m_TTL m; m_Urgency := urgency; m_Topic := m_Topic m; m_VAPID := m_VAPID m |}.
Definition WithTopic (topic : bytes) (m : Message) : Message :=
  {| m_Payload := m_Payload m; m_TTL := m_TTL m; m_Urgency := m_Urgency m; m_Topic := topic; m_VAPID := m_VAPID m |}.
Definition WithVAPID (vapid : option VAPIDConfig) (m : Message) : Message :=
  {| m_Payload := m_Payload m; m_TTL := m_TTL m; m_Urgency := m_Urgency m; m_Topic := m_Topic m; m_VAPID := vapid |}.
End client.

Section delivery.
Context `{PushLaws} `{UnicodeCase}.

Lemma push_mods_body lib w vapid ep ua auth msg mods : salted (w_entropy w) → length auth = 16%nat →
  m_Payload msg ≠ [] → push_mods lib w vapid (subscription ep ua auth) msg = Done (Ok mods) →
  ∃ body, WithBodyBytes body ∈ mods ∧ WithHeader (HeaderContentEncoding lib) ContentEncodingAES128GCM ∈ mods ∧
    Z.of_nat (length body) <= DefaultRecordSize ∧ Decrypt body (Some ua) auth = Ok (m_Payload msg).
Proof.
  intros He Ha Hp. unfold push_mods. destruct (0 <? length (m_Payload msg))%nat eqn:El; bools; [|destruct (m_Payload msg); [done|simpl in El; lia]].
  destruct (Encrypt _ _ _ _) as [body|] eqn:Eb; [|done]. cbn [try_bind].
  assert (Z.of_nat (length (m_Payload msg)) <= MaxPayloadSize) as Hm.
  { apply Z.nlt_ge. intros Hm. revert Eb. unfold Encrypt. destruct (_ || _); [done|]. by rewrite (proj2 (Z.ltb_lt _ _)). }
  rewrite Encrypt_subscription in Eb by done. destruct (encrypt_decrypt _ _ _ _ _ _ He Ha Eb) as [Hl Hd].
  unfold HeaderLength, MaxPayloadSize, DefaultRecordSize in *.
  intros Hr. assert (∃ l, mods = base_mods lib msg body ++ l) as [l ->].
  { cbv zeta in Hr. destruct (CoalesceNil _ _ _) as [[[k|] ? ?]|]; [|apply Done_Ok_inj in Hr; exists []; by rewrite app_nil_r..].
    destruct (AuthorizationHeader _ _ _ _ _ _) as [[a|]|]; [|done..]. cbn [try_bind] in Hr.
    apply Done_Ok_inj in Hr. by eexists. }
  assert (WithBodyBytes body ∈ base_mods lib msg body ∧
          WithHeader (HeaderContentEncoding lib) ContentEncodingAES128GCM ∈ base_mods lib msg body) as [? ?].
  { unfold base_mods. destruct (0 <? length body)%nat eqn:E0; bools; [|lia]. split; rewrite !elem_of_app, !elem_of_cons; tauto. }
  exists body.
  split_and!; [apply elem_of_app; by left|apply elem_of_app; by left|lia|done].
Qed.

(** A notification sent to a subscription is accepted only with status 200,
    201 or 202, and what the push service was given decrypts at the user agent to
    the payload of the message. *)
Theorem notification_delivered lib w vapid ep ua auth msg resp :
  salted (w_entropy w) → length auth = 16%nat → m_Payload msg ≠ [] →
  Send lib w vapid (Some (subscription ep ua auth)) (Some msg) = Done (Ok resp) →
  ∃ mods body, w_Request w ep mods = Ok resp ∧ rs_StatusCode resp ∈ [200; 201; 202] ∧
    WithBodyBytes body ∈ mods ∧ WithHeader (HeaderContentEncoding lib) ContentEncodingAES128GCM ∈ mods ∧
    Z.of_nat (length body) <= DefaultRecordSize ∧ Decrypt body (Some ua) auth = Ok (m_Payload msg).
Proof.
  intros He Ha Hp. unfold Send. cbn [s_Endpoint subscription]. destruct (bytes_eqb ep []); [done|]. cbn [default].
  destruct (push_mods _ _ _ _ _) as [[mods|]|] eqn:Em; [|done..]. cbn [try_bind].
  destruct (w_Request w ep mods) as [r|] eqn:Er; [|done]. cbn [try_bind].
  destruct (_ || (_ =? 200)) eqn:Es; [|done]. intros [= <-].
  destruct (push_mods_body _ _ _ _ _ _ _ _ He Ha Hp Em) as (body & H1' & H2' & H3' & H4').
  exists mods, body. split_and!; try done. rewrite !elem_of_cons, !orb_true_iff, !Z.eqb_eq in *. tauto.
Qed.
End delivery.

(** ** Concrete primitives *)

Module PushSample.
Definition sum (n : nat) (b : bytes) : bytes := be_bytes n (foldl (λ z c, (z * 31 + bz c) mod 65521) 7 b).

(** Keys are numbers; the secret of two keys is their product. *)
#[local] Instance toy : PushCrypto := {|
  hmacSHA256 := λ k m, sum 32 (k ++ m);
  sha256 := sum 32;
  PrivateKey := Z; PublicKey := byte; public_of := zb;
  Bytes := λ p, x04 :: replicate 63 x00 ++ [p];
  NewPublicKey := last;
  ECDH := λ k p, Some [zb (k * bz p)];
  gcm_Seal := λ k n m, m ++ sum 16 (k ++ n ++ m);
  gcm_Open := λ k n c, let m := take (length c - 16) c in
    if bytes_eqb (drop (length c - 16) c) (sum 16 (k ++ n ++ m)) then Some m else None;
  ScalarBaseMult := λ d, (of_bytes d mod 2 ^ 256, 1);
  IsOnCurve := λ x y, y =? 1;
  ecdsa_Sign := λ rnd d h, Some ((of_bytes h + of_bytes (be_bytes 32 d) mod 2 ^ 256) mod 2 ^ 256, 1);
  ecdsa_Verify := λ p h r s, r =? (of_bytes h + p.1) mod 2 ^ 256
|}.

#[local] Instance toy_laws : PushLaws.
Proof.
  split.
  - intros k m. apply be_bytes_length.
  - intros p. by eexists.
  - intros p. cbn [NewPublicKey Bytes toy]. change (x04 :: replicate 63 x00 ++ [p]) with ((x04 :: replicate 63 x00) ++ [p]).
    by rewrite last_snoc.
  - intros a b. cbn. do 2 f_equal. apply bz_inj. rewrite !bz_zb. by rewrite Z.mul_mod_idemp_r, Z.mul_comm, Z.mul_mod_idemp_r by lia.
  - by eexists.
  - intros k n m. cbn [gcm_Open gcm_Seal toy]. unfold sum. rewrite length_app, be_bytes_length.
    replace (length m + 16 - 16)%nat with (length m) by lia. rewrite take_app_exact, drop_app_exact.
    by rewrite (proj2 (bytes_eqb_true _ _)).
  - intros k n m. cbn [gcm_Seal toy]. unfold sum. by rewrite length_app, be_bytes_length.
  - intros d. cbn. pose proof (Z.mod_pos_bound (of_bytes d) (2 ^ 256) ltac:(lia)). split_and!; lia.
  - intros rnd d h r s. cbn [ecdsa_Sign ecdsa_Verify ScalarBaseMult toy fst]. generalize (be_bytes 32 d). intros x [= <- <-].
    pose proof (Z.mod_pos_bound (of_bytes h + of_bytes x mod 2 ^ 256) (2 ^ 256) ltac:(lia)).
    split; [done|]. split; [lia|]. apply Z.eqb_refl.
Qed.

#[local] Existing Instance ascii_case.

Definition agent : PrivateKey := 200.
Definition auth : bytes := str "sixteen byte key".
Definition entropy : Entropy := {| en_key := Some (77 : PrivateKey); en_salt := Some (str "0123456789abcdef") |}.

Lemma entropy_salted : salted entropy.
Proof. by intros b [= <-]. Qed.

Lemma push_message_roundtrip_witness :
  ∃ payload, Encrypt entropy (str "hello") (Some (subscription (str "https://push.example/x") agent auth)) None = Ok payload ∧
    Decrypt payload (Some agent) auth = Ok (str "hello").
Proof.
  destruct (push_message_roundtrip entropy (str "hello") (str "https://push.example/x") agent auth None)
    as (payload & Hp & _ & _ & Hd); [apply entropy_salted|by eexists|by eexists|done|]. by exists payload.
Defined.

Definition raw_key : bytes := be_bytes 32 12345.
Definition keys : VAPIDKeys := match NewVAPIDKeysFromRaw raw_key with Ok k => k | Err _ => Build_VAPIDKeys None None end.

(** The public key given with the private one is not looked at. *)
Lemma vapid_keys_roundtrip_witness : ∃ t, PrivateKeyBase64 (Some keys) = Done t ∧ NewVAPIDKeys t (str "not a key") = Ok keys.
Proof. apply (vapid_keys_roundtrip raw_key keys (str "not a key")). vm_compute. reflexivity. Defined.

Definition now : Z := (unixToInternal + 1700000000) * Second.
Definition endpoint : bytes := str "https://push.example:8443/send/abc".
Definition token : bytes :=
  match SignJWT now (str "r") (Some keys) endpoint (str "mailto:a@b.c") (48 * Hour) with Done (Ok t) => t | _ => [] end.

Lemma vapid_token_witness : ∃ h c sig, token = url64 h ++ str "." ++ url64 c ++ str "." ++ url64 sig ∧ length sig = 64%nat.
Proof.
  destruct (url_Parse endpoint) as [u|] eqn:Eu; [|vm_compute in Eu; discriminate Eu].
  destruct (vapid_token raw_key keys now (str "r") endpoint u (str "mailto:a@b.c") (48 * Hour) token)
    as (h & c & sig & exp & pub & Ht & _ & _ & _ & _ & _ & Hl & _).
  - vm_compute. reflexivity.
  - done.
  - vm_compute in Eu. injection Eu as <-. reflexivity.
  - reflexivity.
  - vm_compute. split; congruence.
  - vm_compute. reflexivity.
  - exists h, c, sig. exact (conj Ht Hl).
Defined.

Definition lib : Lib :=
  {| HeaderContentEncoding := str "Content-Encoding"; HeaderAuthorization := str "Authorization";
     Coalesce := λ a b, if nonempty a then a else b; CoalesceNil := λ a b, match a with Some _ => a | None => b end |}.
Definition accepting : World :=
  {| w_now := now; w_entropy := entropy; w_rnd := str "r"; w_Request := λ _ _, Ok {| rs_StatusCode := 201; rs_Body := [] |} |}.
Definition vapid : VAPIDConfig := {| vc_Keys := Some keys; vc_Subject := str "mailto:a@b.c"; vc_TTL := 0 |}.
Definition message : Message :=
  {| m_Payload := str "hello"; m_TTL := 1500000000; m_Urgency := []; m_Topic := str "t"; m_VAPID := None |}.

Lemma notification_delivered_witness :
  ∃ mods body, w_Request accepting endpoint mods = Ok {| rs_StatusCode := 201; rs_Body := [] |} ∧
    WithBodyBytes body ∈ mods ∧ Decrypt body (Some agent) auth = Ok (str "hello").
Proof.
  destruct (notification_delivered lib accepting (Some vapid) endpoint agent auth message {| rs_StatusCode := 201; rs_Body := [] |})
    as (mods & body & Hr & _ & Hb & _ & _ & Hd); [apply entropy_salted|done|done|vm_compute; reflexivity|].
  by exists mods, body.
Defined.

(** The seconds of a time to live are those of a float: long ones may round up. *)
Lemma whole_seconds_samples :
  whole_seconds (3 * Second / 2) = 1 ∧ whole_seconds (24 * Hour) = 86400 ∧
  whole_seconds (2 ^ 24 * Second + Second - 1) = 2 ^ 24 + 1.
Proof. vm_compute. done. Qed.
End PushSample.
