(* ===== verification/SshSocks.v ===== *)
(** * The SOCKS5 server of the SSH client (src/ssh/socks5.go)

    A connection is the list of byte segments its reads return; the handler
    reads it through a buffered reader, answers and dials through the tunnel. *)

From S2P Require Import Prelude GoLib GoText.

#[local] Open Scope Z_scope.

(** ** net: addresses as text *)

Definition dotted (ip : bytes) : bytes := Join (map (λ c, Itoa (bz c)) ip) (str ".").

(** The lower-case hexadecimal of a 16-bit group, without leading zeros. *)
Definition hex_digit_of (n : Z) : byte := zb (if n <? 10 then 48 + n else 87 + n).
Definition hex16 (n : Z) : bytes :=
  (if 4096 <=? n then [hex_digit_of (n / 4096)] else []) ++
  (if 256 <=? n then [hex_digit_of (n / 256 mod 16)] else []) ++
  (if 16 <=? n then [hex_digit_of (n / 16 mod 16)] else []) ++ [hex_digit_of (n mod 16)].

Fixpoint groups (ip : bytes) : list Z :=
  match ip with
  | a :: b :: t => (bz a * 256 + bz b) :: groups t
  | _ => []
  end.

(** The first longest run of at least two zero groups: its start and length. *)
Fixpoint zero_run (g : list Z) : nat :=
  match g with 0 :: t => S (zero_run t) | _ => O end.
Definition best_run (g : list Z) : nat * nat :=
  foldl (λ best i, let n := zero_run (drop i g) in
                   if (1 <? n)%nat && (best.2 <? n)%nat then (i, n) else best) (O, O) (seq 0 (length g)).

Definition ipv6_text (ip : bytes) : bytes :=
  let g := groups ip in
  let '(i, n) := best_run g in
  if (n =? 0)%nat then Join (map hex16 g) (str ":")
  else Join (map hex16 (take i g)) (str ":") ++ str "::" ++ Join (map hex16 (drop (i + n) g)) (str ":").

(** [net.IP.String] of 4 or 16 bytes; mapped addresses print as IPv4. *)
Definition IP_String (ip : bytes) : bytes :=
  if (length ip =? 4)%nat then dotted ip
  else if bytes_eqb (take 12 ip) (replicate 10 x00 ++ [xff; xff]) then dotted (drop 12 ip)
  else ipv6_text ip.

(** ** Buffered reading

    [segs] is what the next reads of the connection return, each at most the
    4096 bytes of the buffer; its end is the end of the stream.  No read of the
    handler asks for as much as a buffer. *)
Record reader := { rd_buf : bytes; rd_segs : list bytes }.

(** [io.ReadFull] through the buffered reader: the buffer is refilled by whole
    segments. *)
Fixpoint read_full (n : nat) (buf : bytes) (segs : list bytes) : option (bytes * reader) :=
  if (n <=? length buf)%nat then Some (take n buf, {| rd_buf := drop n buf; rd_segs := segs |})
  else match segs with
       | [] => None
       | s :: rest => read_full n (buf ++ s) rest
       end.

Definition ReadFull (n : nat) (r : reader) : option (bytes * reader) := read_full n (rd_buf r) (rd_segs r).

(** ** The handler *)

Definition general_failure : bytes := [x05; x01; x00; x01; x00; x00; x00; x00; x00; x00].
Definition success_reply (port : Z) : bytes := [x05; x00; x00; x01; x7f; x00; x00; x01; zb (Z.shiftr port 8); zb port].

(** What the handler did: the replies it wrote, the address it dialed, and, when
    it got to copying, the bytes left in its buffer and the segments that
    [pipeSOCKSConns] still reads from the connection. *)
Record handled := { h_replies : list bytes; h_dialed : option bytes; h_piped : option (bytes * list bytes) }.

Definition closed (replies : list bytes) : handled := {| h_replies := replies; h_dialed := None; h_piped := None |}.

Inductive host_result := HostOk (host : bytes) (r : reader) | HostEOF | HostUnknown.

Definition read_host (atyp : byte) (r : reader) : host_result :=
  if atyp =b x01 then
    match ReadFull 4 r with Some (ip, r) => HostOk (IP_String ip) r | None => HostEOF end
  else if atyp =b x03 then
    match ReadFull 1 r with
    | Some ([len], r) =>
        match ReadFull (Z.to_nat (bz len)) r with Some (d, r) => HostOk d r | None => HostEOF end
    | _ => HostEOF
    end
  else if atyp =b x04 then
    match ReadFull 16 r with Some (ip, r) => HostOk (IP_String ip) r | None => HostEOF end
  else HostUnknown.

(** [dial] is the dial through the tunnel; [w1], [w2] say whether the writes of
    the method reply and of the success reply succeed. *)
Definition handleSOCKS5Conn (dial : bytes → bool) (w1 w2 : bool) (segs : list bytes) : handled :=
  match ReadFull 2 {| rd_buf := []; rd_segs := segs |} with
  | Some ([ver; nmethods], r) =>
      if negb (ver =b x05) then closed []
      else
        match ReadFull (Z.to_nat (bz nmethods)) r with
        | None => closed []
        | Some (_, r) =>
            if negb w1 then closed []
            else
              let greeted := [[x05; x00]] in
              match ReadFull 4 r with
              | Some ([v; cmd; _; atyp], r) =>
                  if negb (v =b x05) || negb (cmd =b x01) then closed (greeted ++ [general_failure])
                  else
                    match read_host atyp r with
                    | HostEOF => closed greeted
                    | HostUnknown => closed (greeted ++ [general_failure])
                    | HostOk host r =>
                        match ReadFull 2 r with
                        | Some ([p1; p2], r) =>
                            let port := Z.lor (Z.shiftl (bz p1) 8) (bz p2) in
                            let targetAddr := JoinHostPort host (Itoa port) in
                            if negb (dial targetAddr)
                            then {| h_replies := greeted ++ [general_failure]; h_dialed := Some targetAddr; h_piped := None |}
                            else if negb w2
                            then {| h_replies := greeted; h_dialed := Some targetAddr; h_piped := None |}
                            else {| h_replies := greeted ++ [success_reply port]; h_dialed := Some targetAddr;
                                    h_piped := Some (rd_buf r, rd_segs r) |}
                        | _ => closed greeted
                        end
                    end
              | _ => closed (greeted ++ [general_failure])
              end
        end
  | _ => closed []
  end.

(** ** The accept loop

    Each round sees what [Accept] returned and, on an error, whether the context
    is done and the client closed. *)
Inductive accepted := Accepted (segs : list bytes) | AcceptError (ctx_done client_closed : bool).

(** [Some conns] when the loop returned, [None] while it still runs; [conns] are
    the connections handed to handlers. *)
Fixpoint serveSOCKS5Loop (rounds : list accepted) : list (list bytes) * bool :=
  match rounds with
  | [] => ([], true)
  | Accepted segs :: rest => let '(l, running) := serveSOCKS5Loop rest in (segs :: l, running)
  | AcceptError ctx_done client_closed :: rest =>
      if ctx_done || client_closed then ([], false) else serveSOCKS5Loop rest
  end.

(** ** Reading whatever the segmentation *)

Lemma read_full_spec n buf segs u t : buf ++ concat segs = u ++ t → length u = n →
  ∃ buf' segs', read_full n buf segs = Some (u, {| rd_buf := buf'; rd_segs := segs' |}) ∧ buf' ++ concat segs' = t.
Proof.
  revert buf. induction segs as [|s segs IH]; intros buf He Hn; cbn [read_full].
  - cbn [concat] in He. rewrite app_nil_r in He. subst buf.
    rewrite (proj2 (Nat.leb_le _ _)) by (rewrite length_app; lia). exists t, [].
    rewrite <- Hn, take_app_exact, drop_app_exact. split; [done|]. apply app_nil_r.
  - destruct (n <=? length buf)%nat eqn:E; bools.
    + assert (take n buf = u) as Hu.
      { apply (f_equal (take n)) in He. rewrite take_app_le in He by lia. rewrite He, <- Hn. apply take_app_exact. }
      exists (drop n buf), (s :: segs). rewrite Hu. split; [done|].
      apply (app_inv_head u). rewrite <- He, <- Hu, app_assoc, take_drop. done.
    + apply IH; [|done]. by rewrite <- app_assoc.
Qed.

Lemma ReadFull_spec n r u t : rd_buf r ++ concat (rd_segs r) = u ++ t → length u = n →
  ∃ r', ReadFull n r = Some (u, r') ∧ rd_buf r' ++ concat (rd_segs r') = t.
Proof.
  intros He Hn. destruct (read_full_spec n _ _ _ _ He Hn) as (b & s & Hr & Ht). eexists. split; [exact Hr|done].
Qed.

(** A request: the address as a client writes it. *)
Inductive address := Addr4 (ip : bytes) | AddrName (name : bytes) | Addr6 (ip : bytes).

Definition wf_address (a : address) : Prop :=
  match a with
  | Addr4 ip => length ip = 4%nat
  | AddrName d => (length d < 256)%nat
  | Addr6 ip => length ip = 16%nat
  end.

Definition address_host (a : address) : bytes :=
  match a with Addr4 ip | Addr6 ip => IP_String ip | AddrName d => d end.

Definition encode_address (a : address) : bytes :=
  match a with
  | Addr4 ip => x01 :: ip
  | AddrName d => x03 :: zb (Z.of_nat (length d)) :: d
  | Addr6 ip => x04 :: ip
  end.

Definition greeting (methods : bytes) : bytes := x05 :: zb (Z.of_nat (length methods)) :: methods.
Definition connect_request (a : address) (port : Z) : bytes :=
  [x05; x01; x00] ++ encode_address a ++ [zb (port / 256); zb port].

Lemma read_host_spec a r t c h : wf_address a → encode_address a = c :: h →
  rd_buf r ++ concat (rd_segs r) = h ++ t →
  ∃ r', read_host c r = HostOk (address_host a) r' ∧ rd_buf r' ++ concat (rd_segs r') = t.
Proof.
  intros Hw Ha Hr. destruct a as [ip|d|ip]; cbn in Hw, Ha |- *; injection Ha as <- <-; unfold read_host.
  - destruct (ReadFull_spec 4 r ip t Hr Hw) as (r' & Hf & Ht). cbn -[ReadFull]. rewrite Hf. eauto.
  - cbn -[ReadFull]. rewrite <- app_comm_cons in Hr.
    destruct (ReadFull_spec 1 r [zb (Z.of_nat (length d))] (d ++ t) Hr eq_refl) as (r1 & -> & H1).
    rewrite bz_zb_small, Nat2Z.id by lia. destruct (ReadFull_spec (length d) r1 d t H1 eq_refl) as (r' & -> & Ht). eauto.
  - destruct (ReadFull_spec 16 r ip t Hr Hw) as (r' & Hf & Ht). cbn -[ReadFull]. rewrite Hf. eauto.
Qed.

Lemma port_value port : 0 <= port < 65536 → Z.lor (Z.shiftl (bz (zb (port / 256))) 8) (bz (zb port)) = port.
Proof.
  intros Hp. rewrite !bz_zb. rewrite (Z.mod_small (port / 256)) by (split; [apply Z.div_pos|apply Z.div_lt_upper_bound]; lia).
  rewrite Z.lor_comm, (lor_shiftl_add _ _ 8) by (pose proof (Z.mod_pos_bound port 256); lia).
  change (2 ^ 8) with 256. pose proof (Z.div_mod port 256). lia.
Qed.

(** The run of the handler on a complete handshake. *)
Lemma handle_handshake dial w2 segs methods a port data :
  (length methods < 256)%nat → wf_address a → 0 <= port < 65536 →
  concat segs = greeting methods ++ connect_request a port ++ data →
  let target := JoinHostPort (address_host a) (Itoa port) in
  ∃ lost rest, lost ++ concat rest = data ∧
    handleSOCKS5Conn dial true w2 segs =
      if negb (dial target)
      then {| h_replies := [[x05; x00]; general_failure]; h_dialed := Some target; h_piped := None |}
      else if negb w2
      then {| h_replies := [[x05; x00]]; h_dialed := Some target; h_piped := None |}
      else {| h_replies := [[x05; x00]; success_reply port]; h_dialed := Some target; h_piped := Some (lost, rest) |}.
Proof.
  intros Hm Ha Hp Hs target. unfold greeting, connect_request in Hs. unfold handleSOCKS5Conn.
  destruct (encode_address a) as [|c h] eqn:Ea; [by destruct a|].
  destruct (ReadFull_spec 2 {| rd_buf := []; rd_segs := segs |} [x05; zb (Z.of_nat (length methods))] _ Hs eq_refl) as (r1 & -> & H1).
  change (x05 =b x05) with true. cbn [negb orb]. rewrite bz_zb_small, Nat2Z.id by lia.
  destruct (ReadFull_spec _ r1 methods _ H1 eq_refl) as (r2 & -> & H2).
  destruct (ReadFull_spec 4 r2 [x05; x01; x00; c] (h ++ [zb (port / 256); zb port] ++ data)) as (r3 & -> & H3);
    [rewrite H2; cbn; by rewrite <- app_assoc|done|].
  change (x05 =b x05) with true. change (x01 =b x01) with true. cbn [negb orb].
  destruct (read_host_spec a r3 ([zb (port / 256); zb port] ++ data) c h Ha Ea H3) as (r4 & -> & H4).
  destruct (ReadFull_spec 2 r4 [zb (port / 256); zb port] data H4 eq_refl) as (r5 & -> & H5).
  rewrite port_value by done. exists (rd_buf r5), (rd_segs r5). split; [done|]. reflexivity.
Qed.

(** A client that greets and asks for a connection, however its bytes are cut
    into segments, gets the method reply and the success reply, the address it
    asked for is dialed, and the data it sent after the request reaches the
    tunnel except for the part that was read ahead with the request. *)
Theorem socks5_connect dial segs methods a port data :
  (length methods < 256)%nat → wf_address a → 0 <= port < 65536 →
  concat segs = greeting methods ++ connect_request a port ++ data →
  dial (JoinHostPort (address_host a) (Itoa port)) = true →
  ∃ lost rest, lost ++ concat rest = data ∧
    handleSOCKS5Conn dial true true segs =
      {| h_replies := [[x05; x00]; success_reply port];
         h_dialed := Some (JoinHostPort (address_host a) (Itoa port)); h_piped := Some (lost, rest) |}.
Proof.
  intros Hm Ha Hp Hs Hd. destruct (handle_handshake dial true segs methods a port data Hm Ha Hp Hs) as (l & r & Hl & ->).
  exists l, r. split; [done|]. by rewrite Hd.
Qed.

(** Data that arrives in the same segment as the whole handshake is never
    forwarded: the buffered reader holds it when the copying starts on the bare
    connection. *)
Theorem pipelined_data_lost dial seg rest methods a port data :
  (length methods < 256)%nat → wf_address a → 0 <= port < 65536 →
  seg = greeting methods ++ connect_request a port ++ data →
  dial (JoinHostPort (address_host a) (Itoa port)) = true →
  h_piped (handleSOCKS5Conn dial true true (seg :: rest)) = Some (data, rest).
Proof.
  intros Hm Ha Hp Hs Hd.
  (* after the first read everything is in the buffer and no segment is consumed *)
  assert (∀ n u t b, b = u ++ t → length u = n →
    ReadFull n {| rd_buf := b; rd_segs := rest |} = Some (u, {| rd_buf := t; rd_segs := rest |})) as Hb.
  { intros n u t b -> <-. unfold ReadFull. cbn [rd_buf rd_segs]. destruct rest; cbn [read_full];
      rewrite (proj2 (Nat.leb_le _ _)) by (rewrite length_app; lia); by rewrite take_app_exact, drop_app_exact. }
  unfold greeting, connect_request in Hs. unfold handleSOCKS5Conn.
  destruct (encode_address a) as [|c h] eqn:Ea; [by destruct a|].
  change (ReadFull 2 {| rd_buf := []; rd_segs := seg :: rest |}) with (ReadFull 2 {| rd_buf := seg; rd_segs := rest |}).
  rewrite (Hb 2%nat [x05; zb (Z.of_nat (length methods))] _ _ Hs eq_refl). change (x05 =b x05) with true. cbn [negb orb].
  rewrite bz_zb_small, Nat2Z.id by lia. rewrite (Hb _ methods _ _ eq_refl eq_refl).
  rewrite (Hb 4%nat [x05; x01; x00; c] (h ++ [zb (port / 256); zb port] ++ data)) by (cbn; by rewrite <- ?app_assoc).
  change (x05 =b x05) with true. change (x01 =b x01) with true. cbn [negb orb].
  assert (read_host c {| rd_buf := h ++ [zb (port / 256); zb port] ++ data; rd_segs := rest |} =
    HostOk (address_host a) {| rd_buf := [zb (port / 256); zb port] ++ data; rd_segs := rest |}) as ->.
  { destruct a as [ip|d|ip]; cbn in Ha, Ea |- *; injection Ea as <- <-; unfold read_host; cbn -[ReadFull].
    - by rewrite (Hb 4%nat ip _ _ eq_refl).
    - pose proof (Hb 1%nat [zb (Z.of_nat (length d))] (d ++ [zb (port / 256); zb port] ++ data) _ eq_refl eq_refl) as H1.
      cbn [app] in H1. rewrite H1, bz_zb_small, Nat2Z.id by lia. by rewrite (Hb _ d _ _ eq_refl eq_refl).
    - by rewrite (Hb 16%nat ip _ _ eq_refl). }
  rewrite (Hb 2%nat [zb (port / 256); zb port] data _ eq_refl eq_refl). rewrite port_value by done. by rewrite Hd.
Qed.

(** The loop keeps running on a closed listener. *)
Lemma closed_listener_spins n : serveSOCKS5Loop (replicate n (AcceptError false false)) = ([], true).
Proof. induction n as [|n IH]; [done|]. cbn. apply IH. Qed.

Module SocksSample.
Definition target : address := AddrName (str "example.com").
Definition stream : bytes := greeting [x02] ++ connect_request target 443 ++ str "GET".
Definition up (addr : bytes) : bool := bytes_eqb addr (str "example.com:443").

Lemma socks5_connect_witness :
  ∃ lost rest, lost ++ concat rest = str "GET" ∧
    h_piped (handleSOCKS5Conn up true true (map (λ c, [c]) stream)) = Some (lost, rest).
Proof.
  destruct (socks5_connect up (map (λ c, [c]) stream) [x02] target 443 (str "GET")) as (l & r & Hl & Hh);
    [simpl; lia|simpl; lia|lia|vm_compute; reflexivity|vm_compute; reflexivity|].
  exists l, r. split; [exact Hl|]. by rewrite Hh.
Defined.

Lemma pipelined_data_lost_witness : h_piped (handleSOCKS5Conn up true true [stream; str " /"]) = Some (str "GET", [str " /"]).
Proof.
  apply (pipelined_data_lost up stream [str " /"] [x02] target 443 (str "GET"));
    [simpl; lia|simpl; lia|lia|reflexivity|vm_compute; reflexivity].
Defined.

Lemma ip_text_samples :
  IP_String [xc0; xa8; x00; x01] = str "192.168.0.1" ∧
  IP_String (replicate 15 x00 ++ [x01]) = str "::1" ∧
  IP_String ([x20; x01; x0d; xb8] ++ replicate 10 x00 ++ [x12; x34]) = str "2001:db8::1234" ∧
  IP_String (replicate 10 x00 ++ [xff; xff; x7f; x00; x00; x01]) = str "127.0.0.1" ∧
  JoinHostPort (str "::1") (str "22") = str "[::1]:22".
Proof. vm_compute. done. Qed.
End SocksSample.
