(* ===== verification/SshKnownHosts.v ===== *)
(** * Known hosts (src/ssh/utils.go)

    The cache of host key callbacks over the known_hosts files.  Files are a map
    from paths to modification times and contents, some of which the process may
    not reach; parsing, normalisation and
    formatting of entries are those of golang.org/x/crypto/ssh/knownhosts and
    enter as parameters. *)

From Stdlib Require Import Sorting.Sorted.
From S2P Require Import Prelude GoLib GoText GoFile.

#[local] Open Scope Z_scope.

Inductive host_error :=
| ErrNotExist
| ErrPermission
| ErrParse
| ErrHome
| ErrCreate
| ErrWrite
| ErrHostKeyMismatch
| ErrHostNotFound
| ErrCallback.

(** What a host key callback says: the error may list the keys that were
    wanted. *)
Inductive verdict := KeyMatches | KeyError (want : list bytes) | OtherError.

Definition knownHostsStatInterval : Z := Second.

Section hosts.
Variable Callback : Type.
Variable knownhosts_New : bytes → option Callback.
Variable run_callback : Callback → bytes → bytes → bytes → verdict.
Variable Normalize : bytes → bytes.
Variable Line : list bytes → bytes → bytes.

Record knownHostsCacheEntry := { lastStat : Z; modTime : Z; callback : Callback }.

Record file := { f_mtime : Z; f_content : bytes }.

#[local] Instance file_eq_dec : EqDecision file.
Proof. solve_decision. Defined.

(** [denied] are the paths that the process may not reach, whether there is a file
    or not. *)
Record state := {
  fs : gmap bytes file;
  denied : gset bytes;
  cache : gmap bytes knownHostsCacheEntry;
  home : option bytes
}.

Definition set_cache (c : gmap bytes knownHostsCacheEntry) (s : state) : state :=
  {| fs := fs s; denied := denied s; cache := c; home := home s |}.
Definition set_fs (m : gmap bytes file) (s : state) : state :=
  {| fs := m; denied := denied s; cache := cache s; home := home s |}.
Definition set_denied (d : gset bytes) (s : state) : state :=
  {| fs := fs s; denied := d; cache := cache s; home := home s |}.

(** What [os.Stat] and [os.Open] find. *)
Definition Stat (path : bytes) (s : state) : result host_error file :=
  if bool_decide (path ∈ denied s) then Err ErrPermission
  else match fs s !! path with Some f => Ok f | None => Err ErrNotExist end.

Definition DefaultKnownHostsPath (s : state) : result host_error bytes :=
  match home s with
  | None => Err ErrHome
  | Some h => Ok (filepath_Join [h; str ".ssh"; str "known_hosts"])
  end.

(** [knownhosts.New] reads the file that was looked at. *)
Definition KnownHosts (now : Z) (path : bytes) (s : state) : result host_error Callback * state :=
  let entry := cache s !! path in
  match entry with
  | Some e =>
      if time_Sub now (lastStat e) <? knownHostsStatInterval then (Ok (callback e), s)
      else
        match Stat path s with
        | Err _ => (Ok (callback e), s)
        | Ok info =>
            if negb (After (f_mtime info) (modTime e))
            then (Ok (callback e), set_cache (<[path := {| lastStat := now; modTime := modTime e; callback := callback e |}]> (cache s)) s)
            else match knownhosts_New (f_content info) with
                 | None => (Err ErrParse, s)
                 | Some cb => (Ok cb, set_cache (<[path := {| lastStat := now; modTime := f_mtime info; callback := cb |}]> (cache s)) s)
                 end
        end
  | None =>
      match Stat path s with
      | Err err => (Err err, s)
      | Ok info =>
          match knownhosts_New (f_content info) with
          | None => (Err ErrParse, s)
          | Some cb => (Ok cb, set_cache (<[path := {| lastStat := now; modTime := f_mtime info; callback := cb |}]> (cache s)) s)
          end
      end
  end.

(** [can_create] says whether the directory and the file can be created; only a
    file that is missing is. *)
Definition EnsureKnownHosts (now : Z) (can_create : bool) (path : bytes) (s : state) : result host_error Callback * state :=
  match Stat path s with
  | Err ErrNotExist =>
      if can_create then KnownHosts now path (set_fs (<[path := {| f_mtime := now; f_content := [] |}]> (fs s)) s)
      else (Err ErrCreate, s)
  | _ => KnownHosts now path s
  end.

Definition DefaultKnownHosts (now : Z) (can_create : bool) (s : state) : result host_error Callback * state :=
  match DefaultKnownHostsPath s with
  | Err e => (Err e, s)
  | Ok path => EnsureKnownHosts now can_create path s
  end.

(** The path a call works on: the default one when none is given. *)
Definition target_file (knownFile : bytes) (s : state) : result host_error bytes :=
  if bytes_eqb knownFile [] then DefaultKnownHostsPath s else Ok knownFile.

Definition CheckKnownHost (now : Z) (host remote key knownFile : bytes) (s : state) :
    (bool * option host_error) * state :=
  match target_file knownFile s with
  | Err e => ((false, Some e), s)
  | Ok path =>
      let '(res, s') := KnownHosts now path s in
      match res with
      | Err e => ((false, Some e), s')
      | Ok cb =>
          match run_callback cb host remote key with
          | KeyMatches => ((true, None), s')
          | KeyError want => if (0 <? length want)%nat then ((true, Some ErrHostKeyMismatch), s')
                             else ((false, Some ErrHostNotFound), s')
          | OtherError => ((false, Some ErrCallback), s')
          end
      end
  end.

(** The line that is appended. *)
Definition host_line (host remote key : bytes) : bytes :=
  let remoteNormalized := Normalize remote in
  let hostNormalized := Normalize host in
  Line (remoteNormalized :: (if bytes_eqb hostNormalized remoteNormalized then [] else [hostNormalized])) key ++ [x0a].

(** Opening creates a file that is missing. *)
Definition touch_file (now : Z) (path : bytes) (m : gmap bytes file) : gmap bytes file :=
  match m !! path with Some _ => m | None => <[path := {| f_mtime := now; f_content := [] |}]> m end.

Definition append_file (now : Z) (path line : bytes) (m : gmap bytes file) : gmap bytes file :=
  <[path := {| f_mtime := now; f_content := match m !! path with Some f => f_content f | None => [] end ++ line |}]> m.

(** [can_open], [can_write]: whether the file can be opened and written. *)
Definition AddKnownHost (now : Z) (can_open can_write : bool) (host remote key knownFile : bytes) (s : state) :
    option host_error * state :=
  match target_file knownFile s with
  | Err e => (Some e, s)
  | Ok path =>
      if negb can_open || bool_decide (path ∈ denied s) then (Some ErrCreate, s)
      else if negb can_write then (Some ErrWrite, set_fs (touch_file now path (fs s)) s)
      else (None, set_cache (delete path (cache s)) (set_fs (append_file now path (host_line host remote key) (fs s)) s))
  end.

(** ** Histories

    Calls, and other programs writing files with any modification time, removing
    them and changing who may reach them.  [versions] remembers, newest first,
    what the files have contained and with which modification times. *)
Record version := { v_path : bytes; v_mtime : Z; v_content : bytes }.

Record history := { h_clock : Z; h_state : state; versions : list version }.

Inductive event :=
| Lookup (path : bytes)
| Ensure (can_create : bool) (path : bytes)
| AddHost (can_open can_write : bool) (host remote key path : bytes)
| Overwrite (path : bytes) (mtime : Z) (content : bytes)
| Remove (path : bytes)
| Permit (d : gset bytes).

Definition perform (t : Z) (e : event) (s : state) : state :=
  match e with
  | Lookup path => (KnownHosts t path s).2
  | Ensure c path => (EnsureKnownHosts t c path s).2
  | AddHost o w host remote key path => (AddKnownHost t o w host remote key path s).2
  | Overwrite path m content => set_fs (<[path := {| f_mtime := m; f_content := content |}]> (fs s)) s
  | Remove path => set_fs (delete path (fs s)) s
  | Permit d => set_denied d s
  end.

(** The path an event may write. *)
Definition event_path (e : event) (s : state) : option bytes :=
  match e with
  | Ensure _ path | Overwrite path _ _ => Some path
  | AddHost _ _ _ _ _ path => match target_file path s with Ok p => Some p | Err _ => None end
  | Lookup _ | Remove _ | Permit _ => None
  end.

(** The file at the path of an event, if the event has changed it. *)
Definition new_versions (e : event) (s s' : state) : list version :=
  match event_path e s with
  | Some p =>
      if decide (fs s' !! p = fs s !! p) then []
      else match fs s' !! p with Some f => [{| v_path := p; v_mtime := f_mtime f; v_content := f_content f |}] | None => [] end
  | None => []
  end.

(** One event at time [t]. *)
Definition step (t : Z) (e : event) (h : history) : history :=
  let s' := perform t e (h_state h) in
  {| h_clock := t; h_state := s'; versions := new_versions e (h_state h) s' ++ versions h |}.

Inductive reachable : history → Prop :=
| reach_init t d hm : reachable {| h_clock := t; h_state := {| fs := ∅; denied := d; cache := ∅; home := hm |}; versions := [] |}
| reach_step t e h : reachable h → h_clock h <= t → reachable (step t e h).

(** The modification times of each file have only grown. *)
Definition ordered (v : list version) : Prop :=
  StronglySorted (λ a b, v_path a = v_path b → v_mtime b < v_mtime a) v.

(** The newest version of a path. *)
Definition newest (v : list version) (p : bytes) (m : Z) (c : bytes) : Prop :=
  ∃ v1 v2, v = v1 ++ {| v_path := p; v_mtime := m; v_content := c |} :: v2 ∧ Forall (λ x, v_path x ≠ p) v1.

(** A file is the newest version of its path, and a cached callback was parsed from
    some version. *)
Record hosts_inv (h : history) : Prop := {
  inv_file : ∀ p f, fs (h_state h) !! p = Some f → newest (versions h) p (f_mtime f) (f_content f);
  inv_entry : ∀ p e, cache (h_state h) !! p = Some e →
    ∃ c, {| v_path := p; v_mtime := modTime e; v_content := c |} ∈ versions h ∧ knownhosts_New c = Some (callback e)
}.

Lemma newest_elem v p m c : newest v p m c → {| v_path := p; v_mtime := m; v_content := c |} ∈ v.
Proof. intros (v1 & v2 & -> & _). apply elem_of_app. right. left. Qed.

Lemma newest_other v x p m c : newest v p m c → v_path x ≠ p → newest (x :: v) p m c.
Proof. intros (v1 & v2 & -> & H) Hx. exists (x :: v1), v2. split; [done|]. by constructor. Qed.

(** In an ordered list a version that is not older than the newest one is it. *)
Lemma ordered_newest v p m c m' c' : ordered v → newest v p m c →
  {| v_path := p; v_mtime := m'; v_content := c' |} ∈ v → m <= m' → m' = m ∧ c' = c.
Proof.
  intros Ho (v1 & v2 & -> & Hn) Hin Hm. apply elem_of_app in Hin as [Hin|Hin].
  - rewrite Forall_forall in Hn. by apply Hn in Hin.
  - apply elem_of_cons in Hin as [[= -> ->]|Hin]; [done|]. unfold ordered in Ho. induction v1 as [|x v1 IH].
    + apply StronglySorted_inv in Ho as [_ Ho]. rewrite Forall_forall in Ho. specialize (Ho _ Hin eq_refl). cbn in Ho. lia.
    + apply Forall_cons in Hn as [_ Hn]. apply StronglySorted_inv in Ho as [Ho _]. by apply IH.
Qed.

Lemma Stat_fs p s f : Stat p s = Ok f → fs s !! p = Some f.
Proof. unfold Stat. case_bool_decide; [done|]. destruct (fs s !! p); [|done]. by intros [= ->]. Qed.

Lemma Stat_missing p s : Stat p s = Err ErrNotExist → fs s !! p = None.
Proof. unfold Stat. case_bool_decide; [done|]. by destruct (fs s !! p). Qed.

Lemma KnownHosts_fs t p s : fs (KnownHosts t p s).2 = fs s.
Proof. unfold KnownHosts. repeat case_match; done. Qed.

(** What [KnownHosts] keeps: entries it had, and the one parsed from the file. *)
Lemma KnownHosts_entries t p s q e : cache (KnownHosts t p s).2 !! q = Some e →
  (∃ e0, cache s !! q = Some e0 ∧ modTime e = modTime e0 ∧ callback e = callback e0) ∨
  (∃ f, fs s !! q = Some f ∧ modTime e = f_mtime f ∧ knownhosts_New (f_content f) = Some (callback e)).
Proof.
  unfold KnownHosts. destruct (cache s !! p) as [e0|] eqn:Ee; [destruct (_ <? _); [eauto|]|];
    (destruct (Stat p s) as [f|] eqn:Es; [apply Stat_fs in Es|by eauto]).
  - destruct (negb _); [|destruct (knownhosts_New _) as [cb|] eqn:En; [|by eauto]]; cbn;
      (intros [[<- <-]|[_ Hq]]%lookup_insert_Some; [|by eauto]); [left|right]; eauto.
  - destruct (knownhosts_New _) as [cb|] eqn:En; [|by eauto]. cbn. intros [[<- <-]|[_ Hq]]%lookup_insert_Some; [|by eauto].
    right. eauto.
Qed.

(** Events change the file at their path only. *)
Lemma perform_files t e s q f : fs (perform t e s) !! q = Some f → event_path e s = Some q ∨ fs s !! q = Some f.
Proof.
  destruct e as [p|c p|o w host remote key kf|p m c|p|d]; cbn; [rewrite KnownHosts_fs; auto|..|auto].
  - unfold EnsureKnownHosts. destruct (decide (p = q)) as [->|Hne]; [auto|].
    repeat case_match; cbn; rewrite ?KnownHosts_fs; cbn; rewrite ?lookup_insert_ne by done; auto.
  - unfold AddKnownHost. destruct (target_file kf s) as [p|]; [|auto]. destruct (decide (p = q)) as [->|Hne]; [auto|].
    unfold touch_file, append_file. repeat case_match; cbn; rewrite ?lookup_insert_ne by done; auto.
  - destruct (decide (p = q)) as [->|Hne]; [auto|]. rewrite lookup_insert_ne by done. auto.
  - intros [_ ?]%lookup_delete_Some. auto.
Qed.

Lemma perform_entries t e s q x : cache (perform t e s) !! q = Some x →
  (∃ x0, cache s !! q = Some x0 ∧ modTime x = modTime x0 ∧ callback x = callback x0) ∨
  (∃ f, fs (perform t e s) !! q = Some f ∧ modTime x = f_mtime f ∧ knownhosts_New (f_content f) = Some (callback x)).
Proof.
  destruct e as [p|c p|o w host remote key kf|p m c|p|d]; cbn; [rewrite KnownHosts_fs; apply KnownHosts_entries|..]; [| |by eauto..].
  - unfold EnsureKnownHosts. repeat case_match; cbn; rewrite ?KnownHosts_fs; eauto; intros H'%KnownHosts_entries; exact H'.
  - unfold AddKnownHost. repeat case_match; cbn; eauto. intros [_ ?]%lookup_delete_Some. eauto.
Qed.

Lemma hosts_step_inv h t e : hosts_inv h → hosts_inv (step t e h).
Proof.
  intros [Hf He]. assert (∀ p f, fs (h_state (step t e h)) !! p = Some f → newest (versions (step t e h)) p (f_mtime f) (f_content f)) as Hnew.
  { intros p f Hp. cbn in *. unfold new_versions. destruct (event_path e (h_state h)) as [p'|] eqn:Ee.
    - destruct (decide (p' = p)) as [->|Hne].
      + case_decide as Hs; [rewrite Hs in Hp; by apply Hf|]. rewrite Hp. by exists [], (versions h).
      + destruct (perform_files t e (h_state h) p f Hp) as [?|Hp']; [congruence|]. apply Hf in Hp'. case_decide; [done|].
        destruct (fs _ !! p'); [|done]. by apply newest_other.
    - destruct (perform_files t e (h_state h) p f Hp) as [?|Hp']; [congruence|]. by apply Hf. }
  split; [done|]. intros q x Hq. cbn in Hq. apply perform_entries in Hq as [(x0 & H0 & -> & ->)|(f & Hq & -> & Hn)].
  - destruct (He q x0 H0) as (c & Hc & Hn). exists c. split; [|done]. apply elem_of_app. by right.
  - exists (f_content f). split; [|done]. apply newest_elem. by apply Hnew.
Qed.

Lemma reachable_inv h : reachable h → hosts_inv h.
Proof.
  induction 1 as [t d hm|t e h Hr IH Ht]; [|by apply hosts_step_inv]. split; cbn; intros; by rewrite ?lookup_empty in *.
Qed.

(** C11: after any history of calls, outside edits and changes of permission, the
    callback [KnownHosts] returns was parsed from a version the file has had:
    its current content; or the one of the cache, when the last look was less
    than a second ago, when the file cannot be looked at, or when its
    modification time is not after that of the cached version. If the
    modification times of the files have only grown, the last case too gives
    the current content. *)
Theorem known_hosts_fresh h t p cb :
  reachable h → (KnownHosts t p (h_state h)).1 = Ok cb →
  ∃ m c, {| v_path := p; v_mtime := m; v_content := c |} ∈ versions h ∧ knownhosts_New c = Some cb ∧
    (Stat p (h_state h) = Ok {| f_mtime := m; f_content := c |} ∨
     ∃ e, cache (h_state h) !! p = Some e ∧ modTime e = m ∧ callback e = cb ∧
       (t - lastStat e < Second ∨ (∃ err, Stat p (h_state h) = Err err) ∨
        ∃ f, Stat p (h_state h) = Ok f ∧ f_mtime f <= m ∧
          (ordered (versions h) → f = {| f_mtime := m; f_content := c |}))).
Proof.
  intros Hr. destruct (reachable_inv h Hr) as [Hf He]. unfold KnownHosts.
  assert (∀ f, Stat p (h_state h) = Ok f → knownhosts_New (f_content f) = Some cb →
    ∃ m c, {| v_path := p; v_mtime := m; v_content := c |} ∈ versions h ∧ knownhosts_New c = Some cb ∧
      Stat p (h_state h) = Ok {| f_mtime := m; f_content := c |}) as Hcur.
  { intros f Ef Hn. exists (f_mtime f), (f_content f). split; [by apply newest_elem, Hf, Stat_fs|]. destruct f. by split. }
  destruct (cache (h_state h) !! p) as [e|] eqn:Ee.
  - destruct (He p e Ee) as (c & Hv & Hn). destruct (Z.ltb_spec (time_Sub t (lastStat e)) knownHostsStatInterval) as [Hlt|_].
    { intros [= <-]. exists (modTime e), c. split_and!; [done..|]. right. exists e. split_and!; [done..|]. left.
      revert Hlt. unfold knownHostsStatInterval, time_Sub, Second. lia. }
    destruct (Stat p (h_state h)) as [f|err] eqn:Es; cbn.
    2:{ intros [= <-]. exists (modTime e), c. split_and!; [done..|]. right. exists e. split_and!; eauto. }
    unfold After. destruct (Z.ltb_spec (modTime e) (f_mtime f)) as [Hlt|Hge]; cbn.
    + destruct (knownhosts_New (f_content f)) eqn:En; [|done]. intros [= ->].
      destruct (Hcur f eq_refl En) as (m & x & H1 & H2 & H3). exists m, x. split_and!; auto.
    + intros [= <-]. exists (modTime e), c. split_and!; [done..|]. right. exists e. split_and!; [done..|]. right. right. exists f.
      split_and!; [done..|]. intros Hor. destruct (ordered_newest _ p _ _ _ _ Hor (Hf p f (Stat_fs _ _ _ Es)) Hv Hge) as [-> ->]. by destruct f.
  - destruct (Stat p (h_state h)) as [f|] eqn:Es; [|done].
    destruct (knownhosts_New (f_content f)) eqn:En; cbn; [|done]. intros [= ->].
    destruct (Hcur f eq_refl En) as (m & x & H1 & H2 & H3). exists m, x. split_and!; auto.
Qed.

Lemma add_then_lookup now t o w host remote key kf p s : (AddKnownHost now o w host remote key kf s).1 = None →
  target_file kf s = Ok p →
  KnownHosts t p (AddKnownHost now o w host remote key kf s).2 =
    let c := match fs s !! p with Some f => f_content f | None => [] end ++ host_line host remote key in
    let s' := (AddKnownHost now o w host remote key kf s).2 in
    match knownhosts_New c with
    | None => (Err ErrParse, s')
    | Some cb => (Ok cb, set_cache (<[p := {| lastStat := t; modTime := now; callback := cb |}]> (cache s')) s')
    end.
Proof.
  intros Hadd Hp. revert Hadd. unfold AddKnownHost. rewrite Hp. destruct o; [|done]. cbn [negb orb].
  case_bool_decide as Hd; [done|]. destruct w; [|done]. intros _. cbn.
  unfold KnownHosts, Stat, append_file. cbn. by rewrite lookup_delete_eq, bool_decide_false, lookup_insert_eq.
Qed.

(** After a successful [AddKnownHost] the next check, however soon,
    is answered by the file with the new line at its end: a cached callback does
    not hide it.  The answer is a match exactly when the callback parsed from
    that content accepts the key, and a mismatch when it wants other keys. *)
Theorem add_known_host_visible now t o w host remote key kf s host' remote' key' cb p :
  (AddKnownHost now o w host remote key kf s).1 = None → target_file kf s = Ok p →
  knownhosts_New (match fs s !! p with Some f => f_content f | None => [] end ++ host_line host remote key) = Some cb →
  (CheckKnownHost t host' remote' key' kf (AddKnownHost now o w host remote key kf s).2).1 =
    match run_callback cb host' remote' key' with
    | KeyMatches => (true, None)
    | KeyError [] => (false, Some ErrHostNotFound)
    | KeyError _ => (true, Some ErrHostKeyMismatch)
    | OtherError => (false, Some ErrCallback)
    end.
Proof.
  intros Hadd Hp Hnew. unfold CheckKnownHost.
  assert (target_file kf (AddKnownHost now o w host remote key kf s).2 = Ok p) as ->.
  { rewrite <- Hp. unfold AddKnownHost. rewrite Hp. by repeat case_match. }
  rewrite (add_then_lookup now t o w host remote key kf p s Hadd Hp). cbv zeta. rewrite Hnew.
  destruct (run_callback cb host' remote' key') as [|[|k ks]|]; done.
Qed.

(** A file that was removed, or may not be read any more, goes on being trusted: an
    entry in the cache answers at any later time, and is never dropped. *)
Lemma deleted_file_still_trusted t p s e err : cache s !! p = Some e → Stat p s = Err err →
  KnownHosts t p s = (Ok (callback e), s).
Proof. intros He Hf. unfold KnownHosts. rewrite He, Hf. by destruct (_ <? _). Qed.
End hosts.

(** ** Keys

    Parsing of keys and certificates is golang.org/x/crypto/ssh's; files are read
    from the same map. *)
Inductive key_error := KeyFileMissing | ErrInvalidPrivateKey | ErrInvalidCertificate.

Section keys.
Variables Signer PublicKey Certificate : Type.
Variable ParsePrivateKey : bytes → option Signer.
Variable ParsePrivateKeyWithPassphrase : bytes → bytes → option Signer.
Variable ParseAuthorizedKey : bytes → option PublicKey.
Variable as_certificate : PublicKey → option Certificate.
Variable NewCertSigner : Certificate → Signer → option Signer.

Definition ParseKey (privateKey passphrase : bytes) : result key_error Signer :=
  if negb (bytes_eqb passphrase []) then
    match ParsePrivateKeyWithPassphrase privateKey passphrase with
    | Some signer => Ok signer
    | None => Err ErrInvalidPrivateKey
    end
  else
    match ParsePrivateKey privateKey with
    | Some signer => Ok signer
    | None => Err ErrInvalidPrivateKey
    end.

Definition ParseKeyFile (files : gmap bytes file) (prvFile passphrase : bytes) : result key_error Signer :=
  match files !! prvFile with
  | None => Err KeyFileMissing
  | Some f => ParseKey (f_content f) passphrase
  end.

Definition ParseCertKey (certBytes keyBytes passphrase : bytes) : result key_error Signer :=
  match ParseKey keyBytes passphrase with
  | Err e => Err e
  | Ok signer =>
      match ParseAuthorizedKey certBytes with
      | None => Err ErrInvalidCertificate
      | Some pubKey =>
          match as_certificate pubKey with
          | None => Err ErrInvalidCertificate
          | Some cert =>
              match NewCertSigner cert signer with
              | None => Err ErrInvalidCertificate
              | Some certSigner => Ok certSigner
              end
          end
      end
  end.

Definition ParseCertKeyFile (files : gmap bytes file) (certFile keyFile passphrase : bytes) : result key_error Signer :=
  match files !! certFile with
  | None => Err KeyFileMissing
  | Some c =>
      match files !! keyFile with
      | None => Err KeyFileMissing
      | Some k => ParseCertKey (f_content c) (f_content k) passphrase
      end
  end.
End keys.

(** ** A concrete run

    A callback is the list of trusted lines; a line is the key alone. *)
Module KnownHostsSample.

Definition new (c : bytes) : option (list bytes) := Some (Split c x0a).
Definition ask (cb : list bytes) (host remote key : bytes) : verdict :=
  if existsb (bytes_eqb key) cb then KeyMatches else KeyError [].
Definition line (addrs : list bytes) (key : bytes) : bytes := key.

Definition h0 : history (list bytes) :=
  {| h_clock := 0; h_state := {| fs := ∅; denied := ∅; cache := ∅; home := Some (str "/root") |}; versions := [] |}.
Definition h1 := step _ new id line 1 (Overwrite (str "kh") 1 (str "k1")) h0.
Definition h2 := step _ new id line 2 (Lookup (str "kh")) h1.
Definition h3 := step _ new id line (3 * Second) (Overwrite (str "kh") (3 * Second) (str "k2")) h2.

Lemma h3_reachable : reachable _ new id line h3.
Proof. unfold h3, h2, h1. repeat (apply reach_step; [|done]). apply reach_init. Qed.

Lemma known_hosts_fresh_witness :
  (KnownHosts _ new (4 * Second) (str "kh") (h_state _ h3)).1 = Ok [str "k2"] ∧
  ∃ m c, {| v_path := str "kh"; v_mtime := m; v_content := c |} ∈ versions _ h3 ∧ new c = Some [str "k2"].
Proof.
  split; [vm_compute; reflexivity|].
  destruct (known_hosts_fresh _ new id line h3 (4 * Second) (str "kh") [str "k2"]) as (m & c & H1 & H2 & _);
    [exact h3_reachable|vm_compute; reflexivity|]. exists m, c. exact (conj H1 H2).
Defined.

(** A write that keeps the modification time is not seen. *)
Example same_mtime_unseen :
  let h := step _ new id line (3 * Second) (Overwrite (str "kh") 1 (str "k2")) h2 in
  (KnownHosts _ new (9 * Second) (str "kh") (h_state _ h)).1 = Ok [str "k1"].
Proof. vm_compute. reflexivity. Qed.

Definition after_add : option host_error * state (list bytes) :=
  AddKnownHost _ id line (2 * Second) true true (str "a") (str "b") (str "k3") (str "kh") (h_state _ h2).

Lemma add_known_host_visible_witness :
  after_add.1 = None ∧
  (CheckKnownHost _ new ask (2 * Second + 1) (str "a") (str "b") (str "k1k3") (str "kh") after_add.2).1 = (true, None).
Proof.
  split; [vm_compute; reflexivity|].
  apply (add_known_host_visible _ new ask id line (2 * Second) (2 * Second + 1) true true (str "a") (str "b") (str "k3") (str "kh")
    (h_state _ h2) (str "a") (str "b") (str "k1k3") [str "k1k3"; []] (str "kh")); vm_compute; reflexivity.
Defined.

(** The key that was trusted is gone with the file, and still accepted a day
    later. *)
Example removed_file_trusted :
  (CheckKnownHost _ new ask (24 * Hour) (str "a") (str "b") (str "k1") (str "kh")
    (h_state _ (step _ new id line 3 (Remove (str "kh")) h2))).1 = (true, None).
Proof. vm_compute. reflexivity. Qed.
End KnownHostsSample.
