(* ===== verification/SshConfig.v ===== *)
(** * OpenSSH configuration files (src/ssh/config.go)

    The parser of the directives the client uses, and the lookup of a host.  The
    pointer to the section being read always is the entry of the map under its
    own name, so the parser keeps that name. *)

From S2P Require Import Prelude GoLib GoText GoFile.

#[local] Open Scope Z_scope.

Record HostConfig := {
  Host : bytes;
  HostName : bytes;
  User : bytes;
  Port : Z;
  IdentityFiles : list bytes;
  ProxyJump : bytes;
  ProxyCommand : bytes;
  StrictHostKeyChecking : bytes;
  UserKnownHostsFile : bytes
}.

Definition new_host (name : bytes) : HostConfig :=
  {| Host := name; HostName := []; User := []; Port := 0; IdentityFiles := []; ProxyJump := []; ProxyCommand := [];
     StrictHostKeyChecking := []; UserKnownHostsFile := [] |}.

Record SSHConfig := { Hosts : gmap bytes HostConfig }.

Section config.
Context `{UnicodeCase}.

(** The inner switch: a directive of the current section. *)
Definition set_directive (key val : bytes) (h : HostConfig) : HostConfig :=
  let '(Build_HostConfig n hn u p ids pj pc sh kf) := h in
  if bytes_eqb key (str "hostname") then Build_HostConfig n val u p ids pj pc sh kf
  else if bytes_eqb key (str "user") then Build_HostConfig n hn val p ids pj pc sh kf
  else if bytes_eqb key (str "port") then
    match ParseUint 32 val with
    | (v, None) => Build_HostConfig n hn u v ids pj pc sh kf
    | _ => h
    end
  else if bytes_eqb key (str "identityfile") then Build_HostConfig n hn u p (ids ++ [val]) pj pc sh kf
  else if bytes_eqb key (str "proxyjump") then Build_HostConfig n hn u p ids val pc sh kf
  else if bytes_eqb key (str "proxycommand") then Build_HostConfig n hn u p ids pj val sh kf
  else if bytes_eqb key (str "stricthostkeychecking") then Build_HostConfig n hn u p ids pj pc val kf
  else if bytes_eqb key (str "userknownhostsfile") then Build_HostConfig n hn u p ids pj pc sh val
  else h.

(** The map, and the name of the current section. *)
Definition parser : Type := gmap bytes HostConfig * option bytes.

(** One round of the scan loop. *)
Definition config_line (st : parser) (text : bytes) : parser :=
  let line := TrimSpace text in
  if bytes_eqb line [] || HasPrefix line (str "#") then st
  else
    match Fields line with
    | f0 :: f1 :: rest =>
        let key := ToLower f0 in
        let val := Join (f1 :: rest) (str " ") in
        let '(hosts, current) := st in
        if bytes_eqb key (str "host") then (<[f1 := new_host f1]> hosts, Some f1)
        else
          let '(hosts, cur) :=
            match current with
            | Some c => (hosts, c)
            | None => (<[str "*" := new_host (str "*")]> hosts, str "*")
            end in
          (alter (set_directive key val) cur hosts, Some cur)
    | _ => st
    end.

(** The configuration read so far, and whether the scanner failed. *)
Definition ParseSSHConfig (content : bytes) : SSHConfig * bool :=
  let '(lines, err) := Scan_lines content in
  ({| Hosts := (foldl config_line (∅, None) lines).1 |}, err).

Definition GetHost (cfg : SSHConfig) (alias : bytes) : HostConfig :=
  match Hosts cfg !! alias with
  | Some h => h
  | None =>
      match Hosts cfg !! str "*" with
      | Some w => {| Host := alias; HostName := alias; User := User w; Port := Port w; IdentityFiles := IdentityFiles w;
                     ProxyJump := []; ProxyCommand := []; StrictHostKeyChecking := []; UserKnownHostsFile := [] |}
      | None => {| Host := alias; HostName := alias; User := []; Port := 0; IdentityFiles := [];
                   ProxyJump := []; ProxyCommand := []; StrictHostKeyChecking := []; UserKnownHostsFile := [] |}
      end
  end.

(** ** Writing a configuration *)

Definition directive (key : bytes) (ws : list bytes) : bytes := " "%byte :: key ++ str " " ++ Join ws (str " ").

(** What is to be written: values as their words. *)
Record section := {
  s_name : bytes;
  s_hostname : list bytes;
  s_user : list bytes;
  s_port : Z;
  s_ids : list (list bytes);
  s_jump : list bytes;
  s_command : list bytes;
  s_strict : list bytes;
  s_known : list bytes
}.

Definition optional (key : bytes) (ws : list bytes) : list bytes :=
  match ws with [] => [] | _ => [directive key ws] end.

Definition render_section (s : section) : list bytes :=
  [str "Host " ++ s_name s] ++ optional (str "HostName") (s_hostname s) ++ optional (str "User") (s_user s) ++
  (if 0 <? s_port s then [directive (str "Port") [digits (s_port s)]] else []) ++
  map (directive (str "IdentityFile")) (s_ids s) ++ optional (str "ProxyJump") (s_jump s) ++
  optional (str "ProxyCommand") (s_command s) ++ optional (str "StrictHostKeyChecking") (s_strict s) ++
  optional (str "UserKnownHostsFile") (s_known s).

Definition value (ws : list bytes) : bytes := Join ws (str " ").

Definition host_of (s : section) : HostConfig :=
  {| Host := s_name s; HostName := value (s_hostname s); User := value (s_user s); Port := s_port s;
     IdentityFiles := map value (s_ids s); ProxyJump := value (s_jump s); ProxyCommand := value (s_command s);
     StrictHostKeyChecking := value (s_strict s); UserKnownHostsFile := value (s_known s) |}.

Definition wf_value (ws : list bytes) : Prop := Forall word ws ∧ Z.of_nat (length (value ws)) < 60000.

Record wf_section (s : section) : Prop := {
  wf_name : word (s_name s) ∧ Z.of_nat (length (s_name s)) < 60000;
  wf_values : Forall wf_value ([s_hostname s; s_user s; s_jump s; s_command s; s_strict s; s_known s] ++ s_ids s);
  wf_ids : Forall (λ ws, ws ≠ []) (s_ids s);
  wf_port : 0 <= s_port s < 2 ^ 32
}.

(** ** Lines of a section *)

Lemma word_not_nl w c : Forall graphic w → bz c < 33 → c ∉ w.
Proof. intros Hw Hc Hin. rewrite Forall_forall in Hw. specialize (Hw c Hin). unfold graphic in Hw. lia. Qed.

Lemma Join_no_nl ws : Forall word ws → x0a ∉ Join ws (str " ").
Proof.
  induction ws as [|w ws IH]; [by intros _ ?%elem_of_nil|]. intros [[_ Hg] Hw]%Forall_cons.
  destruct ws as [|w' ws]; [by apply word_not_nl|]. rewrite Join_cons by done.
  rewrite !not_elem_of_app. split_and!; [by apply word_not_nl|by vm_compute; intros ?%list_elem_of_singleton|by apply IH].
Qed.

Lemma digits_word n : 0 <= n → word (digits n).
Proof.
  intros Hn. destruct (digits_spec n Hn) as (_ & Hd & Hne). split; [done|]. eapply Forall_impl; [exact Hd|].
  intros c Hc. unfold is_digit, between in Hc. bools. change (bz "0") with 48 in *. change (bz "9") with 57 in *. unfold graphic. lia.
Qed.

Lemma directive_Join key ws : ws ≠ [] → directive key ws = " "%byte :: Join (key :: ws) (str " ").
Proof. intros Hne. unfold directive. by rewrite Join_cons. Qed.

(** A keyword of the file: a word that does not start a comment. *)
Definition keyword (key : bytes) : Prop := word key ∧ HasPrefix key (str "#") = false.

Lemma keyword_check key :
  negb (bytes_eqb key []) && forallb (λ c, bool_decide (graphic c)) key && negb (HasPrefix key (str "#")) = true → keyword key.
Proof.
  intros Hk. bools. split; [split; [done|]|done]. apply Forall_forall. intros c Hc.
  match goal with Hf : forallb _ _ = true |- _ => rewrite forallb_forall in Hf; apply (bool_decide_eq_true_1 _), Hf end.
  by apply list_elem_of_In.
Qed.

Lemma keyword_line key ws : keyword key → Forall word ws →
  bytes_eqb (Join (key :: ws) (str " ")) [] || HasPrefix (Join (key :: ws) (str " ")) (str "#") = false.
Proof.
  intros [[Hne Hg] Hc] Hw. destruct key as [|a key]; [done|]. apply orb_false_iff. destruct ws; cbn in *; by destruct (a =b "#").
Qed.

Lemma directive_line key k ws hosts n h : keyword key → ToLower key = k → bytes_eqb k (str "host") = false →
  Forall word ws → ws ≠ [] →
  config_line (<[n := h]> hosts, Some n) (directive key ws) = (<[n := set_directive k (value ws) h]> hosts, Some n).
Proof.
  intros Hk <- Hh Hw Hne. unfold config_line. rewrite directive_Join by done.
  assert (Forall word (key :: ws)) as Hall by (constructor; [apply Hk|done]).
  rewrite TrimSpace_blank by (by apply Join_words_tight). rewrite keyword_line by done. rewrite Fields_Join by done.
  destruct ws as [|w ws]; [done|]. rewrite Hh. by rewrite alter_insert_eq.
Qed.

Lemma host_line_step st n : word n → config_line st (str "Host " ++ n) = (<[n := new_host n]> st.1, Some n).
Proof.
  intros Hn. change (str "Host " ++ n) with (Join [str "Host"; n] (str " ")). unfold config_line.
  assert (keyword (str "Host")) as Hk by (by apply keyword_check; vm_compute).
  assert (Forall word [str "Host"; n]) as Hall by (apply Forall_cons; split; [apply Hk|by apply Forall_singleton]).
  rewrite TrimSpace_tight by (by apply Join_words_tight). rewrite keyword_line by (done || by apply Forall_singleton).
  rewrite Fields_Join by done. by destruct st.
Qed.

(** Applying an optional directive to a section. *)
Definition with_value (k : bytes) (ws : list bytes) (h : HostConfig) : HostConfig :=
  match ws with [] => h | _ => set_directive k (value ws) h end.

Lemma optional_lines key k ws hosts n h : keyword key → ToLower key = k → bytes_eqb k (str "host") = false → Forall word ws →
  foldl config_line (<[n := h]> hosts, Some n) (optional key ws) = (<[n := with_value k ws h]> hosts, Some n).
Proof. intros Hk Hl Hh Hw. destruct ws as [|w ws]; [done|]. cbn [optional foldl]. by apply directive_line. Qed.

Lemma identity_lines key k l hosts n h : keyword key → ToLower key = k → bytes_eqb k (str "host") = false →
  Forall (Forall word) l → Forall (λ ws, ws ≠ []) l →
  foldl config_line (<[n := h]> hosts, Some n) (map (directive key) l) =
    (<[n := foldl (λ h ws, set_directive k (value ws) h) h l]> hosts, Some n).
Proof.
  intros Hk Hl Hh Hw Hne. revert h. induction Hw as [|ws l Hws Hw IH]; intros h; [done|].
  apply Forall_cons in Hne as [Hn Hne]. cbn [map foldl]. rewrite (directive_line key k) by done. by apply IH.
Qed.

Lemma port_lines p hosts n h : 0 <= p < 2 ^ 32 →
  foldl config_line (<[n := h]> hosts, Some n) (if 0 <? p then [directive (str "Port") [digits p]] else []) =
    (<[n := if 0 <? p then set_directive (str "port") (digits p) h else h]> hosts, Some n).
Proof.
  intros Hp. destruct (0 <? p) eqn:E; [|done]. bools. cbn [foldl].
  rewrite (directive_line (str "Port") (str "port")); [done| |done|done|apply Forall_singleton, digits_word; lia|done].
  by apply keyword_check; vm_compute.
Qed.

Ltac keyword := by apply keyword_check; vm_compute.

Lemma with_values n hn u p ids pj pc sh kf :
  with_value (str "userknownhostsfile") kf
   (with_value (str "stricthostkeychecking") sh
    (with_value (str "proxycommand") pc
     (with_value (str "proxyjump") pj
      (foldl (λ h ws, set_directive (str "identityfile") (value ws) h)
        (if 0 <? p then set_directive (str "port") (digits p) (with_value (str "user") u (with_value (str "hostname") hn (new_host n)))
         else with_value (str "user") u (with_value (str "hostname") hn (new_host n))) ids)))) =
  host_of (Build_section n hn u (if 0 <? p then (ParseUint 32 (digits p)).1 else 0) ids pj pc sh kf) ∨
  (ParseUint 32 (digits p)).2 ≠ None.
Proof.
  destruct (ParseUint 32 (digits p)) as [v e] eqn:Ep. destruct e as [e|]; [by right|]. left.
  assert (∀ hn' u' p' i0, foldl (λ h ws, set_directive (str "identityfile") (value ws) h)
    (Build_HostConfig n hn' u' p' i0 [] [] [] []) ids = Build_HostConfig n hn' u' p' (i0 ++ map value ids) [] [] [] []) as Hids.
  { induction ids as [|ws ids IH]; intros hn' u' p' i0; cbn [foldl map]; [by rewrite app_nil_r|].
    transitivity (foldl (λ h ws, set_directive (str "identityfile") (value ws) h)
      (Build_HostConfig n hn' u' p' (i0 ++ [value ws]) [] [] [] []) ids); [done|]. by rewrite IH, <- app_assoc. }
  assert (with_value (str "user") u (with_value (str "hostname") hn (new_host n)) =
    Build_HostConfig n (value hn) (value u) 0 [] [] [] [] []) as -> by (by destruct hn, u).
  assert ((if 0 <? p then set_directive (str "port") (digits p) (Build_HostConfig n (value hn) (value u) 0 [] [] [] [] [])
    else Build_HostConfig n (value hn) (value u) 0 [] [] [] [] []) =
    Build_HostConfig n (value hn) (value u) (if 0 <? p then v else 0) [] [] [] [] []) as ->.
  { destruct (0 <? p); [|done]. unfold set_directive.
    change (bytes_eqb (str "port") (str "hostname")) with false. change (bytes_eqb (str "port") (str "user")) with false.
    change (bytes_eqb (str "port") (str "port")) with true. cbn iota. by rewrite Ep. }
  rewrite Hids. by destruct pj, pc, sh, kf.
Qed.

(** A section is read as the host it describes. *)
Lemma section_lines s st : wf_section s →
  foldl config_line st (render_section s) = (<[s_name s := host_of s]> st.1, Some (s_name s)).
Proof.
  intros [[Hn _] Hv Hids Hp]. apply Forall_app in Hv as [Hv Hvi].
  repeat match goal with H : Forall _ (_ :: _) |- _ => apply Forall_cons in H as [[? _] H] end.
  assert (Forall (Forall word) (s_ids s)) as Hwi by (eapply Forall_impl; [exact Hvi|]; by intros ? [? _]).
  unfold render_section. rewrite !foldl_app. cbn [foldl]. rewrite host_line_step by done.
  rewrite (optional_lines (str "HostName") (str "hostname")) by (done || keyword).
  rewrite (optional_lines (str "User") (str "user")) by (done || keyword). rewrite port_lines by done.
  rewrite (identity_lines (str "IdentityFile") (str "identityfile")) by (done || keyword).
  rewrite (optional_lines (str "ProxyJump") (str "proxyjump")) by (done || keyword).
  rewrite (optional_lines (str "ProxyCommand") (str "proxycommand")) by (done || keyword).
  rewrite (optional_lines (str "StrictHostKeyChecking") (str "stricthostkeychecking")) by (done || keyword).
  rewrite (optional_lines (str "UserKnownHostsFile") (str "userknownhostsfile")) by (done || keyword).
  destruct (with_values (s_name s) (s_hostname s) (s_user s) (s_port s) (s_ids s) (s_jump s) (s_command s) (s_strict s) (s_known s))
    as [-> | Hbad]; [|by rewrite ParseUint_digits in Hbad].
  rewrite ParseUint_digits by done. do 2 f_equal. destruct s as [? ? ? p]. cbn in *. unfold host_of. cbn. f_equal.
  destruct (0 <? p) eqn:E; [done|]. bools. lia.
Qed.

(** ** The whole file *)

Definition good_line (s : bytes) : Prop := x0a ∉ s ∧ Z.of_nat (length s) < maxScanTokenSize ∧ last s ≠ Some x0d.

Lemma words_line ws : Forall word ws → Z.of_nat (length (value ws)) < maxScanTokenSize → good_line (value ws).
Proof.
  intros Hw Hl. split_and!; [by apply Join_no_nl|done|]. intros Hlast. apply Join_words_tight in Hw as [_ Ht].
  specialize (Ht _ Hlast). unfold graphic in Ht. change (bz x0d) with 13 in Ht. lia.
Qed.

Lemma directive_good key ws : keyword key → (length key < 100)%nat → wf_value ws → ws ≠ [] → good_line (directive key ws).
Proof.
  intros Hk Hl [Hw Hv] Hne. rewrite directive_Join by done.
  destruct (words_line (key :: ws)) as (H1 & H2 & H3); [constructor; [apply Hk|done]| |].
  { unfold value in *. rewrite Join_cons by done. rewrite !length_app. unfold maxScanTokenSize. cbn [length str String.list_byte_of_string].
    change (length (str " ")) with 1%nat. lia. }
  unfold value in *. split_and!.
  - apply not_elem_of_cons. by split.
  - cbn [length]. rewrite Join_cons in * by done. rewrite !length_app in *. change (length (str " ")) with 1%nat. unfold maxScanTokenSize. lia.
  - intros Hlast. apply H3. rewrite <- Hlast. destruct (Join (key :: ws) (str " ")) eqn:E; [|done].
    rewrite Join_cons in E by done. by destruct key, Hk as [[? _] _].
Qed.

Lemma optional_good key ws : keyword key → (length key < 100)%nat → wf_value ws → Forall good_line (optional key ws).
Proof. intros Hk Hl Hv. destruct ws as [|w ws]; [constructor|]. apply Forall_singleton. by apply directive_good. Qed.

Lemma digits_short n : 0 <= n < 2 ^ 32 → Z.of_nat (length (digits n)) < 60000.
Proof.
  intros Hn. assert (∀ fuel m acc, (length (digits_acc fuel m acc) <= fuel + length acc)%nat) as Hlen.
  { induction fuel as [|f IH]; intros m acc; cbn [digits_acc]; [lia|]. case_match; cbn [length]; [lia|].
    etransitivity; [apply IH|]. cbn [length]. lia. }
  unfold digits. specialize (Hlen (S (Z.to_nat (Z.log2 n))) n []). cbn [length] in Hlen.
  assert (Z.log2 n < 33); [|pose proof (Z.log2_nonneg n); lia].
  destruct (Z.eq_dec n 0) as [->|]; [done|]. apply Z.log2_lt_pow2; lia.
Qed.

Lemma section_good s : wf_section s → Forall good_line (render_section s).
Proof.
  intros [[Hn Hnl] Hv Hids Hp]. apply Forall_app in Hv as [Hv Hvi].
  repeat match goal with H : Forall _ (_ :: _) |- _ => apply Forall_cons in H as [? H] end.
  unfold render_section. repeat apply Forall_app_2; try (apply optional_good; [keyword|cbn; lia|done]).
  - apply Forall_singleton. change (str "Host " ++ s_name s) with (value [str "Host"; s_name s]). apply words_line.
    + apply Forall_cons; split; [apply keyword_check; by vm_compute|by apply Forall_singleton].
    + unfold value. cbn [Join]. rewrite !length_app. change (length (str "Host")) with 4%nat. change (length (str " ")) with 1%nat.
      unfold maxScanTokenSize. lia.
  - destruct (0 <? s_port s); [|done]. apply Forall_singleton, directive_good; [keyword|cbn; lia| |done].
    split; [apply Forall_singleton, digits_word; lia|by apply digits_short].
  - apply Forall_map, Forall_forall. intros ws Hin. rewrite Forall_forall in Hvi, Hids.
    apply directive_good; [keyword|cbn; lia|by apply Hvi|by apply Hids].
Qed.

Definition render_config (l : list section) : bytes := unlines (concat (map render_section l)).

Lemma sections_lines l st : Forall wf_section l →
  foldl config_line st (concat (map render_section l)) =
    (foldl (λ m s, <[s_name s := host_of s]> m) st.1 l, match last l with Some s => Some (s_name s) | None => st.2 end).
Proof.
  intros Hl. revert st. induction Hl as [|s l Hs Hl IH]; intros st; [by destruct st|].
  cbn [map concat foldl]. rewrite foldl_app, section_lines, IH by done. rewrite last_cons. by destruct (last l).
Qed.

Lemma foldl_insert_lookup (l : list section) (m : gmap bytes HostConfig) k :
  NoDup (map s_name l) →
  foldl (λ m s, <[s_name s := host_of s]> m) m l !! k =
    match List.find (λ s, bytes_eqb (s_name s) k) l with Some s => Some (host_of s) | None => m !! k end.
Proof.
  revert m. induction l as [|s l IH]; intros m Hnd; [done|]. apply NoDup_cons in Hnd as [Hni Hnd]. cbn [foldl List.find].
  rewrite IH by done. destruct (bytes_eqb (s_name s) k) eqn:E; bools.
  - subst k. destruct (List.find _ l) as [s'|] eqn:Ef; [|by rewrite lookup_insert_eq].
    apply List.find_some in Ef as [Hin He]. bools. destruct Hni. rewrite <- He. apply list_elem_of_fmap. exists s'. split; [done|by apply list_elem_of_In].
  - destruct (List.find _ l); [done|]. by rewrite lookup_insert_ne.
Qed.

(** C27: a configuration of sections with distinct names and plain values, written
    out section by section, is read back without error. A host with a section gets
    exactly what that section says. A host without one gets of the wildcard section
    the user, the port and the identity files, with its own name as address; the
    jump host, the proxy command, strict host key checking and the known-hosts file of
    the wildcard section are lost on it, although [GetHost] is documented to fall back to the
    wildcard's settings. *)
Theorem config_roundtrip l alias : Forall wf_section l → NoDup (map s_name l) →
  let '(cfg, err) := ParseSSHConfig (render_config l) in
  err = false ∧
  GetHost cfg alias =
    match List.find (λ s, bytes_eqb (s_name s) alias) l with
    | Some s => host_of s
    | None =>
        match List.find (λ s, bytes_eqb (s_name s) (str "*")) l with
        | Some w => host_of {| s_name := alias; s_hostname := [alias]; s_user := s_user w; s_port := s_port w; s_ids := s_ids w;
                               s_jump := []; s_command := []; s_strict := []; s_known := [] |}
        | None => host_of {| s_name := alias; s_hostname := [alias]; s_user := []; s_port := 0; s_ids := [];
                             s_jump := []; s_command := []; s_strict := []; s_known := [] |}
        end
    end.
Proof.
  intros Hl Hnd. unfold ParseSSHConfig, render_config. rewrite Scan_unlines.
  - rewrite sections_lines by done. cbn. split; [done|]. unfold GetHost. cbn. rewrite !foldl_insert_lookup by done.
    destruct (List.find _ l) as [s|]; [done|]. cbn. rewrite lookup_empty. destruct (List.find _ l) as [w|]; [done|]. by rewrite lookup_empty.
  - apply Forall_concat, Forall_map. eapply Forall_impl; [exact Hl|]. intros s Hs. by apply section_good.
Qed.
End config.

(** ** A concrete configuration *)
Module ConfigSample.

#[local] Instance cfg_case : UnicodeCase :=
  {| unicode_ToLower := id; unicode_ToUpper := id; unicode_EqualFold := bytes_eqb |}.

Definition web : section :=
  {| s_name := str "web"; s_hostname := [str "10.0.0.1"]; s_user := [str "deploy"]; s_port := 2222; s_ids := [[str "~/.ssh/id"]];
     s_jump := []; s_command := []; s_strict := [str "no"]; s_known := [] |}.
Definition star : section :=
  {| s_name := str "*"; s_hostname := []; s_user := [str "me"]; s_port := 0; s_ids := [];
     s_jump := [str "bastion"]; s_command := []; s_strict := []; s_known := [str "/etc/kh"] |}.

Lemma word_ok w : negb (bytes_eqb w []) && forallb (λ c, bool_decide (graphic c)) w = true → word w.
Proof.
  intros Hw. bools. split; [done|]. apply Forall_forall. intros c Hc.
  match goal with Hf : forallb _ _ = true |- _ => rewrite forallb_forall in Hf; apply (bool_decide_eq_true_1 _), Hf end.
  by apply list_elem_of_In.
Qed.

Lemma sample_wf : Forall wf_section [web; star].
Proof.
  repeat apply Forall_cons_2; [..|apply Forall_nil_2]; constructor; cbn; try lia.
  all: repeat first [apply Forall_cons_2|apply Forall_nil_2|split; [|cbn; lia]]; first [done|by apply word_ok; vm_compute|cbn; lia].
Qed.

Lemma config_roundtrip_witness :
  NoDup (map s_name [web; star]) ∧
  let '(cfg, err) := ParseSSHConfig (render_config [web; star]) in
  err = false ∧ GetHost cfg (str "db") = host_of {| s_name := str "db"; s_hostname := [str "db"]; s_user := [str "me"];
    s_port := 0; s_ids := []; s_jump := []; s_command := []; s_strict := []; s_known := [] |}.
Proof.
  assert (NoDup (map s_name [web; star])) as Hnd by (apply (bool_decide_eq_true_1 _); vm_compute; reflexivity).
  split; [exact Hnd|]. apply (config_roundtrip [web; star] (str "db") sample_wf Hnd).
Defined.

(** Of several patterns of a [Host] line only the first is kept, and of a
    directive written with an equals sign nothing. *)
Example patterns_dropped :
  let cfg := (ParseSSHConfig (unlines [str "Host a b"; str " Port 2222"; str " User=x"])).1 in
  Port (GetHost cfg (str "a")) = 2222 ∧ Port (GetHost cfg (str "b")) = 0 ∧ User (GetHost cfg (str "a")) = [].
Proof. vm_compute. done. Qed.

(** A host with a section of its own gets nothing of the wildcard section. *)
Example wildcard_not_merged :
  let cfg := (ParseSSHConfig (render_config [web; star])).1 in
  UserKnownHostsFile (GetHost cfg (str "web")) = [] ∧ ProxyJump (GetHost cfg (str "db")) = [] ∧
  UserKnownHostsFile (GetHost cfg (str "db")) = [].
Proof. vm_compute. done. Qed.
End ConfigSample.
