(* ===== verification/SshClient.v ===== *)
(** * The SSH client: options and connection (src/ssh/options.go, client.go, config.go)

    Options are functions on the client and its [ssh.ClientConfig]; [New] applies
    them, dials and runs the handshake.  The SSH protocol, the agent and the
    network are a class; the log records the connections that are opened and
    closed. *)

From S2P Require Import Prelude GoLib GoText GoURL GoFile SshSocks SshKnownHosts SshConfig.

#[local] Open Scope Z_scope.

(** ** golang.org/x/crypto/ssh and the network *)

Class SshLib := {
  Callback : Type;
  knownhosts_New : bytes → option Callback;
  run_callback : Callback → bytes → bytes → bytes → verdict;
  Signer : Type;
  ParsePrivateKey : bytes → option Signer;
  ParsePrivateKeyWithPassphrase : bytes → bytes → option Signer;
  PublicKey : Type;
  Certificate : Type;
  ParseAuthorizedKey : bytes → option PublicKey;
  as_certificate : PublicKey → option Certificate;
  NewCertSigner : Certificate → Signer → option Signer;
  FingerprintSHA256 : bytes → bytes;
  (** The agent package: what its constructors return. *)
  agent_AuthMethod : nat → bool;
  agent_AuthMethodSocket : bytes → bool;
  agent_DefaultAuthMethod : bool
}.

Inductive ssh_error :=
| HostError (e : host_error)
| KeyParseError (e : key_error)
| ErrProxyAndJumpConflict
| ErrDial
| ErrBadProxyURL
| ErrSSHDialFailed
| ErrConfigRead
| ErrCustom.

Section ssh.
Context `{SshLib, UnicodeCase}.

Notation hosts := (SshKnownHosts.state Callback).

Inductive HostKeyCallback :=
| KnownHostsCallback (cb : Callback)
| FingerprintCallback (fingerprint : bytes)
| InsecureIgnoreHostKey
| CustomCallback (f : bytes → bytes → bytes → bool).

(** Whether the callback returns nil. *)
Definition accepts (cb : HostKeyCallback) (host remote key : bytes) : bool :=
  match cb with
  | KnownHostsCallback c => match run_callback c host remote key with KeyMatches => true | _ => false end
  | FingerprintCallback fp => bytes_eqb (FingerprintSHA256 key) fp
  | InsecureIgnoreHostKey => true
  | CustomCallback f => f host remote key
  end.

Inductive AuthMethod :=
| Password (p : bytes)
| KeyboardInteractive (handler : bytes → bytes → bytes → bool → option bytes)
| PublicKeys (signer : Signer)
| AgentConn (conn : nat)
| AgentSocket (socket : bytes)
| AgentDefault
| OtherAuth (id : nat).

Record ClientConfig := {
  Auth : list AuthMethod;
  Ciphers : list bytes;
  KeyExchanges : list bytes;
  cfg_User : bytes;
  Timeout : Z;
  hostKeyCallback : option HostKeyCallback;
  HostKeyAlgorithms : list bytes;
  BannerCallback : option nat;
  ClientVersion : bytes
}.

(** The configurable part of a client: [Jump] and [Dialer] are names of other
    clients and dialers. *)
Record Client := {
  c_User : bytes;
  c_Addr : bytes;
  c_Port : Z;
  ProxyURL : bytes;
  Jump : option nat;
  Dialer : option nat;
  RequestPty : bool;
  PtyTerm : bytes;
  PtyWidth : Z;
  PtyHeight : Z;
  WindowSize : Z;
  MaxPacketSize : Z
}.

Definition DefaultWindowSize : Z := 16 * 1024 * 1024.
Definition DefaultMaxPacketSize : Z := 64 * 1024.

(** [now] is the clock, which the known-hosts options read. *)
Definition Option : Type := Z → Client → ClientConfig → hosts → result ssh_error (Client * ClientConfig) * hosts.

Definition on_client (f : Client → Client) : Option := λ _ c cfg s, (Ok (f c, cfg), s).
Definition on_config (f : ClientConfig → ClientConfig) : Option := λ _ c cfg s, (Ok (c, f cfg), s).

Definition add_auth (m : AuthMethod) (c : ClientConfig) : ClientConfig :=
  {| Auth := Auth c ++ [m]; Ciphers := Ciphers c; KeyExchanges := KeyExchanges c; cfg_User := cfg_User c; Timeout := Timeout c;
     hostKeyCallback := hostKeyCallback c; HostKeyAlgorithms := HostKeyAlgorithms c; BannerCallback := BannerCallback c;
     ClientVersion := ClientVersion c |}.

Definition set_callback (cb : HostKeyCallback) (c : ClientConfig) : ClientConfig :=
  {| Auth := Auth c; Ciphers := Ciphers c; KeyExchanges := KeyExchanges c; cfg_User := cfg_User c; Timeout := Timeout c;
     hostKeyCallback := Some cb; HostKeyAlgorithms := HostKeyAlgorithms c; BannerCallback := BannerCallback c;
     ClientVersion := ClientVersion c |}.

Definition set_algorithms (ciphers kex : list bytes) (c : ClientConfig) : ClientConfig :=
  {| Auth := Auth c; Ciphers := ciphers; KeyExchanges := kex; cfg_User := cfg_User c; Timeout := Timeout c;
     hostKeyCallback := hostKeyCallback c; HostKeyAlgorithms := HostKeyAlgorithms c; BannerCallback := BannerCallback c;
     ClientVersion := ClientVersion c |}.

(** ** The options *)

Definition WithDialer (d : nat) : Option := on_client (λ c,
  {| c_User := c_User c; c_Addr := c_Addr c; c_Port := c_Port c; ProxyURL := ProxyURL c; Jump := Jump c; Dialer := Some d;
     RequestPty := RequestPty c; PtyTerm := PtyTerm c; PtyWidth := PtyWidth c; PtyHeight := PtyHeight c;
     WindowSize := WindowSize c; MaxPacketSize := MaxPacketSize c |}).

Definition WithPassword (password : bytes) : Option := on_config (add_auth (Password password)).

(** The callback of the interactive method: one answer per question; the echo
    flags are indexed with the questions. *)
Fixpoint interactive_answers (handler : bytes → bytes → bytes → bool → option bytes) (user instruction : bytes)
    (questions : list bytes) (echos : list bool) : outcome (result unit (list bytes)) :=
  match questions with
  | [] => Done (Ok [])
  | q :: qs =>
      match echos with
      | [] => Panic
      | e :: es =>
          match handler user instruction q e with
          | None => Done (Err tt)
          | Some a => answers ←! interactive_answers handler user instruction qs es; Done (Ok (a :: answers))
          end
      end
  end.

Definition WithKeyboardInteractive (handler : bytes → bytes → bytes → bool → option bytes) : Option :=
  on_config (add_auth (KeyboardInteractive handler)).

Definition with_signer (r : hosts → result key_error Signer) : Option := λ _ c cfg s,
  match r s with
  | Err e => (Err (KeyParseError e), s)
  | Ok signer => (Ok (c, add_auth (PublicKeys signer) cfg), s)
  end.

(** The files the process can read. *)
Definition visible (s : hosts) : gmap bytes file := filter (λ x, x.1 ∉ denied _ s) (fs _ s).

Definition WithKeyFile (keyFile passphrase : bytes) : Option :=
  with_signer (λ s, ParseKeyFile _ ParsePrivateKey ParsePrivateKeyWithPassphrase (visible s) keyFile passphrase).
Definition WithKey (pemBytes passphrase : bytes) : Option :=
  with_signer (λ _, ParseKey _ ParsePrivateKey ParsePrivateKeyWithPassphrase pemBytes passphrase).
Definition WithCertFile (certFile keyFile passphrase : bytes) : Option :=
  with_signer (λ s, ParseCertKeyFile _ _ _ ParsePrivateKey ParsePrivateKeyWithPassphrase ParseAuthorizedKey as_certificate
    NewCertSigner (visible s) certFile keyFile passphrase).
Definition WithCert (certBytes keyBytes passphrase : bytes) : Option :=
  with_signer (λ _, ParseCertKey _ _ _ ParsePrivateKey ParsePrivateKeyWithPassphrase ParseAuthorizedKey as_certificate
    NewCertSigner certBytes keyBytes passphrase).

Definition WithAgent (conn : nat) : Option :=
  on_config (λ cfg, if agent_AuthMethod conn then add_auth (AgentConn conn) cfg else cfg).
Definition WithAgentSocket (socket : bytes) : Option :=
  on_config (λ cfg, if agent_AuthMethodSocket socket then add_auth (AgentSocket socket) cfg else cfg).
Definition WithDefaultAgent : Option :=
  on_config (λ cfg, if agent_DefaultAuthMethod then add_auth AgentDefault cfg else cfg).
Definition WithAuth (method : AuthMethod) : Option := on_config (add_auth method).
Definition WithSigner (signer : Signer) : Option := on_config (add_auth (PublicKeys signer)).
Definition WithCertSigner (signer : Signer) : Option := on_config (add_auth (PublicKeys signer)).

Definition WithPort (port : Z) : Option := on_client (λ c,
  {| c_User := c_User c; c_Addr := c_Addr c; c_Port := port; ProxyURL := ProxyURL c; Jump := Jump c; Dialer := Dialer c;
     RequestPty := RequestPty c; PtyTerm := PtyTerm c; PtyWidth := PtyWidth c; PtyHeight := PtyHeight c;
     WindowSize := WindowSize c; MaxPacketSize := MaxPacketSize c |}).

Definition WithTimeout (d : Z) : Option := on_config (λ c,
  {| Auth := Auth c; Ciphers := Ciphers c; KeyExchanges := KeyExchanges c; cfg_User := cfg_User c; Timeout := d;
     hostKeyCallback := hostKeyCallback c; HostKeyAlgorithms := HostKeyAlgorithms c; BannerCallback := BannerCallback c;
     ClientVersion := ClientVersion c |}).

Definition set_window (w p : Z) (c : Client) : Client :=
  {| c_User := c_User c; c_Addr := c_Addr c; c_Port := c_Port c; ProxyURL := ProxyURL c; Jump := Jump c; Dialer := Dialer c;
     RequestPty := RequestPty c; PtyTerm := PtyTerm c; PtyWidth := PtyWidth c; PtyHeight := PtyHeight c;
     WindowSize := w; MaxPacketSize := p |}.
Definition WithWindowSize (size : Z) : Option := on_client (λ c, set_window size (MaxPacketSize c) c).
Definition WithMaxPacketSize (size : Z) : Option := on_client (λ c, set_window (WindowSize c) size c).

Definition aead_ciphers : list bytes :=
  [str "aes128-gcm@openssh.com"; str "chacha20-poly1305@openssh.com"; str "aes256-gcm@openssh.com"].
Definition curve_kex : list bytes :=
  [str "curve25519-sha256"; str "curve25519-sha256@libssh.org"; str "ecdh-sha2-nistp256"].

Definition WithHighPerformanceDefaults : Option := λ _ c cfg s,
  (Ok (set_window (16 * 1024 * 1024) (64 * 1024) c, set_algorithms aead_ciphers curve_kex cfg), s).

Definition with_hosts (f : Z → hosts → result host_error Callback * hosts) : Option := λ now c cfg s,
  match f now s with
  | (Err e, s') => (Err (HostError e), s')
  | (Ok cb, s') => (Ok (c, set_callback (KnownHostsCallback cb) cfg), s')
  end.

Definition WithKnownHosts (path : bytes) : Option := with_hosts (λ now, KnownHosts _ knownhosts_New now path).
Definition WithEnsureKnownHosts (can_create : bool) (path : bytes) : Option :=
  with_hosts (λ now, EnsureKnownHosts _ knownhosts_New now can_create path).
Definition WithFingerprint (fingerprint : bytes) : Option := on_config (set_callback (FingerprintCallback fingerprint)).

Definition WithLegacyCiphers : Option := on_config (λ cfg, set_algorithms
  (Ciphers cfg ++ [str "aes128-cbc"; str "aes192-cbc"; str "aes256-cbc"; str "3des-cbc"])
  (KeyExchanges cfg ++ [str "diffie-hellman-group-exchange-sha1"; str "diffie-hellman-group-exchange-sha256"]) cfg).
Definition WithCiphers (ciphers : list bytes) : Option :=
  on_config (λ cfg, set_algorithms (Ciphers cfg ++ ciphers) (KeyExchanges cfg) cfg).
Definition WithKeyExchanges (kex : list bytes) : Option :=
  on_config (λ cfg, set_algorithms (Ciphers cfg) (KeyExchanges cfg ++ kex) cfg).

Definition set_pty (on : bool) (term : bytes) (w h : Z) (c : Client) : Client :=
  {| c_User := c_User c; c_Addr := c_Addr c; c_Port := c_Port c; ProxyURL := ProxyURL c; Jump := Jump c; Dialer := Dialer c;
     RequestPty := on; PtyTerm := term; PtyWidth := w; PtyHeight := h; WindowSize := WindowSize c; MaxPacketSize := MaxPacketSize c |}.
Definition WithRequestPty (enabled : bool) : Option :=
  on_client (λ c, set_pty enabled (PtyTerm c) (PtyWidth c) (PtyHeight c) c).
Definition WithPtyTerminal (term : bytes) (width height : Z) : Option := on_client (set_pty true term width height).

Definition WithInsecureIgnoreHostKey : Option := on_config (set_callback InsecureIgnoreHostKey).
Definition WithHostKeyCallback (f : bytes → bytes → bytes → bool) : Option := on_config (set_callback (CustomCallback f)).

Definition WithHostKeyAlgorithms (algorithms : list bytes) : Option := on_config (λ c,
  {| Auth := Auth c; Ciphers := Ciphers c; KeyExchanges := KeyExchanges c; cfg_User := cfg_User c; Timeout := Timeout c;
     hostKeyCallback := hostKeyCallback c; HostKeyAlgorithms := algorithms; BannerCallback := BannerCallback c;
     ClientVersion := ClientVersion c |}).
Definition WithBannerCallback (cb : nat) : Option := on_config (λ c,
  {| Auth := Auth c; Ciphers := Ciphers c; KeyExchanges := KeyExchanges c; cfg_User := cfg_User c; Timeout := Timeout c;
     hostKeyCallback := hostKeyCallback c; HostKeyAlgorithms := HostKeyAlgorithms c; BannerCallback := Some cb;
     ClientVersion := ClientVersion c |}).

Definition set_route (proxy : bytes) (jump : option nat) (c : Client) : Client :=
  {| c_User := c_User c; c_Addr := c_Addr c; c_Port := c_Port c; ProxyURL := proxy; Jump := jump; Dialer := Dialer c;
     RequestPty := RequestPty c; PtyTerm := PtyTerm c; PtyWidth := PtyWidth c; PtyHeight := PtyHeight c;
     WindowSize := WindowSize c; MaxPacketSize := MaxPacketSize c |}.
Definition WithProxy (socks5URL : bytes) : Option := on_client (λ c, set_route socks5URL (Jump c) c).
Definition WithJump (jumpClient : nat) : Option := on_client (λ c, set_route (ProxyURL c) (Some jumpClient) c).

Definition WithConfig (fn : ClientConfig → option ClientConfig) : Option := λ _ c cfg s,
  match fn cfg with Some cfg' => (Ok (c, cfg'), s) | None => (Err ErrCustom, s) end.
End ssh.

(** ** Connecting *)

Class Net `{SshLib} := {
  (** [DialContext] of a jump client and of a custom dialer, [net.Dialer] with a
      timeout, and a SOCKS5 dialer of golang.org/x/net/proxy. *)
  jump_dial : nat → bytes → option nat;
  custom_dial : nat → bytes → option nat;
  net_dial : Z → bytes → option nat;
  socks5_dial : bytes → option (bytes * bytes) → Z → bytes → option nat;
  (** [ssh.NewClientConn], and the host key the server shows. *)
  handshake : nat → bytes → ClientConfig → bool;
  remote_addr : nat → bytes;
  server_key : nat → bytes;
  current_user : option bytes;
  handshake_checked conn target cfg : handshake conn target cfg = true →
    ∃ cb, hostKeyCallback cfg = Some cb ∧ accepts cb target (remote_addr conn) (server_key conn) = true
}.

Inductive conn_event := Opened (conn : nat) | Shut (conn : nat) | Established (conn : nat).

Section dial.
Context `{Net, UnicodeCase}.
Variable Coalesce : bytes → bytes → bytes.

Notation hosts := (SshKnownHosts.state Callback).

Definition resolveDefaultUsername (current : bytes) : bytes :=
  if negb (bytes_eqb current []) then current
  else match current_user with
       | Some u => if negb (bytes_eqb u []) then u else str "root"
       | None => str "root"
       end.

Definition formatTargetAddr (addr : bytes) (port : Z) : bytes :=
  if (port =? 22) || (port =? 0) then
    match IndexByte addr ":" with Some _ => addr | None => addr ++ str ":22" end
  else JoinHostPort addr (Itoa port).

Definition dialSocks5Proxy (proxyURL target : bytes) (timeout : Z) : result ssh_error nat :=
  match url_Parse proxyURL with
  | None => Err ErrBadProxyURL
  | Some u =>
      let proxyAddr := if bytes_eqb (u_Host u) [] then proxyURL else u_Host u in
      let auth := match u_User u with
                  | None => None
                  | Some ui => Some (ui_username ui, match ui_password ui with Some p => p | None => [] end)
                  end in
      match socks5_dial proxyAddr auth timeout target with Some conn => Ok conn | None => Err ErrDial end
  end.

Definition dialed (r : option nat) : result ssh_error nat := match r with Some conn => Ok conn | None => Err ErrDial end.

Definition dialTransportConn (c : Client) (target : bytes) (timeout : Z) : result ssh_error nat :=
  match Jump c with
  | Some j => dialed (jump_dial j target)
  | None =>
      match Dialer c with
      | Some d => dialed (custom_dial d target)
      | None =>
          if negb (bytes_eqb (ProxyURL c) []) then dialSocks5Proxy (ProxyURL c) target timeout
          else dialed (net_dial timeout target)
      end
  end.

Definition set_users (u : bytes) (c : Client) (cfg : ClientConfig) : Client * ClientConfig :=
  ({| c_User := u; c_Addr := c_Addr c; c_Port := c_Port c; ProxyURL := ProxyURL c; Jump := Jump c; Dialer := Dialer c;
      RequestPty := RequestPty c; PtyTerm := PtyTerm c; PtyWidth := PtyWidth c; PtyHeight := PtyHeight c;
      WindowSize := WindowSize c; MaxPacketSize := MaxPacketSize c |},
   {| Auth := Auth cfg; Ciphers := Ciphers cfg; KeyExchanges := KeyExchanges cfg; cfg_User := u; Timeout := Timeout cfg;
      hostKeyCallback := hostKeyCallback cfg; HostKeyAlgorithms := HostKeyAlgorithms cfg; BannerCallback := BannerCallback cfg;
      ClientVersion := ClientVersion cfg |}).

(** The default host key callback is installed when no option set one. *)
Definition ensure_callback (now : Z) (can_create : bool) (cfg : ClientConfig) (s : hosts) :
    result ssh_error ClientConfig * hosts :=
  match hostKeyCallback cfg with
  | Some _ => (Ok cfg, s)
  | None =>
      match DefaultKnownHosts _ knownhosts_New now can_create s with
      | (Err e, s') => (Err (HostError e), s')
      | (Ok cb, s') => (Ok (set_callback (KnownHostsCallback cb) cfg), s')
      end
  end.

(** The client, its connection, and what happened to connections.  The socket
    options of [optimizeTCPConn] change nothing here; the keep-alive goroutine
    starts with [Established]. *)
Definition Dial (now : Z) (can_create : bool) (c : Client) (cfg : ClientConfig) (s : hosts) :
    result ssh_error (Client * nat) * hosts * list conn_event :=
  if bool_decide (is_Some (Jump c)) && negb (bytes_eqb (ProxyURL c) []) then (Err ErrProxyAndJumpConflict, s, [])
  else
    let '(c, cfg) := if bytes_eqb (cfg_User cfg) [] then set_users (resolveDefaultUsername (c_User c)) c cfg else (c, cfg) in
    match ensure_callback now can_create cfg s with
    | (Err e, s) => (Err e, s, [])
    | (Ok cfg, s) =>
        let target := formatTargetAddr (c_Addr c) (c_Port c) in
        match dialTransportConn c target (Timeout cfg) with
        | Err e => (Err e, s, [])
        | Ok conn =>
            if negb (handshake conn target cfg) then (Err ErrSSHDialFailed, s, [Opened conn; Shut conn])
            else (Ok (c, conn), s, [Opened conn; Established conn])
        end
    end.

Fixpoint apply_options (now : Z) (opts : list (option Option)) (c : Client) (cfg : ClientConfig) (s : hosts) :
    result ssh_error (Client * ClientConfig) * hosts :=
  match opts with
  | [] => (Ok (c, cfg), s)
  | None :: rest => apply_options now rest c cfg s
  | Some opt :: rest =>
      match opt now c cfg s with
      | (Err e, s) => (Err e, s)
      | (Ok (c, cfg), s) => apply_options now rest c cfg s
      end
  end.

Definition initial_client (user targetAddr : bytes) : Client :=
  {| c_User := user; c_Addr := targetAddr; c_Port := 22; ProxyURL := []; Jump := None; Dialer := None; RequestPty := false;
     PtyTerm := []; PtyWidth := 0; PtyHeight := 0; WindowSize := DefaultWindowSize; MaxPacketSize := DefaultMaxPacketSize |}.
Definition initial_config (user : bytes) : ClientConfig :=
  {| Auth := []; Ciphers := aead_ciphers; KeyExchanges := curve_kex; cfg_User := user; Timeout := 20 * Second;
     hostKeyCallback := None; HostKeyAlgorithms := []; BannerCallback := None; ClientVersion := str "SSH-2.0-Aoni" |}.

Definition New (now : Z) (can_create : bool) (user targetAddr : bytes) (opts : list (option Option)) (s : hosts) :
    result ssh_error (Client * nat) * hosts * list conn_event :=
  match apply_options now opts (initial_client user targetAddr) (initial_config user) s with
  | (Err e, s) => (Err e, s, [])
  | (Ok (c, cfg), s) => Dial now can_create c cfg s
  end.

(** ** From ~/.ssh/config *)

(** A file that is missing, one that cannot be opened, and the result of parsing. *)
Inductive read_config := ConfigMissing | ConfigUnreadable | ConfigRead (cfg : SSHConfig) (err : bool).

Definition ParseSSHConfigFile (path : bytes) (s : hosts) : read_config :=
  match (if bytes_eqb path [] then
           match home _ s with Some h => Some (filepath_Join [h; str ".ssh"; str "config"]) | None => None end
         else Some path) with
  | None => ConfigUnreadable
  | Some target =>
      match Stat _ target s with
      | Err ErrNotExist => ConfigMissing
      | Err _ => ConfigUnreadable
      | Ok f => let '(cfg, err) := ParseSSHConfig (f_content f) in ConfigRead cfg err
      end
  end.

Definition expandHome (path : bytes) (s : hosts) : bytes :=
  if HasPrefix path (str "~/") then
    match home _ s with Some h => filepath_Join [h; drop 2 path] | None => path end
  else path.

(** The options a section of the configuration stands for. *)
Definition host_options (h : HostConfig) (s : hosts) : list (option Option) :=
  (if 0 <? SshConfig.Port h then [Some (WithPort (SshConfig.Port h))] else []) ++
  omap (λ idFile, let expanded := expandHome idFile s in
                  match Stat _ expanded s with Ok _ => Some (Some (WithKeyFile expanded [])) | Err _ => None end)
    (IdentityFiles h) ++
  (if EqualFold (StrictHostKeyChecking h) (str "no") then [Some WithInsecureIgnoreHostKey] else []) ++
  (if negb (bytes_eqb (UserKnownHostsFile h) []) then [Some (WithKnownHosts (expandHome (UserKnownHostsFile h) s))] else []).

Definition default_host (alias : bytes) : HostConfig :=
  {| Host := alias; HostName := alias; User := []; SshConfig.Port := 0; IdentityFiles := []; ProxyJump := []; ProxyCommand := [];
     StrictHostKeyChecking := []; UserKnownHostsFile := [] |}.

Definition connect_host (now : Z) (can_create : bool) (alias : bytes) (h : HostConfig) (opts : list (option Option)) (s : hosts) :
    result ssh_error (Client * nat) * hosts * list conn_event :=
  New now can_create (User h) (Coalesce (HostName h) alias) (host_options h s ++ opts) s.

Definition NewClientFromConfig (now : Z) (can_create : bool) (alias : bytes) (opts : list (option Option)) (s : hosts) :
    result ssh_error (Client * nat) * hosts * list conn_event :=
  match ParseSSHConfigFile [] s with
  | ConfigUnreadable => (Err ErrConfigRead, s, [])
  | ConfigMissing => connect_host now can_create alias (default_host alias) opts s
  | ConfigRead cfg true => (Err ErrConfigRead, s, [])
  | ConfigRead cfg false => connect_host now can_create alias (GetHost cfg alias) opts s
  end.

(** ** Host keys are checked *)

(** The callbacks that may stand for a known-hosts file: the one cached for it, the
    one parsed from it, and that of the empty file that is created where there is
    none. *)
Definition trusted (s : hosts) (path : bytes) (cb : Callback) : Prop :=
  (∃ e, cache _ s !! path = Some e ∧ callback _ e = cb) ∨
  (∃ f, Stat _ path s = Ok f ∧ knownhosts_New (f_content f) = Some cb) ∨
  (Stat _ path s = Err ErrNotExist ∧ knownhosts_New [] = Some cb).

(** What decides about the host key. *)
Inductive key_source := FromFile (path : bytes) | Pinned (fingerprint : bytes) | Custom (f : bytes → bytes → bytes → bool) | Unchecked.

(** The options that do not touch the host key callback. *)
Inductive plain_option : Option → Prop :=
| plain_dialer d : plain_option (WithDialer d)
| plain_password p : plain_option (WithPassword p)
| plain_interactive h : plain_option (WithKeyboardInteractive h)
| plain_key_file f p : plain_option (WithKeyFile f p)
| plain_key k p : plain_option (WithKey k p)
| plain_cert_file c k p : plain_option (WithCertFile c k p)
| plain_cert c k p : plain_option (WithCert c k p)
| plain_agent c : plain_option (WithAgent c)
| plain_agent_socket p : plain_option (WithAgentSocket p)
| plain_default_agent : plain_option WithDefaultAgent
| plain_auth m : plain_option (WithAuth m)
| plain_signer k : plain_option (WithSigner k)
| plain_cert_signer k : plain_option (WithCertSigner k)
| plain_port p : plain_option (WithPort p)
| plain_timeout d : plain_option (WithTimeout d)
| plain_window n : plain_option (WithWindowSize n)
| plain_packet n : plain_option (WithMaxPacketSize n)
| plain_performance : plain_option WithHighPerformanceDefaults
| plain_legacy : plain_option WithLegacyCiphers
| plain_ciphers l : plain_option (WithCiphers l)
| plain_kex l : plain_option (WithKeyExchanges l)
| plain_pty b : plain_option (WithRequestPty b)
| plain_pty_terminal t w h : plain_option (WithPtyTerminal t w h)
| plain_algorithms l : plain_option (WithHostKeyAlgorithms l)
| plain_banner b : plain_option (WithBannerCallback b)
| plain_proxy u : plain_option (WithProxy u)
| plain_jump j : plain_option (WithJump j).

(** The source the options choose, the last one winning; [o] is the choice before
    them. [WithConfig] may do anything and has no place here. *)
Inductive sources : option key_source → list (option Option) → option key_source → Prop :=
| src_nil o : sources o [] o
| src_skip o opts o' : sources o opts o' → sources o (None :: opts) o'
| src_plain o f opts o' : plain_option f → sources o opts o' → sources o (Some f :: opts) o'
| src_known o p opts o' : sources (Some (FromFile p)) opts o' → sources o (Some (WithKnownHosts p) :: opts) o'
| src_ensure o b p opts o' : sources (Some (FromFile p)) opts o' → sources o (Some (WithEnsureKnownHosts b p) :: opts) o'
| src_pin o fp opts o' : sources (Some (Pinned fp)) opts o' → sources o (Some (WithFingerprint fp) :: opts) o'
| src_custom o f opts o' : sources (Some (Custom f)) opts o' → sources o (Some (WithHostKeyCallback f) :: opts) o'
| src_insecure o opts o' : sources (Some Unchecked) opts o' → sources o (Some WithInsecureIgnoreHostKey :: opts) o'.

(** The callback of a configuration is the one of the source. *)
Definition installed (s : hosts) (o : option key_source) (cb : option HostKeyCallback) : Prop :=
  match o, cb with
  | None, None => True
  | Some (FromFile p), Some (KnownHostsCallback c) => trusted s p c
  | Some (Pinned fp), Some (FingerprintCallback fp') => fp' = fp
  | Some (Custom f), Some (CustomCallback f') => f' = f
  | Some Unchecked, Some InsecureIgnoreHostKey => True
  | _, _ => False
  end.

(** The known-hosts functions add nothing to what may be trusted. *)
Definition no_more_trust (s s1 : hosts) : Prop := home _ s1 = home _ s ∧ ∀ p cb, trusted s1 p cb → trusted s p cb.

Lemma no_more_trust_refl s : no_more_trust s s.
Proof. by split. Qed.

Lemma no_more_trust_trans s s1 s2 : no_more_trust s s1 → no_more_trust s1 s2 → no_more_trust s s2.
Proof. intros [T1 T2] [T3 T4]. split; [congruence|auto]. Qed.

Lemma KnownHosts_trust now p s r s1 : KnownHosts _ knownhosts_New now p s = (r, s1) →
  no_more_trust s s1 ∧ ∀ cb, r = Ok cb → trusted s p cb.
Proof.
  assert (∀ e, trusted s p (callback _ e) → no_more_trust s (set_cache _ (<[p := e]> (cache _ s)) s)) as Hset.
  { intros e He. split; [done|]. intros q cb [(e' & Hq & <-)|Hr]; [|by right]. cbn in Hq.
    apply lookup_insert_Some in Hq as [[<- <-]|[_ Hq]]; [done|]. left. eauto. }
  unfold KnownHosts. destruct (cache _ s !! p) as [e|] eqn:Ee.
  - assert (trusted s p (callback _ e)) as He by (left; eauto).
    destruct (_ <? _); [intros [= <- <-]; split; [apply no_more_trust_refl|by intros ? [= <-]]|].
    destruct (Stat _ p s) as [f|] eqn:Es; [|intros [= <- <-]; split; [apply no_more_trust_refl|by intros ? [= <-]]].
    destruct (negb _); [intros [= <- <-]; split; [by apply Hset|by intros ? [= <-]]|].
    destruct (knownhosts_New (f_content f)) as [cb|] eqn:En; [|intros [= <- <-]; split; [apply no_more_trust_refl|done]].
    assert (trusted s p cb) by (right; left; eauto). intros [= <- <-]. split; [by apply Hset|by intros ? [= <-]].
  - destruct (Stat _ p s) as [f|] eqn:Es; [|intros [= <- <-]; split; [apply no_more_trust_refl|done]].
    destruct (knownhosts_New (f_content f)) as [cb|] eqn:En; [|intros [= <- <-]; split; [apply no_more_trust_refl|done]].
    assert (trusted s p cb) by (right; left; eauto). intros [= <- <-]. split; [by apply Hset|by intros ? [= <-]].
Qed.

(** Creating an empty file where there was none. *)
Lemma create_trust p m s : Stat _ p s = Err ErrNotExist →
  no_more_trust s (set_fs _ (<[p := {| f_mtime := m; f_content := [] |}]> (fs _ s)) s).
Proof.
  intros Hp. split; [done|]. intros q cb [?|Hq]; [by left|]. right. unfold Stat in *. cbn in *. destruct (decide (p = q)) as [<-|Hne].
  - case_bool_decide; [done|]. rewrite lookup_insert_eq in Hq. right. split; [by destruct (fs _ s !! p)|].
    destruct Hq as [(f & [= <-] & Hn)|[? _]]; done.
  - by rewrite lookup_insert_ne in Hq.
Qed.

Lemma Ensure_trust now cc p s r s1 : EnsureKnownHosts _ knownhosts_New now cc p s = (r, s1) →
  no_more_trust s s1 ∧ ∀ cb, r = Ok cb → trusted s p cb.
Proof.
  unfold EnsureKnownHosts. destruct (Stat _ p s) as [f|[]] eqn:Es; try apply KnownHosts_trust.
  destruct cc; [|intros [= <- <-]; split; [apply no_more_trust_refl|done]].
  pose proof (create_trust p now s Es) as Hc. intros [T1 T2]%KnownHosts_trust. split; [by eapply no_more_trust_trans|].
  intros cb Hr. by apply Hc, T2.
Qed.

(** A plain option leaves the callback and the files alone. *)
Lemma plain_keeps o now c cfg s c' cfg' s' : plain_option o → o now c cfg s = (Ok (c', cfg'), s') →
  hostKeyCallback cfg' = hostKeyCallback cfg ∧ s' = s.
Proof.
  intros Ho. assert (∀ r, with_signer r now c cfg s = (Ok (c', cfg'), s') → hostKeyCallback cfg' = hostKeyCallback cfg ∧ s' = s) as Hs.
  { intros r. unfold with_signer. destruct (r s); [|done]. by intros [= <- <- <-]. }
  destruct Ho; try apply Hs; cbv beta delta [WithDialer WithPassword WithKeyboardInteractive WithAgent WithAgentSocket WithDefaultAgent
    WithAuth WithSigner WithCertSigner WithPort WithTimeout WithWindowSize WithMaxPacketSize WithHighPerformanceDefaults WithLegacyCiphers
    WithCiphers WithKeyExchanges WithRequestPty WithPtyTerminal WithHostKeyAlgorithms WithBannerCallback WithProxy WithJump on_client on_config];
    intros [= <- <- <-]; by try case_match.
Qed.

Lemma with_hosts_installs f now c cfg s s0 p c' cfg' s' : no_more_trust s s0 →
  (∀ r s1, f now s0 = (r, s1) → no_more_trust s0 s1 ∧ ∀ cb, r = Ok cb → trusted s0 p cb) →
  with_hosts f now c cfg s0 = (Ok (c', cfg'), s') →
  no_more_trust s s' ∧ installed s (Some (FromFile p)) (hostKeyCallback cfg').
Proof.
  intros Ht Hf. unfold with_hosts. destruct (f now s0) as [[cb|e] s1] eqn:Ef; [|done]. intros [= <- <- <-].
  destruct (Hf _ _ eq_refl) as [T1 T2]. split; [by eapply no_more_trust_trans|]. cbn. by apply Ht, T2.
Qed.

Lemma options_install now opts o o' s0 : sources o opts o' → ∀ c cfg s c' cfg' s',
  no_more_trust s0 s → installed s0 o (hostKeyCallback cfg) → apply_options now opts c cfg s = (Ok (c', cfg'), s') →
  no_more_trust s0 s' ∧ installed s0 o' (hostKeyCallback cfg').
Proof.
  induction 1 as [o|o opts o' _ IH|o f opts o' Hf _ IH|o p opts o' _ IH|o b p opts o' _ IH|o fp opts o' _ IH|o f opts o' _ IH|o opts o' _ IH];
    intros c cfg s c' cfg' s' Ht Hi; cbn [apply_options]; [by intros [= <- <- <-]|by apply IH|..].
  - destruct (f now c cfg s) as [[[c1 cfg1]|e] s1] eqn:Ef; [|done]. destruct (plain_keeps _ _ _ _ _ _ _ _ Hf Ef) as [T1 ->].
    apply IH; [done|by rewrite T1].
  - destruct (WithKnownHosts p now c cfg s) as [[[c1 cfg1]|e] s1] eqn:Ef; [|done].
    unfold WithKnownHosts in Ef. destruct (with_hosts_installs _ _ _ _ s0 s p _ _ _ Ht (λ r s2, KnownHosts_trust _ _ _ _ _) Ef) as [T1 T2]. by eapply IH.
  - destruct (WithEnsureKnownHosts b p now c cfg s) as [[[c1 cfg1]|e] s1] eqn:Ef; [|done].
    unfold WithEnsureKnownHosts in Ef. destruct (with_hosts_installs _ _ _ _ s0 s p _ _ _ Ht (λ r s2, Ensure_trust _ _ _ _ _ _) Ef) as [T1 T2]. by eapply IH.
  - by apply IH.
  - by apply IH.
  - by apply IH.
Qed.

(** What a successful connection has checked: the source accepted the key the
    server showed; without a choice it is the default known-hosts file. *)
Definition key_checked (s : hosts) (o : option key_source) (conn : nat) (target : bytes) : Prop :=
  match o with
  | Some (FromFile p) => ∃ cb, trusted s p cb ∧ run_callback cb target (remote_addr conn) (server_key conn) = KeyMatches
  | Some (Pinned fp) => FingerprintSHA256 (server_key conn) = fp
  | Some (Custom f) => f target (remote_addr conn) (server_key conn) = true
  | Some Unchecked => True
  | None => ∃ p cb, DefaultKnownHostsPath _ s = Ok p ∧ trusted s p cb ∧
      run_callback cb target (remote_addr conn) (server_key conn) = KeyMatches
  end.

(** The source that is asked: the default file when the options chose none. *)
Definition asked (s : hosts) (o o' : option key_source) : Prop :=
  match o with None => ∃ p, DefaultKnownHostsPath _ s = Ok p ∧ o' = Some (FromFile p) | Some _ => o' = o end.

Lemma ensure_callback_installs now cc cfg s0 s o cfg' s' : no_more_trust s0 s → installed s0 o (hostKeyCallback cfg) →
  ensure_callback now cc cfg s = (Ok cfg', s') → ∃ o', asked s0 o o' ∧ installed s0 o' (hostKeyCallback cfg').
Proof.
  intros Ht Hi. unfold ensure_callback. destruct (hostKeyCallback cfg) as [cb|] eqn:Ec.
  - intros [= <- <-]. exists o. rewrite Ec. split; [by destruct o as [[]|]|done].
  - destruct o as [[]|]; [done..|]. unfold DefaultKnownHosts. destruct (DefaultKnownHostsPath _ s) as [p|] eqn:Ep; [|done].
    destruct (EnsureKnownHosts _ _ _ _ _ _) as [[cb|e] s1] eqn:Ee; [|done]. intros [= <- <-]. exists (Some (FromFile p)). split.
    + exists p. split; [|done]. rewrite <- Ep. unfold DefaultKnownHostsPath. by rewrite (proj1 Ht).
    + cbn. apply Ensure_trust in Ee as [_ Ee]. by apply Ht, Ee.
Qed.

(** What [Dial] guarantees of the connection it returns. *)
Lemma Dial_checked now cc c cfg s0 s o c' conn s' ev : no_more_trust s0 s → installed s0 o (hostKeyCallback cfg) →
  Dial now cc c cfg s = (Ok (c', conn), s', ev) → key_checked s0 o conn (formatTargetAddr (c_Addr c') (c_Port c')).
Proof.
  intros Ht Hc. unfold Dial. case_match; [done|].
  destruct (if bytes_eqb (cfg_User cfg) [] then _ else _) as [c1 cfg1] eqn:Eu.
  assert (hostKeyCallback cfg1 = hostKeyCallback cfg) as Hcb
    by (destruct (bytes_eqb (cfg_User cfg) []); by injection Eu as <- <-).
  destruct (ensure_callback now cc cfg1 s) as [[cfg2|e] s1] eqn:Ee; [|done].
  eapply ensure_callback_installs in Ee as (o' & Ha & Hk); [|done|by rewrite Hcb].
  destruct (dialTransportConn _ _ _) as [cn|e]; [|done]. destruct (handshake cn _ cfg2) eqn:Eh; [|done].
  intros [= <- <- <- <-]. apply handshake_checked in Eh as (cb & Hs & Hacc). rewrite Hs in Hk.
  assert (key_checked s0 o' cn (formatTargetAddr (c_Addr c1) (c_Port c1))) as Hd.
  { destruct o' as [[p|fp|f|]|], cb as [cb|fp'| |f']; try done; cbn in *.
    - exists cb. split; [done|]. by destruct (run_callback _ _ _ _).
    - bools. congruence.
    - congruence. }
  destruct o as [[p|fp|f|]|]; cbn in Ha; [by subst..|]. destruct Ha as (p & Hp & ->). cbn in *. destruct Hd as (cb' & ? & ?). eauto.
Qed.

(** The callback the options leave is the one the handshake asked. *)
Lemma New_checked now cc user addr opts src s c conn s' ev :
  sources None opts src → New now cc user addr opts s = (Ok (c, conn), s', ev) →
  key_checked s src conn (formatTargetAddr (c_Addr c) (c_Port c)).
Proof.
  intros Ho. unfold New. destruct (apply_options _ _ _ _ _) as [[[c1 cfg1]|e] s1] eqn:Ea; [|done]. intros Hd.
  eapply options_install in Ea as [T1 T2]; [|done|apply no_more_trust_refl|done]. by eapply Dial_checked.
Qed.

(** C8: a client is returned only when the last host key option among the options
    accepts the key the server showed: the known-hosts file it names, through the
    callback cached for that file or parsed from it; the pinned fingerprint; or the
    caller's callback. Without such an option the default known-hosts file is
    asked. Only [WithInsecureIgnoreHostKey] as the last one leaves the key
    unchecked ([WithConfig], which may change anything, is not among the
    options). *)
Theorem host_key_checked now cc user addr opts src s c conn s' ev :
  sources None opts src → New now cc user addr opts s = (Ok (c, conn), s', ev) →
  key_checked s src conn (formatTargetAddr (c_Addr c) (c_Port c)) ∧ ev = [Opened conn; Established conn].
Proof.
  intros Ho Hn. split; [by eapply New_checked|]. revert Hn. unfold New, Dial. repeat (case_match; try done); by intros [= <- <- <- <-].
Qed.

(** Every connection that was opened is closed again when no client
    is returned. *)
Lemma failed_dial_closes now cc user addr opts s e s' ev :
  New now cc user addr opts s = (Err e, s', ev) → ev = [] ∨ ∃ conn, ev = [Opened conn; Shut conn].
Proof. unfold New, Dial. repeat (case_match; try done); intros [= <- <- <-]; eauto. Qed.

Lemma sources_app o o1 o2 opts1 opts2 : sources o opts1 o1 → sources o1 opts2 o2 → sources o (opts1 ++ opts2) o2.
Proof. intros T1 T2. induction T1; cbn; eauto using sources. Qed.

Lemma sources_plain o opts : Forall (λ x, match x with Some f => plain_option f | None => True end) opts → sources o opts o.
Proof. induction 1 as [|[f|] opts Hf _ IH]; [apply src_nil|by apply src_plain|by apply src_skip]. Qed.

(** What a section says about the host key: a known-hosts file of its own is
    asked even if it also turns checking off. *)
Definition host_source (h : HostConfig) (s : hosts) : option key_source :=
  if negb (bytes_eqb (UserKnownHostsFile h) []) then Some (FromFile (expandHome (UserKnownHostsFile h) s))
  else if EqualFold (StrictHostKeyChecking h) (str "no") then Some Unchecked else None.

Lemma host_options_source h s : sources None (host_options h s) (host_source h s).
Proof.
  unfold host_options, host_source. eapply sources_app; [|eapply sources_app; [|eapply (sources_app _ (if EqualFold (StrictHostKeyChecking h) (str "no") then Some Unchecked else None))]].
  - apply sources_plain. destruct (0 <? _); repeat constructor.
  - apply sources_plain. apply Forall_forall. intros o [f [_ Hf]]%list_elem_of_omap. case_match; [|done]. injection Hf as <-. constructor.
  - destruct (EqualFold _ _); [apply src_insecure, src_nil|apply src_nil].
  - destruct (negb _); [apply src_known, src_nil|apply src_nil].
Qed.

(** The host a configuration file describes for an alias. *)
Definition described_host (alias : bytes) (s : hosts) : HostConfig :=
  match ParseSSHConfigFile [] s with ConfigRead cfg _ => GetHost cfg alias | _ => default_host alias end.

(** A client made from ~/.ssh/config has checked the host key as the section of its
    host says, unless the caller's options choose otherwise. *)
Theorem config_client_checked now cc alias opts src s c conn s' ev :
  sources (host_source (described_host alias s) s) opts src →
  NewClientFromConfig now cc alias opts s = (Ok (c, conn), s', ev) →
  key_checked s src conn (formatTargetAddr (c_Addr c) (c_Port c)).
Proof.
  intros Ho Hn.
  assert (connect_host now cc alias (described_host alias s) opts s = (Ok (c, conn), s', ev)) as Hc.
  { revert Hn. unfold NewClientFromConfig, described_host. destruct (ParseSSHConfigFile [] s) as [| |cfg []]; done. }
  unfold connect_host in Hc. eapply New_checked; [|exact Hc]. eapply sources_app; [apply host_options_source|done].
Qed.

(** The jump host and proxy command of a section have no effect. *)
Lemma proxy_jump_ignored h h' now cc alias opts s :
  HostName h = HostName h' → User h = User h' → SshConfig.Port h = SshConfig.Port h' → IdentityFiles h = IdentityFiles h' →
  StrictHostKeyChecking h = StrictHostKeyChecking h' → UserKnownHostsFile h = UserKnownHostsFile h' →
  connect_host now cc alias h opts s = connect_host now cc alias h' opts s.
Proof. intros E1 E2 E3 E4 E5 E6. unfold connect_host, host_options. by rewrite E1, E2, E3, E4, E5, E6. Qed.
End dial.

(** ** A concrete client

    Known-hosts files are lists of keys; the server shows the key [k1]. *)
Module ClientSample.

#[local] Instance sample_case : UnicodeCase :=
  {| unicode_ToLower := id; unicode_ToUpper := id; unicode_EqualFold := bytes_eqb |}.

#[local] Instance sample_lib : SshLib :=
  {| Callback := list bytes; knownhosts_New := KnownHostsSample.new; run_callback := KnownHostsSample.ask;
     Signer := bytes; ParsePrivateKey := Some; ParsePrivateKeyWithPassphrase := λ k _, Some k;
     PublicKey := bytes; Certificate := bytes; ParseAuthorizedKey := Some; as_certificate := Some; NewCertSigner := λ c k, Some (c ++ k);
     FingerprintSHA256 := λ k, str "SHA256:" ++ k;
     agent_AuthMethod := λ _, true; agent_AuthMethodSocket := λ _, true; agent_DefaultAuthMethod := false |}.

Definition sample_handshake (conn : nat) (target : bytes) (cfg : ClientConfig) : bool :=
  match hostKeyCallback cfg with Some cb => accepts cb target (str "10.0.0.1:22") (str "k1") | None => false end.

#[local, refine] Instance sample_net : Net :=
  {| jump_dial := λ _ _, Some 1%nat; custom_dial := λ _ _, Some 2%nat; net_dial := λ _ _, Some 3%nat; socks5_dial := λ _ _ _ _, None;
     handshake := sample_handshake; remote_addr := λ _, str "10.0.0.1:22"; server_key := λ _, str "k1"; current_user := None |}.
Proof. intros conn target cfg. unfold sample_handshake. destruct (hostKeyCallback cfg) as [cb|]; [eauto|done]. Defined.

Definition coalesce (a b : bytes) : bytes := if bytes_eqb a [] then b else a.

Definition files : gmap bytes file :=
  {[ str "/root/.ssh/known_hosts" := {| f_mtime := 1; f_content := str "k1" |};
     str "/root/.ssh/config" := {| f_mtime := 1; f_content := render_config [ConfigSample.star] |};
     str "/etc/kh" := {| f_mtime := 1; f_content := str "k2" |} ]}.
Definition disk : SshKnownHosts.state Callback := {| fs := files; denied := ∅; cache := ∅; home := Some (str "/root") |}.

Definition plain : list (option Option) := [None; Some (WithPassword (str "pw")); Some (WithPort 2222)].

Lemma plain_source o : sources o plain o.
Proof. repeat constructor. Qed.

(** The client connects, because the default file lists the key. *)
Definition connected : Client * nat :=
  match (New 5 true (str "me") (str "web") plain disk).1.1 with Ok r => r | Err _ => (initial_client [] [], O) end.
Definition disk' : SshKnownHosts.state Callback := (New 5 true (str "me") (str "web") plain disk).1.2.

Lemma host_key_checked_witness :
  New 5 true (str "me") (str "web") plain disk = (Ok connected, disk', [Opened 3; Established 3]) ∧
  connected.2 = 3%nat ∧
  key_checked disk None 3 (formatTargetAddr (c_Addr connected.1) (c_Port connected.1)) ∧
  [Opened 3; Established 3] = [Opened 3; Established 3].
Proof.
  assert (New 5 true (str "me") (str "web") plain disk = (Ok (connected.1, 3%nat), disk', [Opened 3; Established 3])) as He
    by reflexivity.
  split; [exact He|]. split; [reflexivity|].
  apply (host_key_checked 5 true (str "me") (str "web") plain None disk connected.1 3%nat disk'); [exact (plain_source None)|exact He].
Defined.

Definition from_file : Client * nat :=
  match (NewClientFromConfig coalesce 5 true (str "web") plain disk).1.1 with Ok r => r | Err _ => (initial_client [] [], O) end.

Lemma config_client_checked_witness :
  key_checked disk None 3 (formatTargetAddr (c_Addr from_file.1) (c_Port from_file.1)).
Proof.
  apply (config_client_checked coalesce 5 true (str "web") plain None disk from_file.1 3%nat
    (NewClientFromConfig coalesce 5 true (str "web") plain disk).1.2 [Opened 3; Established 3]);
    [exact (plain_source None)|reflexivity].
Defined.

(** A server whose key is not listed is refused, and the connection closed. *)
Example unknown_key_refused :
  (New 5 true (str "me") (str "web") [Some (WithKnownHosts (str "/etc/kh"))] disk).1.1 = Err ErrSSHDialFailed ∧
  (New 5 true (str "me") (str "web") [Some (WithKnownHosts (str "/etc/kh"))] disk).2 = [Opened 3; Shut 3].
Proof. vm_compute. done. Qed.

(** The target of an IPv6 address: without brackets, and without the port. *)
Example ipv6_target :
  formatTargetAddr (str "::1") 22 = str "::1" ∧ formatTargetAddr (str "::1") 2222 = str "[::1]:2222" ∧
  formatTargetAddr (str "web:2200") 2222 = str "[web:2200]:2222".
Proof. vm_compute. done. Qed.
End ClientSample.
