(* ===== verification/SshCommand.v ===== *)
(** * The SSH client: commands, streams and closing (src/ssh/client.go)

    Commands and their sessions, the line reader of [Stream], and the life cycle
    of a client under concurrent calls. *)

From S2P Require Import Prelude GoLib GoText GoFile.

#[local] Open Scope Z_scope.

(** ** Commands *)

(** What reaches a session: the requests of the channel, in order. *)
Inductive request :=
| PtyReq (term : bytes) (width height : Z)
| EnvReq (name value : bytes)
| ExecReq (command : bytes)
| SignalInt
| SessionClose.

(** What the server answers: to a new session, a terminal, a variable, and a
    command (its output). *)
Record server := {
  new_session : bool;
  pty_granted : bool;
  env_granted : bytes → bytes → bool;
  exec_result : bytes → option bytes
}.

Inductive cmd_error := ErrSSHClosed | ErrSession | ErrPtyRequestFailed | ErrCommandInitFailed | ErrExec | ErrContext.

(** [WithStdout], [WithStderr] and [WithStdin] set the streams of the session. *)
Record Cmd := {
  Path : bytes;
  Args : list bytes;
  Env : list bytes;
  Stdout : option nat;
  Stderr : option nat;
  Stdin : option nat;
  cmdStr : bytes;
  Cancel : option nat;
  initOnce : bool;
  requests : list request
}.

(** The terminal a client asks for. *)
Record pty := { p_request : bool; p_term : bytes; p_width : Z; p_height : Z }.

Definition pty_request (p : pty) : request :=
  PtyReq (if bytes_eqb (p_term p) [] then str "xterm" else p_term p)
    (if p_width p <=? 0 then 80 else p_width p) (if p_height p <=? 0 then 40 else p_height p).

(** [usable]: the client is open and connected. *)
Definition Command (srv : server) (usable : bool) (p : pty) (name : bytes) (args : list bytes) :
    result cmd_error Cmd * list request :=
  if negb usable then (Err ErrSSHClosed, [])
  else if negb (new_session srv) then (Err ErrSession, [])
  else if p_request p && negb (pty_granted srv) then (Err ErrPtyRequestFailed, [pty_request p; SessionClose])
  else
    let reqs := if p_request p then [pty_request p] else [] in
    let line := match args with [] => name | _ => name ++ str " " ++ Join args (str " ") end in
    (Ok {| Path := name; Args := args; Env := []; Stdout := None; Stderr := None; Stdin := None; cmdStr := line;
           Cancel := None; initOnce := false; requests := reqs |}, reqs).

Definition CmdOption : Type := Cmd → Cmd.

Definition WithPath (path : bytes) : CmdOption := λ c,
  {| Path := path; Args := Args c; Env := Env c; Stdout := Stdout c; Stderr := Stderr c; Stdin := Stdin c; cmdStr := cmdStr c;
     Cancel := Cancel c; initOnce := initOnce c; requests := requests c |}.
Definition set_streams (o e i : option nat) (c : Cmd) : Cmd :=
  {| Path := Path c; Args := Args c; Env := Env c; Stdout := o; Stderr := e; Stdin := i; cmdStr := cmdStr c;
     Cancel := Cancel c; initOnce := initOnce c; requests := requests c |}.
Definition WithStdout (w : nat) : CmdOption := λ c, set_streams (Some w) (Stderr c) (Stdin c) c.
Definition WithStderr (w : nat) : CmdOption := λ c, set_streams (Stdout c) (Some w) (Stdin c) c.
Definition WithStdin (r : nat) : CmdOption := λ c, set_streams (Stdout c) (Stderr c) (Some r) c.
Definition WithEnv (env : list bytes) : CmdOption := λ c,
  {| Path := Path c; Args := Args c; Env := env; Stdout := Stdout c; Stderr := Stderr c; Stdin := Stdin c; cmdStr := cmdStr c;
     Cancel := Cancel c; initOnce := initOnce c; requests := requests c |}.

Definition String (c : Cmd) : bytes :=
  if negb (bytes_eqb (cmdStr c) []) then cmdStr c
  else match Args c with [] => Path c | _ => Path c ++ str " " ++ Join (Args c) (str " ") end.

(** [Script]: the reader [r] becomes standard input after the options. *)
Definition Script (srv : server) (usable : bool) (p : pty) (r : nat) (opts : list (option CmdOption)) :
    result cmd_error Cmd * list request :=
  match Command srv usable p (str "/bin/sh") [] with
  | (Err e, l) => (Err e, l)
  | (Ok c, l) => (Ok (WithStdin r (foldl (λ c o, match o with Some f => f c | None => c end) c opts)), l)
  end.

(** *** Running *)

Definition log (l : list request) (c : Cmd) : Cmd :=
  {| Path := Path c; Args := Args c; Env := Env c; Stdout := Stdout c; Stderr := Stderr c; Stdin := Stdin c; cmdStr := cmdStr c;
     Cancel := Cancel c; initOnce := initOnce c; requests := requests c ++ l |}.
Definition mark_init (c : Cmd) : Cmd :=
  {| Path := Path c; Args := Args c; Env := Env c; Stdout := Stdout c; Stderr := Stderr c; Stdin := Stdin c; cmdStr := cmdStr c;
     Cancel := Cancel c; initOnce := true; requests := requests c |}.

(** The requests of the variables up to the first refused one, and whether all
    were granted. *)
Fixpoint set_env (srv : server) (env : list bytes) : list request * bool :=
  match env with
  | [] => ([], true)
  | envVar :: rest =>
      match Cut envVar (str "=") with
      | None => set_env srv rest
      | Some (key, val) =>
          if env_granted srv key val
          then let '(l, ok) := set_env srv rest in (EnvReq key val :: l, ok)
          else ([EnvReq key val], false)
      end
  end.

Definition init (srv : server) (c : Cmd) : option cmd_error * Cmd :=
  if initOnce c then (None, c)
  else
    match set_env srv (Env c) with
    | (l, true) => (None, mark_init (log l c))
    | (l, false) => (Some ErrCommandInitFailed, log l c)
    end.

(** How the wait for a command ends: its context cannot be cancelled, or the
    select sees the context done or the result first. *)
Inductive wait := NoContext | ContextFirst | ResultFirst.

Definition terminate (c : Cmd) : list request := match Cancel c with Some _ => [] | None => [SignalInt] end.

(** [CombinedOutput], [Output], [Run] and [Start] differ in what they make of
    the session's output. *)
Definition runInContext (srv : server) (w : wait) (c : Cmd) : result cmd_error bytes * Cmd :=
  match init srv c with
  | (Some e, c) => (Err e, c)
  | (None, c) =>
      let c := log [ExecReq (String c)] c in
      match w with
      | ContextFirst => (Err ErrContext, log (terminate c) c)
      | _ => (match exec_result srv (String c) with Some out => Ok out | None => Err ErrExec end, c)
      end
  end.

Definition CombinedOutput := runInContext.

(** [Client.Run]. *)
Definition Run (srv : server) (usable : bool) (p : pty) (w : wait) (cmdStr : bytes) :
    result cmd_error bytes * list request :=
  match Command srv usable p (str "/bin/sh") [str "-c"; cmdStr] with
  | (Err e, l) => (Err e, l)
  | (Ok c, _) => let '(r, c) := CombinedOutput srv w c in (r, requests c)
  end.

(** *** What is sent *)

Lemma Index_byte_app k c v : c ∉ k → Index (k ++ c :: v) [c] = Some (length k).
Proof.
  induction k as [|d k IH]; intros Hk; cbn [app length].
  - cbn. by rewrite beq_refl.
  - apply not_elem_of_cons in Hk as [Hd Hk]. cbn [Index HasPrefix]. rewrite (proj2 (beq_false _ _)) by congruence.
    by rewrite IH.
Qed.

Lemma Cut_pair k v : "="%byte ∉ k → Cut (k ++ str "=" ++ v) (str "=") = Some (k, v).
Proof.
  intros Hk. unfold Cut. change (str "=" ++ v) with ("="%byte :: v). change (str "=") with ["="%byte]. rewrite Index_byte_app by done.
  cbn. rewrite take_app_exact. do 2 f_equal. rewrite Nat.add_1_r. apply drop_app_cons.
Qed.

Definition env_text (kv : bytes * bytes) : bytes := kv.1 ++ str "=" ++ kv.2.

Lemma set_env_pairs srv vars : Forall (λ kv, "="%byte ∉ kv.1) vars → (∀ k v, (k, v) ∈ vars → env_granted srv k v = true) →
  set_env srv (map env_text vars) = (map (λ kv, EnvReq kv.1 kv.2) vars, true).
Proof.
  intros Hv. induction Hv as [|[k v] vars Hk Hv IH]; intros Hg; [done|]. cbn [map set_env]. unfold env_text at 1. cbn [fst snd].
  rewrite Cut_pair by done. rewrite Hg by left. rewrite IH; [done|]. intros k' v' Hin. apply Hg. by right.
Qed.

(** A command sends its variables once, in order, before its first
    execution; running it again sends only the command.  The command line is
    the name and the arguments separated by blanks, unquoted. *)
Theorem command_requests srv p name args vars w1 w2 c l :
  Command srv true p name args = (Ok c, l) → name ≠ [] →
  Forall (λ kv, "="%byte ∉ kv.1) vars → (∀ k v, (k, v) ∈ vars → env_granted srv k v = true) →
  w1 ≠ ContextFirst → w2 ≠ ContextFirst →
  let c1 := (runInContext srv w1 (WithEnv (map env_text vars) c)).2 in
  let c2 := (runInContext srv w2 c1).2 in
  let line := Join (name :: args) (str " ") in
  requests c1 = l ++ map (λ kv, EnvReq kv.1 kv.2) vars ++ [ExecReq line] ∧
  requests c2 = requests c1 ++ [ExecReq line].
Proof.
  intros Hc Hname Hv Hg Hw1 Hw2. unfold Command in Hc. cbn [negb] in Hc.
  destruct (negb (new_session srv)); [done|]. destruct (p_request p && _); [done|]. injection Hc as <- <-.
  set (line := match args with [] => name | _ => _ end).
  assert (line = Join (name :: args) (str " ")) as Hl by (subst line; by destruct args).
  assert (bytes_eqb line [] = false) as Hne by (apply bytes_eqb_false; subst line; destruct args, name; done).
  assert (∀ c w, initOnce c = true → cmdStr c = line → w ≠ ContextFirst →
    (runInContext srv w c).2 = log [ExecReq line] c) as Hrun.
  { intros c w Hi Hs Hw. unfold runInContext, init. rewrite Hi. unfold String. rewrite Hs, Hne. by destruct w. }
  assert (∀ c, initOnce c = false → cmdStr c = line → Env c = map env_text vars →
    (runInContext srv w1 c).2 = log [ExecReq line] (mark_init (log (map (λ kv, EnvReq kv.1 kv.2) vars) c))) as Hfirst.
  { intros c Hi Hs He. unfold runInContext, init. rewrite Hi, He, set_env_pairs by done. unfold String.
    cbn [mark_init log cmdStr]. rewrite Hs, Hne. by destruct w1. }
  cbn zeta. rewrite <- Hl.
  match goal with |- context [runInContext srv w1 ?c0] => rewrite (Hfirst c0) by done end.
  rewrite Hrun by done. cbn. by rewrite <- app_assoc.
Qed.

(** An option that keeps the prepared command line. *)
Definition keeps_line (f : CmdOption) : Prop := ∀ c, cmdStr (f c) = cmdStr c.

Lemma options_keep_line f : (∃ p, f = WithPath p) ∨ (∃ w, f = WithStdout w) ∨ (∃ w, f = WithStderr w) ∨ (∃ r, f = WithStdin r) ∨
  (∃ e, f = WithEnv e) → keeps_line f.
Proof. by intros [[? ->]|[[? ->]|[[? ->]|[[? ->]|[? ->]]]]] c. Qed.

(** The interpreter chosen with [WithPath] is never used: a script
    is always executed by /bin/sh, whatever options are given. *)
Theorem script_path_ignored srv usable p r opts c l :
  Forall (λ o, match o with Some f => keeps_line f | None => True end) opts →
  Script srv usable p r opts = (Ok c, l) → String c = str "/bin/sh".
Proof.
  intros Ho. unfold Script. destruct (Command srv usable p (str "/bin/sh") []) as [[c0|e] l0] eqn:Ec; [|done].
  assert (cmdStr c0 = str "/bin/sh") as H0.
  { revert Ec. unfold Command. repeat (case_match; try done); by intros [= <- <-]. }
  clear Ec. intros [= <- <-]. unfold String. cbn [WithStdin set_streams cmdStr].
  assert (cmdStr (foldl (λ c o, match o with Some f => f c | None => c end) c0 opts) = str "/bin/sh") as ->; [|done].
  revert c0 H0. induction Ho as [|[f|] opts Hf Ho IH]; intros c0 H0; [done| |by apply IH]. cbn [foldl]. apply IH. by rewrite Hf.
Qed.

(** ** Dialing through the tunnel

    [dial] is what the dial of the tunnel ends with, maybe after the context is
    done.  The second result is a connection that was opened and that nobody
    holds. *)
Definition DialContext (usable context_first : bool) (dial : option nat) : result cmd_error nat * option nat :=
  if negb usable then (Err ErrSSHClosed, None)
  else if context_first then (Err ErrContext, dial)
  else (match dial with Some conn => Ok conn | None => Err ErrSession end, None).

(** [DialUnix] has the same shape, over a channel. *)
Definition DialUnix (usable context_first : bool) (open_channel : option nat) : result cmd_error nat * option nat :=
  if negb usable then (Err ErrSSHClosed, None)
  else if context_first then (Err ErrContext, open_channel)
  else match open_channel with
       | None => (Err ErrSession, None)
       | Some ch => (Ok ch, None)
       end.

(** ** The lines of a stream

    [limit] is the number of sends before the context is done, if it ever is;
    [content] is what the pipe delivers before its end. *)
Fixpoint send_lines (limit : option nat) (lines : list bytes) : list bytes :=
  match lines, limit with
  | [], _ | _, Some O => []
  | line :: rest, Some (S n) => trim_newlines line :: send_lines (Some n) rest
  | line :: rest, None => trim_newlines line :: send_lines None rest
  end.

Definition scanLines (limit : option nat) (content : bytes) : list bytes := send_lines limit (read_strings [] content).

(** A terminated line: its text and whether it ends in a carriage return. *)
Definition line_text (l : bytes * bool) : bytes := l.1 ++ (if l.2 then [x0d; x0a] else [x0a]).

Definition plain_line (s : bytes) : Prop := x0a ∉ s ∧ last s ≠ Some x0d.

Lemma plain_last s : plain_line s → last s ≠ Some x0a.
Proof. intros [Hn _] [t ->]%last_Some. apply Hn. apply elem_of_app. right. left. Qed.

Lemma read_line l t : x0a ∉ l.1 → read_strings [] (line_text l ++ t) = line_text l :: read_strings [] t.
Proof.
  intros Hn. unfold line_text. destruct l as [s []]; cbn in *.
  - replace ((s ++ [x0d; x0a]) ++ t) with ((s ++ [x0d]) ++ x0a :: t) by (by rewrite <- !app_assoc).
    rewrite read_strings_line; [by rewrite <- app_assoc|]. rewrite not_elem_of_app. split; [done|].
    by intros ?%list_elem_of_singleton.
  - replace ((s ++ [x0a]) ++ t) with (s ++ x0a :: t) by (by rewrite <- !app_assoc). by rewrite read_strings_line.
Qed.

Lemma read_tail s : x0a ∉ s → read_strings [] s = if bytes_eqb s [] then [] else [s].
Proof.
  intros Hn. assert (∀ cur, read_strings cur s = if bytes_eqb (cur ++ s) [] then [] else [cur ++ s]) as H; [|apply H].
  induction s as [|c s IH]; intros cur; cbn [read_strings]; [by rewrite app_nil_r|].
  apply not_elem_of_cons in Hn as [Hc Hn]. rewrite (proj2 (beq_false _ _)) by congruence. rewrite IH by done. by rewrite <- app_assoc.
Qed.

(** The lines of a command's output arrive in order and complete, each
    without its line feed or carriage return and line feed; a last line without
    terminator arrives too; when the context ends first, a prefix arrives. *)
Theorem stream_lines lines tail limit :
  Forall (λ l, plain_line l.1) lines → plain_line tail →
  let all := map fst lines ++ (if bytes_eqb tail [] then [] else [tail]) in
  scanLines limit (concat (map line_text lines) ++ tail) = match limit with Some n => take n all | None => all end.
Proof.
  intros Hl Ht. cbn zeta.
  assert (∀ s, plain_line s → trim_newlines s = s) as Htrim.
  { intros s Hs. rewrite <- (app_nil_r s) at 1. apply trim_newlines_line; [constructor|apply Hs|by apply plain_last]. }
  unfold scanLines. revert limit. induction Hl as [|l lines Hs Hl IH]; intros limit; cbn [map concat app].
  - rewrite read_tail by apply Ht. destruct (bytes_eqb tail []) eqn:E; [by destruct limit as [[|n]|]|].
    destruct limit as [[|n]|]; cbn [send_lines take]; rewrite ?Htrim by done; [done| |done]. by destruct n.
  - rewrite <- app_assoc, read_line by apply Hs.
    assert (trim_newlines (line_text l) = l.1) as Hx.
    { apply trim_newlines_line; [|apply Hs|by apply plain_last]. destruct l as [? []]; cbn; rewrite ?Forall_cons, ?Forall_nil; auto. }
    destruct limit as [[|n]|]; cbn [send_lines take]; rewrite ?Hx; [done| |]; by rewrite IH.
Qed.

(** ** Closing

    Calls of [Close], [GetSftp] and the keep-alive loop, interleaved at their
    atomic accesses: the flag, the mutex and the connection. *)
Module Life.

Inductive sftp_result := GotSftp (id : nat) | SftpClosed | SftpFailed.

Inductive thread :=
(** [Close]: before the swap, and its steps when it won it. *)
| CloseStart | CloseCancel | CloseSftp | CloseConn | CloseDone
(** [GetSftp]: before the check, and before taking the mutex. *)
| SftpStart | SftpLock | SftpDone (r : sftp_result)
(** The keep-alive loop waiting, and stopped. *)
| KeepAlive | KeepAliveDone.

Record client := {
  closed : bool;
  cancelled : bool;
  sftpClient : option nat;
  sftp_opened : nat;
  sftp_shut : list nat;
  conn_closed : nat
}.

Definition mk := Build_client.

(** One atomic step of a thread: of [Close], *)
Definition Close_step (t : thread) (c : client) : thread * client :=
  let '(Build_client cl ca sf n shut k) := c in
  match t with
  | CloseStart => if cl then (CloseDone, c) else (CloseCancel, mk true ca sf n shut k)
  | CloseCancel => (CloseSftp, mk cl true sf n shut k)
  | CloseSftp => (CloseConn, match sf with Some id => mk cl ca None n (id :: shut) k | None => c end)
  | CloseConn => (CloseDone, mk cl ca sf n shut (S k))
  | _ => (t, c)
  end.

(** of [GetSftp], where [ok] says whether the server grants the subsystem, *)
Definition GetSftp_step (ok : bool) (t : thread) (c : client) : thread * client :=
  let '(Build_client cl ca sf n shut k) := c in
  match t with
  | SftpStart => (if cl then SftpDone SftpClosed else SftpLock, c)
  | SftpLock =>
      match sf with
      | Some id => (SftpDone (GotSftp id), c)
      | None => if ok && (k =? 0)%nat then (SftpDone (GotSftp n), mk cl ca (Some n) (S n) shut k) else (SftpDone SftpFailed, c)
      end
  | _ => (t, c)
  end.

(** and a round of the keep-alive loop, where [ok] says whether the server
    answers; a loop that gets no answer goes on with [Close]. *)
Definition keepAliveLoop_step (ok : bool) (c : client) : thread * client :=
  if cancelled c then (KeepAliveDone, c)
  else if closed c then (KeepAliveDone, c)
  else if ok then (KeepAlive, c) else (CloseStart, c).

Definition step (ok : bool) (t : thread) (c : client) : thread * client :=
  match t with
  | CloseStart | CloseCancel | CloseSftp | CloseConn => Close_step t c
  | SftpStart | SftpLock => GetSftp_step ok t c
  | KeepAlive => keepAliveLoop_step ok c
  | CloseDone | SftpDone _ | KeepAliveDone => (t, c)
  end.

Definition start : client := mk false false None 0 [] 0.

Inductive reachable : list thread → client → Prop :=
| reach_start ts : Forall (λ t, t = CloseStart ∨ t = SftpStart ∨ t = KeepAlive) ts → reachable ts start
| reach_step ts c i t ok t' c' : reachable ts c → ts !! i = Some t → step ok t c = (t', c') → reachable (<[i := t']> ts) c'.

(** Threads between winning the swap and closing the connection. *)
Definition closing (t : thread) : nat := match t with CloseCancel | CloseSftp | CloseConn => 1 | _ => 0 end.
Definition count (f : thread → nat) (ts : list thread) : nat := sum_list_with f ts.

Lemma count_insert f ts i t t' : ts !! i = Some t → (count f (<[i := t']> ts) + f t = count f ts + f t')%nat.
Proof. apply sum_list_insert. Qed.

Lemma count_lookup f ts i t : ts !! i = Some t → (f t <= count f ts)%nat.
Proof. apply sum_list_lookup. Qed.

Record life_inv (ts : list thread) (c : client) : Prop := {
  inv_close : (conn_closed c + count closing ts = if closed c then 1 else 0)%nat;
  inv_cancel : (0 < conn_closed c)%nat → cancelled c = true;
  inv_winner : Forall (λ t, match t with CloseSftp | CloseConn => cancelled c = true | _ => True end) ts;
  inv_fresh : ∀ id, sftpClient c = Some id → (id < sftp_opened c)%nat;
  inv_got : Forall (λ t, match t with SftpDone (GotSftp id) => closed c = false → sftpClient c = Some id | _ => True end) ts;
  inv_shut : closed c = false → sftp_shut c = [];
  inv_done : Forall (λ t, match t with CloseDone => closed c = true | _ => True end) ts
}.


Lemma step_inv ts c i t ok t' c' : life_inv ts c → ts !! i = Some t → step ok t c = (t', c') → life_inv (<[i := t']> ts) c'.
Proof.
  intros [Hc Hca Hw Hf Hg Hs Hd] Hi Hst. pose proof (count_insert closing ts i t t' Hi) as Hn. pose proof (count_lookup closing ts i t Hi) as Hle.
  assert (∀ P : thread → Prop, Forall P ts → P t' → Forall P (<[i := t']> ts)) as Hins.
  { intros P HP Ht. by apply Forall_insert. }
  pose proof (Forall_lookup_1 _ _ _ _ Hw Hi) as Hwt. pose proof (Forall_lookup_1 _ _ _ _ Hg Hi) as Hgt.
  pose proof (Forall_lookup_1 _ _ _ _ Hd Hi) as Hdt. destruct c as [cl ca sf n shut k]. cbn in *.
  destruct t; cbn in Hst; unfold keepAliveLoop_step in Hst; cbn in Hst; repeat case_match; simplify_eq; cbn in *; split; cbn; try done; try lia; auto.
  all: try (apply Hins; [|done]).
  all: try (eapply Forall_impl; [exact Hg || exact Hw || exact Hd|]; intros []; cbn; try done; auto).
  all: try (match goal with |- context [match ?r with GotSftp _ => _ | _ => _ end] => destruct r end; naive_solver).
  all: try (intros id [= <-]; lia).
  all: exfalso; lia.
Qed.

Lemma life_reachable ts c : reachable ts c → life_inv ts c.
Proof.
  induction 1 as [ts Hts|ts c i t ok t' c' Hr IH Hi Hst]; [|by eapply step_inv].
  split; cbn; try done; try lia.
  - induction Hts as [|t ts Ht Hts IH]; [done|]. unfold count in *. simpl. destruct Ht as [-> | [-> | ->]]; simpl; lia.
  - eapply Forall_impl; [exact Hts|]. by intros t [-> | [-> | ->]].
  - eapply Forall_impl; [exact Hts|]. by intros t [-> | [-> | ->]].
  - eapply Forall_impl; [exact Hts|]. by intros t [-> | [-> | ->]].
Qed.

Definition finished (t : thread) : Prop :=
  match t with CloseDone | SftpDone _ | KeepAliveDone => True | _ => False end.

(** C28: however calls of Close, of GetSftp and the keep-alive loop
    interleave, the connection is closed at most once; when a Close has
    returned and every call has ended it is closed exactly once and the
    keep-alive loop is cancelled; and until the client is closed every GetSftp
    that returns a client returns the same one. *)
Theorem client_life_cycle ts c : reachable ts c →
  (conn_closed c <= 1)%nat ∧
  (Forall finished ts → closed c = true → conn_closed c = 1%nat ∧ cancelled c = true) ∧
  (CloseDone ∈ ts → closed c = true) ∧
  (closed c = false → ∀ i j a b, ts !! i = Some (SftpDone (GotSftp a)) → ts !! j = Some (SftpDone (GotSftp b)) → a = b).
Proof.
  intros Hr. destruct (life_reachable ts c Hr) as [Hc Hca Hw Hf Hg Hs Hd]. split_and!.
  - destruct (closed c); lia.
  - intros Hfin Hcl. rewrite Hcl in Hc. assert (count closing ts = 0%nat) as H0.
    { clear -Hfin. induction Hfin as [|t ts Ht Hfin IH]; [done|]. unfold count in *. simpl. destruct t; done. }
    split; [lia|]. apply Hca. lia.
  - intros Hin. rewrite Forall_forall in Hd. by apply (Hd _ Hin).
  - intros Hcl i j a b Hi Hj. pose proof (Forall_lookup_1 _ _ _ _ Hg Hi Hcl) as Ha. pose proof (Forall_lookup_1 _ _ _ _ Hg Hj Hcl) as Hb.
    cbn in *. congruence.
Qed.

(** Two closers, two users of the SFTP client and the keep-alive loop. *)
Definition sample_threads : list thread := [CloseStart; SftpStart; SftpStart; CloseStart; KeepAlive].

Fixpoint run (sched : list (nat * bool)) (ts : list thread) (c : client) : list thread * client :=
  match sched with
  | [] => (ts, c)
  | (i, ok) :: rest =>
      match ts !! i with
      | Some t => let '(t', c') := step ok t c in run rest (<[i := t']> ts) c'
      | None => (ts, c)
      end
  end.

Lemma run_reachable sched ts c : reachable ts c → reachable (run sched ts c).1 (run sched ts c).2.
Proof.
  revert ts c. induction sched as [|[i ok] sched IH]; intros ts c Hr; [done|]. cbn [run].
  destruct (ts !! i) as [t|] eqn:Ei; [|done]. destruct (step ok t c) as [t' c'] eqn:Es. apply IH. by eapply reach_step.
Qed.

Definition sample_schedule : list (nat * bool) :=
  map (λ i, (i, true)) [1; 1; 2; 0; 2; 3; 0; 4; 0; 0]%nat.

Lemma client_life_cycle_witness :
  let '(ts, c) := run sample_schedule sample_threads start in
  Forall finished ts ∧ conn_closed c = 1%nat ∧ cancelled c = true ∧
  ts = [CloseDone; SftpDone (GotSftp 0); SftpDone (GotSftp 0); CloseDone; KeepAliveDone].
Proof.
  assert (reachable sample_threads start) as H0 by (apply reach_start; repeat constructor; auto).
  pose proof (client_life_cycle _ _ (run_reachable sample_schedule _ _ H0)) as (_ & Hfin & _).
  vm_compute run in *. assert (Forall finished [CloseDone; SftpDone (GotSftp 0); SftpDone (GotSftp 0); CloseDone; KeepAliveDone]) as Hf
    by (repeat constructor).
  destruct (Hfin Hf eq_refl) as [Hk Hc]. split; [exact Hf|]. split; [exact Hk|]. split; [exact Hc|reflexivity].
Defined.
End Life.

(** ** A concrete command *)
Module CommandSample.

Definition srv : server :=
  {| new_session := true; pty_granted := true; env_granted := λ _ _, true; exec_result := Some |}.
Definition no_pty : pty := {| p_request := false; p_term := []; p_width := 0; p_height := 0 |}.
Definition ls : Cmd := match (Command srv true no_pty (str "ls") [str "-l"]).1 with Ok c => c | Err _ =>
  {| Path := []; Args := []; Env := []; Stdout := None; Stderr := None; Stdin := None; cmdStr := []; Cancel := None;
     initOnce := false; requests := [] |} end.

Lemma command_requests_witness :
  let c1 := (runInContext srv NoContext (WithEnv [str "A=1"; str "B=x=y"] ls)).2 in
  requests c1 = [EnvReq (str "A") (str "1"); EnvReq (str "B") (str "x=y"); ExecReq (str "ls -l")].
Proof.
  apply (command_requests srv no_pty (str "ls") [str "-l"] [(str "A", str "1"); (str "B", str "x=y")] NoContext NoContext ls []);
    try reflexivity; try done.
  repeat (apply Forall_cons_2; [apply (bool_decide_eq_true_1 _); vm_compute; reflexivity|]). apply Forall_nil_2.
Defined.

Lemma stream_lines_witness :
  scanLines None (str "one" ++ [x0d; x0a] ++ str "two") = [str "one"; str "two"].
Proof.
  apply (stream_lines [(str "one", true)] (str "two") None).
  - apply Forall_singleton. split; apply (bool_decide_eq_true_1 _); vm_compute; reflexivity.
  - split; apply (bool_decide_eq_true_1 _); vm_compute; reflexivity.
Defined.

Lemma script_path_ignored_witness :
  let r := Script srv true no_pty 7 [Some (WithPath (str "/usr/bin/python3"))] in
  match r.1 with Ok c => String c = str "/bin/sh" ∧ Path c = str "/usr/bin/python3" | Err _ => False end.
Proof.
  cbn zeta. destruct (Script srv true no_pty 7 [Some (WithPath (str "/usr/bin/python3"))]) as [[c|e] l] eqn:E; [|discriminate E].
  split.
  - apply (script_path_ignored srv true no_pty 7 [Some (WithPath (str "/usr/bin/python3"))] c l); [|exact E].
    apply Forall_singleton. apply options_keep_line. left. eexists. reflexivity.
  - injection E as <- <-. reflexivity.
Defined.

(** [Run] hands its command to the remote shell without quotes: of [echo a b]
    the inner shell only sees [echo]. *)
Example run_unquoted : (Run srv true no_pty NoContext (str "echo a b")).2 = [ExecReq (str "/bin/sh -c echo a b")].
Proof. vm_compute. reflexivity. Qed.
End CommandSample.
