(* ===== verification/SshSftp.v ===== *)
(** * Parallel SFTP transfers and SCP (src/ssh/sftp)

    The workers of a parallel transfer, the producer of chunks and the
    cancellation of their context run interleaved; a file is a map from offsets
    to bytes.  SCP builds a command line and a stream. *)

From S2P Require Import Prelude GoLib GoText GoFile.

#[local] Open Scope Z_scope.

Definition buffer_size : Z := 64 * 1024.

Record transferTask := { offset : Z; size : Z }.

(** ** A parallel transfer *)

(** A worker waits for a task, copies one, or has returned, maybe with an
    error. *)
Inductive worker :=
| Idle
| Copying (task : transferTask) (written : Z)
| Returned (failed : bool).

Record transfer := {
  next_offset : Z;
  taskCh : list transferTask;
  ch_closed : bool;
  workers : list worker;
  ctx_done : bool;
  interrupted : bool;
  dest : gmap Z byte
}.

Section transfer.
(** The file that is copied, the chunk size and the number of workers. *)
Variables (source : bytes) (chunkSize : Z) (nworkers : nat).

Definition totalSize : Z := Z.of_nat (length source).

(** [n] bytes of the source at an offset. *)
Definition ReadAt (off n : Z) : bytes := take (Z.to_nat n) (drop (Z.to_nat off) source).

(** Writing at an offset. *)
Fixpoint WriteAt (off : Z) (data : bytes) (f : gmap Z byte) : gmap Z byte :=
  match data with
  | [] => f
  | c :: data' => WriteAt (off + 1) data' (<[off := c]> f)
  end.

Definition next_task (off : Z) : transferTask := {| offset := off; size := Z.min chunkSize (totalSize - off) |}.

(** One step of the producer, a worker or the caller's context.  The channel has
    room for two tasks per worker. *)
Inductive step : transfer → transfer → Prop :=
| produce off q ws cd ir f :
    off < totalSize → (length q < 2 * nworkers)%nat →
    step (Build_transfer off q false ws cd ir f)
      (Build_transfer (wrap64 (off + chunkSize)) (q ++ [next_task off]) false ws cd ir f)
| produce_cancelled off q ws ir f :
    off < totalSize →
    step (Build_transfer off q false ws true ir f) (Build_transfer off q true ws true ir f)
| produce_end off q ws cd ir f :
    totalSize <= off →
    step (Build_transfer off q false ws cd ir f) (Build_transfer off q true ws cd ir f)
| receive i t off q cl ws cd ir f :
    ws !! i = Some Idle →
    step (Build_transfer off (t :: q) cl ws cd ir f) (Build_transfer off q cl (<[i := Copying t 0]> ws) cd ir f)
| worker_end i off ws cd ir f :
    ws !! i = Some Idle →
    step (Build_transfer off [] true ws cd ir f) (Build_transfer off [] true (<[i := Returned false]> ws) cd ir f)
| copy i t w n off q cl ws cd ir f :
    ws !! i = Some (Copying t w) → w < size t → 0 < n <= Z.min buffer_size (size t - w) →
    step (Build_transfer off q cl ws cd ir f)
      (Build_transfer off q cl (<[i := Copying t (w + n)]> ws) cd ir (WriteAt (offset t + w) (ReadAt (offset t + w) n) f))
| chunk_end i t w off q cl ws cd ir f :
    ws !! i = Some (Copying t w) → size t <= w →
    step (Build_transfer off q cl ws cd ir f) (Build_transfer off q cl (<[i := Idle]> ws) cd ir f)
(** A read or a write fails before the chunk is complete. *)
| chunk_fails i t w off q cl ws cd ir f :
    ws !! i = Some (Copying t w) → w < size t →
    step (Build_transfer off q cl ws cd ir f) (Build_transfer off q cl (<[i := Returned true]> ws) true ir f)
| interrupt off q cl ws cd f :
    step (Build_transfer off q cl ws cd false f) (Build_transfer off q cl ws true true f).

Definition initial : transfer :=
  {| next_offset := 0; taskCh := []; ch_closed := false; workers := replicate nworkers Idle; ctx_done := false;
     interrupted := false; dest := ∅ |}.

Inductive reachable : transfer → Prop :=
| reach_init : reachable initial
| reach_step s s' : reachable s → step s s' → reachable s'.

Definition returned (w : worker) : Prop := match w with Returned _ => True | _ => False end.

#[export] Instance returned_dec w : Decision (returned w).
Proof. destruct w; apply _. Defined.

(** What [dispatchParallelUpload] and [dispatchParallelDownload] return when all
    workers have: nil unless a worker put an error into the channel. *)
Definition transfer_ok (s : transfer) : Prop := Forall (λ w, w = Returned false) (workers s).

(** Uploading and downloading differ in which of the two files is [source]: the
    states in which all workers have returned. *)
Definition dispatchParallelUpload (s : transfer) : Prop := reachable s ∧ Forall returned (workers s).
Definition dispatchParallelDownload (s : transfer) : Prop := reachable s ∧ Forall returned (workers s).

(** ** Invariant *)

Definition in_task (t : transferTask) (lo i : Z) : Prop := offset t + lo <= i < offset t + size t.

Definition wf_task (t : transferTask) : Prop := 0 <= offset t ∧ 0 < size t ∧ offset t + size t <= totalSize.

Definition no_failure (s : transfer) : Prop := Returned true ∉ workers s.

Record transfer_inv (s : transfer) : Prop := {
  inv_off : 0 <= next_offset s < 2 ^ 63;
  inv_tasks : Forall wf_task (taskCh s);
  inv_workers : ∀ i t w, workers s !! i = Some (Copying t w) → wf_task t ∧ 0 <= w <= size t;
  inv_dest : ∀ i c, dest s !! i = Some c → 0 <= i ∧ source !! Z.to_nat i = Some c;
  inv_cover : no_failure s → ∀ i, 0 <= i < next_offset s → i < totalSize →
    is_Some (dest s !! i) ∨ (∃ t, t ∈ taskCh s ∧ in_task t 0 i) ∨
    (∃ k t w, workers s !! k = Some (Copying t w) ∧ in_task t w i);
  inv_closed : ch_closed s = true → totalSize <= next_offset s ∨ ctx_done s = true;
  inv_done : ctx_done s = true → interrupted s = true ∨ ¬ no_failure s;
  inv_returned : Returned false ∈ workers s → ch_closed s = true ∧ taskCh s = []
}.

Lemma WriteAt_lookup off data f i :
  WriteAt off data f !! i =
    if (off <=? i) && (i <? off + Z.of_nat (length data)) then data !! Z.to_nat (i - off) else f !! i.
Proof.
  revert off f. induction data as [|c data IH]; intros off f; cbn [WriteAt length].
  - destruct (Z.leb_spec off i), (Z.ltb_spec i (off + Z.of_nat 0)); cbn; try done; lia.
  - rewrite IH. destruct (Z.leb_spec (off + 1) i), (Z.ltb_spec i (off + 1 + Z.of_nat (length data))),
      (Z.leb_spec off i), (Z.ltb_spec i (off + Z.of_nat (S (length data)))); cbn [andb]; try lia.
    + replace (Z.to_nat (i - off)) with (S (Z.to_nat (i - (off + 1)))) by lia. done.
    + by rewrite lookup_insert_ne by lia.
    + assert (i = off) as -> by lia. rewrite lookup_insert_eq, Z.sub_diag. done.
    + by rewrite lookup_insert_ne by lia.
Qed.

Lemma ReadAt_lookup off n i : 0 <= off → 0 <= i < n → ReadAt off n !! Z.to_nat i = source !! Z.to_nat (off + i).
Proof.
  intros Ho Hi. unfold ReadAt, bytes. rewrite lookup_take_lt by lia. rewrite lookup_drop. f_equal. lia.
Qed.

Lemma ReadAt_length off n : 0 <= off → 0 <= n → off + n <= totalSize → Z.of_nat (length (ReadAt off n)) = n.
Proof. intros Ho Hn Hl. unfold ReadAt, totalSize in *. rewrite length_take, length_drop. lia. Qed.

Context (Hchunk : 0 < chunkSize) (Hsmall : totalSize + chunkSize < 2 ^ 63).

Lemma initial_inv : transfer_inv initial.
Proof.
  split; cbn; try done; try lia; try apply Forall_nil_2.
  - intros i t w Hi. apply lookup_replicate_1 in Hi as [? _]. done.
  - intros Hin. apply elem_of_replicate in Hin as [? _]. done.
Qed.

Lemma insert_failure (ws : list worker) i x w : ws !! i = Some x → x ≠ Returned true → Returned true ∈ ws → Returned true ∈ <[i := w]> ws.
Proof.
  intros Hi Hx [j Hj]%list_elem_of_lookup. apply list_elem_of_lookup. exists j. rewrite list_lookup_insert_ne; [done|].
  intros ->. congruence.
Qed.

Lemma insert_returned (ws : list worker) i x w : Returned false ∈ <[i := w]> ws → ws !! i = Some x → w ≠ Returned false → Returned false ∈ ws.
Proof.
  intros [j Hj]%list_elem_of_lookup Hi Hw. destruct (decide (i = j)) as [->|Hne].
  - rewrite list_lookup_insert_eq in Hj by (by eapply lookup_lt_Some). congruence.
  - rewrite list_lookup_insert_ne in Hj by done. by eapply list_elem_of_lookup_2.
Qed.

Lemma lookup_insert_worker (ws : list worker) i j x w y : ws !! i = Some x → <[i := w]> ws !! j = Some y →
  (j = i ∧ y = w) ∨ (j ≠ i ∧ ws !! j = Some y).
Proof.
  intros Hi Hj. destruct (decide (i = j)) as [->|Hne].
  - rewrite list_lookup_insert_eq in Hj by (by eapply lookup_lt_Some). injection Hj as <-. by left.
  - rewrite list_lookup_insert_ne in Hj by done. by right.
Qed.

(** The producer's steps. *)
Lemma produce_inv off q ws cd ir f : off < totalSize →
  transfer_inv (Build_transfer off q false ws cd ir f) →
  transfer_inv (Build_transfer (wrap64 (off + chunkSize)) (q ++ [next_task off]) false ws cd ir f).
Proof.
  intros Ho [H1 H2 H3 H4 H5 H6 H7 H8]. cbn in *. rewrite wrap64_small by lia. split; cbn; try done; try lia.
  - apply Forall_app. split; [done|]. apply Forall_singleton. unfold wf_task, next_task. cbn. lia.
  - intros Hn i Hi Ht. destruct (decide (i < off)) as [Hlt|Hge].
    + destruct (H5 Hn i) as [Hd|[(t & Hin & Hit)|Hw]]; [lia|lia|by left| |by right; right].
      right. left. exists t. split; [|done]. apply elem_of_app. by left.
    + right. left. exists (next_task off). split; [apply elem_of_app; right; left|]. unfold in_task, next_task. cbn. lia.
  - intros Hin. by destruct (H8 Hin).
Qed.

Lemma close_inv off q ws cd ir f : totalSize <= off ∨ cd = true →
  transfer_inv (Build_transfer off q false ws cd ir f) → transfer_inv (Build_transfer off q true ws cd ir f).
Proof. intros Ho [H1 H2 H3 H4 H5 H6 H7 H8]. split; cbn in *; try done. intros Hin. by destruct (H8 Hin). Qed.

Lemma receive_inv i t off q cl ws cd ir f : ws !! i = Some Idle →
  transfer_inv (Build_transfer off (t :: q) cl ws cd ir f) → transfer_inv (Build_transfer off q cl (<[i := Copying t 0]> ws) cd ir f).
Proof.
  intros Hi [H1 H2 H3 H4 H5 H6 H7 H8]. unfold no_failure in *. cbn in *. apply Forall_cons in H2 as [Ht H2].
  split; unfold no_failure; cbn; try done.
  - intros j t' w Hj. destruct (lookup_insert_worker _ _ _ _ _ _ Hi Hj) as [[-> [= -> ->]]|[_ Hj']]; [|by eapply H3].
    split; [done|]. unfold wf_task in Ht. lia.
  - intros Hn j Hj Hlt. destruct (H5 (λ Hx, Hn (insert_failure _ _ _ _ Hi ltac:(done) Hx)) j Hj Hlt)
      as [Hd|[(t' & Hin & Hit)|(k & t' & w & Hk & Hit)]]; [by left| |].
    + apply elem_of_cons in Hin as [->|Hin]; [|right; left; by exists t'].
      right. right. exists i, t, 0. split; [|done]. apply list_lookup_insert_eq. by eapply lookup_lt_Some.
    + right. right. exists k, t', w. split; [|done]. rewrite list_lookup_insert_ne; [done|]. intros ->. congruence.
  - intros Hd. destruct (H7 Hd) as [?|Hf]; [by left|]. right. intros Hn. apply Hf. intros Hx. by apply Hn, (insert_failure _ _ _ _ Hi).
  - intros Hin. destruct H8 as [_ [=]]. by apply (insert_returned _ _ _ _ Hin Hi).
Qed.

Lemma worker_end_inv i off ws cd ir f : ws !! i = Some Idle →
  transfer_inv (Build_transfer off [] true ws cd ir f) → transfer_inv (Build_transfer off [] true (<[i := Returned false]> ws) cd ir f).
Proof.
  intros Hi [H1 H2 H3 H4 H5 H6 H7 H8]. unfold no_failure in *. cbn in *. split; unfold no_failure; cbn; try done.
  - intros j t' w Hj. destruct (lookup_insert_worker _ _ _ _ _ _ Hi Hj) as [[-> [=]]|[_ Hj']]. by eapply H3.
  - intros Hn j Hj Hlt. destruct (H5 (λ Hx, Hn (insert_failure _ _ _ _ Hi ltac:(done) Hx)) j Hj Hlt)
      as [Hd|[(t' & Hin & Hit)|(k & t' & w & Hk & Hit)]]; [by left|by apply elem_of_nil in Hin|].
    right. right. exists k, t', w. split; [|done]. rewrite list_lookup_insert_ne; [done|]. intros ->. congruence.
  - intros Hd. destruct (H7 Hd) as [?|Hf]; [by left|]. right. intros Hn. apply Hf. intros Hx. by apply Hn, (insert_failure _ _ _ _ Hi).
Qed.

Lemma copy_inv i t w n off q cl ws cd ir f :
  ws !! i = Some (Copying t w) → w < size t → 0 < n <= Z.min buffer_size (size t - w) →
  transfer_inv (Build_transfer off q cl ws cd ir f) →
  transfer_inv (Build_transfer off q cl (<[i := Copying t (w + n)]> ws) cd ir (WriteAt (offset t + w) (ReadAt (offset t + w) n) f)).
Proof.
  intros Hi Hw Hn [H1 H2 H3 H4 H5 H6 H7 H8]. unfold no_failure in *. cbn in *. destruct (H3 i t w Hi) as [(Ht1 & Ht2 & Ht3) Hw2].
  pose proof (ReadAt_length (offset t + w) n ltac:(lia) ltac:(lia) ltac:(lia)) as Hlen.
  split; unfold no_failure; cbn; try done.
  - intros j t' w' Hj. destruct (lookup_insert_worker _ _ _ _ _ _ Hi Hj) as [[-> [= -> ->]]|[_ Hj']]; [|by eapply H3].
    split; [done|lia].
  - intros j c. rewrite WriteAt_lookup, Hlen. case_match eqn:E; [|apply H4]. bools.
    replace (j - (offset t + w)) with (0 + (j - (offset t + w))) by lia. rewrite ReadAt_lookup by lia.
    replace (offset t + w + (0 + (j - (offset t + w)))) with j by lia. intros ?. split; [lia|done].
  - intros Hf j Hj Hlt. rewrite WriteAt_lookup, Hlen.
    destruct (H5 (λ Hx, Hf (insert_failure _ _ _ _ Hi ltac:(done) Hx)) j Hj Hlt) as [Hd|[Hq|(k & t' & w' & Hk & Hit)]].
    + left. case_match eqn:E; [|done]. bools. replace (j - (offset t + w)) with (0 + (j - (offset t + w))) by lia.
      rewrite ReadAt_lookup by lia. apply lookup_lt_is_Some. unfold totalSize in *. lia.
    + right. by left.
    + destruct (decide (k = i)) as [->|Hne].
      * rewrite Hi in Hk. injection Hk as <- <-. unfold in_task in Hit. destruct (decide (j < offset t + w + n)) as [Hin|Hout].
        -- left. rewrite (proj2 (Z.leb_le _ _)), (proj2 (Z.ltb_lt _ _)) by lia. cbn [andb].
           replace (j - (offset t + w)) with (0 + (j - (offset t + w))) by lia. rewrite ReadAt_lookup by lia.
           apply lookup_lt_is_Some. unfold totalSize in *. lia.
        -- right. right. exists i, t, (w + n). split; [apply list_lookup_insert_eq; by eapply lookup_lt_Some|]. unfold in_task. lia.
      * right. right. exists k, t', w'. split; [|done]. by rewrite list_lookup_insert_ne.
  - intros Hd. destruct (H7 Hd) as [?|Hf]; [by left|]. right. intros Hx. apply Hf. intros Hy. by apply Hx, (insert_failure _ _ _ _ Hi).
  - intros Hin. apply H8. by apply (insert_returned _ _ _ _ Hin Hi).
Qed.

Lemma chunk_end_inv i t w off q cl ws cd ir f : ws !! i = Some (Copying t w) → size t <= w →
  transfer_inv (Build_transfer off q cl ws cd ir f) → transfer_inv (Build_transfer off q cl (<[i := Idle]> ws) cd ir f).
Proof.
  intros Hi Hw [H1 H2 H3 H4 H5 H6 H7 H8]. unfold no_failure in *. cbn in *. split; unfold no_failure; cbn; try done.
  - intros j t' w' Hj. destruct (lookup_insert_worker _ _ _ _ _ _ Hi Hj) as [[-> [=]]|[_ Hj']]. by eapply H3.
  - intros Hf j Hj Hlt. destruct (H5 (λ Hx, Hf (insert_failure _ _ _ _ Hi ltac:(done) Hx)) j Hj Hlt)
      as [Hd|[Hq|(k & t' & w' & Hk & Hit)]]; [by left|by right; left|].
    right. right. exists k, t', w'. split; [|done]. rewrite list_lookup_insert_ne; [done|]. intros <-.
    rewrite Hi in Hk. injection Hk as <- <-. unfold in_task in Hit. lia.
  - intros Hd. destruct (H7 Hd) as [?|Hf]; [by left|]. right. intros Hx. apply Hf. intros Hy. by apply Hx, (insert_failure _ _ _ _ Hi).
  - intros Hin. apply H8. by apply (insert_returned _ _ _ _ Hin Hi).
Qed.

Lemma chunk_fails_inv i t w off q cl ws cd ir f : ws !! i = Some (Copying t w) →
  transfer_inv (Build_transfer off q cl ws cd ir f) → transfer_inv (Build_transfer off q cl (<[i := Returned true]> ws) true ir f).
Proof.
  intros Hi [H1 H2 H3 H4 H5 H6 H7 H8]. unfold no_failure in *. cbn in *.
  assert (Returned true ∈ <[i := Returned true]> ws) as Hin.
  { apply list_elem_of_lookup. exists i. apply list_lookup_insert_eq. by eapply lookup_lt_Some. }
  split; unfold no_failure; cbn; try done; auto.
  - intros j t' w' Hj. destruct (lookup_insert_worker _ _ _ _ _ _ Hi Hj) as [[-> [=]]|[_ Hj']]. by eapply H3.
  - intros Hr. apply H8. by apply (insert_returned _ _ _ _ Hr Hi).
Qed.

Lemma reachable_transfer_inv s : reachable s → transfer_inv s.
Proof.
  induction 1 as [|s s' Hr IH Hst]; [apply initial_inv|]. destruct Hst.
  - by apply produce_inv.
  - apply close_inv; auto.
  - apply close_inv; auto.
  - by apply receive_inv.
  - by apply worker_end_inv.
  - by apply copy_inv.
  - by eapply chunk_end_inv.
  - by eapply chunk_fails_inv.
  - destruct IH as [H1 H2 H3 H4 H5 H6 H7 H8]. split; cbn in *; auto.
Qed.

Lemma workers_length s : reachable s → length (workers s) = nworkers.
Proof.
  induction 1 as [|s s' Hr IH Hst]; [apply length_replicate|]. destruct Hst; cbn in *; by rewrite ?length_insert.
Qed.

(** C3: when a parallel transfer that was not interrupted returns without
    error, the destination holds exactly the source: every interleaving of
    workers, producer and partial reads copies every byte, once to its place. *)
Theorem parallel_transfer_complete s i : (0 < nworkers)%nat → reachable s → transfer_ok s → interrupted s = false →
  dest s !! i = if 0 <=? i then source !! Z.to_nat i else None.
Proof.
  intros Hn Hr Hok Hi. destruct (reachable_transfer_inv s Hr) as [H1 H2 H3 H4 H5 H6 H7 H8].
  pose proof (workers_length s Hr) as Hlen. unfold transfer_ok in Hok.
  assert (Returned false ∈ workers s) as Hin.
  { destruct (workers s) as [|w ws] eqn:E; [cbn in Hlen; lia|]. apply Forall_cons in Hok as [-> _]. left. }
  assert (no_failure s) as Hnf by (intros Hf; rewrite Forall_forall in Hok; by specialize (Hok _ Hf)).
  destruct (H8 Hin) as [Hcl Hq]. destruct (H6 Hcl) as [Hoff|Hd]; [|destruct (H7 Hd) as [|Hx]; [congruence|by destruct Hx]].
  destruct (dest s !! i) as [c|] eqn:Ed.
  - destruct (H4 i c Ed) as [Hp Hs]. by rewrite (proj2 (Z.leb_le _ _)).
  - destruct (Z.leb_spec 0 i) as [Hp|]; [|done]. symmetry. apply lookup_ge_None. apply Nat.nlt_ge. intros Hlt.
    destruct (H5 Hnf i) as [[c Hc]|[(t & Ht & _)|(k & t & w & Hk & _)]]; [unfold totalSize in *; lia|unfold totalSize in *; lia| | |].
    + congruence.
    + rewrite Hq in Ht. by apply elem_of_nil in Ht.
    + apply (Forall_lookup_1 _ _ _ _ Hok) in Hk. done.
Qed.

(** *** Termination *)

Definition sum_with {A} (f : A → Z) (l : list A) : Z := foldr (λ x n, f x + n) 0 l.

Lemma sum_with_insert {A} (f : A → Z) (l : list A) i x y : l !! i = Some x → sum_with f (<[i := y]> l) = sum_with f l - f x + f y.
Proof.
  revert i. induction l as [|z l IH]; intros [|i] Hi; simpl in *; try done; [injection Hi as ->; lia|]. rewrite (IH _ Hi). lia.
Qed.

Lemma sum_with_app {A} (f : A → Z) (l k : list A) : sum_with f (l ++ k) = sum_with f l + sum_with f k.
Proof. induction l as [|x l IH]; simpl; [done|]. rewrite IH. lia. Qed.

Lemma sum_with_nonneg {A} (f : A → Z) (l : list A) : Forall (λ x, 0 <= f x) l → 0 <= sum_with f l.
Proof. induction 1; simpl; lia. Qed.

Definition work (w : worker) : Z :=
  match w with Idle => 1 | Copying t n => 2 * (size t - n) + 2 | Returned _ => 0 end.

(** The work that is left: bytes to hand out, tasks that wait, bytes to copy. *)
Definition remaining (s : transfer) : Z :=
  5 * Z.max 0 (totalSize - next_offset s) + sum_with (λ t, 2 * size t + 2) (taskCh s) + sum_with work (workers s) +
  (if ch_closed s then 0 else 1) + (if interrupted s then 0 else 1).

Lemma remaining_nonneg s : transfer_inv s → 0 <= remaining s.
Proof.
  intros [H1 H2 H3 _ _ _ _ _]. unfold remaining.
  assert (0 <= sum_with (λ t, 2 * size t + 2) (taskCh s)).
  { apply sum_with_nonneg. eapply Forall_impl; [exact H2|]. intros t (? & ? & ?). lia. }
  assert (0 <= sum_with work (workers s)).
  { apply sum_with_nonneg. apply Forall_lookup. intros i [|t w|] Hi; cbn; [lia| |lia]. destruct (H3 _ _ _ Hi). lia. }
  destruct (ch_closed s), (interrupted s); lia.
Qed.

Lemma step_decreases s s' : transfer_inv s → step s s' → remaining s' < remaining s.
Proof.
  intros Hinv Hst.
  assert (0 <= next_offset s) as Hoff by apply Hinv. pose proof (inv_workers s Hinv) as Hcopy.
  destruct Hst; cbn in Hoff, Hcopy; unfold remaining; cbn [next_offset taskCh ch_closed workers interrupted];
    try (erewrite (sum_with_insert work) by eassumption); rewrite ?sum_with_app;
    cbn [work sum_with foldr next_task size offset]; try lia.
  all: try (rewrite wrap64_small by lia; lia).
  - unfold sum_with. lia.
  - match goal with H : ws !! i = _ |- _ => destruct (Hcopy _ _ _ H) end. lia.
Qed.

(** Until every worker has returned some step is possible without the caller's
    help. *)
Lemma transfer_progress s : (0 < nworkers)%nat → transfer_inv s →
  Forall returned (workers s) ∨ ∃ s', step s s' ∧ interrupted s' = interrupted s.
Proof.
  intros Hn Hinv. destruct s as [off q cl ws cd ir f]. cbn.
  destruct (decide (Forall returned ws)) as [|Hnot]; [by left|right].
  apply not_Forall_Exists in Hnot; [|apply _]. apply Exists_exists in Hnot as (w & [i Hi]%list_elem_of_lookup & Hw).
  destruct w as [|t w|]; [| |by destruct Hw].
  - destruct q as [|t q]; [|eexists; split; [by eapply receive|done]].
    destruct cl; [eexists; split; [by eapply worker_end|done]|].
    destruct (Z.lt_ge_cases off totalSize) as [Hlt|Hge];
      (eexists; split; [first [by apply produce_end|apply produce; cbn; lia]|done]).
  - destruct (Z.lt_ge_cases w (size t)) as [Hlt|Hge].
    + eexists. split; [eapply (copy i t w 1); [done|done|]; unfold buffer_size; lia|done].
    + eexists. split; [by eapply chunk_end|done].
Qed.

(** A parallel transfer ends: every step of a worker, of the producer
    or of the context reduces the work left, which is never negative, and as
    long as a worker has not returned a step is possible. *)
Theorem transfer_terminates s : (0 < nworkers)%nat → reachable s →
  0 <= remaining s ∧ (∀ s', step s s' → remaining s' < remaining s) ∧
  (Forall returned (workers s) ∨ ∃ s', step s s' ∧ interrupted s' = interrupted s).
Proof.
  intros Hn Hr. apply reachable_transfer_inv in Hr as Hinv. split_and!; [by apply remaining_nonneg| |by apply transfer_progress].
  intros s'. by apply step_decreases.
Qed.

(** *** Interruption *)

Lemma workers_end k f : (k <= nworkers)%nat →
  reachable (Build_transfer 0 [] true (replicate nworkers Idle) true true f) →
  reachable (Build_transfer 0 [] true (replicate k (Returned false) ++ replicate (nworkers - k) Idle) true true f).
Proof.
  intros Hk H0. induction k as [|k IH]; [by rewrite Nat.sub_0_r|]. specialize (IH ltac:(lia)).
  replace (nworkers - k)%nat with (S (nworkers - S k)) in IH by lia. cbn [replicate] in IH.
  eapply reach_step; [exact IH|].
  assert (replicate (S k) (Returned false) ++ replicate (nworkers - S k) Idle =
    <[k := Returned false]> (replicate k (Returned false) ++ Idle :: replicate (nworkers - S k) Idle)) as ->.
  { rewrite replicate_S_end, <- app_assoc. cbn [app].
    rewrite (insert_app_r_alt _ _ k) by (rewrite length_replicate; lia). rewrite length_replicate, Nat.sub_diag. done. }
  apply worker_end. rewrite lookup_app_r by (rewrite length_replicate; lia). by rewrite length_replicate, Nat.sub_diag.
Qed.

(** A transfer whose context is cancelled before anything was copied
    can return without error: success is reported for an empty
    destination. *)
Theorem interrupted_transfer_succeeds : source ≠ [] →
  ∃ s, reachable s ∧ transfer_ok s ∧ interrupted s = true ∧ dest s = ∅.
Proof.
  intros Hne. exists (Build_transfer 0 [] true (replicate nworkers (Returned false)) true true ∅). split_and!; try done.
  - pose proof (workers_end nworkers ∅) as H. rewrite Nat.sub_diag, app_nil_r in H. apply H; [lia|].
    assert (0 < totalSize) as Ht by (unfold totalSize; destruct source; [done|cbn; lia]).
    eapply reach_step; [eapply reach_step; [apply reach_init|apply interrupt]|]. by apply produce_cancelled.
  - unfold transfer_ok. cbn. by apply Forall_replicate.
Qed.
End transfer.

(** ** Starting a transfer *)

Inductive sftp_error := ErrClientClosed | ErrInvalidChunkSize | ErrInvalidTargetFile | ErrOpen | ErrCreateFile | ErrSubsystem | ErrStart | ErrCopy.

(** Which of the files and the subsystem can be opened. *)
Record access := { can_open : bool; can_stat : bool; can_sftp : bool; can_create : bool }.

(** The packet size of [NewClient]; [connected] says whether there is an SSH
    client. *)
Definition NewClient (connected : bool) (maxPacketSize : Z) : result sftp_error Z :=
  if negb connected then Err ErrClientClosed
  else Ok (if maxPacketSize <=? 0 then 64 * 1024 else maxPacketSize).

(** What a call leads to: nothing to copy, or a dispatch with a number of
    workers. *)
Inductive dispatch := NothingToCopy | Dispatch (workers : nat) (chunkSize totalSize : Z).

Definition worker_count (workers : Z) : nat := Z.to_nat (if workers <=? 0 then 4 else workers).

Definition UploadParallel (a : access) (workers chunkSize totalSize : Z) : result sftp_error dispatch :=
  let n := worker_count workers in
  if chunkSize <=? 0 then Err ErrInvalidChunkSize
  else if negb (can_open a) then Err ErrOpen
  else if negb (can_stat a) then Err ErrOpen
  else if negb (can_sftp a) then Err ErrSubsystem
  else if negb (can_create a) then Err ErrCreateFile
  else if totalSize =? 0 then Ok NothingToCopy
  else Ok (Dispatch n chunkSize totalSize).

Definition DownloadParallel (a : access) (workers chunkSize totalSize : Z) : result sftp_error dispatch :=
  let n := worker_count workers in
  if chunkSize <=? 0 then Err ErrInvalidChunkSize
  else if negb (can_sftp a) then Err ErrSubsystem
  else if negb (can_open a) then Err ErrOpen
  else if negb (can_stat a) then Err ErrOpen
  else if negb (can_create a) then Err ErrCreateFile
  else if totalSize =? 0 then Ok NothingToCopy
  else Ok (Dispatch n chunkSize totalSize).

(** Every dispatch has a worker and a positive chunk, as the transfer needs. *)
Lemma dispatch_positive a w c t n c' t' :
  UploadParallel a w c t = Ok (Dispatch n c' t') ∨ DownloadParallel a w c t = Ok (Dispatch n c' t') →
  (0 < n)%nat ∧ 0 < c' ∧ t' = t.
Proof.
  unfold UploadParallel, DownloadParallel, worker_count. intros [Hd|Hd]; revert Hd; repeat (case_match; try done);
    intros [= <- <- <-]; bools; (split_and!; [lia|lia|done]).
Qed.

(** ** SCP *)

(** [strings.ReplaceAll] of a single byte. *)
Definition ReplaceAll_byte (s : bytes) (c : byte) (r : bytes) : bytes := concat (map (λ d, if d =b c then r else [d]) s).

Definition quote : byte := "'".
Definition escaped_quote : bytes := [quote; "\"; quote; quote]%byte.

Definition shellQuote (s : bytes) : bytes := [quote] ++ ReplaceAll_byte s quote escaped_quote ++ [quote].

Definition containsControlChars (s : bytes) : bool := existsb (λ c, (c =b x00) || (c =b x0a) || (c =b x0d)) s.

(** [filepath.Base]. *)
Definition trim_slashes (s : bytes) : bytes := rev (span (λ c, c =b "/") (rev s)).2.
Definition Base (path : bytes) : bytes :=
  if bytes_eqb path [] then str "."
  else
    let p := trim_slashes path in
    let b := match LastIndexByte p "/" with Some i => drop (S i) p | None => p end in
    if bytes_eqb b [] then str "/" else b.

(** The stream of the copying goroutine: header, content and terminator. *)
Definition scp_header (size : Z) (fileName : bytes) : bytes := str "C0644 " ++ Itoa size ++ str " " ++ fileName ++ [x0a].
Definition scp_stream (size : Z) (fileName content : bytes) : bytes :=
  scp_header size fileName ++ (if 0 <? size then content else []) ++ [x00].

(** [content] is what the reader delivers. *)
Definition WriteFile (connected session start_ok copy_ok : bool) (size : Z) (content remoteFilePath : bytes) :
    result sftp_error (bytes * bytes) :=
  if negb connected then Err ErrClientClosed
  else
    let fileName := Base remoteFilePath in
    if containsControlChars remoteFilePath || containsControlChars fileName then Err ErrInvalidTargetFile
    else if negb session then Err ErrSubsystem
    else if negb start_ok then Err ErrStart
    else if negb copy_ok then Err ErrCopy
    else Ok (str "scp -tr " ++ shellQuote remoteFilePath, scp_stream size fileName content).

(** *** How the other side reads it *)

(** A word of a POSIX shell without expansions: quoted parts, escaped bytes and
    plain bytes, up to a blank. *)
Fixpoint sh_word (quoted : bool) (s : bytes) : option (bytes * bytes) :=
  match s with
  | [] => if quoted then None else Some ([], [])
  | c :: s' =>
      if quoted then
        if c =b quote then sh_word false s'
        else '(w, r) ← sh_word true s'; Some (c :: w, r)
      else if c =b quote then sh_word true s'
      else if c =b "\" then
        match s' with
        | d :: s'' => '(w, r) ← sh_word false s''; Some (d :: w, r)
        | [] => None
        end
      else if c =b " " then Some ([], s')
      else '(w, r) ← sh_word false s'; Some (c :: w, r)
  end.

Lemma sh_word_quoted s : sh_word true (ReplaceAll_byte s quote escaped_quote ++ [quote]) = Some (s, []).
Proof.
  assert (∀ t, sh_word true (escaped_quote ++ t) = '(w, r) ← sh_word true t; Some (quote :: w, r)) as Hq by done.
  induction s as [|c s IH]; [done|]. unfold ReplaceAll_byte in *. cbn [map concat]. rewrite <- app_assoc.
  destruct (c =b quote) eqn:E.
  - bools. subst c. by rewrite Hq, IH.
  - cbn [app sh_word]. by rewrite E, IH.
Qed.

(** The receiver of a copy: the header, then as many bytes as it says, then the
    terminator. *)
Definition scp_receive (s : bytes) : option (bytes * bytes) :=
  if HasPrefix s (str "C0644 ") then
    let '(n, rest) := span is_digit (drop 6 s) in
    match rest with
    | " "%byte :: rest =>
        let '(name, body) := span (λ c, negb (c =b x0a)) rest in
        match body with
        | _ :: body =>
            let size := Z.to_nat (dec_value n) in
            match drop size body with
            | [x00] => Some (name, take size body)
            | _ => None
            end
        | [] => None
        end
    | _ => None
    end
  else None.

(** A file written with SCP goes where it was told: the remote shell
    reads the quoted path as one word with its exact bytes, whatever they are,
    and the receiver gets the file's name and content when the reader delivers
    the announced number of bytes; paths with control characters are
    refused. *)
Theorem scp_writes size content path :
  size = Z.of_nat (length content) →
  WriteFile true true true true size content path =
    (if containsControlChars path || containsControlChars (Base path) then Err ErrInvalidTargetFile
     else Ok (str "scp -tr " ++ shellQuote path, scp_stream size (Base path) content)) ∧
  sh_word false (shellQuote path) = Some (path, []) ∧
  (containsControlChars (Base path) = false → scp_receive (scp_stream size (Base path) content) = Some (Base path, content)).
Proof.
  intros Hs. split; [done|]. split; [apply sh_word_quoted|]. intros Hc. unfold scp_receive, scp_stream, scp_header.
  rewrite <- !app_assoc. rewrite HasPrefix_app. change 6%nat with (length (str "C0644 ")). rewrite drop_app_exact.
  assert (Itoa size = digits size) as -> by (unfold Itoa; case_match; bools; [lia|done]).
  destruct (digits_spec size) as (Hv & Hd & _); [lia|].
  rewrite (span_spec is_digit (digits size)); [|done|by intros c t [= <- _]].
  change (str " " ++ Base path ++ [x0a] ++ ?x) with (" "%byte :: (Base path ++ x0a :: x)). cbn iota.
  rewrite (span_spec _ (Base path)); [| |by intros c t [= <- _]].
  - rewrite Hv, Hs, Nat2Z.id. destruct (Z.ltb_spec 0 (Z.of_nat (length content))) as [|Hz].
    + by rewrite drop_app_exact, take_app_exact.
    + destruct content; [done|cbn in Hz; lia].
  - apply Forall_forall. intros c Hin. apply negb_true_iff, beq_false. intros ->.
    unfold containsControlChars in Hc. apply not_true_iff_false in Hc. apply Hc, existsb_exists.
    exists x0a. split; [by apply list_elem_of_In|done].
Qed.

(** ** Concrete transfers: two bytes, one worker, chunks of one byte *)
Module TransferSample.

Definition file : bytes := str "ab".
Definition task (i : Z) : transferTask := {| offset := i; size := 1 |}.
Definition at_state (off : Z) (q : list transferTask) (cl : bool) (w : worker) (f : gmap Z byte) : transfer :=
  Build_transfer off q cl [w] false false f.
Definition d1 : gmap Z byte := WriteAt 0 (ReadAt file 0 1) ∅.
Definition d2 : gmap Z byte := WriteAt 1 (ReadAt file 1 1) d1.

Lemma sample_run : reachable file 1 1 (at_state 2 [] true (Returned false) d2).
Proof.
  assert (reachable file 1 1 (at_state 1 [task 0] false Idle ∅)) as H1
    by exact (reach_step _ _ _ _ _ (reach_init file 1 1) (produce file 1 1 0 [] [Idle] false false ∅ ltac:(done) ltac:(cbn; lia))).
  assert (reachable file 1 1 (at_state 1 [] false (Copying (task 0) 0) ∅)) as H2
    by exact (reach_step _ _ _ _ _ H1 (receive file 1 1 0 (task 0) 1 [] false [Idle] false false ∅ eq_refl)).
  assert (reachable file 1 1 (at_state 1 [] false (Copying (task 0) 1) d1)) as H3
    by exact (reach_step _ _ _ _ _ H2 (copy file 1 1 0 (task 0) 0 1 1 [] false [Copying (task 0) 0] false false ∅ eq_refl ltac:(done) ltac:(done))).
  assert (reachable file 1 1 (at_state 1 [] false Idle d1)) as H4
    by exact (reach_step _ _ _ _ _ H3 (chunk_end file 1 1 0 (task 0) 1 1 [] false [Copying (task 0) 1] false false d1 eq_refl ltac:(done))).
  assert (reachable file 1 1 (at_state 2 [task 1] false Idle d1)) as H5
    by exact (reach_step _ _ _ _ _ H4 (produce file 1 1 1 [] [Idle] false false d1 ltac:(done) ltac:(cbn; lia))).
  assert (reachable file 1 1 (at_state 2 [] false (Copying (task 1) 0) d1)) as H6
    by exact (reach_step _ _ _ _ _ H5 (receive file 1 1 0 (task 1) 2 [] false [Idle] false false d1 eq_refl)).
  assert (reachable file 1 1 (at_state 2 [] false (Copying (task 1) 1) d2)) as H7
    by exact (reach_step _ _ _ _ _ H6 (copy file 1 1 0 (task 1) 0 1 2 [] false [Copying (task 1) 0] false false d1 eq_refl ltac:(done) ltac:(done))).
  assert (reachable file 1 1 (at_state 2 [] false Idle d2)) as H8
    by exact (reach_step _ _ _ _ _ H7 (chunk_end file 1 1 0 (task 1) 1 2 [] false [Copying (task 1) 1] false false d2 eq_refl ltac:(done))).
  assert (reachable file 1 1 (at_state 2 [] true Idle d2)) as H9
    by exact (reach_step _ _ _ _ _ H8 (produce_end file 1 1 2 [] [Idle] false false d2 ltac:(done))).
  exact (reach_step _ _ _ _ _ H9 (worker_end file 1 1 0 2 [Idle] false false d2 eq_refl)).
Qed.

Lemma parallel_transfer_complete_witness : d2 !! 1 = Some "b"%byte.
Proof.
  apply (parallel_transfer_complete file 1 1 ltac:(lia) ltac:(vm_compute; reflexivity) (at_state 2 [] true (Returned false) d2) 1);
    [lia|exact sample_run| |reflexivity]. apply Forall_singleton. reflexivity.
Defined.

Lemma transfer_terminates_witness :
  0 <= remaining file (initial 1) ∧ (∀ s', step file 1 1 (initial 1) s' → remaining file s' < remaining file (initial 1)) ∧
  (Forall returned (workers (initial 1)) ∨ ∃ s', step file 1 1 (initial 1) s' ∧ interrupted s' = interrupted (initial 1)).
Proof.
  apply (transfer_terminates file 1 1 ltac:(lia) ltac:(vm_compute; reflexivity) (initial 1)); [lia|apply reach_init].
Defined.

Lemma interrupted_transfer_succeeds_witness :
  ∃ s, reachable file 1 4 s ∧ transfer_ok s ∧ interrupted s = true ∧ dest s = ∅.
Proof. apply (interrupted_transfer_succeeds file 1 4). discriminate. Defined.

Lemma scp_writes_witness :
  WriteFile true true true true 2 file (str "/tmp/it's") =
    Ok (str "scp -tr '/tmp/it'\''s'", scp_stream 2 (str "it's") file) ∧
  sh_word false (shellQuote (str "/tmp/it's")) = Some (str "/tmp/it's", []).
Proof.
  destruct (scp_writes 2 file (str "/tmp/it's") eq_refl) as (H1 & H2 & _). split; [rewrite H1; vm_compute; reflexivity|exact H2].
Defined.

(** A reader that delivers fewer bytes than announced is not noticed: the
    stream the receiver gets is not a copy. *)
Example short_content_not_noticed :
  (∃ r, WriteFile true true true true 5 file (str "f") = Ok r) ∧ scp_receive (scp_stream 5 (str "f") file) = None.
Proof. split; [by eexists|vm_compute; reflexivity]. Qed.
End TransferSample.
