(* ===== verification/SshStream.v ===== *)
(** * Streams and transfers of the SSH client (src/ssh/client.go)

    [Stream] with its goroutines as a step relation: two line readers, the
    waiter and the main worker with its timeout; the calls that only guard an
    operation of the sftp package; the sequential transfers. *)

From S2P Require Import Prelude GoLib GoText GoFile SshCommand SshSftp.

#[local] Open Scope Z_scope.

(** ** Starting a stream *)

Definition second : Z := 1000000000.

(** Which of the library's calls succeed: opening a session, its two pipes,
    starting the command. *)
Record stream_access := { a_session : bool; a_stdout : bool; a_stderr : bool; a_start : bool }.

(** The timeout of the workers, and what was sent to the server; a session that
    was opened is closed again when a later call fails. *)
Definition Stream (a : stream_access) (command : bytes) (timeout : Z) : result cmd_error Z * list request :=
  if negb (a_session a) then (Err ErrSession, [])
  else if negb (a_stdout a) then (Err ErrSession, [SessionClose])
  else if negb (a_stderr a) then (Err ErrSession, [SessionClose])
  else if negb (a_start a) then (Err ErrExec, [ExecReq command; SessionClose])
  else (Ok (if timeout <=? 0 then 60 * second else timeout), [ExecReq command]).

(** ** The goroutines of a stream *)

Definition capacity : nat := 100.

(** A line reader: between two reads, at its select with a line, or returned
    (its channel is closed). *)
Inductive scan_pc := Reading | Sending (line : bytes) | Ended.

(** [sc_rest] are the lines the pipe has still to deliver, [sc_chan] the lines
    in the channel, [sc_got] those its reader has received. *)
Record scanner := { sc_pc : scan_pc; sc_rest : list bytes; sc_chan : list bytes; sc_got : list bytes }.

(** Once the session is closed ([closed]) the pipe may end anywhere. *)
Inductive scan_step (ctx closed : bool) (s : scanner) : scanner → Prop :=
| scan_read l t : sc_pc s = Reading → sc_rest s = l :: t →
    scan_step ctx closed s {| sc_pc := Sending (trim_newlines l); sc_rest := t; sc_chan := sc_chan s; sc_got := sc_got s |}
| scan_eof : sc_pc s = Reading → sc_rest s = [] →
    scan_step ctx closed s {| sc_pc := Ended; sc_rest := []; sc_chan := sc_chan s; sc_got := sc_got s |}
| scan_cut n : sc_pc s = Reading → closed = true → (n < length (concat (sc_rest s)))%nat →
    scan_step ctx closed s
      {| sc_pc := Reading; sc_rest := read_strings [] (take n (concat (sc_rest s))); sc_chan := sc_chan s; sc_got := sc_got s |}
| scan_send l : sc_pc s = Sending l → (length (sc_chan s) < capacity)%nat →
    scan_step ctx closed s {| sc_pc := Reading; sc_rest := sc_rest s; sc_chan := sc_chan s ++ [l]; sc_got := sc_got s |}
| scan_done l : sc_pc s = Sending l → ctx = true →
    scan_step ctx closed s {| sc_pc := Ended; sc_rest := sc_rest s; sc_chan := sc_chan s; sc_got := sc_got s |}.

(** The reader of a channel. *)
Definition receive (s : scanner) : option scanner :=
  match sc_chan s with
  | [] => None
  | l :: t => Some {| sc_pc := sc_pc s; sc_rest := sc_rest s; sc_chan := t; sc_got := sc_got s ++ [l] |}
  end.

Inductive wait_pc := WaitReaders | WaitExit | Reported.

(** What [Wait] returns: how the command ended, or that the session ended without
    an exit status, because the connection was lost or the session closed. *)
Inductive exit_result := Exited (ok : bool) | NoExit.
Inductive stream_error := ExitOf (r : exit_result) | ContextError.

Record stream := {
  s_out : scanner;
  s_err : scanner;
  s_ctx : bool;                     (* [streamCtx] is done *)
  s_expired : bool;                 (* its timeout or the caller's context ended it *)
  s_exit : option exit_result;      (* how the server's channel ended *)
  s_wait : wait_pc;
  s_res : list exit_result;         (* [resCh] *)
  s_finished : bool;                (* the worker has returned: the session and its channels are closed *)
  s_cmdErr : list stream_error;     (* [cmdErrCh] *)
  s_done : list bool;               (* [doneCh] *)
  s_requests : list request
}.

Definition mk := Build_stream.

Definition new_scanner (content : bytes) : scanner :=
  {| sc_pc := Reading; sc_rest := read_strings [] content; sc_chan := []; sc_got := [] |}.

(** [out] and [err] are the bytes that arrive on the two pipes until they end:
    what the command wrote, or less when the connection is lost. *)
Definition runStreamWorkers (out err : bytes) : stream :=
  mk (new_scanner out) (new_scanner err) false false None WaitReaders [] false [] [] [].

(** The context as the line readers see it, and the end of the worker. *)
Definition finish (e : stream_error) (ok : bool) (reqs : list request) (s : stream) : stream :=
  mk (s_out s) (s_err s) true (s_expired s) (s_exit s) (s_wait s) (s_res s) true (s_cmdErr s ++ [e]) (s_done s ++ [ok])
     (s_requests s ++ reqs ++ [SessionClose]).

(** Every step but those of the consumer and of the context. The channel ends with
    the exit status of the command, or, when the connection is lost, without. *)
Inductive stream_step (s : stream) : stream → Prop :=
| step_out o : scan_step (s_ctx s) (s_finished s) (s_out s) o →
    stream_step s (mk o (s_err s) (s_ctx s) (s_expired s) (s_exit s) (s_wait s) (s_res s) (s_finished s) (s_cmdErr s) (s_done s) (s_requests s))
| step_err e : scan_step (s_ctx s) (s_finished s) (s_err s) e →
    stream_step s (mk (s_out s) e (s_ctx s) (s_expired s) (s_exit s) (s_wait s) (s_res s) (s_finished s) (s_cmdErr s) (s_done s) (s_requests s))
| step_exit r : s_exit s = None →
    stream_step s (mk (s_out s) (s_err s) (s_ctx s) (s_expired s) (Some r) (s_wait s) (s_res s) (s_finished s) (s_cmdErr s) (s_done s) (s_requests s))
| step_readers : s_wait s = WaitReaders → sc_pc (s_out s) = Ended → sc_pc (s_err s) = Ended →
    stream_step s (mk (s_out s) (s_err s) (s_ctx s) (s_expired s) (s_exit s) WaitExit (s_res s) (s_finished s) (s_cmdErr s) (s_done s) (s_requests s))
| step_wait r : s_wait s = WaitExit → s_exit s = Some r →
    stream_step s (mk (s_out s) (s_err s) (s_ctx s) (s_expired s) (s_exit s) Reported (s_res s ++ [r]) (s_finished s) (s_cmdErr s) (s_done s) (s_requests s))
| step_wait_closed : s_wait s = WaitExit → s_finished s = true →
    stream_step s (mk (s_out s) (s_err s) (s_ctx s) (s_expired s) (s_exit s) Reported (s_res s ++ [NoExit]) (s_finished s) (s_cmdErr s) (s_done s) (s_requests s))
| step_result r rest : s_finished s = false → s_res s = r :: rest →
    stream_step s (finish (ExitOf r) true []
      (mk (s_out s) (s_err s) (s_ctx s) (s_expired s) (s_exit s) (s_wait s) rest (s_finished s) (s_cmdErr s) (s_done s) (s_requests s)))
| step_timeout : s_finished s = false → s_ctx s = true → stream_step s (finish ContextError false [SignalInt] s).

(** The consumer receives a line; the context ends. *)
Inductive outside_step (s : stream) : stream → Prop :=
| receive_out o : receive (s_out s) = Some o →
    outside_step s (mk o (s_err s) (s_ctx s) (s_expired s) (s_exit s) (s_wait s) (s_res s) (s_finished s) (s_cmdErr s) (s_done s) (s_requests s))
| receive_err e : receive (s_err s) = Some e →
    outside_step s (mk (s_out s) e (s_ctx s) (s_expired s) (s_exit s) (s_wait s) (s_res s) (s_finished s) (s_cmdErr s) (s_done s) (s_requests s)).

Definition expire (s : stream) : stream :=
  mk (s_out s) (s_err s) true (s_expired s || negb (s_finished s)) (s_exit s) (s_wait s) (s_res s) (s_finished s) (s_cmdErr s) (s_done s) (s_requests s).

Inductive reachable (out err : bytes) : stream → Prop :=
| reach_start : reachable out err (runStreamWorkers out err)
| reach_step s s' : reachable out err s → stream_step s s' → reachable out err s'
| reach_outside s s' : reachable out err s → outside_step s s' → reachable out err s'
| reach_expire s : reachable out err s → reachable out err (expire s).

(** ** What a stream delivers *)

Definition lines_of (content : bytes) : list bytes := trim_newlines <$> read_strings [] content.

(** What went into a channel, received or not. *)
Definition passed (s : scanner) : list bytes := sc_got s ++ sc_chan s.

(** A part of the content has been read into [read] and [sc_rest]; all of it, as
    long as the session is open. *)
Record scanner_inv (content : bytes) (ctx finished : bool) (s : scanner) : Prop := {
  sc_nonempty : Forall (λ l, l ≠ []) (sc_rest s);
  sc_capacity : (length (sc_chan s) <= capacity)%nat;
  sc_lines : ∃ part read, part `prefix_of` content ∧ (finished = false → part = content) ∧
    read_strings [] part = read ++ sc_rest s ∧
    match sc_pc s with
    | Reading => passed s = trim_newlines <$> read
    | Sending l => passed s ++ [l] = trim_newlines <$> read
    | Ended => passed s `prefix_of` (trim_newlines <$> read) ∧ (ctx = false → passed s = trim_newlines <$> read ∧ sc_rest s = [])
    end
}.

Lemma read_strings_nonempty cur s : Forall (λ l, l ≠ []) (read_strings cur s).
Proof.
  revert cur. induction s as [|c s IH]; intros cur; cbn [read_strings].
  - destruct (bytes_eqb cur []) eqn:E; bools; by repeat constructor.
  - destruct (c =b x0a); [constructor; [by destruct cur|]|]; apply IH.
Qed.

(** A line that is followed by another one has its terminator. *)
Lemma read_strings_first cur s l more : x0a ∉ cur → read_strings cur s = l :: more → more ≠ [] →
  ∃ w s', x0a ∉ w ∧ l = w ++ [x0a] ∧ read_strings [] s' = more.
Proof.
  revert cur. induction s as [|c s IH]; intros cur Hc; cbn [read_strings].
  - destruct (bytes_eqb cur []); [done|]. by intros [= <- <-].
  - destruct (c =b x0a) eqn:E; bools.
    + intros [= <- <-] Hm. subst c. by exists cur, s.
    + intros Hs Hm. apply (IH (cur ++ [c])); [|done..]. rewrite not_elem_of_app, list_elem_of_singleton. by split; [|congruence].
Qed.

(** Lines that are followed by others are read the same whatever follows. *)
Lemma read_strings_cut s read rest t : read_strings [] s = read ++ rest → rest ≠ [] →
  read_strings [] (concat read ++ t) = read ++ read_strings [] t.
Proof.
  revert s. induction read as [|l read IH]; intros s Hs Hr; [done|]. cbn [app] in Hs.
  destruct (read_strings_first [] s l (read ++ rest)) as (w & s' & Hw & -> & Hs'); [apply not_elem_of_nil|done| |].
  { intros [_ ?]%app_eq_nil. done. }
  cbn [concat app]. rewrite <- !app_assoc. cbn [app]. rewrite read_strings_line by done. by rewrite (IH s').
Qed.

Lemma scanner_step content ctx finished s s' : scanner_inv content ctx finished s →
  scan_step ctx finished s s' → scanner_inv content ctx finished s'.
Proof.
  intros [I1 I2 (part & read & Hp & Hf & Hs & Hm)] Hstep. unfold passed in *.
  destruct Hstep as [l t Hpc Hr|Hpc Hr|n Hpc Hc Hn|l Hpc Hl|l Hpc Hc]; rewrite Hpc in Hm.
  - rewrite Hr in *. apply Forall_cons in I1 as [_ I1]. constructor; [done..|]. exists part, (read ++ [l]).
    rewrite <- app_assoc. unfold passed. cbn. split_and!; [done..|]. by rewrite fmap_app, Hm.
  - rewrite Hr in *. constructor; [done..|]. exists part, read. unfold passed. cbn. split_and!; [done..|by rewrite Hm|done].
  - assert (sc_rest s ≠ []) as Hne by (intros E; rewrite E in Hn; cbn in Hn; lia).
    constructor; [apply read_strings_nonempty|done|]. exists (concat read ++ take n (concat (sc_rest s))), read.
    cbn. split_and!; [|congruence|by eapply read_strings_cut|done].
    etransitivity; [|exact Hp]. pose proof (read_strings_concat [] part) as E. rewrite Hs, concat_app in E. cbn in E.
    rewrite <- E. apply prefix_app. rewrite <- (take_drop n (concat (sc_rest s))) at 2. by apply prefix_app_r.
  - constructor; unfold passed; cbn; [done|lens|]. exists part, read. split_and!; [done..|]. by rewrite <- Hm, <- !app_assoc.
  - constructor; unfold passed; cbn; [done..|]. exists part, read. split_and!; [done..| |by rewrite Hc].
    rewrite <- Hm. by apply prefix_app_r.
Qed.

Lemma scanner_receive content ctx finished s s' : receive s = Some s' → scanner_inv content ctx finished s →
  scanner_inv content ctx finished s' ∧ passed s' = passed s ∧ sc_pc s' = sc_pc s.
Proof.
  unfold receive. destruct (sc_chan s) as [|l t] eqn:Ec; [done|]. intros [= <-] [I1 I2 I3].
  assert (passed {| sc_pc := sc_pc s; sc_rest := sc_rest s; sc_chan := t; sc_got := sc_got s ++ [l] |} = passed s) as E
    by (unfold passed; cbn; by rewrite Ec, <- app_assoc).
  split; [|done]. constructor; cbn [sc_pc sc_rest sc_chan]; rewrite ?E; [done| |done]. rewrite Ec in I2. cbn in I2. lia.
Qed.

(** The context may end, the session may be closed. *)
Lemma scanner_weaken content ctx finished finished' s : (finished = true → finished' = true) →
  scanner_inv content ctx finished s → scanner_inv content true finished' s.
Proof.
  intros Hf [I1 I2 (part & read & Hp & He & Hs & Hm)]. constructor; [done..|]. exists part, read. split_and!; [done| |done|].
  - intros ->. destruct finished; [by discriminate Hf|]. by apply He.
  - destruct (sc_pc s); try done. by destruct Hm.
Qed.

(** What has been received are lines of a part of the content: of all of it while
    the session is open; and all of them when the pipe ended. *)
Lemma scanner_got content ctx finished s : scanner_inv content ctx finished s →
  ∃ part, part `prefix_of` content ∧ (finished = false → part = content) ∧ sc_got s `prefix_of` lines_of part.
Proof.
  intros [_ _ (part & read & Hp & He & Hs & Hm)]. exists part. split_and!; [done..|]. unfold lines_of. rewrite Hs, fmap_app.
  apply prefix_app_r. unfold passed in Hm. destruct (sc_pc s) as [|l|]; [rewrite <- Hm; by apply prefix_app_r| |].
  - rewrite <- Hm, <- app_assoc. by apply prefix_app_r.
  - destruct Hm as [Hm _]. etransitivity; [|exact Hm]. by apply prefix_app_r.
Qed.

Lemma scanner_complete content s : scanner_inv content false false s → sc_pc s = Ended → passed s = lines_of content.
Proof.
  intros [_ _ (part & read & Hp & He & Hs & Hm)] Hpc. rewrite Hpc in Hm. destruct Hm as [_ Hm]. destruct (Hm eq_refl) as [-> Hr].
  rewrite <- (He eq_refl). unfold lines_of. by rewrite Hs, Hr, app_nil_r.
Qed.

Lemma ended_stays ctx closed s s' : sc_pc s = Ended → ¬ scan_step ctx closed s s'.
Proof. intros Hp Hs. destruct Hs; congruence. Qed.

Definition complete (out err : bytes) (s : stream) : Prop :=
  passed (s_out s) = lines_of out ∧ passed (s_err s) = lines_of err.

Record stream_inv (out err : bytes) (s : stream) : Prop := {
  st_out : scanner_inv out (s_ctx s) (s_finished s) (s_out s);
  st_err : scanner_inv err (s_ctx s) (s_finished s) (s_err s);
  st_main : if s_finished s
    then s_ctx s = true ∧
         ((s_done s = [true] ∧ ∃ r, s_cmdErr s = [ExitOf r] ∧ s_exit s = Some r ∧ s_requests s = [SessionClose] ∧
             s_wait s = Reported ∧ (s_expired s = false → complete out err s)) ∨
          (s_done s = [false] ∧ s_cmdErr s = [ContextError] ∧ s_requests s = [SignalInt; SessionClose] ∧ s_expired s = true))
    else s_done s = [] ∧ s_cmdErr s = [] ∧ s_requests s = [] ∧ s_ctx s = s_expired s;
  st_wait : match s_wait s with
    | WaitReaders => s_res s = []
    | WaitExit => s_res s = [] ∧ sc_pc (s_out s) = Ended ∧ sc_pc (s_err s) = Ended
    | Reported => sc_pc (s_out s) = Ended ∧ sc_pc (s_err s) = Ended ∧
        (s_finished s = false → ∃ r, s_res s = [r] ∧ s_exit s = Some r)
    end
}.

Lemma stream_inv_step out err s s' : stream_inv out err s → stream_step s s' → stream_inv out err s'.
Proof.
  intros [I1 I2 I3 I4] Hs.
  destruct Hs as [o Ho|e He|ok Hx|Hw Ho He|ok Hw Hx|Hw Hf|r rest Hf Hr|Hf Hc].
  - assert (s_wait s = WaitReaders) as Ew.
    { destruct (s_wait s); [done|destruct I4 as (_ & P & _)|destruct I4 as (P & _)]; by destruct (ended_stays _ _ _ _ P Ho). }
    rewrite Ew in I4. constructor; cbn; rewrite ?Ew; [by eapply scanner_step|done| |done].
    destruct (s_finished s); [|done]. destruct I3 as (? & [(? & ? & ? & ? & ? & Hx & _)|?]); [congruence|]. by split; [|right].
  - assert (s_wait s = WaitReaders) as Ew.
    { destruct (s_wait s); [done|destruct I4 as (_ & _ & P)|destruct I4 as (_ & P & _)]; by destruct (ended_stays _ _ _ _ P He). }
    rewrite Ew in I4. constructor; cbn; rewrite ?Ew; [done|by eapply scanner_step| |done].
    destruct (s_finished s); [|done]. destruct I3 as (? & [(? & ? & ? & ? & ? & Hx & _)|?]); [congruence|]. by split; [|right].
  - constructor; cbn; [done..| |].
    + destruct (s_finished s); [|done]. destruct I3 as (? & [(? & ? & ? & ? & ?)|?]); [congruence|]. by split; [|right].
    + destruct (s_wait s); [done..|]. destruct I4 as (? & ? & H4). split_and!; [done..|]. intros Hf.
      destruct (H4 Hf) as (? & ? & ?). congruence.
  - rewrite Hw in I4. constructor; cbn; [done..| |done].
    destruct (s_finished s); [|done]. destruct I3 as (? & [(? & ? & ? & ? & ? & Hx & _)|?]); [congruence|]. by split; [|right].
  - rewrite Hw in I4. destruct I4 as (Hr & ? & ?). constructor; cbn; [done..| |].
    + destruct (s_finished s); [|done]. destruct I3 as (? & [(? & ? & ? & ? & ? & Hy & _)|?]); [congruence|]. by split; [|right].
    + split_and!; [done..|]. intros _. exists ok. by rewrite Hr.
  - rewrite Hw in I4. destruct I4 as (Hr & ? & ?). constructor; cbn; [done..| |].
    + rewrite Hf in *. destruct I3 as (? & [(? & ? & ? & ? & ? & Hy & _)|?]); [congruence|]. by split; [|right].
    + split_and!; [done..|]. congruence.
  - rewrite Hf in I3. destruct I3 as (D & C & R & E).
    assert (s_wait s = Reported) as Ew by (destruct (s_wait s); [congruence|destruct I4; congruence|done]).
    rewrite Ew in I4. destruct I4 as (P1 & P2 & H4). destruct (H4 Hf) as (ok & Hres & Hx).
    rewrite Hres in Hr. injection Hr as <- <-.
    constructor; cbn; [by apply (scanner_weaken _ (s_ctx s) (s_finished s))|by apply (scanner_weaken _ (s_ctx s) (s_finished s))| |rewrite Ew; by split_and!].
    split; [done|]. left. rewrite D, C, R. split; [done|]. exists ok. split_and!; try done. intros Hexp.
    rewrite E, Hexp, Hf in *. by split; apply scanner_complete.
  - rewrite Hf in I3. destruct I3 as (D & C & R & E).
    constructor; cbn; [by apply (scanner_weaken _ (s_ctx s) (s_finished s))|by apply (scanner_weaken _ (s_ctx s) (s_finished s))| |].
    + split; [done|]. right. rewrite D, C, R. by rewrite <- E.
    + destruct (s_wait s); [done..|]. destruct I4 as (? & ? & _). done.
Qed.

Lemma stream_inv_outside out err s s' : stream_inv out err s → outside_step s s' → stream_inv out err s'.
Proof.
  intros [I1 I2 I3 I4] [o Ho|e He].
  - destruct (scanner_receive _ _ _ _ _ Ho I1) as (I1' & E1 & E2).
    constructor; cbn; [done..| |by rewrite E2]. unfold complete in *. cbn. by rewrite E1.
  - destruct (scanner_receive _ _ _ _ _ He I2) as (I2' & E1 & E2).
    constructor; cbn; [done..| |by rewrite E2]. unfold complete in *. cbn. by rewrite E1.
Qed.

Lemma stream_inv_expire out err s : stream_inv out err s → stream_inv out err (expire s).
Proof.
  intros [I1 I2 I3 I4]. constructor; cbn; [by apply (scanner_weaken _ (s_ctx s) (s_finished s))|by apply (scanner_weaken _ (s_ctx s) (s_finished s))| |done].
  destruct (s_finished s).
  - cbn. rewrite orb_false_r. by destruct I3.
  - cbn. rewrite orb_true_r. by destruct I3 as (? & ? & ? & ?).
Qed.

Lemma reachable_stream out err s : reachable out err s → stream_inv out err s.
Proof.
  assert (∀ c, scanner_inv c false false (new_scanner c)) as Hn.
  { intros c. constructor; cbn; [apply read_strings_nonempty|unfold capacity; lia|]. exists c, []. by split_and!. }
  induction 1 as [|s s' _ IH Hs|s s' _ IH Hs|s _ IH].
  - by constructor.
  - by eapply stream_inv_step.
  - by eapply stream_inv_outside.
  - by apply stream_inv_expire.
Qed.

(** The worker has not ended; or it has reported how the channel ended; or it was
    ended by the context. *)
Lemma stream_outcome out err s : reachable out err s →
  (s_finished s = false ∧ s_done s = [] ∧ s_cmdErr s = [] ∧ s_requests s = []) ∨
  (s_finished s = true ∧ s_done s = [true] ∧ s_requests s = [SessionClose] ∧
     (∃ r, s_cmdErr s = [ExitOf r] ∧ s_exit s = Some r) ∧ (s_expired s = false → complete out err s)) ∨
  (s_finished s = true ∧ s_done s = [false] ∧ s_requests s = [SignalInt; SessionClose] ∧
     s_cmdErr s = [ContextError] ∧ s_expired s = true).
Proof.
  intros Hr. destruct (reachable_stream out err s Hr) as [_ _ I3 _]. destruct (s_finished s) eqn:Ef.
  - right. destruct I3 as (_ & [(D & r & C & X & R & _ & H)|(D & C & R & E)]); [left|right]; [|by split_and!].
    split_and!; try done. by exists r.
  - left. by destruct I3 as (? & ? & ? & ?).
Qed.

(** C31: what a stream reports, under every interleaving of its goroutines, its
    consumer, the server and the context, for the bytes that arrive on its two
    pipes. The lines received are at any time the first lines of a first part of
    these bytes, and of all of them until the worker ends and closes the session.
    Until then nothing is reported; then there is one result. If the context did
    not end first, it is how the channel ended (the exit status of the command, or the
    error for a connection that was lost without one), and every line of both
    outputs has been passed to the channels; if it did, it may instead be the error of
    the context, and the command was interrupted. *)
Theorem stream_result out err s : reachable out err s →
  (∃ o e, (o `prefix_of` out ∧ e `prefix_of` err) ∧ (s_finished s = false → o = out ∧ e = err) ∧
     sc_got (s_out s) `prefix_of` lines_of o ∧ sc_got (s_err s) `prefix_of` lines_of e) ∧
  ((s_finished s = false ∧ s_done s = [] ∧ s_cmdErr s = [] ∧ s_requests s = []) ∨
   (s_finished s = true ∧ s_done s = [true] ∧ s_requests s = [SessionClose] ∧
      (∃ r, s_cmdErr s = [ExitOf r] ∧ s_exit s = Some r) ∧ (s_expired s = false → complete out err s)) ∨
   (s_finished s = true ∧ s_done s = [false] ∧ s_requests s = [SignalInt; SessionClose] ∧
      s_cmdErr s = [ContextError] ∧ s_expired s = true)).
Proof.
  intros Hr. split; [|by apply stream_outcome]. destruct (reachable_stream out err s Hr) as [I1 I2 _ _].
  destruct (scanner_got _ _ _ _ I1) as (o & Ho & Fo & Go), (scanner_got _ _ _ _ I2) as (e & He & Fe & Ge).
  exists o, e. split_and!; auto.
Qed.

(** A consumer that waits for the end of the command before it reads its output
    only ever gets the timeout when there are more lines than the channel
    holds. *)
Theorem unread_stream_stalls out err s : reachable out err s →
  sc_got (s_out s) = [] → (capacity < length (lines_of out))%nat → s_done s = [] ∨ s_expired s = true.
Proof.
  intros Hr Hg Hl. destruct (stream_outcome out err s Hr) as [(_ & D & _)|[(Hf & D & _ & _ & Hc)|(_ & _ & _ & _ & He)]]; auto.
  destruct (s_expired s); [by right|]. destruct (Hc eq_refl) as [Ho _]. unfold passed in Ho. rewrite Hg in Ho. cbn in Ho.
  pose proof (sc_capacity _ _ _ _ (st_out _ _ _ (reachable_stream out err s Hr))) as Hcap. rewrite Ho in Hcap. lia.
Qed.

(** ** Every stream ends *)

Definition pc_work (p : scan_pc) : nat := match p with Reading => 1 | Sending _ => 2 | Ended => 0 end.
Definition scanner_work (s : scanner) : nat := 2 * length (concat (sc_rest s)) + pc_work (sc_pc s).
Definition stream_work (s : stream) : nat :=
  scanner_work (s_out s) + scanner_work (s_err s) + (match s_exit s with None => 1 | _ => 0 end) +
  (match s_wait s with WaitReaders => 2 | WaitExit => 1 | Reported => 0 end) + (if s_finished s then 0 else 1).

Lemma scan_step_work ctx closed s s' : Forall (λ l, l ≠ []) (sc_rest s) → scan_step ctx closed s s' →
  (scanner_work s' < scanner_work s)%nat.
Proof.
  intros Hn Hs. unfold scanner_work.
  destruct Hs as [l t Hp Hr|Hp Hr|n Hp Hc Hl|l Hp Hl|l Hp Hc]; rewrite Hp; cbn [sc_rest sc_pc pc_work].
  - rewrite Hr in *. apply Forall_cons in Hn as [Hn _]. cbn [concat]. destruct l; [done|]. lens.
  - rewrite Hr. cbn. lia.
  - rewrite read_strings_concat. cbn [app]. rewrite length_take. lia.
  - lia.
  - lia.
Qed.

(** C32: a stream ends when its consumer reads on: every step of its goroutines
    takes work away, and when none is possible and the consumer has read all
    there is, the worker has reported and all goroutines are gone. *)
Theorem stream_terminates out err s : reachable out err s →
  (∀ s', stream_step s s' → (stream_work s' < stream_work s)%nat) ∧
  ((∀ s', ¬ stream_step s s') → (∀ s', ¬ outside_step s s') →
     s_finished s = true ∧ s_wait s = Reported ∧ sc_pc (s_out s) = Ended ∧ sc_pc (s_err s) = Ended ∧
     length (s_done s) = 1%nat ∧ (s_expired s = false → sc_got (s_out s) = lines_of out ∧ sc_got (s_err s) = lines_of err)).
Proof.
  intros Hr. pose proof (reachable_stream out err s Hr) as [I1 I2 I3 I4]. split.
  - intros s' Hs. unfold stream_work.
    destruct Hs as [o Ho|e He|ok Hx|Hw Ho He|ok Hw Hx|Hw Hf|r rest Hf Hr'|Hf Hc]; cbn [s_out s_err s_exit s_wait s_finished finish mk].
    + pose proof (scan_step_work _ _ _ _ (sc_nonempty _ _ _ _ I1) Ho). lia.
    + pose proof (scan_step_work _ _ _ _ (sc_nonempty _ _ _ _ I2) He). lia.
    + rewrite Hx. lia.
    + rewrite Hw. lia.
    + rewrite Hw. lia.
    + rewrite Hw. lia.
    + rewrite Hf. lia.
    + rewrite Hf. lia.
  - intros Hst Hout.
    assert (∀ x, (∀ x', ¬ scan_step (s_ctx s) (s_finished s) x x') → receive x = None → sc_pc x = Ended ∧ sc_chan x = []) as Hsc.
    { intros x Hx Hc. unfold receive in Hc. destruct (sc_chan x) as [|? ?] eqn:Ec; [|done]. split; [|done].
      destruct (sc_pc x) as [|l|] eqn:Ep; [..|done]; exfalso.
      - destruct (sc_rest x) as [|l t] eqn:Er; [by eapply Hx, scan_eof|by eapply Hx, scan_read].
      - eapply Hx, scan_send; [done|]. rewrite Ec. cbn. unfold capacity. lia. }
    assert (receive (s_out s) = None) as R1.
    { destruct (receive (s_out s)) as [o|] eqn:E; [|done]. by destruct (Hout _ (receive_out s o E)). }
    assert (receive (s_err s) = None) as R2.
    { destruct (receive (s_err s)) as [o|] eqn:E; [|done]. by destruct (Hout _ (receive_err s o E)). }
    destruct (Hsc (s_out s)) as [P1 C1]; [intros x Hx; by eapply Hst, step_out|done|].
    destruct (Hsc (s_err s)) as [P2 C2]; [intros x Hx; by eapply Hst, step_err|done|].
    assert (∃ r, s_exit s = Some r) as [ok Hx] by (destruct (s_exit s) as [r|] eqn:E; [by exists r|by destruct (Hst _ (step_exit s NoExit E))]).
    assert (s_wait s = Reported) as Ew.
    { destruct (s_wait s) eqn:E; [by destruct (Hst _ (step_readers s E P1 P2))|by destruct (Hst _ (step_wait s ok E Hx))|done]. }
    assert (s_finished s = true) as Ef.
    { destruct (s_finished s) eqn:E; [done|]. rewrite Ew in I4. destruct I4 as (_ & _ & H4). destruct (H4 eq_refl) as (r & Hres & _).
      by destruct (Hst _ (step_result s _ _ E Hres)). }
    destruct (stream_outcome out err s Hr) as [(? & _)|[(_ & D & _ & _ & Hc)|(_ & D & _ & _ & He)]]; [congruence|..];
      rewrite D; (split_and!; [done..|]); [|congruence].
    intros Hexp. destruct (Hc Hexp) as [E1 E2]. unfold passed in *. rewrite C1, app_nil_r in E1. by rewrite C2, app_nil_r in E2.
Qed.

(** ** Commands by another name *)

Definition Output := runInContext.
Definition Cmd_Run (srv : server) (w : wait) (c : Cmd) : option cmd_error * Cmd :=
  let '(r, c') := runInContext srv w c in (match r with Ok _ => None | Err e => Some e end, c').
Definition Cmd_Start := Cmd_Run.

Inductive script_error := ReadScript | ScriptError (e : cmd_error).

(** [file] is a reader over the content of the local file, if it can be read. *)
Definition ScriptFile (srv : server) (usable : bool) (p : pty) (file : option nat) (opts : list (option CmdOption)) :
    result script_error Cmd * list request :=
  match file with
  | None => (Err ReadScript, [])
  | Some r => match Script srv usable p r opts with
              | (Ok c, l) => (Ok c, l)
              | (Err e, l) => (Err (ScriptError e), l)
              end
  end.

(** ** Transfers

    [usable] says that the client is open and connected, as for commands.  The
    copy itself is the file's [ReadFrom] or [WriteTo] of the libraries: what it
    wrote and whether it succeeded. *)

Inductive transfer_error := TransferClosed | SftpError (e : sftp_error) | LocalFile | RemoteFile | CopyFailed | SyncFailed.

Definition guarded {A} (usable : bool) (r : result sftp_error A) : result transfer_error A :=
  if usable then match r with Ok a => Ok a | Err e => Err (SftpError e) end else Err TransferClosed.

Definition NewSftp (usable : bool) (maxPacketSize : Z) : result transfer_error Z := guarded usable (NewClient true maxPacketSize).
Definition Client_UploadParallel (usable : bool) (a : access) (workers chunkSize totalSize : Z) : result transfer_error dispatch :=
  guarded usable (UploadParallel a workers chunkSize totalSize).
Definition Client_DownloadParallel (usable : bool) (a : access) (workers chunkSize totalSize : Z) : result transfer_error dispatch :=
  guarded usable (DownloadParallel a workers chunkSize totalSize).
Definition Client_WriteFile (usable session start_ok copy_ok : bool) (size : Z) (content remoteFilePath : bytes) :
    result transfer_error (bytes * bytes) :=
  guarded usable (WriteFile true session start_ok copy_ok size content remoteFilePath).

Section transfers.
Context (copy : bytes → bytes * bool).

(** The result, and the new content of the destination if it was created. *)
Definition Upload (usable : bool) (sftp : result sftp_error unit) (localFile : option bytes) (create : bool) :
    result transfer_error unit * option bytes :=
  match guarded usable sftp with
  | Err e => (Err e, None)
  | Ok _ =>
      match localFile with
      | None => (Err LocalFile, None)
      | Some content =>
          if negb create then (Err RemoteFile, None)
          else let '(w, ok) := copy content in (if ok then Ok () else Err CopyFailed, Some w)
      end
  end.

(** The local file is created before the remote one is opened. *)
Definition Download (usable : bool) (sftp : result sftp_error unit) (create : bool) (remoteFile : option bytes) (sync : bool) :
    result transfer_error unit * option bytes :=
  match guarded usable sftp with
  | Err e => (Err e, None)
  | Ok _ =>
      if negb create then (Err LocalFile, None)
      else match remoteFile with
           | None => (Err RemoteFile, Some [])
           | Some content =>
               let '(w, ok) := copy content in
               (if negb ok then Err CopyFailed else if sync then Ok () else Err SyncFailed, Some w)
           end
  end.

(** The libraries' copy writes a prefix, everything when it succeeds. *)
Hypothesis copy_prefix : ∀ c, (copy c).1 `prefix_of` c.
Hypothesis copy_complete : ∀ c, (copy c).2 = true → (copy c).1 = c.

(** A transfer that succeeds has written the whole file; one that fails leaves
    the destination as it was or with a prefix.  A download of a file that does
    not exist truncates the local one. *)
Lemma upload_complete usable sftp localFile create :
  match Upload usable sftp localFile create with
  | (Ok _, new) => usable = true ∧ new = localFile ∧ is_Some localFile
  | (Err _, None) => True
  | (Err _, Some w) => ∃ content, localFile = Some content ∧ w `prefix_of` content
  end.
Proof.
  unfold Upload, guarded. destruct usable, sftp as [[]|]; try done. destruct localFile as [content|]; [|done].
  destruct create; [|done]. cbn [negb]. pose proof (copy_prefix content) as Hp. pose proof (copy_complete content) as Hc.
  destruct (copy content) as [w []]; cbn in *; [|by exists content]. rewrite Hc by done. by split_and!.
Qed.

Lemma download_complete usable sftp create remoteFile sync :
  match Download usable sftp create remoteFile sync with
  | (Ok _, new) => usable = true ∧ new = remoteFile ∧ is_Some remoteFile ∧ sync = true
  | (Err _, None) => True
  | (Err _, Some w) => remoteFile = None ∧ w = [] ∨ ∃ content, remoteFile = Some content ∧ w `prefix_of` content
  end.
Proof.
  unfold Download, guarded. destruct usable, sftp as [[]|]; try done. destruct create; [|done]. cbn [negb].
  destruct remoteFile as [content|]; [|by left]. pose proof (copy_prefix content) as Hp.
  pose proof (copy_complete content) as Hc. destruct (copy content) as [w []]; cbn in *; [|right; by exists content].
  destruct sync; [|right; by exists content]. rewrite Hc by done. by split_and!.
Qed.
End transfers.

(** ** Concrete streams *)

Module StreamSample.
Definition two_lines : bytes := str "a" ++ [x0d; x0a] ++ str "b".

Lemma stream_result_witness : sc_got (s_out (runStreamWorkers two_lines [])) `prefix_of` lines_of two_lines ∧
  s_cmdErr (runStreamWorkers two_lines []) = [].
Proof.
  destruct (stream_result two_lines [] _ (reach_start two_lines [])) as [(o & e & _ & Ho & Hg & _) [(_ & _ & H & _)|[(H & _)|(H & _)]]];
    [|discriminate H|discriminate H]. destruct (Ho eq_refl) as [<- <-]. split; [exact Hg|exact H].
Defined.

Definition many : bytes := replicate 101 x0a.

Lemma unread_stream_stalls_witness : (capacity < length (lines_of many))%nat ∧ s_done (runStreamWorkers many []) = [].
Proof.
  split; [by apply Nat.ltb_lt|].
  destruct (unread_stream_stalls many [] _ (reach_start many [])) as [H|H]; [done|by apply Nat.ltb_lt|exact H|discriminate H].
Defined.

Definition started : stream := runStreamWorkers two_lines [].
(** The command exits. *)
Definition exited : stream :=
  mk (s_out started) (s_err started) (s_ctx started) (s_expired started) (Some (Exited true)) (s_wait started) (s_res started)
    (s_finished started) (s_cmdErr started) (s_done started) (s_requests started).

Lemma stream_terminates_witness : stream_step started exited ∧ (stream_work exited < stream_work started)%nat.
Proof.
  split; [by apply (step_exit started (Exited true))|].
  apply (proj1 (stream_terminates two_lines [] started (reach_start two_lines []))). by apply (step_exit started (Exited true)).
Defined.
End StreamSample.
