(* ===== verification/SshCA.v ===== *)
(** * The SSH certificate authority (src/ssh/ca)

    Options, serial numbers, the certificates issued for users and hosts, and the
    user certificates issued against OIDC tokens.  The certificate format, its
    signature and the parsing of keys are golang.org/x/crypto/ssh's: the class
    [CertCrypto], with the laws of [SignCert] in [CertLaws]. *)

From Stdlib Require Import Floats.SpecFloat.
From S2P Require Import Prelude GoLib GoText GoFloat GoJson GoFile SshKnownHosts.

#[local] Open Scope Z_scope.

(** [IssuerMismatch] wraps [ErrInvalidOIDCToken]; the last three stand for the
    errors of other packages. *)
Inductive ca_error :=
| ErrInvalidCAKey
| ErrInvalidPublicKey
| ErrCertExpired
| ErrInvalidOIDCToken
| IssuerMismatch
| ErrMissingOIDCClaim (claim : bytes)
| KeyFileUnreadable
| GenerateFailed
| SignFailed.

(** ** Options (options.go) *)

Record IssueConfig := {
  TTL : Z;
  Principals : list bytes;
  Extensions : gmap bytes bytes;
  CriticalOptions : gmap bytes bytes;
  cfg_KeyID : bytes;
  cfg_Serial : Z
}.

(** An option may be nil. *)
Definition IssueOption : Type := IssueConfig → IssueConfig.

Definition DefaultIssueConfig : IssueConfig :=
  {| TTL := 8 * Hour; Principals := [];
     Extensions := list_to_map [(str "permit-agent-forwarding", []); (str "permit-pty", []); (str "permit-user-rc", []);
                                (str "permit-X11-forwarding", [])];
     CriticalOptions := ∅; cfg_KeyID := []; cfg_Serial := 0 |}.

Definition set_ttl (d : Z) (c : IssueConfig) : IssueConfig :=
  {| TTL := d; Principals := Principals c; Extensions := Extensions c; CriticalOptions := CriticalOptions c; cfg_KeyID := cfg_KeyID c;
     cfg_Serial := cfg_Serial c |}.
Definition set_principals (l : list bytes) (c : IssueConfig) : IssueConfig :=
  {| TTL := TTL c; Principals := l; Extensions := Extensions c; CriticalOptions := CriticalOptions c; cfg_KeyID := cfg_KeyID c;
     cfg_Serial := cfg_Serial c |}.
Definition set_extensions (m : gmap bytes bytes) (c : IssueConfig) : IssueConfig :=
  {| TTL := TTL c; Principals := Principals c; Extensions := m; CriticalOptions := CriticalOptions c; cfg_KeyID := cfg_KeyID c;
     cfg_Serial := cfg_Serial c |}.

Definition WithTTL (d : Z) : IssueOption := λ c, if 0 <? d then set_ttl d c else c.
Definition WithPrincipals (l : list bytes) : IssueOption := λ c, set_principals (Principals c ++ l) c.
(** [maps.Copy]: the given entries replace the old ones. *)
Definition WithExtensions (m : gmap bytes bytes) : IssueOption := λ c, set_extensions (m ∪ Extensions c) c.
Definition WithCriticalOptions (m : gmap bytes bytes) : IssueOption := λ c,
  {| TTL := TTL c; Principals := Principals c; Extensions := Extensions c; CriticalOptions := m ∪ CriticalOptions c;
     cfg_KeyID := cfg_KeyID c; cfg_Serial := cfg_Serial c |}.
Definition WithKeyID (id : bytes) : IssueOption := λ c,
  {| TTL := TTL c; Principals := Principals c; Extensions := Extensions c; CriticalOptions := CriticalOptions c;
     cfg_KeyID := id; cfg_Serial := cfg_Serial c |}.
Definition WithSerial (n : Z) : IssueOption := λ c,
  {| TTL := TTL c; Principals := Principals c; Extensions := Extensions c; CriticalOptions := CriticalOptions c;
     cfg_KeyID := cfg_KeyID c; cfg_Serial := n |}.

Definition apply_options (opts : list (option IssueOption)) (c : IssueConfig) : IssueConfig :=
  foldl (λ c o, match o with Some f => f c | None => c end) c opts.

(** ** Certificates *)

Inductive cert_type := UserCert | HostCert.

(** golang.org/x/crypto/ssh. *)
Class CertCrypto := {
  PublicKey : Type;
  Signer : Type;
  signer_PublicKey : Signer → PublicKey;
  MarshalAuthorizedKey : PublicKey → bytes;
  ParsePrivateKey : bytes → option Signer;
  ParsePrivateKeyWithPassphrase : bytes → bytes → option Signer;
  ed25519_GenerateKey : bytes → option bytes;
  MarshalPrivateKey : bytes → option bytes;
  Signature : Type
}.

Section ca.
Context `{CertCrypto, FloatConversion}.

(** The part of a certificate that is signed, without the nonce. *)
Record certificate := {
  cert_Key : PublicKey;
  Serial : Z;
  CertType : cert_type;
  KeyId : bytes;
  ValidPrincipals : list bytes;
  ValidAfter : Z;
  ValidBefore : Z;
  cert_CriticalOptions : gmap bytes bytes;
  cert_Extensions : gmap bytes bytes;
  SignatureKey : option PublicKey;
  cert_Signature : option Signature
}.

Record CA := { ca_Signer : Signer; serial : Z }.
End ca.

(** [cert.SignCert], from a source of random bytes, and the check of a
    certificate's signature against its [SignatureKey]. *)
Class CertSigner `{CertCrypto} := {
  SignCert : bytes → Signer → certificate → option certificate;
  signature_valid : certificate → bool
}.

Definition unsigned `{CertCrypto} (c : certificate) :=
  (cert_Key c, Serial c, CertType c, KeyId c, ValidPrincipals c, ValidAfter c, ValidBefore c, cert_CriticalOptions c, cert_Extensions c).

Class CertLaws `{CertSigner} : Prop := {
  SignCert_signs rnd s c c' : SignCert rnd s c = Some c' →
    unsigned c' = unsigned c ∧ SignatureKey c' = Some (signer_PublicKey s) ∧ signature_valid c' = true
}.

Section authority.
Context `{FC : FloatConversion} `{CC : CertCrypto} {CS : CertSigner}.

Notation file := SshKnownHosts.file.

(** The clock, in nanoseconds since the Unix epoch, and random bytes. *)
Record environment := { unix_nano : Z; env_rnd : bytes }.

Definition unix (env : environment) : Z := unix_nano env / Second.
Definition u64 (z : Z) : Z := z mod 2 ^ 64.

Definition NewCA (env : environment) (signer : Signer) : CA := {| ca_Signer := signer; serial := u64 (unix_nano env) |}.

Definition NewCAFromPEM (env : environment) (keyPEM passphrase : bytes) : result ca_error CA :=
  match ParseKey Signer ParsePrivateKey ParsePrivateKeyWithPassphrase keyPEM passphrase with
  | Ok signer => Ok (NewCA env signer)
  | Err _ => Err ErrInvalidCAKey
  end.

Definition NewCAFromFile (env : environment) (files : gmap bytes file) (path passphrase : bytes) : result ca_error CA :=
  match files !! path with
  | None => Err KeyFileUnreadable
  | Some f => NewCAFromPEM env (f_content f) passphrase
  end.

Definition GenerateCA (env : environment) : result ca_error (CA * bytes) :=
  match ed25519_GenerateKey (env_rnd env) with
  | None => Err GenerateFailed
  | Some pk =>
      match MarshalPrivateKey pk with
      | None => Err GenerateFailed
      | Some pemBytes =>
          match ParsePrivateKey pemBytes with
          | None => Err ErrInvalidCAKey
          | Some signer => Ok (NewCA env signer, pemBytes)
          end
      end
  end.

Definition CA_PublicKey (c : CA) : PublicKey := signer_PublicKey (ca_Signer c).
Definition AuthorizedKey (c : CA) : bytes := MarshalAuthorizedKey (CA_PublicKey c).

(** [c.serial.Add(1)] *)
Definition next_serial (c : CA) : CA := {| ca_Signer := ca_Signer c; serial := u64 (serial c + 1) |}.

(** The serial number of a certificate: the one of the options, or the next. *)
Definition take_serial (cfg : IssueConfig) (c : CA) : Z * CA :=
  if cfg_Serial cfg =? 0 then let c' := next_serial c in (serial c', c') else (cfg_Serial cfg, c).

Definition key_id (prefix : bytes) (cfg : IssueConfig) (name : bytes) (now : Z) : bytes :=
  if bytes_eqb (cfg_KeyID cfg) [] then prefix ++ name ++ str "-" ++ digits now else cfg_KeyID cfg.

Definition sign (env : environment) (c : CA) (cert : certificate) : result ca_error certificate :=
  match SignCert (env_rnd env) (ca_Signer c) cert with Some cert' => Ok cert' | None => Err SignFailed end.

Definition user_config (username : bytes) (opts : list (option IssueOption)) : IssueConfig :=
  let cfg := DefaultIssueConfig in
  let cfg := if bytes_eqb username [] then cfg else set_principals [username] cfg in
  apply_options opts cfg.

Definition IssueUserCert (env : environment) (c : CA) (userKey : option PublicKey) (username : bytes) (opts : list (option IssueOption)) :
    result ca_error certificate * CA :=
  match userKey with
  | None => (Err ErrInvalidPublicKey, c)
  | Some key =>
      let cfg := user_config username opts in
      let now := u64 (unix env) in
      let '(n, c') := take_serial cfg c in
      let cert :=
        {| cert_Key := key; Serial := n; CertType := UserCert; KeyId := key_id (str "aoni-user-cert-") cfg username now;
           ValidPrincipals := Principals cfg; ValidAfter := u64 (now - 60);
           ValidBefore := u64 (now + to_uint64 (Seconds (TTL cfg)));
           cert_CriticalOptions := CriticalOptions cfg; cert_Extensions := Extensions cfg;
           SignatureKey := None; cert_Signature := None |} in
      (sign env c cert, c')
  end.

Definition host_config (hostname : bytes) (opts : list (option IssueOption)) : IssueConfig :=
  let cfg := set_extensions ∅ (set_ttl (365 * 24 * Hour) DefaultIssueConfig) in
  let cfg := if bytes_eqb hostname [] then cfg else set_principals [hostname] cfg in
  apply_options opts cfg.

Definition IssueHostCert (env : environment) (c : CA) (hostKey : option PublicKey) (hostname : bytes) (opts : list (option IssueOption)) :
    result ca_error certificate * CA :=
  match hostKey with
  | None => (Err ErrInvalidPublicKey, c)
  | Some key =>
      let cfg := host_config hostname opts in
      let now := u64 (unix env) in
      let '(n, c') := take_serial cfg c in
      let cert :=
        {| cert_Key := key; Serial := n; CertType := HostCert; KeyId := key_id (str "aoni-host-cert-") cfg hostname now;
           ValidPrincipals := Principals cfg; ValidAfter := u64 (now - 60);
           ValidBefore := u64 (now + to_uint64 (Seconds (TTL cfg)));
           cert_CriticalOptions := ∅; cert_Extensions := ∅; SignatureKey := None; cert_Signature := None |} in
      (sign env c cert, c')
  end.

(** The file is written only when the directory can be made. *)
Definition SaveCAKeys (can_mkdir can_write : bool) (now : Z) (c : CA) (dir : bytes) (files : gmap bytes file) : bool * gmap bytes file :=
  if negb can_mkdir then (false, files)
  else if negb can_write then (false, files)
  else (true, <[filepath_Join [dir; str "ca_key.pub"] := {| f_mtime := now; f_content := AuthorizedKey c |}]> files).

(** ** OIDC tokens (oidc.go) *)

Record OIDCConfig := { Issuer : bytes; ClientID : bytes; ClaimName : bytes }.

Definition Claims : Type := list (bytes * json).

(** A member of the claims, by its exact name; the last one counts. *)
Definition claim (m : Claims) (name : bytes) : option json := snd <$> List.find (λ kv, bytes_eqb kv.1 name) (rev m).

(** [Unmarshal] into a map converts every number to a float64. *)
Fixpoint numbers_fit (v : json) : bool :=
  match v with
  | JNum n => bool_decide (is_Some (ParseFloat n))
  | JArr l => forallb numbers_fit l
  | JObj m => forallb (λ kv, numbers_fit kv.2) m
  | _ => true
  end.

Definition read_claims (payload : bytes) : option Claims :=
  match parse_json payload with
  | Some v => if numbers_fit v then members v else None
  | None => None
  end.

Definition pad_base64 (s : bytes) : bytes :=
  let l := (length s mod 4)%nat in if (0 <? l)%nat then s ++ replicate (4 - l) "="%byte else s.

Definition parseUnverifiedJWT (tokenStr : bytes) : result ca_error Claims :=
  match Split tokenStr "." with
  | [_; payloadSegment; _] =>
      match DecodeString URLEncoding (pad_base64 payloadSegment) with
      | None => Err ErrInvalidOIDCToken
      | Some payloadBytes => match read_claims payloadBytes with Some claims => Ok claims | None => Err ErrInvalidOIDCToken end
      end
  | _ => Err ErrInvalidOIDCToken
  end.

Definition float_claim (m : Claims) (name : bytes) : option float64 :=
  match claim m name with Some (JNum n) => ParseFloat n | _ => None end.
Definition string_claim (m : Claims) (name : bytes) : option bytes :=
  match claim m name with Some (JStr s) => Some s | _ => None end.

Definition validateOIDCClaims (now : Z) (claims : Claims) (cfg : OIDCConfig) : option ca_error :=
  if match float_claim claims (str "exp") with Some expVal => to_int64 expVal <? now | None => false end then Some ErrCertExpired
  else if negb (bytes_eqb (Issuer cfg) []) then
    match string_claim claims (str "iss") with
    | Some issVal => if HasPrefix issVal (Issuer cfg) then None else Some IssuerMismatch
    | None => Some IssuerMismatch
    end
  else None.

(** Without an email the subject is taken. *)
Definition subject_claim (claims : Claims) (targetClaim : bytes) : result ca_error bytes :=
  if bytes_eqb targetClaim (str "email") then
    match string_claim claims (str "sub") with
    | Some (c :: s) => Ok (c :: s)
    | _ => Err (ErrMissingOIDCClaim targetClaim)
    end
  else Err (ErrMissingOIDCClaim targetClaim).

Definition extractUserClaim (claims : Claims) (claimName : bytes) : result ca_error bytes :=
  let targetClaim := if bytes_eqb claimName [] then str "email" else claimName in
  match string_claim claims targetClaim with
  | Some (c :: s) => Ok (c :: s)
  | _ => subject_claim claims targetClaim
  end.

(** [now]: the clock when the claims are checked. *)
Definition IssueFromOIDCToken (now : Z) (env : environment) (c : CA) (rawIDToken : bytes) (userKey : option PublicKey)
    (oidcCfg : OIDCConfig) (opts : list (option IssueOption)) : result ca_error (certificate * bytes) * CA :=
  if bytes_eqb rawIDToken [] then (Err ErrInvalidOIDCToken, c)
  else match parseUnverifiedJWT rawIDToken with
       | Err _ => (Err ErrInvalidOIDCToken, c)
       | Ok claims =>
           match validateOIDCClaims now claims oidcCfg with
           | Some e => (Err e, c)
           | None =>
               match extractUserClaim claims (ClaimName oidcCfg) with
               | Err e => (Err e, c)
               | Ok username =>
                   match IssueUserCert env c userKey username opts with
                   | (Ok cert, c') => (Ok (cert, username), c')
                   | (Err e, c') => (Err e, c')
                   end
               end
           end
       end.

(** ** What the options do *)

(** The options of the package. *)
Inductive package_option : IssueOption → Prop :=
| package_ttl d : 0 <= d < 2 ^ 63 → package_option (WithTTL d)
| package_principals l : package_option (WithPrincipals l)
| package_extensions m : package_option (WithExtensions m)
| package_critical m : package_option (WithCriticalOptions m)
| package_key_id id : package_option (WithKeyID id)
| package_serial n : 0 <= n < 2 ^ 64 → package_option (WithSerial n).

Definition package_options (opts : list (option IssueOption)) : Prop :=
  Forall (λ o, match o with Some f => package_option f | None => True end) opts.

(** A relation the options of the package respect holds along a list of them. *)
Lemma options_ind (R : IssueConfig → IssueConfig → Prop) opts :
  (∀ c, R c c) → (∀ c c' c'', R c c' → R c' c'' → R c c'') → (∀ f c, package_option f → R c (f c)) →
  package_options opts → ∀ c, R c (apply_options opts c).
Proof.
  intros Hr Ht Hf Ho. induction Ho as [|o opts Ho _ IH]; intros c; [apply Hr|]. unfold apply_options. cbn [foldl].
  eapply Ht; [|apply IH]. destruct o; [by apply Hf|apply Hr].
Qed.

(** Principals are only added, extensions only added or replaced, and the time to
    live stays positive. *)
Lemma package_options_keep opts c : package_options opts → 0 < TTL c < 2 ^ 63 →
  (∃ l, Principals (apply_options opts c) = Principals c ++ l) ∧
  dom (Extensions c) ⊆ dom (Extensions (apply_options opts c)) ∧
  0 < TTL (apply_options opts c) < 2 ^ 63.
Proof.
  intros Ho. revert c.
  apply (options_ind (λ c c', 0 < TTL c < 2 ^ 63 → (∃ l, Principals c' = Principals c ++ l) ∧
    dom (Extensions c) ⊆ dom (Extensions c') ∧ 0 < TTL c' < 2 ^ 63)); [| | |done].
  - intros c Hc. split; [exists []; by rewrite app_nil_r|done].
  - intros c c' c'' G1 G2 Hc. destruct (G1 Hc) as ([l1 E1] & D1 & T1). destruct (G2 T1) as ([l2 E2] & D2 & T2).
    split; [exists (l1 ++ l2); by rewrite E2, E1, app_assoc|]. split; [set_solver|done].
  - intros f c Hf Hc. destruct Hf; cbn; try (split; [exists []; by rewrite app_nil_r|done]).
    + unfold WithTTL. destruct (0 <? d) eqn:E; bools; cbn; (split; [exists []; by rewrite app_nil_r|]); (split; [done|lia]).
    + split; [by exists l|done].
    + split; [exists []; by rewrite app_nil_r|]. split; [|done]. rewrite dom_union_L. set_solver.
Qed.

(** ** Certificates of users *)

(** What is signed: the fields of the certificate a request asks for. *)
Lemma IssueUserCert_ok `{!CertLaws} env c userKey username opts cert c' :
  IssueUserCert env c userKey username opts = (Ok cert, c') →
  let cfg := user_config username opts in
  let now := u64 (unix env) in
  userKey = Some (cert_Key cert) ∧ CertType cert = UserCert ∧ (Serial cert, c') = take_serial cfg c ∧
  ValidPrincipals cert = Principals cfg ∧ ValidAfter cert = u64 (now - 60) ∧
  ValidBefore cert = u64 (now + to_uint64 (Seconds (TTL cfg))) ∧
  cert_CriticalOptions cert = CriticalOptions cfg ∧ cert_Extensions cert = Extensions cfg ∧
  SignatureKey cert = Some (CA_PublicKey c) ∧ signature_valid cert = true.
Proof.
  unfold IssueUserCert. destruct userKey as [key|]; [|done]. cbv zeta. destruct (take_serial _ c) as [n c1] eqn:En.
  unfold sign. destruct (SignCert _ _ _) as [cert'|] eqn:Es; [|done]. intros [= <- <-].
  destruct (SignCert_signs _ _ _ _ Es) as (Hu & Hk & Hv). unfold unsigned in Hu. cbn in Hu. injection Hu as U1 U2 U3 U4 U5 U6 U7 U8 U9.
  rewrite U1, U2, U3, U5, U6, U7, U8, U9. by split_and!.
Qed.

Lemma IssueHostCert_ok `{!CertLaws} env c hostKey hostname opts cert c' :
  IssueHostCert env c hostKey hostname opts = (Ok cert, c') →
  let cfg := host_config hostname opts in
  let now := u64 (unix env) in
  hostKey = Some (cert_Key cert) ∧ CertType cert = HostCert ∧ (Serial cert, c') = take_serial cfg c ∧
  ValidPrincipals cert = Principals cfg ∧ ValidAfter cert = u64 (now - 60) ∧
  ValidBefore cert = u64 (now + to_uint64 (Seconds (TTL cfg))) ∧
  cert_CriticalOptions cert = ∅ ∧ cert_Extensions cert = ∅ ∧
  SignatureKey cert = Some (CA_PublicKey c) ∧ signature_valid cert = true.
Proof.
  unfold IssueHostCert. destruct hostKey as [key|]; [|done]. cbv zeta. destruct (take_serial _ c) as [n c1] eqn:En.
  unfold sign. destruct (SignCert _ _ _) as [cert'|] eqn:Es; [|done]. intros [= <- <-].
  destruct (SignCert_signs _ _ _ _ Es) as (Hu & Hk & Hv). unfold unsigned in Hu. cbn in Hu. injection Hu as U1 U2 U3 U4 U5 U6 U7 U8 U9.
  rewrite U1, U2, U3, U5, U6, U7, U8, U9. by split_and!.
Qed.

(** The clock of the theorems: after the first minute of 1970 and far from the
    end of a 64-bit word. *)
Definition sane_clock (env : environment) : Prop := 60 <= unix env < 2 ^ 62.

(** A time to live in whole seconds. *)
Definition whole_seconds (d : Z) : Prop := ∃ k, d = k * Second ∧ 0 < k < 2 ^ 53.

(** The window of a certificate: a minute back, and ahead the whole seconds of the
    time to live, to which the conversion through a float may add one. *)
Lemma validity_window env d : sane_clock env → u64 (u64 (unix env) - 60) = unix env - 60 ∧
  (0 <= d < 2 ^ 63 → ∃ k, u64 (u64 (unix env) + to_uint64 (Seconds d)) = unix env + k ∧ d / Second <= k <= d / Second + 1) ∧
  (whole_seconds d → u64 (u64 (unix env) + to_uint64 (Seconds d)) = unix env + d / Second).
Proof.
  intros Hc. unfold sane_clock in Hc. unfold u64. rewrite (Z.mod_small (unix env)), (Z.mod_small (unix env - 60)) by lia. split_and!; [done|..].
  - intros Hd. destruct (Seconds_between d Hd) as (z & Hz & Hb). exists z. split; [|done].
    assert (0 <= d / Second <= 2 ^ 63 / Second) as Hq by (split; [apply Z.div_pos|apply Z.div_le_mono]; unfold Second; lia).
    change (2 ^ 63 / Second) with 9223372036 in Hq. unfold to_uint64. rewrite Hz. cbn [in_range].
    rewrite (proj2 (Z.leb_le _ _)), (proj2 (Z.ltb_lt _ _)) by lia. cbn [andb default]. apply Z.mod_small. cbn. lia.
  - intros (k & -> & Hk). rewrite Seconds_whole, to_uint64_of_Z by lia. rewrite Z.div_mul by done. apply Z.mod_small. lia.
Qed.

(** ** Serial numbers *)

(** A request to a certificate authority. *)
Inductive request :=
| UserRequest (env : environment) (key : option PublicKey) (name : bytes) (opts : list (option IssueOption))
| HostRequest (env : environment) (key : option PublicKey) (name : bytes) (opts : list (option IssueOption))
| TokenRequest (now : Z) (env : environment) (token : bytes) (key : option PublicKey) (cfg : OIDCConfig) (opts : list (option IssueOption)).

Definition req_options (r : request) : list (option IssueOption) :=
  match r with UserRequest _ _ _ opts | HostRequest _ _ _ opts | TokenRequest _ _ _ _ _ opts => opts end.

Definition issue (c : CA) (r : request) : result ca_error certificate * CA :=
  match r with
  | UserRequest env key name opts => IssueUserCert env c key name opts
  | HostRequest env key name opts => IssueHostCert env c key name opts
  | TokenRequest now env token key cfg opts =>
      match IssueFromOIDCToken now env c token key cfg opts with
      | (Ok (cert, _), c') => (Ok cert, c')
      | (Err e, c') => (Err e, c')
      end
  end.

(** The serial numbers of the certificates issued in a series of requests, in the
    order in which they took their numbers. *)
Fixpoint serials (c : CA) (reqs : list request) : list Z :=
  match reqs with
  | [] => []
  | r :: reqs' =>
      match issue c r with
      | (Ok cert, c') => Serial cert :: serials c' reqs'
      | (Err _, c') => serials c' reqs'
      end
  end.

(** The options choose no serial number. *)
Definition automatic (opts : list (option IssueOption)) : Prop := ∀ c, cfg_Serial c = 0 → cfg_Serial (apply_options opts c) = 0.

Lemma user_automatic name opts : automatic opts → cfg_Serial (user_config name opts) = 0.
Proof. intros Ha. unfold user_config. apply Ha. by destruct (bytes_eqb name []). Qed.

Lemma host_automatic name opts : automatic opts → cfg_Serial (host_config name opts) = 0.
Proof. intros Ha. unfold host_config. apply Ha. by destruct (bytes_eqb name []). Qed.

(** A request takes at most one number, and an issued certificate has it. *)
Definition takes_serial (c : CA) (res : result ca_error certificate) (c' : CA) : Prop :=
  (c' = c ∧ ∃ e, res = Err e) ∨ (c' = next_serial c ∧ ∀ cert, res = Ok cert → Serial cert = serial c').

Lemma refused c e : takes_serial c (Err e) c.
Proof. left. eauto. Qed.
#[local] Hint Resolve refused : core.

Lemma take_automatic cfg c : cfg_Serial cfg = 0 → take_serial cfg c = (serial (next_serial c), next_serial c).
Proof. unfold take_serial. by intros ->. Qed.

Lemma user_serial `{!CertLaws} env c key name opts res c' : automatic opts →
  IssueUserCert env c key name opts = (res, c') → takes_serial c res c'.
Proof.
  intros Ha%(user_automatic name) Hi. destruct res as [cert|e].
  - right. destruct (IssueUserCert_ok _ _ _ _ _ _ _ Hi) as (_ & _ & Ht & _).
    rewrite take_automatic in Ht by done. injection Ht as E1 ->. split; [done|]. by intros ? [= <-].
  - unfold IssueUserCert in Hi. destruct key as [key|]; [|by injection Hi as <- <-]. cbv zeta in Hi.
    rewrite take_automatic in Hi by done. injection Hi as _ <-. by right.
Qed.

Lemma host_serial `{!CertLaws} env c key name opts res c' : automatic opts →
  IssueHostCert env c key name opts = (res, c') → takes_serial c res c'.
Proof.
  intros Ha%(host_automatic name) Hi. destruct res as [cert|e].
  - right. destruct (IssueHostCert_ok _ _ _ _ _ _ _ Hi) as (_ & _ & Ht & _).
    rewrite take_automatic in Ht by done. injection Ht as E1 ->. split; [done|]. by intros ? [= <-].
  - unfold IssueHostCert in Hi. destruct key as [key|]; [|by injection Hi as <- <-]. cbv zeta in Hi.
    rewrite take_automatic in Hi by done. injection Hi as _ <-. by right.
Qed.

Lemma issue_serial `{!CertLaws} c r res c' : automatic (req_options r) → issue c r = (res, c') → takes_serial c res c'.
Proof.
  intros Ha. destruct r as [env key name opts|env key name opts|now env token key cfg opts]; cbn [issue req_options] in *;
    [by apply user_serial|by apply host_serial|].
  unfold IssueFromOIDCToken. destruct (bytes_eqb token []); [by intros [= <- <-]|].
  destruct (parseUnverifiedJWT token) as [claims|e]; [|by intros [= <- <-]].
  destruct (validateOIDCClaims now claims cfg) as [e|]; [by intros [= <- <-]|].
  destruct (extractUserClaim claims (ClaimName cfg)) as [u|e]; [|by intros [= <- <-]].
  destruct (IssueUserCert env c key u opts) as [[cert|e] c1] eqn:Ei; intros [= <- <-]; by apply (user_serial _ _ _ _ _ _ _ Ha Ei).
Qed.

(** The numbers taken by a series of requests are among those that follow. *)
Lemma serials_range `{!CertLaws} c reqs : Forall (λ r, automatic (req_options r)) reqs → 0 <= serial c →
  serial c + Z.of_nat (length reqs) < 2 ^ 64 →
  Forall (λ n, serial c < n <= serial c + Z.of_nat (length reqs)) (serials c reqs) ∧ NoDup (serials c reqs).
Proof.
  intros Ha. revert c. induction Ha as [|r reqs Hr _ IH]; intros c H0 Hl; cbn [serials]; [split; constructor|].
  cbn [length] in Hl. destruct (issue c r) as [res c'] eqn:Ei.
  destruct (issue_serial c r res c' Hr Ei) as [(-> & e & ->)|(-> & Hc)].
  - destruct (IH c) as [F N]; [lia..|]. split; [|done]. eapply Forall_impl; [exact F|]. cbn. intros; lia.
  - assert (serial (next_serial c) = serial c + 1) as Es by (cbn; unfold u64; apply Z.mod_small; lia).
    destruct (IH (next_serial c)) as [F N]; [lia..|]. rewrite Es in F.
    assert (Forall (λ n, serial c < n <= serial c + Z.of_nat (length (r :: reqs))) (serials (next_serial c) reqs)) as F'
      by (eapply Forall_impl; [exact F|]; cbn [length]; intros; lia).
    destruct res as [cert|e]; [|by split]. rewrite (Hc cert eq_refl), Es. split.
    + apply Forall_cons_2; [cbn [length]; lia|done].
    + apply NoDup_cons_2; [|done]. intros Hin. rewrite Forall_forall in F. apply F in Hin. lia.
Qed.

(** Serial numbers are unique: over the requests to an authority, and
    over those to the authority made again from the same key later, if it does
    not issue more than a certificate a nanosecond. *)
Theorem serials_unique `{!CertLaws} env1 env2 signer reqs1 reqs2 :
  Forall (λ r, automatic (req_options r)) (reqs1 ++ reqs2) →
  0 <= unix_nano env1 → unix_nano env1 + Z.of_nat (length reqs1) <= unix_nano env2 →
  unix_nano env2 + Z.of_nat (length reqs2) < 2 ^ 64 →
  NoDup (serials (NewCA env1 signer) reqs1 ++ serials (NewCA env2 signer) reqs2).
Proof.
  intros [G1 G2]%Forall_app T0 T1 T2.
  assert (∀ env, 0 <= unix_nano env < 2 ^ 64 → serial (NewCA env signer) = unix_nano env) as Es
    by (intros env He; cbn; unfold u64; by apply Z.mod_small).
  destruct (serials_range (NewCA env1 signer) reqs1 G1) as [F1 N1]; [rewrite ?Es by lia; lia..|].
  destruct (serials_range (NewCA env2 signer) reqs2 G2) as [F2 N2]; [rewrite ?Es by lia; lia..|].
  rewrite Es in F1, F2 by lia. apply NoDup_app. split; [done|]. split; [|done].
  intros n Hn1 Hn2. rewrite Forall_forall in F1, F2. apply F1 in Hn1. apply F2 in Hn2. lia.
Qed.

(** ** OIDC tokens *)

Lemma pad_base64_group a b c d s : pad_base64 (a :: b :: c :: d :: s) = a :: b :: c :: d :: pad_base64 s.
Proof.
  unfold pad_base64. cbn [length]. replace (S (S (S (S (length s))))) with (length s + 1 * 4)%nat by lia.
  rewrite Nat.Div0.mod_add. by destruct (0 <? length s mod 4)%nat.
Qed.

(** The segments of a token are written without padding. *)
Lemma pad_base64_raw s : pad_base64 (EncodeToString RawURLEncoding s) = EncodeToString URLEncoding s.
Proof.
  induction s as [|x|x y|x y z s IH] using group_ind; [done..|].
  cbn [EncodeToString]. rewrite pad_base64_group, IH. done.
Qed.

Lemma segment_no_dot s : "."%byte ∉ EncodeToString RawURLEncoding s.
Proof.
  intros Hin. pose proof (EncodeToString_bytes RawURLEncoding RawURLEncoding_ok s) as F. rewrite Forall_forall in F.
  by apply F in Hin.
Qed.

Definition token_text (head payload sig : bytes) : bytes := Join [head; payload; sig] [ "."%byte ].

Lemma parse_token head payload sig : "."%byte ∉ head → "."%byte ∉ sig →
  parseUnverifiedJWT (token_text head (EncodeToString RawURLEncoding payload) sig) =
    match read_claims payload with Some claims => Ok claims | None => Err ErrInvalidOIDCToken end.
Proof.
  intros Hh Hs. unfold parseUnverifiedJWT, token_text.
  rewrite Split_Join; [|done|repeat constructor; auto using segment_no_dot].
  rewrite pad_base64_raw, DecodeString_EncodeToString by apply URLEncoding_ok. done.
Qed.

(** What an accepted token has told, and what the certificate says. *)
Definition claims_accept (now : Z) (claims : Claims) (cfg : OIDCConfig) (user : bytes) : Prop :=
  (∀ exp, float_claim claims (str "exp") = Some exp → now <= to_int64 exp) ∧
  (Issuer cfg ≠ [] → ∃ t, string_claim claims (str "iss") = Some (Issuer cfg ++ t)) ∧
  user ≠ [] ∧
  (string_claim claims (if bytes_eqb (ClaimName cfg) [] then str "email" else ClaimName cfg) = Some user ∨
   (ClaimName cfg = [] ∨ ClaimName cfg = str "email") ∧ string_claim claims (str "sub") = Some user).

Lemma validate_accepts now claims cfg : validateOIDCClaims now claims cfg = None →
  (∀ exp, float_claim claims (str "exp") = Some exp → now <= to_int64 exp) ∧
  (Issuer cfg ≠ [] → ∃ t, string_claim claims (str "iss") = Some (Issuer cfg ++ t)).
Proof.
  unfold validateOIDCClaims. destruct (match float_claim _ _ with Some _ => _ | None => _ end) eqn:Ee; [done|]. intros Hi. split.
  - intros exp He. rewrite He in Ee. by bools.
  - intros Hne. rewrite (proj2 (bytes_eqb_false _ _) Hne) in Hi. cbn [negb] in Hi.
    destruct (string_claim claims (str "iss")) as [iss|]; [|done]. destruct (HasPrefix iss (Issuer cfg)) eqn:Hp; [|done].
    apply HasPrefix_spec in Hp as [t ->]. by exists t.
Qed.

Lemma extract_accepts claims name user : extractUserClaim claims name = Ok user → user ≠ [] ∧
  (string_claim claims (if bytes_eqb name [] then str "email" else name) = Some user ∨
   (name = [] ∨ name = str "email") ∧ string_claim claims (str "sub") = Some user).
Proof.
  assert (∀ t, (t = str "email" → name = [] ∨ name = str "email") → subject_claim claims t = Ok user →
    user ≠ [] ∧ (name = [] ∨ name = str "email") ∧ string_claim claims (str "sub") = Some user) as Hs.
  { intros t Ht. unfold subject_claim. destruct (bytes_eqb t (str "email")) eqn:Et; [|done]. bools.
    destruct (string_claim claims (str "sub")) as [[|c s]|]; [done| |done]. intros [= <-]. auto. }
  unfold extractUserClaim. set (t := if bytes_eqb name [] then str "email" else name).
  assert (t = str "email" → name = [] ∨ name = str "email") as Ht by (subst t; destruct (bytes_eqb name []) eqn:En; bools; auto).
  destruct (string_claim claims t) as [[|c s]|]; [| |]; [..|]; intros E; try (apply (Hs t Ht) in E as (? & ? & ?); by auto).
  injection E as <-. auto.
Qed.

Lemma user_config_user user opts : user ≠ [] → package_options opts →
  (∃ more, Principals (user_config user opts) = user :: more) ∧
  dom (Extensions DefaultIssueConfig) ⊆ dom (Extensions (user_config user opts)) ∧
  0 < TTL (user_config user opts) < 2 ^ 63.
Proof.
  intros Hne Ho. unfold user_config. rewrite (proj2 (bytes_eqb_false _ _) Hne). cbv zeta iota.
  destruct (package_options_keep opts (set_principals [user] DefaultIssueConfig) Ho) as ([l Hl] & D & T); [done|].
  split; [exists l; exact Hl|]. split; [exact D|exact T].
Qed.

(** C34: a certificate issued for a token is a user certificate, signed by the
    authority for the given key, with the principals and extensions that the options
    make of the configuration of the user whom the token's claims name; with the
    options of the package, the user is the first principal and no default
    extension is missing. If the claims have an expiry that is a number, it has not
    passed, and their issuer, if one is configured, begins with that one. By a sane
    clock the certificate is valid from a minute before the request; it ends after
    the whole seconds of the time to live, exactly if that is a number of whole
    seconds, and else at most one second later. *)
Theorem token_certificate `{!CertLaws} now env c token key cfg opts cert user c' :
  IssueFromOIDCToken now env c token key cfg opts = (Ok (cert, user), c') →
  let conf := user_config user opts in
  (∃ head payload sig text claims,
     token = token_text head payload sig ∧ DecodeString URLEncoding (pad_base64 payload) = Some text ∧
     read_claims text = Some claims ∧ claims_accept now claims cfg user) ∧
  key = Some (cert_Key cert) ∧ SignatureKey cert = Some (CA_PublicKey c) ∧ signature_valid cert = true ∧
  CertType cert = UserCert ∧ ValidPrincipals cert = Principals conf ∧ cert_Extensions cert = Extensions conf ∧
  (package_options opts → (∃ more, ValidPrincipals cert = user :: more) ∧
     dom (Extensions DefaultIssueConfig) ⊆ dom (cert_Extensions cert) ∧ 0 < TTL conf < 2 ^ 63) ∧
  (sane_clock env → ValidAfter cert = unix env - 60 ∧
     (0 <= TTL conf < 2 ^ 63 → ∃ s, ValidBefore cert = unix env + s ∧ TTL conf / Second <= s <= TTL conf / Second + 1) ∧
     (whole_seconds (TTL conf) → ValidBefore cert = unix env + TTL conf / Second)).
Proof.
  unfold IssueFromOIDCToken. destruct (bytes_eqb token []); [done|].
  destruct (parseUnverifiedJWT token) as [claims|e] eqn:Ep; [|done].
  destruct (validateOIDCClaims now claims cfg) as [e|] eqn:Ev; [done|].
  destruct (extractUserClaim claims (ClaimName cfg)) as [u|e] eqn:Eu; [|done].
  destruct (IssueUserCert env c key u opts) as [[cert1|e] c1] eqn:Ei; [|done]. intros [= <- <- <-].
  apply validate_accepts in Ev as [Vexp Viss]. apply extract_accepts in Eu as [Hne Hu].
  destruct (IssueUserCert_ok _ _ _ _ _ _ _ Ei) as (K & T & _ & P & A & B & _ & X & S & V). cbv zeta in *.
  split; [|split_and!; try done].
  - unfold parseUnverifiedJWT in Ep. destruct (Split token ".") as [|h [|p [|g [|]]]] eqn:Es; try done.
    destruct (DecodeString URLEncoding (pad_base64 p)) as [text|] eqn:Ed; [|done].
    destruct (read_claims text) as [cl|] eqn:Er; [|done]. injection Ep as ->.
    exists h, p, g, text, claims. split; [|done]. unfold token_text. by rewrite <- Es, Join_Split.
  - intros Ho. rewrite P, X. by apply user_config_user.
  - intros Hc. rewrite A, B. by apply validity_window.
Qed.

(** A token anyone can write: the claims of the user and of the issuer, under any
    header and signature. *)
Definition forged_claims (cfg : OIDCConfig) (user : bytes) : json :=
  JObj [(if bytes_eqb (ClaimName cfg) [] then str "email" else ClaimName cfg, JStr user); (str "iss", JStr (Issuer cfg))].

Definition forge (cfg : OIDCConfig) (user head sig : bytes) : bytes :=
  token_text head (EncodeToString RawURLEncoding (render (forged_claims cfg user))) sig.

(** The signature of a token is not checked, nor its audience: for any
    user there is a token, made without any secret, that gets a certificate for
    that user. *)
Theorem forged_token_accepted now env c cfg user head sig key opts cert c' :
  user ≠ [] → "."%byte ∉ head → "."%byte ∉ sig →
  Valid user = true → Valid (Issuer cfg) = true → Valid (ClaimName cfg) = true →
  ClaimName cfg ≠ str "exp" → ClaimName cfg ≠ str "iss" →
  IssueUserCert env c key user opts = (Ok cert, c') →
  IssueFromOIDCToken now env c (forge cfg user head sig) key cfg opts = (Ok (cert, user), c').
Proof.
  intros Hne Hh Hs Hvu Hvi Hvc Hexp Hiss Hi.
  set (name := if bytes_eqb (ClaimName cfg) [] then str "email" else ClaimName cfg).
  assert (Valid name = true ∧ name ≠ str "exp" ∧ name ≠ str "iss") as (Hvn & N1 & N2)
    by (subst name; by destruct (bytes_eqb (ClaimName cfg) [])).
  assert (read_claims (render (forged_claims cfg user)) = Some [(name, JStr user); (str "iss", JStr (Issuer cfg))]) as Er.
  { unfold read_claims. rewrite parse_json_render; [done|]. by split_and!. }
  assert (string_claim [(name, JStr user); (str "iss", JStr (Issuer cfg))] name = Some user) as Eu.
  { unfold string_claim, claim. cbn [rev app List.find fst]. rewrite (proj2 (bytes_eqb_false (str "iss") name)) by done.
    by rewrite (proj2 (bytes_eqb_true name name)) by done. }
  unfold IssueFromOIDCToken, forge. rewrite parse_token, Er by done.
  assert (bytes_eqb (token_text head (EncodeToString RawURLEncoding (render (forged_claims cfg user))) sig) [] = false) as ->.
  { apply bytes_eqb_false. unfold token_text. cbn [Join]. by destruct head. }
  assert (validateOIDCClaims now [(name, JStr user); (str "iss", JStr (Issuer cfg))] cfg = None) as ->.
  { unfold validateOIDCClaims. assert (float_claim [(name, JStr user); (str "iss", JStr (Issuer cfg))] (str "exp") = None) as ->.
    { unfold float_claim, claim. cbn [rev app List.find fst]. change (bytes_eqb (str "iss") (str "exp")) with false.
      by rewrite (proj2 (bytes_eqb_false name (str "exp"))) by done. }
    destruct (bytes_eqb (Issuer cfg) []); [done|]. cbn [negb]. change (string_claim _ (str "iss")) with (Some (Issuer cfg)).
    cbn match. rewrite (proj2 (HasPrefix_spec _ _)); [done|]. exists []. by rewrite app_nil_r. }
  unfold extractUserClaim. fold name. rewrite Eu. destruct user as [|u0 u]; [done|]. by rewrite Hi.
Qed.

(** The options of a certificate for a host lose their extensions and critical
    options. *)
Lemma host_options_lost `{!CertLaws} env c key name opts cert c' : IssueHostCert env c key name opts = (Ok cert, c') →
  cert_Extensions cert = ∅ ∧ cert_CriticalOptions cert = ∅.
Proof. intros Hi. by destruct (IssueHostCert_ok _ _ _ _ _ _ _ Hi) as (_ & _ & _ & _ & _ & _ & ? & ? & _). Qed.

(** A request without a name and without principals is granted: the certificate
    lists none. *)
Lemma nameless_certificate `{!CertLaws} env c key cert c' : IssueUserCert env c key [] [] = (Ok cert, c') → ValidPrincipals cert = [].
Proof. intros Hi. by destruct (IssueUserCert_ok _ _ _ _ _ _ _ Hi) as (_ & _ & _ & -> & _). Qed.
End authority.

Module CASample.

#[local] Instance crypto : CertCrypto :=
  {| PublicKey := bytes; Signer := bytes; signer_PublicKey k := str "pub " ++ k; MarshalAuthorizedKey k := k;
     ParsePrivateKey s := Some s; ParsePrivateKeyWithPassphrase s p := None; ed25519_GenerateKey r := Some r; MarshalPrivateKey k := Some k;
     Signature := (bytes * Z * list bytes)%type |}.

#[local] Instance conversion : FloatConversion := {| int64_undefined _ := - 2 ^ 63; uint64_undefined _ := 2 ^ 63 |}.

(** The signature names the signer, the serial number and the principals. *)
Definition signed (s : bytes) (c : certificate) : certificate :=
  {| cert_Key := cert_Key c; Serial := Serial c; CertType := CertType c; KeyId := KeyId c; ValidPrincipals := ValidPrincipals c;
     ValidAfter := ValidAfter c; ValidBefore := ValidBefore c; cert_CriticalOptions := cert_CriticalOptions c;
     cert_Extensions := cert_Extensions c; SignatureKey := Some (signer_PublicKey s);
     cert_Signature := Some (signer_PublicKey s, Serial c, ValidPrincipals c) |}.

#[local] Instance signer : CertSigner :=
  {| SignCert _ s c := Some (signed s c);
     signature_valid c := bool_decide (cert_Signature c = (k ← SignatureKey c; Some (k, Serial c, ValidPrincipals c))) |}.

#[local] Instance signer_laws : CertLaws.
Proof. constructor. intros rnd s c c' [= <-]. split_and!; [done..|]. by apply bool_decide_eq_true. Qed.

Definition env : environment := {| unix_nano := 1700000000 * Second; env_rnd := str "r" |}.
Definition ca : CA := NewCA env (str "ca").
Definition oidc : OIDCConfig := {| Issuer := str "https://accounts.example.com"; ClientID := str "app"; ClaimName := [] |}.
Definition token : bytes := forge oidc (str "root") (str "h") (str "s").
Definition opts : list (option IssueOption) := [Some (WithTTL (2 * Hour)); None; Some (WithPrincipals [str "ops"])].

Definition answer : result ca_error (certificate * bytes) * CA := IssueFromOIDCToken 1700000000 env ca token (Some (str "key")) oidc opts.

Lemma opts_package : package_options opts.
Proof. repeat constructor; try lia; vm_compute; done. Qed.

Lemma answer_ok :
  match answer with
  | (Ok (cert, user), _) => user = str "root" ∧ ValidPrincipals cert = [str "root"; str "ops"]
  | _ => False
  end.
Proof. vm_compute. split; reflexivity. Qed.

Lemma env_sane : sane_clock env.
Proof. vm_compute. split; [discriminate|reflexivity]. Qed.

Lemma token_certificate_witness : ∃ cert c',
  answer = (Ok (cert, str "root"), c') ∧ (∃ more, ValidPrincipals cert = str "root" :: more) ∧
  ValidAfter cert = unix env - 60 ∧ ValidBefore cert = unix env + 7200 ∧ signature_valid cert = true.
Proof.
  pose proof answer_ok as Ha. destruct answer as [[[cert user]|] c'] eqn:Ea; [|done]. destruct Ha as [-> Hp].
  pose proof (token_certificate _ _ _ _ _ _ _ _ _ _ Ea) as (_ & _ & _ & Hv & _ & _ & _ & Hpk & Hw).
  destruct (Hw env_sane) as (Haf & _ & Ht). exists cert, c'. split; [reflexivity|]. split; [exact (proj1 (Hpk opts_package))|]. split; [exact Haf|].
  split; [|exact Hv]. rewrite Ht; [reflexivity|]. exists 7200. split; [vm_compute; reflexivity|lia].
Defined.

Lemma forged_token_accepted_witness :
  ∃ cert c', IssueFromOIDCToken 1700000000 env ca token (Some (str "key")) oidc [] = (Ok (cert, str "root"), c').
Proof.
  assert (∀ s : bytes, bool_decide ("."%byte ∈ s) = false → "."%byte ∉ s) as Hin by (intros s; by rewrite bool_decide_eq_false).
  eexists _, _. unfold token.
  apply (forged_token_accepted 1700000000 env ca oidc (str "root") (str "h") (str "s") (Some (str "key")) []);
    [discriminate|by apply Hin|by apply Hin|reflexivity|reflexivity|reflexivity|discriminate|discriminate|reflexivity].
Defined.

Definition requests : list request :=
  [UserRequest env (Some (str "k")) (str "alice") []; HostRequest env None (str "h") []; TokenRequest 0 env token (Some (str "k")) oidc opts].

Lemma requests_automatic : Forall (λ r, automatic (req_options r)) (requests ++ requests).
Proof. repeat (apply Forall_cons_2; [by intros c|]). constructor. Qed.

Definition later : environment := {| unix_nano := 1700000000 * Second + 3; env_rnd := [] |}.

Lemma serials_unique_witness :
  length (serials (NewCA env (str "ca")) requests ++ serials (NewCA later (str "ca")) requests) = 4%nat ∧
  NoDup (serials (NewCA env (str "ca")) requests ++ serials (NewCA later (str "ca")) requests).
Proof.
  split; [vm_compute; reflexivity|].
  apply (serials_unique env later (str "ca" : @Signer crypto) requests requests requests_automatic); vm_compute; [discriminate..|reflexivity].
Defined.

(** A time to live of less than a second has passed when it starts. *)
Example short_ttl : ∃ cert c', IssueUserCert env ca (Some (str "k")) (str "u") [Some (WithTTL 999999999)] = (Ok cert, c') ∧
  ValidBefore cert = unix env.
Proof. eexists _, _. split; [reflexivity|]. vm_compute. reflexivity. Qed.

(** The issuer is compared by its beginning. *)
Example issuer_prefix :
  validateOIDCClaims 0 [(str "iss", JStr (str "https://accounts.example.com.evil.org"))] oidc = None.
Proof. vm_compute. reflexivity. Qed.
End CASample.
