(* ===== verification/SshTunnel.v ===== *)
(** * The SSH agent and reverse tunnels (src/ssh/agent/agent.go, src/ssh/reverse/client.go)

    The agent's socket and authentication methods; the loop that keeps a reverse
    tunnel open with its delays, one session of it, the copying of one direction
    of a forwarded channel over any reader and writer, and the two directions of a
    channel as a step relation. *)

From S2P Require Import Prelude GoLib GoText.

#[local] Open Scope Z_scope.

(** ** The agent *)

Module Agent.
Section agent.
(** A socket is a connection; [dial] opens one by its path, [Signers] asks the
    agent behind a connection for its keys. *)
Context {Conn Signer error : Type} (dial : bytes → result error Conn) (Signers : Conn → result error (list Signer)).

Inductive agent_error := ErrAgentUnavailable | DialFailed (e : error).

Notation env := (gmap bytes bytes).

Definition SocketPath (e : env) : bytes := default [] (e !! str "SSH_AUTH_SOCK").
Definition HasAgent (e : env) : bool := negb (bytes_eqb (SocketPath e) []).

Definition Connect (e : env) (socketPath : bytes) : result agent_error Conn :=
  let target := if bytes_eqb socketPath [] then SocketPath e else socketPath in
  if bytes_eqb target [] then Err ErrAgentUnavailable
  else match dial target with Ok conn => Ok conn | Err x => Err (DialFailed x) end.

(** An authentication method: the callback that finds the signers, with the
    connections it opens. *)
Definition AuthMethodT : Type := unit → result error (list Signer) * list Conn.

Definition AuthMethod (conn : option Conn) : option AuthMethodT := (λ c, λ _, (Signers c, [])) <$> conn.

Definition AuthMethodSocket (socketPath : bytes) : option AuthMethodT :=
  if bytes_eqb socketPath [] then None
  else Some (λ _, match dial socketPath with
                  | Err _ => (Ok [], [])
                  | Ok conn => (Signers conn, [conn])
                  end).

Definition DefaultAuthMethod (e : env) : option AuthMethodT := AuthMethodSocket (SocketPath e).

(** An agent that cannot be reached has no keys, and that is not an error. *)
Lemma unreachable_agent path m x : AuthMethodSocket path = Some m → dial path = Err x → m () = (Ok [], []).
Proof. unfold AuthMethodSocket. destruct (bytes_eqb path []); [done|]. by intros [= <-] ->. Qed.

Lemma default_available e : HasAgent e = true ↔ is_Some (DefaultAuthMethod e).
Proof.
  unfold HasAgent, DefaultAuthMethod, AuthMethodSocket. destruct (bytes_eqb (SocketPath e) []); cbn; [|by split; eauto].
  split; [done|]. by intros [? ?].
Qed.
End agent.
End Agent.

(** ** One direction of a channel (proxyPipeWithBuf) *)

(** A read gives bytes and perhaps an error, end of file included; a write the
    number of bytes taken and perhaps an error. *)
Record read := { r_data : bytes; r_err : bool }.
Record write := { w_taken : Z; w_err : bool }.

(** The bytes written, over the answers of reader and writer. *)
Fixpoint proxyPipeWithBuf (reads : list read) (writes : list write) : bytes :=
  match reads with
  | [] => []
  | r :: reads' =>
      match r_data r with
      | [] => if r_err r then [] else proxyPipeWithBuf reads' writes
      | buf =>
          match writes with
          | [] => []
          | w :: writes' =>
              let out := take (Z.to_nat (w_taken w)) buf in
              if w_err w || (w_taken w <? Z.of_nat (length buf)) then out
              else out ++ (if r_err r then [] else proxyPipeWithBuf reads' writes')
          end
      end
  end.

(** What a reader has to give: everything up to its first error, the bytes of the
    failing read included. *)
Fixpoint stream (reads : list read) : bytes :=
  match reads with [] => [] | r :: reads' => r_data r ++ (if r_err r then [] else stream reads') end.

(** A writer that takes what it is given. *)
Fixpoint takes_all (reads : list read) (writes : list write) : Prop :=
  match reads with
  | [] => True
  | r :: reads' =>
      match r_data r with
      | [] => takes_all reads' writes
      | buf => match writes with
               | [] => False
               | w :: writes' => w_err w = false ∧ w_taken w = Z.of_nat (length buf) ∧ takes_all reads' writes'
               end
      end
  end.

(** However the input is cut into reads, a pipe copies all of it, the
    bytes of the last, failing read included; whatever the writer does, what is
    written is a prefix of the input. *)
Theorem pipe_copies reads writes :
  proxyPipeWithBuf reads writes `prefix_of` stream reads ∧
  (takes_all reads writes → proxyPipeWithBuf reads writes = stream reads).
Proof.
  revert writes. induction reads as [|r reads IH]; intros writes; [done|]. cbn [proxyPipeWithBuf stream takes_all].
  destruct (r_data r) as [|b buf] eqn:Er; [destruct (r_err r); [done|apply IH]|].
  destruct writes as [|w writes]; [split; [apply prefix_nil|done]|]. split.
  - destruct (w_err w || (w_taken w <? Z.of_nat (length (b :: buf)))) eqn:E.
    + apply prefix_app_r. exists (drop (Z.to_nat (w_taken w)) (b :: buf)). by rewrite take_drop.
    + bools. rewrite take_ge by lia. apply prefix_app. destruct (r_err r); [done|apply IH].
  - intros (He & Ht & Ha). rewrite He, Ht, Z.ltb_irrefl, Nat2Z.id, take_ge by done. cbn [orb]. f_equal.
    destruct (r_err r); [done|]. by apply IH.
Qed.

(** ** A forwarded channel

    The two directions of [handleForwardedChannel]: the remote end of the channel
    to the local service, and back.  [sent] is what a source has written so far,
    [eof] that it has closed its side, [copied] what has reached the destination,
    [running] that the pipe has not returned, [broken] that a write failed. *)
Record direction := { sent : bytes; eof : bool; copied : bytes; running : bool; broken : bool }.

Record channel := { inbound : direction; outbound : direction; finished : bool }.

Definition fresh_direction : direction := {| sent := []; eof := false; copied := []; running := true; broken := false |}.
Definition handleForwardedChannel : channel := {| inbound := fresh_direction; outbound := fresh_direction; finished := false |}.

Definition buffer_size : Z := 32 * 1024.

(** The source writes or closes; the pipe copies a chunk, returns at the end of
    its input or because the destination fails. *)
Inductive direction_step (d : direction) : direction → Prop :=
| dir_send b : eof d = false → direction_step d {| sent := sent d ++ b; eof := false; copied := copied d; running := running d; broken := broken d |}
| dir_close : direction_step d {| sent := sent d; eof := true; copied := copied d; running := running d; broken := broken d |}
| dir_copy c : running d = true → c ≠ [] → Z.of_nat (length c) <= buffer_size → copied d ++ c `prefix_of` sent d →
    direction_step d {| sent := sent d; eof := eof d; copied := copied d ++ c; running := true; broken := broken d |}
| dir_end : running d = true → eof d = true → copied d = sent d →
    direction_step d {| sent := sent d; eof := true; copied := copied d; running := false; broken := broken d |}
| dir_fail : running d = true → copied d ≠ sent d →
    direction_step d {| sent := sent d; eof := eof d; copied := copied d; running := false; broken := true |}.

Inductive channel_step (s : channel) : channel → Prop :=
| step_inbound d : finished s = false → direction_step (inbound s) d →
    channel_step s {| inbound := d; outbound := outbound s; finished := false |}
| step_outbound d : finished s = false → direction_step (outbound s) d →
    channel_step s {| inbound := inbound s; outbound := d; finished := false |}
| step_finish : running (inbound s) = false → running (outbound s) = false →
    channel_step s {| inbound := inbound s; outbound := outbound s; finished := true |}.

Inductive channel_reachable : channel → Prop :=
| channel_new : channel_reachable handleForwardedChannel
| channel_next s s' : channel_reachable s → channel_step s s' → channel_reachable s'.

Record direction_inv (d : direction) : Prop := {
  dir_prefix : copied d `prefix_of` sent d;
  dir_done : running d = false → broken d = true ∨ eof d = true ∧ copied d = sent d
}.

Lemma direction_inv_step d d' : direction_inv d → direction_step d d' → direction_inv d'.
Proof.
  intros [P D] Hs. destruct Hs as [b He| |c Hr Hc _ Hp|Hr He Hc|Hr Hc]; constructor; cbn; try done; try (by left); try (by right).
  - by apply prefix_app_r.
  - intros Hr. destruct (D Hr) as [|[E _]]; [by left|congruence].
  - intros Hr. destruct (D Hr) as [|[_ E]]; [by left|by right].
Qed.

Lemma channel_inv s : channel_reachable s → direction_inv (inbound s) ∧ direction_inv (outbound s) ∧
  (finished s = true → running (inbound s) = false ∧ running (outbound s) = false).
Proof.
  induction 1 as [|s s' _ (I & O & F) Hs]; [by split_and!; [constructor|constructor|]|].
  destruct Hs as [d Hf Hd|d Hf Hd|H1 H2]; cbn; split_and!; try done; first [exact (direction_inv_step _ _ I Hd)|exact (direction_inv_step _ _ O Hd)|by intros _].
Qed.

(** When the handler of a channel returns, each direction has delivered
    everything its source sent before it closed, or a write failed: no end of the
    tunnel learns that the other has closed before both have. *)
Theorem channel_complete s : channel_reachable s → finished s = true →
  (broken (inbound s) = true ∨ eof (inbound s) = true ∧ copied (inbound s) = sent (inbound s)) ∧
  (broken (outbound s) = true ∨ eof (outbound s) = true ∧ copied (outbound s) = sent (outbound s)).
Proof. intros Hr Hf. destruct (channel_inv s Hr) as (I & O & F). destruct (F Hf). split; by apply dir_done. Qed.

(** A remote end that closes only when it has seen the end of the answer: its
    side is closed after the handler has returned. *)
Inductive polite_reachable : channel → Prop :=
| polite_new : polite_reachable handleForwardedChannel
| polite_next s s' : polite_reachable s → channel_step s s' → (finished s = false → eof (inbound s') = eof (inbound s)) →
    (broken (inbound s') = broken (inbound s)) → polite_reachable s'.

(** With a remote end that waits for the end of the answer before it closes, and a
    local service that takes what it is sent, the handler of a channel never returns: the end of the local service's answer is
    not passed on. *)
Lemma half_close_lost s : polite_reachable s → finished s = false.
Proof.
  intros Hp. assert (channel_reachable s ∧ finished s = false ∧ eof (inbound s) = false ∧ broken (inbound s) = false) as (_ & ? & _); [|done].
  induction Hp as [|s s' _ (Hr & Hf & He & Hb) Hs Heof Hbr]; [by split_and!; [constructor|..]|].
  assert (channel_reachable s') as Hr' by (by econstructor). specialize (Heof Hf). rewrite He in Heof. rewrite Hb in Hbr.
  split_and!; [done| |done|done]. destruct (finished s') eqn:Hf'; [|done].
  destruct (channel_inv s' Hr') as (I & _ & F). destruct (F Hf') as [Hi _]. destruct (dir_done _ I Hi) as [E|[E _]]; congruence.
Qed.

(** ** Sessions and the loop around them *)

Record ClientConfig := { ServerAddr : bytes; LocalAddr : bytes; Subdomain : bytes; has_SSHConfig : bool }.

(** The configuration of a tunnel without one: user, host key check, timeout. *)
Inductive ssh_config := GivenConfig | DefaultConfig (user : bytes) (checks_host_key : bool) (timeout : Z).

Definition resolve (cfg : ClientConfig) : bytes * ssh_config :=
  (if bytes_eqb (LocalAddr cfg) [] then str "127.0.0.1:8080" else LocalAddr cfg,
   if has_SSHConfig cfg then GivenConfig else DefaultConfig (str "aoni") false (10 * Second)).

(** What a session meets: dialing, the SSH handshake, the answer to the forward
    request, then the channels opened until the connection ends or the context is
    done. *)
Record weather := {
  dial_ok : bool;
  handshake_ok : bool;
  forward_reply : option bool;
  channels : list nat;
  cancelled : bool
}.

Inductive session_error := DialError | HandshakeError | ForwardRejected | ContextDone.

(** The result, the channels handed to goroutines, and the connections that were
    opened and closed. *)
Definition runSingleClientSession (w : weather) : option session_error * list nat * (nat * nat) :=
  if negb (dial_ok w) then (Some DialError, [], (0, 0))%nat
  else if negb (handshake_ok w) then (Some HandshakeError, [], (1, 1))%nat
  else match forward_reply w with
       | Some true => (if cancelled w then Some ContextDone else None, channels w, (1, 1)%nat)
       | _ => (Some ForwardRejected, [], (1, 1)%nat)
       end.

(** One round of the loop: the session, whether the context is done after it, and
    whether it is done during the delay. *)
Record round := { rd_weather : weather; rd_done_after : bool; rd_done_waiting : bool }.

Definition backoff_start : Z := Second.
Definition backoff_max : Z := 30 * Second.

(** The delays of the loop, until the context is done or the rounds end. *)
Fixpoint runClientLoop (backoff : Z) (rounds : list round) : list Z * bool :=
  match rounds with
  | [] => ([], false)
  | r :: rounds' =>
      let '(err, _, _) := runSingleClientSession (rd_weather r) in
      if rd_done_after r then ([], true)
      else match err with
           | Some _ =>
               if rd_done_waiting r then ([backoff], true)
               else let '(ds, b) := runClientLoop (Z.min (backoff * 2) backoff_max) rounds' in (backoff :: ds, b)
           | None => runClientLoop backoff_start rounds'
           end
  end.

Definition ExposeLocal (rounds : list round) : list Z * bool := runClientLoop backoff_start rounds.

(** A round that fails, and one whose connection is dropped after it was
    accepted. *)
Definition fails (r : round) : Prop :=
  rd_done_after r = false ∧ rd_done_waiting r = false ∧ (runSingleClientSession (rd_weather r)).1.1 ≠ None.
Definition drops (r : round) : Prop := rd_done_after r = false ∧ (runSingleClientSession (rd_weather r)).1.1 = None.

(** The [i]-th delay in a row: 1, 2, 4, 8, 16, 30, 30 ... seconds. *)
Definition delay (i : nat) : Z := Z.min (2 ^ Z.of_nat i * Second) backoff_max.

Lemma delay_S i : Z.min (delay i * 2) backoff_max = delay (S i).
Proof.
  unfold delay. rewrite Nat2Z.inj_succ, Z.pow_succ_r by lia. change backoff_max with (30 * Second).
  assert (0 < 2 ^ Z.of_nat i) by (apply Z.pow_pos_nonneg; lia). change Second with 1000000000. lia.
Qed.

Lemma loop_fails i rounds rest : Forall fails rounds →
  runClientLoop (delay i) (rounds ++ rest) =
  let '(ds, b) := runClientLoop (delay (i + length rounds)) rest in (map delay (seq i (length rounds)) ++ ds, b).
Proof.
  intros Hf. revert i. induction Hf as [|r rounds (H1 & H2 & H3) _ IH]; intros i; cbn [app length seq map].
  - rewrite Nat.add_0_r. by destruct (runClientLoop (delay i) rest).
  - cbn [runClientLoop]. destruct (runSingleClientSession (rd_weather r)) as [[[e|] ch] oc]; [|done]. rewrite H1, H2, delay_S, IH.
    rewrite <- plus_n_Sm. cbn [Nat.add]. by destruct (runClientLoop (delay (S (i + length rounds))) rest).
Qed.

(** The delays between attempts: after [n] failures in a row, wherever
    they begin, the loop has waited 1, 2, 4, ... and at most 30 seconds, and a
    session that was accepted starts the delays again; but when the accepted
    connection drops there is no delay before the next attempt, however often it
    happens. *)
Theorem backoff_delays drops1 failing drops2 :
  Forall drops drops1 → Forall fails failing → Forall drops drops2 →
  ExposeLocal (drops1 ++ failing ++ drops2) = (map delay (seq 0 (length failing)), false).
Proof.
  intros H1 H2 H3.
  assert (∀ rounds rest, Forall drops rounds → runClientLoop backoff_start (rounds ++ rest) = runClientLoop backoff_start rest) as Hd.
  { intros rounds rest Hr. induction Hr as [|r rounds [D1 D2] _ IH]; [done|]. cbn [app runClientLoop].
    destruct (runSingleClientSession (rd_weather r)) as [[[e|] ch] oc]; [done|]. by rewrite D1. }
  unfold ExposeLocal. rewrite Hd by done. change backoff_start with (delay 0). rewrite loop_fails by done.
  destruct drops2 as [|r drops2]; [by cbn; rewrite app_nil_r|]. apply Forall_cons in H3 as [[D1 D2] H3]. cbn [runClientLoop].
  destruct (runSingleClientSession (rd_weather r)) as [[[e|] ch] oc]; [done|]. rewrite D1.
  rewrite <- (app_nil_r drops2), Hd by done. cbn. by rewrite app_nil_r.
Qed.

(** Every connection a session opens is closed, on every path. *)
Lemma session_closes w : let '(_, _, (opened, closed)) := runSingleClientSession w in opened = closed.
Proof. unfold runSingleClientSession. by destruct (dial_ok w), (handshake_ok w), (forward_reply w) as [[]|]. Qed.

Module TunnelSample.
Definition bad : round := {| rd_weather := {| dial_ok := false; handshake_ok := false; forward_reply := None; channels := []; cancelled := false |};
  rd_done_after := false; rd_done_waiting := false |}.
Definition dropped : round := {| rd_weather := {| dial_ok := true; handshake_ok := true; forward_reply := Some true; channels := [1; 2]%nat; cancelled := false |};
  rd_done_after := false; rd_done_waiting := false |}.

Lemma backoff_delays_witness : ExposeLocal ([dropped; dropped] ++ replicate 7 bad ++ [dropped]) =
  (map (λ s, s * Second) [1; 2; 4; 8; 16; 30; 30], false).
Proof.
  rewrite (backoff_delays [dropped; dropped] (replicate 7 bad) [dropped]).
  - vm_compute. reflexivity.
  - by repeat apply Forall_cons_2.
  - by apply Forall_replicate.
  - by repeat apply Forall_cons_2.
Defined.

Definition reads : list read := [{| r_data := str "GET"; r_err := false |}; {| r_data := []; r_err := false |}; {| r_data := str " /"; r_err := true |}].

Lemma pipe_copies_witness : proxyPipeWithBuf reads [{| w_taken := 3; w_err := false |}; {| w_taken := 2; w_err := false |}] = str "GET /".
Proof.
  destruct (pipe_copies reads [{| w_taken := 3; w_err := false |}; {| w_taken := 2; w_err := false |}]) as [_ H].
  apply H. vm_compute. repeat split.
Defined.

(** Both ends send a byte and close. *)
Definition side : direction := {| sent := [x01]; eof := true; copied := [x01]; running := false; broken := false |}.
Definition done : channel := {| inbound := side; outbound := side; finished := true |}.

Lemma side_runs : rtc direction_step fresh_direction side.
Proof.
  eapply rtc_l; [apply (dir_send fresh_direction [x01] eq_refl)|]. eapply rtc_l; [apply dir_close|].
  eapply rtc_l; [apply dir_copy with (c := [x01]); [reflexivity|discriminate|vm_compute; discriminate|by exists []]|].
  eapply rtc_l; [by apply dir_end|]. apply rtc_refl.
Qed.

Lemma done_reachable : channel_reachable done.
Proof.
  assert (∀ d o, channel_reachable {| inbound := d; outbound := o; finished := false |} → ∀ d', rtc direction_step d d' →
    channel_reachable {| inbound := d'; outbound := o; finished := false |}) as Hi.
  { intros d o Hr d' Hs. induction Hs as [|d d1 d' Hs _ IH]; [exact Hr|]. apply IH. exact (channel_next _ _ Hr (step_inbound {| inbound := d; outbound := o; finished := false |} _ eq_refl Hs)). }
  assert (∀ d o, channel_reachable {| inbound := d; outbound := o; finished := false |} → ∀ o', rtc direction_step o o' →
    channel_reachable {| inbound := d; outbound := o'; finished := false |}) as Ho.
  { intros d o Hr o' Hs. induction Hs as [|o o1 o' Hs _ IH]; [exact Hr|]. apply IH. exact (channel_next _ _ Hr (step_outbound {| inbound := d; outbound := o; finished := false |} _ eq_refl Hs)). }
  pose proof (Ho _ _ (Hi _ _ channel_new _ side_runs) _ side_runs) as Hr.
  exact (channel_next _ _ Hr (step_finish {| inbound := side; outbound := side; finished := false |} eq_refl eq_refl)).
Qed.

Lemma channel_complete_witness : copied (outbound done) = sent (outbound done).
Proof. destruct (channel_complete done done_reachable eq_refl) as [_ [E|[_ E]]]; [discriminate E|exact E]. Defined.
End TunnelSample.
