(* ===== verification/SshTransfer.v ===== *)
(** * Single transfers and proxied connections
    (src/ssh/sftp/sftp.go, scp.go, src/ssh/client.go, socks5.go, streamlocal.go)

    The transfers of the package functions [Upload], [Download] and [Scp], with
    the receiver of an SCP stream as a reader of any number of files; and a
    connection through the SOCKS5 server from its handshake to its end. *)

From S2P Require Import Prelude GoLib GoText SshSftp SshStream SshSocks SshTunnel.

#[local] Open Scope Z_scope.

(** ** SFTP without workers *)

Section package_transfers.
Context (copy : bytes → bytes * bool).

(** [subsystem] says that the server grants SFTP. The result and the new content of
    the remote file, if it was created. *)
Definition package_Upload (localFile : option bytes) (connected subsystem create : bool) (maxPacketSize : Z) :
    result transfer_error unit * option bytes :=
  match localFile with
  | None => (Err LocalFile, None)
  | Some content =>
      match NewClient connected maxPacketSize with
      | Err e => (Err (SftpError e), None)
      | Ok _ =>
          if negb subsystem then (Err (SftpError ErrSubsystem), None)
          else if negb create then (Err RemoteFile, None)
          else let '(w, ok) := copy content in (if ok then Ok () else Err CopyFailed, Some w)
      end
  end.

(** The local file is created first of all. *)
Definition package_Download (create connected subsystem : bool) (maxPacketSize : Z) (remoteFile : option bytes) (sync : bool) :
    result transfer_error unit * option bytes :=
  if negb create then (Err LocalFile, None)
  else
    match NewClient connected maxPacketSize with
    | Err e => (Err (SftpError e), Some [])
    | Ok _ =>
        if negb subsystem then (Err (SftpError ErrSubsystem), Some [])
        else
          match remoteFile with
          | None => (Err RemoteFile, Some [])
          | Some content =>
              let '(w, ok) := copy content in
              (if negb ok then Err CopyFailed else if sync then Ok () else Err SyncFailed, Some w)
          end
    end.

(** Where the client has its SFTP session the functions do what the methods of
    the client do; without one a download has emptied the local file, which the
    method leaves alone. *)
Theorem package_transfers localFile create remoteFile sync n :
  package_Upload localFile true true create n = Upload copy true (Ok ()) localFile create ∧
  package_Download create true true n remoteFile sync = Download copy true (Ok ()) create remoteFile sync ∧
  (∀ connected, (package_Download true connected false n remoteFile sync).2 = Some []) ∧
  (∀ e, (Download copy true (Err e) true remoteFile sync).2 = None).
Proof. split_and!; [by destruct localFile|by destruct create|by intros []|done]. Qed.
End package_transfers.

(** ** SCP *)

(** [stat] gives the size of the file, [content] is what is read from it
    afterwards. *)
Definition Scp (localFile : option (option Z * bytes)) (connected session start_ok copy_ok : bool) (remoteFilePath : bytes) :
    result transfer_error (bytes * bytes) :=
  match localFile with
  | None | Some (None, _) => Err LocalFile
  | Some (Some size, content) =>
      match WriteFile connected session start_ok copy_ok size content remoteFilePath with Ok r => Ok r | Err e => Err (SftpError e) end
  end.

Definition Client_Scp (usable : bool) (localFile : option (option Z * bytes)) (session start_ok copy_ok : bool) (remoteFilePath : bytes) :
    result transfer_error (bytes * bytes) :=
  if usable then Scp localFile true session start_ok copy_ok remoteFilePath else Err TransferClosed.

(** The receiver of [scp -t] reads one file after another: a header line, as many
    bytes as it announces, and a zero byte. *)
Definition scp_file (s : bytes) : option ((bytes * bytes) * bytes) :=
  if HasPrefix s (str "C0644 ") then
    let '(n, rest) := span is_digit (drop 6 s) in
    match rest with
    | " "%byte :: rest =>
        let '(name, body) := span (λ c, negb (c =b x0a)) rest in
        match body with
        | _ :: body =>
            let size := Z.to_nat (dec_value n) in
            match drop size body with
            | x00 :: more => Some ((name, take size body), more)
            | _ => None
            end
        | [] => None
        end
    | _ => None
    end
  else None.

Fixpoint scp_sink (fuel : nat) (s : bytes) : option (list (bytes * bytes)) :=
  match s, fuel with
  | [], _ => Some []
  | _, O => None
  | _, S fuel => '(f, more) ← scp_file s; fs ← scp_sink fuel more; Some (f :: fs)
  end.

(** What is read as one file. *)
Lemma scp_file_header name content more : Forall (λ c, c ≠ x0a) name →
  scp_file (scp_header (Z.of_nat (length content)) name ++ content ++ x00 :: more) = Some ((name, content), more).
Proof.
  intros Hn. unfold scp_file, scp_header. rewrite <- !app_assoc, HasPrefix_app. change 6%nat with (length (str "C0644 ")). rewrite drop_app_exact.
  assert (Itoa (Z.of_nat (length content)) = digits (Z.of_nat (length content))) as -> by (unfold Itoa; case_match; bools; [lia|done]).
  destruct (digits_spec (Z.of_nat (length content))) as (Hv & Hd & _); [lia|].
  rewrite (span_spec is_digit (digits _)); [|done|by intros c t [= <- _]].
  change (str " " ++ name ++ [x0a] ++ ?x) with (" "%byte :: (name ++ x0a :: x)). cbn iota.
  rewrite (span_spec _ name); [|eapply Forall_impl; [exact Hn|]; intros c Hc; by apply negb_true_iff, beq_false|by intros c t [= <- _]].
  by rewrite Hv, Nat2Z.id, drop_app_exact, take_app_exact.
Qed.

(** The stream of a reader that delivers as many bytes as announced is one file;
    the copy does not stop at that number, and what the reader delivers beyond it
    is read as further files: whoever writes to a file while it is sent, or
    supplies a longer reader, names files of their own on the server. *)
Theorem scp_overrun name content other data : Forall (λ c, c ≠ x0a) name → Forall (λ c, c ≠ x0a) other → content ≠ [] →
  let size := Z.of_nat (length content) in
  scp_sink 1 (scp_stream size name content) = Some [(name, content)] ∧
  scp_sink 2 (scp_stream size name (content ++ [x00] ++ scp_header (Z.of_nat (length data)) other ++ data)) = Some [(name, content); (other, data)].
Proof.
  intros Hn Ho Hc size. assert (0 <? size = true) as Hs by (unfold size; apply Z.ltb_lt; destruct content; [done|cbn; lia]).
  unfold scp_stream. rewrite Hs. unfold size. split.
  - pose proof (scp_file_header name content [] Hn) as H1. set (s := _ ++ _ ++ _) in *.
    destruct s eqn:E; [done|]. cbn [scp_sink]. by rewrite H1.
  - replace (_ ++ (content ++ _ ++ _) ++ [x00]) with
      (scp_header (Z.of_nat (length content)) name ++ content ++ x00 :: (scp_header (Z.of_nat (length data)) other ++ data ++ [x00]))
      by (by rewrite <- !app_assoc).
    pose proof (scp_file_header name content (scp_header (Z.of_nat (length data)) other ++ data ++ [x00]) Hn) as H1.
    pose proof (scp_file_header other data [] Ho) as H2.
    set (s2 := scp_header (Z.of_nat (length data)) other ++ data ++ [x00]) in *. set (s1 := _ ++ content ++ _) in *.
    destruct s1 eqn:E1; [done|]. cbn [scp_sink]. rewrite H1. cbn [mbind option_bind]. destruct s2 eqn:E2; [done|]. cbn [scp_sink]. by rewrite H2.
Qed.

(** ** A connection through the SOCKS5 server *)

Inductive listen_error := ListenClosed | ListenFailed.

(** The loop is started when the listener is there. *)
Definition ListenSOCKS5 (usable listens : bool) (rounds : list accepted) : result listen_error (list (list bytes) * bool) :=
  if negb usable then Err ListenClosed else if negb listens then Err ListenFailed else Ok (serveSOCKS5Loop rounds).

(** Two copies, and a wait for both, as for a forwarded channel: [inbound] is what
    the client sends. *)
Definition pipeSOCKSConns : channel := handleForwardedChannel.

(** A client that asks for an address that can be dialed, whatever the segments
    of its bytes: when the connection is over and no write has failed, the client
    has read the two replies and then all the host has sent, and the host has got
    the end of the client's data, all but what came together with the request. *)
Theorem socks_connection dial segs methods a port sent_data s :
  (length methods < 256)%nat → wf_address a → 0 <= port < 65536 →
  concat segs = greeting methods ++ connect_request a port ++ sent_data →
  dial (JoinHostPort (address_host a) (Itoa port)) = true →
  ∃ lost rest, h_piped (handleSOCKS5Conn dial true true segs) = Some (lost, rest) ∧
    (channel_reachable s → finished s = true → broken (inbound s) = false → broken (outbound s) = false → sent (inbound s) = concat rest →
     lost ++ copied (inbound s) = sent_data ∧
     concat (h_replies (handleSOCKS5Conn dial true true segs)) ++ copied (outbound s) = [x05; x00] ++ success_reply port ++ sent (outbound s)).
Proof.
  intros Hm Ha Hp Hs Hd. destruct (socks5_connect dial segs methods a port sent_data Hm Ha Hp Hs Hd) as (lost & rest & Hl & ->).
  exists lost, rest. split; [done|]. intros Hr Hf Hb1 Hb2 Hsent. destruct (channel_inv s Hr) as (I & O & F). destruct (F Hf) as [F1 F2].
  destruct (dir_done _ I F1) as [|[_ E1]]; [congruence|]. destruct (dir_done _ O F2) as [|[_ E2]]; [congruence|].
  rewrite E1, E2, Hsent. split; [done|]. cbn. reflexivity.
Qed.

(** ** Remote Unix sockets *)

(** The bridge answers for the deadlines without setting any. *)
Inductive deadline := Deadline (t : Z) | ReadDeadline (t : Z) | WriteDeadline (t : Z).
Definition bridge_deadline (d : deadline) : option unit * list deadline := (None, []).
Definition bridge_LocalAddr : bytes * bytes := (str "unix", str "local").
Definition bridge_RemoteAddr : bytes * bytes := (str "unix", str "remote").

(** ** Concrete transfers *)

Module SingleSample.
Lemma scp_overrun_witness : scp_sink 2 (scp_stream 2 (str "a.txt") (str "hi" ++ [x00] ++ scp_header 3 (str "evil") ++ str "pwn")) =
  Some [(str "a.txt", str "hi"); (str "evil", str "pwn")].
Proof.
  apply (scp_overrun (str "a.txt") (str "hi") (str "evil") (str "pwn")); [by repeat constructor..|done].
Defined.

Lemma socks_connection_witness : ∃ lost rest, h_piped (handleSOCKS5Conn SocksSample.up true true [SocksSample.stream]) = Some (lost, rest).
Proof.
  destruct (socks_connection SocksSample.up [SocksSample.stream] [x02] SocksSample.target 443 (str "GET") pipeSOCKSConns) as (l & r & H & _);
    [by apply Nat.ltb_lt|vm_compute; lia|lia|vm_compute; reflexivity|vm_compute; reflexivity|]. by exists l, r.
Defined.
End SingleSample.
