(* ===== verification/GrpcWire.v ===== *)
(** * gRPC on the wire (src/grpc/frame.go, status.go, metadata.go, timeout.go
      and the modifiers of proto.go)

    Length-prefixed frames over interfaces for Protobuf, gzip and the framer of
    the mach module; status errors from trailers; timeouts; metadata; and the
    lists of request modifiers. *)

From S2P Require Import Prelude GoLib GoText GoURL.

#[local] Open Scope Z_scope.

(** ** Status codes and errors (status.go, errors.go) *)

Definition StatusOK : Z := 0.
Definition StatusUnknown : Z := 2.

(** The names of the codes 0 to 16. *)
Definition status_names : list bytes :=
  [str "OK"; str "CANCELLED"; str "UNKNOWN"; str "INVALID_ARGUMENT"; str "DEADLINE_EXCEEDED";
   str "NOT_FOUND"; str "ALREADY_EXISTS"; str "PERMISSION_DENIED"; str "RESOURCE_EXHAUSTED";
   str "FAILED_PRECONDITION"; str "ABORTED"; str "OUT_OF_RANGE"; str "UNIMPLEMENTED"; str "INTERNAL";
   str "UNAVAILABLE"; str "DATA_LOSS"; str "UNAUTHENTICATED"].

Definition StatusCode_String (c : Z) : bytes :=
  match status_names !! Z.to_nat c with
  | Some n => n
  | None => str "CODE_" ++ Itoa c
  end.

Record StatusError := {
  se_Code : Z;
  se_Message : bytes;
  se_RawDetails : bytes;
  se_Header : Header;
  se_Trailer : Header
}.

Definition StatusError_Error (e : option StatusError) : bytes :=
  match e with
  | None => str "<nil>"
  | Some e =>
      str "aoni/grpc: status=" ++ StatusCode_String (se_Code e) ++ str " (" ++ Itoa (se_Code e) ++
      str ") msg=" ++ se_Message e ++
      (if (0 <? length (se_RawDetails e))%nat
       then str " details_len=" ++ Itoa (Z.of_nat (length (se_RawDetails e))) else [])
  end.

Inductive grpc_error :=
| EOF
| ErrUnexpectedEOF
| ErrInvalidGRPCFrame
| ErrInvalidContentType
| ErrMissingGRPCStatus
| ErrStatus (e : StatusError)
| ErrMarshal
| ErrUnmarshal
| ErrDecompress
| ErrDrain
| ErrTransport (n : Z)
| ErrStreamClosed
| ErrSendClosed
| ErrClosedPipe
| ErrDescriptors
| ErrJSON.

(** ** Headers *)

Section headers.
Context `{UnicodeCase}.

(** [getHeaderCaseInsensitive], with the order in which the map is ranged over;
    a nil map is an empty one. *)
Definition getHeaderCaseInsensitive (ord : range_order) (h : Header) (key : bytes) : bytes :=
  let val := Header_Get h key in
  if nonempty val then val
  else match List.find (λ kv, EqualFold kv.1 key && (0 <? length kv.2)%nat) (ord h) with
       | Some (_, v :: _) => v
       | _ => []
       end.

(** ** Binary headers (client.go) *)

Definition EncodeBinaryHeader (val : bytes) : bytes := EncodeToString RawStdEncoding val.

Definition DecodeBinaryHeader (val : bytes) : option bytes :=
  let val := TrimSpace val in
  match DecodeString RawStdEncoding val with
  | Some b => Some b
  | None => DecodeString StdEncoding val
  end.

(** ** Status from trailers *)

Definition decode_message (msg : bytes) : bytes :=
  if existsb (λ c, (c =b "%") || (c =b "+")) msg then
    match QueryUnescape msg with Some u => u | None => msg end
  else msg.

Definition parseGRPCStatus (ord : range_order) (trailers : Header) : StatusError :=
  let codeStr := getHeaderCaseInsensitive ord trailers (str "grpc-status") in
  let msgStr := getHeaderCaseInsensitive ord trailers (str "grpc-message") in
  let code := match ParseUint 32 codeStr with (c, None) => c | (_, Some _) => StatusUnknown end in
  let detailsBin := getHeaderCaseInsensitive ord trailers (str "grpc-status-details-bin") in
  let rawDetails := if nonempty detailsBin
                    then match DecodeBinaryHeader detailsBin with Some d => d | None => [] end
                    else [] in
  {| se_Code := code; se_Message := decode_message msgStr; se_RawDetails := rawDetails;
     se_Header := ∅; se_Trailer := trailers |}.
End headers.

(** ** Timeouts (timeout.go, proto.go) *)

Definition Microsecond : Z := 1000.
Definition Millisecond : Z := 1000000.

(** [d.Seconds()], [d.Minutes()] and [d.Hours()] are floating-point numbers;
    their integer part is the quotient for durations below 4096 hours. *)
Definition formatGRPCTimeout (d : Z) : bytes :=
  if d <=? 0 then str "0m"
  else if d <? Microsecond then Itoa d ++ str "n"
  else if d <? Millisecond then Itoa (d / Microsecond) ++ str "u"
  else if d <? Second then Itoa (d / Millisecond) ++ str "m"
  else if d <? Minute then Itoa (d / Second) ++ str "S"
  else if d <? Hour then Itoa (d / Minute) ++ str "M"
  else Itoa (d / Hour) ++ str "H".
Definition formatTimeout (d : Z) : bytes := formatGRPCTimeout d.

(** ** Frames (frame.go) *)

(** Protobuf messages, gzip, and the framer [grpcweb.NewFramer(0)]: reading a
    frame gives its flags, its payload and the rest of the stream. *)
Class Wire := {
  message : Type;
  proto_Size : message → Z;
  proto_Marshal : message → option bytes;
  proto_Unmarshal : bytes → option message;
  gzip_Compress : bytes → bytes;
  gzip_Decompress : bytes → option bytes;
  frame_limit : Z;
  ReadFrame : bytes → result grpc_error (Z * bytes) * bytes
}.

(** A stream that starts with a complete frame within the framer's limit gives
    it; an empty stream is at its end; a stream that ends within a frame is cut
    short. *)
Class WireLaws `{Wire} : Prop := {
  Size_Marshal : ∀ m b, proto_Marshal m = Some b → proto_Size m = Z.of_nat (length b);
  Unmarshal_Marshal : ∀ m b, proto_Marshal m = Some b → proto_Unmarshal b = Some m;
  Decompress_Compress : ∀ b, gzip_Decompress (gzip_Compress b) = Some b;
  frame_limit_32 : frame_limit < 2 ^ 32;
  ReadFrame_frame : ∀ f p rest, 0 <= f < 256 → Z.of_nat (length p) <= frame_limit →
    ReadFrame (zb f :: be32 (Z.of_nat (length p)) ++ p ++ rest) = (Ok (f, p), rest);
  ReadFrame_empty : ReadFrame [] = (Err EOF, []);
  ReadFrame_cut : ∀ f p k, 0 <= f < 256 → Z.of_nat (length p) <= frame_limit →
    (0 < k < 5 + length p)%nat →
    (ReadFrame (take k (zb f :: be32 (Z.of_nat (length p)) ++ p))).1 = Err ErrUnexpectedEOF
}.

Section frames.
Context `{Wire}.

Definition emptyGRPCFrame : bytes := replicate 5 x00.

(** A compression writer that fails is not modelled: it writes to memory. *)
Definition MarshalFrame (msg : option message) (compressed : bool) : result grpc_error bytes :=
  match msg with
  | None => Ok emptyGRPCFrame
  | Some m =>
      if negb compressed then
        match proto_Marshal m with
        | None => Err ErrMarshal
        | Some b => Ok (x00 :: be32 (proto_Size m) ++ b)
        end
      else
        match proto_Marshal m with
        | None => Err ErrMarshal
        | Some raw =>
            let gzPayload := gzip_Compress raw in
            Ok (x01 :: be32 (Z.of_nat (length gzPayload)) ++ gzPayload)
        end
  end.

(** The message of the next frame, and the rest of the stream; the compression
    flag that the function also returns is dropped by every caller. *)
Definition UnmarshalFrame (r : bytes) : result grpc_error message * bytes :=
  let '(res, rest) := ReadFrame r in
  match res with
  | Err EOF => (Err EOF, rest)
  | Err ErrUnexpectedEOF => (Err ErrUnexpectedEOF, rest)
  | Err _ => (Err ErrInvalidGRPCFrame, rest)
  | Ok (flags, payload) =>
      let compressed := negb (Z.land flags 1 =? 0) in
      match (if compressed then gzip_Decompress payload else Some payload) with
      | None => (Err ErrDecompress, rest)
      | Some payload =>
          match proto_Unmarshal payload with
          | None => (Err ErrUnmarshal, rest)
          | Some m => (Ok m, rest)
          end
      end
  end.

(** ** Request modifiers (metadata.go, proto.go)

    The modifiers of the aoni module as data: what they set; [UserMod] is a
    modifier of the caller. *)
Inductive hname :=
| HAccept | HContentType | HTE | HUserAgent | HAcceptEncoding | HTimeout | HCustom (k : bytes).
Inductive modifier :=
| WithHeader (k : hname) (v : bytes)
| WithContentType (v : bytes)
| WithBody (b : bytes)
| WithPipeBody
| WithDecoder (web : bool)
| WithMetadataMod (sets : list (bytes * bytes))
| UserMod (n : Z).

Definition stackModCapacity : nat := 16.

(** Writing [l] at position [i] of an array: [copy] stops at its end. *)
Definition copy_at {A} (buf : list A) (i : nat) (l : list A) : list A :=
  take i buf ++ take (length buf - i) l ++ drop (i + length l) buf.

(** The two branches of the [with...Mods] functions: the caller's stack array,
    or a slice on the heap. *)
Definition with_mods (stackBuf : list modifier) (own mods : list modifier) : list modifier :=
  let total := (length own + length mods)%nat in
  if (total <=? stackModCapacity)%nat then
    let buf := foldl (λ b '(i, m), <[i := m]> b) stackBuf (zip (seq 0 (length own)) own) in
    take total (copy_at buf (length own) mods)
  else own ++ mods.

Definition withProtoGetMods (mime : bytes) (stackBuf mods : list modifier) : list modifier :=
  with_mods stackBuf [WithHeader HAccept mime; WithDecoder false] mods.

(** A message that cannot be marshalled is sent as an empty body. *)
Definition withProtoPostMods (mime : bytes) (stackBuf : list modifier) (msg : message) (mods : list modifier) :
    list modifier :=
  with_mods stackBuf
    [WithBody (default [] (proto_Marshal msg)); WithHeader HContentType mime; WithDecoder false] mods.

Definition withWebPostMods (mime : bytes) (stackBuf : list modifier) (msg : option message) (mods : list modifier) :
    list modifier :=
  with_mods stackBuf
    [WithBody (match MarshalFrame msg false with Ok b => b | Err _ => [] end);
     WithHeader HContentType mime; WithDecoder true] mods.

Definition metadata_sets `{UnicodeCase} (md : list (bytes * bytes)) : list (bytes * bytes) :=
  map (λ '(k, v), if HasSuffix (ToLower k) (str "-bin") then (k, EncodeBinaryHeader v) else (k, v)) md.
Definition WithMetadata `{UnicodeCase} (md : list (bytes * bytes)) : modifier := WithMetadataMod (metadata_sets md).

Definition WithBinaryHeader `{UnicodeCase} (key val : bytes) : modifier :=
  let key := if HasSuffix (ToLower key) (str "-bin") then key else key ++ str "-bin" in
  WithHeader (HCustom key) (EncodeBinaryHeader val).

Definition WithGRPCWebTimeout (d : Z) : modifier := WithHeader HTimeout (formatGRPCTimeout d).
Definition WithTimeout (d : Z) : modifier := WithHeader HTimeout (formatTimeout d).
End frames.

(** ** Frames: round trip *)

Section roundtrip.
Context `{WireLaws}.

(** What a frame carries, compressed or not. *)
Definition frame_payload (raw : bytes) (compressed : bool) : bytes :=
  if compressed then gzip_Compress raw else raw.

Lemma MarshalFrame_text m c f : MarshalFrame (Some m) c = Ok f →
  ∃ raw, proto_Marshal m = Some raw ∧
    f = (if c then x01 else x00) :: be32 (Z.of_nat (length (frame_payload raw c))) ++ frame_payload raw c.
Proof.
  unfold MarshalFrame. destruct (proto_Marshal m) as [raw|] eqn:E; [|by destruct c].
  destruct c; cbn [negb]; intros [= <-]; exists raw; split; [done|done|done|].
  by rewrite (Size_Marshal _ _ E).
Qed.

Lemma UnmarshalFrame_MarshalFrame m c f rest : MarshalFrame (Some m) c = Ok f →
  (∀ raw, proto_Marshal m = Some raw → Z.of_nat (length (frame_payload raw c)) <= frame_limit) →
  UnmarshalFrame (f ++ rest) = (Ok m, rest).
Proof.
  intros (raw & Hm & ->)%MarshalFrame_text Hl. unfold UnmarshalFrame. cbn [app]. rewrite <- app_assoc.
  pose proof (ReadFrame_frame (if c then 1 else 0) (frame_payload raw c) rest) as Hr.
  replace (zb (if c then 1 else 0)) with (if c then x01 else x00) in Hr by by destruct c.
  rewrite Hr by (destruct c; lia || by apply Hl). destruct c; cbn [frame_payload].
  - change (negb (Z.land 1 1 =? 0)) with true. cbv iota. rewrite Decompress_Compress.
    by rewrite (Unmarshal_Marshal _ _ Hm).
  - change (negb (Z.land 0 1 =? 0)) with false. cbv iota. by rewrite (Unmarshal_Marshal _ _ Hm).
Qed.

(** A message that is framed, compressed or not, is read back from the stream,
    which is left at the next frame. *)
Theorem frame_roundtrip m c f rest : MarshalFrame (Some m) c = Ok f →
  (∀ raw, proto_Marshal m = Some raw → Z.of_nat (length (frame_payload raw c)) <= frame_limit) →
  UnmarshalFrame (f ++ rest) = (Ok m, rest).
Proof. apply UnmarshalFrame_MarshalFrame. Qed.
End roundtrip.

(** ** The stack array and the heap slice *)

Lemma insert_prefix {A} (own buf : list A) k : (k + length own <= length buf)%nat →
  foldl (λ b '(i, m), <[i := m]> b) buf (zip (seq k (length own)) own) =
  take k buf ++ own ++ drop (k + length own) buf.
Proof.
  revert buf k. induction own as [|m own IH]; intros buf k Hk; cbn [length seq zip zip_with foldl].
  - rewrite Nat.add_0_r. cbn [app]. by rewrite take_drop.
  - cbn [length] in Hk. rewrite IH by (rewrite length_insert; lia).
    rewrite insert_take_drop by lia.
    rewrite (cons_middle m (take k buf)), !(app_assoc (take k buf) [m]).
    assert (length (take k buf ++ [m]) = S k) as Hl by (rewrite length_app, length_take; simpl; lia).
    rewrite take_app_length' by done. rewrite <- drop_drop, drop_app_length' by done.
    rewrite drop_drop, <- app_assoc. cbn [app]. do 4 f_equal. lia.
Qed.

Lemma with_mods_append {W : Wire} stackBuf own mods :
  length stackBuf = stackModCapacity → (length own <= stackModCapacity)%nat →
  with_mods stackBuf own mods = own ++ mods.
Proof.
  intros Hb Ho. unfold with_mods. destruct (_ <=? stackModCapacity)%nat eqn:E; bools; [|done].
  rewrite (insert_prefix own stackBuf 0) by lia. rewrite take_0, app_nil_l. unfold copy_at.
  rewrite take_app_length, length_app, length_drop, Hb.
  replace (length own + (stackModCapacity - (0 + length own)) - length own)%nat
    with (stackModCapacity - length own)%nat by lia.
  rewrite (take_ge mods) by lia. rewrite app_assoc. rewrite take_app_length'; [done|]. by rewrite length_app.
Qed.

(** The modifier lists of the Protobuf and gRPC-Web calls are the call's own
    modifiers followed by the caller's, whether they are built in the caller's
    stack array, whatever it held, or on the heap. *)
Theorem modifiers_equivalent `{Wire} mime buf msg wmsg mods :
  length buf = stackModCapacity →
  withProtoGetMods mime buf mods = [WithHeader HAccept mime; WithDecoder false] ++ mods ∧
  withProtoPostMods mime buf msg mods =
    [WithBody (default [] (proto_Marshal msg)); WithHeader HContentType mime; WithDecoder false] ++ mods ∧
  withWebPostMods mime buf wmsg mods =
    [WithBody (match MarshalFrame wmsg false with Ok b => b | Err _ => [] end);
     WithHeader HContentType mime; WithDecoder true] ++ mods.
Proof.
  intros Hb. split_and!; apply with_mods_append; try done; unfold stackModCapacity; simpl; lia.
Qed.

(** ** Timeouts *)

(** The duration a receiver reads: a number and a unit. *)
Definition unit_value (u : byte) : option Z :=
  if u =b "n" then Some 1 else if u =b "u" then Some Microsecond else if u =b "m" then Some Millisecond
  else if u =b "S" then Some Second else if u =b "M" then Some Minute else if u =b "H" then Some Hour else None.

Definition read_timeout (s : bytes) : option Z :=
  match last s with
  | Some u =>
      v ← unit_value u;
      match ParseInt (removelast s) with (n, None) => Some (n * v) | _ => None end
  | None => None
  end.

Lemma read_timeout_text n u v : 0 <= n < 2 ^ 63 → unit_value u = Some v → read_timeout (Itoa n ++ [u]) = Some (n * v).
Proof.
  intros Hn Hu. unfold read_timeout. rewrite last_snoc, Hu, removelast_last. cbn [mbind option_bind].
  by rewrite ParseInt_Itoa by lia.
Qed.

(** The timeout header never extends a deadline and keeps more than half of
    it: for a positive duration below 4096 hours the receiver reads a positive
    duration [t] with t <= d < 2 t, from a number of at most eight digits. *)
Theorem timeout_rounds_down d : 0 < d < 4096 * Hour →
  ∃ t n u v, formatGRPCTimeout d = Itoa n ++ [u] ∧ unit_value u = Some v ∧ 0 < n < 10 ^ 8 ∧ t = n * v ∧
    read_timeout (formatGRPCTimeout d) = Some t ∧ t <= d < 2 * t.
Proof.
  intros Hd. unfold formatGRPCTimeout.
  assert (∀ n u v, unit_value u = Some v → 0 < n < 10 ^ 8 → n * v <= d < 2 * (n * v) →
    ∃ t n' u' v', Itoa n ++ [u] = Itoa n' ++ [u'] ∧ unit_value u' = Some v' ∧ 0 < n' < 10 ^ 8 ∧ t = n' * v' ∧
      read_timeout (Itoa n ++ [u]) = Some t ∧ t <= d < 2 * t) as Hx.
  { intros n u v Hu Hn Ht. exists (n * v), n, u, v. split_and!; try done; try lia.
    apply read_timeout_text; [lia|done]. }
  unfold Hour, Minute, Second, Millisecond, Microsecond in *.
  repeat match goal with |- context [if ?x then _ else _] => destruct x eqn:?; bools end; try lia;
    (eapply Hx; [reflexivity|unfold Hour, Minute, Second, Millisecond, Microsecond; Z.div_mod_to_equations; lia..]).
Qed.

(** ** Status messages *)

(** The percent-encoding of the protocol: printable bytes but the percent sign
    stand for themselves. *)
Definition printable (c : byte) : bool := between " " "~" c && negb (c =b "%").
Definition percent_byte (c : byte) : bytes :=
  if printable c then [c] else ["%"%byte; upperhex (bz c / 16); upperhex (bz c mod 16)].
Definition percent_encode (m : bytes) : bytes := concat (map percent_byte m).
Definition plus_to_space (m : bytes) : bytes := map (λ c, if c =b "+" then " "%byte else c) m.

Lemma unescape_percent_byte c t :
  QueryUnescape (percent_byte c ++ t) = cons (if c =b "+" then " "%byte else c) <$> QueryUnescape t.
Proof. by destruct c. Qed.

Lemma unescape_percent m : QueryUnescape (percent_encode m) = Some (plus_to_space m).
Proof.
  unfold percent_encode. induction m as [|c m IH]; [done|]. cbn [map concat].
  by rewrite unescape_percent_byte, IH.
Qed.

Lemma percent_plain m :
  existsb (λ c, (c =b "%") || (c =b "+")) (percent_encode m) = false → percent_encode m = plus_to_space m.
Proof.
  unfold percent_encode, plus_to_space. induction m as [|c m IH]; [done|]. cbn [map concat].
  rewrite existsb_app. intros [Hc Hm]%orb_false_iff. rewrite (IH Hm). clear -Hc. by destruct c.
Qed.

Lemma decode_percent m : decode_message (percent_encode m) = plus_to_space m.
Proof.
  unfold decode_message. destruct (existsb _ _) eqn:E; [by rewrite unescape_percent|by apply percent_plain].
Qed.

(** A percent-encoded status message is decoded but for one change: every plus
    sign of the message becomes a blank. *)
Theorem status_message_decoded m :
  decode_message (percent_encode m) = plus_to_space m ∧
  ("+"%byte ∉ m ↔ decode_message (percent_encode m) = m).
Proof.
  split; [apply decode_percent|]. rewrite decode_percent. unfold plus_to_space.
  induction m as [|c m IH]; [split; [done|intros _; apply not_elem_of_nil]|].
  cbn [map]. rewrite not_elem_of_cons. split.
  - intros [Hc Hm]. rewrite (proj2 (beq_false c "+")) by congruence. f_equal. by apply IH.
  - intros [= Hc Hm]. destruct (c =b "+") eqn:E; bools; [by subst|]. split; [congruence|by apply IH].
Qed.

(** ** Binary headers *)

Lemma b64_graphic e : enc_ok e = true → ∀ s, tight (EncodeToString e s).
Proof.
  intros He s. apply tight_all. eapply Forall_impl; [by apply EncodeToString_bytes|].
  intros c Hc. destruct c; try (vm_compute in Hc; discriminate); done.
Qed.

Lemma decode_raw_padded s b : DecodeString RawStdEncoding (EncodeToString StdEncoding s) = Some b → b = s.
Proof.
  unfold DecodeString. rewrite filter_id.
  2:{ eapply Forall_impl; [by apply EncodeToString_bytes|]. intros c. by destruct c. }
  assert (b64_value RawStdEncoding "=" = None) as Hq by reflexivity.
  revert b. induction s as [|x|x y|x y z s IH] using group_ind; intros b.
  - by intros [= <-].
  - cbn [EncodeToString padding StdEncoding enc_pad replicate decode_groups RawStdEncoding andb].
    unfold group4. rewrite Hq. clear Hq.
    repeat match goal with |- context [b64_value ?e ?c] => destruct (b64_value e c) end;
      cbn [mbind option_bind]; intros ?; discriminate.
  - cbn [EncodeToString padding StdEncoding enc_pad replicate decode_groups RawStdEncoding andb].
    unfold group4. rewrite Hq. clear Hq.
    repeat match goal with |- context [b64_value ?e ?c] => destruct (b64_value e c) end;
      cbn [mbind option_bind]; intros ?; discriminate.
  - cbn [EncodeToString decode_groups].
    pose proof (group4_encode RawStdEncoding RawStdEncoding_ok x y z) as Hg.
    change (b64_char RawStdEncoding) with (b64_char StdEncoding) in Hg. rewrite Hg.
    destruct (EncodeToString StdEncoding s) as [|c t] eqn:E.
    + cbn [enc_pad RawStdEncoding andb]. intros [= <-]. destruct s as [|? [|? [|? ?]]]; simpl in E; done.
    + cbn [mbind option_bind]. destruct (decode_groups RawStdEncoding (c :: t)) as [r|] eqn:Er; [|done].
      cbn [mbind option_bind]. intros [= <-]. by rewrite (IH r eq_refl).
Qed.

(** Binary metadata survives, whether the peer pads its base64 or not. *)
Theorem binary_header_roundtrip b :
  DecodeBinaryHeader (EncodeBinaryHeader b) = Some b ∧
  DecodeBinaryHeader (EncodeToString StdEncoding b) = Some b.
Proof.
  unfold DecodeBinaryHeader, EncodeBinaryHeader. split.
  - rewrite TrimSpace_tight by by apply b64_graphic.
    by rewrite DecodeString_EncodeToString.
  - rewrite TrimSpace_tight by by apply b64_graphic.
    destruct (DecodeString RawStdEncoding _) as [r|] eqn:E; [by rewrite (decode_raw_padded b r E)|].
    by rewrite DecodeString_EncodeToString.
Qed.

(** ** Status errors *)

Section status.
Context `{UnicodeCase}.

Lemma get_ci_found ord h key : Header_Get h key ≠ [] → getHeaderCaseInsensitive ord h key = Header_Get h key.
Proof. intros Hn. unfold getHeaderCaseInsensitive. unfold nonempty. by rewrite (proj2 (bytes_eqb_false _ _) Hn). Qed.

(** Otherwise some entry whose key is the same up to case is found, if any. *)
Lemma get_ci_other ord h key : range_ok ord → Header_Get h key = [] →
  (∃ k v vs, h !! k = Some (v :: vs) ∧ EqualFold k key = true ∧ getHeaderCaseInsensitive ord h key = v) ∨
  ((∀ k v vs, h !! k = Some (v :: vs) → EqualFold k key = false) ∧ getHeaderCaseInsensitive ord h key = []).
Proof.
  intros Ho He. unfold getHeaderCaseInsensitive. rewrite He. cbn [nonempty bytes_eqb negb].
  change (nonempty []) with false. cbv iota.
  destruct (List.find _ (ord h)) as [[k vs]|] eqn:E.
  - apply List.find_some in E as [Hin Hc]. simpl in Hc. bools.
    apply list_elem_of_In in Hin. rewrite (Ho h), elem_of_map_to_list in Hin.
    destruct vs as [|v vs]; [simpl in *; lia|]. left. by exists k, v, vs.
  - right. split; [|done]. intros k v vs Hk. assert (In (k, v :: vs) (ord h)) as Hin.
    { apply list_elem_of_In. rewrite (Ho h). by apply elem_of_map_to_list. }
    apply (List.find_none _ _ E) in Hin. simpl in Hin. by rewrite andb_true_r in Hin.
Qed.

(** The trailers of a failed call, as a server writes them. *)
Definition status_trailers (code : Z) (msg details : bytes) : Header :=
  Header_Set (Header_Set (Header_Set ∅ (str "grpc-status") (Itoa code))
    (str "grpc-message") (percent_encode msg)) (str "grpc-status-details-bin") (EncodeBinaryHeader details).

Lemma status_trailers_get c m d :
  Header_Get (status_trailers c m d) (str "grpc-status") = Itoa c ∧
  Header_Get (status_trailers c m d) (str "grpc-message") = percent_encode m ∧
  Header_Get (status_trailers c m d) (str "grpc-status-details-bin") = EncodeBinaryHeader d.
Proof.
  unfold status_trailers. split_and!.
  - rewrite !Header_Get_Set_ne by (vm_compute; discriminate). apply Header_Get_Set.
  - rewrite Header_Get_Set_ne by (vm_compute; discriminate). apply Header_Get_Set.
  - apply Header_Get_Set.
Qed.

Lemma status_trailers_inv c m d k v vs : status_trailers c m d !! k = Some (v :: vs) →
  k = str "Grpc-Status" ∨ k = str "Grpc-Message" ∧ v = percent_encode m ∨
  k = str "Grpc-Status-Details-Bin" ∧ v = EncodeBinaryHeader d.
Proof.
  unfold status_trailers, Header_Set.
  change (CanonicalHeaderKey (str "grpc-status-details-bin")) with (str "Grpc-Status-Details-Bin").
  change (CanonicalHeaderKey (str "grpc-message")) with (str "Grpc-Message").
  change (CanonicalHeaderKey (str "grpc-status")) with (str "Grpc-Status").
  intros [[<- [= <- _]]|[_ Hk]]%lookup_insert_Some; [tauto|].
  apply lookup_insert_Some in Hk as [[<- [= <- _]]|[_ Hk]]; [tauto|].
  apply lookup_insert_Some in Hk as [[<- _]|[_ Hk]]; [tauto|done].
Qed.

Lemma status_trailers_ci ord c m d : range_ok ord → 0 <= c →
  getHeaderCaseInsensitive ord (status_trailers c m d) (str "grpc-status") = Itoa c ∧
  getHeaderCaseInsensitive ord (status_trailers c m d) (str "grpc-message") = percent_encode m ∧
  getHeaderCaseInsensitive ord (status_trailers c m d) (str "grpc-status-details-bin") = EncodeBinaryHeader d.
Proof.
  intros Ho Hc. destruct (status_trailers_get c m d) as (H1 & H2 & H3).
  assert (∀ key v, Header_Get (status_trailers c m d) key = v →
    (∀ k w vs, status_trailers c m d !! k = Some (w :: vs) → EqualFold k key = true → w = v) →
    getHeaderCaseInsensitive ord (status_trailers c m d) key = v) as Hx.
  { intros key v Hg Hu. destruct (decide (v = [])) as [->|Hne].
    - destruct (get_ci_other ord _ key Ho Hg) as [(k & w & vs & Hk & He & ->)|[_ ->]]; [by eapply Hu|done].
    - rewrite get_ci_found by congruence. done. }
  split_and!.
  - rewrite get_ci_found; [done|]. rewrite H1. unfold Itoa. destruct (c <? 0) eqn:E; bools; [lia|].
    by apply digits_spec.
  - apply Hx; [done|]. intros k w vs Hk He. apply status_trailers_inv in Hk as [->|[[-> ->]|[-> ->]]]; [|done|];
      vm_compute in He; discriminate.
  - apply Hx; [done|]. intros k w vs Hk He. apply status_trailers_inv in Hk as [->|[[-> ->]|[-> ->]]]; [| |done];
      vm_compute in He; discriminate.
Qed.

Lemma parse_status_trailers ord code msg details : range_ok ord → 0 <= code < 2 ^ 32 →
  parseGRPCStatus ord (status_trailers code msg details) =
  {| se_Code := code; se_Message := plus_to_space msg; se_RawDetails := details;
     se_Header := ∅; se_Trailer := status_trailers code msg details |}.
Proof.
  intros Ho Hc. destruct (status_trailers_ci ord code msg details Ho) as (H1 & H2 & H3); [lia|].
  unfold parseGRPCStatus. rewrite H1, H2, H3. cbv zeta. rewrite decode_percent.
  unfold Itoa. destruct (code <? 0) eqn:E; bools; [lia|]. rewrite ParseUint_digits by done. f_equal.
  destruct (nonempty (EncodeBinaryHeader details)) eqn:En.
  - unfold DecodeBinaryHeader, EncodeBinaryHeader. rewrite TrimSpace_tight by by apply b64_graphic.
    by rewrite DecodeString_EncodeToString.
  - unfold nonempty in En. bools. destruct details as [|x [|y [|z d]]]; simpl in En; done.
Qed.
(** The status a server sends in its trailers is the error the client reports:
    the code, the details, and the message with its plus signs blanked. *)
Theorem status_from_trailers ord code msg details : range_ok ord → 0 <= code < 2 ^ 32 →
  parseGRPCStatus ord (status_trailers code msg details) =
  {| se_Code := code; se_Message := plus_to_space msg; se_RawDetails := details;
     se_Header := ∅; se_Trailer := status_trailers code msg details |}.
Proof. apply parse_status_trailers. Qed.
End status.

(** ** A concrete wire: messages are byte strings *)

Module Plain.
Definition parse_frame (r : bytes) : result grpc_error (Z * bytes) * bytes :=
  match r with
  | [] => (Err EOF, [])
  | f :: rest =>
      match of_be32 rest with
      | None => (Err ErrUnexpectedEOF, [])
      | Some n =>
          let body := drop 4 rest in
          if Z.of_nat (length body) <? n then (Err ErrUnexpectedEOF, [])
          else (Ok (bz f, take (Z.to_nat n) body), drop (Z.to_nat n) body)
      end
  end.

Definition wire : Wire := {|
  message := bytes;
  proto_Size := λ m, Z.of_nat (length m);
  proto_Marshal := Some;
  proto_Unmarshal := Some;
  gzip_Compress := @rev byte;
  gzip_Decompress := λ b, Some (rev b);
  frame_limit := 2 ^ 31;
  ReadFrame := parse_frame
|}.

Lemma parse_frame_whole f p rest : 0 <= f < 256 → Z.of_nat (length p) <= 2 ^ 31 →
  parse_frame (zb f :: be32 (Z.of_nat (length p)) ++ p ++ rest) = (Ok (f, p), rest).
Proof.
  intros Hf Hp. unfold parse_frame. rewrite of_be32_be32, Z.mod_small by lia.
  change (drop 4 (be32 (Z.of_nat (length p)) ++ p ++ rest)) with (p ++ rest).
  rewrite length_app. destruct (_ <? _) eqn:E; bools; [lia|].
  rewrite Nat2Z.id, take_app_exact, drop_app_exact, bz_zb_small by done. done.
Qed.

Lemma parse_frame_cut f p k : 0 <= f < 256 → Z.of_nat (length p) <= 2 ^ 31 → (0 < k < 5 + length p)%nat →
  (parse_frame (take k (zb f :: be32 (Z.of_nat (length p)) ++ p))).1 = Err ErrUnexpectedEOF.
Proof.
  intros Hf Hp Hk. destruct k as [|k]; [lia|]. cbn [take parse_frame].
  change (take (S k) (zb f :: be32 (Z.of_nat (length p)) ++ p)) with
    (zb f :: take k (be32 (Z.of_nat (length p)) ++ p)). unfold parse_frame.
  destruct (decide (k < 4)%nat) as [Hl|Hl].
  - replace (of_be32 (take k (be32 (Z.of_nat (length p)) ++ p))) with (@None Z); [done|].
    destruct k as [|[|[|[|k]]]]; [done..|lia].
  - replace k with (4 + (k - 4))%nat by lia.
    change (take (4 + (k - 4)) (be32 (Z.of_nat (length p)) ++ p)) with
      (be32 (Z.of_nat (length p)) ++ take (k - 4) p).
    rewrite of_be32_be32, Z.mod_small by lia.
    change (drop 4 (be32 (Z.of_nat (length p)) ++ take (k - 4) p)) with (take (k - 4) p).
    rewrite length_take. destruct (_ <? _) eqn:E; bools; [done|lia].
Qed.

#[export] Instance wire_laws : @WireLaws wire.
Proof.
  split.
  - by intros m b [= <-].
  - done.
  - intros b. cbn. by rewrite rev_involutive.
  - done.
  - intros f p rest Hf Hp. by apply parse_frame_whole.
  - done.
  - intros f p k Hf Hp Hk. by apply parse_frame_cut.
Qed.

#[local] Existing Instance wire.
#[local] Existing Instance ascii_case.

Lemma frame_roundtrip_witness :
  UnmarshalFrame (x01 :: be32 3 ++ str "tuo" ++ str "next") = (Ok (str "out"), str "next").
Proof.
  apply (@frame_roundtrip wire wire_laws (str "out") true (x01 :: be32 3 ++ str "tuo") (str "next")); [done|].
  intros raw [= <-]. vm_compute. congruence.
Defined.

Lemma modifiers_equivalent_witness :
  withWebPostMods (str "m") (replicate 16 (UserMod 9)) None [UserMod 1] =
  [WithBody emptyGRPCFrame; WithHeader HContentType (str "m"); WithDecoder true; UserMod 1].
Proof. apply (@modifiers_equivalent wire (str "m") (replicate 16 (UserMod 9)) (str "x") None [UserMod 1]). reflexivity. Defined.

(** A deadline of 119 seconds is announced as one minute. *)
Lemma timeout_rounds_down_witness : ∃ t, read_timeout (formatGRPCTimeout (119 * Second)) = Some t ∧ t = Minute.
Proof.
  destruct (timeout_rounds_down (119 * Second)) as (t & n & u & v & _ & _ & _ & _ & Hr & Ht);
    [vm_compute; split; congruence|].
  exists t. split; [exact Hr|]. vm_compute in Hr. by injection Hr as <-.
Defined.

Lemma status_from_trailers_witness :
  se_Message (parseGRPCStatus map_to_list (status_trailers 13 (str "1+1") [])) = str "1 1".
Proof. rewrite (status_from_trailers map_to_list 13); [reflexivity|by intros h|lia]. Defined.
End Plain.
