(* ===== verification/GrpcClient.v ===== *)
(** * The gRPC client (src/grpc/client.go, dynamic.go and the calls of proto.go)

    Unary calls, server streams, bidirectional streams and dynamic calls over a
    transport that is an argument: it answers a path and a list of modifiers. *)

From S2P Require Import Prelude GoLib GoText GoURL GrpcWire.

#[local] Open Scope Z_scope.

(** ** The transport *)

(** A response body: its bytes, and whether reading past them fails instead of
    reaching the end. *)
Record stream := { s_data : bytes; s_fails : bool }.

(** The trailers are those present once the body has been read. *)
Record response := {
  hr_StatusCode : Z;
  hr_Status : bytes;
  hr_Header : Header;
  hr_Trailer : Header;
  hr_Body : stream
}.

(** The deadline of a context, as the time left, and its metadata. *)
Record context := { ctx_left : option Z; ctx_metadata : option (list (bytes * bytes)) }.

(** Constants of the mach header package, and [pathkit]'s URL test. *)
Class Consts := {
  MIMEApplicationGRPC : bytes;
  ContentType : bytes;
  GRPCStatus : bytes;
  ValueTrailers : bytes;
  gzip_identity : bytes;
  IsURL : bytes → bool
}.

Section client.
Context `{Wire} `{UnicodeCase} `{Consts}.

Definition doer : Type := bytes → list modifier → result grpc_error response.

Definition normalizeMethodPath (fullMethod : bytes) : bytes :=
  if negb (HasPrefix fullMethod (str "/")) && negb (IsURL fullMethod) then str "/" ++ fullMethod else fullMethod.

Definition timeout_mods (ctx : context) : list modifier :=
  match ctx_left ctx with Some d => [WithHeader HTimeout (formatTimeout d)] | None => [] end.
Definition metadata_mods (ctx : context) : list modifier :=
  match ctx_metadata ctx with
  | Some ((_ :: _) as md) => [WithMetadata md]
  | _ => []
  end.

Definition prepareGRPCModifiers (ctx : context) (frameBytes : bytes) (isStreaming : bool) (mods : list modifier) :
    list modifier :=
  [WithContentType MIMEApplicationGRPC; WithHeader HTE ValueTrailers;
   WithHeader HUserAgent (str "grpc-aoni/1.0"); WithBody frameBytes] ++
  (if isStreaming then [WithHeader HAcceptEncoding gzip_identity] else []) ++
  timeout_mods ctx ++ metadata_mods ctx ++ mods.

Definition prepareGRPCStreamModifiers (ctx : context) (mods : list modifier) : list modifier :=
  [WithContentType MIMEApplicationGRPC; WithHeader HTE ValueTrailers;
   WithHeader HUserAgent (str "grpc-aoni/1.0"); WithHeader HAcceptEncoding gzip_identity; WithPipeBody] ++
  timeout_mods ctx ++ metadata_mods ctx ++ mods.

(** ** Validation of responses *)

Definition validateInitialHeaders (ord : range_order) (resp : response) : result grpc_error unit :=
  if negb (hr_StatusCode resp =? 200) then
    Err (ErrStatus {| se_Code := StatusUnknown; se_Message := str "non-200 HTTP status: " ++ hr_Status resp;
                      se_RawDetails := []; se_Header := ∅; se_Trailer := ∅ |})
  else
    let ct := Header_Get (hr_Header resp) ContentType in
    if nonempty ct && negb (HasPrefix ct MIMEApplicationGRPC) then Err ErrInvalidContentType
    else
      let statusCode := Header_Get (hr_Header resp) GRPCStatus in
      if nonempty statusCode && negb (bytes_eqb statusCode (str "0"))
      then Err (ErrStatus (parseGRPCStatus ord (hr_Header resp)))
      else Ok ().

Definition validateResponseTrailers (ord : range_order) (resp : response) : result grpc_error unit :=
  let inTrailers := getHeaderCaseInsensitive ord (hr_Trailer resp) GRPCStatus in
  let '(trailers, statusCode) :=
    if nonempty inTrailers then (hr_Trailer resp, inTrailers)
    else (hr_Header resp, getHeaderCaseInsensitive ord (hr_Header resp) GRPCStatus) in
  if bytes_eqb statusCode [] then Err ErrMissingGRPCStatus
  else if negb (bytes_eqb statusCode (str "0")) then Err (ErrStatus (parseGRPCStatus ord trailers))
  else Ok ().

(** ** Unary calls *)

(** A frame from a body: reading past a failing body is an error of the frame. *)
Definition recv_frame (st : stream) : result grpc_error message * stream :=
  let '(res, rest) := UnmarshalFrame (s_data st) in
  let st' := {| s_data := rest; s_fails := s_fails st |} in
  match res with
  | Err EOF | Err ErrUnexpectedEOF => if s_fails st then (Err ErrInvalidGRPCFrame, st') else (res, st')
  | _ => (res, st')
  end.

(** [Invoke] and [InvokeInto] differ in who allocates the message; the type
    argument of [Invoke] is a message type. *)
Definition InvokeInto (ord : range_order) (ctx : context) (d : doer) (fullMethod : bytes)
    (reqMsg : option message) (mods : list modifier) : result grpc_error message :=
  frameBytes ← MarshalFrame reqMsg false;
  resp ← d (normalizeMethodPath fullMethod) (prepareGRPCModifiers ctx frameBytes false mods);
  _ ← validateInitialHeaders ord resp;
  let '(res, st) := recv_frame (hr_Body resp) in
  m ← res;
  _ ← (if s_fails st then Err ErrDrain else Ok ());
  _ ← validateResponseTrailers ord resp;
  Ok m.
(** [Invoke] differs in allocating the message it returns. *)
Definition Invoke := InvokeInto.

(** ** Server streams *)

Record StreamResponse := { sr_stream : stream; sr_resp : response }.

Definition ServerStream (ord : range_order) (ctx : context) (d : doer) (fullMethod : bytes)
    (reqMsg : option message) (mods : list modifier) : result grpc_error StreamResponse :=
  frameBytes ← MarshalFrame reqMsg false;
  resp ← d (normalizeMethodPath fullMethod) (prepareGRPCModifiers ctx frameBytes true mods);
  _ ← validateInitialHeaders ord resp;
  Ok {| sr_stream := hr_Body resp; sr_resp := resp |}.

(** The end of a stream: what the trailers say. *)
Definition end_of_stream (ord : range_order) (resp : response) : grpc_error :=
  match validateResponseTrailers ord resp with Err e => e | Ok _ => EOF end.

Definition Recv (ord : range_order) (s : StreamResponse) : result grpc_error message * StreamResponse :=
  let '(res, st) := recv_frame (sr_stream s) in
  let s' := {| sr_stream := st; sr_resp := sr_resp s |} in
  match res with
  | Err EOF | Err ErrUnexpectedEOF => (Err (end_of_stream ord (sr_resp s)), s')
  | _ => (res, s')
  end.

Definition Stream_Header (s : StreamResponse) : Header := hr_Header (sr_resp s).
Definition Stream_Trailer (s : StreamResponse) : Header :=
  if bool_decide (hr_Trailer (sr_resp s) = ∅) then hr_Header (sr_resp s) else hr_Trailer (sr_resp s).

(** ** Bidirectional streams *)

Record BidiStreamClient := {
  b_written : bytes;              (* the bytes the request body has read from the pipe *)
  b_pipeClosed : bool;            (* the writing end of the pipe is closed *)
  b_readErr : option grpc_error;  (* the error the reading end was closed with *)
  b_once : bool;                  (* connectedOnce has run *)
  b_connectErr : option grpc_error;
  b_conn : option (stream * response);
  b_closedSend : bool;
  b_closed : bool;
  b_cancelled : bool;
  b_bodyClosed : bool
}.

(** [BidiStream]: the request runs in a goroutine of its own. *)
Definition BidiStream : BidiStreamClient :=
  {| b_written := []; b_pipeClosed := false; b_readErr := None; b_once := false; b_connectErr := None; b_conn := None;
     b_closedSend := false; b_closed := false; b_cancelled := false; b_bodyClosed := false |}.

(** [ensureConnected]: [res] is what the channel delivers to the one caller that
    runs the body of the [sync.Once]. *)
Definition ensureConnected (ord : range_order) (res : result grpc_error response) (s : BidiStreamClient) :
    option grpc_error * BidiStreamClient :=
  if b_once s then (b_connectErr s, s)
  else
    let '(err, conn) :=
      match res with
      | Err e => (Some e, None)
      | Ok resp =>
          match validateInitialHeaders ord resp with
          | Err e => (Some e, None)
          | Ok _ => (None, Some (hr_Body resp, resp))
          end
      end in
    (err, {| b_written := b_written s; b_pipeClosed := b_pipeClosed s; b_readErr := b_readErr s; b_once := true; b_connectErr := err;
             b_conn := conn; b_closedSend := b_closedSend s; b_closed := b_closed s;
             b_cancelled := b_cancelled s; b_bodyClosed := b_bodyClosed s |}).

Definition set_written (w : bytes) (s : BidiStreamClient) : BidiStreamClient :=
  {| b_written := w; b_pipeClosed := b_pipeClosed s; b_readErr := b_readErr s; b_once := b_once s; b_connectErr := b_connectErr s;
     b_conn := b_conn s; b_closedSend := b_closedSend s; b_closed := b_closed s;
     b_cancelled := b_cancelled s; b_bodyClosed := b_bodyClosed s |}.

Definition CloseSend (s : BidiStreamClient) : BidiStreamClient :=
  if b_closedSend s then s
  else {| b_written := b_written s; b_pipeClosed := true; b_readErr := b_readErr s; b_once := b_once s; b_connectErr := b_connectErr s;
          b_conn := b_conn s; b_closedSend := true; b_closed := b_closed s; b_cancelled := b_cancelled s;
          b_bodyClosed := b_bodyClosed s |}.

Definition Bidi_Close (s : BidiStreamClient) : BidiStreamClient :=
  if b_closed s then s
  else {| b_written := b_written s; b_pipeClosed := true; b_readErr := b_readErr s; b_once := b_once s; b_connectErr := b_connectErr s;
          b_conn := b_conn s; b_closedSend := true; b_closed := true; b_cancelled := true;
          b_bodyClosed := b_bodyClosed s || bool_decide (is_Some (b_conn s)) |}.

(** ** The pipe of the request body

    [io.Pipe]: the transport reads what [Send] writes, in pieces. The first error
    with which the reading end is closed stays, and a write to a pipe that is closed
    at either end fails; the closed writing end is reported first. *)
Definition close_reader (e : grpc_error) (s : BidiStreamClient) : BidiStreamClient :=
  {| b_written := b_written s; b_pipeClosed := b_pipeClosed s; b_readErr := Some (default e (b_readErr s));
     b_once := b_once s; b_connectErr := b_connectErr s; b_conn := b_conn s; b_closedSend := b_closedSend s;
     b_closed := b_closed s; b_cancelled := b_cancelled s; b_bodyClosed := b_bodyClosed s |}.

Definition pipe_error (s : BidiStreamClient) : option grpc_error :=
  if b_pipeClosed s then Some ErrClosedPipe else b_readErr s.

(** What can end a write under way: the transport drops the body, or another
    goroutine calls [CloseSend] or [Close], which take no lock. *)
Inductive interruption := ReaderCloses (e : grpc_error) | CloseSendMeanwhile | CloseMeanwhile.

Definition interrupt (i : interruption) (s : BidiStreamClient) : BidiStreamClient :=
  match i with ReaderCloses e => close_reader e s | CloseSendMeanwhile => CloseSend s | CloseMeanwhile => Bidi_Close s end.

(** [PipeWriter.Write]: [cut] says that the pipe is closed when the first [n] bytes
    have been read; a write that was read in full is over by then. *)
Definition pipe_write (b : bytes) (cut : option (nat * interruption)) (s : BidiStreamClient) :
    option grpc_error * BidiStreamClient :=
  match pipe_error s, cut with
  | Some e, _ => (Some e, s)
  | None, Some (n, i) =>
      if (n <? length b)%nat
      then let s' := interrupt i (set_written (b_written s ++ take n b) s) in (pipe_error s', s')
      else (None, set_written (b_written s ++ b) s)
  | None, None => (None, set_written (b_written s ++ b) s)
  end.

(** [Send]; [res] is what a handshake that is still awaited delivers. *)
Definition Send (ord : range_order) (res : result grpc_error response) (cut : option (nat * interruption))
    (msg : message) (s : BidiStreamClient) : result grpc_error unit * BidiStreamClient :=
  if b_closed s then (Err ErrStreamClosed, s)
  else if b_closedSend s then (Err ErrSendClosed, s)
  else match MarshalFrame (Some msg) false with
       | Err e => (Err e, s)
       | Ok frameBytes =>
           match pipe_write frameBytes cut s with
           | (None, s) => (Ok (), s)
           | (Some ErrClosedPipe, s) =>
               let '(connErr, s) := ensureConnected ord res s in
               (Err (default ErrClosedPipe connErr), s)
           | (Some e, s) => (Err e, s)
           end
       end.

Definition set_conn (c : option (stream * response)) (s : BidiStreamClient) : BidiStreamClient :=
  {| b_written := b_written s; b_pipeClosed := b_pipeClosed s; b_readErr := b_readErr s; b_once := b_once s; b_connectErr := b_connectErr s;
     b_conn := c; b_closedSend := b_closedSend s; b_closed := b_closed s;
     b_cancelled := b_cancelled s; b_bodyClosed := b_bodyClosed s |}.

Definition Bidi_Recv (ord : range_order) (res : result grpc_error response) (s : BidiStreamClient) :
    result grpc_error message * BidiStreamClient :=
  if b_closed s then (Err ErrStreamClosed, s)
  else
    let '(connErr, s) := ensureConnected ord res s in
    match connErr, b_conn s with
    | Some e, _ => (Err e, s)
    | None, None => (Err ErrStreamClosed, s) (* not reached: connected without error *)
    | None, Some (st, resp) =>
        let '(r, s') := Recv ord {| sr_stream := st; sr_resp := resp |} in
        (r, set_conn (Some (sr_stream s', resp)) s)
    end.

(** [ClientStreamClient.CloseAndRecv]: the deferred close runs after the read. *)
Definition CloseAndRecv (ord : range_order) (res : result grpc_error response) (s : BidiStreamClient) :
    result grpc_error message * BidiStreamClient :=
  let '(r, s') := Bidi_Recv ord res (CloseSend s) in
  (r, Bidi_Close s').

(** ** Dynamic calls (dynamic.go) *)

(** JSON to and from messages, guided by descriptors. *)
Definition InvokeJSON (fromJSON : bytes → option message) (toJSON : message → option bytes) (empty : message)
    (ctx : context) (d : doer) (descriptors : bool) (fullMethod reqJSON : bytes) (mods : list modifier) :
    result grpc_error bytes :=
  if negb descriptors then Err ErrDescriptors
  else
    match (if nonempty (TrimSpace reqJSON) then fromJSON reqJSON else Some empty) with
    | None => Err ErrJSON
    | Some reqMsg =>
        frameBytes ← MarshalFrame (Some reqMsg) false;
        let path := if negb (HasPrefix fullMethod (str "/")) && negb (HasPrefix fullMethod (str "http://")) &&
                       negb (HasPrefix fullMethod (str "https://"))
                    then str "/" ++ fullMethod else fullMethod in
        resp ← d path ([WithContentType (str "application/grpc"); WithHeader HTE (str "trailers");
                        WithHeader HUserAgent (str "grpc-aoni/1.0"); WithBody frameBytes] ++
                       timeout_mods ctx ++ mods);
        m ← (recv_frame (hr_Body resp)).1;
        match toJSON m with None => Err ErrJSON | Some j => Ok j end
    end.

(** ** Protobuf over HTTP (proto.go)

    The decoders of the aoni module are arguments. *)
Definition ProtoGet (mime : bytes) (decode : stream → result grpc_error message)
    (d : doer) (path : bytes) (buf mods : list modifier) : result grpc_error message :=
  resp ← d path (withProtoGetMods mime buf mods); decode (hr_Body resp).
Definition ProtoPost (mime : bytes) (decode : stream → result grpc_error message)
    (d : doer) (path : bytes) (msg : message) (buf mods : list modifier) : result grpc_error message :=
  resp ← d path (withProtoPostMods mime buf msg mods); decode (hr_Body resp).
Definition WebPost (mime : bytes) (decode : stream → result grpc_error message)
    (d : doer) (path : bytes) (msg : option message) (buf mods : list modifier) : result grpc_error message :=
  resp ← d path (withWebPostMods mime buf msg mods); decode (hr_Body resp).
End client.

Class ConstsLaws `{Consts} : Prop := {
  GRPCStatus_key : CanonicalHeaderKey GRPCStatus = str "Grpc-Status"
}.

Section theorems.
Context `{WireLaws} `{UnicodeCase} `{ConstsLaws}.

(** ** Unary calls *)

(** The size of a message is within the framer's limit. *)
Definition fits (m : message) (c : bool) : Prop :=
  ∀ raw, proto_Marshal m = Some raw → Z.of_nat (length (frame_payload raw c)) <= frame_limit.

Lemma recv_frame_ok m c f rest b : MarshalFrame (Some m) c = Ok f → fits m c →
  recv_frame {| s_data := f ++ rest; s_fails := b |} = (Ok m, {| s_data := rest; s_fails := b |}).
Proof.
  intros Hf Hl. unfold recv_frame. cbn [s_data s_fails].
  by rewrite (UnmarshalFrame_MarshalFrame m c f rest Hf Hl).
Qed.

Lemma recv_frame_end b :
  recv_frame {| s_data := []; s_fails := b |} =
  (Err (if b then ErrInvalidGRPCFrame else EOF), {| s_data := []; s_fails := b |}).
Proof. unfold recv_frame, UnmarshalFrame. cbn [s_data s_fails]. rewrite ReadFrame_empty. by destruct b. Qed.

(** The headers of a response that goes on to a body. *)
Definition open_response (resp : response) : Prop :=
  hr_StatusCode resp = 200 ∧
  (Header_Get (hr_Header resp) ContentType = [] ∨
   HasPrefix (Header_Get (hr_Header resp) ContentType) MIMEApplicationGRPC = true) ∧
  Header_Get (hr_Header resp) GRPCStatus = [].

Lemma validate_open ord resp : open_response resp → validateInitialHeaders ord resp = Ok ().
Proof.
  intros (Hs & Hct & Hg). unfold validateInitialHeaders. rewrite Hs, Hg. cbn [negb].
  destruct Hct as [->| ->]; [done|]. by rewrite andb_false_r.
Qed.

Lemma status_key_get h : Header_Get h GRPCStatus = Header_Get h (str "grpc-status").
Proof. unfold Header_Get. by rewrite GRPCStatus_key. Qed.

Lemma digits_0 c : 0 <= c → digits c = str "0" → c = 0.
Proof. intros Hc Hd. destruct (digits_spec c Hc) as [Hv _]. by rewrite Hd in Hv. Qed.

Lemma validate_status ord resp code msg details : range_ok ord → 0 <= code < 2 ^ 32 →
  hr_Trailer resp = status_trailers code msg details →
  validateResponseTrailers ord resp =
  if code =? 0 then Ok ()
  else Err (ErrStatus (parseGRPCStatus ord (status_trailers code msg details))).
Proof.
  intros Ho Hc Ht. unfold validateResponseTrailers. rewrite Ht.
  assert (getHeaderCaseInsensitive ord (status_trailers code msg details) GRPCStatus = digits code) as ->.
  { destruct (status_trailers_get code msg details) as [Hg _].
    assert (Itoa code = digits code) as Hi by (unfold Itoa; destruct (code <? 0) eqn:E; bools; [lia|done]).
    rewrite get_ci_found; rewrite status_key_get, Hg, Hi; [done|]. apply digits_spec. lia. }
  destruct (digits_spec code) as (_ & _ & Hne); [lia|].
  unfold nonempty. rewrite (proj2 (bytes_eqb_false _ _) Hne). cbn [negb].
  rewrite (proj2 (bytes_eqb_false _ _) Hne). destruct (code =? 0) eqn:E; bools; [by subst|].
  rewrite (proj2 (bytes_eqb_false _ _)); [done|]. intros Hd. apply digits_0 in Hd; lia.
Qed.

(** C37: a unary call returns the message of the response exactly when the status
    of the trailers is zero, and otherwise that status as an error; the request
    is the framed message under the normalized path. *)
Theorem unary_call ord ctx d method req reqf mods resp m c f tail code msg details :
  range_ok ord → 0 <= code < 2 ^ 32 → MarshalFrame req false = Ok reqf →
  d (normalizeMethodPath method) (prepareGRPCModifiers ctx reqf false mods) = Ok resp →
  open_response resp → MarshalFrame (Some m) c = Ok f → fits m c →
  hr_Body resp = {| s_data := f ++ tail; s_fails := false |} →
  hr_Trailer resp = status_trailers code msg details →
  InvokeInto ord ctx d method req mods =
  if code =? 0 then Ok m
  else Err (ErrStatus {| se_Code := code; se_Message := plus_to_space msg; se_RawDetails := details;
                         se_Header := ∅; se_Trailer := status_trailers code msg details |}).
Proof.
  intros Ho Hc Hq Hd Hop Hf Hl Hb Ht. unfold InvokeInto. rewrite Hq. cbn [mbind result_bind].
  rewrite Hd. cbn [mbind result_bind]. rewrite (validate_open ord resp Hop). cbn [mbind result_bind].
  rewrite Hb, (recv_frame_ok m c f tail false Hf Hl). cbn [mbind result_bind s_fails].
  rewrite (validate_status ord resp code msg details) by done. destruct (code =? 0); [done|].
  cbn [mbind result_bind]. by rewrite parse_status_trailers.
Qed.

(** C38: a response without a message hides its status: whatever the trailers say,
    a unary call reports the end of the stream, while the same response read as a
    stream reports the status. *)
Theorem empty_response_masks_status ord ctx d method req reqf mods resp :
  MarshalFrame req false = Ok reqf →
  d (normalizeMethodPath method) (prepareGRPCModifiers ctx reqf false mods) = Ok resp →
  open_response resp → hr_Body resp = {| s_data := []; s_fails := false |} →
  InvokeInto ord ctx d method req mods = Err EOF ∧
  (Recv ord {| sr_stream := hr_Body resp; sr_resp := resp |}).1 = Err (end_of_stream ord resp).
Proof.
  intros Hq Hd Hop Hb. split.
  - unfold InvokeInto. rewrite Hq. cbn [mbind result_bind]. rewrite Hd. cbn [mbind result_bind].
    rewrite (validate_open ord resp Hop). cbn [mbind result_bind]. by rewrite Hb, recv_frame_end.
  - unfold Recv. cbn [sr_stream sr_resp]. by rewrite Hb, recv_frame_end.
Qed.

(** ** Server streams *)

Fixpoint recv_all (ord : range_order) (fuel : nat) (s : StreamResponse) : list message * option grpc_error :=
  match fuel with
  | O => ([], None)
  | S fuel' =>
      match Recv ord s with
      | (Ok m, s') => let '(ms, e) := recv_all ord fuel' s' in (m :: ms, e)
      | (Err e, _) => ([], Some e)
      end
  end.

(** The frames of a list of messages, each compressed or not. *)
Fixpoint frames_of (ms : list (message * bool)) : result grpc_error bytes :=
  match ms with
  | [] => Ok []
  | (m, c) :: ms' => f ← MarshalFrame (Some m) c; t ← frames_of ms'; Ok (f ++ t)
  end.

(** C39: reading a server stream to its end gives every message the server framed,
    in order, and then what the trailers say; one more call than there are
    messages reaches the end. *)
Theorem stream_delivers_all ord resp ms data :
  frames_of ms = Ok data → Forall (λ mc, fits mc.1 mc.2) ms →
  recv_all ord (S (length ms)) {| sr_stream := {| s_data := data; s_fails := false |}; sr_resp := resp |} =
  (map fst ms, Some (end_of_stream ord resp)).
Proof.
  revert data. induction ms as [|[m c] ms IH]; intros data Hd Hf.
  - injection Hd as <-. cbn [length recv_all Recv sr_stream sr_resp]. unfold Recv. cbn [sr_stream sr_resp].
    by rewrite recv_frame_end.
  - cbn [frames_of] in Hd. destruct (MarshalFrame (Some m) c) as [f|] eqn:Ef; [|done].
    cbn [mbind result_bind] in Hd. destruct (frames_of ms) as [t|] eqn:Et; [|done].
    injection Hd as <-. apply Forall_cons in Hf as [Hm Hf].
    cbn [length]. cbn [recv_all]. unfold Recv at 1. cbn [sr_stream sr_resp].
    rewrite (recv_frame_ok m c f t false Ef Hm). cbn [recv_all] in IH. rewrite (IH t eq_refl Hf). done.
Qed.

(** A stream that is cut off inside a frame ends like a complete one when the
    trailers say success. *)
Theorem truncated_stream_is_EOF ord resp m c f k :
  MarshalFrame (Some m) c = Ok f → fits m c → (0 < k < length f)%nat →
  validateResponseTrailers ord resp = Ok () →
  (Recv ord {| sr_stream := {| s_data := take k f; s_fails := false |}; sr_resp := resp |}).1 = Err EOF.
Proof.
  intros Hf Hl Hk Hv. destruct (MarshalFrame_text m c f Hf) as (raw & Hm & ->).
  unfold Recv, recv_frame, UnmarshalFrame. cbn [sr_stream sr_resp s_data s_fails].
  pose proof (ReadFrame_cut (if c then 1 else 0) (frame_payload raw c) k) as Hr.
  replace (zb (if c then 1 else 0)) with (if c then x01 else x00) in Hr by by destruct c.
  rewrite length_cons, length_app in Hk. change (length (be32 _)) with 4%nat in Hk.
  specialize (Hr ltac:(destruct c; lia) (Hl raw Hm) ltac:(lia)).
  destruct (ReadFrame (take k _)) as [r rest]. simpl in Hr. subst r. unfold end_of_stream. by rewrite Hv.
Qed.

(** ** Bidirectional streams *)

Inductive bidi_op :=
| OpSend (msg : message) (cut : option (nat * interruption)) (res : result grpc_error response)
| OpReaderCloses (e : grpc_error)
| OpCloseSend
| OpRecv (res : result grpc_error response)
| OpClose
| OpCloseAndRecv (res : result grpc_error response).

(** A client with the messages whose [Send] succeeded, and those whose [Send]
    failed. *)
Record history := { h_client : BidiStreamClient; h_sent : list message; h_failed : list message }.

Definition with_client (s : BidiStreamClient) (h : history) : history :=
  {| h_client := s; h_sent := h_sent h; h_failed := h_failed h |}.

Definition bidi_step (ord : range_order) (h : history) (op : bidi_op) : history :=
  let s := h_client h in
  match op with
  | OpSend msg cut res =>
      match Send ord res cut msg s with
      | (Ok _, s') => {| h_client := s'; h_sent := h_sent h ++ [msg]; h_failed := h_failed h |}
      | (Err _, s') => {| h_client := s'; h_sent := h_sent h; h_failed := h_failed h ++ [msg] |}
      end
  | OpReaderCloses e => with_client (close_reader e s) h
  | OpCloseSend => with_client (CloseSend s) h
  | OpRecv res => with_client (Bidi_Recv ord res s).2 h
  | OpClose => with_client (Bidi_Close s) h
  | OpCloseAndRecv res => with_client (CloseAndRecv ord res s).2 h
  end.

(** The body: the frames of the messages that were sent, then, if the pipe is
    closed, a part of the frame of a message whose [Send] failed. *)
Definition body_of (sent failed : list message) (closed : bool) (body : bytes) : Prop :=
  ∃ whole piece, body = whole ++ piece ∧ frames_of (map (λ m, (m, false)) sent) = Ok whole ∧
    (piece = [] ∨ closed = true ∧ ∃ m f n, m ∈ failed ∧ MarshalFrame (Some m) false = Ok f ∧
                    (n < length f)%nat ∧ piece = take n f).

Definition pipe_closed (s : BidiStreamClient) : bool := bool_decide (is_Some (pipe_error s)).

(** What holds of the connection and the flags of a client. *)
Record bidi_ok (s : BidiStreamClient) : Prop := {
  bi_closed : b_closed s = true → b_closedSend s = true ∧ b_cancelled s = true;
  bi_pipe : b_pipeClosed s = b_closedSend s;
  bi_once : b_once s = false → b_connectErr s = None ∧ b_conn s = None;
  bi_conn : b_once s = true → (b_connectErr s = None ↔ is_Some (b_conn s));
  bi_body : b_bodyClosed s = true → b_closed s = true ∧ is_Some (b_conn s)
}.

Record bidi_inv (h : history) : Prop := {
  bi_ok : bidi_ok (h_client h);
  bi_written : body_of (h_sent h) (h_failed h) (pipe_closed (h_client h)) (b_written (h_client h))
}.

Lemma frames_of_app ms f m : frames_of (map (λ m, (m, false)) ms) = Ok f →
  ∀ g, MarshalFrame (Some m) false = Ok g → frames_of (map (λ m, (m, false)) (ms ++ [m])) = Ok (f ++ g).
Proof.
  revert f. induction ms as [|x ms IH]; intros f Hf g Hg.
  - injection Hf as <-. cbn [map app frames_of]. rewrite Hg. cbn [mbind result_bind]. by rewrite app_nil_r.
  - cbn [map app frames_of] in *. destruct (MarshalFrame (Some x) false) as [h|]; [|done].
    cbn [mbind result_bind] in *. destruct (frames_of (map _ ms)) as [t|] eqn:Et; [|done].
    cbn [mbind result_bind] in *. injection Hf as <-. rewrite (IH t eq_refl g Hg). cbn [mbind result_bind].
    by rewrite app_assoc.
Qed.

(** An operation that leaves the pipe as it is or closes it, and the body as it is. *)
Definition quiet (s s' : BidiStreamClient) : Prop :=
  b_written s' = b_written s ∧ (is_Some (pipe_error s) → is_Some (pipe_error s')).

#[local] Instance quiet_trans : PreOrder quiet.
Proof. split; [by intros s|]. intros a b c [H1' H2'] [H3' H4']. split; [congruence|auto]. Qed.

Lemma ensureConnected_ok ord res s : bidi_ok s → bidi_ok (ensureConnected ord res s).2.
Proof.
  intros I. unfold ensureConnected. destruct (b_once s) eqn:E; [done|].
  destruct I as [I2 I3 I4 I5 I6]. destruct (I4 E) as [_ Hc].
  assert (b_bodyClosed s ≠ true) as Hb by (intros Hb; destruct (I6 Hb) as [_ [x Hx]]; congruence).
  destruct res as [resp|e]; [destruct (validateInitialHeaders ord resp)|]; constructor; cbn;
    try done; intros _; split; try done; try (by intros [? ?]); by eauto.
Qed.

Lemma ensureConnected_quiet ord res s : quiet s (ensureConnected ord res s).2.
Proof.
  unfold ensureConnected. destruct (b_once s); [done|].
  destruct res as [resp|e]; [destruct (validateInitialHeaders ord resp)|]; done.
Qed.

Lemma CloseSend_ok s : bidi_ok s → bidi_ok (CloseSend s).
Proof.
  intros I. unfold CloseSend. destruct (b_closedSend s) eqn:E; [done|].
  destruct I as [I2 I3 I4 I5 I6]. constructor; cbn; try done. intros Hc. split; [done|]. by apply I2.
Qed.

Lemma CloseSend_quiet s : quiet s (CloseSend s).
Proof. unfold CloseSend. destruct (b_closedSend s); [done|]. split; [done|]. intros _. by eexists. Qed.

Lemma Close_ok s : bidi_ok s → bidi_ok (Bidi_Close s).
Proof.
  intros I. unfold Bidi_Close. destruct (b_closed s) eqn:E; [done|].
  destruct I as [I2 I3 I4 I5 I6]. constructor; cbn; try done.
  intros [Hb|Hb]%orb_true_iff; [by apply I6 in Hb as [_ ?]|by bools].
Qed.

Lemma Close_quiet s : quiet s (Bidi_Close s).
Proof. unfold Bidi_Close. destruct (b_closed s); [done|]. split; [done|]. intros _. by eexists. Qed.

Lemma close_reader_ok e s : bidi_ok s → bidi_ok (close_reader e s).
Proof. by intros []. Qed.

Lemma close_reader_quiet e s : quiet s (close_reader e s).
Proof. split; [done|]. unfold pipe_error. cbn. destruct (b_pipeClosed s); by eauto. Qed.

Lemma interrupt_ok i s : bidi_ok s → bidi_ok (interrupt i s).
Proof. destruct i; [apply close_reader_ok|apply CloseSend_ok|apply Close_ok]. Qed.

(** An interruption closes the pipe, unless the client was closed before. *)
Lemma interrupt_closes i s : b_closed s = false → b_closedSend s = false →
  b_written (interrupt i s) = b_written s ∧ is_Some (pipe_error (interrupt i s)).
Proof.
  intros Hc Hs. destruct i; cbn [interrupt]; unfold CloseSend, Bidi_Close; rewrite ?Hc, ?Hs; [|split; [done|by eexists]..].
  split; [done|]. unfold pipe_error. cbn. destruct (b_pipeClosed s); by eauto.
Qed.

Lemma Recv_ok ord res s : bidi_ok s → bidi_ok (Bidi_Recv ord res s).2.
Proof.
  intros I. unfold Bidi_Recv. destruct (b_closed s); [done|].
  pose proof (ensureConnected_ok ord res s I) as I'. destruct (ensureConnected ord res s) as [ce s'].
  cbn [snd] in I'. destruct ce as [e|]; [done|]. destruct (b_conn s') as [[st resp]|] eqn:Ec; [|done].
  destruct (Recv ord _) as [r x]. destruct I' as [I2 I3 I4 I5 I6].
  constructor; cbn; try done.
  - intros Ho. destruct (I4 Ho) as [_ Hn]. congruence.
  - intros Ho. split; [eauto|]. intros _. apply (I5 Ho). rewrite Ec. eauto.
  - intros Hb. split; [by apply I6|eauto].
Qed.

Lemma Recv_quiet ord res s : quiet s (Bidi_Recv ord res s).2.
Proof.
  unfold Bidi_Recv. destruct (b_closed s); [done|]. pose proof (ensureConnected_quiet ord res s) as Q.
  destruct (ensureConnected ord res s) as [[e|] s']; [done|]. cbn [snd] in Q.
  destruct (b_conn s') as [[st resp]|]; [|done]. by destruct (Recv ord _).
Qed.

(** A quiet operation keeps what is known of the body. *)
Lemma quiet_step_inv h s' : bidi_inv h → bidi_ok s' → quiet (h_client h) s' → bidi_inv (with_client s' h).
Proof.
  intros [_ (whole & piece & Hb & Hf & Hp)] Ho [Hw Hc]. split; [done|]. cbn. rewrite Hw. exists whole, piece.
  split_and!; [done|done|]. destruct Hp as [Hp|[Hp Hm]]; [by left|right]. split; [|done].
  unfold pipe_closed in *. apply bool_decide_eq_true in Hp. apply bool_decide_eq_true. auto.
Qed.

(** A write: nothing, when the pipe is closed; a part, when it is closed meanwhile;
    or everything. *)
Lemma pipe_write_cases b cut s : b_closed s = false → b_closedSend s = false →
  let '(e, s') := pipe_write b cut s in
  match e with
  | Some e => (s' = s ∧ pipe_error s = Some e) ∨
              (pipe_error s = None ∧ is_Some (pipe_error s') ∧
               ∃ n, (n < length b)%nat ∧ b_written s' = b_written s ++ take n b)
  | None => pipe_error s = None ∧ s' = set_written (b_written s ++ b) s
  end.
Proof.
  intros Hc Hs. unfold pipe_write. destruct (pipe_error s) as [e|] eqn:Ee; [by left|].
  destruct cut as [[n i]|]; [|done]. destruct (Nat.ltb_spec n (length b)); [|done].
  destruct (interrupt_closes i (set_written (b_written s ++ take n b) s) Hc Hs) as [Hw [e He]].
  rewrite He. right. rewrite Hw. split_and!; by eauto.
Qed.

Lemma pipe_write_ok b cut s : bidi_ok s → bidi_ok (pipe_write b cut s).2.
Proof.
  intros I. assert (∀ w, bidi_ok (set_written w s)) as Iw by (by intros w; destruct I).
  unfold pipe_write. destruct (pipe_error s); [done|]. destruct cut as [[n i]|]; [|apply Iw].
  destruct (n <? length b)%nat; [|apply Iw]. apply interrupt_ok, Iw.
Qed.

Lemma body_of_fail sent failed closed body m : body_of sent failed closed body → body_of sent (failed ++ [m]) closed body.
Proof.
  intros (w & p & Hb & Hf & Hp). exists w, p. split_and!; [done|done|]. destruct Hp as [|(Hc & x & f & n & Hx & ?)]; [by left|].
  right. split; [done|]. exists x, f, n. split; [|done]. apply elem_of_app. by left.
Qed.

(** While the pipe is open no frame is cut. *)
Lemma body_of_open sent failed body : body_of sent failed false body → frames_of (map (λ m, (m, false)) sent) = Ok body.
Proof. intros (w & p & -> & Hf & [->|[? _]]); [by rewrite app_nil_r|done]. Qed.

Lemma Send_inv ord res cut msg h : bidi_inv h → bidi_inv (bidi_step ord h (OpSend msg cut res)).
Proof.
  intros [I B]. cbn [bidi_step]. unfold Send. pose proof (body_of_fail _ _ _ _ msg B) as B'.
  destruct (b_closed (h_client h)) eqn:Hc; [done|]. destruct (b_closedSend (h_client h)) eqn:Hs; [done|].
  destruct (MarshalFrame (Some msg) false) as [g|] eqn:Eg; [|done].
  pose proof (pipe_write_cases g cut _ Hc Hs) as Hw. pose proof (pipe_write_ok g cut _ I) as Io.
  destruct (pipe_write g cut (h_client h)) as [[e|] s']; cbn [snd] in Io.
  - assert (bidi_inv {| h_client := s'; h_sent := h_sent h; h_failed := h_failed h ++ [msg] |}) as J.
    { split; [done|]. cbn. destruct Hw as [[-> _]|(Hn & He & n & Hl & ->)]; [done|].
      unfold pipe_closed in *. rewrite Hn in B. apply body_of_open in B. exists (b_written (h_client h)), (take n g).
      split_and!; [done|done|]. right. split; [by apply bool_decide_eq_true|]. exists msg, g, n.
      split_and!; [|done..]. apply elem_of_app. right. apply list_elem_of_here. }
    destruct e; try exact J. pose proof (quiet_step_inv _ _ J (ensureConnected_ok ord res s' Io) (ensureConnected_quiet ord res s')) as K.
    destruct (ensureConnected ord res s') as [ce s'']. exact K.
  - destruct Hw as [Hn ->]. split; [done|]. unfold pipe_closed in B. rewrite Hn in B. apply body_of_open in B.
    exists (b_written (h_client h) ++ g), []. cbn. rewrite app_nil_r. split_and!; [done|by apply frames_of_app|by left].
Qed.

Lemma bidi_step_inv ord h op : bidi_inv h → bidi_inv (bidi_step ord h op).
Proof.
  intros I. pose proof (bi_ok h I) as Io. destruct op as [msg cut res|e| |res| |res]; [by apply Send_inv|cbn [bidi_step]..].
  - apply quiet_step_inv; [done|by apply close_reader_ok|apply close_reader_quiet].
  - apply quiet_step_inv; [done|by apply CloseSend_ok|apply CloseSend_quiet].
  - apply quiet_step_inv; [done|by apply Recv_ok|apply Recv_quiet].
  - apply quiet_step_inv; [done|by apply Close_ok|apply Close_quiet].
  - unfold CloseAndRecv. pose proof (Recv_ok ord res _ (CloseSend_ok _ Io)) as I'.
    pose proof (Recv_quiet ord res (CloseSend (h_client h))) as Q. destruct (Bidi_Recv ord res (CloseSend (h_client h))) as [r s'].
    cbn [snd] in *. apply quiet_step_inv; [done|by apply Close_ok|].
    etransitivity; [apply CloseSend_quiet|]. etransitivity; [exact Q|apply Close_quiet].
Qed.

(** Once the pipe is closed, no call adds to the body and none succeeds in sending. *)
Lemma bidi_step_frozen ord h op : is_Some (pipe_error (h_client h)) →
  is_Some (pipe_error (h_client (bidi_step ord h op))) ∧
  b_written (h_client (bidi_step ord h op)) = b_written (h_client h) ∧ h_sent (bidi_step ord h op) = h_sent h.
Proof.
  intros Hc. assert (∀ s', quiet (h_client h) s' → is_Some (pipe_error s') ∧ b_written s' = b_written (h_client h) ∧ h_sent h = h_sent h) as Q
    by (intros s' []; auto).
  destruct op as [msg cut res|e| |res| |res]; cbn [bidi_step].
  - unfold Send, pipe_write. destruct Hc as [e He]. rewrite He. pose proof (Q _ (reflexivity _)) as Hq.
    destruct (b_closed _); [done|]. destruct (b_closedSend _); [done|]. destruct (MarshalFrame _ _); [|done].
    pose proof (Q _ (ensureConnected_quiet ord res (h_client h))) as K.
    destruct (ensureConnected ord res (h_client h)) as [ce s'']. by destruct e.
  - apply Q, close_reader_quiet.
  - apply Q, CloseSend_quiet.
  - apply Q, Recv_quiet.
  - apply Q, Close_quiet.
  - unfold CloseAndRecv. pose proof (Recv_quiet ord res (CloseSend (h_client h))) as K.
    destruct (Bidi_Recv ord res (CloseSend (h_client h))) as [r s']. cbn [snd] in *.
    apply Q. etransitivity; [apply CloseSend_quiet|]. etransitivity; [exact K|apply Close_quiet].
Qed.

Lemma Send_open ord res msg f s : bidi_ok s → pipe_error s = None → MarshalFrame (Some msg) false = Ok f →
  Send ord res None msg s = (Ok (), set_written (b_written s ++ f) s).
Proof.
  intros [I2 I3 _ _ _] Hp Hf. pose proof Hp as Hp'. unfold pipe_error in Hp'. rewrite I3 in Hp'.
  destruct (b_closedSend s) eqn:Es; [done|]. destruct (b_closed s) eqn:Ec; [by destruct (I2 eq_refl)|].
  unfold Send, pipe_write. by rewrite Ec, Es, Hf, Hp.
Qed.

Definition bidi_run (ord : range_order) (h : history) (ops : list bidi_op) : history := foldl (bidi_step ord) h ops.

Definition started : history := {| h_client := BidiStream; h_sent := []; h_failed := [] |}.

(** C17: over every sequence of calls, with writes that the transport reads in part
    before it drops the body or another goroutine closes the stream, the request
    body is the concatenation of the frames of the messages whose [Send] succeeded,
    in order, followed by at most one cut frame, of a message whose [Send] failed,
    and that only when the pipe is closed; closing closes both directions; a stream has a
    connection exactly when the handshake succeeded. While the pipe is open, sending
    a message that can be framed succeeds if nothing closes the pipe meanwhile; once it
    is closed, by sending being closed or by the transport, no later call adds to
    the body or reports a message as sent. *)
Theorem bidi_life_cycle ord ops :
  let h := bidi_run ord started ops in
  bidi_inv h ∧
  (b_closedSend (h_client h) = true → is_Some (pipe_error (h_client h))) ∧
  (pipe_error (h_client h) = None → ∀ res msg f, MarshalFrame (Some msg) false = Ok f →
     Send ord res None msg (h_client h) = (Ok (), set_written (b_written (h_client h) ++ f) (h_client h))) ∧
  (is_Some (pipe_error (h_client h)) → ∀ ops', b_written (h_client (bidi_run ord h ops')) = b_written (h_client h) ∧
                                              h_sent (bidi_run ord h ops') = h_sent h).
Proof.
  assert (∀ l h, bidi_inv h → bidi_inv (bidi_run ord h l)) as Hinv.
  { intros l. induction l as [|op l IH]; intros h Hi; [done|]. apply IH. by apply bidi_step_inv. }
  assert (∀ l h, is_Some (pipe_error (h_client h)) → b_written (h_client (bidi_run ord h l)) = b_written (h_client h) ∧
                                                    h_sent (bidi_run ord h l) = h_sent h) as Hfr.
  { induction l as [|op l IH]; intros h Hc; [done|]. destruct (bidi_step_frozen ord h op Hc) as (Hc' & <- & <-). by apply IH. }
  cbn zeta. assert (bidi_inv (bidi_run ord started ops)) as I.
  { apply Hinv. split; [by constructor|]. exists [], []. split_and!; [done|done|by left]. }
  split; [done|]. split; [|split; [|intros Hp l; by apply Hfr]].
  - intros Hs. unfold pipe_error. rewrite (bi_pipe _ (bi_ok _ I)), Hs. by eexists.
  - intros Hp res msg f Hf. by apply Send_open; [apply I|..].
Qed.

(** A dynamic call never looks at the status: transports that answer with the
    same bodies give the same results, whatever HTTP status, headers and trailers
    they send. *)
Theorem dynamic_call_ignores_status fromJSON toJSON empty ctx (d d' : doer) desc method json mods :
  (∀ p l, (hr_Body <$> d p l : result grpc_error stream) = hr_Body <$> d' p l) →
  InvokeJSON fromJSON toJSON empty ctx d desc method json mods =
  InvokeJSON fromJSON toJSON empty ctx d' desc method json mods.
Proof.
  intros Hd. unfold InvokeJSON. destruct (negb desc); [done|].
  destruct (if nonempty (TrimSpace json) then _ else _) as [m|]; [|done].
  destruct (MarshalFrame (Some m) false) as [f|]; [|done]. cbn [mbind result_bind].
  match goal with |- (d ?p ?l ≫= _) = _ => specialize (Hd p l); set (pp := p) in *; set (ll := l) in * end.
  destruct (d pp ll) as [r|e], (d' pp ll) as [r'|e']; cbn in Hd; try done; [|congruence].
  injection Hd as Hb. cbn [mbind result_bind]. by rewrite Hb.
Qed.
End theorems.

(** ** A concrete client *)

Module Client.
#[local] Existing Instance Plain.wire.
#[local] Existing Instance Plain.wire_laws.
#[local] Existing Instance ascii_case.

Definition consts : Consts := {|
  MIMEApplicationGRPC := str "application/grpc"; ContentType := str "Content-Type";
  GRPCStatus := str "grpc-status"; ValueTrailers := str "trailers";
  gzip_identity := str "gzip, identity";
  IsURL := λ p, HasPrefix p (str "http://") || HasPrefix p (str "https://")
|}.

#[export] Instance consts_laws : @ConstsLaws consts.
Proof. split. reflexivity. Qed.

#[local] Existing Instance consts.

Definition msg (b : bytes) : @message Plain.wire := b.

Definition call : context := {| ctx_left := Some (119 * Second); ctx_metadata := Some [(str "trace-bin", str "xy")] |}.

Definition sent_request : list modifier := prepareGRPCModifiers call (x00 :: be32 2 ++ str "in") false [UserMod 1].

Definition headers : Header := {[ str "Content-Type" := [str "application/grpc+proto"] ]}.

Definition answer (body : bytes) (code : Z) : response :=
  {| hr_StatusCode := 200; hr_Status := str "200 OK"; hr_Header := headers;
     hr_Trailer := status_trailers code (str "no+such user") []; hr_Body := {| s_data := body; s_fails := false |} |}.

Definition server (body : bytes) (code : Z) : doer := λ path mods, Ok (answer body code).

Lemma answer_open body code : open_response (answer body code).
Proof. split; [done|]. split; [right|]; vm_compute; reflexivity. Qed.

Lemma any_order_ok : range_ok map_to_list.
Proof. by intros h. Qed.

Definition out_frame : bytes := x01 :: be32 3 ++ str "tuo".

(** The message is read, and the plus sign of the error is lost. *)
Lemma unary_call_witness :
  InvokeInto map_to_list call (server (out_frame ++ str "more") 5) (str "S/M") (Some (msg (str "in"))) [] =
  Err (ErrStatus {| se_Code := 5; se_Message := str "no such user"; se_RawDetails := []; se_Header := ∅;
                    se_Trailer := status_trailers 5 (str "no+such user") [] |}).
Proof.
  exact (unary_call map_to_list call (server (out_frame ++ str "more") 5) (str "S/M") (Some (msg (str "in")))
    (x00 :: be32 2 ++ str "in") [] (answer (out_frame ++ str "more") 5) (msg (str "out")) true out_frame
    (str "more") 5 (str "no+such user") [] any_order_ok ltac:(lia) eq_refl eq_refl (answer_open _ _) eq_refl
    ltac:(intros raw [= <-]; vm_compute; congruence) eq_refl eq_refl).
Defined.

Lemma empty_response_masks_status_witness :
  InvokeInto map_to_list call (server [] 5) (str "S/M") (Some (msg (str "in"))) [] = Err EOF.
Proof.
  apply (empty_response_masks_status map_to_list call (server [] 5) (str "S/M") (Some (msg (str "in")))
    (x00 :: be32 2 ++ str "in") [] (answer [] 5)); [done|done|apply answer_open|done].
Defined.

Lemma stream_delivers_all_witness :
  recv_all map_to_list 3
    {| sr_stream := {| s_data := out_frame ++ x00 :: be32 1 ++ str "z"; s_fails := false |};
       sr_resp := answer [] 0 |} = ([msg (str "out"); msg (str "z")], Some EOF).
Proof.
  assert (end_of_stream map_to_list (answer [] 0) = EOF) as <- by (vm_compute; reflexivity).
  apply (stream_delivers_all map_to_list (answer [] 0) [(msg (str "out"), true); (msg (str "z"), false)]); [done|].
  repeat constructor; intros raw [= <-]; vm_compute; congruence.
Defined.

Lemma truncated_stream_is_EOF_witness :
  (Recv map_to_list {| sr_stream := {| s_data := take 6 out_frame; s_fails := false |};
                       sr_resp := answer [] 0 |}).1 = Err EOF.
Proof.
  apply (truncated_stream_is_EOF map_to_list (answer [] 0) (msg (str "out")) true); [done| |vm_compute; lia|vm_compute; done].
  intros raw [= <-]. vm_compute. congruence.
Defined.

(** Closing the stream while a message is written leaves a part of its frame. *)
Example cut_frame :
  let h := bidi_run map_to_list started
    [OpSend (msg (str "a")) None (Ok (answer [] 0)); OpSend (msg (str "b")) (Some (3%nat, CloseSendMeanwhile)) (Ok (answer [] 0));
     OpSend (msg (str "c")) None (Ok (answer [] 0))] in
  b_written (h_client h) = (x00 :: be32 1 ++ str "a") ++ [x00; x00; x00] ∧
  h_sent h = [msg (str "a")] ∧ h_failed h = [msg (str "b"); msg (str "c")].
Proof. vm_compute. auto. Qed.

Lemma dynamic_call_ignores_status_witness :
  InvokeJSON Some Some [] call (server out_frame 5) true (str "S/M") (str "{}") [] = Ok (str "out").
Proof.
  rewrite (@dynamic_call_ignores_status Plain.wire Some Some [] call (server out_frame 5) (server out_frame 0) true);
    [vm_compute; reflexivity|done].
Defined.
End Client.
