(* ===== verification/GrpcCalls.v ===== *)
(** * The other calls of the gRPC client (src/grpc/client.go, proto.go)

    Client streams, headers and trailers of bidirectional streams, and the calls
    that decode into a message of the caller. *)

From S2P Require Import Prelude GoLib GoText GoURL GrpcWire GrpcClient.

#[local] Open Scope Z_scope.

Section calls.
Context `{Wire} `{UnicodeCase} `{Consts}.

(** ** Decoding into a target (proto.go)

    The decoder of the aoni module changes the target, also when it fails. *)

Section into.
Context (decode : stream → message → option grpc_error * message) (mime : bytes) (d : doer) (path : bytes).

Definition decode_into (mods : list modifier) (target : message) : option grpc_error * message :=
  match d path mods with
  | Err e => (Some e, target)
  | Ok resp => decode (hr_Body resp) target
  end.

Definition ProtoGetInto (buf mods : list modifier) (target : message) := decode_into (withProtoGetMods mime buf mods) target.
Definition ProtoPostInto (msg : message) (buf mods : list modifier) (target : message) :=
  decode_into (withProtoPostMods mime buf msg mods) target.
Definition WebPostInto (msg : option message) (buf mods : list modifier) (target : message) :=
  decode_into (withWebPostMods mime buf msg mods) target.

(** The calls that return a message decode into an empty one. *)
Definition decode_new (empty : message) (st : stream) : result grpc_error message :=
  match decode st empty with (None, m) => Ok m | (Some e, _) => Err e end.

Lemma into_new empty buf mods : ProtoGet mime (decode_new empty) d path buf mods =
  match ProtoGetInto buf mods empty with (None, m) => Ok m | (Some e, _) => Err e end.
Proof. unfold ProtoGet, ProtoGetInto, decode_into, decode_new. by destruct (d path _). Qed.
End into.

(** ** Bidirectional streams: headers and trailers *)

Definition Bidi_Header (ord : range_order) (res : result grpc_error response) (s : BidiStreamClient) :
    result grpc_error Header * BidiStreamClient :=
  let '(err, s) := ensureConnected ord res s in
  match err, b_conn s with
  | Some e, _ => (Err e, s)
  | None, Some (_, resp) => (Ok (hr_Header resp), s)
  | None, None => (Ok ∅, s) (* not reached: connected without error *)
  end.

Definition Bidi_Trailer (s : BidiStreamClient) : option Header :=
  match b_conn s with
  | Some (_, resp) => Some (if bool_decide (hr_Trailer resp = ∅) then hr_Header resp else hr_Trailer resp)
  | None => None
  end.

(** ** Client streams *)

Record ClientStreamClient := { bidi : BidiStreamClient }.

Definition ClientStream : ClientStreamClient := {| bidi := BidiStream |}.
Definition ClientStream_Send (ord : range_order) (res : result grpc_error response) (cut : option (nat * interruption)) (msg : message)
    (s : ClientStreamClient) : result grpc_error unit * ClientStreamClient :=
  let '(r, b) := Send ord res cut msg (bidi s) in (r, {| bidi := b |}).
Definition ClientStream_CloseAndRecv (ord : range_order) (res : result grpc_error response) (s : ClientStreamClient) :
    result grpc_error message * ClientStreamClient :=
  let '(r, b) := CloseAndRecv ord res (bidi s) in (r, {| bidi := b |}).
(** A nil client is closed without an error. *)
Definition ClientStream_Close (s : option ClientStreamClient) : option ClientStreamClient :=
  match s with Some s => Some {| bidi := Bidi_Close (bidi s) |} | None => None end.

(** Messages sent one after the other, until one is refused. *)
Fixpoint send_all (ord : range_order) (res : result grpc_error response) (ms : list message) (s : ClientStreamClient) :
    result grpc_error unit * ClientStreamClient :=
  match ms with
  | [] => (Ok (), s)
  | m :: ms => let '(r, s) := ClientStream_Send ord res None m s in
               match r with Ok _ => send_all ord res ms s | Err e => (Err e, s) end
  end.

(** A stream that can be written to. *)
Definition writable (s : BidiStreamClient) : Prop :=
  b_closed s = false ∧ b_closedSend s = false ∧ b_pipeClosed s = false ∧ b_readErr s = None ∧ b_once s = false.

Lemma send_writable ord res m f s : writable s → MarshalFrame (Some m) false = Ok f →
  Send ord res None m s = (Ok (), set_written (b_written s ++ f) s).
Proof. intros (Hc & Hs & Hp & Hr & _) Hf. unfold Send, pipe_write, pipe_error. by rewrite Hc, Hs, Hf, Hp, Hr. Qed.

Lemma send_all_written ord res ms data s : writable (bidi s) → frames_of (map (λ m, (m, false)) ms) = Ok data →
  ∃ s', send_all ord res ms s = (Ok (), s') ∧ writable (bidi s') ∧ b_written (bidi s') = b_written (bidi s) ++ data.
Proof.
  revert data s. induction ms as [|m ms IH]; intros data s Hw Hd.
  - injection Hd as <-. exists s. by rewrite app_nil_r.
  - cbn [map frames_of] in Hd. destruct (MarshalFrame (Some m) false) as [f|] eqn:Ef; [|done]. cbn [mbind result_bind] in Hd.
    destruct (frames_of _) as [t|] eqn:Et; [|done]. injection Hd as <-. cbn [send_all]. unfold ClientStream_Send.
    rewrite (send_writable _ _ _ f) by done. destruct (IH t {| bidi := set_written (b_written (bidi s) ++ f) (bidi s) |}) as (s' & Hs & Hw' & Hd');
      [exact Hw|done|]. exists s'. split; [done|]. split; [done|]. rewrite Hd'. cbn. by rewrite app_assoc.
Qed.
End calls.

Section theorems.
Context `{WireLaws} `{UnicodeCase} `{ConstsLaws}.

(** C18: the server of a client stream reads the frames of all messages in the order
    in which they were sent, and the call ends, with everything closed, with
    the message of the response, whatever the trailers say about its status. *)
Theorem client_stream_call ord ms data resp m c f tail s :
  frames_of (map (λ m, (m, false)) ms) = Ok data → send_all ord (Ok resp) ms ClientStream = (Ok (), s) →
  open_response resp → MarshalFrame (Some m) c = Ok f → fits m c → s_data (hr_Body resp) = f ++ tail →
  b_written (bidi s) = data ∧
  ∃ s', ClientStream_CloseAndRecv ord (Ok resp) s = (Ok m, s') ∧ b_closed (bidi s') = true ∧ b_pipeClosed (bidi s') = true ∧
    b_bodyClosed (bidi s') = true ∧ b_written (bidi s') = data.
Proof.
  intros Hd Hs Ho Hf Hl Hb. destruct (send_all_written ord (Ok resp) ms data ClientStream) as (s1 & Hs1 & Hw & Hdata); [done|done|].
  rewrite Hs in Hs1. injection Hs1 as <-. split; [done|]. destruct s as [[w p re o ce cn cs cl ca bc]].
  destruct Hw as (Hc & Hcs & Hp & Hre & Hon). cbn in Hc, Hcs, Hp, Hre, Hon, Hdata. subst.
  unfold ClientStream_CloseAndRecv, CloseAndRecv, Bidi_Recv, CloseSend, ensureConnected. cbn [bidi b_closed b_closedSend b_once].
  rewrite (validate_open ord resp Ho). unfold Recv. cbn [b_conn sr_stream sr_resp].
  destruct (hr_Body resp) as [body fails] eqn:Eb. cbn [s_data] in Hb. subst body.
  rewrite (recv_frame_ok m c f tail fails Hf Hl). eexists. split; [reflexivity|].
  cbn. split; [done|]. split; [done|]. split; [|done]. by destruct bc.
Qed.
End theorems.

Module CallsSample.
Import Client.
#[local] Existing Instances Plain.wire Plain.wire_laws ascii_case Client.consts.

Definition two_frames : bytes := (x00 :: be32 1 ++ str "a") ++ (x00 :: be32 1 ++ str "b").
Definition failed_late : response := answer (out_frame ++ []) 13.
Definition two_sent : ClientStreamClient := {| bidi := set_written two_frames BidiStream |}.

(** The call succeeds although the trailers say that it failed. *)
Lemma client_stream_call_witness : ∃ s', ClientStream_CloseAndRecv map_to_list (Ok failed_late) two_sent = (Ok (msg (str "out")), s').
Proof.
  destruct (client_stream_call map_to_list [msg (str "a"); msg (str "b")] two_frames failed_late (msg (str "out")) true out_frame [] two_sent
    eq_refl eq_refl (answer_open _ _) eq_refl ltac:(intros raw [= <-]; vm_compute; congruence) eq_refl) as (_ & s' & Hs & _).
  exists s'. exact Hs.
Defined.
End CallsSample.
