(* ===== verification/CodeGen.v ===== *)
(** * The protoc plugin (src/cmd/protoc-gen-aoni/main.go)

    The text of the generated clients, statement by statement, over the buffer
    of a generated file. A reader of generated text gives it its meaning: the
    constants it declares, the interfaces, the methods and the call in the body
    of each. The calls go to a package that is a parameter: the generated files
    import github.com/lemon4ksan/aoni/grpc, which is not the gRPC client of this
    module. *)

From S2P Require Import Prelude GoLib GoText GoURL GoFile GrpcWire GrpcClient.

#[local] Open Scope Z_scope.

(** ** What the protogen package provides *)

Class Protogen := {
  GoIdent : Type;
  Ident : bytes → bytes → GoIdent;            (* an import path and a name *)
  QualifiedGoIdent : GoIdent → bytes;
  Comments_String : bytes → bytes
}.

Record Method `{Protogen} := {
  m_GoName : bytes;
  m_Name : bytes;
  m_Input : GoIdent;
  m_Output : GoIdent;
  IsStreamingClient : bool;
  IsStreamingServer : bool;
  m_Leading : bytes
}.

Record Service `{Protogen} := { s_GoName : bytes; s_FullName : bytes; s_Methods : list Method }.

Record Version := { v_Major : Z; v_Minor : Z; v_Patch : Z; v_Suffix : bytes }.

Record File `{Protogen} := {
  f_Services : list Service;
  f_GeneratedFilenamePrefix : bytes;
  f_GoPackageName : bytes;
  f_Path : bytes;
  f_Deprecated : bool
}.

(** ** The generator *)

Section generator.
Context `{UnicodeCase} {PG : Protogen}.

Definition contextPackage : bytes := str "context".
Definition aoniPackage : bytes := str "github.com/lemon4ksan/aoni".
Definition grpcPackage : bytes := str "github.com/lemon4ksan/aoni/grpc".
Definition generatedFilenameExtension : bytes := str "_aoni.pb.go".

(** The text of the file and the symbols it annotates with their location. *)
Record GeneratedFile := { g_text : bytes; g_symbols : list bytes }.

(** What [P] prints: text, an identifier, or comments. *)
Inductive printed := Text (s : bytes) | Name (i : GoIdent) | Comment (c : bytes).
#[local] Coercion Text : bytes >-> printed.

Definition print (a : printed) : bytes :=
  match a with Text s => s | Name i => QualifiedGoIdent i | Comment c => Comments_String c end.
Definition P (args : list printed) (g : GeneratedFile) : GeneratedFile :=
  {| g_text := g_text g ++ concat (map print args) ++ [x0a]; g_symbols := g_symbols g |}.
Definition AnnotateSymbol (symbol : bytes) (g : GeneratedFile) : GeneratedFile :=
  {| g_text := g_text g; g_symbols := g_symbols g ++ [symbol] |}.

Definition quote : bytes := [x22].

Definition unexport (s : bytes) : bytes :=
  if bytes_eqb s [] then [] else ToLower (take 1 s) ++ drop 1 s.

Definition formatFullMethodSymbol (service : Service) (method : Method) : bytes :=
  s_GoName service ++ str "_" ++ m_GoName method ++ str "_FullMethodName".

Definition genFullMethods (service : Service) (g : GeneratedFile) : GeneratedFile :=
  match s_Methods service with
  | [] => g
  | methods =>
      let g := P [Text (str "const (")] g in
      let g := foldl (λ g method,
        let fmSymbol := formatFullMethodSymbol service method in
        let fmName := str "/" ++ s_FullName service ++ str "/" ++ m_Name method in
        P [Text fmSymbol; Text (str " = " ++ quote); Text fmName; Text quote] g) g methods in
      P [] (P [Text (str ")")] g)
  end.

Definition unary (method : Method) : bool := negb (IsStreamingServer method) && negb (IsStreamingClient method).

Definition clientSignature (method : Method) : bytes :=
  m_GoName method ++ str "(ctx " ++ QualifiedGoIdent (Ident contextPackage (str "Context"))
  ++ str ", in *" ++ QualifiedGoIdent (m_Input method)
  ++ str ", mods ..." ++ QualifiedGoIdent (Ident aoniPackage (str "RequestModifier")) ++ str ") ("
  ++ (if unary method then str "*" ++ QualifiedGoIdent (m_Output method)
      else str "*" ++ QualifiedGoIdent (Ident grpcPackage (str "StreamResponse"))
           ++ str "[" ++ QualifiedGoIdent (m_Output method) ++ str "]")
  ++ str ", error)".

Definition genClientMethod (service : Service) (g : GeneratedFile) (method : Method) : GeneratedFile :=
  let implName := unexport (s_GoName service ++ str "Client") in
  let fmSymbol := formatFullMethodSymbol service method in
  let g := P [Text (str "func (c *"); Text implName; Text (str ") "); Text (clientSignature method); Text (str " {")] g in
  let g :=
    if unary method then
      P [Text (str "return "); Name (Ident grpcPackage (str "Invoke")); Text (str "["); Name (m_Output method);
         Text (str "](ctx, c.doer, "); Text fmSymbol; Text (str ", in, mods...)")] g
    else
      P [Text (str "return "); Name (Ident grpcPackage (str "ServerStream")); Text (str "["); Name (m_Output method);
         Text (str "](ctx, c.doer, "); Text fmSymbol; Text (str ", in, mods...)")] g in
  P [] (P [Text (str "}")] g).

Definition genService (g : GeneratedFile) (service : Service) : GeneratedFile :=
  let g := genFullMethods service g in
  let clientName := s_GoName service ++ str "Client" in
  let g := P [Text (str "// "); Text clientName; Text (str " is the aoni stealth gRPC client API for ");
              Text (s_GoName service); Text (str " service.")] g in
  let g := AnnotateSymbol clientName g in
  let g := P [Text (str "type "); Text clientName; Text (str " interface {")] g in
  let g := foldl (λ g method,
    let g := AnnotateSymbol (clientName ++ str "." ++ m_GoName method) g in
    P [Comment (m_Leading method); Text (clientSignature method)] g) g (s_Methods service) in
  let g := P [] (P [Text (str "}")] g) in
  let implName := unexport clientName in
  let g := P [Text (str "type "); Text implName; Text (str " struct {")] g in
  let g := P [Text (str "doer "); Name (Ident aoniPackage (str "RequestDoer"))] g in
  let g := P [] (P [Text (str "}")] g) in
  let g := P [Text (str "func New"); Text clientName; Text (str "(doer "); Name (Ident aoniPackage (str "RequestDoer"));
              Text (str ") "); Text clientName; Text (str " {")] g in
  let g := P [Text (str "return &"); Text implName; Text (str "{doer: doer}")] g in
  let g := P [] (P [Text (str "}")] g) in
  foldl (genClientMethod service) g (s_Methods service).

Definition generateFileContent (file : File) (g : GeneratedFile) : GeneratedFile := foldl genService g (f_Services file).

Definition protocVersion (v : option Version) : bytes :=
  match v with
  | None => str "(unknown)"
  | Some v =>
      let suffix := if bytes_eqb (v_Suffix v) [] then [] else str "-" ++ v_Suffix v in
      str "v" ++ Itoa (v_Major v) ++ str "." ++ Itoa (v_Minor v) ++ str "." ++ Itoa (v_Patch v) ++ suffix
  end.

(** [filepath.Ext] of a name without separators. *)
Definition Ext (name : bytes) : bytes :=
  match LastIndexByte name "." with Some i => drop i name | None => [] end.

(** The name of the program: the last element of its path, without [.exe]. *)
Definition program_name (base : bytes) : bytes :=
  let ext := Ext base in
  if EqualFold ext (str ".exe") then
    if HasSuffix base ext then take (length base - length ext) base else base
  else base.

(** The name of the generated file and its content; nothing without services. *)
Definition generateFile (base aoniVersion : bytes) (v : option Version) (file : File) : option (bytes * GeneratedFile) :=
  match f_Services file with
  | [] => None
  | _ =>
      let filename := f_GeneratedFilenamePrefix file ++ generatedFilenameExtension in
      let g := {| g_text := []; g_symbols := [] |} in
      let programName := program_name base in
      let g := P [Text (str "// Code generated by "); Text programName; Text (str ". DO NOT EDIT.")] g in
      let g := P [Text (str "// versions:")] g in
      let g := P [Text (str "// - "); Text programName; Text (str " v"); Text aoniVersion] g in
      let g := P [Text (str "// - protoc           "); Text (protocVersion v)] g in
      let g := if f_Deprecated file then P [Text (str "// "); Text (f_Path file); Text (str " is a deprecated file.")] g
               else P [Text (str "// source: "); Text (f_Path file)] g in
      let g := P [] g in
      let g := P [Text (str "package "); Text (f_GoPackageName file)] g in
      let g := P [] g in
      Some (filename, generateFileContent file g)
  end.

(** The plugin, on the files protoc asks to generate. *)
Definition run_plugin (base aoniVersion : bytes) (v : option Version) (files : list (bool * File)) : list (bytes * GeneratedFile) :=
  omap (λ f : bool * File, if negb f.1 then None else generateFile base aoniVersion v f.2) files.

(** ** The meaning of generated text *)

(** A line: a comment, a constant with its value, the head of a method with its
    receiver, a return statement, or another line. *)
Inductive line :=
  LComment | LConst (sym value : bytes) | LMethod (recv sig : bytes) | LReturn (expr : bytes) | LOther (l : bytes).

Definition after (p l : bytes) : option bytes := if HasPrefix l p then Some (drop (length p) l) else None.

Definition read_line (l : bytes) : line :=
  if HasPrefix l (str "//") then LComment
  else match after (str "func (c *") l with
  | Some r => match Cut r (str ") ") with Some (recv, sig) => LMethod recv (take (length sig - 2) sig) | None => LOther l end
  | None => match after (str "return ") l with
            | Some e => LReturn e
            | None => match Cut l (str " = " ++ quote) with
                      | Some (sym, v) => LConst sym (removelast v)
                      | None => LOther l
                      end
            end
  end.

Definition read_text (text : bytes) : list line := map read_line (Split text x0a).

(** The declared constants. *)
Definition constants : list line → list (bytes * bytes) :=
  omap (λ l, match l with LConst sym v => Some (sym, v) | _ => None end).

(** The methods: receiver, signature and the expression returned. *)
Fixpoint methods (ls : list line) : list (bytes * bytes * bytes) :=
  match ls with
  | LMethod recv sig :: rest =>
      match rest with LReturn e :: _ => [(recv, sig, e)] | _ => [] end ++ methods rest
  | _ :: rest => methods rest
  | [] => []
  end.

(** The interfaces with the signatures of their methods. *)
Definition interface_name (l : bytes) : option bytes :=
  match after (str "type ") l with
  | Some r => match Cut r (str " ") with Some (n, k) => if bytes_eqb k (str "interface {") then Some n else None | None => None end
  | None => None
  end.
Fixpoint interfaces (cur : option (bytes * list bytes)) (ls : list line) : list (bytes * list bytes) :=
  match ls with
  | [] => []
  | LOther l :: rest =>
      match cur with
      | Some (n, sigs) => if bytes_eqb l (str "}") then (n, sigs) :: interfaces None rest else interfaces (Some (n, sigs ++ [l])) rest
      | None => interfaces ((λ n, (n, [])) <$> interface_name l) rest
      end
  | _ :: rest => interfaces cur rest
  end.

(** A call [f[T](ctx, c.doer, sym, in, mods...)]: the function and the constant. *)
Definition read_call (e : bytes) : option (bytes * bytes) :=
  '(f, r) ← Cut e (str "[");
  '(_, r) ← Cut r (str "](ctx, c.doer, ");
  '(sym, _) ← Cut r (str ", in, mods...)");
  Some (f, sym).

Definition value_of (consts : list (bytes * bytes)) (sym : bytes) : option bytes :=
  snd <$> List.find (λ p, bytes_eqb p.1 sym) consts.

Definition ident_byte (c : byte) : bool :=
  between "a" "z" c || between "A" "Z" c || is_digit c || (c =b "_") || (c =b ".") || (128 <=? bz c).
Definition ident (s : bytes) : bool := forallb ident_byte s.
Definition exported (s : bytes) : bool := match s with c :: _ => between "A" "Z" c && ident s | [] => false end.

(** The documented behaviour of protogen: identifiers are printed with a
    qualifier that depends on the package, comments as lines that begin with
    slashes. *)
Class ProtogenLaws := {
  Comments_lines : bytes → list bytes;
  qualified_ident i : ident (QualifiedGoIdent i) = true;
  qualified_inj p a b : ident a = true → ident b = true → QualifiedGoIdent (Ident p a) = QualifiedGoIdent (Ident p b) → a = b;
  comments_text c : Comments_String c = unlines (map (app (str "//")) (Comments_lines c));
  comments_line c : Forall (λ l, x0a ∉ l) (Comments_lines c)
}.

Context {PL : ProtogenLaws}.

(** Names as the protobuf compiler leaves them, in ASCII. *)
Definition method_ok (m : Method) : Prop := exported (m_GoName m) = true ∧ ident (m_Name m) = true.
Definition service_ok (s : Service) : Prop :=
  exported (s_GoName s) = true ∧ ident (s_FullName s) = true ∧ Forall method_ok (s_Methods s).

(** ** Auxiliary lemmas: text and lines *)

Lemma HasPrefix_ends s p c : HasPrefix s p = true → c ∈ p → c ∈ s.
Proof. intros [t ->]%HasPrefix_spec Hc. apply elem_of_app. by left. Qed.

Lemma Cut_first a sep b c sep' : sep = c :: sep' → c ∉ a → Cut (a ++ sep ++ b) sep = Some (a, b).
Proof.
  intros -> Hc. unfold Cut. assert (Index (a ++ (c :: sep') ++ b) (c :: sep') = Some (length a)) as ->.
  { induction a as [|d a IH].
    - pose proof (HasPrefix_app (c :: sep') b) as Hp. cbn [app length] in *. cbn [Index]. by rewrite Hp.
    - apply not_elem_of_cons in Hc as [Hd Hc]. cbn [app Index HasPrefix].
      rewrite (proj2 (beq_false c d)) by done. cbn [andb]. cbn [app] in IH. by rewrite IH. }
  cbn [mbind option_bind]. rewrite take_app_exact, <- length_app, app_assoc, drop_app_exact. done.
Qed.

Lemma Cut_absent s sep c : c ∈ sep → c ∉ s → Cut s sep = None.
Proof.
  intros Hc Hs. unfold Cut. enough (Index s sep = None) as -> by done.
  apply Index_None. intros i [_ Hp]. eapply HasPrefix_ends in Hp; [|exact Hc].
  apply Hs. rewrite <- (take_drop i s). apply elem_of_app. by right.
Qed.

Definition lacks (c : byte) (s : bytes) : bool := forallb (λ d, negb (d =b c)) s.
Lemma lacks_spec c s : lacks c s = true ↔ c ∉ s.
Proof.
  unfold lacks. rewrite forallb_forall. split.
  - intros Ha Hc. apply list_elem_of_In in Hc. apply Ha in Hc. by rewrite beq_refl in Hc.
  - intros Ha d Hd. apply list_elem_of_In in Hd. apply negb_true_iff, beq_false. by intros ->.
Qed.
Lemma lacks_app c s t : lacks c (s ++ t) = lacks c s && lacks c t.
Proof. apply forallb_app. Qed.
Lemma ident_lacks c s : ident_byte c = false → ident s = true → lacks c s = true.
Proof.
  intros Hc. unfold ident, lacks. rewrite !forallb_forall. intros Hs d Hd. apply negb_true_iff, beq_false.
  intros ->. apply Hs in Hd. congruence.
Qed.
Lemma ident_app s t : ident (s ++ t) = ident s && ident t.
Proof. apply forallb_app. Qed.

(** Decides that a byte does not occur in a text built from literals and identifiers. *)
Ltac solve_lacks :=
  rewrite ?lacks_app, ?andb_true_iff; repeat split;
  first [reflexivity | apply ident_lacks; [reflexivity|]; rewrite ?ident_app, ?andb_true_iff; repeat split; (done || reflexivity)].

Lemma exported_ident s : exported s = true → ident s = true.
Proof. destruct s; [done|]. unfold exported. rewrite andb_true_iff. tauto. Qed.

(** A line that begins with a capital letter. *)
Lemma capital_line s : exported s = true → ∀ t, HasPrefix (s ++ t) (str "//") = false ∧
  HasPrefix (s ++ t) (str "func (c *") = false ∧ HasPrefix (s ++ t) (str "return ") = false ∧
  HasPrefix (s ++ t) (str "type ") = false.
Proof.
  destruct s as [|c s]; [done|]. unfold exported. rewrite andb_true_iff. intros [Hc _] t.
  assert (∀ d p, between "A" "Z" d = false → HasPrefix ((c :: s) ++ t) (d :: p) = false) as Hne.
  { intros d p Hd. cbn [app HasPrefix]. rewrite (proj2 (beq_false d c)); [done|]. intros ->. congruence. }
  repeat split; by apply Hne.
Qed.

Lemma read_const sym v : exported sym = true → read_line (sym ++ str " = " ++ quote ++ v ++ quote) = LConst sym v.
Proof.
  intros Hs. unfold read_line, after.
  destruct (capital_line sym Hs (str " = " ++ quote ++ v ++ quote)) as (-> & -> & -> & _).
  change (sym ++ str " = " ++ quote ++ v ++ quote) with (sym ++ (str " = " ++ quote) ++ v ++ quote).
  rewrite (Cut_first sym (str " = " ++ quote) (v ++ quote) " " (str "= " ++ quote)); [|done|].
  - unfold quote. by rewrite removelast_last.
  - apply lacks_spec, ident_lacks; [done|]. by apply exported_ident.
Qed.

Lemma read_other l : HasPrefix l (str "//") = false → HasPrefix l (str "func (c *") = false →
  HasPrefix l (str "return ") = false → lacks "=" l = true → read_line l = LOther l.
Proof.
  intros H1 H2 H3 H4. unfold read_line, after. rewrite H1, H2, H3.
  rewrite (Cut_absent l _ "="); [done|by vm_compute; set_solver|by apply lacks_spec].
Qed.

Lemma read_method recv sig : ident recv = true → read_line (str "func (c *" ++ recv ++ str ") " ++ sig ++ str " {") = LMethod recv sig.
Proof.
  intros Hr. unfold read_line, after. change (str "func (c *" ++ recv ++ str ") " ++ sig ++ str " {") with
    (str "func (c *" ++ (recv ++ str ") " ++ sig ++ str " {")). rewrite HasPrefix_app, drop_app_exact.
  replace (HasPrefix _ (str "//")) with false by done.
  rewrite (Cut_first recv (str ") ") (sig ++ str " {") ")" (str " ")); [|done|by apply lacks_spec, ident_lacks].
  rewrite length_app, Nat.add_sub. by rewrite take_app_exact.
Qed.

Lemma read_return e : read_line (str "return " ++ e) = LReturn e.
Proof. unfold read_line, after. by rewrite HasPrefix_app, drop_app_exact. Qed.

Lemma read_comment l : read_line (str "//" ++ l) = LComment.
Proof. unfold read_line. by rewrite HasPrefix_app. Qed.

(** The lines of a text. *)
Lemma read_unlines L : Forall (λ l, lacks x0a l = true) L → read_text (unlines L) = map read_line L ++ [LOther []].
Proof.
  intros HL. unfold read_text. rewrite Split_unlines, map_app; [done|].
  eapply Forall_impl; [exact HL|]. intros l. apply lacks_spec.
Qed.

(** ** The lines of a service *)

Definition client (s : Service) : bytes := s_GoName s ++ str "Client".
Definition impl (s : Service) : bytes := unexport (client s).
Definition path (s : Service) (m : Method) : bytes := str "/" ++ s_FullName s ++ str "/" ++ m_Name m.
Definition callee (m : Method) : bytes :=
  QualifiedGoIdent (Ident grpcPackage (if unary m then str "Invoke" else str "ServerStream")).
Definition call_text (s : Service) (m : Method) : bytes :=
  callee m ++ str "[" ++ QualifiedGoIdent (m_Output m) ++ str "](ctx, c.doer, " ++ formatFullMethodSymbol s m ++ str ", in, mods...)".

Definition const_lines (s : Service) : list bytes :=
  match s_Methods s with
  | [] => []
  | ms => str "const (" :: map (λ m, formatFullMethodSymbol s m ++ str " = " ++ quote ++ path s m ++ quote) ms ++ [str ")"; []]
  end.
Definition doer_text : bytes := QualifiedGoIdent (Ident aoniPackage (str "RequestDoer")).
Definition interface_lines (s : Service) : list bytes :=
  (str "// " ++ client s ++ str " is the aoni stealth gRPC client API for " ++ s_GoName s ++ str " service.")
  :: (str "type " ++ client s ++ str " interface {")
  :: concat (map (λ m, map (app (str "//")) (Comments_lines (m_Leading m)) ++ [clientSignature m]) (s_Methods s))
  ++ [str "}"; []].
Definition struct_lines (s : Service) : list bytes :=
  [str "type " ++ impl s ++ str " struct {"; str "doer " ++ doer_text; str "}"; [];
   str "func New" ++ client s ++ str "(doer " ++ doer_text ++ str ") " ++ client s ++ str " {";
   str "return &" ++ impl s ++ str "{doer: doer}"; str "}"; []].
Definition method_lines (s : Service) (m : Method) : list bytes :=
  [str "func (c *" ++ impl s ++ str ") " ++ clientSignature m ++ str " {"; str "return " ++ call_text s m; str "}"; []].
Definition service_lines (s : Service) : list bytes :=
  const_lines s ++ interface_lines s ++ struct_lines s ++ concat (map (method_lines s) (s_Methods s)).

Lemma unlines_app l k : unlines (l ++ k) = unlines l ++ unlines k.
Proof. unfold unlines. by rewrite map_app, concat_app. Qed.
Lemma unlines_line l : unlines [l] = l ++ [x0a].
Proof. unfold unlines. cbn [map concat]. by rewrite app_nil_r. Qed.

Definition adds (f : GeneratedFile → GeneratedFile) (ls : list bytes) : Prop := ∀ g, g_text (f g) = g_text g ++ unlines ls.

Lemma adds_fold {A} (f : GeneratedFile → A → GeneratedFile) (h : A → list bytes) l :
  (∀ x, adds (λ g, f g x) (h x)) → adds (λ g, foldl f g l) (concat (map h l)).
Proof.
  intros Hf. induction l as [|x l IH]; intros g; cbn [foldl map concat].
  - by rewrite app_nil_r.
  - rewrite IH, (Hf x g), unlines_app. by rewrite app_assoc.
Qed.

Lemma concat_singletons {A B} (f : A → B) l : concat (map (λ x, [f x]) l) = map f l.
Proof. induction l as [|x l IH]; [done|]. cbn. by rewrite IH. Qed.

(** A statement adds a line. *)
Lemma adds_P args l : concat (map print args) = l → adds (P args) [l].
Proof. intros <- g. cbn [P g_text]. by rewrite unlines_line. Qed.
Lemma P_text args g : g_text (P args g) = g_text g ++ unlines [concat (map print args)].
Proof. by apply adds_P. Qed.

Lemma genFullMethods_text s : adds (genFullMethods s) (const_lines s).
Proof.
  intros g. unfold genFullMethods, const_lines. destruct (s_Methods s) as [|m ms] eqn:E; [by rewrite app_nil_r|].
  rewrite !P_text.
  rewrite (adds_fold _ (λ m, [formatFullMethodSymbol s m ++ str " = " ++ quote ++ path s m ++ quote])), P_text.
  - rewrite <- !app_assoc, <- !unlines_app. do 2 f_equal. rewrite (concat_singletons _ (m :: ms)).
    cbn [app map concat print]. rewrite app_nil_r. reflexivity.
  - intros m'. apply adds_P. cbn [map concat print]. unfold path. by rewrite <- !app_assoc, app_nil_r.
Qed.

Lemma genClientMethod_text s m : adds (λ g, genClientMethod s g m) (method_lines s m).
Proof.
  intros g. unfold genClientMethod, method_lines, call_text, callee. rewrite !P_text. destruct (unary m); rewrite !P_text, <- !app_assoc, <- !unlines_app;
    do 2 f_equal; cbn [app map concat print]; by rewrite ?app_nil_r, <- ?app_assoc.
Qed.

Lemma interface_text s : adds (λ g, foldl (λ g method,
    P [Comment (m_Leading method); Text (clientSignature method)]
      (AnnotateSymbol (client s ++ str "." ++ m_GoName method) g)) g (s_Methods s))
  (concat (map (λ m, map (app (str "//")) (Comments_lines (m_Leading m)) ++ [clientSignature m]) (s_Methods s))).
Proof.
  apply adds_fold. intros m g. rewrite unlines_app, unlines_line. cbn [P AnnotateSymbol g_text map concat print].
  by rewrite comments_text, app_nil_r, <- !app_assoc.
Qed.

Lemma genService_text s : adds (λ g, genService g s) (service_lines s).
Proof.
  intros g. unfold genService. rewrite (adds_fold _ (method_lines s)) by (intros m; apply genClientMethod_text).
  rewrite !P_text. fold (client s). rewrite interface_text, P_text. cbn [AnnotateSymbol g_text].
  rewrite P_text, genFullMethods_text, <- !app_assoc, <- !unlines_app. do 2 f_equal.
  unfold service_lines, interface_lines, struct_lines, doer_text, impl. cbn [app map concat print].
  by rewrite <- !app_assoc, ?app_nil_r.
Qed.

(** ** Reading a service *)

Definition const_read (s : Service) : list line :=
  match s_Methods s with
  | [] => []
  | ms => LOther (str "const (") :: map (λ m, LConst (formatFullMethodSymbol s m) (path s m)) ms ++ [LOther (str ")"); LOther []]
  end.
Definition interface_read (s : Service) : list line :=
  LComment :: LOther (str "type " ++ client s ++ str " interface {")
  :: concat (map (λ m, map (λ _, LComment) (Comments_lines (m_Leading m)) ++ [LOther (clientSignature m)]) (s_Methods s))
  ++ [LOther (str "}"); LOther []].
Definition struct_read (s : Service) : list line :=
  [LOther (str "type " ++ impl s ++ str " struct {"); LOther (str "doer " ++ doer_text); LOther (str "}"); LOther [];
   LOther (str "func New" ++ client s ++ str "(doer " ++ doer_text ++ str ") " ++ client s ++ str " {");
   LReturn (str "&" ++ impl s ++ str "{doer: doer}"); LOther (str "}"); LOther []].
Definition method_read (s : Service) (m : Method) : list line :=
  [LMethod (impl s) (clientSignature m); LReturn (call_text s m); LOther (str "}"); LOther []].
Definition service_read (s : Service) : list line :=
  const_read s ++ interface_read s ++ struct_read s ++ concat (map (method_read s) (s_Methods s)).

Lemma client_exported s : service_ok s → exported (client s) = true.
Proof.
  intros (Hs & _). unfold client, exported in *. destruct (s_GoName s) as [|c n]; [done|]. cbn [app].
  apply andb_true_iff in Hs as [-> Hi]. cbn [andb]. change (c :: n ++ str "Client") with ((c :: n) ++ str "Client").
  by rewrite ident_app, Hi.
Qed.

Lemma unexport_capital c s : between "A" "Z" c = true → unexport (c :: s) = lower c :: s.
Proof.
  intros Hc. unfold unexport, ToLower. change (bytes_eqb (c :: s) []) with false. change (take 1 (c :: s)) with [c].
  assert (ascii [c] = true) as -> by (destruct c; (discriminate Hc || reflexivity)). done.
Qed.

Lemma impl_ident s : service_ok s → ident (impl s) = true.
Proof.
  intros Hs%client_exported. unfold impl. destruct (client s) as [|c n]; [done|].
  apply andb_true_iff in Hs as [Hc Hi]. rewrite unexport_capital by done. apply andb_true_iff in Hi as [_ Hn].
  apply andb_true_iff. split; [|done]. destruct c; (discriminate Hc || reflexivity).
Qed.

Lemma symbol_exported s m : service_ok s → method_ok m → exported (formatFullMethodSymbol s m) = true.
Proof.
  intros (Hs & _) (Hm & _). apply exported_ident in Hm. unfold formatFullMethodSymbol, exported in *.
  destruct (s_GoName s) as [|c n]; [done|]. cbn [app]. apply andb_true_iff in Hs as [-> Hi]. cbn [andb].
  change (c :: n ++ ?t) with ((c :: n) ++ t). by rewrite !ident_app, Hi, Hm.
Qed.

Lemma callee_ident m : ident (callee m) = true.
Proof. apply qualified_ident. Qed.

Lemma signature_lacks c m : method_ok m → ident_byte c = false → lacks c (str "(ctx , in *, mods ...) ([], error)") = true →
  lacks c (clientSignature m) = true.
Proof.
  intros (Hm & _) Hc Hl. apply exported_ident in Hm. pose proof qualified_ident as Hq.
  assert (∀ t, Forall (λ d, d ∈ str "(ctx , in *, mods ...) ([], error)") t → lacks c t = true) as Ht.
  { intros t Hf. apply lacks_spec. intros Hin. rewrite Forall_forall in Hf. apply Hf in Hin. by apply lacks_spec in Hl. }
  assert (∀ i, lacks c (QualifiedGoIdent i) = true) as Hi by (intros i; by apply ident_lacks).
  unfold clientSignature. rewrite !lacks_app, !Hi, (ident_lacks c _ Hc Hm). cbn [andb].
  assert (∀ t, forallb (λ d, bool_decide (d ∈ str "(ctx , in *, mods ...) ([], error)")) t = true → lacks c t = true) as Hlit.
  { intros t Hf. apply Ht. rewrite forallb_forall in Hf. apply Forall_forall. intros d Hd. apply list_elem_of_In, Hf in Hd.
    by apply bool_decide_eq_true in Hd. }
  destruct (unary m); rewrite !lacks_app, ?Hi; cbn [andb]; rewrite !Hlit by (vm_compute; reflexivity); done.
Qed.

Lemma path_lacks s m c : service_ok s → method_ok m → ident_byte c = false → (c =b "/")%byte = false → lacks c (path s m) = true.
Proof.
  intros (_ & Hf & _) (_ & Hn) Hc Hs. unfold path. rewrite !lacks_app, (ident_lacks c _ Hc Hf), (ident_lacks c _ Hc Hn).
  assert (lacks c (str "/") = true) as ->; [|done]. apply lacks_spec. change (str "/") with ["/"%byte].
  apply beq_false in Hs. by intros ->%list_elem_of_singleton.
Qed.

Lemma signature_line m : method_ok m → read_line (clientSignature m) = LOther (clientSignature m).
Proof.
  intros Hm. destruct (capital_line (m_GoName m) (proj1 Hm) (drop (length (m_GoName m)) (clientSignature m))) as (H1 & H2 & H3 & _).
  unfold clientSignature in H1, H2, H3 at 1. rewrite drop_app_exact in *. apply read_other; [done..|]. by apply signature_lacks.
Qed.

Lemma read_consts s : service_ok s → map read_line (const_lines s) = const_read s.
Proof.
  intros Hs. unfold const_lines, const_read. assert (Forall method_ok (s_Methods s)) as Hms by apply Hs.
  destruct (s_Methods s) as [|m0 ms0]; [done|]. remember (m0 :: ms0) as ms. cbn [map]. f_equal. rewrite map_app. f_equal.
  clear Heqms. induction Hms as [|m ms Hm Hms IH]; [done|]. cbn [map]. rewrite IH. f_equal. by apply read_const, symbol_exported.
Qed.

Lemma read_interface s : service_ok s → map read_line (interface_lines s) = interface_read s.
Proof.
  intros Hs. pose proof (exported_ident _ (client_exported s Hs)) as Hc. destruct Hs as (_ & _ & Hms).
  unfold interface_lines, interface_read. cbn [map]. f_equal. f_equal.
  - apply read_other; [done..|]. solve_lacks.
  - rewrite map_app. f_equal. induction Hms as [|m ms Hm Hms IH]; [done|]. cbn [map concat]. rewrite !map_app, IH. f_equal.
    rewrite map_map. cbn [map]. by rewrite signature_line.
Qed.

Lemma read_struct s : service_ok s → map read_line (struct_lines s) = struct_read s.
Proof.
  intros Hs. pose proof (exported_ident _ (client_exported s Hs)) as Hc. pose proof (impl_ident s Hs) as Hi.
  pose proof (qualified_ident (Ident aoniPackage (str "RequestDoer"))) as Hq.
  unfold struct_lines, struct_read. cbn [map]. f_equal.
  { apply read_other; [done..|]. solve_lacks. } f_equal.
  { apply read_other; [done..|]. unfold doer_text. solve_lacks. } do 2 f_equal. f_equal.
  { apply read_other; [done..|]. unfold doer_text. solve_lacks. }
Qed.

Lemma read_methods s : service_ok s → map read_line (concat (map (method_lines s) (s_Methods s))) = concat (map (method_read s) (s_Methods s)).
Proof.
  intros Hs. pose proof (impl_ident s Hs) as Hi. clear Hs. induction (s_Methods s) as [|m ms IH]; [done|]. cbn [map concat].
  rewrite map_app, IH. f_equal. unfold method_lines, method_read. cbn [map]. by rewrite read_method, read_return.
Qed.

Lemma read_service s : service_ok s → map read_line (service_lines s) = service_read s.
Proof.
  intros Hs. unfold service_lines, service_read.
  by rewrite !map_app, read_consts, read_interface, read_struct, read_methods.
Qed.

Lemma Forall_concat_map {A B} (f : A → list B) (Q : B → Prop) l : Forall (λ x, Forall Q (f x)) l → Forall Q (concat (map f l)).
Proof. intros Hf. apply Forall_concat. by apply Forall_map. Qed.

Lemma symbol_lacks s m c : service_ok s → method_ok m → ident_byte c = false → lacks c (formatFullMethodSymbol s m) = true.
Proof. intros Hs Hm Hc. apply ident_lacks; [done|]. by apply exported_ident, symbol_exported. Qed.

Lemma service_lines_ok s : service_ok s → Forall (λ l, lacks x0a l = true) (service_lines s).
Proof.
  intros Hs. pose proof (exported_ident _ (client_exported s Hs)) as Hc. pose proof (impl_ident s Hs) as Hi.
  pose proof (qualified_ident (Ident aoniPackage (str "RequestDoer"))) as Hq. assert (Forall method_ok (s_Methods s)) as Hms by apply Hs.
  assert (ident (s_GoName s) = true) as Hn by apply exported_ident, Hs.
  unfold service_lines. rewrite !Forall_app. repeat split.
  - unfold const_lines. destruct (s_Methods s) as [|m0 ms0]; [done|]. remember (m0 :: ms0) as ms.
    constructor; [done|]. apply Forall_app. split; [|by repeat constructor]. apply Forall_map.
    eapply Forall_impl; [exact Hms|]. intros m Hm. unfold compose. rewrite !lacks_app, (symbol_lacks s m) by done. by rewrite (path_lacks s m).
  - unfold interface_lines. constructor; [|constructor; [|apply Forall_app; split; [|by repeat constructor]]]; [solve_lacks..|].
    apply Forall_concat_map. eapply Forall_impl; [exact Hms|]. intros m Hm. cbn. apply Forall_app. split.
    + apply Forall_map. eapply Forall_impl; [apply comments_line|]. intros l Hl. unfold compose. change (lacks x0a (str "//" ++ l) = true). rewrite lacks_app. by apply lacks_spec in Hl as ->.
    + repeat constructor. by apply signature_lacks.
  - unfold struct_lines, doer_text. repeat constructor; solve_lacks.
  - apply Forall_concat_map. eapply Forall_impl; [exact Hms|]. intros m Hm. unfold method_lines, call_text. repeat constructor.
    + rewrite !lacks_app, (signature_lacks x0a m) by done. rewrite (ident_lacks x0a (impl s)) by done. done.
    + rewrite !lacks_app, (symbol_lacks s m) by done. rewrite (ident_lacks x0a (callee m)) by (done || apply callee_ident).
      by rewrite (ident_lacks x0a (QualifiedGoIdent (m_Output m))) by (done || apply qualified_ident).
Qed.

Lemma elem_of_concat_map {A B} (f : A → list B) l x y : x ∈ l → y ∈ f x → y ∈ concat (map f l).
Proof.
  intros Hx Hy. apply list_elem_of_In, in_concat. exists (f x). split; [|by apply list_elem_of_In].
  by apply in_map, list_elem_of_In.
Qed.

(** ** What a file declares *)

Definition service_constants (s : Service) : list (bytes * bytes) := map (λ m, (formatFullMethodSymbol s m, path s m)) (s_Methods s).
Definition service_methods (s : Service) : list (bytes * bytes * bytes) :=
  map (λ m, (impl s, clientSignature m, call_text s m)) (s_Methods s).
Definition service_interface (s : Service) : bytes * list bytes := (client s, map clientSignature (s_Methods s)).

Lemma constants_app l k : constants (l ++ k) = constants l ++ constants k.
Proof. apply omap_app. Qed.

Lemma read_constants s : constants (service_read s) = service_constants s.
Proof.
  unfold service_read. rewrite !constants_app.
  assert (constants (interface_read s) = []) as ->.
  { unfold interface_read. cbn [constants omap list_omap]. change (constants (concat (map (λ m, map (λ _, LComment) (Comments_lines (m_Leading m)) ++ [LOther (clientSignature m)])
      (s_Methods s)) ++ [LOther (str "}"); LOther []]) = []). rewrite constants_app, app_nil_r.
    induction (s_Methods s) as [|m ms IH]; [done|]. cbn [map concat]. rewrite !constants_app, IH, app_nil_r.
    by induction (Comments_lines (m_Leading m)). }
  assert (constants (concat (map (method_read s) (s_Methods s))) = []) as ->.
  { induction (s_Methods s) as [|m ms IH]; [done|]. cbn [map concat]. by rewrite constants_app, IH. }
  rewrite !app_nil_r. unfold const_read, service_constants. destruct (s_Methods s) as [|m0 ms0]; [done|]. remember (m0 :: ms0) as ms.
  change (constants (map (λ m, LConst (formatFullMethodSymbol s m) (path s m)) ms ++ [LOther (str ")"); LOther []]) =
    map (λ m, (formatFullMethodSymbol s m, path s m)) ms).
  rewrite constants_app, app_nil_r. clear Heqms. induction ms as [|m ms IH]; [done|]. cbn. f_equal. exact IH.
Qed.

(** Lines without a method are passed over. *)
Definition no_method (l : line) : bool := match l with LMethod _ _ => false | _ => true end.
Lemma methods_skip l k : forallb no_method l = true → methods (l ++ k) = methods k.
Proof. induction l as [|[] l IH]; (done || exact IH). Qed.

Lemma read_service_methods s k : methods (service_read s ++ k) = service_methods s ++ methods k.
Proof.
  unfold service_read. rewrite <- !app_assoc. rewrite methods_skip, methods_skip, methods_skip.
  - unfold service_methods. induction (s_Methods s) as [|m ms IH]; [done|]. cbn [map concat]. rewrite <- app_assoc. cbn. by f_equal.
  - done.
  - unfold interface_read. cbn [forallb no_method andb]. rewrite forallb_app, andb_true_r.
    induction (s_Methods s) as [|m ms IH]; [done|]. cbn [map concat]. rewrite !forallb_app, IH, !andb_true_r. by induction (Comments_lines _).
  - unfold const_read. destruct (s_Methods s) as [|m0 ms0]; [done|]. remember (m0 :: ms0) as ms. cbn [forallb no_method andb].
    rewrite forallb_app, andb_true_r. clear Heqms. by induction ms.
Qed.

Lemma type_line n k : ident n = true → interface_name (str "type " ++ n ++ str " " ++ k) = if bytes_eqb k (str "interface {") then Some n else None.
Proof.
  intros Hn. unfold interface_name, after. rewrite HasPrefix_app, drop_app_exact.
  rewrite (Cut_first n (str " ") k " " []); [done..|]. by apply lacks_spec, ident_lacks.
Qed.

Lemma interfaces_consts s k : interfaces None (const_read s ++ k) = interfaces None k.
Proof.
  unfold const_read. destruct (s_Methods s) as [|m0 ms0]; [done|]. remember (m0 :: ms0) as ms.
  change (interfaces None ((map (λ m, LConst (formatFullMethodSymbol s m) (path s m)) ms ++ [LOther (str ")"); LOther []]) ++ k) = interfaces None k).
  rewrite <- app_assoc. clear Heqms. by induction ms.
Qed.

Lemma interfaces_signatures n ms k : Forall method_ok ms → ∀ sigs,
  interfaces (Some (n, sigs)) (concat (map (λ m, map (λ _, LComment) (Comments_lines (m_Leading m)) ++ [LOther (clientSignature m)]) ms)
    ++ LOther (str "}") :: k) = (n, sigs ++ map clientSignature ms) :: interfaces None k.
Proof.
  induction 1 as [|m ms Hm Hms IH]; intros sigs; cbn [map concat app]; [by rewrite app_nil_r|]. rewrite <- !app_assoc.
  enough (∀ k', interfaces (Some (n, sigs)) (map (λ _, LComment) (Comments_lines (m_Leading m)) ++ [LOther (clientSignature m)] ++ k') =
    interfaces (Some (n, sigs ++ [clientSignature m])) k') as ->.
  { by rewrite IH, <- app_assoc. }
  intros k'. induction (Comments_lines (m_Leading m)) as [|c cs IHc]; [|exact IHc]. cbn [map app interfaces].
  destruct (bytes_eqb (clientSignature m) (str "}")) eqn:E; [|done]. bools. exfalso. destruct Hm as [He _].
  unfold clientSignature in E. destruct (m_GoName m) as [|c n']; [done|]. apply andb_true_iff in He as [He _].
  injection E as -> _. discriminate He.
Qed.

Lemma read_interfaces s k : service_ok s → interfaces None (service_read s ++ k) = service_interface s :: interfaces None k.
Proof.
  intros Hs. pose proof (exported_ident _ (client_exported s Hs)) as Hc. pose proof (impl_ident s Hs) as Hi.
  assert (Forall method_ok (s_Methods s)) as Hms by apply Hs.
  unfold service_read. rewrite <- !app_assoc, interfaces_consts. unfold interface_read. cbn [app interfaces].
  change (str "type " ++ client s ++ str " interface {") with (str "type " ++ client s ++ str " " ++ str "interface {").
  rewrite type_line by done. cbn [fmap option_fmap option_map]. rewrite <- app_assoc. cbn [app].
  change (bytes_eqb (str "interface {") (str "interface {")) with true. cbv iota. cbn [fmap option_fmap option_map].
  rewrite interfaces_signatures by done. cbn [app]. unfold service_interface. f_equal. unfold struct_read. cbn [app interfaces].
  change (str "type " ++ impl s ++ str " struct {") with (str "type " ++ impl s ++ str " " ++ str "struct {").
  rewrite type_line by done. change (bytes_eqb (str "struct {") (str "interface {")) with false. cbn [fmap option_fmap option_map].
  change (interfaces None (concat (map (method_read s) (s_Methods s)) ++ k) = interfaces None k).
  clear Hms. by induction (s_Methods s).
Qed.

(** ** Files *)

Definition header_lines (base aoniVersion : bytes) (v : option Version) (file : File) : list bytes :=
  [str "// Code generated by " ++ program_name base ++ str ". DO NOT EDIT."; str "// versions:";
   str "// - " ++ program_name base ++ str " v" ++ aoniVersion; str "// - protoc           " ++ protocVersion v;
   (if f_Deprecated file then str "// " ++ f_Path file ++ str " is a deprecated file." else str "// source: " ++ f_Path file);
   []; str "package " ++ f_GoPackageName file; []].
Definition file_lines (base aoniVersion : bytes) (v : option Version) (file : File) : list bytes :=
  header_lines base aoniVersion v file ++ concat (map service_lines (f_Services file)).

Lemma generateFile_text base aoniVersion v file name g : generateFile base aoniVersion v file = Some (name, g) →
  g_text g = unlines (file_lines base aoniVersion v file).
Proof.
  unfold generateFile. destruct (f_Services file) as [|s0 ss0] eqn:E; [done|]. intros [= _ <-]. clear E.
  unfold generateFileContent, file_lines, header_lines. rewrite (adds_fold _ service_lines) by (intros s; apply genService_text).
  rewrite unlines_app. f_equal. destruct (f_Deprecated file); rewrite !P_text; cbn [g_text map concat print]; rewrite app_nil_l, <- !unlines_app;
    f_equal; cbn [app]; by rewrite ?app_nil_r.
Qed.

(** Names without line ends, and packages and services with names as protoc leaves them. *)
Record file_ok (base aoniVersion : bytes) (v : option Version) (file : File) : Prop := {
  ok_services : Forall service_ok (f_Services file);
  ok_package : ident (f_GoPackageName file) = true;
  ok_path : x0a ∉ f_Path file;
  ok_program : x0a ∉ program_name base;
  ok_version : x0a ∉ aoniVersion;
  ok_protoc : x0a ∉ protocVersion v
}.

Lemma read_file base aoniVersion v file name g : file_ok base aoniVersion v file →
  generateFile base aoniVersion v file = Some (name, g) →
  read_text (g_text g) = replicate 5 LComment ++ [LOther []; LOther (str "package " ++ f_GoPackageName file); LOther []]
    ++ concat (map service_read (f_Services file)) ++ [LOther []].
Proof.
  intros [Hs Hp Hpath Hbase Hv Hpr] Hg. rewrite (generateFile_text _ _ _ _ _ _ Hg).
  apply lacks_spec in Hpath, Hbase, Hv, Hpr. rewrite read_unlines; unfold file_lines, header_lines.
  - assert (map read_line (concat (map service_lines (f_Services file))) = concat (map service_read (f_Services file))) as Hr.
    { clear Hg. induction Hs as [|s ss Hs Hss IH]; [done|]. cbn [map concat]. by rewrite map_app, IH, read_service. }
    rewrite map_app, Hr. cbn [map]. rewrite <- app_assoc.
    rewrite (read_other (str "package " ++ f_GoPackageName file)) by (done || solve_lacks). by destruct (f_Deprecated file).
  - apply Forall_app. split.
    + destruct (f_Deprecated file); repeat constructor; rewrite ?lacks_app, ?Hpath, ?Hbase, ?Hv, ?Hpr; try done; solve_lacks.
    + apply Forall_concat_map. eapply Forall_impl; [exact Hs|]. apply service_lines_ok.
Qed.

Definition all_constants (file : File) : list (bytes * bytes) := concat (map service_constants (f_Services file)).

Lemma file_constants base aoniVersion v file name g : file_ok base aoniVersion v file →
  generateFile base aoniVersion v file = Some (name, g) → constants (read_text (g_text g)) = all_constants file.
Proof.
  intros Hok Hg. rewrite (read_file _ _ _ _ _ _ Hok Hg). rewrite !constants_app. cbn [replicate constants omap list_omap app].
  rewrite app_nil_r. unfold all_constants. induction (f_Services file) as [|s ss IH]; [done|]. cbn [map concat].
  by rewrite constants_app, read_constants, IH.
Qed.

Lemma file_methods base aoniVersion v file name g : file_ok base aoniVersion v file →
  generateFile base aoniVersion v file = Some (name, g) →
  methods (read_text (g_text g)) = concat (map service_methods (f_Services file)).
Proof.
  intros Hok Hg. rewrite (read_file _ _ _ _ _ _ Hok Hg). cbn [replicate app methods].
  induction (f_Services file) as [|s ss IH]; [done|]. cbn [map concat]. by rewrite <- app_assoc, read_service_methods, IH.
Qed.

Lemma file_interfaces base aoniVersion v file name g : file_ok base aoniVersion v file →
  generateFile base aoniVersion v file = Some (name, g) →
  interfaces None (read_text (g_text g)) = map service_interface (f_Services file).
Proof.
  intros Hok Hg. rewrite (read_file _ _ _ _ _ _ Hok Hg). cbn [replicate app interfaces fmap option_fmap option_map].
  change (interface_name []) with (@None bytes). change (interface_name (str "package " ++ f_GoPackageName file)) with (@None bytes).
  cbn [fmap option_fmap option_map]. destruct Hok as [Hs _ _ _ _ _]. clear Hg.
  induction Hs as [|s ss Hs Hss IH]; [done|]. cbn [map concat]. by rewrite <- app_assoc, read_interfaces, IH.
Qed.

Lemma value_unique l k v : NoDup (map fst l) → (k, v) ∈ l → value_of l k = Some v.
Proof.
  induction l as [|[k' v'] l IH]; cbn [map fst]; [by intros _ ?%elem_of_nil|].
  intros [Hk Hl]%NoDup_cons [[= -> ->]|Hin]%elem_of_cons; unfold value_of; cbn [List.find fst].
  - by rewrite (proj2 (bytes_eqb_true _ _)).
  - destruct (bytes_eqb k' k) eqn:E; [|by apply IH]. bools. subst k'. destruct Hk. apply list_elem_of_fmap. by exists (k, v).
Qed.

Lemma read_call_text s m : service_ok s → method_ok m → read_call (call_text s m) = Some (callee m, formatFullMethodSymbol s m).
Proof.
  intros Hs Hm. unfold read_call, call_text.
  rewrite (Cut_first (callee m) (str "[") _ "[" []); [|done|by apply lacks_spec, ident_lacks, callee_ident]. cbn [mbind option_bind].
  rewrite (Cut_first (QualifiedGoIdent (m_Output m)) (str "](ctx, c.doer, ") _ "]" (str "(ctx, c.doer, "));
    [|done|by apply lacks_spec, ident_lacks, qualified_ident]. cbn [mbind option_bind].
  pose proof (Cut_first (formatFullMethodSymbol s m) (str ", in, mods...)") [] "," (str " in, mods...)")) as Hcut.
  rewrite app_nil_r in Hcut. rewrite Hcut; [done..|by apply lacks_spec, symbol_lacks].
Qed.

(** ** What a generated method does *)

Context `{Wire} `{Consts}.

(** What a call returns: the answer of a unary call, or a stream. *)
Inductive call_result := Reply (r : result grpc_error message) | Opened (r : result grpc_error StreamResponse).

(** The functions the generated code calls, of the package it imports. *)
Record grpc_package := {
  pkg_Invoke : context → doer → bytes → option message → list modifier → result grpc_error message;
  pkg_ServerStream : context → doer → bytes → option message → list modifier → result grpc_error StreamResponse
}.

(** The expression a method returns. *)
Definition run_call (pkg : grpc_package) (consts : list (bytes * bytes)) (e : bytes) (ctx : context) (d : doer)
    (req : option message) (mods : list modifier) : option call_result :=
  '(f, sym) ← read_call e;
  fullMethod ← value_of consts sym;
  if bytes_eqb f (QualifiedGoIdent (Ident grpcPackage (str "Invoke"))) then Some (Reply (pkg_Invoke pkg ctx d fullMethod req mods))
  else if bytes_eqb f (QualifiedGoIdent (Ident grpcPackage (str "ServerStream"))) then
    Some (Opened (pkg_ServerStream pkg ctx d fullMethod req mods))
  else None.

(** The gRPC client of this module as such a package. *)
Definition this_package (ord : range_order) : grpc_package :=
  {| pkg_Invoke := Invoke ord; pkg_ServerStream := ServerStream ord |}.

(** C13: if the constants of the generated file are distinct, which Go asks of the
    file anyway, the file declares an interface for each service with the
    signatures of its methods, implements exactly those signatures, and each
    method calls, in the imported package, the path of its service and method:
    [Invoke] if neither side streams, otherwise [ServerStream], with the one request it
    takes. The gRPC client of this module uses such a path as it is. *)
Theorem generated_calls base aoniVersion v file name g (pkg : grpc_package) ctx d req mods :
  file_ok base aoniVersion v file → generateFile base aoniVersion v file = Some (name, g) →
  NoDup (map fst (all_constants file)) →
  let text := read_text (g_text g) in
  interfaces None text = map service_interface (f_Services file) ∧
  map fst (methods text) = concat (map (λ s, map (λ m, (impl s, clientSignature m)) (s_Methods s)) (f_Services file)) ∧
  ∀ s m, s ∈ f_Services file → m ∈ s_Methods s → ∃ e, (impl s, clientSignature m, e) ∈ methods text ∧
    run_call pkg (constants text) e ctx d req mods =
      Some (if unary m then Reply (pkg_Invoke pkg ctx d (path s m) req mods)
            else Opened (pkg_ServerStream pkg ctx d (path s m) req mods)) ∧
    normalizeMethodPath (path s m) = path s m.
Proof.
  intros Hok Hg Hnd. cbn zeta. rewrite (file_interfaces _ _ _ _ _ _ Hok Hg), (file_methods _ _ _ _ _ _ Hok Hg), (file_constants _ _ _ _ _ _ Hok Hg).
  split; [done|]. split.
  { rewrite concat_map, map_map. f_equal. apply map_ext. intros s. unfold service_methods. by rewrite map_map. }
  intros s m Hs Hm. exists (call_text s m). split; [|split; [|done]].
  { apply (elem_of_concat_map _ _ s); [done|]. apply list_elem_of_fmap. by exists m. }
  assert (service_ok s) as Hso by (destruct Hok as [Hss _ _ _ _ _]; rewrite Forall_forall in Hss; by apply Hss).
  assert (method_ok m) as Hmo by (destruct Hso as (_ & _ & Hms); rewrite Forall_forall in Hms; by apply Hms).
  unfold run_call. rewrite read_call_text by done. cbn [mbind option_bind]. rewrite (value_unique _ _ (path s m)); [|done|].
  - cbn [mbind option_bind]. unfold callee. destruct (unary m).
    + by rewrite (proj2 (bytes_eqb_true _ _)).
    + rewrite (proj2 (bytes_eqb_false _ _)); [by rewrite (proj2 (bytes_eqb_true _ _))|]. by intros ?%qualified_inj.
  - apply (elem_of_concat_map _ _ s); [done|]. apply list_elem_of_fmap. by exists m.
Qed.

(** Underscores make two methods of different services share one constant: the
    generated file declares it twice, for two paths. *)
Theorem symbols_collide base aoniVersion v file name g s1 s2 m1 m2 b :
  file_ok base aoniVersion v file → generateFile base aoniVersion v file = Some (name, g) →
  f_Services file = [s1; s2] → s_Methods s1 = [m1] → s_Methods s2 = [m2] →
  s_GoName s2 = s_GoName s1 ++ str "_" ++ b → m_GoName m1 = b ++ str "_" ++ m_GoName m2 →
  let sym := formatFullMethodSymbol s1 m1 in
  constants (read_text (g_text g)) = [(sym, path s1 m1); (sym, path s2 m2)].
Proof.
  intros Hok Hg Hs Hm1 Hm2 Hn Hm. cbn zeta. rewrite (file_constants _ _ _ _ _ _ Hok Hg). unfold all_constants. rewrite Hs.
  cbn [map concat app]. unfold service_constants. rewrite Hm1, Hm2. cbn [map app].
  assert (formatFullMethodSymbol s2 m2 = formatFullMethodSymbol s1 m1) as ->; [|done].
  unfold formatFullMethodSymbol. by rewrite Hn, Hm, <- !app_assoc.
Qed.

End generator.

(** ** A file of two services *)

Module CodeGenSample.

#[local] Instance case : UnicodeCase := {| unicode_ToLower s := s; unicode_ToUpper s := s; unicode_EqualFold := bytes_eqb |}.

(** Packages are known by the last element of their path. *)
Definition letters_of (s : bytes) : bytes := List.filter ident_byte s.
Definition package (p : bytes) : bytes := letters_of (match LastIndexByte p "/" with Some i => drop (S i) p | None => p end).

#[local] Instance pg : Protogen := {|
  GoIdent := bytes * bytes;
  Ident p n := (p, n);
  QualifiedGoIdent i := package i.1 ++ str "." ++ letters_of i.2;
  Comments_String c := unlines (map (app (str "//")) (if bytes_eqb c [] then [] else Split c x0a))
|}.

Lemma letters_ident s : ident (letters_of s) = true.
Proof. apply forallb_forall. intros c Hc. by apply filter_In in Hc as [_ Hc]. Qed.
Lemma letters_id s : ident s = true → letters_of s = s.
Proof.
  induction s as [|c s IH]; [done|]. cbn. intros [Hc Hs]%andb_true_iff. rewrite Hc. f_equal. by apply IH.
Qed.
Lemma Split_lines s c : Forall (λ l, c ∉ l) (Split s c).
Proof.
  induction s as [|d s IH]; [by repeat constructor; apply not_elem_of_nil|]. cbn [Split]. destruct (d =b c) eqn:E.
  - constructor; [apply not_elem_of_nil|done].
  - destruct IH as [|w ws Hw Hws]; constructor; try done.
    + apply not_elem_of_cons. bools. split; [congruence|apply not_elem_of_nil].
    + apply not_elem_of_cons. bools. split; [congruence|done].
Qed.

#[local] Program Instance pg_laws : ProtogenLaws := {| Comments_lines c := if bytes_eqb c [] then [] else Split c x0a |}.
Next Obligation. intros [p n]. cbn [QualifiedGoIdent pg fst snd]. rewrite !ident_app. unfold package. by rewrite !letters_ident. Qed.
Next Obligation. intros p a b Ha Hb E. cbn [QualifiedGoIdent Ident pg fst snd] in E. rewrite (letters_id a Ha), (letters_id b Hb) in E. by apply app_inv_head, app_inv_head in E. Qed.
Next Obligation. done. Qed.
Next Obligation. intros c. cbv beta. destruct (bytes_eqb c []); [constructor|apply Split_lines]. Qed.

#[local] Existing Instances GrpcWire.Plain.wire GrpcClient.Client.consts.

Definition method (name : bytes) (client_streams : bool) : Method :=
  {| m_GoName := name; m_Name := name; m_Input := (str "example.com/api", str "In"); m_Output := (str "example.com/api", str "Out");
     IsStreamingClient := client_streams; IsStreamingServer := false; m_Leading := str " Sends." |}.
Definition service (name : bytes) (ms : list Method) : Service := {| s_GoName := name; s_FullName := str "api." ++ name; s_Methods := ms |}.
Definition file (ss : list Service) : File :=
  {| f_Services := ss; f_GeneratedFilenamePrefix := str "api/api"; f_GoPackageName := str "api"; f_Path := str "api.proto"; f_Deprecated := false |}.

Definition chat : Service := service (str "Chat") [method (str "Send") false; method (str "Upload") true].
Definition base : bytes := str "protoc-gen-aoni.exe".
Definition version : option Version := Some {| v_Major := 29; v_Minor := 3; v_Patch := 0; v_Suffix := [] |}.
Definition generate (f : File) : GeneratedFile :=
  match generateFile base (str "1.0") version f with Some (_, g) => g | None => {| g_text := []; g_symbols := [] |} end.

Lemma file_fine ss : Forall service_ok ss → file_ok base (str "1.0") version (file ss).
Proof. intros Hss. split; [done|done|..]; apply lacks_spec; vm_compute; reflexivity. Qed.

Lemma chat_fine : Forall service_ok [chat].
Proof. repeat constructor. Qed.

Lemma generated_calls_witness : ∃ e, (str "chatClient", clientSignature (method (str "Upload") true), e) ∈ methods (read_text (g_text (generate (file [chat])))) ∧
  run_call (this_package map_to_list) (constants (read_text (g_text (generate (file [chat]))))) e Client.call (Client.server [] 0)
    (Some (Client.msg (str "in"))) [] =
  Some (Opened (Ok {| sr_stream := {| s_data := []; s_fails := false |}; sr_resp := Client.answer [] 0 |})).
Proof.
  destruct (generated_calls base (str "1.0") version (file [chat]) (str "api/api_aoni.pb.go") (generate (file [chat])) (this_package map_to_list) Client.call
    (Client.server [] 0) (Some (Client.msg (str "in"))) []) as (_ & _ & Hcall).
  - apply file_fine, chat_fine.
  - vm_compute. reflexivity.
  - apply (bool_decide_unpack _). vm_compute. exact I.
  - destruct (Hcall chat (method (str "Upload") true)) as (e & He & Hr & _).
    + apply elem_of_cons. by left.
    + apply elem_of_cons. right. apply elem_of_cons. by left.
    + exists e. split; [exact He|exact Hr].
Defined.

Definition first : Service := service (str "Chat") [method (str "Room_Send") false].
Definition second : Service := service (str "Chat_Room") [method (str "Send") false].

Lemma symbols_collide_witness : constants (read_text (g_text (generate (file [first; second])))) =
  [(str "Chat_Room_Send_FullMethodName", str "/api.Chat/Room_Send"); (str "Chat_Room_Send_FullMethodName", str "/api.Chat_Room/Send")].
Proof.
  apply (symbols_collide base (str "1.0") version (file [first; second]) (str "api/api_aoni.pb.go") (generate (file [first; second]))
    first second (method (str "Room_Send") false) (method (str "Send") false) (str "Room")); try done.
  apply file_fine. repeat constructor.
Defined.

(** A method to which the client streams gets the signature of a server stream: one request. *)
Example upload_signature : clientSignature (method (str "Upload") true) =
  str "Upload(ctx context.Context, in *api.In, mods ...aoni.RequestModifier) (*grpc.StreamResponse[api.Out], error)".
Proof. vm_compute. reflexivity. Qed.
End CodeGenSample.
