(* ===== verification/SocketIOPacket.v ===== *)
(** * Socket.IO packets (src/socketio/packet.go)

    The wire codec of Engine.IO v4 / Socket.IO v5 packets, the extraction of
    binary attachments from an event's arguments and their reinsertion, and
    the reassembly of a binary packet from its attachment frames.

    The Go parsers advance an [offset] into [data]; here a parser returns the
    suffix [data[offset:]] it leaves. *)

From S2P Require Import Prelude GoLib.

#[local] Open Scope Z_scope.

(** ** Packet types *)

Module EIO.
Definition eioOpen : byte := "0".
Definition eioClose : byte := "1".
Definition eioPing : byte := "2".
Definition eioPong : byte := "3".
Definition eioMessage : byte := "4".
Definition eioUpgrade : byte := "5".
Definition eioNoop : byte := "6".
Definition eioBinary : byte := "b".
End EIO.

Module SIO.
Definition sioConnect : byte := "0".
Definition sioDisconnect : byte := "1".
Definition sioEvent : byte := "2".
Definition sioAck : byte := "3".
Definition sioConnectError : byte := "4".
Definition sioBinaryEvent : byte := "5".
Definition sioBinaryAck : byte := "6".
End SIO.

Import EIO SIO.

(** [Data] is [None] for Go's nil [json.RawMessage]. *)
Record sioPacket := {
  Type_ : byte;
  Namespace : bytes;
  ID : option Z;
  Attachments : Z;
  Data : option bytes
}.

Inductive sio_error :=
| ErrNotConnected
| ErrAckTimeout
| ErrEmptyPacket
| ErrInvalidAttachmentCount (text : bytes)
| ErrAttachmentMismatch (want got : Z)
| ErrUnmarshal
| ErrMarshal
| ErrPacketTooLarge
| ErrEOF
| ErrTransport
| ErrExpectedOpen (got : byte)
| ErrConnectRejected (text : bytes)
| ErrUnexpectedConnect
| ErrContext.

Definition maxBinaryAttachments : Z := 64.
Definition maxBinaryBufferSize : Z := 32 * 1024 * 1024.
Definition maxEIOPacketSize : Z := 8 * 1024 * 1024.

Definition is_binary_type (t : byte) : bool := (t =b sioBinaryEvent) || (t =b sioBinaryAck).

(** ** Engine.IO framing over WebSocket messages *)

Inductive ws_frame := FrameText | FrameBinary.

(** [conn.ReadMessage] delivered this message; its error case is [ErrTransport]. *)
Definition readSingleEIOPacket (msg : result sio_error (ws_frame * bytes))
  : result sio_error (byte * bytes) :=
  '(msgType, data) ← msg;
  match data with
  | [] => Err ErrEOF
  | c :: rest =>
      if maxEIOPacketSize <? Z.of_nat (length data) then Err ErrPacketTooLarge
      else match msgType with
           | FrameBinary => Ok (eioBinary, data)
           | FrameText => Ok (c, rest)
           end
  end.

(** The message [writeEIOPacket] hands to [WriteMessage] (src/socketio/engineio.go). *)
Definition eio_message (pType : byte) (payload : bytes) : ws_frame * bytes :=
  if pType =b eioBinary then (FrameBinary, payload) else (FrameText, pType :: payload).

(** ** The Socket.IO packet codec *)

Definition encodeSIOPacket (pkt : sioPacket) : bytes :=
  [Type_ pkt]
  ++ (if is_binary_type (Type_ pkt) then Itoa (Attachments pkt) ++ ["-"%byte] else [])
  ++ (if negb (bytes_eqb (Namespace pkt) []) && negb (bytes_eqb (Namespace pkt) (str "/"))
      then Namespace pkt ++ [","%byte] else [])
  ++ (match ID pkt with Some id => Itoa id | None => [] end)
  ++ (match Data pkt with Some d => d | None => [] end).

Definition parseAttachments (data : bytes) : result sio_error (Z * bytes) :=
  let '(text, rest) := span (λ c, negb (c =b "-")) data in
  let '(attachments, err) := Atoi text in
  if bool_decide (is_Some err) || (attachments <? 0) || (maxBinaryAttachments <? attachments)
  then Err (ErrInvalidAttachmentCount text)
  else Ok (attachments, tail rest).

Definition parseNamespace (data : bytes) : bytes * bytes :=
  match data with
  | [] => (str "/", data)
  | c :: _ =>
      if c =b "/" then
        let '(nsp, rest) := span (λ c, negb (c =b ",")) data in (nsp, tail rest)
      else (str "/", data)
  end.

Definition parseAckID (data : bytes) : option Z * bytes :=
  match data with
  | [] => (None, data)
  | c :: _ =>
      if is_digit c then
        let '(text, rest) := span is_digit data in (Some (ParseInt text).1, rest)
      else (None, data)
  end.

Definition decodeSIOPacket (data : bytes) : result sio_error sioPacket :=
  match data with
  | [] => Err ErrEmptyPacket
  | t :: data1 =>
      '(attachments, data2) ←
        (if is_binary_type t then parseAttachments data1 else Ok (0, data1));
      let '(nsp, data3) := parseNamespace data2 in
      let '(id, data4) := parseAckID data3 in
      Ok {| Type_ := t; Namespace := nsp; ID := id; Attachments := attachments;
            Data := match data4 with [] => None | _ => Some data4 end |}
  end.

(** ** Values carried by events: Go's [any]

    [AFloat m e] is the float64 m * 2^e; [AMap] lists a [map[string]any] in
    the order a [range] visits it, which Go leaves unspecified. *)

#[warnings="-register-all"]
Inductive any :=
| ANil
| ABool (b : bool)
| AInt (n : Z)
| AFloat (m e : Z)
| ANumber (text : bytes)
| AString (s : bytes)
| ABytes (b : bytes)
| ASlice (l : list any)
| AMap (m : list (bytes * any))
| ARawMap (m : list (bytes * bytes))
| AFunc (callback : nat).

Section any_ind.
Variable P : any → Prop.
Hypothesis Hnil : P ANil.
Hypothesis Hbool : ∀ b, P (ABool b).
Hypothesis Hint : ∀ n, P (AInt n).
Hypothesis Hfloat : ∀ m e, P (AFloat m e).
Hypothesis Hnumber : ∀ t, P (ANumber t).
Hypothesis Hstring : ∀ s, P (AString s).
Hypothesis Hbytes : ∀ b, P (ABytes b).
Hypothesis Hslice : ∀ l, Forall P l → P (ASlice l).
Hypothesis Hmap : ∀ m, Forall (λ kv, P kv.2) m → P (AMap m).
Hypothesis Hraw : ∀ m, P (ARawMap m).
Hypothesis Hfunc : ∀ c, P (AFunc c).

(** Induction through the elements of slices and maps. *)
Fixpoint any_ind' (v : any) : P v :=
    match v with
    | ANil => Hnil
    | ABool b => Hbool b
    | AInt n => Hint n
    | AFloat m e => Hfloat m e
    | ANumber t => Hnumber t
    | AString s => Hstring s
    | ABytes b => Hbytes b
    | ASlice l => Hslice l
        ((fix go l : Forall P l :=
            match l with
            | [] => List.Forall_nil _
            | x :: l' => List.Forall_cons _ x l' (any_ind' x) (go l')
            end) l)
    | AMap m => Hmap m
        ((fix go m : Forall (λ kv, P kv.2) m :=
            match m with
            | [] => List.Forall_nil _
            | kv :: m' => List.Forall_cons _ kv m' (any_ind' kv.2) (go m')
            end) m)
    | ARawMap m => Hraw m
    | AFunc c => Hfunc c
    end.
End any_ind.

(** [m[key]] on a map listed in some order. *)
Fixpoint assoc {A} (m : list (bytes * A)) (key : bytes) : option A :=
  match m with
  | [] => None
  | (k, v) :: m' => if bytes_eqb k key then Some v else assoc m' key
  end.

(** ** encoding/json, as the client uses it

    [unmarshal_any] decodes into [any], [unmarshal_array] into
    [[]json.RawMessage], [unmarshal_string] into a string and [marshal] encodes
    a value; [None] is a non-nil error. *)
Class JSON := {
  unmarshal_any : bytes → option any;
  unmarshal_array : bytes → option (list bytes);
  unmarshal_string : bytes → option bytes;
  marshal : any → option bytes
}.

(** ** Binary attachments *)

Section binary.
Context `{JSON}.

(** The part of [hasBinary] that does not look inside [map[string]json.RawMessage]. *)
Fixpoint hasBinary_with (raw : bytes → bool) (obj : any) : bool :=
  match obj with
  | ABytes _ => true
  | ASlice v => existsb (hasBinary_with raw) v
  | AMap v => existsb (λ kv, hasBinary_with raw kv.2) v
  | ARawMap v => existsb (λ kv, raw kv.2) v
  | _ => false
  end.

(** [hasBinary] and [hasBinaryRaw] call each other; a decoded JSON value holds
    no [map[string]json.RawMessage], so one unfolding reaches every call. *)
Definition hasBinaryRaw (raw : bytes) : bool :=
  match unmarshal_any raw with
  | None => false
  | Some v => hasBinary_with (λ _, false) v
  end.

Definition hasBinary (obj : any) : bool := hasBinary_with hasBinaryRaw obj.
End binary.

Definition placeholder (idx : nat) : any :=
  AMap [(str "_placeholder", ABool true); (str "num", AInt (Z.of_nat idx))].

(** Thread the attachment list through the elements of a slice or map. *)
Definition thread {A B S : Type} (f : A → S → B * S) : list A → S → list B * S :=
  fix go l s :=
    match l with
    | [] => ([], s)
    | x :: l' => let '(y, s1) := f x s in let '(r, s2) := go l' s1 in (y :: r, s2)
    end.

Fixpoint deconstructBinaryWithOffset (data : any) (buffers : list bytes) : any * list bytes :=
  match data with
  | ABytes v => (placeholder (length buffers), buffers ++ [v])
  | ASlice v =>
      let '(r, b) := thread deconstructBinaryWithOffset v buffers in (ASlice r, b)
  | AMap v =>
      let '(r, b) := thread (λ kv b, let '(x, b') := deconstructBinaryWithOffset kv.2 b in
                                     ((kv.1, x), b')) v buffers in (AMap r, b)
  | _ => (data, buffers)
  end.

Definition deconstructBinary (data : any) : any * list bytes :=
  deconstructBinaryWithOffset data [].

Definition isPlaceholder (m : list (bytes * any)) : bool :=
  match assoc m (str "_placeholder") with Some (ABool true) => true | _ => false end.

(** [int(f)] for the float64 m * 2^e: truncation toward zero. *)
Definition float_to_int (m e : Z) : Z :=
  if 0 <=? e then m * 2 ^ e else Z.quot m (2 ^ (- e)).

Definition placeholder_index (m : list (bytes * any)) : Z :=
  match assoc m (str "num") with
  | Some (AFloat mant e) => float_to_int mant e
  | Some (AInt n) => n
  | Some (ANumber t) => (ParseInt t).1
  | _ => -1
  end.

Definition resolvePlaceholderBuffer (m : list (bytes * any)) (buffers : list bytes) : any :=
  let idx := placeholder_index m in
  if (0 <=? idx) && (idx <? Z.of_nat (length buffers)) then
    match buffers !! Z.to_nat idx with Some b => ABytes b | None => AMap m end
  else AMap m.

Fixpoint reconstructBinary (data : any) (buffers : list bytes) : any :=
  match data with
  | AMap v =>
      if isPlaceholder v then resolvePlaceholderBuffer v buffers
      else AMap (map (λ kv, (kv.1, reconstructBinary kv.2 buffers)) v)
  | ASlice v => ASlice (map (λ x, reconstructBinary x buffers) v)
  | _ => data
  end.

(** ** Reassembling a binary packet *)

Record binaryReconstructor := {
  br_attachments : Z;
  br_buffers : list bytes;
  br_packet : sioPacket
}.

Definition newBinaryReconstructor (attachments : Z) (pkt : sioPacket) : binaryReconstructor :=
  {| br_attachments :=
       if maxBinaryAttachments <? attachments then maxBinaryAttachments else attachments;
     br_buffers := []; br_packet := pkt |}.

(** The running size check of [addBuffer]: true when a prefix exceeds the limit. *)
Fixpoint exceeds (total : Z) (bufs : list bytes) : bool :=
  match bufs with
  | [] => false
  | b :: bufs' =>
      let total' := total + Z.of_nat (length b) in
      if maxBinaryBufferSize <? total' then true else exceeds total' bufs'
  end.

Definition addBuffer (br : binaryReconstructor) (data : bytes) : binaryReconstructor * bool :=
  let bufs := br_buffers br ++ [data] in
  ({| br_attachments := br_attachments br; br_buffers := bufs; br_packet := br_packet br |},
   if exceeds 0 bufs then true else br_attachments br <=? Z.of_nat (length bufs)).

Section reconstruct.
Context `{JSON}.

(** One argument: decode, put the attachments back; [None] is an unmarshal error. *)
Fixpoint reconstruct_args (rawArgs : list bytes) (bufs : list bytes) : option (list any) :=
  match rawArgs with
  | [] => Some []
  | raw :: rest =>
      v ← unmarshal_any raw;
      vs ← reconstruct_args rest bufs;
      Some (reconstructBinary v bufs :: vs)
  end.

Definition reconstruct (br : binaryReconstructor) : result sio_error sioPacket :=
  if negb (Z.of_nat (length (br_buffers br)) =? br_attachments br) then
    Err (ErrAttachmentMismatch (br_attachments br) (Z.of_nat (length (br_buffers br))))
  else
    let pkt := br_packet br in
    match unmarshal_array (default [] (Data pkt)) with
    | None => Err ErrUnmarshal
    | Some rawArgs =>
        match reconstruct_args rawArgs (br_buffers br) with
        | None => Err ErrUnmarshal
        | Some data =>
            Ok {| Type_ := sioEvent; Namespace := Namespace pkt; ID := ID pkt;
                  Attachments := Attachments pkt; Data := marshal (ASlice data) |}
        end
    end.
End reconstruct.

(** ** Codec theorems *)

(** A packet the protocol can carry: a namespace path, an acknowledgement id
    that fits an int64, and JSON text (which starts with neither a slash nor a
    digit) as data. *)
Definition data_ok (d : bytes) : bool :=
  match d with [] => false | c :: _ => negb (c =b "/") && negb (is_digit c) end.

Definition ns_ok (ns : bytes) : bool :=
  match ns with [] => true | c :: _ => (c =b "/") && forallb (λ c, negb (c =b ",")) ns end.

Definition packet_ok (p : sioPacket) : bool :=
  (if is_binary_type (Type_ p)
   then (0 <=? Attachments p) && (Attachments p <=? maxBinaryAttachments)
   else Attachments p =? 0)
  && ns_ok (Namespace p)
  && (match ID p with Some id => (0 <=? id) && (id <? 2 ^ 63) | None => true end)
  && (match Data p with Some d => data_ok d | None => true end).

(** The decoder reports the root namespace for a packet that names none. *)
Definition canonical (p : sioPacket) : sioPacket :=
  {| Type_ := Type_ p;
     Namespace := match Namespace p with [] => str "/" | ns => ns end;
     ID := ID p; Attachments := Attachments p; Data := Data p |}.

Lemma Itoa_digits n : 0 <= n → Itoa n = digits n.
Proof. intros. unfold Itoa. destruct (n <? 0) eqn:E; bools; [lia|done]. Qed.

Lemma Forall_digit_ne s d :
  is_digit d = false → Forall (λ c, is_digit c = true) s →
  Forall (λ c, negb (c =b d) = true) s.
Proof.
  intros Hd Hs. eapply Forall_impl; [exact Hs|]. intros c Hc. simpl in Hc.
  apply negb_true_iff, beq_false. congruence.
Qed.

Lemma parseAttachments_Itoa n rest :
  0 <= n <= maxBinaryAttachments →
  parseAttachments (Itoa n ++ "-"%byte :: rest) = Ok (n, rest).
Proof.
  unfold maxBinaryAttachments. intros Hn. unfold parseAttachments.
  rewrite Itoa_digits by lia. destruct (digits_spec n) as (_ & Hd & _); [lia|].
  rewrite span_spec.
  - simpl tail. unfold Atoi. rewrite ParseInt_digits by lia.
    rewrite bool_decide_eq_false_2 by (by intros []). simpl orb.
    destruct (n <? 0) eqn:E; bools; [lia|].
    destruct (maxBinaryAttachments <? n) eqn:E2; bools; [unfold maxBinaryAttachments in *; lia|done].
  - by apply Forall_digit_ne.
  - intros c t [= <- _]. by rewrite beq_refl.
Qed.

Lemma parseNamespace_explicit ns rest :
  ns_ok ns = true → ns ≠ [] → parseNamespace (ns ++ ","%byte :: rest) = (ns, rest).
Proof.
  unfold ns_ok. destruct ns as [|c ns]; [done|]. intros Hns _.
  apply andb_true_iff in Hns as [Hc Hcomma].
  simpl app. unfold parseNamespace. rewrite Hc.
  change (c :: ns ++ ","%byte :: rest) with ((c :: ns) ++ ","%byte :: rest).
  rewrite span_spec; [done| |].
  - apply Forall_forall. intros d Hd%list_elem_of_In.
    by apply (proj1 (forallb_forall _ _) Hcomma).
  - intros d t [= <- _]. by rewrite beq_refl.
Qed.

Lemma parseNamespace_none data :
  (∀ c t, data = c :: t → c ≠ "/"%byte) → parseNamespace data = (str "/", data).
Proof.
  intros Hc. destruct data as [|c t]; [done|]. unfold parseNamespace.
  by rewrite (proj2 (beq_false c "/")) by (by apply (Hc c t)).
Qed.

Definition no_digit_first (data : bytes) : Prop :=
  ∀ c t, data = c :: t → is_digit c = false.

Lemma parseAckID_Itoa id rest :
  0 <= id < 2 ^ 63 → no_digit_first rest → parseAckID (Itoa id ++ rest) = (Some id, rest).
Proof.
  intros Hid Hr. rewrite Itoa_digits by lia.
  destruct (digits_spec id) as (_ & Hd & Hne); [lia|].
  pose proof (span_spec is_digit (digits id) rest Hd Hr) as Hspan.
  pose proof (ParseInt_digits id Hid) as HP.
  destruct (digits id) as [|c ds] eqn:E; [done|].
  apply Forall_cons in Hd as [Hc Hd']. simpl app. unfold parseAckID. rewrite Hc.
  change (c :: ds ++ rest) with ((c :: ds) ++ rest). rewrite Hspan, HP. done.
Qed.

Lemma parseAckID_none rest : no_digit_first rest → parseAckID rest = (None, rest).
Proof.
  intros Hr. destruct rest as [|c t]; [done|]. unfold parseAckID.
  by rewrite (Hr c t).
Qed.

(** The tail of an encoded packet: id and data, as the decoder sees it. *)
Definition tail_text (p : sioPacket) : bytes :=
  (match ID p with Some id => Itoa id | None => [] end)
  ++ (match Data p with Some d => d | None => [] end).

Lemma data_text_no_digit p :
  (match Data p with Some d => data_ok d | None => true end) = true →
  no_digit_first (match Data p with Some d => d | None => [] end).
Proof.
  intros Hd c t. destruct (Data p) as [d|]; [|done]. intros ->. simpl in Hd. by bools.
Qed.

Lemma tail_text_no_slash p :
  packet_ok p = true → ∀ c t, tail_text p = c :: t → c ≠ "/"%byte.
Proof.
  unfold packet_ok, tail_text. intros Hok c t. bools. destruct (ID p) as [id|].
  - bools. rewrite Itoa_digits by lia. destruct (digits_spec id) as (_ & Hd & Hne); [lia|].
    destruct (digits id) as [|d ds]; [done|]. apply Forall_cons in Hd as [Hd _].
    intros [= -> _]. by apply digit_not.
  - destruct (Data p) as [d|]; [|done]. simpl app. intros ->.
    match goal with Hd : data_ok _ = true |- _ => simpl in Hd; by bools end.
Qed.

Lemma parse_tail p :
  packet_ok p = true →
  parseAckID (tail_text p) = (ID p, match Data p with Some d => d | None => [] end).
Proof.
  unfold packet_ok, tail_text. intros Hok. bools.
  pose proof (data_text_no_digit p ltac:(done)) as Hnd. destruct (ID p) as [id|].
  - bools. by apply parseAckID_Itoa.
  - by apply parseAckID_none.
Qed.

Lemma parse_namespace_tail p :
  packet_ok p = true →
  parseNamespace
    ((if negb (bytes_eqb (Namespace p) []) && negb (bytes_eqb (Namespace p) (str "/"))
      then Namespace p ++ [","%byte] else []) ++ tail_text p)
  = (Namespace (canonical p), tail_text p).
Proof.
  intros Hok. pose proof (tail_text_no_slash p Hok) as Hns.
  unfold packet_ok in Hok. bools.
  destruct (negb (bytes_eqb (Namespace p) []) && negb (bytes_eqb (Namespace p) (str "/"))) eqn:E.
  - bools. rewrite <- app_assoc. change ([","%byte] ++ ?t) with (","%byte :: t).
    rewrite parseNamespace_explicit by done.
    simpl. by destruct (Namespace p).
  - rewrite app_nil_l, parseNamespace_none by done. simpl. f_equal.
    apply andb_false_iff in E as [E|E]; bools; rewrite E; done.
Qed.

Lemma data_roundtrip p :
  (match Data p with Some d => data_ok d | None => true end) = true →
  let d0 := match Data p with Some d => d | None => [] end in
  match d0 with [] => None | _ => Some d0 end = Data p.
Proof. by destruct (Data p) as [[|]|]. Qed.

(** Decoding an encoded packet gives the packet back (with the root
    namespace made explicit), for every packet type, namespace, id and data. *)
Theorem decode_encode_SIO (p : sioPacket) (Hok : packet_ok p = true) :
  decodeSIOPacket (encodeSIOPacket p) = Ok (canonical p).
Proof.
  pose proof (parse_namespace_tail p Hok) as Hn. pose proof (parse_tail p Hok) as Ht.
  unfold packet_ok in Hok. bools. unfold encodeSIOPacket. simpl app at 1.
  unfold decodeSIOPacket. fold (tail_text p).
  pose proof (data_roundtrip p ltac:(done)) as Hdata.
  destruct (is_binary_type (Type_ p)) eqn:Et; bools.
  - rewrite <- app_assoc. change (["-"%byte] ++ ?t) with ("-"%byte :: t).
    rewrite parseAttachments_Itoa by lia.
    cbn [mbind result_bind]. rewrite Hn, Ht. unfold canonical at 2. by rewrite Hdata.
  - cbn [mbind result_bind]. simpl app at 1. rewrite Hn, Ht. unfold canonical at 2.
    rewrite Hdata. match goal with Ha : Attachments p = 0 |- _ => by rewrite Ha end.
Qed.

(** ** What the decoder accepts *)

Definition wf_decoded (p : sioPacket) : Prop :=
  (0 <= Attachments p <= maxBinaryAttachments) ∧
  (is_binary_type (Type_ p) = false → Attachments p = 0) ∧
  (∀ id, ID p = Some id → 0 <= id < 2 ^ 63) ∧
  HasPrefix (Namespace p) (str "/") = true ∧ (","%byte ∉ Namespace p) ∧
  Data p ≠ Some [].

Lemma parseAttachments_ok data n rest :
  parseAttachments data = Ok (n, rest) → 0 <= n <= maxBinaryAttachments.
Proof.
  unfold parseAttachments. destruct (span _ data) as [text r]. destruct (Atoi text) as [a err].
  destruct (_ || _) eqn:E; intros [= <- <-]. bools. lia.
Qed.

Lemma root_namespace_ok : HasPrefix (str "/") (str "/") = true ∧ (","%byte ∉ str "/").
Proof.
  split; [done|]. change (str "/") with ["/"%byte]. by rewrite list_elem_of_singleton.
Qed.

Lemma parseNamespace_ok data :
  HasPrefix (parseNamespace data).1 (str "/") = true ∧ (","%byte ∉ (parseNamespace data).1).
Proof.
  unfold parseNamespace. destruct data as [|c data]; [apply root_namespace_ok|].
  destruct (c =b "/") eqn:E; [|apply root_namespace_ok]. bools. subst.
  pose proof (span_all (λ c, negb (c =b ",")) ("/"%byte :: data)) as Hall. simpl span in *.
  destruct (span _ data) as [u v]. simpl in *. split; [done|].
  intros Hin. rewrite Forall_forall in Hall. by specialize (Hall _ Hin).
Qed.

Lemma dec_value_nonneg s : Forall (λ c, is_digit c = true) s → 0 <= dec_value s.
Proof. intros Hs. by apply (foldl_digits_mono s 0). Qed.

Lemma ParseInt_digits_nonneg s :
  Forall (λ c, is_digit c = true) s → 0 <= (ParseInt s).1 < 2 ^ 63.
Proof.
  intros Hs. destruct (ParseInt s) as [v e] eqn:E.
  pose proof (ParseInt_value_range s v e E). simpl. split; [|lia]. revert E.
  unfold ParseInt. destruct s as [|c s]; [intros [= <- <-]; lia|].
  rewrite Forall_cons in Hs. destruct Hs as [Hc _].
  rewrite (proj2 (beq_false c "-")) by (by apply digit_not).
  destruct (ParseUint 64 _) as [un e'] eqn:EU. apply ParseUint_range in EU; [|lia].
  destruct e' as [[]|]; simpl; repeat case_match; bools; intros [= <- <-]; lia.
Qed.

Lemma parseAckID_ok data id : (parseAckID data).1 = Some id → 0 <= id < 2 ^ 63.
Proof.
  unfold parseAckID. destruct data as [|c data]; [done|]. destruct (is_digit c); [|done].
  pose proof (span_all is_digit (c :: data)) as Hall. destruct (span _ _) as [u v].
  simpl in *. intros [= <-]. by apply ParseInt_digits_nonneg.
Qed.

(** Whatever bytes arrive, the decoder either rejects them or returns a
    packet within the protocol's bounds: at most 64 attachments, an
    acknowledgement id that fits an int64, a rooted namespace without comma.
    It rejects exactly the empty packet and the binary packets whose
    attachment count is not a number in range. *)
Theorem decode_SIO_bounds (data : bytes) :
  match decodeSIOPacket data with
  | Ok p => wf_decoded p ∧ head data = Some (Type_ p)
  | Err e =>
      (data = [] ∧ e = ErrEmptyPacket) ∨
      (∃ t rest e', data = t :: rest ∧ is_binary_type t = true ∧
         parseAttachments rest = Err e' ∧ e = e')
  end.
Proof.
  destruct data as [|t data]; simpl; [by left|].
  destruct (if is_binary_type t then _ else _) as [[n rest]|e] eqn:EA;
    cbn [mbind result_bind].
  - pose proof (parseNamespace_ok rest) as [Hp Hc].
    destruct (parseNamespace rest) as [nsp rest2].
    pose proof (parseAckID_ok rest2) as Hid. destruct (parseAckID rest2) as [id rest3].
    split; [|done]. simpl in *. unfold wf_decoded. simpl.
    destruct (is_binary_type t) eqn:Et.
    + apply parseAttachments_ok in EA. split_and!; try done; try lia; by destruct rest3.
    + simplify_eq. unfold maxBinaryAttachments. split_and!; try done; try lia; by destruct rest3.
  - right. destruct (is_binary_type t) eqn:Et; [|done]. eauto 10.
Qed.

Lemma decode_type data : ∀ p, decodeSIOPacket data = Ok p → head data = Some (Type_ p).
Proof.
  destruct data as [|t data]; simpl; [done|]. intros p.
  destruct (if is_binary_type t then _ else _) as [[n rest]|e]; cbn [mbind result_bind]; [|done].
  destruct (parseNamespace rest), (parseAckID _). by intros [= <-].
Qed.

(** ** Attachments are taken out and put back *)

(** A value none of whose maps looks like a placeholder already. *)
Fixpoint no_placeholder (v : any) : bool :=
  match v with
  | ASlice l => forallb no_placeholder l
  | AMap m => negb (isPlaceholder m) && forallb (λ kv, no_placeholder kv.2) m
  | _ => true
  end.

(** Ints come back from a JSON round trip as float64. *)
Fixpoint json_ints (v : any) : any :=
  match v with
  | AInt n => AFloat n 0
  | ASlice l => ASlice (map json_ints l)
  | AMap m => AMap (map (λ kv, (kv.1, json_ints kv.2)) m)
  | _ => v
  end.

(** [restores d bufs v]: with attachments [bufs], [d] reconstructs to [v],
    directly and after a JSON round trip. *)
Definition restores (d : any) (bufs : list bytes) (v : any) : Prop :=
  reconstructBinary d bufs = v ∧ reconstructBinary (json_ints d) bufs = json_ints v ∧
  (d = ABool true → v = ABool true) ∧ (json_ints d = ABool true → v = ABool true).

Lemma thread_spec {A B} (f : A → list bytes → B * list bytes) (R : B → list bytes → A → Prop) l :
  Forall (λ x, ∀ b0, ∃ ext, (f x b0).2 = b0 ++ ext ∧ ∀ more, R (f x b0).1 (b0 ++ ext ++ more) x) l →
  ∀ b0, ∃ ext, (thread f l b0).2 = b0 ++ ext ∧
    ∀ more, Forall2 (λ d x, R d (b0 ++ ext ++ more) x) (thread f l b0).1 l.
Proof.
  intros Hl. induction Hl as [|x l Hx Hl IH]; intros b0; simpl.
  { exists []. rewrite app_nil_r. split; [done|constructor]. }
  destruct (Hx b0) as (e1 & H1 & R1). destruct (f x b0) as [y s1]. simpl in *. subst s1.
  destruct (IH (b0 ++ e1)) as (e2 & H2 & R2). destruct (thread f l _) as [r s2]. simpl in *.
  subst s2. exists (e1 ++ e2). rewrite app_assoc. split; [done|]. intros more. constructor.
  - rewrite <- (app_assoc e1). apply R1.
  - specialize (R2 more). by rewrite <- app_assoc, (app_assoc e1) in R2.
Qed.

Lemma restores_slice r l bufs :
  Forall2 (λ d x, restores d bufs x) r l → restores (ASlice r) bufs (ASlice l).
Proof.
  intros Hr. unfold restores. simpl. split_and!; try done; f_equal;
    induction Hr as [|d x r l (H1 & H2 & _) Hr IH]; simpl; congruence.
Qed.

Lemma restores_placeholder_key (r l : list (bytes * any)) bufs :
  Forall2 (λ d x, d.1 = x.1 ∧ restores d.2 bufs x.2) r l → isPlaceholder l = false →
  isPlaceholder r = false ∧ isPlaceholder (map (λ kv, (kv.1, json_ints kv.2)) r) = false.
Proof.
  unfold isPlaceholder. intros Hr. induction Hr as [|[k d] [k' x] r l [Hk Hd] Hr IH]; [done|].
  simpl in *. subst k'. destruct (bytes_eqb k (str "_placeholder")); [|exact IH].
  destruct Hd as (_ & _ & H3 & H4). intros Hx.
  assert (x ≠ ABool true) as Hne by (by intros ->). split.
  - destruct d as [|[]| | | | | | | | |]; try done. by destruct Hne, H3.
  - destruct (json_ints d) as [|[]| | | | | | | | |]; try done. by destruct Hne, H4.
Qed.

Lemma restores_map r l bufs :
  Forall2 (λ d x, d.1 = x.1 ∧ restores d.2 bufs x.2) r l → isPlaceholder l = false →
  restores (AMap r) bufs (AMap l).
Proof.
  intros Hr Hl. destruct (restores_placeholder_key r l bufs Hr Hl) as [P1 P2].
  unfold restores. simpl. rewrite P1, P2. split_and!; try done; f_equal;
    clear P1 P2 Hl; induction Hr as [|[k d] [k' x] r l [Hk (H1 & H2 & _)] Hr IH];
    simpl in *; congruence.
Qed.

Lemma restores_bytes b (b0 more : list bytes) :
  restores (placeholder (length b0)) (b0 ++ [b] ++ more) (ABytes b).
Proof.
  assert (Hlt : (Z.of_nat (length b0) <? Z.of_nat (length (b0 ++ [b] ++ more))) = true).
  { apply Z.ltb_lt. lens. }
  assert (Hge : (0 <=? Z.of_nat (length b0)) = true) by (apply Z.leb_le; lia).
  assert (Hget : (b0 ++ [b] ++ more) !! length b0 = Some b).
  { by rewrite lookup_app_r, Nat.sub_diag by lia. }
  split_and!; [| |done|done].
  - change (reconstructBinary _ _) with
      (resolvePlaceholderBuffer [(str "_placeholder", ABool true);
         (str "num", AInt (Z.of_nat (length b0)))] (b0 ++ [b] ++ more)).
    unfold resolvePlaceholderBuffer.
    change (placeholder_index _) with (Z.of_nat (length b0)).
    by rewrite Hge, Hlt, Nat2Z.id, Hget.
  - change (reconstructBinary _ _) with
      (resolvePlaceholderBuffer [(str "_placeholder", ABool true);
         (str "num", AFloat (Z.of_nat (length b0)) 0)] (b0 ++ [b] ++ more)).
    unfold resolvePlaceholderBuffer.
    change (placeholder_index _) with (Z.of_nat (length b0) * 1).
    by rewrite Z.mul_1_r, Hge, Hlt, Nat2Z.id, Hget.
Qed.

Lemma deconstruct_restores v :
  no_placeholder v = true → ∀ b0, ∃ ext,
  (deconstructBinaryWithOffset v b0).2 = b0 ++ ext ∧
  ∀ more, restores (deconstructBinaryWithOffset v b0).1 (b0 ++ ext ++ more) v.
Proof.
  induction v as [| | | | | |b|l IH|m IH| |] using any_ind'; intros Hnp b0;
    try (exists []; simpl; rewrite app_nil_r; split; [done|]; by intros; split_and!).
  - exists [b]. split; [done|]. intros more. apply restores_bytes.
  - simpl in *. pose proof (thread_spec deconstructBinaryWithOffset restores l) as HT.
    destruct (HT ltac:(clear HT; rewrite forallb_forall in Hnp; rewrite Forall_forall in *;
      intros x Hx; apply IH; [done|apply Hnp; by apply list_elem_of_In]) b0) as (ext & H1 & H2).
    destruct (thread _ l b0) as [r b]. simpl in *. exists ext. split; [done|].
    intros more. by apply restores_slice.
  - simpl in *. bools. rename m into l.
    pose proof (thread_spec (λ kv b, let '(x, b') := deconstructBinaryWithOffset kv.2 b in
                                     ((kv.1, x), b'))
                  (λ d bufs x, d.1 = x.1 ∧ restores d.2 bufs x.2) l) as HT.
    match goal with Hf : forallb _ _ = true |- _ => rewrite forallb_forall in Hf;
      destruct (HT ltac:(clear HT; rewrite Forall_forall in *; intros x Hx b1;
        destruct (IH x Hx ltac:(apply Hf; by apply list_elem_of_In) b1) as (e & E1 & E2);
        exists e; destruct (deconstructBinaryWithOffset x.2 b1); simpl in *; auto) b0)
        as (ext & H1 & H2) end.
    destruct (thread _ l b0) as [r b]. simpl in *. exists ext. split; [done|].
    intros more. by apply restores_map.
Qed.

(** Taking the binary attachments out of a value and reinserting them
    gives the value back, in process and across the JSON encoding of the
    placeholders. *)
Theorem reconstruct_deconstruct (v : any) (Hv : no_placeholder v = true) :
  let '(d, bufs) := deconstructBinary v in
  reconstructBinary d bufs = v ∧ reconstructBinary (json_ints d) bufs = json_ints v.
Proof.
  destruct (deconstruct_restores v Hv []) as (ext & H1 & H2). specialize (H2 []).
  unfold deconstructBinary. destruct (deconstructBinaryWithOffset v []) as [d bufs].
  simpl in *. subst bufs. rewrite app_nil_r in H2. destruct H2 as (? & ? & _). done.
Qed.

(** ** When a value has attachments *)

(** The byte slices inside a value, in the order they are met: the
    specification of the attachment list. *)
Fixpoint binary_leaves (v : any) : list bytes :=
  match v with
  | ABytes b => [b]
  | ASlice l => concat (map binary_leaves l)
  | AMap m => concat (map (λ kv, binary_leaves kv.2) m)
  | _ => []
  end.

(** The values [json.Unmarshal] stores into an [any]: nil, bool, float64,
    string, []any and map[string]any (documentation of encoding/json). *)
Fixpoint json_value (v : any) : bool :=
  match v with
  | ANil | ABool _ | AFloat _ _ | AString _ => true
  | ASlice l => forallb json_value l
  | AMap m => forallb (λ kv, json_value kv.2) m
  | _ => false
  end.

Class JSONLaws `{JSON} : Prop :=
  unmarshal_json_value : ∀ raw v, unmarshal_any raw = Some v → json_value v = true.

Lemma json_value_no_binary raw v : json_value v = true → hasBinary_with raw v = false.
Proof.
  induction v as [| | | | | | |l IH|m IH| |] using any_ind'; simpl; try done; intros Hl;
    induction IH as [|x l Hx Hl' IH']; simpl in *; try done; bools;
    rewrite Hx by done; by apply IH'.
Qed.

Lemma thread_leaves {A B} (f : A → list bytes → B * list bytes) (leaves : A → list bytes) l :
  Forall (λ x, ∀ b0, (f x b0).2 = b0 ++ leaves x) l →
  ∀ b0, (thread f l b0).2 = b0 ++ concat (map leaves l).
Proof.
  intros Hl. induction Hl as [|x l Hx Hl IH]; intros b0; simpl; [by rewrite app_nil_r|].
  specialize (Hx b0). destruct (f x b0) as [y s1]. simpl in *. subst s1.
  specialize (IH (b0 ++ leaves x)). destruct (thread f l _) as [r s2]. simpl in *.
  by rewrite IH, app_assoc.
Qed.

Lemma deconstruct_leaves v : ∀ b0,
  (deconstructBinaryWithOffset v b0).2 = b0 ++ binary_leaves v.
Proof.
  induction v as [| | | | | |b|l IH|m IH| |] using any_ind'; intros b0; simpl;
    rewrite ?app_nil_r; try done.
  - rewrite <- (thread_leaves deconstructBinaryWithOffset binary_leaves l IH b0).
    by destruct (thread _ l b0).
  - rewrite <- (thread_leaves (λ kv b, let '(x, b') := deconstructBinaryWithOffset kv.2 b in
                                     ((kv.1, x), b')) (λ kv, binary_leaves kv.2) m).
    + by destruct (thread _ m b0).
    + eapply Forall_impl; [exact IH|]. intros [k x] Hx b1. simpl in *.
      rewrite <- Hx. by destruct (deconstructBinaryWithOffset x b1).
Qed.

Lemma existsb_leaves {A} (f : A → bool) (leaves : A → list bytes) l :
  Forall (λ x, f x = bool_decide (leaves x ≠ [])) l →
  existsb f l = bool_decide (concat (map leaves l) ≠ []).
Proof.
  intros Hl. induction Hl as [|x l Hx Hl IH]; simpl; [done|]. rewrite Hx, IH.
  destruct (leaves x) as [|b bs].
  - reflexivity.
  - rewrite (bool_decide_eq_true_2 (_ :: _ ≠ [])) by done.
    by rewrite (bool_decide_eq_true_2 ((_ :: _) ++ _ ≠ [])).
Qed.

(** The attachments are exactly the byte slices of the value, in order,
    and the client takes the binary path exactly when there is at least one. *)
Theorem hasBinary_attachments `{JSONLaws} (v : any) :
  (deconstructBinary v).2 = binary_leaves v ∧
  hasBinary v = bool_decide ((deconstructBinary v).2 ≠ []).
Proof.
  unfold deconstructBinary. rewrite deconstruct_leaves. simpl. split; [done|].
  unfold hasBinary.
  induction v as [| | | | | |b|l IH|m IH|m|] using any_ind'; simpl; try done.
  - by apply existsb_leaves.
  - apply (existsb_leaves (λ kv, hasBinary_with hasBinaryRaw kv.2) (λ kv, binary_leaves kv.2)).
    exact IH.
  - induction m as [|[k raw] m IHm]; simpl; [done|]. rewrite IHm.
    unfold hasBinaryRaw. destruct (unmarshal_any raw) as [v|] eqn:E; [|done].
    by rewrite json_value_no_binary by (by eapply unmarshal_json_value).
Qed.

(** ** Engine.IO framing *)

(** What [writeEIOPacket] sends is read back as the same Engine.IO packet,
    for every packet within the size limit except an empty binary one. *)
Theorem read_write_EIO (pType : byte) (payload : bytes)
  (Hsize : Z.of_nat (length (eio_message pType payload).2) <= maxEIOPacketSize)
  (Hne : pType = eioBinary → payload ≠ []) :
  readSingleEIOPacket (Ok (eio_message pType payload)) = Ok (pType, payload).
Proof.
  unfold readSingleEIOPacket, eio_message in *. cbn [mbind result_bind].
  destruct (pType =b eioBinary) eqn:E; bools; simpl in Hsize.
  - subst. destruct payload as [|c s]; [by destruct Hne|].
    destruct (maxEIOPacketSize <? _) eqn:E2; bools; [lia|done].
  - destruct (maxEIOPacketSize <? _) eqn:E2; bools; [simpl in E2; lia|done].
Qed.

(** An empty binary attachment, which the client sends as an empty binary
    frame, is read as end of file on receipt, whatever the packet it belongs to. *)
Theorem empty_binary_frame_is_EOF :
  readSingleEIOPacket (Ok (eio_message eioBinary [])) = Err ErrEOF.
Proof. reflexivity. Qed.

(** ** Reassembly *)

(** Frames delivered one after the other until the reconstructor is complete. *)
Fixpoint feed (br : binaryReconstructor) (frames : list bytes) : binaryReconstructor * bool :=
  match frames with
  | [] => (br, false)
  | f :: frames' =>
      let '(br', complete) := addBuffer br f in
      if complete then (br', true) else feed br' frames'
  end.

Definition total_size (bufs : list bytes) : Z := Z.of_nat (length (concat bufs)).

Lemma exceeds_spec bufs t : exceeds t bufs = false → t <= maxBinaryBufferSize →
  t + total_size bufs <= maxBinaryBufferSize.
Proof.
  unfold total_size. revert t. induction bufs as [|b bufs IH]; intros t; simpl; [lia|].
  destruct (maxBinaryBufferSize <? _) eqn:E; bools; [done|].
  intros H1 _. specialize (IH _ H1 E). lens.
Qed.

Lemma exceeds_small bufs t :
  t + total_size bufs <= maxBinaryBufferSize → exceeds t bufs = false.
Proof.
  unfold total_size. revert t. induction bufs as [|b bufs IH]; intros t; simpl; [done|].
  intros H. destruct (maxBinaryBufferSize <? _) eqn:E; bools; [lens|]. apply IH. lens.
Qed.

Lemma feed_incomplete br frames br' :
  feed br frames = (br', false) → br_attachments br' = br_attachments br ∧
  br_packet br' = br_packet br ∧ br_buffers br' = br_buffers br ++ frames ∧
  (frames ≠ [] → Z.of_nat (length (br_buffers br')) < br_attachments br ∧
                 total_size (br_buffers br') <= maxBinaryBufferSize).
Proof.
  revert br. induction frames as [|f frames IH]; intros br; simpl.
  { intros [= ->]. by rewrite app_nil_r. }
  destruct (exceeds 0 _) eqn:E; [done|].
  destruct (br_attachments br <=? _) eqn:E2; bools; [done|].
  intros H. destruct (IH _ H) as (H1 & H2 & H3 & H4). simpl in *.
  rewrite <- app_assoc in H3. simpl in H3. split_and!; try done.
  intros _. destruct frames as [|g frames].
  - rewrite H3. simpl. split; [lia|].
    pose proof (exceeds_spec _ _ E ltac:(unfold maxBinaryBufferSize; lia)). lia.
  - by apply H4.
Qed.

Lemma feed_prefix br frames k :
  (k < length frames)%nat →
  Z.of_nat (length (br_buffers br) + length frames) <= br_attachments br →
  total_size (br_buffers br ++ frames) <= maxBinaryBufferSize →
  (feed br (take k frames)).2 = false.
Proof.
  revert br k. induction frames as [|f frames IH]; intros br [|k] Hk Hn Ht;
    simpl in *; try lia.
  rewrite exceeds_small.
  2: { revert Ht. unfold total_size. rewrite !concat_app. simpl. lens. }
  destruct (br_attachments br <=? _) eqn:E; bools.
  { exfalso. lens. }
  apply IH; simpl; [lia|lens|by rewrite <- app_assoc].
Qed.

Lemma feed_all br frames :
  frames ≠ [] →
  Z.of_nat (length (br_buffers br) + length frames) = br_attachments br →
  total_size (br_buffers br ++ frames) <= maxBinaryBufferSize →
  feed br frames = ({| br_attachments := br_attachments br;
    br_buffers := br_buffers br ++ frames; br_packet := br_packet br |}, true).
Proof.
  revert br. induction frames as [|f frames IH]; intros br Hne Hn Ht; [done|].
  simpl in *. rewrite exceeds_small.
  2: { revert Ht. unfold total_size. rewrite !concat_app. simpl. lens. }
  destruct frames as [|g frames].
  - destruct (br_attachments br <=? _) eqn:E; bools; [done|lens].
  - destruct (br_attachments br <=? _) eqn:E; bools; [lens|].
    rewrite IH; simpl; [by rewrite <- app_assoc|done|lens|by rewrite <- app_assoc].
Qed.

(** A binary packet with n attachments is complete after exactly n frames,
    which it then holds in order; and whatever frames arrive, an incomplete
    one holds fewer than 64 frames and at most 32 MiB. *)
Theorem reassembly (n : Z) (pkt : sioPacket) (frames : list bytes)
  (Hn : 1 <= n <= maxBinaryAttachments) :
  (Z.of_nat (length frames) = n → total_size frames <= maxBinaryBufferSize →
     feed (newBinaryReconstructor n pkt) frames =
       ({| br_attachments := n; br_buffers := frames; br_packet := pkt |}, true) ∧
     ∀ k, (k < length frames)%nat →
       (feed (newBinaryReconstructor n pkt) (take k frames)).2 = false) ∧
  (∀ br, feed (newBinaryReconstructor n pkt) frames = (br, false) →
     Z.of_nat (length (br_buffers br)) < maxBinaryAttachments ∧
     total_size (br_buffers br) <= maxBinaryBufferSize).
Proof.
  unfold newBinaryReconstructor.
  destruct (maxBinaryAttachments <? n) eqn:E; bools; [lia|]. split.
  - intros Hl Ht. split.
    + rewrite feed_all; simpl; [done| |lia|done]. intros ->. simpl in Hl. lia.
    + intros k Hk. apply feed_prefix; simpl; [done|lia|done].
  - intros br Hf. destruct (feed_incomplete _ _ _ Hf) as (_ & _ & Hb & Hlim). simpl in *.
    destruct frames as [|f frames].
    + rewrite Hb. by vm_compute.
    + destruct (Hlim ltac:(done)) as [H1 H2]. split; [lia|done].
Qed.

(** ** Witnesses: the theorems at concrete packets *)

Definition sample_packet : sioPacket :=
  {| Type_ := sioBinaryEvent; Namespace := str "/admin"; ID := Some 42; Attachments := 2;
     Data := Some (str "[x,y]") |}.

Example encode_sample : encodeSIOPacket sample_packet = str "52-/admin,42[x,y]".
Proof. reflexivity. Qed.

Lemma decode_encode_SIO_witness :
  decodeSIOPacket (encodeSIOPacket sample_packet) = Ok (canonical sample_packet).
Proof. apply (decode_encode_SIO sample_packet). vm_compute. reflexivity. Defined.

Definition sample_args : any :=
  ASlice [AString (str "upload"); AMap [(str "a", ABytes (str "xy")); (str "n", AInt 7)];
          ABytes (str "z")].

Lemma reconstruct_deconstruct_witness :
  let '(d, bufs) := deconstructBinary sample_args in
  bufs = [str "xy"; str "z"] ∧
  reconstructBinary d bufs = sample_args ∧
  reconstructBinary (json_ints d) bufs = json_ints sample_args.
Proof.
  pose proof (reconstruct_deconstruct sample_args eq_refl) as H.
  split; [reflexivity|exact H].
Defined.

(** A decoder of the JSON literals, enough to instantiate the interface. *)
Definition literal_json (raw : bytes) : option any :=
  if bytes_eqb raw (str "null") then Some ANil
  else if bytes_eqb raw (str "true") then Some (ABool true)
  else if bytes_eqb raw (str "false") then Some (ABool false) else None.

Definition literal_JSON : JSON :=
  {| unmarshal_any := literal_json; unmarshal_array := λ _, None;
     unmarshal_string := λ _, None; marshal := λ _, None |}.

Lemma literal_JSONLaws : @JSONLaws literal_JSON.
Proof.
  intros raw v. simpl. unfold literal_json. repeat case_match; by intros [= <-].
Qed.

Lemma hasBinary_attachments_witness :
  (deconstructBinary sample_args).2 = binary_leaves sample_args ∧
  @hasBinary literal_JSON sample_args = bool_decide ((deconstructBinary sample_args).2 ≠ []).
Proof. exact (@hasBinary_attachments literal_JSON literal_JSONLaws sample_args). Defined.

Lemma read_write_EIO_witness :
  readSingleEIOPacket (Ok (eio_message eioMessage (str "2[]"))) = Ok (eioMessage, str "2[]").
Proof. apply read_write_EIO; [vm_compute; discriminate|discriminate]. Defined.

Lemma reassembly_witness :
  feed (newBinaryReconstructor 2 sample_packet) [str "xy"; str "z"] =
    ({| br_attachments := 2; br_buffers := [str "xy"; str "z"]; br_packet := sample_packet |}, true).
Proof.
  apply (proj1 (reassembly 2 sample_packet [str "xy"; str "z"] ltac:(vm_compute; split; discriminate)));
    [reflexivity|vm_compute; discriminate].
Defined.
