(* ===== verification/SocketIOConn.v ===== *)
(** * The Socket.IO client connection
    (src/socketio/client.go, engineio.go, reconnect.go)

    The connection object, its handlers and its background loops.  A handler
    is a function from the connection to the connection, the effects it
    performs in order (frames written, sockets closed, callbacks and
    goroutines started) and its result.  What the environment decides (which
    message arrives, whether a write succeeds, whether a deadline fires) is an
    argument.  The loops that run concurrently are the steps of [sys_step]. *)

From S2P Require Import Prelude GoLib SocketIOPacket.
Import EIO SIO.

#[local] Open Scope Z_scope.

(** ** Data *)

Definition Millisecond : Z := 1000000.
Definition Second : Z := 1000000000.

Inductive auth_value :=
| AuthMap (m : list (bytes * any))
| AuthOther (v : any).

(** Durations are int64 nanoseconds; the jitter factor is the float64 m * 2^e. *)
Record Config := {
  Reconnection : bool;
  ReconnectionAttempts : Z;
  ReconnectionDelay : Z;
  ReconnectionDelayMax : Z;
  JitterFactor : Z * Z;
  ConnectTimeout : Z;
  PingTimeout : Z;
  cfg_Namespace : bytes;
  Auth : option auth_value
}.

Inductive sioConnState := sioStateClosed | sioStateOpening | sioStateOpen.
Inductive sioEventType := sioEventTypeOpen | sioEventTypeClose | sioEventTypeReconnect.

#[export] Instance sioConnState_eq_dec : EqDecision sioConnState.
Proof. solve_decision. Defined.
#[export] Instance sioEventType_eq_dec : EqDecision sioEventType.
Proof. solve_decision. Defined.

Record TransitionRule := { From_ : sioConnState; Event_ : sioEventType; To_ : sioConnState }.

(** The rules [initFSM] installs; the machine starts in [sioStateClosed]. *)
Definition initFSM : list TransitionRule := [
  {| From_ := sioStateClosed; Event_ := sioEventTypeOpen; To_ := sioStateOpen |};
  {| From_ := sioStateOpen; Event_ := sioEventTypeClose; To_ := sioStateClosed |};
  {| From_ := sioStateClosed; Event_ := sioEventTypeReconnect; To_ := sioStateOpen |};
  {| From_ := sioStateOpening; Event_ := sioEventTypeOpen; To_ := sioStateOpen |};
  {| From_ := sioStateOpening; Event_ := sioEventTypeClose; To_ := sioStateClosed |}].

(** ** The packages the client is built on

    [generic.Coalesce], the state machine of [async/fsm] and the
    acknowledgement table of [async/task] are outside the repository: they
    are an interface, with the behaviour the client relies on as laws. *)
Class Foundation := {
  Coalesce_duration : Z → Z → Z;
  Coalesce_float : Z * Z → Z * Z → Z * Z;
  Coalesce_string : bytes → bytes → bytes;
  Transition : list TransitionRule → sioConnState → sioEventType → sioConnState;
  ack_manager : Type;
  ack_new : ack_manager;
  ack_NextID : ack_manager → Z * ack_manager;
  ack_Add : Z → nat → ack_manager → ack_manager;
  ack_Resolve : Z → ack_manager → option nat * ack_manager
}.

Definition rule_for (st : sioConnState) (ev : sioEventType) (r : TransitionRule) : bool :=
  bool_decide (From_ r = st) && bool_decide (Event_ r = ev).

(** [Coalesce] returns its first non-zero argument; [Transition] follows the
    rule for the current state and event and refuses the event otherwise. *)
Class FoundationLaws `{Foundation} : Prop := {
  Coalesce_string_spec : ∀ a b, Coalesce_string a b = if bytes_eqb a [] then b else a;
  Coalesce_duration_spec : ∀ a b, Coalesce_duration a b = if a =? 0 then b else a;
  Transition_spec : ∀ rules st ev,
    Transition rules st ev =
      match List.find (rule_for st ev) rules with Some r => To_ r | None => st end
}.

(** An entry of the authentication object: a value, or a [json.RawMessage]. *)
Inductive auth_entry := EAny (v : any) | ERaw (raw : bytes).

(** [json.Unmarshal] into the two response structs; a field absent from the
    text keeps its zero value. *)
Class HandshakeJSON := {
  unmarshal_open : bytes → option (bytes * Z * Z);
  unmarshal_connect : bytes → bytes * bytes;
  marshal_auth : list (bytes * auth_entry) → option bytes
}.

Inductive effect :=
| WriteMessage (frame : ws_frame) (data : bytes)
| CloseSocket (ws : nat)
| SignalPong (ch : nat)
| GoCallback (callback : nat) (args : list bytes)
| GoReadLoop
| GoHeartbeat
| GoReconnect.

Section client.
Context {FD : Foundation} {JS : JSON} {HJ : HandshakeJSON}.

(** [conn] is the current WebSocket, [closed] whether the [closed] channel has
    been closed, [pongCh] the identity of the current pong channel, [nil] entries
    of the handler tables are [None]. *)
Record Conn := MkConn {
  c_conn : option nat;
  c_sid : bytes;
  c_closed : bool;
  c_config : Config;
  c_namespace : bytes;
  c_nsEvents : gmap bytes (gmap bytes (option nat));
  c_onClose : option nat;
  c_onReconnecting : option nat;
  c_onReconnected : option nat;
  c_onReconnectFailed : option nat;
  c_ackMgr : ack_manager;
  c_state : sioConnState;
  c_fsm : sioConnState;
  c_attemptCount : Z;
  c_skipReconnect : bool;
  c_pingInterval : Z;
  c_pongCh : option nat;
  c_binaryBuf : option binaryReconstructor;
  c_pid : bytes;
  c_offset : bytes
}.

Definition set_conn (v : option nat) (s : Conn) : Conn :=
  MkConn v (c_sid s) (c_closed s) (c_config s) (c_namespace s) (c_nsEvents s) (c_onClose
    s) (c_onReconnecting s) (c_onReconnected s) (c_onReconnectFailed s) (c_ackMgr s)
    (c_state s) (c_fsm s) (c_attemptCount s) (c_skipReconnect s) (c_pingInterval s)
    (c_pongCh s) (c_binaryBuf s) (c_pid s) (c_offset s).
Definition set_sid (v : bytes) (s : Conn) : Conn :=
  MkConn (c_conn s) v (c_closed s) (c_config s) (c_namespace s) (c_nsEvents s) (c_onClose
    s) (c_onReconnecting s) (c_onReconnected s) (c_onReconnectFailed s) (c_ackMgr s)
    (c_state s) (c_fsm s) (c_attemptCount s) (c_skipReconnect s) (c_pingInterval s)
    (c_pongCh s) (c_binaryBuf s) (c_pid s) (c_offset s).
Definition set_closed (v : bool) (s : Conn) : Conn :=
  MkConn (c_conn s) (c_sid s) v (c_config s) (c_namespace s) (c_nsEvents s) (c_onClose s)
    (c_onReconnecting s) (c_onReconnected s) (c_onReconnectFailed s) (c_ackMgr s) (c_state
    s) (c_fsm s) (c_attemptCount s) (c_skipReconnect s) (c_pingInterval s) (c_pongCh s)
    (c_binaryBuf s) (c_pid s) (c_offset s).
Definition set_config (v : Config) (s : Conn) : Conn :=
  MkConn (c_conn s) (c_sid s) (c_closed s) v (c_namespace s) (c_nsEvents s) (c_onClose s)
    (c_onReconnecting s) (c_onReconnected s) (c_onReconnectFailed s) (c_ackMgr s) (c_state
    s) (c_fsm s) (c_attemptCount s) (c_skipReconnect s) (c_pingInterval s) (c_pongCh s)
    (c_binaryBuf s) (c_pid s) (c_offset s).
Definition set_namespace (v : bytes) (s : Conn) : Conn :=
  MkConn (c_conn s) (c_sid s) (c_closed s) (c_config s) v (c_nsEvents s) (c_onClose s)
    (c_onReconnecting s) (c_onReconnected s) (c_onReconnectFailed s) (c_ackMgr s) (c_state
    s) (c_fsm s) (c_attemptCount s) (c_skipReconnect s) (c_pingInterval s) (c_pongCh s)
    (c_binaryBuf s) (c_pid s) (c_offset s).
Definition set_nsEvents (v : gmap bytes (gmap bytes (option nat))) (s : Conn) : Conn :=
  MkConn (c_conn s) (c_sid s) (c_closed s) (c_config s) (c_namespace s) v (c_onClose s)
    (c_onReconnecting s) (c_onReconnected s) (c_onReconnectFailed s) (c_ackMgr s) (c_state
    s) (c_fsm s) (c_attemptCount s) (c_skipReconnect s) (c_pingInterval s) (c_pongCh s)
    (c_binaryBuf s) (c_pid s) (c_offset s).
Definition set_onClose (v : option nat) (s : Conn) : Conn :=
  MkConn (c_conn s) (c_sid s) (c_closed s) (c_config s) (c_namespace s) (c_nsEvents s) v
    (c_onReconnecting s) (c_onReconnected s) (c_onReconnectFailed s) (c_ackMgr s) (c_state
    s) (c_fsm s) (c_attemptCount s) (c_skipReconnect s) (c_pingInterval s) (c_pongCh s)
    (c_binaryBuf s) (c_pid s) (c_offset s).
Definition set_onReconnecting (v : option nat) (s : Conn) : Conn :=
  MkConn (c_conn s) (c_sid s) (c_closed s) (c_config s) (c_namespace s) (c_nsEvents s)
    (c_onClose s) v (c_onReconnected s) (c_onReconnectFailed s) (c_ackMgr s) (c_state s)
    (c_fsm s) (c_attemptCount s) (c_skipReconnect s) (c_pingInterval s) (c_pongCh s)
    (c_binaryBuf s) (c_pid s) (c_offset s).
Definition set_onReconnected (v : option nat) (s : Conn) : Conn :=
  MkConn (c_conn s) (c_sid s) (c_closed s) (c_config s) (c_namespace s) (c_nsEvents s)
    (c_onClose s) (c_onReconnecting s) v (c_onReconnectFailed s) (c_ackMgr s) (c_state s)
    (c_fsm s) (c_attemptCount s) (c_skipReconnect s) (c_pingInterval s) (c_pongCh s)
    (c_binaryBuf s) (c_pid s) (c_offset s).
Definition set_onReconnectFailed (v : option nat) (s : Conn) : Conn :=
  MkConn (c_conn s) (c_sid s) (c_closed s) (c_config s) (c_namespace s) (c_nsEvents s)
    (c_onClose s) (c_onReconnecting s) (c_onReconnected s) v (c_ackMgr s) (c_state s)
    (c_fsm s) (c_attemptCount s) (c_skipReconnect s) (c_pingInterval s) (c_pongCh s)
    (c_binaryBuf s) (c_pid s) (c_offset s).
Definition set_ackMgr (v : ack_manager) (s : Conn) : Conn :=
  MkConn (c_conn s) (c_sid s) (c_closed s) (c_config s) (c_namespace s) (c_nsEvents s)
    (c_onClose s) (c_onReconnecting s) (c_onReconnected s) (c_onReconnectFailed s) v
    (c_state s) (c_fsm s) (c_attemptCount s) (c_skipReconnect s) (c_pingInterval s)
    (c_pongCh s) (c_binaryBuf s) (c_pid s) (c_offset s).
Definition set_state (v : sioConnState) (s : Conn) : Conn :=
  MkConn (c_conn s) (c_sid s) (c_closed s) (c_config s) (c_namespace s) (c_nsEvents s)
    (c_onClose s) (c_onReconnecting s) (c_onReconnected s) (c_onReconnectFailed s)
    (c_ackMgr s) v (c_fsm s) (c_attemptCount s) (c_skipReconnect s) (c_pingInterval s)
    (c_pongCh s) (c_binaryBuf s) (c_pid s) (c_offset s).
Definition set_fsm (v : sioConnState) (s : Conn) : Conn :=
  MkConn (c_conn s) (c_sid s) (c_closed s) (c_config s) (c_namespace s) (c_nsEvents s)
    (c_onClose s) (c_onReconnecting s) (c_onReconnected s) (c_onReconnectFailed s)
    (c_ackMgr s) (c_state s) v (c_attemptCount s) (c_skipReconnect s) (c_pingInterval s)
    (c_pongCh s) (c_binaryBuf s) (c_pid s) (c_offset s).
Definition set_attemptCount (v : Z) (s : Conn) : Conn :=
  MkConn (c_conn s) (c_sid s) (c_closed s) (c_config s) (c_namespace s) (c_nsEvents s)
    (c_onClose s) (c_onReconnecting s) (c_onReconnected s) (c_onReconnectFailed s)
    (c_ackMgr s) (c_state s) (c_fsm s) v (c_skipReconnect s) (c_pingInterval s) (c_pongCh
    s) (c_binaryBuf s) (c_pid s) (c_offset s).
Definition set_skipReconnect (v : bool) (s : Conn) : Conn :=
  MkConn (c_conn s) (c_sid s) (c_closed s) (c_config s) (c_namespace s) (c_nsEvents s)
    (c_onClose s) (c_onReconnecting s) (c_onReconnected s) (c_onReconnectFailed s)
    (c_ackMgr s) (c_state s) (c_fsm s) (c_attemptCount s) v (c_pingInterval s) (c_pongCh
    s) (c_binaryBuf s) (c_pid s) (c_offset s).
Definition set_pingInterval (v : Z) (s : Conn) : Conn :=
  MkConn (c_conn s) (c_sid s) (c_closed s) (c_config s) (c_namespace s) (c_nsEvents s)
    (c_onClose s) (c_onReconnecting s) (c_onReconnected s) (c_onReconnectFailed s)
    (c_ackMgr s) (c_state s) (c_fsm s) (c_attemptCount s) (c_skipReconnect s) v (c_pongCh
    s) (c_binaryBuf s) (c_pid s) (c_offset s).
Definition set_pongCh (v : option nat) (s : Conn) : Conn :=
  MkConn (c_conn s) (c_sid s) (c_closed s) (c_config s) (c_namespace s) (c_nsEvents s)
    (c_onClose s) (c_onReconnecting s) (c_onReconnected s) (c_onReconnectFailed s)
    (c_ackMgr s) (c_state s) (c_fsm s) (c_attemptCount s) (c_skipReconnect s)
    (c_pingInterval s) v (c_binaryBuf s) (c_pid s) (c_offset s).
Definition set_binaryBuf (v : option binaryReconstructor) (s : Conn) : Conn :=
  MkConn (c_conn s) (c_sid s) (c_closed s) (c_config s) (c_namespace s) (c_nsEvents s)
    (c_onClose s) (c_onReconnecting s) (c_onReconnected s) (c_onReconnectFailed s)
    (c_ackMgr s) (c_state s) (c_fsm s) (c_attemptCount s) (c_skipReconnect s)
    (c_pingInterval s) (c_pongCh s) v (c_pid s) (c_offset s).
Definition set_pid (v : bytes) (s : Conn) : Conn :=
  MkConn (c_conn s) (c_sid s) (c_closed s) (c_config s) (c_namespace s) (c_nsEvents s)
    (c_onClose s) (c_onReconnecting s) (c_onReconnected s) (c_onReconnectFailed s)
    (c_ackMgr s) (c_state s) (c_fsm s) (c_attemptCount s) (c_skipReconnect s)
    (c_pingInterval s) (c_pongCh s) (c_binaryBuf s) v (c_offset s).
Definition set_offset (v : bytes) (s : Conn) : Conn :=
  MkConn (c_conn s) (c_sid s) (c_closed s) (c_config s) (c_namespace s) (c_nsEvents s)
    (c_onClose s) (c_onReconnecting s) (c_onReconnected s) (c_onReconnectFailed s)
    (c_ackMgr s) (c_state s) (c_fsm s) (c_attemptCount s) (c_skipReconnect s)
    (c_pingInterval s) (c_pongCh s) (c_binaryBuf s) (c_pid s) v.

(** ** Configuration *)

Definition ResolveDefaults (cfg : Config) : Config :=
  {| Reconnection := Reconnection cfg;
     ReconnectionAttempts := ReconnectionAttempts cfg;
     ReconnectionDelay := Coalesce_duration (ReconnectionDelay cfg) Second;
     ReconnectionDelayMax := Coalesce_duration (ReconnectionDelayMax cfg) (30 * Second);
     JitterFactor := Coalesce_float (JitterFactor cfg) (1, -1);
     ConnectTimeout := Coalesce_duration (ConnectTimeout cfg) (20 * Second);
     PingTimeout := Coalesce_duration (PingTimeout cfg) (20 * Second);
     cfg_Namespace := Coalesce_string (cfg_Namespace cfg) (str "/");
     Auth := Auth cfg |}.

(** ** Writing and emitting *)

(** [ok] is the outcome of the WebSocket write. *)
Definition writeEIOPacket (s : Conn) (ok : bool) (pType : byte) (payload : bytes)
  : list effect * result sio_error unit :=
  match c_conn s with
  | None => ([], Err ErrNotConnected)
  | Some _ =>
      let '(frame, data) := eio_message pType payload in
      ([WriteMessage frame data], if ok then Ok tt else Err ErrTransport)
  end.

Definition assertOpen (s : Conn) : result sio_error unit :=
  if bool_decide (c_state s = sioStateOpen) then Ok tt else Err ErrNotConnected.

Definition extractAckCallback (args : list any) : list any * option nat :=
  match last args with
  | Some (AFunc fn) => (take (length args - 1) args, Some fn)
  | _ => (args, None)
  end.

Definition registerAckJob (s : Conn) (ackFn : nat) : Conn * Z :=
  let '(id, m) := ack_NextID (c_ackMgr s) in
  (set_ackMgr (ack_Add id ackFn m) s, id).

(** Write the attachments in order, stopping at the first failing write. *)
Fixpoint write_buffers (s : Conn) (oks : list bool) (buffers : list bytes)
  : list effect * result sio_error unit :=
  match buffers with
  | [] => ([], Ok tt)
  | buf :: rest =>
      let '(ok, oks') := match oks with [] => (false, []) | b :: o => (b, o) end in
      match writeEIOPacket s ok eioBinary buf with
      | (eff, Err e) => (eff, Err e)
      | (eff, Ok _) => let '(eff', r) := write_buffers s oks' rest in (eff ++ eff', r)
      end
  end.

Definition emitBinaryNS (s : Conn) (oks : list bool) (nsp : bytes) (data : any)
  (ackFn : option nat) : Conn * list effect * result sio_error unit :=
  let '(deconstructed, buffers) := deconstructBinary data in
  match marshal deconstructed with
  | None => (s, [], Err ErrMarshal)
  | Some jsonData =>
      let '(s1, id) := match ackFn with
                       | Some fn => let '(s', i) := registerAckJob s fn in (s', Some i)
                       | None => (s, None)
                       end in
      let pkt := {| Type_ := sioBinaryEvent; Namespace := nsp; ID := id;
                    Attachments := Z.of_nat (length buffers); Data := Some jsonData |} in
      let '(ok, oks') := match oks with [] => (false, []) | b :: o => (b, o) end in
      match writeEIOPacket s1 ok eioMessage (encodeSIOPacket pkt) with
      | (eff, Err e) => (s1, eff, Err e)
      | (eff, Ok _) => let '(eff', r) := write_buffers s1 oks' buffers in (s1, eff ++ eff', r)
      end
  end.

Definition emitNS (s : Conn) (oks : list bool) (nsp event : bytes) (args : list any)
  : Conn * list effect * result sio_error unit :=
  match assertOpen s with
  | Err e => (s, [], Err e)
  | Ok _ =>
      let '(emitArgs, ackFn) := extractAckCallback args in
      let payload := ASlice (AString event :: emitArgs) in
      if hasBinary payload then emitBinaryNS s oks nsp payload ackFn
      else
        match marshal payload with
        | None => (s, [], Err ErrMarshal)
        | Some jsonData =>
            let '(s1, id) := match ackFn with
                             | Some fn => let '(s', i) := registerAckJob s fn in (s', Some i)
                             | None => (s, None)
                             end in
            let pkt := {| Type_ := sioEvent; Namespace := nsp; ID := id; Attachments := 0;
                          Data := Some jsonData |} in
            let '(eff, r) := writeEIOPacket s1 (default false (head oks)) eioMessage
                               (encodeSIOPacket pkt) in
            (s1, eff, r)
        end
  end.

Definition emitVolatileNS (s : Conn) (oks : list bool) (nsp event : bytes) (args : list any)
  : Conn * list effect * result sio_error unit :=
  if bool_decide (c_state s = sioStateOpen) then emitNS s oks nsp event args
  else (s, [], Ok tt).

(** What ends the wait of [emitWithAckNS]; the events are raced by a [select]. *)
Inductive ack_wait := AckCtxDone | AckClosed | AckTimer | AckResult (args : list bytes).

Definition emitWithAckNS (s : Conn) (oks : list bool) (nsp event : bytes) (args : list any)
  (waiter : nat) (w : ack_wait) : Conn * list effect * result sio_error (list bytes) :=
  match emitNS s oks nsp event (args ++ [AFunc waiter]) with
  | (s1, eff, Err e) => (s1, eff, Err e)
  | (s1, eff, Ok _) =>
      (s1, eff, match w with
                | AckCtxDone => Err ErrContext
                | AckClosed => Err ErrNotConnected
                | AckTimer => Err ErrAckTimeout
                | AckResult a => Ok a
                end)
  end.

Definition Emit (s : Conn) oks event args := emitNS s oks (c_namespace s) event args.
Definition EmitWithAck (s : Conn) oks event args waiter w :=
  emitWithAckNS s oks (c_namespace s) event args waiter w.
Definition EmitVolatile (s : Conn) oks event args :=
  emitVolatileNS s oks (c_namespace s) event args.

Definition setNamespaceHandler (s : Conn) (nsp event : bytes) (handler : option nat) : Conn :=
  let table := default ∅ (c_nsEvents s !! nsp) in
  let table' := if bytes_eqb event [] then table else <[event := handler]> table in
  set_nsEvents (<[nsp := table']> (c_nsEvents s)) s.

Definition On (s : Conn) (event : bytes) (handler : option nat) : Conn :=
  setNamespaceHandler s (c_namespace s) event handler.
Definition OnAny (s : Conn) (handler : nat) : Conn :=
  setNamespaceHandler s (c_namespace s) (str "*") (Some handler).
Definition OnNamespace (s : Conn) (nsp : bytes) : Conn :=
  setNamespaceHandler s nsp [] None.

(** [Close]: a second call, or a call after the channel was closed, is a no-op. *)
Definition Close (s : Conn) (ok1 ok2 : bool) : Conn * list effect :=
  if c_closed s then (s, [])
  else
    let s1 := set_skipReconnect true (set_closed true s) in
    let payload := encodeSIOPacket {| Type_ := sioDisconnect; Namespace := c_namespace s1;
                                      ID := None; Attachments := 0; Data := None |} in
    (s1, (writeEIOPacket s1 ok1 eioMessage payload).1
         ++ (writeEIOPacket s1 ok2 eioClose []).1
         ++ match c_conn s1 with Some ws => [CloseSocket ws] | None => [] end).

Definition Connected (s : Conn) : bool := bool_decide (c_state s = sioStateOpen).

(** ** Incoming packets *)

(** [rawArgs[1:]] goes to the event's handler, [rawArgs] to the catch-all one. *)
Definition dispatchPacket (s : Conn) (pkt : sioPacket) : list effect :=
  match unmarshal_array (default [] (Data pkt)) with
  | None | Some [] => []
  | Some (name :: rest) =>
      match unmarshal_string name with
      | None => []
      | Some eventName =>
          let nsp := Coalesce_string (Namespace pkt) (c_namespace s) in
          match c_nsEvents s !! nsp with
          | None => []
          | Some handlers =>
              match handlers !! eventName with
              | Some (Some h) => [GoCallback h rest] | _ => [] end
              ++ match handlers !! str "*" with
                 | Some (Some h) => [GoCallback h (name :: rest)] | _ => [] end
          end
      end
  end.

Definition handleAck (s : Conn) (id : Z) (data : option bytes) : Conn * list effect :=
  match unmarshal_array (default [] data) with
  | None => (s, [])
  | Some args =>
      let '(cb, m) := ack_Resolve id (c_ackMgr s) in
      (set_ackMgr m s, match cb with Some fn => [GoCallback fn args] | None => [] end)
  end.

Definition handleSIOConnect (s : Conn) (pkt : sioPacket) : Conn :=
  let '(sid, pid) := match Data pkt with
                     | Some d => unmarshal_connect d
                     | None => ([], [])
                     end in
  let s1 := if bytes_eqb sid [] then s else set_sid sid s in
  if bytes_eqb pid [] then s1 else set_pid pid s1.

Definition handleSIOConnectError (s : Conn) : list effect :=
  match c_onClose s with Some cb => [GoCallback cb []] | None => [] end.

Definition handleSIOPacket (s : Conn) (data : bytes) : Conn * list effect :=
  match decodeSIOPacket data with
  | Err _ => (s, [])
  | Ok pkt =>
      let t := Type_ pkt in
      if t =b sioConnect then (handleSIOConnect s pkt, [])
      else if t =b sioEvent then (s, dispatchPacket s pkt)
      else if t =b sioAck then
        match ID pkt with Some id => handleAck s id (Data pkt) | None => (s, []) end
      else if (t =b sioBinaryEvent) || (t =b sioBinaryAck) then
        (set_binaryBuf (Some (newBinaryReconstructor (Attachments pkt) pkt)) s, [])
      else if t =b sioConnectError then (s, handleSIOConnectError s)
      else (s, [])
  end.

(** The boolean asks the read loop to stop. *)
Definition dispatchEIOPacket (s : Conn) (pType : byte) (payload : bytes)
  : Conn * list effect * bool :=
  if pType =b eioClose then (s, [], true)
  else if pType =b eioPong then
    (s, match c_pongCh s with Some ch => [SignalPong ch] | None => [] end, false)
  else if pType =b eioMessage then
    match payload with
    | [] => (s, [], false)
    | _ => let '(s', eff) := handleSIOPacket s payload in (s', eff, false)
    end
  else if pType =b eioBinary then
    match c_binaryBuf s with
    | None => (s, [], false)
    | Some br =>
        let '(br', complete) := addBuffer br payload in
        if complete then
          let s' := set_binaryBuf None s in
          match reconstruct br' with
          | Ok pkt => (s', dispatchPacket s' pkt, false)
          | Err _ => (s', [], false)
          end
        else (set_binaryBuf (Some br') s, [], false)
    end
  else (s, [], false).

(** ** The handshake *)

(** A read raced against the context: its outcome. *)
Inductive ctx_read := CtxDone | Delivered (msg : result sio_error (ws_frame * bytes)).

Definition readEIOPacketCtx (ws : nat) (r : ctx_read)
  : list effect * result sio_error (byte * bytes) :=
  match r with
  | CtxDone => ([CloseSocket ws], Err ErrContext)
  | Delivered msg => ([], readSingleEIOPacket msg)
  end.

Definition readAndParseEIOOpen (s : Conn) (ws : nat) (r : ctx_read)
  : Conn * list effect * result sio_error unit :=
  match readEIOPacketCtx ws r with
  | (eff, Err e) => (s, eff, Err e)
  | (eff, Ok (pType, payload)) =>
      if negb (pType =b eioOpen) then (s, eff, Err (ErrExpectedOpen pType))
      else match unmarshal_open payload with
           | None => (s, eff, Err ErrUnmarshal)
           | Some (sid, interval, timeout) =>
               (set_pingInterval (interval * Millisecond) (set_sid sid s), eff, Ok tt)
           end
  end.

Definition readAndParseSIOConnect (s : Conn) (ws : nat) (r : ctx_read)
  : Conn * list effect * result sio_error unit :=
  match readEIOPacketCtx ws r with
  | (eff, Err e) => (s, eff, Err e)
  | (eff, Ok (pType, payload)) =>
      match payload with
      | c :: rest =>
          if (pType =b eioMessage) && (c =b sioConnect) then
            let '(_, pid) := unmarshal_connect rest in
            (if bytes_eqb pid [] then s else set_pid pid s, eff, Ok tt)
          else if (pType =b eioMessage) && (c =b sioConnectError) then
            (s, eff, Err (ErrConnectRejected rest))
          else (s, eff, Err ErrUnexpectedConnect)
      | [] => (s, eff, Err ErrUnexpectedConnect)
      end
  end.

(** [authData[key] = v]. *)
Fixpoint map_set {A} (m : list (bytes * A)) (key : bytes) (v : A) : list (bytes * A) :=
  match m with
  | [] => [(key, v)]
  | (k, x) :: m' => if bytes_eqb k key then (k, v) :: m' else (k, x) :: map_set m' key v
  end.

Definition sendConnect (s : Conn) (ok : bool) : list effect * result sio_error unit :=
  let authData :=
    match Auth (c_config s) with
    | None => Some []
    | Some (AuthMap m) => Some (map (λ kv, (kv.1, EAny kv.2)) m)
    | Some (AuthOther v) => b ← marshal v; Some [(str "token", ERaw b)]
    end in
  match authData with
  | None => ([], Err ErrMarshal)
  | Some a0 =>
      let a1 := if bytes_eqb (c_pid s) [] then a0
                else map_set a0 (str "pid") (EAny (AString (c_pid s))) in
      let a2 := if bytes_eqb (c_offset s) [] then a1
                else map_set a1 (str "offset") (EAny (AString (c_offset s))) in
      match (match a2 with
             | [] => Some None
             | _ => d ← marshal_auth a2; Some (Some d)
             end) with
      | None => ([], Err ErrMarshal)
      | Some data =>
          writeEIOPacket s ok eioMessage
            (encodeSIOPacket {| Type_ := sioConnect; Namespace := c_namespace s; ID := None;
                                Attachments := 0; Data := data |})
      end
  end.

(** What the server and the network do during one handshake. *)
Record handshake_input := { hs_open : ctx_read; hs_write : bool; hs_connect : ctx_read }.

Definition doHandshake (s : Conn) (i : handshake_input)
  : Conn * list effect * result sio_error unit :=
  match c_conn s with
  | None => (s, [], Err ErrNotConnected)
  | Some ws =>
      match readAndParseEIOOpen s ws (hs_open i) with
      | (s1, e1, Err e) => (s1, e1, Err e)
      | (s1, e1, Ok _) =>
          match sendConnect s1 (hs_write i) with
          | (e2, Err e) => (s1, e1 ++ e2, Err e)
          | (e2, Ok _) =>
              let '(s2, e3, r) := readAndParseSIOConnect s1 ws (hs_connect i) in
              (s2, e1 ++ e2 ++ e3, r)
          end
      end
  end.

Definition initial_conn (cfg : Config) (ws : nat) : Conn :=
  MkConn (Some ws) [] false cfg (cfg_Namespace cfg) ∅ None None None None ack_new
    sioStateClosed sioStateClosed 0 false 0 None None [] [].

Definition NewSocketIOConn (config : Config) (ws : nat) (i : handshake_input)
  : list effect * result sio_error Conn :=
  let s0 := initial_conn (ResolveDefaults config) ws in
  match doHandshake s0 i with
  | (_, eff, Err e) => (eff ++ [CloseSocket ws], Err e)
  | (s1, eff, Ok _) =>
      let s2 := set_fsm (Transition initFSM (c_fsm s1) sioEventTypeOpen) s1 in
      let s3 := set_state sioStateOpen s2 in
      (eff ++ [GoReadLoop; GoHeartbeat], Ok s3)
  end.

(** ** The end of a connection and reconnection *)

Definition cleanupConnection (s : Conn) : Conn * list effect :=
  let s1 := set_fsm (Transition initFSM (c_fsm s) sioEventTypeClose) s in
  let s2 := set_state sioStateClosed s1 in
  (s2, match c_conn s2 with Some ws => [CloseSocket ws] | None => [] end
       ++ match c_onClose s2 with Some cb => [GoCallback cb []] | None => [] end
       ++ (if negb (c_skipReconnect s2) && Reconnection (c_config s2) then [GoReconnect] else [])).

(** One message for the read loop; the boolean says the loop ended. *)
Definition readLoop_once (s : Conn) (msg : result sio_error (ws_frame * bytes))
  : Conn * list effect * bool :=
  match (match c_conn s with
         | None => Err ErrNotConnected
         | Some _ => readSingleEIOPacket msg
         end) with
  | Err _ => let '(s', eff) := cleanupConnection s in (s', eff, true)
  | Ok (pType, payload) =>
      let '(s1, e1, stop) := dispatchEIOPacket s pType payload in
      if stop then let '(s2, e2) := cleanupConnection s1 in (s2, e1 ++ e2, true)
      else (s1, e1, false)
  end.

(** The boolean asks the reconnect loop to stop. *)
Definition handleReconnectFailure (s : Conn) : list effect * bool :=
  let n := ReconnectionAttempts (c_config s) in
  if (0 <? n) && (n <=? c_attemptCount s) then
    (match c_onReconnectFailed s with Some cb => [GoCallback cb []] | None => [] end, true)
  else ([], false).

Definition resetConnectionState (s : Conn) : Conn :=
  set_binaryBuf None (set_skipReconnect false (set_closed false s)).

Definition finalizeReconnection (s : Conn) : Conn * list effect :=
  let s1 := set_fsm (Transition initFSM (c_fsm s) sioEventTypeReconnect) s in
  let s2 := set_state sioStateOpen s1 in
  let s3 := set_attemptCount 0 s2 in
  (s3, match c_onReconnected s3 with Some cb => [GoCallback cb []] | None => [] end
       ++ [GoReadLoop; GoHeartbeat]).

(** [attemptReconnection] up to the dial, and after it: a failed dial, or a
    new socket [ws] with what its handshake yields. *)
Definition attempt_begin (s : Conn) : Conn * list effect :=
  let s1 := set_attemptCount (c_attemptCount s + 1) s in
  (s1, match c_onReconnecting s1 with
       | Some cb => [GoCallback cb [Itoa (c_attemptCount s1)]] | None => [] end).

Definition attempt_dialed (s : Conn) (ws : nat) : Conn :=
  resetConnectionState (set_conn (Some ws) s).

Definition attempt_handshake (s : Conn) (ws : nat) (i : handshake_input)
  : Conn * list effect * bool :=
  match doHandshake s i with
  | (s1, e1, Err _) =>
      let '(e2, stop) := handleReconnectFailure s1 in (s1, e1 ++ [CloseSocket ws] ++ e2, stop)
  | (s1, e1, Ok _) => let '(s2, e2) := finalizeReconnection s1 in (s2, e1 ++ e2, true)
  end.

(** ** The heartbeat *)

Definition heartbeat_interval (s : Conn) : Z :=
  if c_pingInterval s <=? 0 then 25 * Second else c_pingInterval s.

(** One tick: a fresh pong channel [ch] and a ping; [false] ends the loop. *)
Definition heartbeat_tick (s : Conn) (ch : nat) (ok : bool) : Conn * list effect * bool :=
  let s1 := set_pongCh (Some ch) s in
  match writeEIOPacket s1 ok eioPing [] with
  | (eff, Err _) => (s1, eff, false)
  | (eff, Ok _) => (s1, eff, true)
  end.

(** The ping timer fired before the pong. *)
Definition heartbeat_timeout (s : Conn) : Conn * list effect :=
  let s1 := if c_skipReconnect s then s else set_closed true s in
  (s1, match c_conn s1 with Some ws => [CloseSocket ws] | None => [] end).

(** ** The running client: the object and its goroutines *)

(** Where a reconnect loop is: at the top of its loop, sleeping, dialing, or
    in the handshake of the socket it dialed. *)
Inductive rc_pc := RcCheck | RcSleep | RcDial | RcHandshake (ws : nat).

(** Where a heartbeat loop is: waiting for the ticker, or for a pong on its channel. *)
Inductive hb_pc := HbTick | HbPong (ch : nat).

(** [s_fresh] names the next socket or channel; [s_ponged] the channels that
    hold a pong; [s_dials] counts the sockets dialed. *)
Record sys := {
  s_conn : Conn;
  s_reads : nat;
  s_hearts : list hb_pc;
  s_reconns : list rc_pc;
  s_fresh : nat;
  s_ponged : list nat;
  s_dials : nat
}.

(** Goroutine starts and pong signals take effect; the other effects are output. *)
Definition run_effect (y : sys) (e : effect) : sys :=
  match e with
  | GoReadLoop =>
      {| s_conn := s_conn y; s_reads := S (s_reads y); s_hearts := s_hearts y;
         s_reconns := s_reconns y; s_fresh := s_fresh y; s_ponged := s_ponged y;
         s_dials := s_dials y |}
  | GoHeartbeat =>
      {| s_conn := s_conn y; s_reads := s_reads y; s_hearts := s_hearts y ++ [HbTick];
         s_reconns := s_reconns y; s_fresh := s_fresh y; s_ponged := s_ponged y;
         s_dials := s_dials y |}
  | GoReconnect =>
      {| s_conn := s_conn y; s_reads := s_reads y; s_hearts := s_hearts y;
         s_reconns := s_reconns y ++ [RcCheck]; s_fresh := s_fresh y; s_ponged := s_ponged y;
         s_dials := s_dials y |}
  | SignalPong ch =>
      {| s_conn := s_conn y; s_reads := s_reads y; s_hearts := s_hearts y;
         s_reconns := s_reconns y; s_fresh := s_fresh y; s_ponged := ch :: s_ponged y;
         s_dials := s_dials y |}
  | _ => y
  end.

Definition run_effects (y : sys) (effs : list effect) : sys := foldl run_effect y effs.

(** The system with a new connection object and new loop positions. *)
Definition upd (y : sys) (c : Conn) (reads : nat) (hearts : list hb_pc) (rcs : list rc_pc) : sys :=
  {| s_conn := c; s_reads := reads; s_hearts := hearts; s_reconns := rcs;
     s_fresh := s_fresh y; s_ponged := s_ponged y; s_dials := s_dials y |}.

(** The system after a new name was used, and whether it was a dial. *)
Definition fresh (y : sys) (dialed : nat) : sys :=
  {| s_conn := s_conn y; s_reads := s_reads y; s_hearts := s_hearts y; s_reconns := s_reconns y;
     s_fresh := S (s_fresh y); s_ponged := s_ponged y; s_dials := (s_dials y + dialed)%nat |}.

Inductive sys_step : sys → sys → Prop :=
(* user calls *)
| step_close y ok1 ok2 c eff :
    Close (s_conn y) ok1 ok2 = (c, eff) →
    sys_step y (run_effects (upd y c (s_reads y) (s_hearts y) (s_reconns y)) eff)
| step_emit y oks nsp event args c eff r :
    emitNS (s_conn y) oks nsp event args = (c, eff, r) →
    sys_step y (run_effects (upd y c (s_reads y) (s_hearts y) (s_reconns y)) eff)
| step_handler y nsp event h :
    sys_step y (upd y (setNamespaceHandler (s_conn y) nsp event h)
                  (s_reads y) (s_hearts y) (s_reconns y))
(* the read loop *)
| step_read y msg c eff n :
    s_reads y = S n → readLoop_once (s_conn y) msg = (c, eff, false) →
    sys_step y (run_effects (upd y c (s_reads y) (s_hearts y) (s_reconns y)) eff)
| step_read_end y msg c eff n :
    s_reads y = S n → readLoop_once (s_conn y) msg = (c, eff, true) →
    sys_step y (run_effects (upd y c n (s_hearts y) (s_reconns y)) eff)
(* the heartbeat loops *)
| step_hb_closed y l hb r :
    s_hearts y = l ++ hb :: r → c_closed (s_conn y) = true →
    sys_step y (upd y (s_conn y) (s_reads y) (l ++ r) (s_reconns y))
| step_hb_tick y l r ok c eff :
    s_hearts y = l ++ HbTick :: r →
    heartbeat_tick (s_conn y) (s_fresh y) ok = (c, eff, true) →
    sys_step y (run_effects (fresh (upd y c (s_reads y) (l ++ HbPong (s_fresh y) :: r)
                                      (s_reconns y)) 0) eff)
| step_hb_tick_fail y l r ok c eff :
    s_hearts y = l ++ HbTick :: r →
    heartbeat_tick (s_conn y) (s_fresh y) ok = (c, eff, false) →
    sys_step y (run_effects (fresh (upd y c (s_reads y) (l ++ r) (s_reconns y)) 0) eff)
| step_hb_pong y l ch r :
    s_hearts y = l ++ HbPong ch :: r → ch ∈ s_ponged y →
    sys_step y (upd y (s_conn y) (s_reads y) (l ++ HbTick :: r) (s_reconns y))
| step_hb_timeout y l ch r c eff :
    s_hearts y = l ++ HbPong ch :: r → heartbeat_timeout (s_conn y) = (c, eff) →
    sys_step y (run_effects (upd y c (s_reads y) (l ++ r) (s_reconns y)) eff)
(* the reconnect loops *)
| step_rc_closed y l pc r :
    s_reconns y = l ++ pc :: r → pc = RcCheck ∨ pc = RcSleep → c_closed (s_conn y) = true →
    sys_step y (upd y (s_conn y) (s_reads y) (s_hearts y) (l ++ r))
| step_rc_check y l r :
    s_reconns y = l ++ RcCheck :: r → c_closed (s_conn y) = false →
    sys_step y (upd y (s_conn y) (s_reads y) (s_hearts y) (l ++ RcSleep :: r))
| step_rc_timer y l r c eff :
    s_reconns y = l ++ RcSleep :: r →
    attempt_begin (s_conn y) = (c, eff) →
    sys_step y (run_effects (upd y c (s_reads y) (s_hearts y) (l ++ RcDial :: r)) eff)
| step_rc_dial_fail y l r eff stop :
    s_reconns y = l ++ RcDial :: r → handleReconnectFailure (s_conn y) = (eff, stop) →
    sys_step y (run_effects (upd y (s_conn y) (s_reads y) (s_hearts y)
                               (l ++ (if stop then [] else [RcCheck]) ++ r)) eff)
| step_rc_dialed y l r :
    s_reconns y = l ++ RcDial :: r →
    sys_step y (fresh (upd y (attempt_dialed (s_conn y) (s_fresh y)) (s_reads y) (s_hearts y)
                         (l ++ RcHandshake (s_fresh y) :: r)) 1)
| step_rc_handshake y l ws r i c eff stop :
    s_reconns y = l ++ RcHandshake ws :: r →
    attempt_handshake (s_conn y) ws i = (c, eff, stop) →
    sys_step y (run_effects (upd y c (s_reads y) (s_hearts y)
                               (l ++ (if stop then [] else [RcCheck]) ++ r)) eff).

(** The system right after [NewSocketIOConn] succeeded on socket 0. *)
Definition sys_start (c : Conn) : sys :=
  {| s_conn := c; s_reads := 1; s_hearts := [HbTick]; s_reconns := []; s_fresh := 1;
     s_ponged := []; s_dials := 1 |}.

Definition sys_init (config : Config) (y : sys) : Prop :=
  ∃ i eff c, NewSocketIOConn config 0 i = (eff, Ok c) ∧ y = sys_start c.

Definition reachable (config : Config) (y : sys) : Prop :=
  ∃ y0, sys_init config y0 ∧ rtc sys_step y0 y.

(** ** Frame lemmas: what the handlers leave alone *)

(** The fields the connection's life cycle depends on. *)
Definition core (c : Conn) :=
  (c_state c, c_fsm c, c_attemptCount c, c_config c).

Definition life (c : Conn) := (core c, c_closed c, c_skipReconnect c).

Lemma life_core c s : life c = life s → core c = core s.
Proof. unfold life. congruence. Qed.

(** Effects that start no goroutine. *)
Definition quiet (e : effect) : bool :=
  match e with GoReadLoop | GoHeartbeat | GoReconnect => false | _ => true end.

Lemma run_quiet y effs :
  forallb quiet effs = true →
  s_conn (run_effects y effs) = s_conn y ∧ s_reads (run_effects y effs) = s_reads y ∧
  s_hearts (run_effects y effs) = s_hearts y ∧ s_reconns (run_effects y effs) = s_reconns y ∧
  s_dials (run_effects y effs) = s_dials y.
Proof.
  unfold run_effects. revert y. induction effs as [|e effs IH]; intros y Hq; simpl in *; [done|].
  bools. destruct (IH (run_effect y e)) as (-> & -> & -> & -> & ->); [done|].
  destruct e; try done.
Qed.

Lemma run_effects_app y a b : run_effects y (a ++ b) = run_effects (run_effects y a) b.
Proof. apply foldl_app. Qed.

Lemma write_quiet s ok t p : forallb quiet (writeEIOPacket s ok t p).1 = true.
Proof. unfold writeEIOPacket. destruct (c_conn s); [|done]. by destruct (eio_message t p). Qed.

Lemma write_buffers_quiet s oks bufs : forallb quiet (write_buffers s oks bufs).1 = true.
Proof.
  revert oks. induction bufs as [|b bufs IH]; intros oks; simpl; [done|].
  destruct (match oks with [] => _ | _ => _ end) as [ok oks'].
  pose proof (write_quiet s ok eioBinary b). destruct (writeEIOPacket _ _ _ _) as [eff [[]|]]; [|done].
  specialize (IH oks'). destruct (write_buffers s oks' bufs). simpl in *.
  rewrite forallb_app. by apply andb_true_iff.
Qed.

Lemma registerAckJob_life s fn : life (registerAckJob s fn).1 = life s.
Proof. unfold registerAckJob. by destruct (ack_NextID _). Qed.

Lemma ack_id_life s (fn : option nat) s1 id :
  (match fn with Some f => let '(s', i) := registerAckJob s f in (s', Some i) | None => (s, None) end)
  = (s1, id) → life s1 = life s.
Proof.
  destruct fn as [f|]; [|by intros [= <- <-]]. pose proof (registerAckJob_life s f).
  destruct (registerAckJob s f). by intros [= <- <-].
Qed.

Lemma emitBinaryNS_frame s oks nsp data fn c eff r :
  emitBinaryNS s oks nsp data fn = (c, eff, r) → life c = life s ∧ forallb quiet eff = true.
Proof.
  unfold emitBinaryNS. destruct (deconstructBinary data) as [d bufs].
  destruct (marshal d); [|by intros [= <- <- <-]].
  destruct (match fn with Some _ => _ | None => _ end) as [s1 id] eqn:Ea.
  apply ack_id_life in Ea. destruct (match oks with [] => _ | _ => _ end) as [ok oks'].
  match goal with |- context [writeEIOPacket ?s ?ok ?t ?p] => pose proof (write_quiet s ok t p) end.
  destruct (writeEIOPacket _ _ _ _) as [e1 [[]|]]; [|by intros [= <- <- <-]].
  pose proof (write_buffers_quiet s1 oks' bufs). destruct (write_buffers _ _ _) as [e2 r2].
  intros [= <- <- <-]. split; [done|]. simpl in *. rewrite forallb_app. by apply andb_true_iff.
Qed.

Lemma emitNS_frame s oks nsp event args c eff r :
  emitNS s oks nsp event args = (c, eff, r) → life c = life s ∧ forallb quiet eff = true.
Proof.
  unfold emitNS. destruct (assertOpen s); [|by intros [= <- <- <-]].
  destruct (extractAckCallback args) as [ea fn]. destruct (hasBinary _).
  { apply emitBinaryNS_frame. }
  destruct (marshal _); [|by intros [= <- <- <-]].
  destruct (match fn with Some _ => _ | None => _ end) as [s1 id] eqn:Ea.
  apply ack_id_life in Ea.
  match goal with |- context [writeEIOPacket ?s ?ok ?t ?p] => pose proof (write_quiet s ok t p) end.
  destruct (writeEIOPacket _ _ _ _). by intros [= <- <- <-].
Qed.

Lemma dispatchPacket_quiet s pkt : forallb quiet (dispatchPacket s pkt) = true.
Proof.
  unfold dispatchPacket. repeat case_match; try done; rewrite ?forallb_app; done.
Qed.

Lemma handleSIOPacket_frame s data c eff :
  handleSIOPacket s data = (c, eff) → life c = life s ∧ forallb quiet eff = true.
Proof.
  unfold handleSIOPacket. destruct (decodeSIOPacket data) as [pkt|]; [|by intros [= <- <-]].
  destruct (_ =b sioConnect).
  { intros [= <- <-]. unfold handleSIOConnect. split; [|done].
    destruct (match Data pkt with Some _ => _ | None => _ end). by repeat case_match. }
  destruct (_ =b sioEvent); [intros [= <- <-]; split; [done|apply dispatchPacket_quiet]|].
  destruct (_ =b sioAck).
  { destruct (ID pkt); [|by intros [= <- <-]]. unfold handleAck.
    destruct (unmarshal_array _); [|by intros [= <- <-]].
    destruct (ack_Resolve _ _) as [[]]; by intros [= <- <-]. }
  destruct (_ || _); [by intros [= <- <-]|].
  destruct (_ =b sioConnectError); [|by intros [= <- <-]].
  intros [= <- <-]. split; [done|]. unfold handleSIOConnectError. by destruct (c_onClose s).
Qed.

Lemma dispatchEIOPacket_frame s t p c eff stop :
  dispatchEIOPacket s t p = (c, eff, stop) → life c = life s ∧ forallb quiet eff = true.
Proof.
  unfold dispatchEIOPacket. destruct (t =b eioClose); [by intros [= <- <- <-]|].
  destruct (t =b eioPong); [by destruct (c_pongCh s); intros [= <- <- <-]|].
  destruct (t =b eioMessage).
  { destruct p as [|b p]; [by intros [= <- <- <-]|].
    destruct (handleSIOPacket s (b :: p)) as [s' e] eqn:Eh. intros [= <- <- <-].
    by eapply handleSIOPacket_frame. }
  destruct (t =b eioBinary); [|by intros [= <- <- <-]].
  destruct (c_binaryBuf s); [|by intros [= <- <- <-]].
  destruct (addBuffer _ _) as [br' []]; [|by intros [= <- <- <-]].
  destruct (reconstruct br'); intros [= <- <- <-]; [|done].
  split; [done|apply dispatchPacket_quiet].
Qed.

Lemma readCtx_quiet ws r : forallb quiet (readEIOPacketCtx ws r).1 = true.
Proof. by destruct r. Qed.

Lemma sendConnect_quiet s ok : forallb quiet (sendConnect s ok).1 = true.
Proof.
  unfold sendConnect. repeat (case_match; try done); apply write_quiet.
Qed.

Lemma doHandshake_frame s i c eff r :
  doHandshake s i = (c, eff, r) → life c = life s ∧ forallb quiet eff = true.
Proof.
  unfold doHandshake. destruct (c_conn s) as [ws|]; [|by intros [= <- <- <-]].
  unfold readAndParseEIOOpen. pose proof (readCtx_quiet ws (hs_open i)) as Q1.
  destruct (readEIOPacketCtx ws (hs_open i)) as [e1 [[t p]|]]; [|by intros [= <- <- <-]].
  destruct (negb _); [by intros [= <- <- <-]|].
  destruct (unmarshal_open p) as [[[]]|]; [|by intros [= <- <- <-]].
  match goal with |- context [sendConnect ?s ?ok] =>
    pose proof (sendConnect_quiet s ok) as Q2; destruct (sendConnect s ok) as [e2 [[]|]] end.
  2: { intros [= <- <- <-]. split; [done|]. simpl in *. rewrite forallb_app. by apply andb_true_iff. }
  unfold readAndParseSIOConnect. pose proof (readCtx_quiet ws (hs_connect i)) as Q3.
  destruct (readEIOPacketCtx ws (hs_connect i)) as [e3 [[t3 p3]|]]; simpl in *;
    repeat case_match; simplify_eq; intros; simplify_eq;
    rewrite ?forallb_app, ?Q1, ?Q2, ?Q3; done.
Qed.

(** ** The life-cycle invariant *)

Definition waiting (pc : rc_pc) : bool :=
  match pc with RcCheck | RcSleep => true | _ => false end.

(** At most one of the read loop and the reconnect loop runs; the state flag,
    the state machine and the read loop agree; the attempt counter stays
    within the configured limit, strictly while another attempt is planned. *)
Record life_inv (config : Config) (y : sys) : Prop := {
  inv_one : (s_reads y + length (s_reconns y) <= 1)%nat;
  inv_fsm : c_fsm (s_conn y) = c_state (s_conn y);
  inv_state : c_state (s_conn y) = if (s_reads y =? 0)%nat then sioStateClosed else sioStateOpen;
  inv_config : c_config (s_conn y) = ResolveDefaults config;
  inv_count : 0 <= c_attemptCount (s_conn y);
  inv_reset : s_reads y ≠ 0%nat → c_attemptCount (s_conn y) = 0;
  inv_limit : 0 < ReconnectionAttempts config →
    c_attemptCount (s_conn y) <= ReconnectionAttempts config ∧
    (existsb waiting (s_reconns y) = true →
       c_attemptCount (s_conn y) < ReconnectionAttempts config)
}.

(** A step that keeps the core fields, the loops' number and no more waiting
    reconnect loops than before keeps the invariant. *)
Lemma life_inv_frame config y y' :
  life_inv config y → core (s_conn y') = core (s_conn y) → s_reads y' = s_reads y →
  (length (s_reconns y') <= length (s_reconns y))%nat →
  (existsb waiting (s_reconns y') = true → existsb waiting (s_reconns y) = true) →
  life_inv config y'.
Proof.
  unfold core. intros [I1 I2 I3 I4 I5 I6 I7] Hc Hr Hl Hw. injection Hc as E1 E2 E3 E4.
  constructor; rewrite ?E1, ?E2, ?E3, ?E4, ?Hr; try done; [lia|].
  intros Hn. specialize (I7 Hn). split; [tauto|]. intros H'. by apply I7, Hw.
Qed.

Lemma Transition_rule `{!FoundationLaws} st ev st' :
  List.find (rule_for st ev) initFSM = Some {| From_ := st; Event_ := ev; To_ := st' |} →
  Transition initFSM st ev = st'.
Proof. intros Hf. by rewrite Transition_spec, Hf. Qed.

(** A single reconnect loop: the split of a singleton list. *)
Lemma one_reconn y l pc r :
  (s_reads y + length (s_reconns y) <= 1)%nat → s_reconns y = l ++ pc :: r →
  l = [] ∧ r = [] ∧ s_reads y = 0%nat.
Proof.
  intros H1 E. rewrite E in H1. autorewrite with golen in H1. simpl in H1.
  destruct l; [|simpl in H1; lia]. destruct r; [|simpl in H1; lia]. split_and!; try done.
  simpl in H1. lia.
Qed.

Lemma cleanup_inv `{!FoundationLaws} config y c0 eff1 c eff n :
  life_inv config y → s_reads y = S n → core c0 = core (s_conn y) →
  forallb quiet eff1 = true → cleanupConnection c0 = (c, eff) →
  life_inv config (run_effects (upd y c n (s_hearts y) (s_reconns y)) (eff1 ++ eff)).
Proof.
  unfold core. intros [I1 I2 I3 I4 I5 I6 I7] Hr Hc Hq Hcl. injection Hc as E1 E2 E3 E4.
  assert (n = 0%nat) as -> by lia. rewrite Hr in *. simpl in I3.
  assert (s_reconns y = []) as Hnil by (destruct (s_reconns y); [done|simpl in I1; lia]).
  rewrite run_effects_app.
  destruct (run_quiet (upd y c 0 (s_hearts y) (s_reconns y)) eff1 Hq) as (Q1 & Q2 & _ & Q4 & _).
  set (y1 := run_effects _ eff1) in *. simpl in Q1, Q2, Q4. rewrite Hnil in Q4.
  unfold cleanupConnection in Hcl. injection Hcl as Hcs Heff.
  assert (HT : Transition initFSM (c_fsm c0) sioEventTypeClose = sioStateClosed).
  { rewrite E2, I2, I3. by apply Transition_rule. }
  set (cleanup_quiet := match _ with Some ws => [CloseSocket ws] | None => [] end ++ _) in Heff.
  assert (∃ q rc, eff = q ++ rc ∧ forallb quiet q = true ∧ (rc = [] ∨ rc = [GoReconnect]))
    as (q & rc & -> & Hq2 & Hrc).
  { rewrite <- Heff. unfold cleanup_quiet. rewrite app_assoc. eexists _, _. split; [done|]. split.
    - rewrite forallb_app. by repeat case_match.
    - case_match; [by right|by left]. }
  clear Heff cleanup_quiet. rewrite run_effects_app.
  destruct (run_quiet y1 q Hq2) as (R1 & R2 & _ & R4 & _). set (y2 := run_effects y1 q) in *.
  assert (Hc2 : s_conn (run_effects y2 rc) = c ∧ s_reads (run_effects y2 rc) = 0%nat ∧
    (length (s_reconns (run_effects y2 rc)) <= 1)%nat).
  { destruct Hrc as [-> | ->]; simpl; rewrite R1, R2, ?R4, Q1, Q2, ?Q4; auto. }
  destruct Hc2 as (D1 & D2 & D3). constructor; rewrite ?D1, ?D2; try lia.
  - by rewrite <- Hcs.
  - by rewrite <- Hcs.
  - rewrite <- Hcs. simpl. congruence.
  - rewrite <- Hcs. simpl. lia.
  - rewrite <- Hcs. simpl. intros Hn. rewrite E3. rewrite I6 by done. lia.
Qed.

Lemma quiet_inv config y c reads hearts rcs eff :
  forallb quiet eff = true → life_inv config (upd y c reads hearts rcs) →
  life_inv config (run_effects (upd y c reads hearts rcs) eff).
Proof.
  intros Hq Hi. destruct (run_quiet (upd y c reads hearts rcs) eff Hq) as (Q1 & Q2 & _ & Q4 & _).
  eapply life_inv_frame; [exact Hi|by rewrite Q1|done|by rewrite Q4|by rewrite Q4].
Qed.

(** The reconnect loop's steps replace its position; [c] keeps the state. *)
Lemma reconn_inv config y c rcs :
  life_inv config y → s_reads y = 0%nat → (length rcs <= 1)%nat →
  c_state c = c_state (s_conn y) → c_fsm c = c_fsm (s_conn y) →
  c_config c = c_config (s_conn y) → 0 <= c_attemptCount c →
  (0 < ReconnectionAttempts config →
     c_attemptCount c <= ReconnectionAttempts config ∧
     (existsb waiting rcs = true → c_attemptCount c < ReconnectionAttempts config)) →
  life_inv config (upd y c (s_reads y) (s_hearts y) rcs).
Proof.
  intros [I1 I2 I3 I4 I5 I6 I7] Hr Hl E1 E2 E4 Hc Hn.
  rewrite Hr in *. constructor; simpl; rewrite ?E1, ?E2, ?E4; try done.
Qed.

Lemma failure_limit config c eff stop :
  c_config c = ResolveDefaults config → handleReconnectFailure c = (eff, stop) →
  forallb quiet eff = true ∧
  (stop = false → 0 < ReconnectionAttempts config →
     c_attemptCount c < ReconnectionAttempts config).
Proof.
  unfold handleReconnectFailure. intros ->. simpl.
  destruct (_ && _) eqn:E; intros [= <- <-].
  - split; [by destruct (c_onReconnectFailed c)|done].
  - split; [done|]. intros _ Hn. apply andb_false_iff in E as [E|E]; bools; lia.
Qed.

Lemma handshake_inv `{!FoundationLaws} config y l ws r i c eff stop :
  life_inv config y → s_reconns y = l ++ RcHandshake ws :: r →
  attempt_handshake (s_conn y) ws i = (c, eff, stop) →
  life_inv config (run_effects (upd y c (s_reads y) (s_hearts y)
                     (l ++ (if stop then [] else [RcCheck]) ++ r)) eff).
Proof.
  intros Hi Hrc Ha. destruct (one_reconn y _ _ _ (inv_one _ _ Hi) Hrc) as (-> & -> & Hr0).
  unfold attempt_handshake in Ha.
  destruct (doHandshake (s_conn y) i) as [[s1 e1] res] eqn:Ed.
  apply doHandshake_frame in Ed as [Hcore%life_core Hq]. unfold core in Hcore. injection Hcore as E1 E2 E3 E4.
  pose proof Hi as [I1 I2 I3 I4 I5 I6 I7]. rewrite Hr0 in *. simpl in I3. destruct res as [[]|e].
  - unfold finalizeReconnection in Ha. injection Ha as <- <- <-.
    assert (HT : Transition initFSM (c_fsm s1) sioEventTypeReconnect = sioStateOpen).
    { rewrite E2, I2, I3. by apply Transition_rule. }
    simpl. rewrite !run_effects_app.
    match goal with |- context [run_effects (upd ?y ?c ?a ?b ?d) e1] =>
      destruct (run_quiet (upd y c a b d) e1 Hq) as (Q1 & Q2 & _ & Q4 & _);
      set (y1 := run_effects (upd y c a b d) e1) in * end.
    match goal with |- context [run_effects y1 ?e] =>
      destruct (run_quiet y1 e) as (R1 & R2 & _ & R4 & _); [by case_match|];
      set (y2 := run_effects y1 e) in * end.
    simpl in *. constructor; simpl; rewrite ?R1, ?R2, ?R4, ?Q1, ?Q2, ?Q4, ?Hr0; simpl; try done; try lia.
    congruence.
  - destruct (handleReconnectFailure s1) as [e2 st] eqn:Ef. injection Ha as <- <- <-.
    assert (Hconf : c_config s1 = ResolveDefaults config) by congruence.
    destruct (failure_limit config s1 e2 st Hconf Ef) as [Hq2 Hlim].
    apply quiet_inv. { rewrite !forallb_app. simpl. by rewrite Hq, Hq2. }
    rewrite <- Hr0. apply reconn_inv; try done; [destruct st; simpl; lia|lia|].
    intros Hn. specialize (I7 Hn). split; [lia|]. destruct st; [done|]. intros _. by apply Hlim.
Qed.

Lemma heartbeat_tick_frame s ch ok c eff b :
  heartbeat_tick s ch ok = (c, eff, b) → life c = life s ∧ forallb quiet eff = true.
Proof.
  unfold heartbeat_tick. pose proof (write_quiet (set_pongCh (Some ch) s) ok eioPing []) as Hq.
  destruct (writeEIOPacket _ _ _ _) as [e [[]|]]; by intros [= <- <- <-].
Qed.

Lemma tick_inv config y ch ok c eff b hearts :
  life_inv config y → heartbeat_tick (s_conn y) ch ok = (c, eff, b) →
  life_inv config (run_effects (fresh (upd y c (s_reads y) hearts (s_reconns y)) 0) eff).
Proof.
  intros Hi [Hc%life_core Hq]%heartbeat_tick_frame.
  destruct (run_quiet (fresh (upd y c (s_reads y) hearts (s_reconns y)) 0) eff Hq)
    as (Q1 & Q2 & _ & Q4 & _).
  eapply life_inv_frame; [exact Hi|by rewrite Q1|by rewrite Q2|by rewrite Q4|by rewrite Q4].
Qed.

Ltac frame_inv := eapply life_inv_frame; [eassumption|try done..].

(** One message of the read loop; the loop ends when [stop]. *)
Lemma read_inv `{!FoundationLaws} config y msg c eff (stop : bool) n :
  life_inv config y → s_reads y = S n → readLoop_once (s_conn y) msg = (c, eff, stop) →
  life_inv config (run_effects (upd y c (if stop then n else s_reads y) (s_hearts y) (s_reconns y)) eff).
Proof.
  intros Hi Hn E. pose proof Hi as [I1 I2 I3 I4 I5 I6 I7]. unfold readLoop_once in E.
  destruct (match c_conn _ with None => _ | Some _ => _ end) as [[t p]|].
  - destruct (dispatchEIOPacket _ t p) as [[s1 e1] stop'] eqn:Ed.
    apply dispatchEIOPacket_frame in Ed as [Hc%life_core Hq]. destruct stop'.
    + destruct (cleanupConnection s1) as [s2 e2] eqn:Ec. injection E as <- <- <-. by eapply cleanup_inv.
    + injection E as <- <- <-. apply quiet_inv; [done|]. frame_inv.
  - destruct (cleanupConnection _) as [s2 e2] eqn:Ec. injection E as <- <- <-.
    apply (cleanup_inv config y (s_conn y) [] _ e2 _ Hi); try done.
Qed.

(** The single reconnect loop of the step at hand. *)
Ltac the_reconn I1 I7 :=
  match goal with Hr : s_reconns ?y = _ |- _ =>
    destruct (one_reconn y _ _ _ I1 Hr) as (-> & -> & Hr0); rewrite Hr in I7 end.

Lemma life_inv_step `{!FoundationLaws} config y y' :
  life_inv config y → sys_step y y' → life_inv config y'.
Proof.
  intros Hi Hs. pose proof Hi as [I1 I2 I3 I4 I5 I6 I7]. inversion Hs; subst; clear Hs.
  - (* Close *) match goal with Hc : Close _ _ _ = _ |- _ => rename Hc into E end.
    unfold Close in E. destruct (c_closed (s_conn y)); injection E as <- <-;
      (apply quiet_inv; [|frame_inv]).
    + done.
    + rewrite !forallb_app, !write_quiet. simpl. by destruct (c_conn (s_conn y)).
  - match goal with Hc : emitNS _ _ _ _ _ = _ |- _ => apply emitNS_frame in Hc as [Hc%life_core Hq] end.
    apply quiet_inv; [done|]. frame_inv.
  - frame_inv.
  - by eapply (read_inv config y msg c eff false).
  - by eapply (read_inv config y msg c eff true).
  - frame_inv.
  - by eapply tick_inv.
  - by eapply tick_inv.
  - frame_inv.
  - (* timeout *) unfold heartbeat_timeout in *. simplify_eq.
    apply quiet_inv; [by destruct (c_conn _)|]. frame_inv. simpl. by destruct (c_skipReconnect _).
  - (* reconnect loop stops *)
    match goal with Hr : s_reconns y = _ |- _ => destruct (one_reconn y _ _ _ I1 Hr) as (-> & -> & Hr0) end.
    apply reconn_inv; try done; [simpl; lia|]. intros Hn. specialize (I7 Hn). split; [tauto|done].
  - the_reconn I1 I7.
    by apply reconn_inv.
  - the_reconn I1 I7.
    match goal with Hc : attempt_begin _ = _ |- _ => unfold attempt_begin in Hc; injection Hc as <- <- end.
    apply quiet_inv; [by destruct (c_onReconnecting _)|]. apply reconn_inv; try done; simpl; [lia|].
    intros Hn. specialize (I7 Hn). simpl in I7. destruct I7 as [_ I7]. specialize (I7 eq_refl).
    split; [lia|done].
  - the_reconn I1 I7.
    match goal with Hc : handleReconnectFailure _ = _ |- _ =>
      destruct (failure_limit config _ _ _ I4 Hc) as [Hq Hlim] end.
    apply quiet_inv; [done|]. apply reconn_inv; try done; [destruct stop; simpl; lia|].
    intros Hn. specialize (I7 Hn). split; [tauto|]. destruct stop; [done|]. intros _. by apply Hlim.
  - the_reconn I1 I7.
    assert (Hi' : life_inv config (upd y (attempt_dialed (s_conn y) (s_fresh y)) (s_reads y)
      (s_hearts y) [RcHandshake (s_fresh y)])).
    { by apply reconn_inv; [..|intros Hn; specialize (I7 Hn); tauto]. }
    eapply life_inv_frame; [exact Hi'|done..].
  - by eapply handshake_inv.
Qed.

Lemma life_inv_init `{!FoundationLaws} config y : sys_init config y → life_inv config y.
Proof.
  intros (i & eff & c & Hnew & ->). unfold NewSocketIOConn in Hnew.
  destruct (doHandshake _ i) as [[s1 e1] [[]|]] eqn:Ed; [|done].
  apply doHandshake_frame in Ed as [Hcore%life_core _]. unfold core in Hcore. simpl in Hcore.
  injection Hcore as E1 E2 E3 E4. injection Hnew as <- <-.
  assert (HT : Transition initFSM (c_fsm s1) sioEventTypeOpen = sioStateOpen).
  { rewrite E2. by apply Transition_rule. }
  constructor; simpl; try done; try lia; by rewrite E3.
Qed.

Lemma life_inv_reachable `{!FoundationLaws} config y : reachable config y → life_inv config y.
Proof.
  intros (y0 & Hi & Hr). apply life_inv_init in Hi.
  induction Hr as [|y0 y1 y2 Hs Hr IH]; [done|]. apply IH. by eapply life_inv_step.
Qed.

(** C1: in every reachable state at most one of the read loop and the reconnect
    loop runs, [Connected] is true exactly while the read loop runs, the state
    machine agrees with the state flag, and the number of consecutive
    reconnection attempts never exceeds a positive [ReconnectionAttempts]. *)
Theorem connection_life_cycle `{!FoundationLaws} (config : Config) (y : sys)
  (Hy : reachable config y) :
  (s_reads y + length (s_reconns y) <= 1)%nat ∧
  Connected (s_conn y) = (s_reads y =? 1)%nat ∧
  c_fsm (s_conn y) = c_state (s_conn y) ∧
  (0 < ReconnectionAttempts config →
     0 <= c_attemptCount (s_conn y) <= ReconnectionAttempts config).
Proof.
  destruct (life_inv_reachable config y Hy) as [I1 I2 I3 I4 I5 I6 I7].
  split_and!; try done.
  - unfold Connected. rewrite I3. destruct (s_reads y) as [|[|n]]; simpl in *; [done|done|lia].
  - intros Hn. specialize (I7 Hn). lia.
Qed.

(** ** Shutting down for good *)

(** The channel is closed and no reconnect loop is past its check of it. *)
Definition shut (y : sys) : Prop :=
  c_closed (s_conn y) = true ∧ Forall (λ pc, pc = RcCheck) (s_reconns y).

Lemma life_closed c s : life c = life s → c_closed c = c_closed s.
Proof. unfold life. congruence. Qed.

Lemma run_effects_shut y effs :
  (shut y → shut (run_effects y effs)) ∧ s_dials (run_effects y effs) = s_dials y.
Proof.
  unfold run_effects. revert y. induction effs as [|e effs IH]; intros y; simpl; [done|].
  destruct (IH (run_effect y e)) as [H1 H2]. split.
  - intros [Hc Hr]. apply H1. destruct e; try done. split; [done|].
    apply Forall_app. by repeat constructor.
  - rewrite H2. by destruct e.
Qed.

Lemma shut_effects y c n h rcs effs :
  c_closed c = true → Forall (λ pc, pc = RcCheck) rcs →
  shut (run_effects (upd y c n h rcs) effs) ∧
  s_dials (run_effects (upd y c n h rcs) effs) = s_dials y.
Proof.
  intros Hc Hr. destruct (run_effects_shut (upd y c n h rcs) effs) as [H1 H2].
  split; [by apply H1|done].
Qed.

Lemma cleanup_closed c c' eff : cleanupConnection c = (c', eff) → c_closed c' = c_closed c.
Proof. unfold cleanupConnection. by intros [= <- <-]. Qed.

Lemma read_closed c msg c' eff b : readLoop_once c msg = (c', eff, b) → c_closed c' = c_closed c.
Proof.
  unfold readLoop_once. destruct (match c_conn c with None => _ | Some _ => _ end) as [[t p]|].
  - destruct (dispatchEIOPacket c t p) as [[s1 e1] stop] eqn:Ed.
    apply dispatchEIOPacket_frame in Ed as [Hl%life_closed _]. destruct stop.
    + destruct (cleanupConnection s1) as [s2 e2] eqn:Ec. apply cleanup_closed in Ec.
      intros [= <- <- <-]. congruence.
    + by intros [= <- <- <-].
  - destruct (cleanupConnection c) as [s2 e2] eqn:Ec. apply cleanup_closed in Ec.
    by intros [= <- <- <-].
Qed.

Lemma shut_step y y' : shut y → sys_step y y' → shut y' ∧ s_dials y' = s_dials y.
Proof.
  intros [Hc Hr] Hs. inversion Hs; subst; clear Hs;
    try match goal with Hl : s_reconns y = _ ++ _ :: _ |- _ =>
      rewrite Hl, Forall_app, Forall_cons in Hr; destruct Hr as (Hr1 & Hr2 & Hr3) end;
    try done.
  - apply shut_effects; [|done].
    match goal with H : Close _ _ _ = _ |- _ => unfold Close in H; rewrite Hc in H;
      injection H as <- <- end. done.
  - apply shut_effects; [|done].
    match goal with H : emitNS _ _ _ _ _ = _ |- _ => apply emitNS_frame in H as [H%life_closed _] end.
    congruence.
  - apply shut_effects; [|done].
    match goal with H : readLoop_once _ _ = _ |- _ => apply read_closed in H end. congruence.
  - apply shut_effects; [|done].
    match goal with H : readLoop_once _ _ = _ |- _ => apply read_closed in H end. congruence.
  - match goal with H : heartbeat_tick _ _ _ = _ |- _ => apply heartbeat_tick_frame in H as [H%life_closed _] end.
    match goal with |- shut (run_effects ?z ?e) ∧ _ => destruct (run_effects_shut z e) as [E1 E2] end.
    split; [apply E1; split; simpl; [congruence|done]|]. rewrite E2. simpl. lia.
  - match goal with H : heartbeat_tick _ _ _ = _ |- _ => apply heartbeat_tick_frame in H as [H%life_closed _] end.
    match goal with |- shut (run_effects ?z ?e) ∧ _ => destruct (run_effects_shut z e) as [E1 E2] end.
    split; [apply E1; split; simpl; [congruence|done]|]. rewrite E2. simpl. lia.
  - apply shut_effects; [|done].
    match goal with H : heartbeat_timeout _ = _ |- _ => unfold heartbeat_timeout in H; injection H as <- <- end.
    by destruct (c_skipReconnect _).
  - split; [|done]. split; [done|]. by apply Forall_app.
  - congruence.
Qed.

Lemma shut_forever y y' : shut y → rtc sys_step y y' → shut y' ∧ s_dials y' = s_dials y.
Proof.
  intros Hs Hr. induction Hr as [|y y1 y2 H1 Hr IH]; [done|].
  destruct (shut_step y y1 Hs H1) as [Hs' Hd]. destruct (IH Hs') as [? ?]. split; [done|lia].
Qed.

(** [Close] on a connected client ends it for good: whatever happens
    afterwards, no socket is dialed again and the [closed] channel stays closed. *)
Theorem close_is_final `{!FoundationLaws} (config : Config) (y y' : sys) (ok1 ok2 : bool)
  (Hy : reachable config y) (Hconn : Connected (s_conn y) = true) :
  let '(c, eff) := Close (s_conn y) ok1 ok2 in
  rtc sys_step (run_effects (upd y c (s_reads y) (s_hearts y) (s_reconns y)) eff) y' →
  s_dials y' = s_dials y ∧ c_closed (s_conn y') = true.
Proof.
  destruct (life_inv_reachable config y Hy) as [I1 _ I3 _ _ _ _].
  unfold Connected in Hconn. apply bool_decide_eq_true in Hconn. rewrite Hconn in I3.
  assert (s_reconns y = []) as Hnil.
  { destruct (s_reads y); [done|]. destruct (s_reconns y); [done|simpl in I1; lia]. }
  destruct (Close (s_conn y) ok1 ok2) as [c eff] eqn:E.
  assert (Hc : c_closed c = true).
  { unfold Close in E. destruct (c_closed (s_conn y)) eqn:Ec; by injection E as <- <-. }
  intros Hr. destruct (shut_effects y c (s_reads y) (s_hearts y) (s_reconns y) eff) as [Hs Hd];
    [done|by rewrite Hnil|].
  destruct (shut_forever _ _ Hs Hr) as [[? _] ?]. split; [lia|done].
Qed.

(** A ping timeout also ends the client for good, although automatic
    reconnection is on: the timeout closes the same channel the reconnect loop
    checks first, so no socket is ever dialed again. *)
Theorem ping_timeout_never_reconnects `{!FoundationLaws} (config : Config) (y y' : sys)
  (l r : list hb_pc) (ch : nat)
  (Hy : reachable config y) (Hconn : Connected (s_conn y) = true)
  (Hskip : c_skipReconnect (s_conn y) = false)
  (Hhb : s_hearts y = l ++ HbPong ch :: r) :
  let '(c, eff) := heartbeat_timeout (s_conn y) in
  let y1 := run_effects (upd y c (s_reads y) (l ++ r) (s_reconns y)) eff in
  sys_step y y1 ∧ (rtc sys_step y1 y' → s_dials y' = s_dials y).
Proof.
  destruct (life_inv_reachable config y Hy) as [I1 _ I3 _ _ _ _].
  unfold Connected in Hconn. apply bool_decide_eq_true in Hconn. rewrite Hconn in I3.
  assert (s_reconns y = []) as Hnil.
  { destruct (s_reads y); [done|]. destruct (s_reconns y); [done|simpl in I1; lia]. }
  destruct (heartbeat_timeout (s_conn y)) as [c eff] eqn:E. simpl. split.
  - by eapply step_hb_timeout.
  - intros Hr. unfold heartbeat_timeout in E. rewrite Hskip in E.
    injection E as <- <-.
    match type of Hr with rtc _ (run_effects (upd _ ?c ?n ?h ?rc) ?e) _ =>
      destruct (shut_effects y c n h rc e) as [Hs Hd]; [done|by rewrite Hnil|] end.
    destruct (shut_forever _ _ Hs Hr) as [_ ?]. lia.
Qed.

(** ** Three flaws of the reconnection protocol *)

Lemma handshake_success_step y l ws r i c eff :
  s_reconns y = l ++ RcHandshake ws :: r → doHandshake (s_conn y) i = (c, eff, Ok tt) →
  ∃ y', sys_step y y' ∧ s_conn y' = (finalizeReconnection c).1 ∧
        s_hearts y' = s_hearts y ++ [HbTick] ∧ s_reads y' = S (s_reads y).
Proof.
  intros Hr Hd. eexists. split; [eapply (step_rc_handshake y l ws r i); [done|]|].
  { unfold attempt_handshake. rewrite Hd. reflexivity. }
  apply doHandshake_frame in Hd as [_ Hq]. simpl. rewrite !run_effects_app.
  match goal with |- context [run_effects (upd ?y ?c ?a ?b ?d) eff] =>
    destruct (run_quiet (upd y c a b d) eff Hq) as (Q1 & Q2 & Q3 & Q4 & _);
    set (y1 := run_effects (upd y c a b d) eff) in * end.
  match goal with |- context [run_effects y1 ?e] =>
    destruct (run_quiet y1 e) as (R1 & R2 & R3 & R4 & _); [by destruct (c_onReconnected c)|];
    set (y2 := run_effects y1 e) in * end.
  simpl in *. by rewrite R1, R2, R3, Q1, Q2, Q3.
Qed.

(** [Close] called while the reconnect loop is dialing is undone: the dial
    resets the closed channel and the skip flag, and if the new handshake
    succeeds the client is connected again. *)
Theorem close_while_dialing_is_undone (y : sys) (ok1 ok2 : bool) (l r : list rc_pc)
  (i : handshake_input) (c2 : Conn) (eff2 : list effect)
  (Hdial : s_reconns y = l ++ RcDial :: r) (Hopen : c_closed (s_conn y) = false) :
  let '(c, eff) := Close (s_conn y) ok1 ok2 in
  let y1 := run_effects (upd y c (s_reads y) (s_hearts y) (s_reconns y)) eff in
  doHandshake (attempt_dialed c (s_fresh y1)) i = (c2, eff2, Ok tt) →
  sys_step y y1 ∧ c_closed (s_conn y1) = true ∧
  ∃ y', rtc sys_step y1 y' ∧ Connected (s_conn y') = true ∧ c_closed (s_conn y') = false.
Proof.
  destruct (Close (s_conn y) ok1 ok2) as [c eff] eqn:E. intros y1 Hhs.
  assert (Hq : forallb quiet eff = true ∧ c_closed c = true).
  { unfold Close in E. rewrite Hopen in E. injection E as <- <-. split; [|done].
    rewrite !forallb_app, !write_quiet. simpl. by destruct (c_conn (s_conn y)). }
  destruct Hq as [Hq Hc].
  destruct (run_quiet (upd y c (s_reads y) (s_hearts y) (s_reconns y)) eff Hq)
    as (Q1 & _ & _ & Q4 & _). fold y1 in Q1, Q4. simpl in Q1, Q4.
  split; [by eapply step_close|]. split; [congruence|].
  assert (S1 : sys_step y1 (fresh (upd y1 (attempt_dialed (s_conn y1) (s_fresh y1)) (s_reads y1)
                 (s_hearts y1) (l ++ RcHandshake (s_fresh y1) :: r)) 1)).
  { apply step_rc_dialed. congruence. }
  set (y2 := fresh _ 1) in S1. rewrite <- Q1 in Hhs.
  destruct (handshake_success_step y2 l (s_fresh y1) r i c2 eff2 eq_refl Hhs)
    as (y' & S2 & Hc' & _).
  exists y'. split; [by eapply rtc_l, rtc_once|]. rewrite Hc'. split; [done|].
  apply doHandshake_frame in Hhs as [Hl%life_closed _]. exact Hl.
Qed.

(** The read fails, and the reconnect loop it starts checks, sleeps and comes to
    its dial. *)
Lemma breaks_to_dial (y : sys) (e : sio_error)
  (Hreads : s_reads y = 1%nat) (Hrcs : s_reconns y = []) (Hopen : c_closed (s_conn y) = false)
  (Hskip : c_skipReconnect (s_conn y) = false) (Hauto : Reconnection (c_config (s_conn y)) = true) :
  ∃ y3, rtc (λ y y', sys_step y y' ∧ RcDial ∉ s_reconns y) y y3 ∧
    s_conn y3 = (attempt_begin (cleanupConnection (s_conn y)).1).1 ∧
    s_hearts y3 = s_hearts y ∧ s_reconns y3 = [RcDial] ∧ s_fresh y3 = s_fresh y.
Proof.
  assert (S1 : ∃ y1, sys_step y y1 ∧ s_conn y1 = (cleanupConnection (s_conn y)).1 ∧
    s_hearts y1 = s_hearts y ∧ s_reconns y1 = [RcCheck] ∧ s_fresh y1 = s_fresh y).
  { destruct (cleanupConnection (s_conn y)) as [c eff] eqn:Ec.
    eexists. split; [eapply (step_read_end y (Err e)); [exact Hreads|]|].
    { unfold readLoop_once. destruct (c_conn (s_conn y)); cbn [readSingleEIOPacket mbind result_bind]; rewrite Ec; reflexivity. }
    unfold cleanupConnection in Ec. simpl in Ec. rewrite Hskip, Hauto in Ec.
    injection Ec as <- <-. simpl. rewrite !run_effects_app, Hrcs.
    by destruct (c_conn (s_conn y)), (c_onClose (s_conn y)). }
  destruct S1 as (y1 & S1 & C1 & H1 & R1 & F1).
  assert (Hc1 : c_closed (s_conn y1) = false) by by rewrite C1.
  assert (S2 : sys_step y1 (upd y1 (s_conn y1) (s_reads y1) (s_hearts y1) [RcSleep])).
  { by apply (step_rc_check y1 [] []). }
  set (y2 := upd y1 _ _ _ _) in S2.
  assert (S3 : ∃ y3, sys_step y2 y3 ∧ s_conn y3 = (attempt_begin (s_conn y1)).1 ∧
    s_hearts y3 = s_hearts y1 ∧ s_reconns y3 = [RcDial] ∧ s_fresh y3 = s_fresh y1).
  { eexists. split; [by eapply (step_rc_timer y2 [] [])|].
    simpl. by destruct (c_onReconnecting (s_conn y1)). }
  destruct S3 as (y3 & S3 & C3 & H3 & R3 & F3). exists y3.
  split; [|rewrite C3, C1, H3, H1, F3, F1; done].
  eapply rtc_l; [split; [exact S1|]|eapply rtc_l; [split; [exact S2|]|apply rtc_once; split; [exact S3|]]].
  - rewrite Hrcs. apply not_elem_of_nil.
  - rewrite R1. by intros [=]%list_elem_of_singleton.
  - cbn. by intros [=]%list_elem_of_singleton.
Qed.

(** Every reconnection starts a heartbeat loop and stops none: a client
    whose connection broke and was re-established runs one more loop than before,
    all sharing the one pong channel of the connection. *)
Theorem reconnection_adds_heartbeat (y : sys) (e : sio_error)
  (i : handshake_input) (c2 : Conn) (eff2 : list effect)
  (Hreads : s_reads y = 1%nat) (Hrcs : s_reconns y = []) (Hopen : c_closed (s_conn y) = false)
  (Hskip : c_skipReconnect (s_conn y) = false)
  (Hauto : Reconnection (c_config (s_conn y)) = true)
  (Hhs : doHandshake (attempt_dialed
           (attempt_begin (cleanupConnection (s_conn y)).1).1 (s_fresh y)) i = (c2, eff2, Ok tt)) :
  ∃ y', rtc sys_step y y' ∧ Connected (s_conn y') = true ∧
        s_hearts y' = s_hearts y ++ [HbTick].
Proof.
  destruct (breaks_to_dial y e Hreads Hrcs Hopen Hskip Hauto) as (y3 & S3 & C3 & H3 & R3 & F3).
  pose proof (step_rc_dialed y3 [] [] R3) as S4. set (y4 := fresh _ 1) in S4.
  destruct (handshake_success_step y4 [] (s_fresh y3) [] i c2 eff2 eq_refl) as (y' & S5 & C5 & H5 & _).
  { simpl. by rewrite C3, F3. }
  exists y'. split.
  - etrans; [eapply rtc_subrel; [|exact S3]; by intros ? ? [? _]|]. eapply rtc_l; [exact S4|]. by apply rtc_once.
  - rewrite C5, H5. simpl. by rewrite H3.
Qed.

(** A binary acknowledgement (packet type 6) never resolves the callback
    waiting for it: the acknowledgement table is untouched when the packet
    arrives and when its attachments do, because the reassembled packet is
    dispatched as an event. *)
Theorem binary_ack_never_resolves (s c : Conn) (data : bytes) (eff : list effect)
  (Htype : head data = Some sioBinaryAck) (Hh : handleSIOPacket s data = (c, eff)) :
  c_ackMgr c = c_ackMgr s ∧ eff = [] ∧
  ∀ payload c' eff' stop, dispatchEIOPacket c eioBinary payload = (c', eff', stop) →
    c_ackMgr c' = c_ackMgr s ∧ stop = false.
Proof.
  assert (Hc : c_ackMgr c = c_ackMgr s ∧ eff = []).
  { unfold handleSIOPacket in Hh. pose proof (decode_type data) as Hd.
    destruct (decodeSIOPacket data) as [pkt|]; [|by injection Hh as <- <-].
    rewrite Htype in Hd. specialize (Hd _ eq_refl). injection Hd as Hd. rewrite <- Hd in Hh.
    by injection Hh as <- <-. }
  destruct Hc as [Hc He]. split_and!; [done..|]. intros payload c' eff' stop.
  change (dispatchEIOPacket c eioBinary payload) with
    (match c_binaryBuf c with
     | None => (c, [], false)
     | Some br =>
         let '(br', complete) := addBuffer br payload in
         if complete then
           let s' := set_binaryBuf None c in
           match reconstruct br' with
           | Ok pkt => (s', dispatchPacket s' pkt, false)
           | Err _ => (s', [], false)
           end
         else (set_binaryBuf (Some br') c, [], false)
     end).
  destruct (c_binaryBuf c); [|by intros [= <- <- <-]].
  destruct (addBuffer _ _) as [br' []]; [|by intros [= <- <- <-]].
  destruct (reconstruct br'); by intros [= <- <- <-].
Qed.

(** A ping from the server is ignored: no pong is written. *)
Lemma server_ping_ignored (s : Conn) (payload : bytes) :
  dispatchEIOPacket s eioPing payload = (s, [], false).
Proof. reflexivity. Qed.
End client.

(** ** Witnesses: a concrete client *)

Module Sample.
Definition foundation : Foundation := {|
  Coalesce_duration a b := if a =? 0 then b else a;
  Coalesce_float a b := if a.1 =? 0 then b else a;
  Coalesce_string a b := if bytes_eqb a [] then b else a;
  Transition rules st ev :=
    match List.find (rule_for st ev) rules with Some r => To_ r | None => st end;
  ack_manager := Z * list (Z * nat);
  ack_new := (0, []);
  ack_NextID m := (m.1 + 1, (m.1 + 1, m.2));
  ack_Add id fn m := (m.1, (id, fn) :: m.2);
  ack_Resolve id m :=
    (snd <$> List.find (λ e, e.1 =? id) m.2, (m.1, List.filter (λ e, negb (e.1 =? id)) m.2))
|}.

Lemma foundation_laws : @FoundationLaws foundation.
Proof. constructor; reflexivity. Qed.

Definition handshake_json : HandshakeJSON := {|
  unmarshal_open _ := Some (str "sid", 25000, 20000);
  unmarshal_connect _ := ([], str "pid");
  marshal_auth _ := Some (str "{}")
|}.

#[local] Existing Instances foundation foundation_laws literal_JSON handshake_json.

Definition config : Config :=
  {| Reconnection := true; ReconnectionAttempts := 3; ReconnectionDelay := 0;
     ReconnectionDelayMax := 0; JitterFactor := (0, 0); ConnectTimeout := 0; PingTimeout := 0;
     cfg_Namespace := []; Auth := None |}.

Definition handshake : handshake_input :=
  {| hs_open := Delivered (Ok (FrameText, str "0{}")); hs_write := true;
     hs_connect := Delivered (Ok (FrameText, str "40{}")) |}.

Definition conn0 : Conn := Eval vm_compute in
  match (NewSocketIOConn config 0 handshake).2 with
  | Ok c => c
  | Err _ => initial_conn config 0
  end.

Definition start : sys := sys_start conn0.

Lemma start_reachable : reachable config start.
Proof.
  exists start. split; [|apply rtc_refl]. exists handshake. eexists _, conn0.
  split; [vm_compute; reflexivity|reflexivity].
Qed.

(** The heartbeat ticked and waits for its pong. *)
Definition waiting_pong : sys :=
  run_effects (fresh (upd start (set_pongCh (Some 1%nat) conn0) 1 [HbPong 1] []) 0)
    [WriteMessage FrameText (str "2")].

Lemma waiting_pong_reachable : reachable config waiting_pong.
Proof.
  destruct start_reachable as (y0 & Hi & Hr). exists y0. split; [exact Hi|].
  eapply rtc_r; [exact Hr|]. exact (step_hb_tick start [] [] true _ _ eq_refl eq_refl).
Qed.

(** The connection broke and the reconnect loop is dialing. *)
Definition dialing : sys :=
  {| s_conn := (attempt_begin (cleanupConnection conn0).1).1; s_reads := 0; s_hearts := [HbTick];
     s_reconns := [RcDial]; s_fresh := 1; s_ponged := []; s_dials := 1 |}.

Lemma connection_life_cycle_witness :
  (s_reads start + length (s_reconns start) <= 1)%nat ∧
  Connected (s_conn start) = (s_reads start =? 1)%nat ∧
  c_fsm (s_conn start) = c_state (s_conn start) ∧
  (0 < ReconnectionAttempts config →
     0 <= c_attemptCount (s_conn start) <= ReconnectionAttempts config).
Proof. exact (connection_life_cycle config start start_reachable). Defined.

Lemma close_is_final_witness :
  let '(c, eff) := Close (s_conn start) true true in
  let y1 := run_effects (upd start c (s_reads start) (s_hearts start) (s_reconns start)) eff in
  s_dials y1 = s_dials start ∧ c_closed (s_conn y1) = true.
Proof.
  pose proof (λ y', close_is_final config start y' true true start_reachable eq_refl) as H.
  destruct (Close (s_conn start) true true) as [c eff]. apply H, rtc_refl.
Defined.

Lemma ping_timeout_never_reconnects_witness :
  let '(c, eff) := heartbeat_timeout (s_conn waiting_pong) in
  let y1 := run_effects (upd waiting_pong c 1 [] []) eff in
  sys_step waiting_pong y1 ∧ s_dials y1 = s_dials waiting_pong.
Proof.
  pose proof (λ y', ping_timeout_never_reconnects config waiting_pong y' [] [] 1
    waiting_pong_reachable eq_refl eq_refl eq_refl) as H.
  destruct (heartbeat_timeout (s_conn waiting_pong)) as [c eff].
  split; [exact (proj1 (H waiting_pong))|]. exact (proj2 (H _) (rtc_refl _ _)).
Defined.

Definition dial_result := Eval vm_compute in
  doHandshake (attempt_dialed (Close (s_conn dialing) true true).1 1) handshake.

Lemma close_while_dialing_is_undone_witness :
  ∃ y', Connected (s_conn y') = true ∧ c_closed (s_conn y') = false.
Proof.
  pose proof (close_while_dialing_is_undone dialing true true [] [] handshake
                dial_result.1.1 dial_result.1.2 eq_refl eq_refl) as H.
  destruct (Close (s_conn dialing) true true) as [c eff] eqn:E.
  vm_compute in E. injection E as <- <-.
  destruct H as (_ & _ & y' & _ & Hc); [vm_compute; reflexivity|]. exists y'. exact Hc.
Defined.

Definition reconnect_result := Eval vm_compute in
  doHandshake (attempt_dialed (attempt_begin (cleanupConnection (s_conn start)).1).1 1) handshake.

Lemma reconnection_adds_heartbeat_witness :
  ∃ y', rtc sys_step start y' ∧ Connected (s_conn y') = true ∧ s_hearts y' = [HbTick; HbTick].
Proof.
  apply (reconnection_adds_heartbeat start ErrTransport handshake
           reconnect_result.1.1 reconnect_result.1.2 eq_refl eq_refl eq_refl eq_refl eq_refl).
  vm_compute. reflexivity.
Defined.

Lemma binary_ack_never_resolves_witness :
  c_ackMgr (handleSIOPacket conn0 (str "61-7[x]")).1 = c_ackMgr conn0.
Proof.
  apply (binary_ack_never_resolves conn0 (handleSIOPacket conn0 (str "61-7[x]")).1
           (str "61-7[x]") (handleSIOPacket conn0 (str "61-7[x]")).2 eq_refl).
  vm_compute. reflexivity.
Defined.
End Sample.
