(* ===== verification/SocketIODial.v ===== *)
(** * Dialing a Socket.IO server (src/socketio/client.go, reconnect.go)

    [DialSocketIO] dials a WebSocket, makes the connection, whose goroutines run
    from then on, and afterwards stores where it dialed, which is what these
    goroutines dial when the connection breaks. *)

From S2P Require Import Prelude GoLib GoText GoJson SocketIOPacket SocketIOConn.

#[local] Open Scope Z_scope.

(** The delays between attempts are those of [generic.Backoff] of the foundation
    module. *)
Class Backoffs := { Backoff : Type; NewBackoff : Z → Z → Z → Z * Z → Backoff }.

Section dial.
Context {FD : Foundation} {JS : JSON} {HJ : HandshakeJSON}.

Definition newBackoff `{Backoffs} (cfg : Config) : Backoff :=
  NewBackoff (ReconnectionDelay cfg) (ReconnectionDelayMax cfg) 2 (JitterFactor cfg).

(** [client], [targetURL] and [mods] of the connection. *)
Record target := { t_client : option nat; t_url : bytes; t_mods : list nat }.
Definition no_target : target := {| t_client := None; t_url := []; t_mods := [] |}.

(** What [DialWebSocket] returned: a socket or an error, and whether there is a
    response with a body. *)
Record dialed := { dl_socket : option nat; dl_body : bool }.

Inductive dial_effect := CloseBody | Conn_effect (e : effect).
Inductive dial_error := DialWebSocket_failed | Handshake_failed (e : sio_error).

Definition DialSocketIO (config : Config) (t : target) (d : dialed) (i : handshake_input) :
    list dial_effect * result dial_error (Conn * target) :=
  let body := if dl_body d then [CloseBody] else [] in
  match dl_socket d with
  | None => (body, Err DialWebSocket_failed)
  | Some ws =>
      let '(eff, r) := NewSocketIOConn config ws i in
      (body ++ map Conn_effect eff, match r with Err e => Err (Handshake_failed e) | Ok c => Ok (c, t) end)
  end.

Lemma new_conn_effects config ws i eff r : NewSocketIOConn config ws i = (eff, r) →
  match r with Err _ => ∃ e1, eff = e1 ++ [CloseSocket ws] | Ok _ => ∃ e1, eff = e1 ++ [GoReadLoop; GoHeartbeat] end.
Proof.
  unfold NewSocketIOConn. destruct (doHandshake _ _) as [[s1 e1] [x|e]]; intros [= <- <-]; eauto.
Qed.

Definition is_body (e : dial_effect) : bool := match e with CloseBody => true | _ => false end.

(** The body of the response is closed once if there is one; a socket that was
    dialed is closed when the handshake fails and read from when it succeeds. *)
Theorem dial_closes config t d i eff r : DialSocketIO config t d i = (eff, r) →
  length (List.filter is_body eff) = (if dl_body d then 1 else 0)%nat ∧
  match r with
  | Ok (c, t') => t' = t ∧ Conn_effect GoReadLoop ∈ eff
  | Err _ => ∀ ws, dl_socket d = Some ws → Conn_effect (CloseSocket ws) ∈ eff
  end.
Proof.
  unfold DialSocketIO. intros Hd.
  assert (∀ l, List.filter is_body (map Conn_effect l) = []) as Hf by (by induction l).
  destruct (dl_socket d) as [ws|] eqn:Es.
  - destruct (NewSocketIOConn config ws i) as [e1 r1] eqn:En. injection Hd as <- <-. rewrite List.filter_app, length_app, Hf. split; [by destruct (dl_body d)|].
    apply new_conn_effects in En. destruct r1 as [c|e]; destruct En as [e2 ->].
    + split; [done|]. apply elem_of_app. right. rewrite map_app. apply elem_of_app. right. by left.
    + intros ws' [= <-]. apply elem_of_app. right. rewrite map_app. apply elem_of_app. right. by left.
  - injection Hd as <- <-. split; [by destruct (dl_body d)|done].
Qed.

(** ** The target of reconnections *)

(** The connection and its goroutines while the caller of [DialSocketIO] makes its
    three assignments; [r_pc] counts those made, [r_used] are the targets of the
    attempts, with the count at their time. *)
Record racing := { r_sys : sys; r_target : target; r_pc : nat; r_used : list (nat * target) }.

(** The fields after [k] assignments of the target [t]. *)
Definition assigned (t : target) (k : nat) : target :=
  {| t_client := if (1 <=? k)%nat then t_client t else None;
     t_url := if (2 <=? k)%nat then t_url t else [];
     t_mods := if (3 <=? k)%nat then t_mods t else [] |}.

Definition assign (t : target) (r : racing) : racing :=
  {| r_sys := r_sys r; r_pc := S (r_pc r); r_used := r_used r;
     r_target := match r_pc r with
                 | 0%nat => {| t_client := t_client t; t_url := t_url (r_target r); t_mods := t_mods (r_target r) |}
                 | 1%nat => {| t_client := t_client (r_target r); t_url := t_url t; t_mods := t_mods (r_target r) |}
                 | _ => {| t_client := t_client (r_target r); t_url := t_url (r_target r); t_mods := t_mods t |}
                 end |}.

(** A reconnect loop dials, with success or without. *)
Definition dials (y y' : sys) : Prop := ∃ l r, s_reconns y = l ++ RcDial :: r ∧
  (y' = fresh (upd y (attempt_dialed (s_conn y) (s_fresh y)) (s_reads y) (s_hearts y) (l ++ RcHandshake (s_fresh y) :: r)) 1 ∨
   ∃ eff stop, handleReconnectFailure (s_conn y) = (eff, stop) ∧
     y' = run_effects (upd y (s_conn y) (s_reads y) (s_hearts y) (l ++ (if stop then [] else [RcCheck]) ++ r)) eff).

Lemma dials_step y y' : dials y y' → sys_step y y'.
Proof.
  intros (l & r & Hr & [->|(eff & stop & He & ->)]); [by apply step_rc_dialed|by apply step_rc_dial_fail].
Qed.

Inductive racing_step (t : target) (r : racing) : racing → Prop :=
  | race_assign : (r_pc r < 3)%nat → racing_step t r (assign t r)
  | race_dial y' : dials (r_sys r) y' →
      racing_step t r {| r_sys := y'; r_target := r_target r; r_pc := r_pc r; r_used := r_used r ++ [(r_pc r, r_target r)] |}
  | race_other y' : sys_step (r_sys r) y' → ¬ dials (r_sys r) y' →
      racing_step t r {| r_sys := y'; r_target := r_target r; r_pc := r_pc r; r_used := r_used r |}.

Definition fresh_race (y : sys) : racing := {| r_sys := y; r_target := no_target; r_pc := 0; r_used := [] |}.

Definition race_reach (t : target) (y : sys) : racing → Prop := rtc (racing_step t) (fresh_race y).

(** An attempt dials the target of [DialSocketIO] as far as it has been stored by
    then, all of it when the call has returned. The goroutines are those of the connection. *)
Theorem reconnect_target t y r : race_reach t y r →
  Forall (λ u, u.2 = assigned t u.1) (r_used r) ∧ r_target r = assigned t (r_pc r) ∧ (r_pc r <= 3)%nat ∧ rtc sys_step y (r_sys r) ∧ assigned t 3 = t.
Proof.
  intros Hr. cut (Forall (λ u, u.2 = assigned t u.1) (r_used r) ∧ r_target r = assigned t (r_pc r) ∧ (r_pc r <= 3)%nat ∧ rtc sys_step y (r_sys r)).
  { intros (? & ? & ? & ?). split_and!; try done. by destruct t. }
  revert r Hr. apply (rtc_ind_r (λ r, _ ∧ _)); [split_and!; [apply Forall_nil_2|done|cbn; lia|apply rtc_refl]|].
  intros r r' _ Hs (I1 & I2 & I3 & I4). destruct Hs as [Hp|y' Hd|y' Hs _]; cbn.
  - split_and!; try done. rewrite I2. destruct (r_pc r) as [|[|[|]]]; [done..|lia].
  - split_and!; try done; [apply Forall_app; by repeat constructor|]. eapply rtc_r; [done|]. by apply dials_step.
  - split_and!; try done. by eapply rtc_r.
Qed.

(** A connection that breaks at once is dialed again before its target is stored:
    without a client and with an empty address.  A connection that was not made by [DialSocketIO]
    has no other target. *)
Theorem reconnect_without_target t y : s_reads y = 1%nat → s_reconns y = [] →
  c_skipReconnect (s_conn y) = false → Reconnection (c_config (s_conn y)) = true → c_closed (s_conn y) = false →
  ∃ r, race_reach t y r ∧ r_used r = [(0%nat, no_target)].
Proof.
  intros Hread Hrc Hskip Hauto Hopen. destruct (breaks_to_dial y ErrEOF Hread Hrc Hopen Hskip Hauto) as (y3 & S3 & _ & _ & R3 & _).
  assert (race_reach t y (fresh_race y3)) as Hr.
  { clear -S3. induction S3 as [y|y y1 y3 [Hs Hn] _ IH]; [apply rtc_refl|]. eapply rtc_l; [|exact IH].
    apply (race_other t (fresh_race y)); [done|]. intros (l & r & E & _). apply Hn. cbn in E. rewrite E. set_solver. }
  eexists. split; [eapply rtc_r; [exact Hr|]; apply race_dial; exists [], []; split; [exact R3|by left]|done].
Qed.
End dial.

(** ** Concrete dials *)

Module DialSocketSample.
#[local] Existing Instances Sample.foundation Sample.foundation_laws literal_JSON Sample.handshake_json.

Definition here : target := {| t_client := Some 1%nat; t_url := str "wss://chat.example"; t_mods := [] |}.

Lemma dial_closes_witness : ∃ eff c, DialSocketIO Sample.config here {| dl_socket := Some 0%nat; dl_body := true |} Sample.handshake = (eff, Ok (c, here)) ∧
  Conn_effect GoReadLoop ∈ eff.
Proof.
  destruct (DialSocketIO Sample.config here {| dl_socket := Some 0%nat; dl_body := true |} Sample.handshake) as [eff r] eqn:E.
  pose proof (dial_closes _ _ _ _ _ _ E) as [_ H]. vm_compute in E. injection E as <- <-. eexists _, _. split; [reflexivity|]. apply H.
Defined.

Lemma reconnect_without_target_witness : ∃ r, race_reach here Sample.start r ∧ r_used r = [(0%nat, no_target)].
Proof. apply (reconnect_without_target here Sample.start); reflexivity. Defined.

Lemma reconnect_target_witness : ∃ r, race_reach here Sample.start r ∧ Forall (λ u, u.2 = assigned here u.1) (r_used r) ∧ r_used r ≠ [].
Proof.
  destruct (reconnect_without_target here Sample.start) as (r & Hr & E); [reflexivity..|]. exists r. split; [exact Hr|].
  split; [|by rewrite E]. exact (proj1 (reconnect_target here Sample.start r Hr)).
Defined.
End DialSocketSample.
