(* ===== verification/SocketIOWire.v ===== *)
(** * Two ends of a Socket.IO connection (src/socketio)

    What one client emits, read by the loop of another: the composition of
    [emitNS], the Engine.IO frames, the packet codec, the reassembly of
    attachments and the dispatch to handlers, one emit after the other and with
    two emits at the same time.  The wrappers of [NamespaceSocket] are here too. *)

From S2P Require Import Prelude GoLib GoText GoJson SocketIOPacket SocketIOConn.
Import EIO SIO.

#[local] Open Scope Z_scope.

(** ** encoding/json between two ends

    [encodable] are the values [json.Marshal] writes so that the text is read
    back as an array of the texts of its elements; [plain] are those that are
    also read back as themselves, integers as floating-point numbers. *)
Class WireJSON `{JSON} := {
  encodable : any → Prop;
  plain : any → Prop;
  encodable_slice l : encodable (ASlice l) → ∃ d raws, marshal (ASlice l) = Some d ∧ head d = Some "["%byte ∧
    unmarshal_array d = Some raws ∧ Forall2 (λ v raw, marshal v = Some raw) l raws;
  encodable_string l s raw : encodable (ASlice l) → AString s ∈ l → marshal (AString s) = Some raw → unmarshal_string raw = Some s;
  plain_encodable v : plain v → encodable v;
  plain_elements l v raw : plain (ASlice l) → v ∈ l → marshal v = Some raw → unmarshal_any raw = Some (json_ints v)
}.

Section wire.
Context {FD : Foundation} {JS : JSON} {HJ : HandshakeJSON} {WJ : WireJSON} {FL : FoundationLaws} {JL : JSONLaws}.

(** ** [NamespaceSocket] *)

Record NamespaceSocket := { ns_nsp : bytes }.

Definition NS_On (ns : NamespaceSocket) (s : Conn) (event : bytes) (handler : option nat) : Conn :=
  setNamespaceHandler s (ns_nsp ns) event handler.
Definition NS_OnAny (ns : NamespaceSocket) (s : Conn) (handler : nat) : Conn :=
  setNamespaceHandler s (ns_nsp ns) (str "*") (Some handler).
Definition NS_Emit (ns : NamespaceSocket) (s : Conn) oks event args := emitNS s oks (ns_nsp ns) event args.
Definition NS_EmitWithAck (ns : NamespaceSocket) (s : Conn) oks event args waiter w :=
  emitWithAckNS s oks (ns_nsp ns) event args waiter w.
Definition NS_EmitVolatile (ns : NamespaceSocket) (s : Conn) oks event args := emitVolatileNS s oks (ns_nsp ns) event args.

(** The function a catch-all registration wraps around its handler: the event
    name and the rest of the arguments, if there is a name. *)
Definition catch_all (args : list bytes) : option (bytes * list bytes) :=
  match args with
  | [] => None
  | a :: rest => match unmarshal_string a with Some eventName => Some (eventName, rest) | None => None end
  end.

(** The setters of the callbacks, and the accessors. *)
Definition OnClose (s : Conn) (h : option nat) : Conn := set_onClose h s.
Definition OnReconnecting (s : Conn) (h : option nat) : Conn := set_onReconnecting h s.
Definition OnReconnected (s : Conn) (h : option nat) : Conn := set_onReconnected h s.
Definition OnReconnectFailed (s : Conn) (h : option nat) : Conn := set_onReconnectFailed h s.
Definition ReconnectionAttempts_ (s : Conn) : Z := c_attemptCount s.
Definition SID (s : Conn) : bytes := c_sid s.
Definition getClosedChan (s : Conn) : bool := c_closed s.

(** ** The two ends *)

Definition messages (eff : list effect) : list (ws_frame * bytes) :=
  omap (λ e, match e with WriteMessage f d => Some (f, d) | _ => None end) eff.

(** The read loop on the messages that arrive, until it ends; the boolean says
    that it did. *)
Fixpoint receive (s : Conn) (msgs : list (ws_frame * bytes)) : Conn * list effect * bool :=
  match msgs with
  | [] => (s, [], false)
  | m :: ms =>
      let '(s1, e1, stop) := readLoop_once s (Ok m) in
      if stop then (s1, e1, true) else let '(s2, e2, b) := receive s1 ms in (s2, e1 ++ e2, b)
  end.

Lemma receive_app s m1 m2 s1 e1 : receive s m1 = (s1, e1, false) →
  receive s (m1 ++ m2) = let '(s2, e2, b) := receive s1 m2 in (s2, e1 ++ e2, b).
Proof.
  revert s e1. induction m1 as [|m m1 IH]; intros s e1; cbn [receive app].
  - intros [= <- <-]. by destruct (receive s m2) as [[? ?] ?].
  - destruct (readLoop_once s (Ok m)) as [[s' e'] [|]]; [done|]. destruct (receive s' m1) as [[s3 e3] b] eqn:E.
    intros [= -> <- ->]. rewrite (IH _ _ E). destruct (receive s1 m2) as [[? ?] ?]. by rewrite app_assoc.
Qed.

(** The handlers an event reaches: its own, with the arguments, and the
    catch-all one, with the name before them. *)
Definition callbacks (r : Conn) (nsp event name : bytes) (rest : list bytes) : list effect :=
  match c_nsEvents r !! nsp with
  | None => []
  | Some handlers =>
      match handlers !! event with Some (Some h) => [GoCallback h rest] | _ => [] end
      ++ match handlers !! str "*" with Some (Some h) => [GoCallback h (name :: rest)] | _ => [] end
  end.

Definition root (nsp : bytes) : bytes := match nsp with [] => str "/" | _ => nsp end.

(** Messages the receiver does not refuse for their size. *)
Definition small (m : ws_frame * bytes) : Prop := Z.of_nat (length m.2) <= maxEIOPacketSize.

Lemma read_message s ws (payload : bytes) : c_conn s = Some ws → payload ≠ [] → small (eio_message eioMessage payload) →
  readLoop_once s (Ok (eio_message eioMessage payload)) = let '(s', eff) := handleSIOPacket s payload in (s', eff, false).
Proof.
  intros Hc Hp Hs. unfold readLoop_once. rewrite Hc, read_write_EIO by done. unfold dispatchEIOPacket.
  cbn [beq Byte.eqb]. change (eioMessage =b eioClose) with false. change (eioMessage =b eioPong) with false.
  change (eioMessage =b eioMessage) with true. cbv iota. destruct payload; [done|]. by destruct (handleSIOPacket _ _).
Qed.

Lemma read_buffer s ws br (buf : bytes) : c_conn s = Some ws → c_binaryBuf s = Some br → buf ≠ [] → small (FrameBinary, buf) →
  readLoop_once s (Ok (FrameBinary, buf)) =
    let '(br', complete) := addBuffer br buf in
    if complete then
      match reconstruct br' with
      | Ok pkt => (set_binaryBuf None s, dispatchPacket (set_binaryBuf None s) pkt, false)
      | Err _ => (set_binaryBuf None s, [], false)
      end
    else (set_binaryBuf (Some br') s, [], false).
Proof.
  intros Hc Hb Hp Hs. unfold readLoop_once. rewrite Hc.
  change (FrameBinary, buf) with (eio_message eioBinary buf) in *. rewrite read_write_EIO by done.
  unfold dispatchEIOPacket. change (eioBinary =b eioClose) with false. change (eioBinary =b eioPong) with false.
  change (eioBinary =b eioMessage) with false. change (eioBinary =b eioBinary) with true. cbv iota. rewrite Hb.
  destruct (addBuffer br buf) as [br' []]; [|done]. by destruct (reconstruct br').
Qed.

(** The attachments of a packet, one after the other. *)
Lemma receive_buffers s ws br (frames : list bytes) : c_conn s = Some ws → c_binaryBuf s = Some br →
  frames ≠ [] → Forall (λ f, f ≠ []) frames → Forall (λ f, small (FrameBinary, f)) frames →
  Z.of_nat (length (br_buffers br) + length frames) = br_attachments br →
  total_size (br_buffers br ++ frames) <= maxBinaryBufferSize →
  receive s (map (pair FrameBinary) frames) =
    (set_binaryBuf None s,
     match reconstruct {| br_attachments := br_attachments br; br_buffers := br_buffers br ++ frames; br_packet := br_packet br |} with
     | Ok pkt => dispatchPacket (set_binaryBuf None s) pkt
     | Err _ => []
     end, false).
Proof.
  revert s br. induction frames as [|f frames IH]; intros s br Hc Hb Hne Hnil Hsm Hn Ht; [done|].
  apply Forall_cons in Hnil as [Hf Hnil]. apply Forall_cons in Hsm as [Hs Hsm].
  cbn [map receive]. rewrite (read_buffer s ws br f) by done. unfold addBuffer.
  rewrite exceeds_small.
  2: { revert Ht. unfold total_size. rewrite !concat_app. cbn. lens. }
  destruct frames as [|g frames].
  - rewrite (proj2 (Z.leb_le _ _)) by (revert Hn; lens). cbn [receive].
    cbn [map receive]. destruct (reconstruct _); [by rewrite app_nil_r|done].
  - rewrite (proj2 (Z.leb_gt _ _)) by (revert Hn; lens). cbv iota.
    rewrite (IH (set_binaryBuf _ s) {| br_attachments := br_attachments br; br_buffers := br_buffers br ++ [f]; br_packet := br_packet br |});
      cbn [c_conn c_binaryBuf set_binaryBuf br_attachments br_buffers br_packet]; try done.
    + cbn [app]. rewrite <- app_assoc. done.
    + revert Hn. lens.
    + by rewrite <- app_assoc.
Qed.

(** ** What an emit writes *)

Definition event_packet (type : byte) (nsp : bytes) (n : nat) (d : bytes) : sioPacket :=
  {| Type_ := type; Namespace := nsp; ID := None; Attachments := Z.of_nat n; Data := Some d |}.

Lemma write_ok s oks t p eff : writeEIOPacket s oks t p = (eff, Ok tt) → messages eff = [eio_message t p].
Proof.
  unfold writeEIOPacket. destruct (c_conn s); [|done]. destruct (eio_message t p). by destruct oks; intros [= <-].
Qed.

Lemma messages_app e1 e2 : messages (e1 ++ e2) = messages e1 ++ messages e2.
Proof. apply omap_app. Qed.

Lemma write_buffers_ok s oks bufs eff : write_buffers s oks bufs = (eff, Ok tt) →
  messages eff = map (pair FrameBinary) bufs.
Proof.
  revert oks eff. induction bufs as [|b bufs IH]; intros oks eff; cbn [write_buffers map]; [by intros [= <-]|].
  destruct oks as [|o oks].
  - destruct (writeEIOPacket s false eioBinary b) as [e1 [[]|]] eqn:E1; [|done].
    destruct (write_buffers s [] bufs) as [e2 r] eqn:E2. intros [= <- ->].
    by rewrite messages_app, (write_ok _ _ _ _ _ E1), (IH _ _ E2).
  - destruct (writeEIOPacket s o eioBinary b) as [e1 [[]|]] eqn:E1; [|done].
    destruct (write_buffers s oks bufs) as [e2 r] eqn:E2. intros [= <- ->].
    by rewrite messages_app, (write_ok _ _ _ _ _ E1), (IH _ _ E2).
Qed.

Definition payload (event : bytes) (args : list any) : any := ASlice (AString event :: args).

(** Arguments without an acknowledgement callback. *)
Definition no_callback (args : list any) : Prop := ∀ fn, last args ≠ Some (AFunc fn).

Lemma emit_messages s oks nsp event args s' eff : no_callback args → emitNS s oks nsp event args = (s', eff, Ok tt) →
  ∃ d, if hasBinary (payload event args)
       then marshal (deconstructBinary (payload event args)).1 = Some d ∧
            messages eff = eio_message eioMessage (encodeSIOPacket (event_packet sioBinaryEvent nsp
                             (length (deconstructBinary (payload event args)).2) d))
                           :: map (pair FrameBinary) (deconstructBinary (payload event args)).2
       else marshal (payload event args) = Some d ∧
            messages eff = [eio_message eioMessage (encodeSIOPacket (event_packet sioEvent nsp 0 d))].
Proof.
  intros Hn. unfold emitNS, payload. destruct (assertOpen s) as [[]|]; [|done].
  assert (extractAckCallback args = (args, None)) as ->.
  { unfold extractAckCallback. destruct (last args) as [[]|] eqn:E; try done. by destruct (Hn callback). }
  destruct (hasBinary _) eqn:Eb.
  - unfold emitBinaryNS. destruct (deconstructBinary _) as [dp bufs]. cbn [fst snd].
    destruct (marshal dp) as [d|] eqn:Ed; [|done]. intros H. exists d. split; [done|]. revert H.
    match goal with |- context [encodeSIOPacket ?p] => change p with (event_packet sioBinaryEvent nsp (length bufs) d) end.
    destruct oks as [|o oks].
    + destruct (writeEIOPacket s false eioMessage _) as [e1 [[]|]] eqn:E1; [|done].
      destruct (write_buffers s [] bufs) as [e2 r] eqn:E2. intros [= <- <- ->].
      by rewrite messages_app, (write_ok _ _ _ _ _ E1), (write_buffers_ok _ _ _ _ E2).
    + destruct (writeEIOPacket s o eioMessage _) as [e1 [[]|]] eqn:E1; [|done].
      destruct (write_buffers s oks bufs) as [e2 r] eqn:E2. intros [= <- <- ->].
      by rewrite messages_app, (write_ok _ _ _ _ _ E1), (write_buffers_ok _ _ _ _ E2).
  - destruct (marshal _) as [d|] eqn:Ed; [|done]. intros H. exists d. split; [done|]. revert H.
    destruct (writeEIOPacket s _ eioMessage _) as [e1 r] eqn:E1. intros [= <- <- ->].
    by apply write_ok in E1.
Qed.

(** ** One emit *)

Lemma root_not_empty nsp : bytes_eqb (root nsp) [] = false.
Proof. by destruct nsp. Qed.

Lemma dispatch_array r pkt nsp d event name rest : Namespace pkt = root nsp → Data pkt = Some d →
  unmarshal_array d = Some (name :: rest) → unmarshal_string name = Some event →
  dispatchPacket r pkt = callbacks r (root nsp) event name rest.
Proof.
  intros Hn Hd Ha Hs. unfold dispatchPacket, callbacks. rewrite Hd. change (default [] (Some d)) with d. rewrite Ha, Hs, Hn.
  by rewrite Coalesce_string_spec, root_not_empty.
Qed.

Lemma event_packet_ok type nsp n d : type = sioEvent ∧ n = 0%nat ∨ type = sioBinaryEvent ∧ (n <= 64)%nat →
  ns_ok nsp = true → head d = Some "["%byte → packet_ok (event_packet type nsp n d) = true.
Proof.
  intros Ht Hn Hd. unfold packet_ok, event_packet. cbn [Type_ Namespace ID Attachments Data].
  destruct d as [|c d]; [done|]. injection Hd as ->. rewrite Hn.
  destruct Ht as [[-> ->]|[-> Hle]]; [done|]. change (is_binary_type sioBinaryEvent) with true. cbv iota.
  by rewrite (proj2 (Z.leb_le _ _)), (proj2 (Z.leb_le _ _)) by (unfold maxBinaryAttachments; lia).
Qed.

Lemma canonical_event type nsp n d :
  Namespace (canonical (event_packet type nsp n d)) = root nsp ∧ Data (canonical (event_packet type nsp n d)) = Some d ∧
  Attachments (canonical (event_packet type nsp n d)) = Z.of_nat n ∧ Type_ (canonical (event_packet type nsp n d)) = type.
Proof. split_and!; [by destruct nsp|done..]. Qed.

Lemma encode_not_empty p : encodeSIOPacket p ≠ [].
Proof. done. Qed.

Lemma reconstruct_args_plain ds raws bufs : Forall2 (λ d raw, unmarshal_any raw = Some (json_ints d)) ds raws →
  reconstruct_args raws bufs = Some (map (λ x, reconstructBinary x bufs) (map json_ints ds)).
Proof.
  induction 1 as [|d raw ds raws Hd _ IH]; [done|]. cbn [reconstruct_args map]. rewrite Hd. cbn. by rewrite IH.
Qed.

Lemma deconstruct_slice l : ∃ ds, deconstructBinary (ASlice l) = (ASlice ds, (deconstructBinary (ASlice l)).2).
Proof. unfold deconstructBinary. cbn. destruct (thread _ l []) as [r b]. by exists r. Qed.

(** What the other end can carry: a namespace, no callback, no map that looks
    like a placeholder, values JSON carries, attachments within the limits. *)
Record sendable (nsp event : bytes) (args : list any) : Prop := {
  sd_ns : ns_ok nsp = true;
  sd_callback : no_callback args;
  sd_placeholder : no_placeholder (payload event args) = true;
  sd_json : if hasBinary (payload event args)
    then plain (deconstructBinary (payload event args)).1 ∧ encodable (json_ints (payload event args))
    else encodable (payload event args);
  sd_buffers : (length (deconstructBinary (payload event args)).2 <= 64)%nat ∧
    Forall (λ f, f ≠ []) (deconstructBinary (payload event args)).2 ∧
    total_size (deconstructBinary (payload event args)).2 <= maxBinaryBufferSize
}.

(** The arguments as the handlers get them: the JSON texts, integers of a
    packet with attachments as floating-point numbers. *)
Definition received_args (event : bytes) (args : list any) : list any :=
  if hasBinary (payload event args) then map json_ints args else args.

Definition expected (r : Conn) (nsp event : bytes) (args : list any) (eff : list effect) : Prop :=
  ∃ name raws, marshal (AString event) = Some name ∧
    Forall2 (λ v raw, marshal v = Some raw) (received_args event args) raws ∧
    eff = callbacks r (root nsp) event name raws.

(** The receiver after a packet. *)
Definition after (r : Conn) (r' : Conn) : Prop := r' = r ∨ r' = set_binaryBuf None r.

Lemma receive_text r ws nsp event args d : c_conn r = Some ws → sendable nsp event args →
  hasBinary (payload event args) = false → marshal (payload event args) = Some d →
  small (eio_message eioMessage (encodeSIOPacket (event_packet sioEvent nsp 0 d))) →
  ∃ eff, receive r [eio_message eioMessage (encodeSIOPacket (event_packet sioEvent nsp 0 d))] = (r, eff, false) ∧
    expected r nsp event args eff.
Proof.
  intros Hc [Hns _ _ Hj _] Hb Hd Hs. rewrite Hb in Hj.
  destruct (encodable_slice _ Hj) as (d' & raws & Hd' & Hh & Ha & Hr). unfold payload in Hd. rewrite Hd in Hd'.
  injection Hd' as <-. pose proof Hr as Hr2. inversion Hr as [|? name ? rest Hname Hrest]; subst.
  cbn [receive]. rewrite (read_message r ws) by done. unfold handleSIOPacket.
  rewrite decode_encode_SIO by (apply event_packet_ok; auto). cbv zeta.
  destruct (canonical_event sioEvent nsp 0 d) as (E1 & E2 & _ & ->).
  change (sioEvent =b sioConnect) with false. change (sioEvent =b sioEvent) with true. cbv iota.
  eexists. split; [by rewrite app_nil_r|].
  exists name, rest. split_and!; [done| |].
  - unfold received_args. by rewrite Hb.
  - eapply dispatch_array; [done..|]. eapply encodable_string; [exact Hj|left|done].
Qed.

(** The header of a packet with attachments replaces whatever was pending. *)
Lemma read_header r ws nsp n d : c_conn r = Some ws → (n <= 64)%nat → ns_ok nsp = true → head d = Some "["%byte →
  let pkt := event_packet sioBinaryEvent nsp n d in
  small (eio_message eioMessage (encodeSIOPacket pkt)) →
  readLoop_once r (Ok (eio_message eioMessage (encodeSIOPacket pkt))) =
    (set_binaryBuf (Some {| br_attachments := Z.of_nat n; br_buffers := []; br_packet := canonical pkt |}) r, [], false).
Proof.
  intros Hc Hn Hns Hd pkt Hs. rewrite (read_message r ws) by done. unfold handleSIOPacket, pkt.
  rewrite decode_encode_SIO by (apply event_packet_ok; auto). cbv zeta.
  destruct (canonical_event sioBinaryEvent nsp n d) as (_ & _ & E3 & ->).
  change (sioBinaryEvent =b sioConnect) with false. change (sioBinaryEvent =b sioEvent) with false.
  change (sioBinaryEvent =b sioAck) with false. change (sioBinaryEvent =b sioBinaryEvent) with true. cbv iota. cbn [orb].
  rewrite E3. unfold newBinaryReconstructor.
  by rewrite (proj2 (Z.ltb_ge _ _)) by (unfold maxBinaryAttachments; lia).
Qed.

(** An attachment that belongs to no packet is dropped. *)
Lemma read_stray s ws (buf : bytes) : c_conn s = Some ws → c_binaryBuf s = None → buf ≠ [] → small (FrameBinary, buf) →
  readLoop_once s (Ok (FrameBinary, buf)) = (s, [], false).
Proof.
  intros Hc Hb Hp Hs. unfold readLoop_once. rewrite Hc.
  change (FrameBinary, buf) with (eio_message eioBinary buf) in *. rewrite read_write_EIO by done.
  unfold dispatchEIOPacket. change (eioBinary =b eioClose) with false. change (eioBinary =b eioPong) with false.
  change (eioBinary =b eioMessage) with false. change (eioBinary =b eioBinary) with true. cbv iota. by rewrite Hb.
Qed.

Lemma receive_binary r ws nsp event args d : c_conn r = Some ws → sendable nsp event args →
  hasBinary (payload event args) = true → marshal (deconstructBinary (payload event args)).1 = Some d →
  let bufs := (deconstructBinary (payload event args)).2 in
  let msgs := eio_message eioMessage (encodeSIOPacket (event_packet sioBinaryEvent nsp (length bufs) d)) :: map (pair FrameBinary) bufs in
  bufs ≠ [] → Forall small msgs →
  ∃ eff, receive r msgs = (set_binaryBuf None r, eff, false) ∧ expected r nsp event args eff.
Proof.
  intros Hc [Hns _ Hp Hj (Hlen & Hnil & Htot)] Hb Hd bufs msgs Hne Hsm. rewrite Hb in Hj. destruct Hj as [Hpl Henc].
  pose proof (reconstruct_deconstruct _ Hp) as Hrec. unfold payload in *.
  destruct (deconstruct_slice (AString event :: args)) as [ds Hds]. fold bufs in Hds. rewrite Hds in *. cbn [fst] in *.
  destruct Hrec as [_ Hrec]. subst bufs. cbn [snd] in *. set (bufs := (deconstructBinary (ASlice (AString event :: args))).2) in *.
  destruct (encodable_slice _ (plain_encodable _ Hpl)) as (d1 & raws1 & Hd1 & Hh1 & Ha1 & Hr1).
  rewrite Hd in Hd1. injection Hd1 as <-.
  destruct (encodable_slice _ Henc) as (d2 & raws2 & Hd2 & Hh2 & Ha2 & Hr2).
  pose proof Hr2 as Hr2'. cbn [map json_ints] in Hr2'. inversion Hr2' as [|? name ? rest Hname Hrest]; subst.
  apply Forall_cons in Hsm as [Hs1 Hsm]. apply (proj1 (List.Forall_map (pair FrameBinary) small bufs)) in Hsm.
  destruct (canonical_event sioBinaryEvent nsp (length bufs) d) as (E1 & E2 & _ & _).
  subst msgs. cbn [receive]. rewrite (read_header r ws) by done.
  rewrite (receive_buffers _ ws {| br_attachments := Z.of_nat (length bufs); br_buffers := []; br_packet := canonical (event_packet sioBinaryEvent nsp (length bufs) d) |});
    try done.
  eexists. split; [done|]. exists name, rest. split_and!; [done| |].
  - unfold received_args, payload. by rewrite Hb.
  - cbn [app br_attachments br_buffers br_packet]. unfold reconstruct. cbn [br_attachments br_buffers br_packet].
    rewrite Z.eqb_refl. cbn [negb]. rewrite E2. change (default [] (Some d)) with d. rewrite Ha1.
    rewrite (reconstruct_args_plain ds).
    + cbn [reconstructBinary json_ints] in Hrec. rewrite Hrec.
      erewrite dispatch_array; [done|..]; cbn [Namespace Data]; [exact E1|exact Hd2|exact Ha2|].
      eapply encodable_string; [exact Henc|left|done].
    + clear -Hr1 Hpl WJ. assert (∀ v raw, v ∈ ds → marshal v = Some raw → unmarshal_any raw = Some (json_ints v)) as H
        by (intros; by eapply plain_elements).
      clear Hpl. induction Hr1 as [|v raw ds raws Hv _ IH]; constructor; [apply H; [left|done]|].
      apply IH. intros; apply H; [by right|done].
Qed.

(** An event emitted by one client is delivered by the other: its
    handler, or the catch-all one, gets the JSON texts of the arguments with the
    attachments in their places, whatever attachments were pending before. *)
Theorem emit_received s oks nsp event args s' eff r ws :
  emitNS s oks nsp event args = (s', eff, Ok tt) → c_conn r = Some ws → sendable nsp event args →
  Forall small (messages eff) →
  ∃ r' eff', receive r (messages eff) = (r', eff', false) ∧ after r r' ∧ expected r nsp event args eff'.
Proof.
  intros He Hc Hsd Hsm. pose proof (proj2 (hasBinary_attachments (payload event args))) as Hne. destruct (emit_messages _ _ _ _ _ _ _ (sd_callback _ _ _ Hsd) He) as [d Hd].
  destruct (hasBinary (payload event args)) eqn:Eb; destruct Hd as [Hd Hm]; rewrite Hm in *.
  - destruct (receive_binary r ws nsp event args d Hc Hsd Eb Hd) as (e & -> & Hx); [by symmetry in Hne; bools|done|].
    exists (set_binaryBuf None r), e. split_and!; [done|by right|done].
  - apply Forall_cons in Hsm as [Hs _].
    destruct (receive_text r ws nsp event args d Hc Hsd Eb Hd Hs) as (e & -> & Hx).
    exists r, e. split_and!; [done|by left|done].
Qed.

(** ** Emits one after the other *)

Definition event : Type := bytes * bytes * list any.

Inductive emitted : Conn → list event → Conn → list (ws_frame * bytes) → Prop :=
| emitted_none s : emitted s [] s []
| emitted_event s oks nsp ev args s1 eff evs s2 ms :
    emitNS s oks nsp ev args = (s1, eff, Ok tt) → emitted s1 evs s2 ms →
    emitted s ((nsp, ev, args) :: evs) s2 (messages eff ++ ms).

Lemma callbacks_after r r' nsp ev name rest : after r r' → callbacks r' nsp ev name rest = callbacks r nsp ev name rest.
Proof. by intros [-> | ->]. Qed.

Lemma expected_after r r' nsp ev args eff : after r r' → expected r' nsp ev args eff → expected r nsp ev args eff.
Proof.
  intros Ha (name & raws & H1 & H2 & ->). exists name, raws. split_and!; [done..|]. by apply callbacks_after.
Qed.

Lemma after_trans r r1 r2 : after r r1 → after r1 r2 → after r r2.
Proof. intros [-> | ->] [-> | ->]; [by left|by right..]. Qed.


(** ** Two emits at the same time

    The write lock is held for one message, so the messages of two concurrent
    emits reach the connection in any interleaving. *)
Inductive interleaving {A} : list A → list A → list A → Prop :=
| interleaving_nil : interleaving [] [] []
| interleaving_left x l1 l2 l : interleaving l1 l2 l → interleaving (x :: l1) l2 (x :: l)
| interleaving_right x l1 l2 l : interleaving l1 l2 l → interleaving l1 (x :: l2) (x :: l).

Lemma no_callback_bytes b : no_callback [ABytes b].
Proof. done. Qed.

(** Two events with one attachment each, emitted concurrently: an
    interleaving is possible from which the other end never delivers the first
    event and delivers the second with the attachment of the first. *)
Theorem concurrent_emits_mixed s1 oks1 nsp1 ev1 b1 t1 eff1 s2 oks2 nsp2 ev2 b2 t2 eff2 r ws :
  emitNS s1 oks1 nsp1 ev1 [ABytes b1] = (t1, eff1, Ok tt) → emitNS s2 oks2 nsp2 ev2 [ABytes b2] = (t2, eff2, Ok tt) →
  sendable nsp1 ev1 [ABytes b1] → sendable nsp2 ev2 [ABytes b2] → sendable nsp2 ev2 [ABytes b1] →
  Forall small (messages eff1) → Forall small (messages eff2) → c_conn r = Some ws →
  ∃ msgs r' eff, interleaving (messages eff1) (messages eff2) msgs ∧ receive r msgs = (r', eff, false) ∧
    expected r nsp2 ev2 [ABytes b1] eff.
Proof.
  intros H1 H2 Hs1 Hs2 Hs3 Hm1 Hm2 Hc.
  destruct (emit_messages _ _ _ _ _ _ _ (no_callback_bytes b1) H1) as [d1 Hd1].
  destruct (emit_messages _ _ _ _ _ _ _ (no_callback_bytes b2) H2) as [d2 Hd2].
  assert (∀ ev b, hasBinary (payload ev [ABytes b]) = true) as Hb by done.
  rewrite Hb in Hd1, Hd2. destruct Hd1 as [Hd1 E1], Hd2 as [Hd2 E2].
  assert (∀ ev b, deconstructBinary (payload ev [ABytes b]) = (ASlice [AString ev; placeholder 0], [b])) as Hdec by done.
  rewrite Hdec in Hd1, Hd2, E1, E2. cbn [fst snd length map] in *. rewrite E1 in *. rewrite E2 in *.
  apply Forall_cons in Hm1 as [Sh1 [Sb1 _]%Forall_cons]. apply Forall_cons in Hm2 as [Sh2 [Sb2 _]%Forall_cons].
  set (h1 := eio_message eioMessage (encodeSIOPacket (event_packet sioBinaryEvent nsp1 1 d1))) in *.
  set (h2 := eio_message eioMessage (encodeSIOPacket (event_packet sioBinaryEvent nsp2 1 d2))) in *.
  assert (head d1 = Some "["%byte) as Hh1.
  { pose proof (sd_json _ _ _ Hs1) as Hj. rewrite Hb, Hdec in Hj. cbn [fst] in Hj.
    destruct (encodable_slice _ (plain_encodable _ (proj1 Hj))) as (d & ? & Hd & Hh & _). congruence. }
  set (r1 := set_binaryBuf (Some {| br_attachments := 1; br_buffers := []; br_packet := canonical (event_packet sioBinaryEvent nsp1 1 d1) |}) r).
  destruct (receive_binary r1 ws nsp2 ev2 [ABytes b1] d2) as (eff & Hrc & Hx); try done; [by rewrite Hdec; repeat constructor|].
  rewrite Hdec in Hrc. cbn [fst snd length map] in Hrc. fold h2 in Hrc.
  exists [h1; h2; (FrameBinary, b1); (FrameBinary, b2)], (set_binaryBuf None r1), eff. split_and!; [by repeat constructor| |done].
  change [h1; h2; (FrameBinary, b1); (FrameBinary, b2)] with ([h1] ++ [h2; (FrameBinary, b1)] ++ [(FrameBinary, b2)]).
  rewrite (receive_app r [h1] _ r1 []).
  2: { cbn [receive]. unfold h1. rewrite (read_header r ws); try done; [lia|apply Hs1]. }
  rewrite (receive_app _ _ _ _ _ Hrc). cbn [receive]. pose proof (sd_buffers _ _ _ Hs2) as (_ & Hb2 & _).
  rewrite Hdec in Hb2. apply Forall_cons in Hb2 as [Hb2 _]. rewrite (read_stray _ ws) by done. cbn. by rewrite app_nil_r.
Qed.
End wire.

(** ** encoding/json as an instance

    The values of events over the reader and writer of [GoJson]: byte slices in
    base64, integers and whole floating-point numbers.  Maps are taken in the
    order of their keys, as [Marshal] writes them; what the instance has no text
    for is an error. *)

Module EventJSON.

Fixpoint before (s t : bytes) : bool :=
  match s, t with
  | _, [] => false
  | [], _ => true
  | c :: s, d :: t => (bz c <? bz d) || ((bz c =? bz d) && before s t)
  end.

Fixpoint sorted {A} (m : list (bytes * A)) : bool :=
  match m with
  | x :: (y :: _) as m' => before x.1 y.1 && sorted m'
  | _ => true
  end.

Fixpoint to_json (v : any) : option json :=
  match v with
  | ANil => Some JNull
  | ABool b => Some (JBool b)
  | AInt n => Some (JNum (Itoa n))
  | AFloat m e => if e =? 0 then Some (JNum (Itoa m)) else None
  | AString s => Some (JStr s)
  | ABytes b => Some (JStr (EncodeToString StdEncoding b))
  | ASlice l => JArr <$> (fix go l := match l with [] => Some [] | x :: l => j ← to_json x; js ← go l; Some (j :: js) end) l
  | AMap m =>
      if sorted m then
        JObj <$> (fix go m := match m with [] => Some [] | kv :: m => j ← to_json kv.2; js ← go m; Some ((kv.1, j) :: js) end) m
      else None
  | ANumber _ | ARawMap _ | AFunc _ => None
  end.

Fixpoint from_json (v : json) : any :=
  match v with
  | JNull => ANil
  | JBool b => ABool b
  | JNum n => AFloat (ParseInt n).1 0
  | JStr s => AString s
  | JArr l => ASlice (map from_json l)
  | JObj m => AMap (map (λ kv, (kv.1, from_json kv.2)) m)
  end.

#[export] Instance event_json : JSON := {|
  unmarshal_any raw := from_json <$> parse_json raw;
  unmarshal_array raw := match parse_json raw with Some (JArr l) => Some (map render l) | Some JNull => Some [] | _ => None end;
  unmarshal_string raw := match parse_json raw with Some (JStr s) => Some s | Some JNull => Some [] | _ => None end;
  marshal v := render <$> to_json v
|}.

(** Values that come back as themselves. *)
Fixpoint faithful (v : any) : bool :=
  match v with
  | ANil | ABool _ | AString _ => true
  | AInt n => (- 2 ^ 53 <=? n) && (n <=? 2 ^ 53)
  | ASlice l => forallb faithful l
  | AMap m => forallb (λ kv, faithful kv.2) m
  | _ => false
  end.

Definition elements (l : list any) : option (list json) :=
  (fix go l := match l with [] => Some [] | x :: l => j ← to_json x; js ← go l; Some (j :: js) end) l.

Lemma elements_spec l js : elements l = Some js → Forall2 (λ v j, to_json v = Some j) l js.
Proof.
  revert js. induction l as [|x l IH]; intros js; cbn; [by intros [= <-]|].
  destruct (to_json x) as [j|] eqn:E; [|done]. cbn. fold (elements l). destruct (elements l) as [js'|]; [|done].
  intros [= <-]. constructor; auto.
Qed.

Lemma from_to_json v j : faithful v = true → to_json v = Some j → from_json j = json_ints v.
Proof.
  revert j. induction v as [| | | | | | |l IH|m IH| |] using any_ind'; intros j Hf Hj; try done; cbn in *;
    try (by injection Hj as <-).
  - injection Hj as <-. bools. cbn [from_json]. by rewrite ParseInt_Itoa by lia.
  - fold (elements l) in Hj. destruct (elements l) as [js|] eqn:E; [|done]. injection Hj as <-. cbn. f_equal.
    apply elements_spec in E. induction E as [|v j l js Hv _ IHE]; [done|]. apply Forall_cons in IH as [Hx IH].
    cbn in *. bools. rewrite Hx by done. by rewrite IHE.
  - destruct (sorted m); [|done]. revert Hj.
    match goal with |- fmap JObj (?f m) = _ → _ => set (go := f) end. destruct (go m) as [js|] eqn:E; [|done].
    intros [= <-]. cbn. f_equal. clear -IH Hf E. revert js E. induction m as [|[k v] m IHm]; intros js E; cbn in E.
    + by injection E as <-.
    + apply Forall_cons in IH as [Hx IH]. cbn in Hf, Hx. bools. destruct (to_json v) as [j|] eqn:Ev; [|done]. cbn in E.
      fold go in E. destruct (go m) as [js'|]; [|done]. injection E as <-. cbn. rewrite (Hx j) by done.
      f_equal. by apply IHm.
Qed.

Lemma wf_deeper v : ∀ d d', d <= d' → wf_json d v → wf_json d' v.
Proof.
  induction v as [|b|n|s|l IH|m IH] using json_induction; intros d d' Hd; cbn; try done; intros [H0 Hl]; (split; [lia|]).
  - induction IH as [|x l Hx _ IHl]; [done|]. destruct Hl as [Hw Hl]. split; [by apply (Hx (d - 1)); [lia|]|by apply IHl].
  - induction IH as [|kv l Hx _ IHl]; [done|]. destruct Hl as (Hk & Hw & Hl).
    split_and!; [done|by apply (Hx (d - 1)); [lia|]|by apply IHl].
Qed.

#[export] Instance event_json_laws : JSONLaws.
Proof.
  intros raw v. cbn. destruct (parse_json raw) as [j|]; [|done]. intros [= <-]. clear raw.
  induction j as [|b|n|s|l IH|m IH] using json_induction; try done; cbn; induction IH as [|x l Hx _ IHl]; [done| |done|]; cbn;
    by rewrite Hx, IHl.
Qed.

(** A value with a text that is read back. *)
Definition has_text (v : any) : Prop := ∃ j, to_json v = Some j ∧ wf_json 10000 j.

Lemma slice_text l : has_text (ASlice l) → ∃ js, elements l = Some js ∧ wf_json 10000 (JArr js) ∧ Forall (wf_json 9999) js.
Proof.
  intros (j & Hj & Hw). cbn in Hj. fold (elements l) in Hj. destruct (elements l) as [js|]; [|done]. injection Hj as <-.
  exists js. split_and!; [done..|]. destruct Hw as [_ Hw]. clear -Hw. induction js as [|j js IH]; constructor; cbn in Hw; [apply Hw|].
  by apply IH, Hw.
Qed.

Lemma element_text l v j : has_text (ASlice l) → v ∈ l → to_json v = Some j → wf_json 10000 j.
Proof.
  intros Hl Hv Hj. destruct (slice_text l Hl) as (js & He & _ & Hw). apply elements_spec in He.
  apply list_elem_of_lookup in Hv as [i Hi]. destruct (Forall2_lookup_l _ _ _ _ _ He Hi) as (j' & Hj' & Hx).
  rewrite Hj in Hx. injection Hx as <-. apply (wf_deeper j 9999); [lia|]. by eapply (Forall_lookup_1 _ _ _ _ Hw).
Qed.

#[export] Program Instance event_wire : WireJSON := {|
  encodable := has_text;
  plain v := has_text v ∧ faithful v = true
|}.
Next Obligation.
  intros l Hl. destruct (slice_text l Hl) as (js & He & Hw & _). exists (render (JArr js)), (map render js).
  cbn -[render_with parse_json]. fold (elements l). rewrite He. split_and!; [done..| |].
  - by rewrite (parse_json_render (JArr js)).
  - apply elements_spec in He. clear Hw Hl. induction He as [|v j l js Hv _ IH]; constructor; [by rewrite Hv|done].
Qed.
Next Obligation.
  intros l s raw Hl Hs Hm. assert (raw = render (JStr s)) as -> by (cbn in Hm; cbn; congruence). pose proof (element_text l _ _ Hl Hs eq_refl) as Hw. cbn in Hw. cbn -[render_with parse_json].
  by rewrite (parse_json_render (JStr s)).
Qed.
Next Obligation. by intros v []. Qed.
Next Obligation.
  intros l v raw [Hl Hf] Hv Hm. cbn -[render_with] in Hm. destruct (to_json v) as [j|] eqn:Ej; [|done]. injection Hm as <-. cbn -[render_with parse_json].
  rewrite parse_json_render by (by eapply element_text). cbn [fmap option_fmap option_map]. f_equal. apply from_to_json; [|done].
  cbn in Hf. rewrite forallb_forall in Hf. apply Hf. by apply list_elem_of_In.
Qed.
End EventJSON.

(** ** Two concrete clients *)

Module WireSample.
Import EventJSON.
#[local] Existing Instances SocketIOConn.Sample.foundation SocketIOConn.Sample.foundation_laws SocketIOConn.Sample.handshake_json.

Definition sender : Conn := SocketIOConn.Sample.conn0.
Definition receiver : Conn := On (On sender (str "chat") (Some 1%nat)) (str "file") (Some 2%nat).

(** Texts of concrete values. *)
Ltac text := eexists; split; [reflexivity|]; cbn [wf_with foldr fst snd];
  repeat (split || (apply (Itoa_number 0)) || lia || reflexivity).

Lemma chat_sendable : sendable [] (str "chat") [AString (str "hi")].
Proof. constructor; [reflexivity|done|reflexivity|text|split_and!; [cbn; lia|constructor|discriminate]]. Qed.

Lemma file_sendable nsp b : ns_ok nsp = true → b = str "xy" ∨ b = str "pq" → sendable nsp (str "file") [ABytes b].
Proof.
  intros Hn Hb. constructor; [done|done|reflexivity| |].
  - destruct Hb as [-> | ->]; (split; [split; [text|reflexivity]|text]).
  - destruct Hb as [-> | ->]; (split_and!; [cbn; lia|by repeat constructor|discriminate]).
Qed.

Definition outcome_of (oks : list bool) (e : event) : Conn * list effect :=
  (emitNS sender oks e.1.1 e.1.2 e.2).1.
Definition chat : event := ([], str "chat", [AString (str "hi")]).
Definition file (b : bytes) : event := ([], str "file", [ABytes b]).
Definition chat_messages := Eval vm_compute in messages (outcome_of [true] chat).2.
Definition file_messages := Eval vm_compute in messages (outcome_of [true; true] (file (str "xy"))).2.


Lemma concurrent_emits_mixed_witness : ∃ msgs r' eff, receive receiver msgs = (r', eff, false) ∧
  expected receiver [] (str "file") [ABytes (str "xy")] eff.
Proof.
  destruct (concurrent_emits_mixed sender [true; true] [] (str "file") (str "xy") sender (outcome_of [true; true] (file (str "xy"))).2
    sender [true; true] [] (str "file") (str "pq") sender (outcome_of [true; true] (file (str "pq"))).2 receiver 0)
    as (msgs & r' & eff & _ & Hr & Hx).
  - vm_compute. reflexivity.
  - vm_compute. reflexivity.
  - apply file_sendable; [reflexivity|by left].
  - apply file_sendable; [reflexivity|by right].
  - apply file_sendable; [reflexivity|by left].
  - repeat constructor; discriminate.
  - repeat constructor; discriminate.
  - reflexivity.
  - exists msgs, r', eff. by split.
Defined.

Example what_arrives : (receive receiver (chat_messages ++ file_messages)).1.2 =
  [GoCallback 1 [dquote :: str "hi" ++ [dquote]]; GoCallback 2 [dquote :: str "eHk=" ++ [dquote]]].
Proof. vm_compute. reflexivity. Qed.

(** The event named * reaches the catch-all handler twice, once without its
    name. *)
Example star_event_twice : callbacks (OnAny sender 5) (str "/") (str "*") (str "*") [str "1"] =
  [GoCallback 5 [str "1"]; GoCallback 5 [str "*"; str "1"]].
Proof. vm_compute. reflexivity. Qed.
End WireSample.
