(* ===== verification/WebTransportCapsule.v ===== *)
(** * WebTransport capsules and error codes
    (src/webtransport/capsule.go, errors.go, constants.go)

    The capsule codec over the QUIC variable-length integers of package
    varint, and the mapping of 32-bit application error codes into the
    HTTP/3 error space.  The encoders write into a caller-supplied slice
    [dst]; it is a list whose length is both its length and its capacity, and
    a slice expression out of range is [Panic]. *)

From S2P Require Import Prelude GoLib.

#[local] Open Scope Z_scope.

(** ** QUIC varints (RFC 9000 section 16): the interface of package varint *)

Class Varint := {
  vi_append : Z → bytes;           (* the bytes [Append] adds *)
  vi_parse : bytes → option (Z * nat);   (* value and encoded length *)
  vi_len : Z → nat
}.

Definition vi_max : Z := 2 ^ 62 - 1.

Class VarintLaws `{Varint} : Prop := {
  vi_parse_append : ∀ v rest, 0 <= v <= vi_max →
    vi_parse (vi_append v ++ rest) = Some (v, length (vi_append v));
  vi_len_append : ∀ v, 0 <= v <= vi_max → vi_len v = length (vi_append v);
  vi_prefix : ∀ v, 0 <= v <= vi_max → ∃ b s, vi_append v = b :: s ∧
    Z.of_nat (length (vi_append v)) = 2 ^ (Z.shiftr (bz b) 6);
  vi_parse_range : ∀ s v n, vi_parse s = Some (v, n) → 0 <= v <= vi_max
}.

(** The encoding of RFC 9000: the two high bits of the first byte give the
    length 1, 2, 4 or 8. *)
Module RFC9000.
Definition append (v : Z) : bytes :=
  if v <=? 63 then [zb v]
  else if v <=? 16383 then [zb (64 + v / 0x100); zb v]
  else if v <=? 1073741823 then [zb (128 + v / 0x1000000); zb (v / 0x10000); zb (v / 0x100); zb v]
  else [zb (192 + v / 0x100000000000000); zb (v / 0x1000000000000); zb (v / 0x10000000000); zb (v / 0x100000000);
        zb (v / 0x1000000); zb (v / 0x10000); zb (v / 0x100); zb v].

Definition be_value (s : bytes) : Z := foldl (λ n c, n * 256 + bz c) 0 s.

Definition parse (s : bytes) : option (Z * nat) :=
  match s with
  | [] => None
  | b :: _ =>
      let n := Z.to_nat (2 ^ (bz b / 64)) in
      if (length s <? n)%nat then None
      else Some (be_value (take n s) - (bz b / 64) * 64 * 256 ^ (Z.of_nat n - 1), n)
  end.

Definition varint : Varint :=
  {| vi_append := append; vi_parse := parse; vi_len v := length (append v) |}.

Ltac eval_pow :=
  match goal with |- context [256 ^ ?e] =>
    let x := eval vm_compute in (256 ^ e) in change (256 ^ e) with x end.

Lemma parse_append v rest : 0 <= v <= vi_max → parse (append v ++ rest) = Some (v, length (append v)).
Proof.
  unfold vi_max. intros Hv. unfold append.
  destruct (v <=? 63) eqn:E1; bools; [|destruct (v <=? 16383) eqn:E2; bools;
    [|destruct (v <=? 1073741823) eqn:E3; bools]]; simpl app; unfold parse.
  - rewrite bz_zb_small by lia. rewrite Z.div_small by lia. simpl.
    unfold be_value. simpl. rewrite bz_zb_small by lia. do 2 f_equal. lia.
  - assert (Hb : bz (zb (64 + v / 0x100)) = 64 + v / 0x100)
      by (apply bz_zb_small; Z.div_mod_to_equations; lia).
    rewrite Hb. replace ((64 + v / 0x100) / 64) with 1 by (Z.div_mod_to_equations; lia).
    simpl. unfold be_value. simpl foldl. rewrite Hb, bz_zb. do 2 f_equal. eval_pow.
    Z.div_mod_to_equations; lia.
  - assert (Hb : bz (zb (128 + v / 0x1000000)) = 128 + v / 0x1000000)
      by (apply bz_zb_small; Z.div_mod_to_equations; lia).
    rewrite Hb. replace ((128 + v / 0x1000000) / 64) with 2 by (Z.div_mod_to_equations; lia).
    simpl. unfold be_value. simpl foldl. rewrite Hb, !bz_zb. do 2 f_equal. eval_pow.
    Z.div_mod_to_equations; lia.
  - assert (Hb : bz (zb (192 + v / 0x100000000000000)) = 192 + v / 0x100000000000000)
      by (apply bz_zb_small; Z.div_mod_to_equations; lia).
    rewrite Hb. replace ((192 + v / 0x100000000000000) / 64) with 3 by (Z.div_mod_to_equations; lia).
    simpl. unfold be_value. simpl foldl. rewrite Hb, !bz_zb. do 2 f_equal. eval_pow.
    Z.div_mod_to_equations; lia.
Qed.

Lemma append_prefix v : 0 <= v <= vi_max → ∃ b s, append v = b :: s ∧
  Z.of_nat (length (append v)) = 2 ^ (Z.shiftr (bz b) 6).
Proof.
  unfold vi_max, append. intros Hv.
  repeat case_match; bools; eexists _, _; (split; [reflexivity|]);
    rewrite Z.shiftr_div_pow2 by lia; change (2 ^ 6) with 64; simpl length;
    match goal with |- _ = 2 ^ (bz (zb ?e) / 64) =>
      rewrite (bz_zb_small e) by (Z.div_mod_to_equations; lia) end.
  - by rewrite Z.div_small by lia.
  - by replace ((64 + v / 0x100) / 64) with 1 by (Z.div_mod_to_equations; lia).
  - by replace ((128 + v / 0x1000000) / 64) with 2 by (Z.div_mod_to_equations; lia).
  - by replace ((192 + v / 0x100000000000000) / 64) with 3 by (Z.div_mod_to_equations; lia).
Qed.

Lemma be_value_range s : 0 <= be_value s < 256 ^ Z.of_nat (length s).
Proof.
  unfold be_value. induction s as [|c s IH] using rev_ind; [simpl; lia|].
  rewrite foldl_app. simpl. pose proof (bz_range c). autorewrite with golen. simpl.
  rewrite Nat2Z.inj_add, Z.pow_add_r by lia. simpl Z.of_nat. lia.
Qed.

Lemma foldl_value n s :
  foldl (λ n c, n * 256 + bz c) n s = n * 256 ^ Z.of_nat (length s) + be_value s.
Proof.
  unfold be_value. revert n. induction s as [|c s IH] using rev_ind; intros n; [simpl; lia|].
  rewrite !foldl_app. simpl. rewrite IH. autorewrite with golen. simpl.
  rewrite Nat2Z.inj_add, Z.pow_add_r by lia. simpl Z.of_nat. lia.
Qed.

Lemma parse_range s v n : parse s = Some (v, n) → 0 <= v <= vi_max.
Proof.
  unfold parse, vi_max. destruct s as [|b s]; [done|].
  destruct (_ <? _)%nat eqn:E; bools; [done|]. intros [= <- <-].
  pose proof (bz_range b) as Hb. set (k := bz b / 64) in *.
  assert (Hk : 0 <= k <= 3) by (unfold k; Z.div_mod_to_equations; lia).
  assert (Hm : bz b = k * 64 + bz b mod 64) by (unfold k; Z.div_mod_to_equations; lia).
  pose proof (Z.mod_pos_bound (bz b) 64 ltac:(lia)) as Hr.
  destruct (Z.to_nat (2 ^ k)) as [|n] eqn:En.
  { exfalso. assert (0 < 2 ^ k) by (apply Z.pow_pos_nonneg; lia). lia. }
  simpl take. unfold be_value. simpl foldl. rewrite foldl_value.
  pose proof (be_value_range (take n s)) as Hv.
  assert (Hlen : length (take n s) = n) by (rewrite length_take; simpl in E; lia).
  rewrite Hlen in *. replace (Z.of_nat (S n) - 1) with (Z.of_nat n) by lia.
  assert (Hn : Z.of_nat n <= 7).
  { assert (2 ^ k <= 2 ^ 3) by (apply Z.pow_le_mono_r; lia). lia. }
  assert (256 ^ Z.of_nat n <= 256 ^ 7) by (apply Z.pow_le_mono_r; lia).
  change (256 ^ 7) with (2 ^ 56) in *.
  replace (0 * 256 + bz b) with (k * 64 + bz b mod 64) by lia. split; [nia|].
  assert (64 * 256 ^ Z.of_nat n <= 2 ^ 62) by (change (2 ^ 62) with (64 * 2 ^ 56); lia). nia.
Qed.

#[export] Instance varint_laws : @VarintLaws varint.
Proof.
  constructor.
  - exact parse_append.
  - done.
  - exact append_prefix.
  - exact parse_range.
Qed.
End RFC9000.

(** ** Constants *)

Definition CapsuleCloseWebTransportSession : Z := 0x2843.
Definition CapsuleDrainWebTransportSession : Z := 0x78ae.
Definition CapsuleWTMaxData : Z := 0x190b4d3d.
Definition CapsuleWTMaxStreamsBidi : Z := 0x190b4d3f.
Definition CapsuleWTMaxStreamsUni : Z := 0x190b4d40.
Definition CapsuleWTDataBlocked : Z := 0x190b4d41.
Definition CapsuleWTStreamsBlockedBidi : Z := 0x190b4d43.
Definition CapsuleWTStreamsBlockedUni : Z := 0x190b4d44.
Definition StreamTypeWebTransportUni : Z := 0x54.
Definition FrameTypeWebTransportBidi : Z := 0x41.
Definition WTApplicationErrorFirst : Z := 0x52e4a40fa8db.
Definition WTApplicationErrorLast : Z := 0x52e5ac983162.
Definition MaxStreamsLimit : Z := 2 ^ 60.

Inductive wt_error :=
| ErrSessionClosed
| ErrSessionDraining
| ErrInvalidCapsule
| ErrStreamClosed
| ErrFlowControl
| ErrTransportFailed
| SessionError (code : Z) (msg : bytes).

(** ** Error codes *)

(** The sum stays below 2^64, so the uint64 arithmetic does not wrap. *)
Definition WebTransportCodeToHTTPCode (n : Z) : Z := WTApplicationErrorFirst + n + n / 0x1e.

(** [None] is the pair (0, false). *)
Definition HTTPCodeToWebTransportCode (h : Z) : option Z :=
  if (h <? WTApplicationErrorFirst) || (WTApplicationErrorLast <? h) then None
  else if (h - 0x21) mod 0x1f =? 0 then None
  else
    let shifted := h - WTApplicationErrorFirst in
    let wtCode := shifted - shifted / 0x1f in
    if 0xffffffff <? wtCode then None else Some wtCode.

(** The error code mapping is a bijection between the 32-bit application
    codes and the unreserved HTTP/3 codes of the WebTransport range: every code
    maps into the range and back to itself, and every HTTP/3 code that is
    accepted is the image of the code it decodes to. *)
Theorem error_code_bijection (n h : Z) :
  (0 <= n < 2 ^ 32 →
     WTApplicationErrorFirst <= WebTransportCodeToHTTPCode n <= WTApplicationErrorLast ∧
     HTTPCodeToWebTransportCode (WebTransportCodeToHTTPCode n) = Some n) ∧
  (HTTPCodeToWebTransportCode h = Some n → 0 <= n < 2 ^ 32 ∧ WebTransportCodeToHTTPCode n = h).
Proof.
  unfold WebTransportCodeToHTTPCode, HTTPCodeToWebTransportCode,
    WTApplicationErrorFirst, WTApplicationErrorLast. split.
  - intros Hn. split; [Z.div_mod_to_equations; lia|].
    destruct (_ || _) eqn:E1.
    { apply orb_true_iff in E1 as [E|E]; bools; Z.div_mod_to_equations; lia. }
    destruct (_ mod _ =? 0) eqn:E2; bools; [Z.div_mod_to_equations; lia|].
    destruct (0xffffffff <? _) eqn:E3; bools; [Z.div_mod_to_equations; lia|].
    f_equal. Z.div_mod_to_equations; lia.
  - destruct (_ || _) eqn:E1; [done|]. bools.
    destruct (_ mod _ =? 0) eqn:E2; bools; [done|].
    destruct (0xffffffff <? _) eqn:E3; bools; [done|]. intros [= <-].
    split; Z.div_mod_to_equations; lia.
Qed.

(** ** Writing into a slice *)

(** [copy(dst[off:], data)] for [off <= len(dst)]: what fits is copied. *)
Definition write_at (dst : bytes) (off : nat) (data : bytes) : bytes :=
  take off dst ++ take (length dst - off) data ++ drop (off + length data) dst.

(** [append(dst[off:off], data...)]: in place when it fits, else a new array
    is allocated and [dst] is left alone. *)
Definition append_at (dst : bytes) (off : nat) (data : bytes) : outcome bytes :=
  if (length dst <? off)%nat then Panic
  else if (off + length data <=? length dst)%nat then Done (write_at dst off data)
  else Done dst.

Definition copy_at (dst : bytes) (off : nat) (data : bytes) : outcome bytes :=
  if (length dst <? off)%nat then Panic else Done (write_at dst off data).

(** [binary.BigEndian.PutUint32(dst[off:off+4], v)]. *)
Definition put32_at (dst : bytes) (off : nat) (v : Z) : outcome bytes :=
  if (length dst <? off + 4)%nat then Panic else Done (write_at dst off (be32 v)).

Lemma write_at_length dst off data :
  (off <= length dst)%nat → length (write_at dst off data) = length dst.
Proof. intros. unfold write_at. autorewrite with golen. lia. Qed.

Lemma write_at_fits dst off data :
  (off + length data <= length dst)%nat →
  write_at dst off data = take off dst ++ data ++ drop (off + length data) dst.
Proof. intros. unfold write_at. by rewrite (take_ge data) by lia. Qed.

(** After a write that fits, the prefix up to its end is the old prefix and the data. *)
Lemma take_write_at dst off data :
  (off + length data <= length dst)%nat →
  take (off + length data) (write_at dst off data) = take off dst ++ data.
Proof.
  intros. rewrite write_at_fits by done. rewrite app_assoc.
  rewrite take_app_le; [|autorewrite with golen; lia].
  apply take_ge. autorewrite with golen. lia.
Qed.

Section capsules.
Context {V : Varint}.

Definition EncodeVarint (v : Z) (b : bytes) : outcome (nat * bytes) :=
  b' ← append_at b 0 (vi_append v); Done (length (vi_append v), b').

Definition DecodeVarint (b : bytes) : result wt_error (Z * nat) :=
  match vi_parse b with Some vn => Ok vn | None => Err ErrInvalidCapsule end.

Definition EncodeCapsuleHeader (capsuleType payloadLen : Z) (b : bytes) : outcome (nat * bytes) :=
  let n1 := length (vi_append capsuleType) in
  b1 ← append_at b 0 (vi_append capsuleType);
  b2 ← append_at b1 n1 (vi_append payloadLen);
  Done ((n1 + length (vi_append payloadLen))%nat, b2).

Definition EncodeCapsule (capsuleType : Z) (payload dst : bytes) : outcome (nat * bytes) :=
  '(hdrLen, dst1) ← EncodeCapsuleHeader capsuleType (Z.of_nat (length payload)) dst;
  dst2 ← copy_at dst1 hdrLen payload;
  Done ((hdrLen + length payload)%nat, dst2).

(** The loop of [TruncateErrorMessage] on the first [n] bytes. *)
Fixpoint drop_invalid (n : nat) (msg : bytes) : bytes :=
  match n with
  | O => []
  | S n' => if Valid (take n msg) then take n msg else drop_invalid n' msg
  end.

Definition TruncateErrorMessage (msg : bytes) : bytes :=
  if (length msg <=? 1024)%nat then msg else drop_invalid 1024 msg.

Record CloseSessionPayload := { ApplicationErrorCode : Z; ErrorMessage : bytes }.

Definition EncodeCloseSessionPayload (payload : CloseSessionPayload) (dst : bytes)
  : outcome (nat * bytes) :=
  let msg := TruncateErrorMessage (ErrorMessage payload) in
  dst1 ← put32_at dst 0 (ApplicationErrorCode payload);
  dst2 ← copy_at dst1 4 msg;
  Done ((4 + length msg)%nat, dst2).

Definition EncodeCloseSessionCapsule (payload : CloseSessionPayload) (dst : bytes)
  : outcome (nat * bytes) :=
  let msg := TruncateErrorMessage (ErrorMessage payload) in
  let payloadLen := (4 + length msg)%nat in
  '(hdrLen, dst1) ← EncodeCapsuleHeader CapsuleCloseWebTransportSession (Z.of_nat payloadLen) dst;
  dst2 ← put32_at dst1 hdrLen (ApplicationErrorCode payload);
  dst3 ← copy_at dst2 (hdrLen + 4) msg;
  Done ((hdrLen + payloadLen)%nat, dst3).

Definition DecodeCloseSessionPayloadTo (payload : bytes) : result wt_error CloseSessionPayload :=
  match of_be32 payload with
  | None => Err ErrInvalidCapsule
  | Some code =>
      let msgBytes := drop 4 payload in
      if (1024 <? length msgBytes)%nat || negb (Valid msgBytes) then Err ErrInvalidCapsule
      else Ok {| ApplicationErrorCode := code; ErrorMessage := msgBytes |}
  end.

Definition DecodeCloseSessionPayload (payload : bytes) : result wt_error CloseSessionPayload :=
  DecodeCloseSessionPayloadTo payload.

Definition EncodeDrainSessionCapsule (dst : bytes) : outcome (nat * bytes) :=
  EncodeCapsuleHeader CapsuleDrainWebTransportSession 0 dst.

Definition EncodeMaxStreamsCapsule (capsuleType maxStreams : Z) (dst : bytes)
  : outcome (result wt_error (nat * bytes)) :=
  if MaxStreamsLimit <? maxStreams then Done (Err ErrFlowControl)
  else
    let valBytes := vi_append maxStreams in
    '(hdrLen, dst1) ← EncodeCapsuleHeader capsuleType (Z.of_nat (length valBytes)) dst;
    dst2 ← copy_at dst1 hdrLen valBytes;
    Done (Ok ((hdrLen + length valBytes)%nat, dst2)).

Definition DecodeMaxStreamsPayload (payload : bytes) : result wt_error Z :=
  '(v, _) ← DecodeVarint payload;
  if MaxStreamsLimit <? v then Err ErrFlowControl else Ok v.

Definition EncodeMaxDataCapsule (capsuleType maxData : Z) (dst : bytes) : outcome (nat * bytes) :=
  let valBytes := vi_append maxData in
  '(hdrLen, dst1) ← EncodeCapsuleHeader capsuleType (Z.of_nat (length valBytes)) dst;
  dst2 ← copy_at dst1 hdrLen valBytes;
  Done ((hdrLen + length valBytes)%nat, dst2).

Definition DecodeMaxDataPayload (payload : bytes) : result wt_error Z :=
  '(v, _) ← DecodeVarint payload; Ok v.
End capsules.

(** ** Slices: consecutive writes *)

Lemma drop_write_at dst off data k :
  (off + length data <= k)%nat → (off + length data <= length dst)%nat →
  drop k (write_at dst off data) = drop k dst.
Proof.
  intros Hk Hl. rewrite write_at_fits by done. rewrite app_assoc, drop_app_ge.
  2: { autorewrite with golen. lia. }
  rewrite drop_drop. f_equal. autorewrite with golen. lia.
Qed.

Lemma write_at_app dst off a b :
  (off + length a + length b <= length dst)%nat →
  write_at (write_at dst off a) (off + length a) b = write_at dst off (a ++ b).
Proof.
  intros Hl. rewrite (write_at_fits (write_at _ _ _)) by (rewrite write_at_length; lia).
  rewrite take_write_at, drop_write_at by lia.
  rewrite (write_at_fits dst off (a ++ b)) by (rewrite length_app; lia).
  rewrite <- !app_assoc. do 3 f_equal. rewrite length_app. f_equal. lia.
Qed.

Lemma write_at_nil dst : write_at dst 0 [] = dst.
Proof. unfold write_at. by rewrite take_nil. Qed.

Lemma append_at_fits dst off data :
  (off + length data <= length dst)%nat → append_at dst off data = Done (write_at dst off data).
Proof.
  intros. unfold append_at. destruct (_ <? _)%nat eqn:E; bools; [lia|].
  destruct (_ <=? _)%nat eqn:E2; bools; [done|lia].
Qed.

Lemma copy_at_ok dst off data :
  (off <= length dst)%nat → copy_at dst off data = Done (write_at dst off data).
Proof. intros. unfold copy_at. destruct (_ <? _)%nat eqn:E; bools; [lia|done]. Qed.

Lemma put32_at_ok dst off v :
  (off + 4 <= length dst)%nat → put32_at dst off v = Done (write_at dst off (be32 v)).
Proof. intros. unfold put32_at. destruct (_ <? _)%nat eqn:E; bools; [lia|done]. Qed.

Section capsule_theorems.
Context {V : Varint}.

Definition capsule_header (t len : Z) : bytes := vi_append t ++ vi_append len.

Lemma EncodeCapsuleHeader_fits t len dst :
  (length (capsule_header t len) <= length dst)%nat →
  EncodeCapsuleHeader t len dst =
    Done (length (capsule_header t len), write_at dst 0 (capsule_header t len)).
Proof.
  unfold capsule_header, EncodeCapsuleHeader. rewrite length_app. intros Hl.
  rewrite append_at_fits by lia. cbn [mbind outcome_bind].
  rewrite append_at_fits by (rewrite write_at_length; lia). cbn [mbind outcome_bind].
  do 2 f_equal. by apply (write_at_app dst 0).
Qed.

(** The capsule on the wire. *)
Definition close_capsule (p : CloseSessionPayload) : bytes :=
  let m := TruncateErrorMessage (ErrorMessage p) in
  capsule_header CapsuleCloseWebTransportSession (Z.of_nat (4 + length m))
  ++ be32 (ApplicationErrorCode p) ++ m.

(** The length of the capsule without its message. *)
Definition close_capsule_fixed (p : CloseSessionPayload) : nat :=
  length (close_capsule p) - length (TruncateErrorMessage (ErrorMessage p)).

(** What the encoder does to any buffer that holds at least the header and the
    code: it writes what fits of the message and returns the full length. *)
Lemma EncodeCloseSessionCapsule_run p dst :
  (close_capsule_fixed p <= length dst)%nat →
  ∃ dst', EncodeCloseSessionCapsule p dst = Done (length (close_capsule p), dst') ∧
    length dst' = length dst ∧
    ((length (close_capsule p) <= length dst)%nat → take (length (close_capsule p)) dst' = close_capsule p).
Proof.
  unfold close_capsule_fixed, close_capsule, EncodeCloseSessionCapsule. cbv zeta.
  set (m := TruncateErrorMessage (ErrorMessage p)).
  set (hdr := capsule_header _ _). autorewrite with golen. simpl (length (be32 _)). intros Hl.
  rewrite EncodeCapsuleHeader_fits by (fold hdr; lia). fold hdr. cbn [mbind outcome_bind].
  rewrite put32_at_ok by (rewrite write_at_length; lia). cbn [mbind outcome_bind].
  pose proof (write_at_app dst 0 hdr (be32 (ApplicationErrorCode p)) ltac:(simpl; lia)) as Hw.
  simpl Nat.add in Hw. rewrite Hw.
  rewrite copy_at_ok by (rewrite write_at_length; lia). cbn [mbind outcome_bind].
  eexists. split; [reflexivity|]. split; [rewrite !write_at_length; rewrite ?write_at_length; lia|].
  intros Hfit.
  pose proof (write_at_app dst 0 (hdr ++ be32 (ApplicationErrorCode p)) m) as Hw2.
  rewrite length_app in Hw2. simpl (length (be32 _)) in Hw2. simpl Nat.add in Hw2.
  rewrite Hw2 by (simpl; lia).
  pose proof (take_write_at dst 0 ((hdr ++ be32 (ApplicationErrorCode p)) ++ m)) as Ht.
  autorewrite with golen in Ht. simpl in Ht.
  replace (length hdr + (4 + length m))%nat with (length hdr + 4 + length m)%nat by lia.
  rewrite Ht by lia. by rewrite <- app_assoc.
Qed.

Lemma append_at_length dst off data dst' : append_at dst off data = Done dst' → length dst' = length dst.
Proof.
  unfold append_at. destruct (_ <? _)%nat eqn:E; [done|]. bools. destruct (_ <=? _)%nat; intros [= <-]; [by apply write_at_length|done].
Qed.

(** A header that could be written into a buffer it fits. *)
Lemma EncodeCapsuleHeader_length t len dst n dst' : EncodeCapsuleHeader t len dst = Done (n, dst') →
  n = length (capsule_header t len) ∧ length dst' = length dst.
Proof.
  unfold EncodeCapsuleHeader, capsule_header. destruct (append_at dst 0 _) as [b1|] eqn:E1; [|done]. cbn [mbind outcome_bind].
  destruct (append_at b1 _ _) as [b2|] eqn:E2; [|done]. cbn [mbind outcome_bind]. intros [= <- <-].
  apply append_at_length in E1, E2. rewrite length_app. split; [done|congruence].
Qed.

Lemma EncodeCloseSessionCapsule_length p dst n dst' : EncodeCloseSessionCapsule p dst = Done (n, dst') →
  n = length (close_capsule p) ∧ length dst' = length dst.
Proof.
  unfold EncodeCloseSessionCapsule, close_capsule, put32_at, copy_at. cbv zeta.
  set (m := TruncateErrorMessage (ErrorMessage p)). set (hl := (4 + length m)%nat).
  destruct (EncodeCapsuleHeader _ _ dst) as [[h d1]|] eqn:E1; [|done]. cbn [mbind outcome_bind].
  apply EncodeCapsuleHeader_length in E1 as [-> L1].
  destruct (_ <? _)%nat eqn:E2; [done|]. bools. cbn [mbind outcome_bind]. destruct (_ <? _)%nat eqn:E3; [done|]. bools. cbn [mbind outcome_bind].
  intros [= <- <-]. rewrite write_at_length in E3 by lia. rewrite (write_at_length (write_at _ _ _)) by (rewrite write_at_length; lia).
  rewrite write_at_length by lia. rewrite !length_app. unfold hl. split; [simpl; lia|done].
Qed.

(** ** Truncation of the message *)

Lemma drop_invalid_prefix n msg : ∃ k, drop_invalid n msg = take k msg ∧ (k <= n)%nat.
Proof.
  induction n as [|n IH]; simpl; [by exists 0%nat|].
  destruct (Valid (take (S n) msg)); [by exists (S n)|].
  destruct IH as (k & -> & Hk). exists k. split; [done|lia].
Qed.

Lemma drop_invalid_valid n msg : Valid (drop_invalid n msg) = true.
Proof.
  induction n as [|n IH]; [done|]. cbn [drop_invalid].
  by destruct (Valid (take (S n) msg)) eqn:E.
Qed.

Lemma drop_invalid_max n k msg :
  (k <= n)%nat → (n <= length msg)%nat → Valid (take k msg) = true →
  (k <= length (drop_invalid n msg))%nat.
Proof.
  intros Hk Hn HV. induction n as [|n IH]; [lia|]. cbn [drop_invalid].
  destruct (Valid (take (S n) msg)) eqn:E; [rewrite length_take; lia|].
  apply IH; [|lia]. destruct (decide (k = S n)) as [->|]; [congruence|lia].
Qed.

(** Cutting valid UTF-8 anywhere leaves a valid text after dropping at most three bytes. *)
Lemma Valid_cut s n :
  Valid s = true → (n <= length s)%nat → ∃ k, (k <= 3)%nat ∧ (k <= n)%nat ∧ Valid (take (n - k) s) = true.
Proof.
  remember (length s) as len eqn:El. revert s n El.
  induction len as [len IH] using lt_wf_ind. intros s n -> HV Hn.
  destruct (decide (n <= 3)%nat) as [H3|H3].
  { exists n. rewrite Nat.sub_diag. split_and!; auto. }
  destruct s as [|a s1]; [simpl in Hn; lia|]. cbn [Valid] in HV.
  (* the first rune takes r bytes; recurse on the rest *)
  assert (∃ r s', (1 <= r <= 4)%nat ∧ length (a :: s1) = (r + length s')%nat ∧ Valid s' = true ∧
    ∀ m, Valid (take (r + m) (a :: s1)) = Valid (take m s')) as (r & s' & Hr & Hls & HV' & Hstep).
  { destruct (bz a <? 128) eqn:E1.
    { exists 1%nat, s1. split_and!; [lia|lia|done|done|]. intros m. cbn. by rewrite E1. }
    destruct s1 as [|b s2]; [done|]. destruct (utf8_2 a b) eqn:E2.
    { exists 2%nat, s2. split_and!; [lia|lia|done|done|]. intros m. cbn. by rewrite E1, E2. }
    destruct s2 as [|c s3]; [done|]. destruct (utf8_3 a b c) eqn:E3.
    { exists 3%nat, s3. split_and!; [lia|lia|done|done|]. intros m. cbn. by rewrite E1, E2, E3. }
    destruct s3 as [|d s4]; [done|]. destruct (utf8_4 a b c d) eqn:E4; [|done].
    exists 4%nat, s4. split_and!; [lia|lia|done|done|]. intros m. cbn. by rewrite E1, E2, E3, E4. }
  destruct (IH (length s') ltac:(lia) s' (n - r)%nat eq_refl HV' ltac:(lia)) as (k & K1 & K2 & K3).
  exists k. split_and!; [done|lia|]. replace (n - k)%nat with (r + (n - r - k))%nat by lia.
  by rewrite Hstep.
Qed.

(** The truncated message is a prefix of at most 1024 bytes; it is valid
    UTF-8 whenever the message is (and always when it was cut), and a cut of a
    valid message loses at most three bytes to the rune boundary. *)
Theorem truncate_spec (msg : bytes) :
  let t := TruncateErrorMessage msg in
  HasPrefix msg t = true ∧ (length t <= 1024)%nat ∧
  (Valid msg = true ∨ (1024 < length msg)%nat → Valid t = true) ∧
  (Valid msg = true → (1024 < length msg)%nat → (1021 <= length t)%nat).
Proof.
  unfold TruncateErrorMessage. cbv zeta. destruct (length msg <=? 1024)%nat eqn:E; bools.
  - split_and!; try lia.
    + apply HasPrefix_spec. exists []. by rewrite app_nil_r.
    + intros [|]; [done|lia].
  - pose proof (drop_invalid_valid 1024 msg) as HV.
    destruct (drop_invalid_prefix 1024 msg) as (k & Hk & Hle).
    split_and!; try done.
    + rewrite Hk. apply HasPrefix_spec. exists (drop k msg). by rewrite take_drop.
    + rewrite Hk, length_take. lia.
    + intros Hmsg _. destruct (Valid_cut msg 1024 Hmsg ltac:(lia)) as (j & J1 & J2 & J3).
      pose proof (drop_invalid_max 1024 (1024 - j) msg ltac:(lia) ltac:(lia) J3). lia.
Qed.

(** ** Round trips *)

Lemma truncate_valid msg : Valid msg = true → Valid (TruncateErrorMessage msg) = true.
Proof.
  intros HV. unfold TruncateErrorMessage. case_match; [done|]. apply drop_invalid_valid.
Qed.

Lemma truncate_length msg : (length (TruncateErrorMessage msg) <= 1024)%nat.
Proof.
  unfold TruncateErrorMessage. destruct (length msg <=? 1024)%nat eqn:E; bools; [done|].
  destruct (drop_invalid_prefix 1024 msg) as (k & -> & Hle). rewrite length_take. lia.
Qed.

(** A CLOSE capsule written into a large enough buffer is the type, the
    length, the code and the (truncated) message, and its payload decodes to
    that code and message. *)
Theorem close_capsule_roundtrip `{!VarintLaws} (p : CloseSessionPayload) (dst : bytes)
  (Hcode : 0 <= ApplicationErrorCode p < 2 ^ 32) (Hmsg : Valid (ErrorMessage p) = true)
  (Hfit : (length (close_capsule p) <= length dst)%nat) :
  let m := TruncateErrorMessage (ErrorMessage p) in
  let payload := be32 (ApplicationErrorCode p) ++ m in
  (∃ dst', EncodeCloseSessionCapsule p dst = Done (length (close_capsule p), dst') ∧
           take (length (close_capsule p)) dst' = close_capsule p) ∧
  (∃ n1 n2, vi_parse (close_capsule p) = Some (CapsuleCloseWebTransportSession, n1) ∧
            vi_parse (drop n1 (close_capsule p)) = Some (Z.of_nat (length payload), n2) ∧
            drop n2 (drop n1 (close_capsule p)) = payload) ∧
  DecodeCloseSessionPayload payload =
    Ok {| ApplicationErrorCode := ApplicationErrorCode p; ErrorMessage := m |}.
Proof.
  cbv zeta. set (m := TruncateErrorMessage (ErrorMessage p)).
  pose proof (truncate_length (ErrorMessage p)) as Hlm. fold m in Hlm. split_and!.
  - destruct (EncodeCloseSessionCapsule_run p dst) as (dst' & H1 & _ & H2).
    { unfold close_capsule_fixed. lia. }
    exists dst'. auto.
  - unfold close_capsule. fold m. unfold capsule_header. rewrite <- !app_assoc.
    eexists _, _. rewrite vi_parse_append by (vm_compute; split; discriminate).
    split; [reflexivity|]. rewrite drop_app_exact.
    rewrite vi_parse_append by (unfold vi_max; lia). split; [|by rewrite drop_app_exact].
    by rewrite length_app.
  - unfold DecodeCloseSessionPayload, DecodeCloseSessionPayloadTo.
    rewrite of_be32_be32, Z.mod_small by lia.
    change (drop 4 (be32 (ApplicationErrorCode p) ++ m)) with m.
    destruct (1024 <? length m)%nat eqn:E; bools; [lia|]. simpl.
    pose proof (truncate_valid _ Hmsg) as Hvm. fold m in Hvm. by rewrite Hvm.
Qed.

Lemma Decode_append v : VarintLaws → 0 <= v <= vi_max →
  DecodeVarint (vi_append v) = Ok (v, length (vi_append v)).
Proof.
  intros HL Hv. unfold DecodeVarint.
  pose proof (vi_parse_append v [] Hv) as Hp. rewrite app_nil_r in Hp. by rewrite Hp.
Qed.

(** A stream limit within 2^60 round-trips through the WT_MAX_STREAMS
    capsule, a larger one is refused by the encoder and by the decoder. *)
Theorem max_streams_limit `{!VarintLaws} (t v : Z) (dst : bytes) (Hv : 0 <= v <= vi_max)
  (Hfit : (length (capsule_header t (Z.of_nat (length (vi_append v)))) + length (vi_append v)
             <= length dst)%nat) :
  if v <=? MaxStreamsLimit then
    (∃ dst' n, EncodeMaxStreamsCapsule t v dst = Done (Ok (n, dst')) ∧
       take n dst' = capsule_header t (Z.of_nat (length (vi_append v))) ++ vi_append v) ∧
    DecodeMaxStreamsPayload (vi_append v) = Ok v
  else
    EncodeMaxStreamsCapsule t v dst = Done (Err ErrFlowControl) ∧
    DecodeMaxStreamsPayload (vi_append v) = Err ErrFlowControl.
Proof.
  unfold EncodeMaxStreamsCapsule, DecodeMaxStreamsPayload.
  rewrite Decode_append by done. cbn [mbind result_bind].
  destruct (v <=? MaxStreamsLimit) eqn:E, (MaxStreamsLimit <? v) eqn:E2; bools; try lia;
    [|done].
  split; [|done]. set (hdr := capsule_header _ _) in *.
  rewrite EncodeCapsuleHeader_fits by (fold hdr; lia). fold hdr. cbn [mbind outcome_bind].
  rewrite copy_at_ok by (rewrite write_at_length; lia). cbn [mbind outcome_bind].
  eexists _, _. split; [reflexivity|].
  rewrite (write_at_app dst 0 hdr) by lia.
  pose proof (take_write_at dst 0 (hdr ++ vi_append v)) as Ht.
  rewrite length_app in Ht. apply Ht. lia.
Qed.
End capsule_theorems.

(** ** The theorems at concrete capsules *)

Module CapsuleSample.
#[local] Existing Instance RFC9000.varint.
#[local] Existing Instance RFC9000.varint_laws.

Definition bye : CloseSessionPayload :=
  {| ApplicationErrorCode := 77; ErrorMessage := str "bye" |}.

Lemma close_capsule_roundtrip_witness :
  close_capsule bye = [x68; x43; x07; x00; x00; x00; x4d; x62; x79; x65] ∧
  DecodeCloseSessionPayload (be32 77 ++ str "bye") = Ok bye.
Proof.
  split; [reflexivity|].
  apply (close_capsule_roundtrip bye (replicate 16 x00)); [vm_compute; split; congruence|reflexivity|].
  apply Nat.leb_le. reflexivity.
Defined.

Lemma max_streams_limit_witness :
  DecodeMaxStreamsPayload (vi_append 100) = Ok 100 ∧
  DecodeMaxStreamsPayload (vi_append (2 ^ 60 + 1)) = Err ErrFlowControl.
Proof.
  split.
  - apply (max_streams_limit CapsuleWTMaxStreamsBidi 100 (replicate 32 x00));
      [vm_compute; split; congruence|apply Nat.leb_le; reflexivity].
  - apply (max_streams_limit CapsuleWTMaxStreamsBidi (2 ^ 60 + 1) (replicate 32 x00));
      [vm_compute; split; congruence|apply Nat.leb_le; reflexivity].
Defined.
End CapsuleSample.
