(* ===== verification/WebTransportSession.v ===== *)
(** * WebTransport streams and sessions
    (src/webtransport/stream.go, session.go)

    Streams that put their header in front of the first write, the session
    with its queues and close handshake, the control loop that reads capsules
    from the CONNECT stream, and the goroutines that deliver incoming streams
    while the session is being closed. *)

From S2P Require Import Prelude GoLib WebTransportCapsule.

#[local] Open Scope Z_scope.

(** ** Streams *)

(** [st_raw] lists the buffers passed to the raw stream's [Write] and
    [st_cancels] the codes passed to its cancel functions, in order. *)
Record Stream := {
  st_sessionID : Z;
  st_streamID : Z;
  st_isClient : bool;
  st_headerWritten : bool;
  st_closed : bool;
  st_raw : list bytes;
  st_raw_closes : nat;
  st_cancels : list Z
}.

Definition newOutgoingStream (sessionID streamID : Z) : Stream :=
  {| st_sessionID := sessionID; st_streamID := streamID; st_isClient := true;
     st_headerWritten := false; st_closed := false; st_raw := []; st_raw_closes := 0;
     st_cancels := [] |}.

Definition newIncomingStream (sessionID streamID : Z) : Stream :=
  {| st_sessionID := sessionID; st_streamID := streamID; st_isClient := false;
     st_headerWritten := true; st_closed := false; st_raw := []; st_raw_closes := 0;
     st_cancels := [] |}.

Definition raw_write (s : Stream) (hw : bool) (data : bytes) : Stream :=
  {| st_sessionID := st_sessionID s; st_streamID := st_streamID s; st_isClient := st_isClient s;
     st_headerWritten := hw; st_closed := st_closed s; st_raw := st_raw s ++ [data];
     st_raw_closes := st_raw_closes s; st_cancels := st_cancels s |}.

Section streams.
Context {V : Varint}.

Definition bidi_header (s : Stream) : bytes :=
  vi_append FrameTypeWebTransportBidi ++ vi_append (st_sessionID s).
Definition uni_header (s : Stream) : bytes :=
  vi_append StreamTypeWebTransportUni ++ vi_append (st_sessionID s).

(** What the raw stream answered to a write: bytes taken and whether it failed. *)
Definition write_answer : Type := nat * option wt_error.

(** Header and payload in one buffer; the header bytes are not counted. *)
Definition header_write (s : Stream) (hdr p : bytes) (ans : write_answer)
  : Stream * (nat * option wt_error) :=
  let '(n, err) := ans in
  (raw_write s true (hdr ++ p), (if (length hdr <? n)%nat then n - length hdr else 0, err)%nat).

Definition Stream_Write (s : Stream) (p : bytes) (ans : write_answer)
  : Stream * (nat * option wt_error) :=
  if st_closed s then (s, (0%nat, Some ErrStreamClosed))
  else if st_isClient s && negb (st_headerWritten s) then
    header_write s (bidi_header s) p ans
  else (raw_write s (st_headerWritten s) p, ans).

Definition SendStream_Write (s : Stream) (p : bytes) (ans : write_answer)
  : Stream * (nat * option wt_error) :=
  if st_closed s then (s, (0%nat, Some ErrStreamClosed))
  else if negb (st_headerWritten s) then header_write s (uni_header s) p ans
  else (raw_write s (st_headerWritten s) p, ans).

Definition Stream_Close (s : Stream) : Stream :=
  if st_closed s then s
  else {| st_sessionID := st_sessionID s; st_streamID := st_streamID s;
          st_isClient := st_isClient s; st_headerWritten := st_headerWritten s;
          st_closed := true; st_raw := st_raw s; st_raw_closes := S (st_raw_closes s);
          st_cancels := st_cancels s |}.

(** [CancelRead] and [CancelWrite] pass the remapped code on. *)
Definition Stream_Cancel (s : Stream) (code : Z) : Stream :=
  {| st_sessionID := st_sessionID s; st_streamID := st_streamID s;
     st_isClient := st_isClient s; st_headerWritten := st_headerWritten s;
     st_closed := st_closed s; st_raw := st_raw s; st_raw_closes := st_raw_closes s;
     st_cancels := st_cancels s ++ [WebTransportCodeToHTTPCode code] |}.

(** A sequence of writes the raw stream takes in full. *)
Fixpoint write_all (write : Stream → bytes → write_answer → Stream * (nat * option wt_error))
  (hdr : bytes) (s : Stream) (ps : list bytes) : Stream * list nat :=
  match ps with
  | [] => (s, [])
  | p :: ps' =>
      let full := if st_headerWritten s then length p else (length hdr + length p)%nat in
      let '(s1, (n, _)) := write s p (full, None) in
      let '(s2, ns) := write_all write hdr s1 ps' in (s2, n :: ns)
  end.

(** [Read] is passed on to the raw stream unless the stream is closed. *)
Definition Stream_Read (s : Stream) (raw : result wt_error bytes) : result wt_error bytes :=
  if st_closed s then Err ErrStreamClosed else raw.

Record ReceiveStream := { rs_sessionID : Z; rs_streamID : Z; rs_closed : bool }.

Definition newReceiveStream (sessionID streamID : Z) : ReceiveStream :=
  {| rs_sessionID := sessionID; rs_streamID := streamID; rs_closed := false |}.

Definition ReceiveStream_Read (s : ReceiveStream) (raw : result wt_error bytes)
  : result wt_error bytes :=
  if rs_closed s then Err ErrStreamClosed else raw.

Definition ReceiveStream_Close (s : ReceiveStream) : ReceiveStream :=
  {| rs_sessionID := rs_sessionID s; rs_streamID := rs_streamID s; rs_closed := true |}.

(** ** Sessions *)

(** What the session did with its control stream. *)
Inductive control_event := ControlWrite (data : bytes) | ControlClose.

Record Session := {
  s_sessionID : Z;
  s_closed : bool;
  s_draining : bool;
  s_ctxDone : bool;                 (* the session context is cancelled *)
  s_closeErr : option (Z * bytes);  (* SessionError code and message *)
  s_bidi : list Stream;
  s_uni : list ReceiveStream;
  s_datagrams : list bytes;
  s_chans_closed : bool;            (* the three channels are closed *)
  s_control : bool;                 (* controlStream is not nil *)
  s_control_out : list control_event;
  s_sent : list bytes               (* datagrams handed to the transport *)
}.

Definition NewSession (id : Z) (control : bool) : Session :=
  {| s_sessionID := id; s_closed := false; s_draining := false; s_ctxDone := false;
     s_closeErr := None; s_bidi := []; s_uni := []; s_datagrams := [];
     s_chans_closed := false; s_control := control; s_control_out := []; s_sent := [] |}.

(** [OpenStream] and [OpenStreamSync]: the transport opened stream [id] or failed. *)
Definition OpenStream (s : Session) (opened : option Z) : result wt_error Stream :=
  if s_closed s then Err ErrSessionClosed
  else if s_draining s then Err ErrSessionDraining
  else match opened with
       | None => Err ErrTransportFailed
       | Some id => Ok (newOutgoingStream (s_sessionID s) id)
       end.

(** [OpenUniStream] and [OpenUniStreamSync]; a send stream starts like an
    outgoing one. *)
Definition OpenUniStream (s : Session) (opened : option Z) : result wt_error Stream :=
  OpenStream s opened.

Definition close_error (s : Session) : wt_error :=
  match s_closeErr s with Some (c, m) => SessionError c m | None => ErrSessionClosed end.

Definition set_queues (s : Session) (bidi : list Stream) (uni : list ReceiveStream) (dg : list bytes) : Session :=
  {| s_sessionID := s_sessionID s; s_closed := s_closed s; s_draining := s_draining s;
     s_ctxDone := s_ctxDone s; s_closeErr := s_closeErr s; s_bidi := bidi; s_uni := uni;
     s_datagrams := dg; s_chans_closed := s_chans_closed s; s_control := s_control s;
     s_control_out := s_control_out s; s_sent := s_sent s |}.

(** The branch of the [select] in [AcceptStream] that was taken. *)
Inductive accept_branch := SessionDone | CallerDone | FromQueue.

(** [None]: the branch is not ready. A closed channel still delivers what it holds. *)
Definition AcceptStream (s : Session) (b : accept_branch)
  : option (Session * result wt_error Stream) :=
  match b with
  | SessionDone => if s_ctxDone s then Some (s, Err (close_error s)) else None
  | CallerDone => Some (s, Err ErrTransportFailed)
  | FromQueue =>
      match s_bidi s with
      | str :: rest => Some (set_queues s rest (s_uni s) (s_datagrams s), Ok str)
      | [] => if s_chans_closed s then Some (s, Err ErrSessionClosed) else None
      end
  end.

Definition AcceptUniStream (s : Session) (b : accept_branch)
  : option (Session * result wt_error ReceiveStream) :=
  match b with
  | SessionDone => if s_ctxDone s then Some (s, Err (close_error s)) else None
  | CallerDone => Some (s, Err ErrTransportFailed)
  | FromQueue =>
      match s_uni s with
      | str :: rest => Some (set_queues s (s_bidi s) rest (s_datagrams s), Ok str)
      | [] => if s_chans_closed s then Some (s, Err ErrSessionClosed) else None
      end
  end.

Definition ReceiveDatagram (s : Session) (b : accept_branch)
  : option (Session * result wt_error bytes) :=
  match b with
  | SessionDone => if s_ctxDone s then Some (s, Err (close_error s)) else None
  | CallerDone => Some (s, Err ErrTransportFailed)
  | FromQueue =>
      match s_datagrams s with
      | d :: rest => Some (set_queues s (s_bidi s) (s_uni s) rest, Ok d)
      | [] => if s_chans_closed s then Some (s, Err ErrSessionClosed) else None
      end
  end.

Definition datagram_capacity : nat := 1024.
Definition stream_capacity : nat := 256.

(** Drops the datagram when the queue is full. *)
Definition EnqueueDatagram (s : Session) (data : bytes) : Session :=
  if s_closed s then s
  else if (length (s_datagrams s) <? datagram_capacity)%nat
  then set_queues s (s_bidi s) (s_uni s) (s_datagrams s ++ [data])
  else s.

(** The branch of the [select] in [EnqueueBidiStream]: the channel took the
    stream or the session context was done.  [None]: the branch is not ready.
    The stream comes back closed when it was not queued. *)
Inductive enqueue_branch := ToQueue | ContextDone.

Definition EnqueueBidiStream (s : Session) (str : Stream) (b : enqueue_branch)
  : option (Session * option Stream) :=
  if s_closed s then Some (s, Some (Stream_Close str))
  else match b with
       | ToQueue =>
           if (length (s_bidi s) <? stream_capacity)%nat
           then Some (set_queues s (s_bidi s ++ [str]) (s_uni s) (s_datagrams s), None)
           else None
       | ContextDone => if s_ctxDone s then Some (s, Some (Stream_Close str)) else None
       end.

Definition EnqueueUniStream (s : Session) (str : ReceiveStream) (b : enqueue_branch)
  : option (Session * option ReceiveStream) :=
  if s_closed s then Some (s, Some (ReceiveStream_Close str))
  else match b with
       | ToQueue =>
           if (length (s_uni s) <? stream_capacity)%nat
           then Some (set_queues s (s_bidi s) (s_uni s ++ [str]) (s_datagrams s), None)
           else None
       | ContextDone => if s_ctxDone s then Some (s, Some (ReceiveStream_Close str)) else None
       end.

(** The quarter stream id in front of the payload, in a buffer of exactly the
    total length; [ans] is what the transport answered. *)
Definition SendDatagram (s : Session) (p : bytes) (ans : option wt_error)
  : Session * option wt_error :=
  if s_closed s then (s, Some ErrSessionClosed)
  else
    let quarterID := s_sessionID s / 4 in
    ({| s_sessionID := s_sessionID s; s_closed := s_closed s; s_draining := s_draining s;
        s_ctxDone := s_ctxDone s; s_closeErr := s_closeErr s; s_bidi := s_bidi s;
        s_uni := s_uni s; s_datagrams := s_datagrams s; s_chans_closed := s_chans_closed s;
        s_control := s_control s; s_control_out := s_control_out s;
        s_sent := s_sent s ++ [vi_append quarterID ++ p] |}, ans).

Definition set_draining (s : Session) (out : list control_event) : Session :=
  {| s_sessionID := s_sessionID s; s_closed := s_closed s; s_draining := true;
     s_ctxDone := s_ctxDone s; s_closeErr := s_closeErr s; s_bidi := s_bidi s; s_uni := s_uni s;
     s_datagrams := s_datagrams s; s_chans_closed := s_chans_closed s; s_control := s_control s;
     s_control_out := out; s_sent := s_sent s |}.

(** [buf[:n]] of an array of [size] bytes. *)
Definition slice_to (buf : bytes) (n : nat) : outcome bytes :=
  if (length buf <? n)%nat then Panic else Done (take n buf).

(** [ans] is the control stream's answer to the write. *)
Definition Drain (s : Session) (ans : option wt_error) : outcome (Session * option wt_error) :=
  if s_closed s then Done (s, Some ErrSessionClosed)
  else if s_draining s then Done (s, None)
  else
    '(n, buf) ← EncodeDrainSessionCapsule (replicate 16 x00);
    if s_control s then
      data ← slice_to buf n;
      Done (set_draining s (s_control_out s ++ [ControlWrite data]), ans)
    else Done (set_draining s (s_control_out s), None).

(** The flag, the error, the channels and the context first; then the capsule,
    written and the stream closed by a goroutine of its own.  [buf[:n]] is
    evaluated when that goroutine is started. *)
Definition set_closed (s : Session) (code : Z) (msg : bytes) : Session :=
  {| s_sessionID := s_sessionID s; s_closed := true; s_draining := s_draining s;
     s_ctxDone := true; s_closeErr := Some (code, msg); s_bidi := s_bidi s;
     s_uni := s_uni s; s_datagrams := s_datagrams s; s_chans_closed := true;
     s_control := s_control s; s_control_out := s_control_out s; s_sent := s_sent s |}.

Definition control_put (s : Session) (evs : list control_event) : Session :=
  {| s_sessionID := s_sessionID s; s_closed := s_closed s; s_draining := s_draining s;
     s_ctxDone := s_ctxDone s; s_closeErr := s_closeErr s; s_bidi := s_bidi s;
     s_uni := s_uni s; s_datagrams := s_datagrams s; s_chans_closed := s_chans_closed s;
     s_control := s_control s; s_control_out := s_control_out s ++ evs; s_sent := s_sent s |}.

Definition CloseWithError (s : Session) (code : Z) (msg : bytes) : outcome Session :=
  if s_closed s then Done s
  else
    let s1 := set_closed s code msg in
    '(n, buf) ← EncodeCloseSessionCapsule
                  {| ApplicationErrorCode := code; ErrorMessage := msg |} (replicate 512 x00);
    if s_control s1 then
      data ← slice_to buf n;
      Done (control_put s1 [ControlWrite data; ControlClose])
    else Done s1.

Definition Session_Close (s : Session) : outcome Session := CloseWithError s 0 [].

(** ** The control loop *)

Definition set_closeErr (s : Session) (e : option (Z * bytes)) : Session :=
  {| s_sessionID := s_sessionID s; s_closed := s_closed s; s_draining := s_draining s;
     s_ctxDone := s_ctxDone s; s_closeErr := e; s_bidi := s_bidi s; s_uni := s_uni s;
     s_datagrams := s_datagrams s; s_chans_closed := s_chans_closed s; s_control := s_control s;
     s_control_out := s_control_out s; s_sent := s_sent s |}.

Definition cancel (s : Session) : Session :=
  {| s_sessionID := s_sessionID s; s_closed := s_closed s; s_draining := s_draining s;
     s_ctxDone := true; s_closeErr := s_closeErr s; s_bidi := s_bidi s; s_uni := s_uni s;
     s_datagrams := s_datagrams s; s_chans_closed := s_chans_closed s; s_control := s_control s;
     s_control_out := s_control_out s; s_sent := s_sent s |}.

(** One varint from the stream: the first byte gives the length, [ReadFull]
    reads the rest; [None] is a read or decode error. *)
Definition read_varint (st : bytes) : option (Z * bytes) :=
  match st with
  | [] => None
  | b :: _ =>
      let varintLen := Z.to_nat (2 ^ Z.shiftr (bz b) 6) in
      if (length st <? varintLen)%nat then None
      else match DecodeVarint (take varintLen st) with
           | Ok (v, _) => Some (v, drop varintLen st)
           | Err _ => None
           end
  end.

Definition max_payload : Z := 16 * 1024 * 1024.

(** One capsule; [None] as the rest means the loop returned. *)
Definition control_step (s : Session) (st : bytes) : outcome (Session * option bytes) :=
  match read_varint st with
  | None => Done (cancel s, None)
  | Some (capsuleType, st1) =>
      match read_varint st1 with
      | None => Done (cancel s, None)
      | Some (payloadLen, st2) =>
          if max_payload <? payloadLen then Done (cancel s, None)
          else
            let n := Z.to_nat payloadLen in
            if (length st2 <? n)%nat then Done (cancel s, None)
            else
              let payload := take n st2 in
              let rest := drop n st2 in
              if capsuleType =? CapsuleDrainWebTransportSession then
                Done (set_draining s (s_control_out s), Some rest)
              else if capsuleType =? CapsuleCloseWebTransportSession then
                let s1 := match DecodeCloseSessionPayloadTo payload with
                          | Ok p => set_closeErr s (Some (ApplicationErrorCode p, ErrorMessage p))
                          | Err _ => s
                          end in
                s2 ← Session_Close s1; Done (s2, None)
              else Done (s, Some rest)
      end
  end.

(** [None]: out of fuel. *)
Fixpoint control_run (fuel : nat) (s : Session) (st : bytes) : option (outcome Session) :=
  match fuel with
  | O => None
  | S fuel' =>
      match control_step s st with
      | Panic => Some Panic
      | Done (s', None) => Some (Done s')
      | Done (s', Some st') => control_run fuel' s' st'
      end
  end.

(** The loop on everything the peer will ever send. *)
Definition controlLoop (s : Session) (st : bytes) : option (outcome Session) :=
  if s_control s then control_run (S (length st)) s st else Some (Done s).
End streams.

(** ** Stream theorems *)

Section stream_theorems.
Context {V : Varint}.

Lemma write_all_after_header write hdr s ps :
  (∀ s p ans, st_closed s = false → st_headerWritten s = true →
     write s p ans = (raw_write s true p, ans)) →
  st_closed s = false → st_headerWritten s = true →
  (st_raw (write_all write hdr s ps).1 = st_raw s ++ ps) ∧ (write_all write hdr s ps).2 = map length ps.
Proof.
  intros Hw. revert s. induction ps as [|p ps IH]; intros s Hc Hh; simpl.
  { by rewrite app_nil_r. }
  rewrite Hh, Hw by done. destruct (IH (raw_write s true p)) as [H1 H2]; [done|done|].
  destruct (write_all write hdr _ ps) as [s2 ns]. simpl in *. split; [|by f_equal].
  by rewrite H1, <- app_assoc.
Qed.

Lemma header_write_full s hdr p :
  header_write s hdr p ((length hdr + length p)%nat, None) =
    (raw_write s true (hdr ++ p), (length p, None)).
Proof.
  unfold header_write. do 3 f_equal. destruct (_ <? _)%nat eqn:E; bools; lia.
Qed.

(** On a stream the client opens, the bytes that reach the wire are the
    stream header once, then the written data in order; a stream the peer
    opened carries the data alone; and every write reports the payload's length. *)
Theorem stream_header_once (sessionID streamID : Z) (p : bytes) (ps : list bytes) :
  let out := newOutgoingStream sessionID streamID in
  let inc := newIncomingStream sessionID streamID in
  let '(b, nb) := write_all Stream_Write (bidi_header out) out (p :: ps) in
  let '(u, nu) := write_all SendStream_Write (uni_header out) out (p :: ps) in
  let '(i, ni) := write_all Stream_Write (bidi_header inc) inc (p :: ps) in
  concat (st_raw b) = bidi_header out ++ concat (p :: ps) ∧
  concat (st_raw u) = uni_header out ++ concat (p :: ps) ∧
  concat (st_raw i) = concat (p :: ps) ∧
  nb = map length (p :: ps) ∧ nu = map length (p :: ps) ∧ ni = map length (p :: ps).
Proof.
  intros out inc.
  assert (HS : ∀ s p ans, st_closed s = false → st_headerWritten s = true →
     Stream_Write s p ans = (raw_write s true p, ans)).
  { intros s q ans Hc Hh. unfold Stream_Write. by rewrite Hc, Hh, andb_false_r. }
  assert (HU : ∀ s p ans, st_closed s = false → st_headerWritten s = true →
     SendStream_Write s p ans = (raw_write s true p, ans)).
  { intros s q ans Hc Hh. unfold SendStream_Write. by rewrite Hc, Hh. }
  cbn [write_all out inc newOutgoingStream newIncomingStream st_headerWritten].
  fold out inc.
  change (Stream_Write out p ?a) with (header_write out (bidi_header out) p a).
  change (SendStream_Write out p ?a) with (header_write out (uni_header out) p a).
  rewrite !header_write_full. rewrite (HS inc) by done.
  destruct (write_all_after_header Stream_Write (bidi_header out)
    (raw_write out true (bidi_header out ++ p)) ps HS) as [B1 B2]; [done..|].
  destruct (write_all_after_header SendStream_Write (uni_header out)
    (raw_write out true (uni_header out ++ p)) ps HU) as [U1 U2]; [done..|].
  destruct (write_all_after_header Stream_Write (bidi_header inc)
    (raw_write inc true p) ps HS) as [I1 I2]; [done..|].
  destruct (write_all Stream_Write (bidi_header out) _ ps) as [b nb].
  destruct (write_all SendStream_Write (uni_header out) _ ps) as [u nu].
  destruct (write_all Stream_Write (bidi_header inc) _ ps) as [i ni]. simpl in *.
  rewrite B1, B2, U1, U2, I1, I2. simpl. by rewrite !app_assoc.
Qed.

(** ** The control loop *)

Lemma read_varint_shorter st v st' : read_varint st = Some (v, st') → (length st' < length st)%nat.
Proof.
  unfold read_varint. destruct st as [|b st]; [done|].
  destruct (_ <? _)%nat eqn:E; bools; [done|]. destruct (DecodeVarint _) as [[]|]; [|done].
  intros [= <- <-]. rewrite length_drop.
  assert (0 < 2 ^ Z.shiftr (bz b) 6).
  { apply Z.pow_pos_nonneg; [lia|]. apply Z.shiftr_nonneg. pose proof (bz_range b). lia. }
  simpl in *. lia.
Qed.

Lemma control_step_shorter s st s' st' :
  control_step s st = Done (s', Some st') → (length st' < length st)%nat.
Proof.
  unfold control_step. destruct (read_varint st) as [[t st1]|] eqn:E1; [|done].
  apply read_varint_shorter in E1. destruct (read_varint st1) as [[n st2]|] eqn:E2; [|done].
  apply read_varint_shorter in E2. destruct (max_payload <? n); [done|].
  destruct (_ <? _)%nat; [done|]. destruct (t =? _).
  { intros [= _ <-]. rewrite length_drop. lia. }
  destruct (t =? _).
  { destruct (Session_Close _); done. }
  intros [= _ <-]. rewrite length_drop. lia.
Qed.

Lemma control_run_total fuel s st : (length st < fuel)%nat → control_run fuel s st ≠ None.
Proof.
  revert s st. induction fuel as [|fuel IH]; intros s st Hl; [lia|]. simpl.
  destruct (control_step s st) as [[s' [st'|]]|] eqn:E; [|done..].
  apply control_step_shorter in E. apply IH. lia.
Qed.

(** The control loop returns on every byte sequence the peer sends. *)
Theorem control_loop_terminates (s : Session) (st : bytes) : controlLoop s st ≠ None.
Proof. unfold controlLoop. destruct (s_control s); [|done]. apply control_run_total. lia. Qed.

Lemma control_run_fuel fuel fuel' s st r :
  (fuel <= fuel')%nat → control_run fuel s st = Some r → control_run fuel' s st = Some r.
Proof.
  revert fuel' s st. induction fuel as [|fuel IH]; intros [|fuel'] s st Hf; simpl; try done; [lia|].
  destruct (control_step s st) as [[s' [st'|]]|]; [|done..]. apply IH. lia.
Qed.

(** A capsule as the peer writes it. *)
Definition encode_capsule (c : Z * bytes) : bytes :=
  capsule_header c.1 (Z.of_nat (length c.2)) ++ c.2.

Definition capsule_ok (c : Z * bytes) : Prop :=
  0 <= c.1 <= vi_max ∧ Z.of_nat (length c.2) <= max_payload.

Lemma read_varint_append `{!VarintLaws} v rest :
  0 <= v <= vi_max → read_varint (vi_append v ++ rest) = Some (v, rest).
Proof.
  intros Hv. destruct (vi_prefix v Hv) as (b & s & Hb & Hn). unfold read_varint.
  pose proof (Nat2Z.id (length (vi_append v))) as Hid. rewrite Hn in Hid.
  destruct (vi_append v ++ rest) as [|b' l] eqn:E0; [by rewrite Hb in E0|].
  assert (b' = b) as -> by (rewrite Hb in E0; by injection E0).
  cbv zeta. rewrite Hid, <- E0.
  destruct (_ <? _)%nat eqn:E; bools; [lens|].
  rewrite take_app_exact, drop_app_exact. by rewrite Decode_append.
Qed.

(** What one well-formed capsule does. *)
Lemma control_step_capsule `{!VarintLaws} s c rest :
  capsule_ok c →
  control_step s (encode_capsule c ++ rest) =
    if c.1 =? CapsuleDrainWebTransportSession then Done (set_draining s (s_control_out s), Some rest)
    else if c.1 =? CapsuleCloseWebTransportSession then
      let s1 := match DecodeCloseSessionPayloadTo c.2 with
                | Ok p => set_closeErr s (Some (ApplicationErrorCode p, ErrorMessage p))
                | Err _ => s
                end in
      s2 ← Session_Close s1; Done (s2, None)
    else Done (s, Some rest).
Proof.
  intros [Ht Hl]. unfold control_step, encode_capsule, capsule_header. rewrite <- !app_assoc.
  rewrite read_varint_append by done.
  rewrite read_varint_append by (revert Hl; unfold max_payload; change vi_max with 4611686018427387903; simpl in *; lia).
  destruct (max_payload <? _) eqn:E; bools; [lia|]. rewrite Nat2Z.id.
  destruct (_ <? _)%nat eqn:E2; bools; [lens|].
  by rewrite take_app_exact, drop_app_exact.
Qed.

Definition is_close (c : Z * bytes) : bool := c.1 =? CapsuleCloseWebTransportSession.
Definition is_drain (c : Z * bytes) : bool := c.1 =? CapsuleDrainWebTransportSession.

Definition drain_if (s : Session) (b : bool) : Session :=
  if b then set_draining s (s_control_out s) else s.

Lemma control_run_capsules `{!VarintLaws} cs fuel s rest :
  Forall capsule_ok cs → existsb is_close cs = false →
  control_run (length cs + fuel) s (concat (map encode_capsule cs) ++ rest) =
    control_run fuel (drain_if s (existsb is_drain cs)) rest.
Proof.
  intros Hok. revert s. induction Hok as [|c cs Hc Hcs IH]; intros s Hn; [done|].
  simpl in Hn. bools. simpl. rewrite <- app_assoc, control_step_capsule by done.
  unfold is_close, is_drain in *. bools.
  destruct (c.1 =? CapsuleDrainWebTransportSession) eqn:E; bools.
  - rewrite IH by done. simpl. unfold drain_if. by destruct (existsb (λ c0, c0.1 =? CapsuleDrainWebTransportSession) cs).
  - destruct (c.1 =? CapsuleCloseWebTransportSession) eqn:E2; bools; [done|].
    by rewrite IH by done.
Qed.

Lemma control_run_eof fuel s : control_run (S fuel) s [] = Some (Done (cancel s)).
Proof. done. Qed.

Lemma encode_capsule_nonempty `{!VarintLaws} c : capsule_ok c → (1 <= length (encode_capsule c))%nat.
Proof.
  intros [Ht _]. destruct (vi_prefix c.1 Ht) as (b & s & Hb & _).
  unfold encode_capsule, capsule_header. rewrite Hb. simpl. lia.
Qed.

Lemma encode_capsules_length `{!VarintLaws} cs :
  Forall capsule_ok cs → (length cs <= length (concat (map encode_capsule cs)))%nat.
Proof.
  intros Hok. induction Hok as [|c cs Hc Hcs IH]; simpl; [lia|].
  pose proof (encode_capsule_nonempty c Hc). lens.
Qed.

(** Capsules of any type but CLOSE are processed in order to the end of the
    stream: the session only becomes draining, exactly when one of them is a
    DRAIN capsule, and unknown types change nothing. *)
Theorem control_loop_capsules `{!VarintLaws} (s : Session) (cs : list (Z * bytes))
  (Hctrl : s_control s = true) (Hok : Forall capsule_ok cs)
  (Hnoclose : existsb is_close cs = false) :
  controlLoop s (concat (map encode_capsule cs)) =
    Some (Done (cancel (drain_if s (existsb is_drain cs)))).
Proof.
  unfold controlLoop. rewrite Hctrl. pose proof (encode_capsules_length cs Hok) as Hlen.
  eapply (control_run_fuel (length cs + 1)); [lia|].
  pose proof (control_run_capsules cs 1 s [] Hok Hnoclose) as Hrun.
  rewrite app_nil_r in Hrun. by rewrite Hrun, control_run_eof.
Qed.
End stream_theorems.

(** ** The connection dispatcher (dial.go) *)

Section dispatcher.
Context {V : Varint}.

(** An HTTP/3 frame header is two varints, like a capsule header. *)
Definition readH3FrameHeader (st : bytes) : option (Z * Z * bytes) :=
  match read_varint st with
  | None => None
  | Some (fType, st1) =>
      match read_varint st1 with
      | None => None
      | Some (fLen, st2) => Some (fType, fLen, st2)
      end
  end.

(** The body of the datagram loop of [StartConnectionDispatcher]. *)
Definition dispatch_datagram (s : Session) (dgram : bytes) : Session :=
  match dgram with
  | [] => s
  | _ =>
      match DecodeVarint dgram with
      | Err _ => s
      | Ok (quarterID, n) =>
          if (quarterID * 4) mod 2 ^ 64 =? s_sessionID s
          then EnqueueDatagram s (drop n dgram) else s
      end
  end.

(** What became of an incoming stream: the raw stream closed at once, or the
    stream handed to [EnqueueBidiStream] with the rest of its bytes unread. *)
Inductive routed (A : Type) := Rejected | Enqueue (str : A) (unread : bytes).
Arguments Rejected {_}.
Arguments Enqueue {_} _ _.

Definition handleIncomingBidi (s : Session) (streamID : Z) (st : bytes) : routed Stream :=
  match read_varint st with
  | None => Rejected
  | Some (fType, st1) =>
      if negb (fType =? FrameTypeWebTransportBidi) then Rejected
      else match read_varint st1 with
           | None => Rejected
           | Some (sessID, st2) =>
               if sessID =? s_sessionID s
               then Enqueue (newIncomingStream sessID streamID) st2 else Rejected
           end
  end.

Definition handleIncomingUni (s : Session) (streamID : Z) (st : bytes) : routed ReceiveStream :=
  match read_varint st with
  | None => Rejected
  | Some (sType, st1) =>
      if negb (sType =? StreamTypeWebTransportUni) then Rejected
      else match read_varint st1 with
           | None => Rejected
           | Some (sessID, st2) =>
               if sessID =? s_sessionID s
               then Enqueue (newReceiveStream sessID streamID) st2 else Rejected
           end
  end.

Lemma dispatch_quarter `{!VarintLaws} s q p :
  0 <= q <= vi_max →
  dispatch_datagram s (vi_append q ++ p) =
    if q * 4 =? s_sessionID s then EnqueueDatagram s p else s.
Proof.
  intros Hq. unfold dispatch_datagram, DecodeVarint. rewrite vi_parse_append by done.
  destruct (vi_append q ++ p) eqn:E.
  { destruct (vi_prefix q Hq) as (b & l & Hb & _). by rewrite Hb in E. }
  rewrite <- E, drop_app_exact. rewrite Z.mod_small; [done|].
  revert Hq. change vi_max with 4611686018427387903. lia.
Qed.

(** A datagram sent on a session reaches the peer session of the same id
    with its payload unchanged, and no session of another id. *)
Theorem datagram_delivery `{!VarintLaws} (a b : Session) (k : Z) (p : bytes)
  (Ha : s_sessionID a = 4 * k) (Hk : 0 <= 4 * k <= vi_max) (Hopen : s_closed a = false) :
  ∃ d, s_sent (SendDatagram a p None).1 = s_sent a ++ [d] ∧
    (s_sessionID b = s_sessionID a → dispatch_datagram b d = EnqueueDatagram b p) ∧
    (s_sessionID b ≠ s_sessionID a → dispatch_datagram b d = b).
Proof.
  exists (vi_append k ++ p). unfold SendDatagram. rewrite Hopen, Ha.
  replace (4 * k / 4) with k by (rewrite Z.mul_comm, Z.div_mul; lia).
  rewrite dispatch_quarter by lia. split; [done|].
  split; intros Hb; destruct (k * 4 =? s_sessionID b) eqn:E; bools; try done; lia.
Qed.

(** The dispatcher recognises the stream a peer session opens from the
    bytes of its first write, whatever they are, and leaves exactly the payload
    unread; streams of other sessions and of the other kind are rejected. *)
Theorem stream_routing `{!VarintLaws} (s : Session) (sid id : Z) (p rest : bytes)
  (Hs : 0 <= sid <= vi_max) :
  let out := newOutgoingStream sid id in
  let bidi := concat (st_raw (Stream_Write out p (0%nat, None)).1) ++ rest in
  let uni := concat (st_raw (SendStream_Write out p (0%nat, None)).1) ++ rest in
  handleIncomingBidi s id bidi =
    (if sid =? s_sessionID s then Enqueue (newIncomingStream sid id) (p ++ rest) else Rejected) ∧
  handleIncomingUni s id uni =
    (if sid =? s_sessionID s then Enqueue (newReceiveStream sid id) (p ++ rest) else Rejected) ∧
  handleIncomingBidi s id uni = Rejected ∧ handleIncomingUni s id bidi = Rejected.
Proof.
  cbv zeta. unfold Stream_Write, SendStream_Write. simpl. rewrite !app_nil_r.
  unfold bidi_header, uni_header. simpl. rewrite <- !app_assoc.
  unfold handleIncomingBidi, handleIncomingUni.
  assert (0 <= FrameTypeWebTransportBidi <= vi_max) by (vm_compute; split; discriminate).
  assert (0 <= StreamTypeWebTransportUni <= vi_max) by (vm_compute; split; discriminate).
  by rewrite !read_varint_append by done.
Qed.
End dispatcher.
Arguments Rejected {_}.
Arguments Enqueue {_} _ _.

(** ** The life of a session *)

Section session_life.
Context {V : Varint}.

(** Everything that happens to a session after [NewSession], in the order in
    which the operations take effect. *)
Inductive session_step (s : Session) : Session → Prop :=
| step_drain ans s' e : Drain s ans = Done (s', e) → session_step s s'
| step_close code msg s' : CloseWithError s code msg = Done s' → session_step s s'
| step_accept b s' r : AcceptStream s b = Some (s', r) → session_step s s'
| step_accept_uni b s' r : AcceptUniStream s b = Some (s', r) → session_step s s'
| step_receive b s' r : ReceiveDatagram s b = Some (s', r) → session_step s s'
| step_bidi str b s' r : EnqueueBidiStream s str b = Some (s', r) → session_step s s'
| step_uni str b s' r : EnqueueUniStream s str b = Some (s', r) → session_step s s'
| step_datagram d : session_step s (EnqueueDatagram s d)
| step_send p ans : session_step s (SendDatagram s p ans).1
| step_parent : session_step s (cancel s)
| step_control st s' r : control_step s st = Done (s', r) → session_step s s'.

Inductive session_reach (s0 : Session) : Session → Prop :=
| reach_start : session_reach s0 s0
| reach_step s s' : session_reach s0 s → session_step s s' → session_reach s0 s'.

(** The capsules on the wire, exactly. *)
Definition drain_capsule : bytes := capsule_header CapsuleDrainWebTransportSession 0.
Definition drain_events : list control_event := [ControlWrite drain_capsule].
Definition close_events (code : Z) (msg : bytes) : list control_event :=
  [ControlWrite (close_capsule {| ApplicationErrorCode := code; ErrorMessage := msg |}); ControlClose].

(** What an operation does to the flags and the control stream: a DRAIN capsule by
    the one that sets the draining flag, a CLOSE capsule and the close of the
    stream by the one that sets the closed flag, nothing by others. *)
Inductive effect (s s' : Session) : Prop :=
| effect_none : s_control_out s' = s_control_out s → s_control s' = s_control s → s_closed s' = s_closed s →
    (s_draining s = true → s_draining s' = true) → effect s s'
| effect_drain : s_control_out s' = s_control_out s ++ (if s_control s then drain_events else []) → s_control s' = s_control s →
    s_closed s' = s_closed s → s_draining s = false → s_draining s' = true → effect s s'
| effect_close code msg : s_control_out s' = s_control_out s ++ (if s_control s then close_events code msg else []) →
    s_control s' = s_control s → s_closed s = false → s_closed s' = true → s_draining s' = s_draining s → effect s s'.

Lemma slice_to_exact buf n data : slice_to buf n = Done data → (n <= length buf)%nat ∧ data = take n buf.
Proof. unfold slice_to. destruct (_ <? _)%nat eqn:E; [done|]. bools. by intros [= <-]. Qed.

Lemma drain_data n buf data : EncodeDrainSessionCapsule (replicate 16 x00) = Done (n, buf) → slice_to buf n = Done data → data = drain_capsule.
Proof.
  intros He [Hn ->]%slice_to_exact. unfold EncodeDrainSessionCapsule in He.
  destruct (EncodeCapsuleHeader_length _ _ _ _ _ He) as [-> Hl]. rewrite EncodeCapsuleHeader_fits in He by (rewrite <- Hl; done).
  injection He as <-. apply (take_write_at _ 0). rewrite Hl in Hn. done.
Qed.

Lemma close_data p n buf data : EncodeCloseSessionCapsule p (replicate 512 x00) = Done (n, buf) → slice_to buf n = Done data → data = close_capsule p.
Proof.
  intros He [Hn ->]%slice_to_exact. destruct (EncodeCloseSessionCapsule_length _ _ _ _ He) as [-> Hl]. rewrite Hl in Hn.
  destruct (EncodeCloseSessionCapsule_run p (replicate 512 x00)) as (dst & H1 & _ & H2); [unfold close_capsule_fixed; lia|].
  rewrite H1 in He. injection He as <-. by apply H2.
Qed.

Lemma Drain_effect s ans s' e : Drain s ans = Done (s', e) → effect s s'.
Proof.
  unfold Drain. destruct (s_closed s) eqn:Ec; [intros [= <- <-]; by apply effect_none|].
  destruct (s_draining s) eqn:Ed; [intros [= <- <-]; by apply effect_none|].
  destruct (EncodeDrainSessionCapsule _) as [[n buf]|] eqn:Ee; [|done]. cbn [mbind outcome_bind].
  destruct (s_control s) eqn:Ect; [|intros [= <- <-]; apply effect_drain; simpl; rewrite ?Ect, ?app_nil_r; done].
  destruct (slice_to buf n) as [data|] eqn:Es; [|done]. intros [= <- <-]. rewrite (drain_data _ _ _ Ee Es).
  apply effect_drain; simpl; by rewrite ?Ect.
Qed.

Lemma CloseWithError_effect s code msg s' : CloseWithError s code msg = Done s' → effect s s'.
Proof.
  unfold CloseWithError. destruct (s_closed s) eqn:Ec; [intros [= <-]; by apply effect_none|].
  destruct (EncodeCloseSessionCapsule _ _) as [[n buf]|] eqn:Ee; [|done]. simpl.
  destruct (s_control s) eqn:Ect; [|intros [= <-]; apply (effect_close _ _ code msg); simpl; rewrite ?Ect, ?app_nil_r; done].
  destruct (slice_to buf n) as [data|] eqn:Es; [|done]. intros [= <-]. rewrite (close_data _ _ _ _ Ee Es).
  apply (effect_close _ _ code msg); simpl; by rewrite ?Ect.
Qed.

Lemma control_step_effect s st s' r : control_step s st = Done (s', r) → effect s s'.
Proof.
  unfold control_step.
  destruct (read_varint st) as [[t st1]|]; [|intros [= <- <-]; by apply effect_none].
  destruct (read_varint st1) as [[n st2]|]; [|intros [= <- <-]; by apply effect_none].
  destruct (max_payload <? n); [intros [= <- <-]; by apply effect_none|].
  destruct (_ <? _)%nat; [intros [= <- <-]; by apply effect_none|].
  destruct (t =? _); [intros [= <- <-]; by apply effect_none|].
  destruct (t =? _); [|intros [= <- <-]; by apply effect_none].
  destruct (DecodeCloseSessionPayloadTo _) as [p|]; unfold Session_Close.
  - set (s1 := set_closeErr s _). destruct (CloseWithError s1 0 []) as [s2|] eqn:E; [|done]. intros [= <- <-].
    apply CloseWithError_effect in E as [H1 H2 H3 H4|H1 H2 H3 H4 H5|code msg H1 H2 H3 H4 H5];
      [by apply effect_none|by apply effect_drain|by eapply effect_close].
  - destruct (CloseWithError s 0 []) as [s2|] eqn:E; [|done]. intros [= <- <-]. by eapply CloseWithError_effect.
Qed.

Lemma session_step_effect s s' : session_step s s' → effect s s'.
Proof.
  intros Hst. destruct Hst as [ans s' e E|code msg s' E|b s' r E|b s' r E|b s' r E|str b s' r E|str b s' r E|d|p ans| |st s' r E].
  - by eapply Drain_effect.
  - by eapply CloseWithError_effect.
  - unfold AcceptStream in E. repeat case_match; simplify_eq; by apply effect_none.
  - unfold AcceptUniStream in E. repeat case_match; simplify_eq; by apply effect_none.
  - unfold ReceiveDatagram in E. repeat case_match; simplify_eq; by apply effect_none.
  - unfold EnqueueBidiStream in E. repeat case_match; simplify_eq; by apply effect_none.
  - unfold EnqueueUniStream in E. repeat case_match; simplify_eq; by apply effect_none.
  - unfold EnqueueDatagram. repeat case_match; by apply effect_none.
  - unfold SendDatagram. repeat case_match; by apply effect_none.
  - by apply effect_none.
  - by eapply control_step_effect.
Qed.

(** ** The state of a session *)

Definition session_ok (s : Session) : Prop :=
  (s_closed s = true → s_ctxDone s = true ∧ s_closeErr s ≠ None) ∧
  s_chans_closed s = s_closed s ∧
  (length (s_bidi s) <= stream_capacity ∧ length (s_uni s) <= stream_capacity ∧
   length (s_datagrams s) <= datagram_capacity)%nat.

Lemma session_ok_new id ctl : session_ok (NewSession id ctl).
Proof. unfold session_ok, stream_capacity, datagram_capacity. simpl. split_and!; try done; lia. Qed.

Lemma Drain_ok s ans s' e : session_ok s → Drain s ans = Done (s', e) → session_ok s'.
Proof.
  intros Hok. unfold Drain. destruct (s_closed s) eqn:Ec; [by intros [= <- <-]|]. destruct (s_draining s); [by intros [= <- <-]|].
  destruct (EncodeDrainSessionCapsule _) as [[n buf]|]; [|done]. simpl. destruct (s_control s); [destruct (slice_to buf n); [|done]|]; by intros [= <- <-].
Qed.

Lemma CloseWithError_ok s code msg s' : session_ok s → CloseWithError s code msg = Done s' → session_ok s'.
Proof.
  intros (I1 & I2 & I3). unfold CloseWithError. destruct (s_closed s) eqn:Ec; [intros [= <-]; unfold session_ok; by rewrite Ec|].
  destruct (EncodeCloseSessionCapsule _ _) as [[n buf]|]; [|done]. simpl. destruct (s_control s); [destruct (slice_to buf n); [|done]|]; by intros [= <-].
Qed.

(** Steps that leave the flags alone. *)
Lemma set_queues_ok s bidi uni dg :
  session_ok s → (length bidi <= stream_capacity)%nat → (length uni <= stream_capacity)%nat →
  (length dg <= datagram_capacity)%nat → session_ok (set_queues s bidi uni dg).
Proof. intros (I1 & I2 & I3) ???. by split_and!. Qed.

Lemma cancel_ok s : session_ok s → session_ok (cancel s).
Proof. intros (I1 & I2 & I3). split_and!; simpl; try done; try apply I3. intros Hc. split; [done|]. by apply I1. Qed.

Lemma set_closeErr_ok s e : session_ok s → session_ok (set_closeErr s (Some e)).
Proof. intros (I1 & I2 & I3). split_and!; simpl; try done; try apply I3. intros Hc. split; [by apply I1|done]. Qed.

Lemma control_step_ok s st s' r : session_ok s → control_step s st = Done (s', r) → session_ok s'.
Proof.
  intros I. pose proof (cancel_ok s I) as Ic. unfold control_step.
  destruct (read_varint st) as [[t st1]|]; [|by intros [= <- <-]].
  destruct (read_varint st1) as [[n st2]|]; [|by intros [= <- <-]].
  destruct (max_payload <? n); [by intros [= <- <-]|].
  destruct (_ <? _)%nat; [by intros [= <- <-]|].
  destruct (t =? _); [by intros [= <- <-]|].
  destruct (t =? _); [|by intros [= <- <-]].
  set (s1 := match _ with Ok _ => _ | Err _ => s end).
  assert (session_ok s1) as I1 by (unfold s1; case_match; [by apply set_closeErr_ok|done]).
  unfold Session_Close. destruct (CloseWithError s1 0 []) as [s2|] eqn:E; [|done].
  intros [= <- <-]. by eapply CloseWithError_ok.
Qed.

Lemma session_step_ok s s' : session_ok s → session_step s s' → session_ok s'.
Proof.
  intros I Hst. pose proof I as (_ & _ & (L1 & L2 & L3)).
  destruct Hst as [ans s' e E|code msg s' E|b s' r E|b s' r E|b s' r E|str b s' r E|str b s' r E|d|p ans| |st s' r E].
  - by eapply Drain_ok.
  - by eapply CloseWithError_ok.
  - unfold AcceptStream in E. repeat case_match; simplify_eq; try done.
    apply set_queues_ok; simpl in *; try done; lia.
  - unfold AcceptUniStream in E. repeat case_match; simplify_eq; try done.
    apply set_queues_ok; simpl in *; try done; lia.
  - unfold ReceiveDatagram in E. repeat case_match; simplify_eq; try done.
    apply set_queues_ok; simpl in *; try done; lia.
  - unfold EnqueueBidiStream in E. repeat case_match; simplify_eq; try done.
    bools. apply set_queues_ok; try done. lens.
  - unfold EnqueueUniStream in E. repeat case_match; simplify_eq; try done.
    bools. apply set_queues_ok; try done. lens.
  - unfold EnqueueDatagram. repeat case_match; try done.
    bools. apply set_queues_ok; try done. lens.
  - unfold SendDatagram. destruct (s_closed s) eqn:Ec; [done|]. rewrite <- Ec. exact I.
  - by apply cancel_ok.
  - by eapply control_step_ok.
Qed.

(** At most one DRAIN write, then, once closed, the CLOSE write and the close. *)
Definition control_script (s : Session) : Prop :=
  ∃ drain close : list control_event,
    s_control_out s = drain ++ close ∧
    (drain = [] ∨ s_draining s = true ∧ drain = drain_events) ∧
    (if s_closed s && s_control s then ∃ code msg, close = close_events code msg else close = []).

Definition session_inv (s : Session) : Prop := session_ok s ∧ control_script s.

Lemma session_inv_new id ctl : session_inv (NewSession id ctl).
Proof. split; [apply session_ok_new|]. exists [], []. simpl. auto. Qed.

(** Taken one at a time, an operation does not drain a closed session. *)
Lemma drain_open s s' : session_step s s' → s_closed s = true → s_control_out s' = s_control_out s.
Proof.
  intros Hst Hc. destruct Hst as [ans s' e E|code msg s' E|b s' r E|b s' r E|b s' r E|str b s' r E|str b s' r E|d|p ans| |st s' r E].
  - unfold Drain in E. rewrite Hc in E. by injection E as <- <-.
  - unfold CloseWithError in E. rewrite Hc in E. by injection E as <-.
  - unfold AcceptStream in E. by repeat case_match; simplify_eq.
  - unfold AcceptUniStream in E. by repeat case_match; simplify_eq.
  - unfold ReceiveDatagram in E. by repeat case_match; simplify_eq.
  - unfold EnqueueBidiStream in E. by repeat case_match; simplify_eq.
  - unfold EnqueueUniStream in E. by repeat case_match; simplify_eq.
  - unfold EnqueueDatagram. by repeat case_match.
  - unfold SendDatagram. by repeat case_match.
  - done.
  - unfold control_step, Session_Close, CloseWithError in E. repeat (case_match; simplify_eq/=; try done); congruence.
Qed.

Lemma session_step_inv s s' : session_inv s → session_step s s' → session_inv s'.
Proof.
  intros [Hok (dr & cl & C1 & C2 & C3)] Hst. split; [by eapply session_step_ok|].
  pose proof (drain_open s s' Hst) as Hd. destruct (session_step_effect s s' Hst) as [H1 H2 H3 H4|H1 H2 H3 H4 H5|code msg H1 H2 H3 H4 H5].
  - exists dr, cl. rewrite H1, H2, H3. split_and!; [done| |done]. destruct C2 as [|[]]; auto.
  - destruct (s_closed s) eqn:Ec.
    + exists dr, cl. rewrite Hd, H2, H3 by done. split_and!; [done| |done]. destruct C2 as [|[]]; auto.
    + simpl in C3. subst cl. destruct C2 as [->|[? _]]; [|congruence]. simpl in C1. rewrite C1 in H1.
      exists (if s_control s then drain_events else []), []. rewrite H1, H3, app_nil_r. split_and!; [done| |done]. destruct (s_control s); auto.
  - rewrite H3 in C3. simpl in C3. subst cl. rewrite app_nil_r in C1. exists dr, (if s_control s then close_events code msg else []).
    rewrite H1, H2, H4, H5, C1. split_and!; [done|done|]. simpl. destruct (s_control s); eauto.
Qed.

(** Whatever the application, the peer and the parent context do, one operation
    after the other: a closed session has its context cancelled, its channels
    closed and an error to report; the queues stay within their capacities; and
    the control stream gets at most the DRAIN capsule, then at most one CLOSE
    capsule followed by its own close, and nothing after that. *)
Theorem session_life_cycle (id : Z) (ctl : bool) (s : Session)
  (H : session_reach (NewSession id ctl) s) : session_inv s.
Proof.
  induction H as [|s s' _ IH Hst]; [apply session_inv_new|]. by eapply session_step_inv.
Qed.
End session_life.

(** ** Closing, with the varints of RFC 9000 *)

Section closing.
#[local] Existing Instance RFC9000.varint.
#[local] Existing Instance RFC9000.varint_laws.

Lemma slice_to_fits buf n : (n <= length buf)%nat → slice_to buf n = Done (take n buf).
Proof. intros H. unfold slice_to. destruct (_ <? _)%nat eqn:E; bools; [lia|done]. Qed.

Lemma close_capsule_length p :
  let m := length (TruncateErrorMessage (ErrorMessage p)) in
  length (close_capsule p) =
    (2 + length (vi_append (Z.of_nat (4 + m))) + (4 + m))%nat ∧
  (length (vi_append (Z.of_nat (4 + m))) <= 2)%nat ∧
  ((60 <= m)%nat → length (vi_append (Z.of_nat (4 + m))) = 2%nat).
Proof.
  cbv zeta. pose proof (truncate_length (ErrorMessage p)) as Hl.
  set (t := TruncateErrorMessage (ErrorMessage p)) in *.
  split.
  { unfold close_capsule, capsule_header. fold t. rewrite !length_app. simpl. lia. }
  simpl vi_append. unfold RFC9000.append.
  destruct (_ <=? 63) eqn:E; bools; [split; simpl length; lia|].
  destruct (_ <=? 16383) eqn:E2; bools; [|lia]. split; simpl length; lia.
Qed.

Lemma close_with_error_eq (s : Session) (code : Z) (msg : bytes)
  (Hopen : s_closed s = false) (Hctl : s_control s = true) :
  let p := {| ApplicationErrorCode := code; ErrorMessage := msg |} in
  CloseWithError s code msg =
    if (length (TruncateErrorMessage msg) <=? 504)%nat
    then Done (control_put (set_closed s code msg) [ControlWrite (close_capsule p); ControlClose])
    else Panic.
Proof.
  cbv zeta. set (p := {| ApplicationErrorCode := code; ErrorMessage := msg |}).
  destruct (close_capsule_length p) as (L1 & L2 & L3).
  unfold CloseWithError. rewrite Hopen. fold p. cbv zeta.
  destruct (EncodeCloseSessionCapsule_run p (replicate 512 x00)) as (dst & H1 & H2 & H3).
  { unfold close_capsule_fixed. rewrite length_replicate. lia. }
  rewrite H1. cbn [mbind outcome_bind]. rewrite length_replicate in H2, H3.
  replace (s_control (set_closed s code msg)) with true by done.
  change (ErrorMessage p) with msg in *.
  destruct (length (TruncateErrorMessage msg) <=? 504)%nat eqn:E; bools.
  - rewrite slice_to_fits by lia. rewrite H3 by lia. done.
  - unfold slice_to. destruct (_ <? _)%nat eqn:E2; bools; [done|].
    rewrite L3 in L1 by lia. lia.
Qed.
(** Closing an open session sends exactly the CLOSE capsule and closes the
    control stream when the truncated reason has at most 504 bytes; the slice of
    the 512-byte buffer panics for every longer one, although reasons of up to
    1024 bytes are what [TruncateErrorMessage] allows. *)
Theorem close_with_error_reason (s : Session) (code : Z) (msg : bytes)
  (Hopen : s_closed s = false) (Hctl : s_control s = true) :
  let p := {| ApplicationErrorCode := code; ErrorMessage := msg |} in
  CloseWithError s code msg =
    if (length (TruncateErrorMessage msg) <=? 504)%nat
    then Done (control_put (set_closed s code msg) [ControlWrite (close_capsule p); ControlClose])
    else Panic.
Proof. by apply close_with_error_eq. Qed.

Lemma Session_Close_open s :
  s_closed s = false → s_control s = true →
  Session_Close s = Done (control_put (set_closed s 0 [])
    [ControlWrite (close_capsule {| ApplicationErrorCode := 0; ErrorMessage := [] |}); ControlClose]).
Proof. intros Ho Hc. unfold Session_Close. by rewrite close_with_error_eq. Qed.

(** A CLOSE capsule from the peer closes the session, but its code and
    message are overwritten by those of the local [Close]: whatever the peer
    sent, waiting calls report code 0 and an empty message. *)
Theorem peer_close_error_lost (s : Session) (code : Z) (msg rest : bytes)
  (Hopen : s_closed s = false) (Hctl : s_control s = true)
  (Hmsg : (length msg <= 1024)%nat) :
  ∃ s', controlLoop s (encode_capsule (CapsuleCloseWebTransportSession, be32 code ++ msg) ++ rest)
          = Some (Done s') ∧
        s_closed s' = true ∧ s_closeErr s' = Some (0, []) ∧
        AcceptStream s' SessionDone = Some (s', Err (SessionError 0 [])).
Proof.
  unfold controlLoop. rewrite Hctl. cbn [control_run]. rewrite control_step_capsule.
  2:{ split; [vm_compute; split; discriminate|]. simpl. unfold max_payload. lia. }
  cbn [fst snd]. change (CapsuleCloseWebTransportSession =? CapsuleDrainWebTransportSession) with false.
  rewrite Z.eqb_refl. cbv zeta.
  set (s1 := match _ with Ok _ => _ | Err _ => s end).
  rewrite Session_Close_open by (unfold s1; case_match; done).
  eexists. split; [reflexivity|]. done.
Qed.
End closing.

(** ** The theorems at concrete sessions *)

Module SessionSample.
#[local] Existing Instance RFC9000.varint.
#[local] Existing Instance RFC9000.varint_laws.

Definition open4 : Session := NewSession 4 true.

Lemma control_loop_capsules_witness :
  ∃ s, controlLoop open4 (concat (map encode_capsule
         [(0x1234, str "?"); (CapsuleDrainWebTransportSession, [])])) = Some (Done s) ∧
       s_draining s = true.
Proof.
  eexists. split.
  - apply (control_loop_capsules open4
      [(0x1234, str "?"); (CapsuleDrainWebTransportSession, [])]); [reflexivity| |reflexivity].
    repeat constructor; vm_compute; congruence.
  - reflexivity.
Defined.

Lemma datagram_delivery_witness :
  dispatch_datagram open4 [x01; x68; x69] = EnqueueDatagram open4 (str "hi").
Proof.
  destruct (datagram_delivery open4 open4 1 (str "hi")) as (d & Hd & Hsame & _);
    [reflexivity|vm_compute; split; discriminate|reflexivity|].
  injection Hd as <-. exact (Hsame eq_refl).
Defined.

Lemma stream_routing_witness :
  handleIncomingBidi open4 8 [x40; x41; x04; x68; x69] =
    Enqueue (newIncomingStream 4 8) (str "hi").
Proof.
  destruct (stream_routing open4 4 8 (str "hi") []) as [H _];
    [vm_compute; split; discriminate|exact H].
Defined.

Lemma session_life_cycle_witness :
  ∃ s, session_reach open4 s ∧ s_draining s = true ∧ length (s_datagrams s) = 1%nat ∧ session_inv s.
Proof.
  assert (∃ s, session_reach open4 s ∧ s_draining s = true ∧ length (s_datagrams s) = 1%nat)
    as (s & R & H1 & H2).
  { eexists. split; [|split].
    - eapply reach_step; [eapply reach_step; [apply reach_start|]|].
      + apply (step_datagram open4 (str "dgram")).
      + eapply (step_drain _ None). reflexivity.
    - reflexivity.
    - reflexivity. }
  exists s. split; [exact R|]. split; [exact H1|]. split; [exact H2|].
  exact (session_life_cycle 4 true s R).
Defined.

Lemma close_with_error_reason_witness :
  CloseWithError open4 1 (replicate 505 x61) = Panic ∧
  CloseWithError open4 1 (replicate 504 x61) ≠ Panic.
Proof.
  split.
  - rewrite (close_with_error_reason open4 1 (replicate 505 x61)); reflexivity.
  - rewrite (close_with_error_reason open4 1 (replicate 504 x61)) by reflexivity.
    vm_compute. discriminate.
Defined.

Lemma peer_close_error_lost_witness :
  ∃ s', controlLoop open4
          (encode_capsule (CapsuleCloseWebTransportSession, be32 77 ++ str "bye") ++ [])
        = Some (Done s') ∧ s_closeErr s' = Some (0, []).
Proof.
  destruct (peer_close_error_lost open4 77 (str "bye") []) as (s' & H1 & _ & H3 & _);
    [reflexivity|reflexivity|apply Nat.leb_le; reflexivity|].
  exists s'. split; [exact H1|exact H3].
Defined.
End SessionSample.
