(* ===== verification/WebTransportControl.v ===== *)
(** * The control stream of a WebTransport session (src/webtransport/session.go)

    [Drain] and [CloseWithError] set a flag and write to the control stream
    afterwards, without a lock, [CloseWithError] in a goroutine of its own. Here
    the writes of an operation are a goroutine that runs at any later time, and a
    [Drain] may be overtaken between its two flags. *)

From S2P Require Import Prelude GoLib WebTransportCapsule WebTransportSession.

#[local] Open Scope nat_scope.

(** ** Interleavings *)

(** [O] has the elements of the lists in their orders, mixed in any way. *)
Inductive merges {A} : list (list A) → list A → Prop :=
  | merges_nil ls : Forall (λ l, l = []) ls → merges ls []
  | merges_snoc ls i l e O : merges ls O → ls !! i = Some l → merges (<[i := l ++ [e]]> ls) (O ++ [e]).

Lemma merges_add {A} (ls : list (list A)) O : merges ls O → merges (ls ++ [[]]) O.
Proof.
  induction 1 as [ls Hl|ls i l e O _ IH Hi].
  - apply merges_nil, Forall_app. split; [done|]. by apply Forall_singleton.
  - rewrite <- insert_app_l by (by eapply lookup_lt_Some). apply merges_snoc; [done|]. by apply lookup_app_l_Some.
Qed.

Section control.
Context {V : Varint}.

(** The rest of [Drain] after its test of [closed]: the swap of [draining] and what
    remains to be written. *)
Definition drain_swap (s : Session) : outcome (Session * list control_event) :=
  if s_draining s then Done (s, [])
  else
    '(n, buf) ← EncodeDrainSessionCapsule (replicate 16 x00);
    if s_control s then
      data ← slice_to buf n;
      Done (set_draining s (s_control_out s), [ControlWrite data])
    else Done (set_draining s (s_control_out s), []).

Lemma control_put_nil s : control_put s [] = s.
Proof. destruct s. unfold control_put. cbn. by rewrite app_nil_r. Qed.

(** Without interference the parts are [Drain]. *)
Lemma drain_parts s ans : s_closed s = false →
  Drain s ans = ('(s', evs) ← drain_swap s; Done (control_put s' evs, match evs with [] => None | _ => ans end)).
Proof.
  intros Hc. unfold Drain, drain_swap. rewrite Hc. destruct (s_draining s); cbn [mbind outcome_bind].
  - by rewrite control_put_nil.
  - destruct (EncodeDrainSessionCapsule _) as [[n buf]|]; [|done]. cbn [mbind outcome_bind].
    destruct (s_control s); cbn [mbind outcome_bind]; [by destruct (slice_to buf n)|by rewrite control_put_nil].
Qed.

(** The session without what it has still to write. *)
Definition detached (s : Session) : Session :=
  {| s_sessionID := s_sessionID s; s_closed := s_closed s; s_draining := s_draining s;
     s_ctxDone := s_ctxDone s; s_closeErr := s_closeErr s; s_bidi := s_bidi s; s_uni := s_uni s;
     s_datagrams := s_datagrams s; s_chans_closed := s_chans_closed s; s_control := s_control s;
     s_control_out := []; s_sent := s_sent s |}.

(** A [Drain] that has found the session open, and a goroutine that writes. *)
Inductive thread := DrainSwap | Writer (written todo : list control_event).

Record wired := { w_session : Session; w_threads : list thread; w_stream : list control_event }.

Inductive wired_step (w : wired) : wired → Prop :=
  | wire_call s' : session_step (w_session w) s' → wired_step w
      {| w_session := detached s'; w_threads := w_threads w ++ [Writer [] (s_control_out s')]; w_stream := w_stream w |}
  | wire_drain : s_closed (w_session w) = false → wired_step w
      {| w_session := w_session w; w_threads := w_threads w ++ [DrainSwap]; w_stream := w_stream w |}
  | wire_swap i s' evs : w_threads w !! i = Some DrainSwap → drain_swap (w_session w) = Done (s', evs) → wired_step w
      {| w_session := s'; w_threads := <[i := Writer [] evs]> (w_threads w); w_stream := w_stream w |}
  | wire_write i d e r : w_threads w !! i = Some (Writer d (e :: r)) → wired_step w
      {| w_session := w_session w; w_threads := <[i := Writer (d ++ [e]) r]> (w_threads w); w_stream := w_stream w ++ [e] |}.

Inductive wired_reach (id : Z) (ctl : bool) : wired → Prop :=
  | wreach_new : wired_reach id ctl {| w_session := NewSession id ctl; w_threads := []; w_stream := [] |}
  | wreach_step w w' : wired_reach id ctl w → wired_step w w' → wired_reach id ctl w'.

Definition written (t : thread) : list control_event := match t with DrainSwap => [] | Writer d _ => d end.
(** All that a goroutine has written and will write. *)
Definition script (t : thread) : list control_event := match t with DrainSwap => [] | Writer d r => d ++ r end.

Definition drainer (t : thread) : bool := match script t with [_] => true | _ => false end.
Definition closer (t : thread) : bool := match script t with [_; _] => true | _ => false end.
Definition count (f : thread → bool) (ts : list thread) : nat := length (List.filter f ts).

Definition script_ok (s : Session) (t : thread) : Prop :=
  script t = [] ∨ (script t = drain_events ∧ s_draining s = true) ∨
  (∃ code msg, script t = close_events code msg ∧ s_closed s = true).

Record wired_inv (w : wired) : Prop := {
  wi_session : session_ok (w_session w);
  wi_out : s_control_out (w_session w) = [];
  wi_scripts : Forall (script_ok (w_session w)) (w_threads w);
  wi_drainers : count drainer (w_threads w) <= if s_draining (w_session w) then 1 else 0;
  wi_closers : count closer (w_threads w) = if s_closed (w_session w) && s_control (w_session w) then 1 else 0;
  wi_merges : merges (map written (w_threads w)) (w_stream w)
}.

Lemma count_app f ts ts' : count f (ts ++ ts') = count f ts + count f ts'.
Proof. unfold count. by rewrite List.filter_app, length_app. Qed.

Lemma threads_count_insert f ts i t t' : ts !! i = Some t →
  count f (<[i := t']> ts) + (if f t then 1 else 0) = count f ts + (if f t' then 1 else 0).
Proof.
  revert i. induction ts as [|x ts IH]; intros i Hi; [done|]. destruct i as [|i].
  - injection Hi as ->. unfold count. cbn. destruct (f t), (f t'); cbn; lia.
  - specialize (IH i Hi). change (<[S i := t']> (x :: ts)) with (x :: <[i := t']> ts). unfold count in *. cbn [List.filter].
    destruct (f x); cbn [length]; lia.
Qed.

Lemma scripts_kept s s' ts : (s_draining s = true → s_draining s' = true) → (s_closed s = true → s_closed s' = true) →
  Forall (script_ok s) ts → Forall (script_ok s') ts.
Proof.
  intros Hd Hc Hs. eapply Forall_impl; [exact Hs|]. intros t [?|[[? ?]|(code & msg & ? & ?)]]; [by left|right; left; auto|right; right; eauto].
Qed.

(** A goroutine with a new script. *)
Lemma spawn_inv w s' r : wired_inv w → session_ok s' → s_control_out s' = [] →
  s_control s' = s_control (w_session w) →
  (s_draining (w_session w) = true → s_draining s' = true) → (s_closed (w_session w) = true → s_closed s' = true) →
  ((r = [] ∧ (s_closed s' = s_closed (w_session w) ∨ s_control s' = false)) ∨
   (r = drain_events ∧ s_draining (w_session w) = false ∧ s_draining s' = true ∧ s_closed s' = s_closed (w_session w)) ∨
   (∃ code msg, r = close_events code msg ∧ s_closed (w_session w) = false ∧ s_closed s' = true ∧ s_control s' = true)) →
  wired_inv {| w_session := s'; w_threads := w_threads w ++ [Writer [] r]; w_stream := w_stream w |}.
Proof.
  intros [I1 I2 I3 I4 I5 I6] Hok Ho Hct Hd Hc Hr. constructor; cbn [w_session w_threads w_stream]; [done|done|..].
  - apply Forall_app. split; [by eapply scripts_kept|]. apply Forall_singleton. unfold script_ok. cbn.
    destruct Hr as [[? _]|[(? & _ & ? & _)|(code & msg & ? & _ & ? & _)]]; [auto|auto|right; right; eauto].
  - rewrite count_app. destruct Hr as [[-> _]|[(-> & E & E' & _)|(code & msg & -> & _)]]; cbn.
    + destruct (s_draining (w_session w)); [rewrite Hd by done|destruct (s_draining s')]; lia.
    + rewrite E in I4. rewrite E'. unfold count in *. cbn. lia.
    + unfold count in *. cbn. destruct (s_draining (w_session w)); [rewrite Hd by done|destruct (s_draining s')]; lia.
  - rewrite count_app, I5, <- Hct. destruct Hr as [[-> [-> | ->]]|[(-> & _ & _ & ->)|(code & msg & -> & -> & -> & ->)]]; cbn;
      rewrite ?andb_false_r, ?Nat.add_0_r; done.
  - rewrite map_app. by apply merges_add.
Qed.

(** A goroutine whose script changes from nothing, or not at all. *)
Lemma change_inv w s' i t t' out : wired_inv w → w_threads w !! i = Some t → session_ok s' → s_control_out s' = [] →
  s_control s' = s_control (w_session w) → s_closed s' = s_closed (w_session w) → (s_draining (w_session w) = true → s_draining s' = true) →
  script t' = script t ∨ (script t = [] ∧ script t' = drain_events ∧ s_draining (w_session w) = false ∧ s_draining s' = true) →
  merges (<[i := written t']> (map written (w_threads w))) out →
  wired_inv {| w_session := s'; w_threads := <[i := t']> (w_threads w); w_stream := out |}.
Proof.
  intros [I1 I2 I3 I4 I5 I6] Hi Hok Ho Hct Hc Hd Hs Hm.
  pose proof (Forall_lookup_1 _ _ _ _ I3 Hi) as Ht.
  assert (Forall (script_ok s') (w_threads w)) as I3' by (eapply scripts_kept; [done|by rewrite Hc|done]).
  pose proof (threads_count_insert drainer _ _ _ t' Hi) as Nd. pose proof (threads_count_insert closer _ _ _ t' Hi) as Nc.
  constructor; cbn [w_session w_threads w_stream]; [done|done|..|by rewrite list_fmap_insert].
  - apply Forall_insert; [done|]. pose proof (Forall_lookup_1 _ _ _ _ I3' Hi) as Ht'. unfold script_ok in *.
    destruct Hs as [-> |(_ & -> & _ & ?)]; auto.
  - destruct Hs as [Es|(E1 & E2 & E3 & E4)].
    + unfold drainer at 2 4 in Nd. rewrite Es in Nd. destruct (s_draining (w_session w)); [rewrite Hd by done|destruct (s_draining s')]; lia.
    + unfold drainer at 2 4 in Nd. rewrite E1, E2 in Nd. cbn in Nd. rewrite E3 in I4. rewrite E4. lia.
  - rewrite Hc, Hct. destruct Hs as [Es|(E1 & E2 & E3 & E4)].
    + unfold closer at 2 4 in Nc. rewrite Es in Nc. lia.
    + unfold closer at 2 4 in Nc. rewrite E1, E2 in Nc. cbn in Nc. lia.
Qed.

Lemma drain_swap_effect s s' evs : drain_swap s = Done (s', evs) →
  s_control_out s' = s_control_out s ∧ s_control s' = s_control s ∧ s_closed s' = s_closed s ∧ s_draining s' = true ∧
  (session_ok s → session_ok s') ∧ evs = (if negb (s_draining s) && s_control s then drain_events else []).
Proof.
  unfold drain_swap. destruct (s_draining s) eqn:Ed; [intros [= <- <-]; split_and!; auto|].
  destruct (EncodeDrainSessionCapsule _) as [[n buf]|] eqn:Ee; [|done]. cbn [mbind outcome_bind].
  destruct (s_control s) eqn:Ec; [|intros [= <- <-]; split_and!; auto].
  destruct (slice_to buf n) as [data|] eqn:Es; [|done]. intros [= <- <-]. rewrite (drain_data _ _ _ Ee Es). split_and!; auto.
Qed.

Lemma wired_step_inv w w' : wired_inv w → wired_step w w' → wired_inv w'.
Proof.
  intros Hw Hs. pose proof Hw as [I1 I2 I3 I4 I5 I6]. destruct Hs as [s' Hs|Hc|i s' evs Hi He|i d e r Hi].
  - pose proof (session_step_ok _ _ I1 Hs) as Hok. pose proof (session_step_effect _ _ Hs) as Hf. rewrite <- (app_nil_l (s_control_out s')).
    destruct Hf as [H1 H2 H3 H4|H1 H2 H3 H4 H5|code msg H1 H2 H3 H4 H5]; rewrite I2 in H1; rewrite H1; apply spawn_inv; cbn; try done;
      try (by rewrite H3); try (by rewrite H5); try congruence; auto.
    + destruct (s_control (w_session w)); [right; left|left]; auto.
    + destruct (s_control (w_session w)) eqn:Ect; [right; right|left]; eauto 10.
  - constructor; cbn [w_session w_threads w_stream]; [done|done|apply Forall_app; split; [done|by apply Forall_singleton; left]|..].
    + rewrite count_app. cbn. by rewrite Nat.add_0_r.
    + rewrite count_app. cbn. by rewrite Nat.add_0_r.
    + rewrite map_app. by apply merges_add.
  - destruct (drain_swap_effect _ _ _ He) as (E1 & E2 & E3 & E4 & E5 & E6). eapply (change_inv w s' i); [done|done|auto|congruence|done|done|done|..].
    + cbn. rewrite E6. destruct (s_draining (w_session w)), (s_control (w_session w)); cbn; auto.
    + cbn. rewrite list_insert_id; [done|]. by rewrite list_lookup_fmap, Hi.
  - eapply (change_inv w _ i); [done|done|done|done|done|done|done|..].
    + left. cbn. by rewrite <- app_assoc.
    + cbn. apply merges_snoc; [done|]. by rewrite list_lookup_fmap, Hi.
Qed.

Lemma wired_reach_inv id ctl w : wired_reach id ctl w → wired_inv w.
Proof.
  induction 1 as [|w w' _ IH Hs]; [|by eapply wired_step_inv]. constructor; cbn [w_session w_threads w_stream]; try done; try (cbn; lia); [apply session_ok_new|by apply merges_nil].
Qed.

(** The control stream is there from the beginning, or never. *)
Lemma wired_reach_control id ctl w : wired_reach id ctl w → s_control (w_session w) = ctl.
Proof.
  induction 1 as [|w w' _ <- Hs]; [done|]. destruct Hs as [s' Hs|Hc|i s' evs Hi He|i d e r Hi]; cbn [w_session detached s_control]; try done.
  - by destruct (session_step_effect _ _ Hs).
  - by destruct (drain_swap_effect _ _ _ He) as (_ & ? & _).
Qed.

End control.

(** ** Concrete runs *)

Module ControlSample.
#[local] Existing Instance RFC9000.varint.

Definition overtaken : wired :=
  {| w_session := detached (set_draining (set_closed (NewSession 4 true) 0 []) []);
     w_threads := [Writer drain_events []; Writer (close_events 0 []) []]; w_stream := close_events 0 [] ++ drain_events |}.

(** Call [i] of a reachable state acts. *)
Ltac writes R i := eapply wreach_step in R; [|eapply (wire_write _ i); reflexivity]; cbn in R.

(** A [Drain] that is overtaken by a close writes its capsule behind the CLOSE
    capsule, on a stream that is closed. *)
Lemma drain_after_close : wired_reach 4 true overtaken.
Proof.
  pose proof (wreach_new 4 true) as R. eapply wreach_step in R; [|by apply wire_drain].
  eapply wreach_step in R; [|apply wire_call; eapply (step_close _ 0 []); vm_compute; reflexivity]. cbn in R.
  writes R 1. writes R 1.
  eapply wreach_step in R; [|eapply (wire_swap _ 0); [reflexivity|vm_compute; reflexivity]]. cbn in R. writes R 0. exact R.
Qed.

End ControlSample.
