(* ===== verification/WebTransportOpen.v ===== *)
(** * Opening and using streams (src/webtransport/stream.go, session.go)

    A stream over the calls it makes on its raw stream, in their order, for every
    sequence of operations; and calls that open streams while the session is
    drained and closed by others: such a call tests two flags and then waits in
    the transport. *)

From S2P Require Import Prelude GoLib WebTransportCapsule WebTransportSession.

#[local] Open Scope Z_scope.

(** ** What a stream does with its raw stream *)

(** The calls of [RawStream], [RawSendStream] and [RawReceiveStream] that change it. *)
Inductive raw_call :=
  | RawWrite (data : bytes)
  | RawClose
  | RawCancelRead (code : Z)
  | RawCancelWrite (code : Z)
  | RawDeadline (read write : bool) (t : Z).

(** [SendStream] with the calls it has made. *)
Record SendStream := { ss_sessionID : Z; ss_streamID : Z; ss_headerWritten : bool; ss_closed : bool; ss_log : list raw_call }.

Definition newSendStream (sessionID streamID : Z) : SendStream :=
  {| ss_sessionID := sessionID; ss_streamID := streamID; ss_headerWritten := false; ss_closed := false; ss_log := [] |}.

Definition log (s : SendStream) (hw closed : bool) (cs : list raw_call) : SendStream :=
  {| ss_sessionID := ss_sessionID s; ss_streamID := ss_streamID s; ss_headerWritten := hw; ss_closed := closed; ss_log := ss_log s ++ cs |}.

Section operations.
Context {V : Varint}.

Definition send_header (s : SendStream) : bytes := vi_append StreamTypeWebTransportUni ++ vi_append (ss_sessionID s).

(** [ans] is the answer of the raw stream. *)
Definition Write (s : SendStream) (p : bytes) (ans : write_answer) : SendStream * (nat * option wt_error) :=
  if ss_closed s then (s, (0%nat, Some ErrStreamClosed))
  else if negb (ss_headerWritten s) then
    let hdrLen := length (send_header s) in
    let '(n, err) := ans in
    (log s true false [RawWrite (send_header s ++ p)], (if (hdrLen <? n)%nat then (n - hdrLen)%nat else 0%nat, err))
  else (log s true false [RawWrite p], ans).

Definition Close (s : SendStream) (ans : option wt_error) : SendStream * option wt_error :=
  if ss_closed s then (s, None) else (log s (ss_headerWritten s) true [RawClose], ans).

Definition CancelWrite (s : SendStream) (code : Z) : SendStream :=
  log s (ss_headerWritten s) (ss_closed s) [RawCancelWrite (WebTransportCodeToHTTPCode code)].

Inductive send_op := OpWrite (p : bytes) (ans : write_answer) | OpClose (ans : option wt_error) | OpCancel (code : Z).

Definition do_op (s : SendStream) (o : send_op) : SendStream :=
  match o with
  | OpWrite p ans => (Write s p ans).1
  | OpClose ans => (Close s ans).1
  | OpCancel code => CancelWrite s code
  end.

(** The payloads written before the first close. *)
Fixpoint payloads (ops : list send_op) : list bytes :=
  match ops with
  | OpWrite p _ :: ops' => p :: payloads ops'
  | OpCancel _ :: ops' => payloads ops'
  | OpClose _ :: _ | [] => []
  end.

Definition closes (ops : list send_op) : bool := existsb (λ o, match o with OpClose _ => true | _ => false end) ops.

Definition data (l : list raw_call) : list bytes := omap (λ c, match c with RawWrite d => Some d | _ => None end) l.
Definition close_calls (l : list raw_call) : nat := length (List.filter (λ c, match c with RawClose => true | _ => false end) l).
Definition cancel_codes (l : list raw_call) : list (option Z) :=
  omap (λ c, match c with RawCancelWrite z => Some (HTTPCodeToWebTransportCode z) | _ => None end) l.
Definition codes (ops : list send_op) : list Z := omap (λ o, match o with OpCancel c => Some c | _ => None end) ops.

(** The data of a run from a stream that may have sent its header. *)
Definition wire (hw : bool) (hdr : bytes) (ps : list bytes) : list bytes :=
  match ps with [] => [] | p :: ps' => (if hw then p else hdr ++ p) :: ps' end.

Lemma data_app l k : data (l ++ k) = data l ++ data k.
Proof. apply omap_app. Qed.

Lemma close_calls_app l k : close_calls (l ++ k) = (close_calls l + close_calls k)%nat.
Proof. unfold close_calls. by rewrite List.filter_app, length_app. Qed.

Lemma run_log ops : ∀ s, Forall (λ c, 0 <= c < 2 ^ 32) (codes ops) →
  let s' := foldl do_op s ops in
  ss_closed s' = ss_closed s || closes ops ∧
  data (ss_log s') = data (ss_log s) ++ (if ss_closed s then [] else wire (ss_headerWritten s) (send_header s) (payloads ops)) ∧
  close_calls (ss_log s') = (close_calls (ss_log s) + if negb (ss_closed s) && closes ops then 1 else 0)%nat ∧
  cancel_codes (ss_log s') = cancel_codes (ss_log s) ++ map Some (codes ops).
Proof.
  induction ops as [|o ops IH]; intros s Hc; cbn zeta; cbn [foldl].
  - cbn. rewrite orb_false_r, andb_false_r, !app_nil_r. split_and!; [done| |lia|done]. destruct (ss_closed s); by rewrite app_nil_r.
  - assert (Forall (λ c, 0 <= c < 2 ^ 32) (codes ops)) as Hc'.
    { destruct o; [done..|]. by apply Forall_cons in Hc as [_ Hc]. }
    destruct (IH (do_op s o) Hc') as (I1 & I2 & I3 & I4). rewrite I1, I2, I3, I4. clear IH I1 I2 I3 I4.
    destruct o as [p [n err]|ans|code]; cbn [do_op]; unfold Write, Close, CancelWrite.
    + destruct (ss_closed s) eqn:Ec; [by cbn; rewrite Ec|]. destruct (ss_headerWritten s) eqn:Eh; cbn [negb fst log ss_closed ss_log ss_headerWritten];
        unfold cancel_codes; rewrite data_app, close_calls_app, omap_app; cbn [payloads codes closes existsb omap list_omap]; cbn;
        (split_and!; [done| |by rewrite Nat.add_0_r|by rewrite app_nil_r]); rewrite <- app_assoc; cbn; unfold wire; rewrite ?Eh; by destruct (payloads ops).
    + destruct (ss_closed s) eqn:Ec; cbn [fst log ss_closed ss_log ss_headerWritten]; [by rewrite Ec|]. unfold cancel_codes. rewrite data_app, close_calls_app, omap_app. cbn.
      split_and!; [done|by rewrite !app_nil_r|by rewrite Nat.add_0_r|by rewrite app_nil_r].
    + cbn [log ss_closed ss_log ss_headerWritten]. unfold cancel_codes. rewrite data_app, close_calls_app, omap_app. cbn.
      assert (HTTPCodeToWebTransportCode (WebTransportCodeToHTTPCode code) = Some code) as ->.
      { apply Forall_cons in Hc as [Hc _]. by apply (proj1 (error_code_bijection code 0)). }
      split_and!; [done|by rewrite app_nil_r|by rewrite Nat.add_0_r|by rewrite <- app_assoc].
Qed.
(** C40: whatever is done to a send stream, the raw stream gets the header once in
    front of the first payload, the payloads written before the close in their
    order and nothing after it, at most one close, and every cancel with a code
    that maps back to the one given. *)
Theorem send_stream_wire sid id ops : Forall (λ c, 0 <= c < 2 ^ 32) (codes ops) →
  let s := foldl do_op (newSendStream sid id) ops in
  concat (data (ss_log s)) = (match payloads ops with [] => [] | _ => send_header s end) ++ concat (payloads ops) ∧
  close_calls (ss_log s) = (if closes ops then 1 else 0)%nat ∧ cancel_codes (ss_log s) = map Some (codes ops).
Proof.
  intros Hc. cbn zeta. destruct (run_log ops (newSendStream sid id) Hc) as (_ & H2 & H3 & H4). rewrite H2, H3, H4. split; [|done].
  assert (∀ s, ss_sessionID (foldl do_op s ops) = ss_sessionID s) as Hid.
  { clear. induction ops as [|o ops IH]; intros s; [done|]. cbn [foldl]. rewrite IH.
    destruct o as [p [n e]|ans|c]; cbn; unfold Write, Close; destruct (ss_closed s); try done. by destruct (negb _). }
  unfold send_header. rewrite Hid. cbn. destruct (payloads ops); [done|]. cbn. by rewrite <- app_assoc.
Qed.

(** The operations on the log are those on the streams of [WebTransportSession]. *)
Definition as_stream (s : SendStream) : Stream :=
  {| st_sessionID := ss_sessionID s; st_streamID := ss_streamID s; st_isClient := true; st_headerWritten := ss_headerWritten s;
     st_closed := ss_closed s; st_raw := data (ss_log s); st_raw_closes := close_calls (ss_log s);
     st_cancels := omap (λ c, match c with RawCancelWrite z => Some z | _ => None end) (ss_log s) |}.

Lemma write_agrees s p ans : (Write s p ans).2 = (SendStream_Write (as_stream s) p ans).2 ∧
  as_stream (Write s p ans).1 = (SendStream_Write (as_stream s) p ans).1.
Proof.
  destruct s as [sid id hw [] l], ans as [n e]; [done|]. unfold Write, SendStream_Write, header_write, raw_write, as_stream.
  cbn [ss_closed ss_headerWritten st_closed st_headerWritten]. destruct hw; cbn [negb fst snd]; (split; [done|]);
    cbn [log ss_log ss_sessionID ss_streamID ss_headerWritten ss_closed st_sessionID st_streamID st_isClient st_closed st_raw st_raw_closes st_cancels];
    rewrite data_app, close_calls_app, omap_app; cbn; by rewrite Nat.add_0_r, app_nil_r.
Qed.
End operations.

(** *** The rest of [net.Conn]

    A bidirectional stream passes its deadlines and cancels on, closed or not, and
    answers with an address that names neither session nor stream. *)

Definition SetDeadline (s : Stream) (t : Z) : list raw_call := [RawDeadline true true t].
Definition SetReadDeadline (s : Stream) (t : Z) : list raw_call := [RawDeadline true false t].
Definition SetWriteDeadline (s : Stream) (t : Z) : list raw_call := [RawDeadline false true t].
Definition Stream_CancelWrite (s : Stream) (code : Z) : list raw_call := [RawCancelWrite (WebTransportCodeToHTTPCode code)].
Definition ReceiveStream_CancelRead (s : ReceiveStream) (code : Z) : list raw_call := [RawCancelRead (WebTransportCodeToHTTPCode code)].

Record wtAddr := { a_sessionID : Z }.
Definition Network (a : wtAddr) : bytes := str "webtransport".
Definition String_ (a : wtAddr) : bytes := str "webtransport:session".
Definition LocalAddr (s : Stream) : wtAddr := {| a_sessionID := st_sessionID s |}.
Definition RemoteAddr (s : Stream) : wtAddr := {| a_sessionID := st_sessionID s |}.

(** ** Opening while others drain and close *)

Section opening.
Context {V : Varint}.

(** A call of [OpenStream], [OpenStreamSync] or their unidirectional forms:
    before the test of [closed], before the test of [draining], in the
    transport, or returned. [late] records that the session was already closed or
    draining when the call began. *)
Inductive opener_pc := Enter | NotClosed | InTransport | Opened (id : Z) | Failed (e : wt_error).
Record opener := { op_pc : opener_pc; op_late : bool }.

Record opening := { og_session : Session; og_calls : list opener }.

Definition set_call (st : opening) (i : nat) (c : opener) (p : opener_pc) : opening :=
  {| og_session := og_session st; og_calls := <[i := {| op_pc := p; op_late := op_late c |}]> (og_calls st) |}.

(** One action of a call. The transport answers when the peer allows another
    stream, or with an error, such as that of the caller's context. *)
Inductive open_step (st : opening) (i : nat) (c : opener) : opening → Prop :=
  | open_closed : op_pc c = Enter → s_closed (og_session st) = true → open_step st i c (set_call st i c (Failed ErrSessionClosed))
  | open_alive : op_pc c = Enter → s_closed (og_session st) = false → open_step st i c (set_call st i c NotClosed)
  | open_draining : op_pc c = NotClosed → s_draining (og_session st) = true → open_step st i c (set_call st i c (Failed ErrSessionDraining))
  | open_ask : op_pc c = NotClosed → s_draining (og_session st) = false → open_step st i c (set_call st i c InTransport)
  | open_stream id : op_pc c = InTransport → open_step st i c (set_call st i c (Opened id))
  | open_refused : op_pc c = InTransport → open_step st i c (set_call st i c (Failed ErrTransportFailed)).

Definition unavailable (s : Session) : bool := s_closed s || s_draining s.

Inductive opening_step (st : opening) : opening → Prop :=
  | step_call : opening_step st {| og_session := og_session st; og_calls := og_calls st ++ [{| op_pc := Enter; op_late := unavailable (og_session st) |}] |}
  | step_open i c st' : og_calls st !! i = Some c → open_step st i c st' → opening_step st st'
  | step_session s' : session_step (og_session st) s' → opening_step st {| og_session := s'; og_calls := og_calls st |}.

Inductive opening_reach (s0 : Session) : opening → Prop :=
  | oreach_start : opening_reach s0 {| og_session := s0; og_calls := [] |}
  | oreach_step st st' : opening_reach s0 st → opening_step st st' → opening_reach s0 st'.

(** The flags of a session are never taken back. *)
Definition flags_kept (s s' : Session) : Prop :=
  (s_closed s = true → s_closed s' = true) ∧ (s_draining s = true → s_draining s' = true).

Lemma flags_same s s' : s_closed s' = s_closed s → s_draining s' = s_draining s → flags_kept s s'.
Proof. intros H1 H2. split; congruence. Qed.

Lemma close_flags s code msg s' : CloseWithError s code msg = Done s' → flags_kept s s'.
Proof.
  unfold CloseWithError. destruct (s_closed s) eqn:Ec; [intros [= <-]; by apply flags_same|].
  destruct (EncodeCloseSessionCapsule _ _) as [[n buf]|]; [|done]. cbn. destruct (s_control s); [|by intros [= <-]].
  destruct (slice_to buf n); [|done]. cbn. by intros [= <-].
Qed.

Lemma control_flags s st s' r : control_step s st = Done (s', r) → flags_kept s s'.
Proof.
  unfold control_step. destruct (read_varint st) as [[t st1]|]; [|by intros [= <- _]].
  destruct (read_varint st1) as [[n st2]|]; [|by intros [= <- _]]. destruct (max_payload <? n); [by intros [= <- _]|].
  cbv zeta. destruct (_ <? _)%nat; [by intros [= <- _]|]. destruct (t =? _); [by intros [= <- _]|]. destruct (t =? _); [|by intros [= <- _]].
  destruct (Session_Close _) as [s2|] eqn:E; [|done]. cbn. intros [= <- _]. apply close_flags in E as [E1 E2].
  destruct (DecodeCloseSessionPayloadTo _); by split.
Qed.

Lemma session_step_flags s s' : session_step s s' → flags_kept s s'.
Proof.
  intros [ans s1 e Hd|code msg s1 Hc|b s1 r Ha|b s1 r Ha|b s1 r Ha|str b s1 r He|str b s1 r He|d|p ans| |st s1 r Hc];
    [| |unfold AcceptStream in Ha|unfold AcceptUniStream in Ha|unfold ReceiveDatagram in Ha|unfold EnqueueBidiStream in He|unfold EnqueueUniStream in He|..].
  - unfold Drain in Hd. destruct (s_closed s) eqn:Ec; [by injection Hd as <- _|]. destruct (s_draining s) eqn:Ed; [by injection Hd as <- _|].
    split; congruence.
  - by eapply close_flags.
  - repeat case_match; simplify_eq; by apply flags_same.
  - repeat case_match; simplify_eq; by apply flags_same.
  - repeat case_match; simplify_eq; by apply flags_same.
  - repeat case_match; simplify_eq; by apply flags_same.
  - repeat case_match; simplify_eq; by apply flags_same.
  - unfold EnqueueDatagram. repeat case_match; by apply flags_same.
  - unfold SendDatagram. repeat case_match; by apply flags_same.
  - by apply flags_same.
  - by eapply control_flags.
Qed.

(** A call that began late has not passed the tests, and a call that was refused
    for the state of the session found it in that state. *)
Definition opener_ok (s : Session) (c : opener) : Prop :=
  (op_late c = true → unavailable s = true) ∧
  match op_pc c with
  | Enter => True
  | NotClosed => op_late c = true → s_draining s = true
  | InTransport | Opened _ => op_late c = false
  | Failed ErrSessionClosed => s_closed s = true
  | Failed ErrSessionDraining => s_draining s = true
  | Failed _ => op_late c = false
  end.

Lemma opener_ok_kept s s' c : flags_kept s s' → opener_ok s c → opener_ok s' c.
Proof.
  intros [K1 K2] [H1 H2]. split.
  - intros Hl. specialize (H1 Hl). unfold unavailable in *. apply orb_true_iff. apply orb_true_iff in H1 as [H1|H1]; auto.
  - destruct (op_pc c) as [| | | |[]]; try done; auto.
Qed.

Lemma open_step_ok st i c st' : opener_ok (og_session st) c → open_step st i c st' →
  og_session st' = og_session st ∧ ∃ c', og_calls st' = <[i := c']> (og_calls st) ∧ opener_ok (og_session st) c'.
Proof.
  intros [H1 H2] Hs. unfold unavailable in H1.
  destruct Hs as [Hp Hf|Hp Hf|Hp Hf|Hp Hf|id Hp|Hp]; (split; [done|]); eexists; (split; [reflexivity|]); rewrite Hp in H2; (split; [exact H1|]); cbn; try done.
  - intros Hl. specialize (H1 Hl). rewrite Hf in H1. exact H1.
  - destruct (op_late c); [|done]. specialize (H2 eq_refl). congruence.
Qed.

Lemma opening_ok s0 st : opening_reach s0 st → ∀ i c, og_calls st !! i = Some c → opener_ok (og_session st) c.
Proof.
  induction 1 as [|st st' _ IH Hs]; [done|]. destruct Hs as [|j cj st' Hj Hs|s' Hs]; intros i c; cbn [og_calls og_session].
  - rewrite lookup_app_Some. intros [Hi|[_ Hi]]; [by apply (IH i)|]. apply list_lookup_singleton_Some in Hi as [_ <-]. by split.
  - destruct (open_step_ok st j cj st' (IH j cj Hj) Hs) as (-> & c' & -> & Hc'). intros [[_ ->]|[_ Hi]]%lookup_insert_cases; [done|by apply (IH i)].
  - intros Hi. eapply opener_ok_kept; [by apply session_step_flags|by apply (IH i)].
Qed.

(** A call that begins when the session is closed or draining opens no stream
    and does not reach the transport; the errors for a closed and for a draining session are
    returned only in those states. *)
Theorem late_open_refused s0 st i c : opening_reach s0 st → og_calls st !! i = Some c →
  (op_late c = true → op_pc c ≠ InTransport ∧ ∀ id, op_pc c ≠ Opened id) ∧
  (op_pc c = Failed ErrSessionClosed → s_closed (og_session st) = true) ∧
  (op_pc c = Failed ErrSessionDraining → s_draining (og_session st) = true).
Proof.
  intros Hr Hi. destruct (opening_ok s0 st Hr i c Hi) as [_ H2]. destruct (op_pc c) as [| | | |[]]; split_and!; try done; intros Hl;
    try (split; done); congruence.
Qed.

(** A call that waits in the transport is not told when the session drains or
    closes: it opens a stream of a session whose DRAIN and CLOSE capsules are
    already on their way. *)
Theorem open_outlives_session sid id dlen dbuf clen cbuf :
  EncodeDrainSessionCapsule (replicate 16 x00) = Done (dlen, dbuf) → (dlen <= length dbuf)%nat →
  EncodeCloseSessionCapsule {| ApplicationErrorCode := 0; ErrorMessage := [] |} (replicate 512 x00) = Done (clen, cbuf) → (clen <= length cbuf)%nat →
  ∃ st, opening_reach (NewSession sid true) st ∧ s_closed (og_session st) = true ∧ s_draining (og_session st) = true ∧
    s_control_out (og_session st) = [ControlWrite (take dlen dbuf); ControlWrite (take clen cbuf); ControlClose] ∧
    (∃ c, og_calls st !! 0%nat = Some c ∧ op_pc c = InTransport ∧ open_step st 0 c (set_call st 0 c (Opened id))).
Proof.
  intros Ed Hd Ec Hc.
  assert (∀ buf n, (n <= length buf)%nat → slice_to buf n = Done (take n buf)) as Hslice.
  { intros buf n Hn. unfold slice_to. destruct (_ <? _)%nat eqn:E; bools; [lia|done]. }
  pose proof (oreach_start (NewSession sid true)) as H0.
  eapply oreach_step in H0; [|apply step_call].
  eapply oreach_step in H0; [|eapply (step_open _ 0); [reflexivity|]; by apply open_alive].
  eapply oreach_step in H0; [|eapply (step_open _ 0); [reflexivity|]; by apply open_ask].
  eapply oreach_step in H0; [|apply step_session; eapply (step_drain _ None)].
  2:{ unfold Drain. cbn [s_closed s_draining og_session set_call NewSession]. rewrite Ed. cbn [mbind]. cbn. rewrite Hslice by done. reflexivity. }
  eapply oreach_step in H0; [|apply step_session; eapply (step_close _ 0 [])].
  2:{ unfold CloseWithError. cbn [s_closed og_session set_draining]. rewrite Ec. cbn. rewrite Hslice by done. reflexivity. }
  eexists. split; [exact H0|]. cbn. split_and!; [done..|]. eexists. split; [reflexivity|]. split; [done|]. by apply open_stream.
Qed.
End opening.

(** ** Concrete runs *)

Module OpenSample.
#[local] Existing Instance RFC9000.varint.

Definition ops : list send_op := [OpWrite (str "a") (4%nat, None); OpCancel 30; OpWrite (str "bc") (2%nat, None); OpClose None; OpWrite (str "d") (0%nat, None); OpClose None].

Lemma send_stream_wire_witness :
  concat (data (ss_log (foldl do_op (newSendStream 4 7) ops))) = [x40; x54; x04] ++ str "abc" ∧
  close_calls (ss_log (foldl do_op (newSendStream 4 7) ops)) = 1%nat.
Proof.
  destruct (send_stream_wire 4 7 ops) as (H1 & H2 & _); [by repeat constructor|]. split; [|exact H2]. rewrite H1. vm_compute. reflexivity.
Defined.

(** A call that finds the session closed. *)
Definition closed_session : Session := default (NewSession 4 false) (match CloseWithError (NewSession 4 false) 0 [] with Done s => Some s | Panic => None end).
Definition late_call : opener := {| op_pc := Failed ErrSessionClosed; op_late := true |}.
Definition refused : opening := {| og_session := closed_session; og_calls := [late_call] |}.

Lemma late_open_refused_witness : opening_reach (NewSession 4 false) refused ∧ op_pc late_call ≠ InTransport.
Proof.
  assert (opening_reach (NewSession 4 false) refused) as Hr.
  { eapply oreach_step; [eapply oreach_step; [eapply oreach_step; [apply oreach_start|]|]|].
    - apply step_session. eapply (step_close _ 0 []). vm_compute. reflexivity.
    - apply step_call.
    - eapply (step_open _ 0); [reflexivity|]. by apply open_closed. }
  split; [exact Hr|]. exact (proj1 (proj1 (late_open_refused (NewSession 4 false) refused 0 late_call Hr eq_refl) eq_refl)).
Defined.

Lemma open_outlives_session_witness : ∃ st, opening_reach (NewSession 4 true) st ∧ s_closed (og_session st) = true ∧
  ∃ c, og_calls st !! 0%nat = Some c ∧ open_step st 0 c (set_call st 0 c (Opened 8)).
Proof.
  edestruct (open_outlives_session 4 8) as (st & H1 & H2 & _ & _ & c & H3 & _ & H4);
    [vm_compute; reflexivity|by apply Nat.leb_le|vm_compute; reflexivity|by apply Nat.leb_le|].
  exists st. split; [exact H1|]. split; [exact H2|]. exists c. split; [exact H3|exact H4].
Defined.
End OpenSample.
