(* ===== verification/WebTransportRaces.v ===== *)
(** * WebTransport: the interleavings of delivery, close and write
    (src/webtransport/session.go, stream.go)

    Incoming streams are delivered by goroutines that hold the read lock while
    they wait for room in the channel; [CloseWithError] needs the write lock
    before it cancels the context those goroutines also wait for.  The first
    write of an outgoing stream prepares its buffer under a mutex and hands it
    to the raw stream after releasing it.  Both are step relations over the
    program counters of the goroutines involved. *)

From S2P Require Import Prelude GoLib WebTransportCapsule WebTransportSession.

#[local] Open Scope Z_scope.

(** ** Delivering and closing *)

Module Delivery.

(** A goroutine in [EnqueueBidiStream]: before [RLock], holding the read lock
    before the test of [closed], in the [select], after [RUnlock]. *)
Inductive producer := PStart | PLocked | PSelect | PDone.

(** A goroutine in [CloseWithError]: before the compare-and-swap, after it, blocked in
    [Lock] (which keeps new readers out), holding the lock, after [Unlock],
    after [cancel]. *)
Inductive closer := CStart | CFlagged | CWaiting | CLocked | CUnlocked | CCancelled.

Record delivery_state := {
  queue : nat;              (* streams in the channel *)
  closed : bool;            (* the atomic flag *)
  chans_closed : bool;
  ctx_done : bool;
  producers : list producer;
  cl : closer;
  sent_on_closed : bool     (* a send on a closed channel: the program panics *)
}.

Definition start : delivery_state :=
  {| queue := 0; closed := false; chans_closed := false; ctx_done := false; producers := [];
     cl := CStart; sent_on_closed := false |}.

Definition holds_read_lock (p : producer) : bool :=
  match p with PLocked | PSelect => true | _ => false end.

Definition set_producer (s : delivery_state) (i : nat) (p : producer) : delivery_state :=
  {| queue := queue s; closed := closed s; chans_closed := chans_closed s;
     ctx_done := ctx_done s; producers := <[i := p]> (producers s); cl := cl s;
     sent_on_closed := sent_on_closed s |}.

Definition send (s : delivery_state) (i : nat) : delivery_state :=
  {| queue := S (queue s); closed := closed s; chans_closed := chans_closed s;
     ctx_done := ctx_done s; producers := <[i := PDone]> (producers s); cl := cl s;
     sent_on_closed := sent_on_closed s || chans_closed s |}.

Definition set_closer (s : delivery_state) (c : closer) (flag chans ctx : bool) : delivery_state :=
  {| queue := queue s; closed := flag; chans_closed := chans; ctx_done := ctx;
     producers := producers s; cl := c; sent_on_closed := sent_on_closed s |}.

Definition set_queue (s : delivery_state) (n : nat) : delivery_state :=
  {| queue := n; closed := closed s; chans_closed := chans_closed s; ctx_done := ctx_done s;
     producers := producers s; cl := cl s; sent_on_closed := sent_on_closed s |}.

Definition arrive (s : delivery_state) : delivery_state :=
  {| queue := queue s; closed := closed s; chans_closed := chans_closed s;
     ctx_done := ctx_done s; producers := producers s ++ [PStart]; cl := cl s;
     sent_on_closed := sent_on_closed s |}.

(** Who moved: a delivering goroutine, the closing one, the application taking
    a stream from the channel, or someone outside cancelling the context. *)
Inductive actor := Producer | Closer | Acceptor | Outside.

(** [EnqueueBidiStream] in the goroutine at index [i]. *)
Inductive producer_step (s : delivery_state) (i : nat) : delivery_state → Prop :=
| p_rlock : producers s !! i = Some PStart → cl s ≠ CWaiting → cl s ≠ CLocked →
    producer_step s i (set_producer s i PLocked)
| p_closed : producers s !! i = Some PLocked → closed s = true →
    producer_step s i (set_producer s i PDone)
| p_select : producers s !! i = Some PLocked → closed s = false →
    producer_step s i (set_producer s i PSelect)
| p_send : producers s !! i = Some PSelect → (queue s < stream_capacity)%nat ∨ chans_closed s = true →
    producer_step s i (send s i)
| p_ctx : producers s !! i = Some PSelect → ctx_done s = true →
    producer_step s i (set_producer s i PDone).

(** [CloseWithError] up to [cancel]. *)
Inductive closer_step (s : delivery_state) : delivery_state → Prop :=
| c_swap : cl s = CStart →
    closer_step s (set_closer s CFlagged true (chans_closed s) (ctx_done s))
| c_wait : cl s = CFlagged →
    closer_step s (set_closer s CWaiting (closed s) (chans_closed s) (ctx_done s))
| c_lock : cl s = CWaiting → existsb holds_read_lock (producers s) = false →
    closer_step s (set_closer s CLocked (closed s) (chans_closed s) (ctx_done s))
| c_close : cl s = CLocked →
    closer_step s (set_closer s CUnlocked (closed s) true (ctx_done s))
| c_cancel : cl s = CUnlocked →
    closer_step s (set_closer s CCancelled (closed s) (chans_closed s) true).

Inductive delivery_step (s : delivery_state) : actor → delivery_state → Prop :=
| d_arrive : delivery_step s Producer (arrive s)
| d_producer i s' : producer_step s i s' → delivery_step s Producer s'
| d_closer s' : closer_step s s' → delivery_step s Closer s'
| d_accept n : queue s = S n → delivery_step s Acceptor (set_queue s n)
| d_outside : delivery_step s Outside (set_closer s (cl s) (closed s) (chans_closed s) true).

Inductive reach (P : actor → Prop) (s0 : delivery_state) : delivery_state → Prop :=
| reach_refl : reach P s0 s0
| reach_next s a s' : reach P s0 s → P a → delivery_step s a s' → reach P s0 s'.

Definition anyone (a : actor) : Prop := True.

(** *** No send on a closed channel *)

Definition inv (s : delivery_state) : Prop :=
  (cl s ≠ CStart → closed s = true) ∧
  (chans_closed s = true → closed s = true ∧ ∀ i, producers s !! i ≠ Some PSelect) ∧
  (cl s = CLocked → ∀ i p, producers s !! i = Some p → holds_read_lock p = false) ∧
  sent_on_closed s = false.

Lemma set_producer_inv s i p :
  inv s → (p = PSelect → closed s = false) → (holds_read_lock p = true → cl s ≠ CLocked) →
  inv (set_producer s i p).
Proof.
  intros (I1 & I2 & I3 & I4) Hp Hl. split_and!; simpl; try done.
  - intros Hc. destruct (I2 Hc) as [Hcl Hn]. split; [done|]. intros j Hj.
    apply lookup_insert_cases in Hj as [[_ <-]|[_ Hj]]; [|by eapply Hn].
    rewrite Hp in Hcl; done.
  - intros Hc j q Hj. apply lookup_insert_cases in Hj as [[_ ->]|[_ Hj]]; [|by eapply I3].
    destruct (holds_read_lock p); [by destruct Hl|done].
Qed.

Lemma existsb_lookup (f : producer → bool) l i p :
  existsb f l = false → l !! i = Some p → f p = false.
Proof.
  intros Hf Hl. destruct (f p) eqn:E; [|done].
  apply list_elem_of_lookup_2 in Hl. rewrite <- not_true_iff_false in Hf. destruct Hf.
  apply existsb_exists. exists p. split; [by apply list_elem_of_In|done].
Qed.

Lemma delivery_step_inv s a s' : inv s → delivery_step s a s' → inv s'.
Proof.
  intros I Hst. pose proof I as (I1 & I2 & I3 & I4).
  destruct Hst as [|i s' Hst|s' Hst|n Hq|];
    [|destruct Hst as [Hi W L|Hi Hc|Hi Hc|Hi Hq|Hi Hc]|destruct Hst as [Hc|Hc|Hc Hp|Hc|Hc]| |].
  - split_and!; simpl; try done.
    + intros Hc. destruct (I2 Hc) as [? Hn]. split; [done|]. intros i Hi.
      apply lookup_app_Some in Hi as [Hi|[_ Hi]]; [by eapply Hn|].
      apply list_lookup_singleton_Some in Hi as [_ [=]].
    + intros Hc i p Hi. apply lookup_app_Some in Hi as [Hi|[_ Hi]]; [by eapply I3|].
      by apply list_lookup_singleton_Some in Hi as [_ <-].
  - by apply set_producer_inv.
  - by apply set_producer_inv.
  - apply set_producer_inv; try done. intros _ Hcl. by specialize (I3 Hcl _ _ Hi).
  - assert (chans_closed s = false) as Ho.
    { destruct (chans_closed s); [|done]. by destruct (I2 eq_refl) as [_ Hn]; destruct (Hn i). }
    pose proof (set_producer_inv s i PDone I) as (J1 & J2 & J3 & J4); [done..|].
    split_and!; simpl in *; try done. by rewrite Ho, I4.
  - by apply set_producer_inv.
  - split_and!; simpl; try done. intros Hch. by destruct (I2 Hch).
  - split_and!; simpl; try done. intros _. apply I1. by rewrite Hc.
  - split_and!; simpl; try done.
    + intros _. apply I1. by rewrite Hc.
    + intros _ i p Hi. by eapply existsb_lookup.
  - assert (closed s = true) as Hcl by (apply I1; by rewrite Hc).
    split_and!; simpl; try done. intros _. split; [done|].
    intros i Hi. by specialize (I3 Hc _ _ Hi).
  - split_and!; simpl; try done. intros _. apply I1. by rewrite Hc.
  - by split_and!.
  - by split_and!.
Qed.

(** C19: however deliveries, the close and outside cancellation interleave, no
    stream is ever sent on the closed channel, which would panic. *)
Theorem no_send_on_closed_channel (s : delivery_state) (H : reach anyone start s) :
  sent_on_closed s = false.
Proof.
  assert (inv s) as (_ & _ & _ & ?); [|done].
  induction H as [|s a s' _ IH _ Hst]; [by repeat split|]. by eapply delivery_step_inv.
Qed.

(** *** A full channel blocks the close *)

Definition blocked (s : delivery_state) : Prop :=
  cl s = CWaiting ∧ ctx_done s = false ∧ chans_closed s = false ∧
  queue s = stream_capacity ∧ ∃ i, producers s !! i = Some PSelect.

(** Everybody but the application (taking a stream) and the outside. *)
Definition session_itself (a : actor) : Prop := a = Producer ∨ a = Closer.

Lemma blocked_step s a s' : blocked s → session_itself a → delivery_step s a s' → blocked s'.
Proof.
  intros (B1 & B2 & B3 & B4 & i & B5) Ha Hst.
  assert (keep : ∀ j p, (i = j → producers s !! j = Some PSelect → False) →
     blocked (set_producer s j p)).
  { intros j p Hj. unfold blocked. simpl. split_and!; try done. exists i.
    rewrite list_lookup_insert_ne; [done|]. intros ->. by apply Hj. }
  destruct Hst as [|j s' Hst|s' Hst|n Hq|];
    [|destruct Hst as [Hj W L|Hj Hc|Hj Hc|Hj Hq|Hj Hc]|destruct Hst as [Hc|Hc|Hc Hp|Hc|Hc]| |];
    try congruence.
  - unfold blocked. simpl. split_and!; try done. exists i. by apply lookup_app_l_Some.
  - apply keep. congruence.
  - apply keep. congruence.
  - destruct Hq; [lia|congruence].
  - by specialize (existsb_lookup _ _ _ _ Hp B5).
  - by destruct Ha.
  - by destruct Ha.
Qed.

(** One stream delivered while nothing is closing. *)
Lemma deliver s :
  cl s = CStart → closed s = false → chans_closed s = false → (queue s < stream_capacity)%nat →
  ∃ s', (∀ s0, reach session_itself s0 s → reach session_itself s0 s') ∧
        queue s' = S (queue s) ∧ cl s' = CStart ∧ closed s' = false ∧
        chans_closed s' = false ∧ ctx_done s' = ctx_done s.
Proof.
  intros Hc Hf Hch Hq. set (k := length (producers s)).
  assert (Hk : ∀ p, <[k := p]> (producers s ++ [PStart]) !! k = Some p).
  { intros p. apply list_lookup_insert_eq. rewrite length_app. simpl. lia. }
  exists (send (set_producer (set_producer (arrive s) k PLocked) k PSelect) k).
  split; [|by simpl]. intros s0 R.
  eapply reach_next; [|by left|apply (d_producer _ (length (producers s))), p_send].
  2:{ simpl. apply list_lookup_insert_eq. rewrite length_insert, length_app. simpl. lia. }
  2:{ by left. }
  eapply reach_next; [|by left|apply (d_producer _ (length (producers s))), p_select; [|done]].
  2:{ simpl. apply Hk. }
  eapply reach_next; [|by left|apply (d_producer _ (length (producers s))), p_rlock]; simpl; try (by rewrite Hc).
  - eapply reach_next; [done|by left|apply d_arrive].
  - by apply list_lookup_middle.
Qed.

Lemma fill n : (n <= stream_capacity)%nat →
  ∃ s, reach session_itself start s ∧ queue s = n ∧ cl s = CStart ∧ closed s = false ∧
       chans_closed s = false ∧ ctx_done s = false.
Proof.
  induction n as [|n IH]; intros Hn.
  { exists start. split; [constructor|]. done. }
  destruct IH as (s & R & H1 & H2 & H3 & H4 & H5); [lia|].
  destruct (deliver s) as (s' & R' & J1 & J2 & J3 & J4 & J5); [done..|lia|].
  exists s'. split; [by apply R'|]. split_and!; try done; congruence.
Qed.

Lemma blocked_reachable : ∃ s, reach session_itself start s ∧ blocked s.
Proof.
  destruct (fill stream_capacity) as (s & R & H1 & H2 & H3 & H4 & H5); [lia|].
  set (k := length (producers s)).
  set (s1 := set_producer (set_producer (arrive s) k PLocked) k PSelect).
  set (s2 := set_closer s1 CFlagged true (chans_closed s1) (ctx_done s1)).
  exists (set_closer s2 CWaiting true (chans_closed s1) (ctx_done s1)). split.
  - eapply reach_next; [|by right|by apply d_closer, (c_wait s2)].
    eapply reach_next; [|by right|by apply d_closer, c_swap].
    eapply reach_next; [|by left|apply (d_producer _ (length (producers s))), p_select; [|done]].
    2:{ simpl. apply list_lookup_insert_eq. rewrite length_app. simpl. lia. }
    eapply reach_next; [|by left|apply (d_producer _ (length (producers s))), p_rlock]; simpl; try (by rewrite H2).
    + eapply reach_next; [done|by left|apply d_arrive].
    + by apply list_lookup_middle.
  - unfold blocked. simpl. split_and!; try done. exists k.
    apply list_lookup_insert_eq. rewrite length_insert, length_app. simpl. lia.
Qed.

(** With 256 streams queued and one more being delivered, [CloseWithError]
    can wait for the lock for ever: the delivery holds the read lock and waits
    for the context that only the close would cancel.  Until the application
    takes a stream or the context is cancelled from outside, the close never
    gets past [Lock], whatever the delivering goroutines do. *)
Theorem close_blocks_behind_full_queue :
  (∃ s, reach session_itself start s ∧ blocked s) ∧
  (∀ s s', blocked s → reach session_itself s s' → cl s' = CWaiting ∧ ctx_done s' = false).
Proof.
  split; [apply blocked_reachable|]. intros s s' B R.
  assert (blocked s') as (? & ? & _); [|done].
  induction R as [|s' a s'' _ IH Ha Hst]; [done|]. by eapply blocked_step.
Qed.
End Delivery.

(** ** Concurrent first writes *)

Module Writers.

(** A goroutine in [Stream.Write] on an outgoing stream: at the first test of
    [headerWritten], about to [Lock], holding the mutex before the second test,
    building the buffer, unlocked with header and payload, about to write the
    bare payload, finished. *)
Inductive pc := WStart | WLock | WHeld | WBuild | WHeader | WPlain | WDone.

Record writers_state := {
  headerWritten : bool;
  mutex : option nat;
  writers : list (bytes * pc);
  wire : list (bool * bytes)     (* with or without the header, in wire order *)
}.

Definition start (ps : list bytes) : writers_state :=
  {| headerWritten := false; mutex := None; writers := (λ p, (p, WStart)) <$> ps; wire := [] |}.

Definition move (s : writers_state) (i : nat) (p : bytes) (w : pc) (hw : bool) (m : option nat)
  (out : list (bool * bytes)) : writers_state :=
  {| headerWritten := hw; mutex := m; writers := <[i := (p, w)]> (writers s);
     wire := wire s ++ out |}.

Inductive writers_step (s : writers_state) : writers_state → Prop :=
| w_seen i p : writers s !! i = Some (p, WStart) → headerWritten s = true →
    writers_step s (move s i p WPlain (headerWritten s) (mutex s) [])
| w_unseen i p : writers s !! i = Some (p, WStart) → headerWritten s = false →
    writers_step s (move s i p WLock (headerWritten s) (mutex s) [])
| w_lock i p : writers s !! i = Some (p, WLock) → mutex s = None →
    writers_step s (move s i p WHeld (headerWritten s) (Some i) [])
| w_first i p : writers s !! i = Some (p, WHeld) → headerWritten s = false →
    writers_step s (move s i p WBuild (headerWritten s) (mutex s) [])
| w_late i p : writers s !! i = Some (p, WHeld) → headerWritten s = true →
    writers_step s (move s i p WPlain (headerWritten s) None [])
| w_store i p : writers s !! i = Some (p, WBuild) →
    writers_step s (move s i p WHeader true None [])
| w_header i p : writers s !! i = Some (p, WHeader) →
    writers_step s (move s i p WDone (headerWritten s) (mutex s) [(true, p)])
| w_plain i p : writers s !! i = Some (p, WPlain) →
    writers_step s (move s i p WDone (headerWritten s) (mutex s) [(false, p)]).

Inductive reach (s0 : writers_state) : writers_state → Prop :=
| reach_refl : reach s0 s0
| reach_next s s' : reach s0 s → writers_step s s' → reach s0 s'.

Definition pending (w : bytes * pc) : option bytes :=
  match w.2 with WHeader => Some w.1 | _ => None end.
Definition finished (w : bytes * pc) : option bytes :=
  match w.2 with WDone => Some w.1 | _ => None end.
Definition header_of (c : bool * bytes) : option bytes := if c.1 then Some c.2 else None.

(** Buffers with the header, on the wire or about to be written. *)
Definition headers (s : writers_state) : nat :=
  (length (omap pending (writers s)) + length (omap header_of (wire s)))%nat.

(** Past the store, or done by somebody else. *)
Definition past_header (w : pc) : bool :=
  match w with WHeader | WPlain | WDone => true | _ => false end.

Record inv (ps : list bytes) (s : writers_state) : Prop := {
  inv_payloads : (writers s).*1 = ps;
  inv_mutex : ∀ i p w, writers s !! i = Some (p, w) → w = WHeld ∨ w = WBuild → mutex s = Some i;
  inv_build : ∀ i p, writers s !! i = Some (p, WBuild) → headerWritten s = false;
  inv_past : ∀ i p w, writers s !! i = Some (p, w) → past_header w = true → headerWritten s = true;
  inv_once : headers s = if headerWritten s then 1%nat else 0%nat;
  inv_wire : (wire s).*2 ≡ₚ omap finished (writers s)
}.

Lemma payloads_insert (l : list (bytes * pc)) i p w w' :
  l !! i = Some (p, w) → (<[i := (p, w')]> l).*1 = l.*1.
Proof.
  intros Hi. rewrite list_fmap_insert. simpl. apply list_insert_id.
  by rewrite list_lookup_fmap, Hi.
Qed.

(** The obligations of one goroutine's move. *)
Lemma move_inv ps s i p w w' hw m out :
  inv ps s → writers s !! i = Some (p, w) →
  (w' = WHeld ∨ w' = WBuild → m = Some i) →
  (w = WHeld ∨ w = WBuild ∨ m = mutex s ∨ mutex s = None) →
  (w' = WBuild → hw = false) → (past_header w' = true → hw = true) →
  (hw = headerWritten s ∨ w = WBuild ∧ hw = true) →
  (length (option_list (pending (p, w'))) + length (omap header_of out) +
     (if headerWritten s then 1 else 0) =
   length (option_list (pending (p, w))) + (if hw then 1 else 0))%nat →
  out.*2 ++ option_list (finished (p, w)) = option_list (finished (p, w')) →
  inv ps (move s i p w' hw m out).
Proof.
  intros [I1 I2 I3 I4 I5 I6] Hi Hm Hmo Hb Hp Hhw Hn Hw. constructor; simpl.
  - by erewrite payloads_insert.
  - intros j q v Hj Hv. apply lookup_insert_cases in Hj as [[<- [= -> ->]]|[Hne Hj]]; [auto|].
    pose proof (I2 _ _ _ Hj Hv) as Hmj. destruct Hmo as [->|[->|[->|Hmo]]]; try congruence.
    + rewrite (I2 _ _ _ Hi) in Hmj by auto. congruence.
    + rewrite (I2 _ _ _ Hi) in Hmj by auto. congruence.
  - intros j q Hj. apply lookup_insert_cases in Hj as [[<- [= -> <-]]|[Hne Hj]]; [auto|].
    destruct Hhw as [->|[-> ->]]; [by eapply I3|].
    pose proof (I2 _ _ _ Hj (or_intror eq_refl)). pose proof (I2 _ _ _ Hi (or_intror eq_refl)).
    congruence.
  - intros j q v Hj Hv. apply lookup_insert_cases in Hj as [[<- [= -> ->]]|[Hne Hj]]; [auto|].
    destruct Hhw as [->|[-> ->]]; [by eapply I4|done].
  - unfold headers in *. simpl. rewrite omap_app, length_app.
    pose proof (omap_insert_length pending (writers s) i (p, w) (p, w') Hi). lia.
  - rewrite fmap_app, I6. pose proof (omap_insert finished (writers s) i (p, w) (p, w') Hi) as HP.
    rewrite <- Hw in HP. apply (Permutation_app_inv_r (option_list (finished (p, w)))).
    rewrite HP. solve_Permutation.
Qed.

Lemma writers_step_inv ps s s' : inv ps s → writers_step s s' → inv ps s'.
Proof.
  intros I Hst.
  destruct Hst as [i p Hi Hh|i p Hi Hh|i p Hi Hm|i p Hi Hh|i p Hi Hh|i p Hi|i p Hi|i p Hi];
    (eapply move_inv; [exact I|exact Hi|..]); simpl; intros; destruct_or?; auto; try congruence; try lia.
  - eapply (inv_mutex _ _ I); eauto.
  - by rewrite (inv_build _ _ I _ _ Hi).
  - by eapply (inv_past _ _ I).
  - by eapply (inv_past _ _ I).
Qed.

Lemma start_inv ps : inv ps (start ps).
Proof.
  assert (Hs : ∀ i p w, writers (start ps) !! i = Some (p, w) → w = WStart).
  { intros i p w Hi. simpl in Hi.
    apply list_lookup_fmap_Some in Hi as (q & [= _ ->] & _). done. }
  constructor; simpl.
  - by rewrite <- list_fmap_compose, list_fmap_id.
  - intros i p w Hi [->| ->]; by apply Hs in Hi.
  - intros i p Hi. by apply Hs in Hi.
  - intros i p w Hi Hw. apply Hs in Hi. by subst.
  - unfold headers. simpl. rewrite Nat.add_0_r. clear Hs. by induction ps.
  - clear Hs. by induction ps.
Qed.

(** Concurrent writers put at most one header on the wire; when all have
    returned there is exactly one, and the payloads are those written, in some
    order.  It need not come first: a second writer that sees [headerWritten]
    can reach the wire before the first one's buffer. *)
Theorem concurrent_first_writes :
  (∀ ps s, reach (start ps) s →
     (length (omap header_of (wire s)) <= 1)%nat ∧
     (ps ≠ [] → Forall (λ w, w.2 = WDone) (writers s) →
        length (omap header_of (wire s)) = 1%nat ∧ (wire s).*2 ≡ₚ ps)) ∧
  (∀ p1 p2, ∃ s, reach (start [p1; p2]) s ∧ wire s = [(false, p2); (true, p1)] ∧
     Forall (λ w, w.2 = WDone) (writers s)).
Proof.
  split.
  - intros ps s R. assert (inv ps s) as I.
    { induction R; [apply start_inv|]. by eapply writers_step_inv. }
    destruct I as [I1 I2 I3 I4 I5 I6]. unfold headers in I5. split.
    { destruct (headerWritten s); lia. }
    intros Hne Hd.
    assert (omap pending (writers s) = [] ∧ omap finished (writers s) = (writers s).*1) as [E1 E2].
    { clear -Hd. induction Hd as [|[p w] l Hw Hd [IH1 IH2]]; [done|]. simpl in Hw. subst w.
      split; [exact IH1|]. cbn. f_equal. exact IH2. }
    rewrite E1 in I5. rewrite I6, E2, I1. split; [|done].
    destruct (writers s) as [|[p w] l] eqn:Ew; [by subst ps|].
    apply Forall_cons in Hd as [Hw _]. simpl in Hw. subst w.
    rewrite (I4 0%nat p WDone) in I5 by done. simpl in I5. done.
  - intros p1 p2. eexists. split; [|split].
    + refine (reach_next _ _ _ _ (w_header _ 0 p1 _)).
      1: refine (reach_next _ _ _ _ (w_plain _ 1 p2 _)).
      1: refine (reach_next _ _ _ _ (w_seen _ 1 p2 _ _)).
      1: refine (reach_next _ _ _ _ (w_store _ 0 p1 _)).
      1: refine (reach_next _ _ _ _ (w_first _ 0 p1 _ _)).
      1: refine (reach_next _ _ _ _ (w_lock _ 0 p1 _ _)).
      1: refine (reach_next _ _ _ (reach_refl _) (w_unseen _ 0 p1 _ _)).
      all: reflexivity.
    + reflexivity.
    + by repeat constructor.
Qed.
End Writers.

(** ** The safety theorem at a concrete interleaving *)

Module RaceSample.
Import Delivery.

Lemma no_send_on_closed_channel_witness :
  ∃ s, reach anyone start s ∧ queue s = 1%nat ∧ chans_closed s = true ∧ sent_on_closed s = false.
Proof.
  assert (∃ s, reach anyone start s ∧ queue s = 1%nat ∧ chans_closed s = true) as (s & R & H1 & H2).
  { eexists. split; [|split].
    - refine (reach_next _ _ _ _ _ _ I (d_closer _ _ (c_close _ _))).
      1: refine (reach_next _ _ _ _ _ _ I (d_closer _ _ (c_lock _ _ _))).
      1: refine (reach_next _ _ _ _ _ _ I (d_closer _ _ (c_wait _ _))).
      1: refine (reach_next _ _ _ _ _ _ I (d_closer _ _ (c_swap _ _))).
      1: refine (reach_next _ _ _ _ _ _ I (d_producer _ 0 _ (p_send _ 0 _ _))).
      1: refine (reach_next _ _ _ _ _ _ I (d_producer _ 0 _ (p_select _ 0 _ _))).
      1: refine (reach_next _ _ _ _ _ _ I (d_producer _ 0 _ (p_rlock _ 0 _ _ _))).
      1: refine (reach_next _ _ _ _ _ (reach_refl _ _) I (d_arrive _)).
      all: try reflexivity; try discriminate. left. apply Nat.ltb_lt. reflexivity.
    - reflexivity.
    - reflexivity. }
  exists s. split; [exact R|]. split; [exact H1|]. split; [exact H2|].
  exact (no_send_on_closed_channel s R).
Defined.
End RaceSample.
