(* ===== verification/WebTransportDial.v ===== *)
(** * Dialing a WebTransport session (src/webtransport/dial.go)

    Options, the QUIC dial, the SETTINGS and CONNECT requests as the bytes written
    to their streams, the response, and the connection dispatcher as a step
    relation over its three loops and the handlers they start.  QUIC, QPACK and
    the HTTP/3 settings are the mach and foundation modules': the class [H3]. *)

From S2P Require Import Prelude GoLib GoText GoURL GoJson GoQuote WebTransportCapsule WebTransportSession.

#[local] Open Scope Z_scope.

(** ** The configuration *)

(** crypto/tls, as far as it is read or written here. *)
Record TLSConfig := { ServerName : bytes; NextProtos : list bytes; MinVersion : Z }.

Definition VersionTLS13 : Z := 0x0304.

(** Configurations are shared by pointer: the heap gives their contents. *)
Definition tls_heap : Type := list TLSConfig.

Record DialConfig := { cfg_TLSConfig : option nat; cfg_Headers : gmap bytes bytes; AvailableProtocols : list bytes }.

(** An option, on a configuration; a nil map of headers is the empty one. *)
Definition Option : Type := DialConfig → DialConfig.

Definition WithTLSConfig (cfg : option nat) : Option := λ c,
  {| cfg_TLSConfig := cfg; cfg_Headers := cfg_Headers c; AvailableProtocols := AvailableProtocols c |}.
Definition WithHeader (key val : bytes) : Option := λ c,
  {| cfg_TLSConfig := cfg_TLSConfig c; cfg_Headers := <[key := val]> (cfg_Headers c); AvailableProtocols := AvailableProtocols c |}.
Definition WithAvailableProtocols (protocols : list bytes) : Option := λ c,
  {| cfg_TLSConfig := cfg_TLSConfig c; cfg_Headers := cfg_Headers c; AvailableProtocols := AvailableProtocols c ++ protocols |}.

Definition config_of (opts : list Option) : DialConfig :=
  foldl (λ c o, o c) {| cfg_TLSConfig := None; cfg_Headers := ∅; AvailableProtocols := [] |} opts.

(** ** HTTP/3 *)

Record Settings := { EnableConnect : bool; EnableDatagrams : bool; Other : list (Z * Z) }.

(** What a QPACK decoder reports. *)
Inductive decoded := Header (name value : bytes) | DecodingError (msg : bytes).

Class H3 := {
  FrameTypeSettings : Z;
  FrameTypeHeaders : Z;
  settings_Encode : Settings → bytes;
  EncodeHeaderList : Z → list (bytes * bytes) → bytes;
  qpack_Decode : bytes → list decoded;
  Coalesce : bytes → bytes → bytes
}.

Definition SettingWebTransportEnabled : Z := 0x2c7cf000.

Definition dial_settings : Settings :=
  {| EnableConnect := true; EnableDatagrams := true; Other := [(SettingWebTransportEnabled, 1)] |}.

(** The documented behaviour of the library; the settings are those sent here, a few
    bytes. *)
Class H3Laws `{H3} : Prop := {
  frame_types : 0 <= FrameTypeSettings <= vi_max ∧ 0 <= FrameTypeHeaders <= vi_max;
  settings_short : (length (settings_Encode dial_settings) <= 4096)%nat;
  decode_encode id l : qpack_Decode (EncodeHeaderList id l) = map (λ h, Header h.1 h.2) l;
  Coalesce_law a b : Coalesce a b = if bytes_eqb a [] then b else a
}.

Definition ConnectProtocolWebTransport : bytes := str "webtransport".
Definition HeaderWTAvailableProtocols : bytes := str "wt-available-protocols".

Section dial.
Context {V : Varint} `{H3, UnicodeCase, UnicodePrint}.
Context {error : Type}.

Inductive dial_error :=
| NilConnection
| ParseURL
| DialQuic (e : error)
| OpenControl (e : error)
| WriteSettingsHeader (e : error)
| WriteSettingsPayload (e : error)
| OpenConnect (e : error)
| WriteHeadersFrame (e : error)
| WriteHeadersPayload (e : error)
| ReadResponse (e : response_error)
| ErrHandshakeFailed (status : bytes)
with response_error :=
| ResponseIO
| ExpectedHeaders (got : Z)
| HeadersTooLarge (n : Z)
| QpackError (msg : bytes).

(** ** The response *)

(** The headers so far and the last decoding error. *)
Definition on_event (acc : gmap bytes bytes * option bytes) (e : decoded) : gmap bytes bytes * option bytes :=
  match e with
  | Header name value => (<[name := value]> acc.1, acc.2)
  | DecodingError msg => (acc.1, Some msg)
  end.

(** The headers and the bytes left on the stream. *)
Definition readH3ResponseHeaders (st : bytes) : result response_error (gmap bytes bytes * bytes) :=
  match readH3FrameHeader st with
  | None => Err ResponseIO
  | Some (frameType, payloadLen, st) =>
      if negb (frameType =? FrameTypeHeaders) then Err (ExpectedHeaders frameType)
      else if 16 * 1024 * 1024 <? payloadLen then Err (HeadersTooLarge payloadLen)
      else if Z.of_nat (length st) <? payloadLen then Err ResponseIO
      else
        let payload := take (Z.to_nat payloadLen) st in
        match foldl on_event (∅, None) (qpack_Decode payload) with
        | (_, Some msg) => Err (QpackError msg)
        | (res, None) => Ok (res, drop (Z.to_nat payloadLen) st)
        end
  end.

(** ** The request *)

(** The headers of the CONNECT request; [ord] is the order in which the map of
    the configuration is ranged over. *)
Definition connect_headers (ord : gmap bytes bytes → list (bytes * bytes)) (parsed : URL) (cfg : DialConfig) : list (bytes * bytes) :=
  let authority := if bytes_eqb (u_Host parsed) [] then JoinHostPort (Hostname parsed) (str "443") else u_Host parsed in
  [(str ":method", str "CONNECT"); (str ":protocol", ConnectProtocolWebTransport); (str ":scheme", str "https");
   (str ":authority", authority); (str ":path", Coalesce (RequestURI parsed) (str "/"))] ++
  (if (0 <? length (AvailableProtocols cfg))%nat
   then [(HeaderWTAvailableProtocols, Join (map Quote (AvailableProtocols cfg)) (str ", "))] else []) ++
  map (λ kv, (ToLower kv.1, kv.2)) (ord (cfg_Headers cfg)).

(** The header of the control stream, in an array of 64 bytes: the stream type 0,
    the frame type and the length, each appended to a slice of the array. *)
Definition settings_header (payload : bytes) : outcome bytes :=
  let ctrlBuf := x00 :: replicate 63 x00 in
  let n := vi_append FrameTypeSettings in
  b ← append_at ctrlBuf 1 n;
  b ← append_at b (1 + length n) (vi_append (Z.of_nat (length payload)));
  slice_to b (1 + length n + vi_len (Z.of_nat (length payload))).

(** What the calls on the connection answer; [None] is success. *)
Record answers := {
  open_control : option error;
  write_settings_header : option error;
  write_settings : option error;
  open_connect : result error Z;
  write_frame : option error;
  write_headers : option error;
  response : bytes
}.

(** What was done to the two streams, and whether the dispatcher was started. *)
Record trace := { t_control : list control_event; t_connect : list control_event; t_dispatcher : bool }.

Definition no_trace : trace := {| t_control := []; t_connect := []; t_dispatcher := false |}.

Definition connect_exchange (a : answers) (sessionID : Z) (encodedHeaders : bytes) (control : list control_event) :
    result dial_error (Session * bytes) * trace :=
  let ended out := {| t_control := control; t_connect := out; t_dispatcher := false |} in
  let b := vi_append FrameTypeHeaders ++ vi_append (Z.of_nat (length encodedHeaders)) in
  match write_frame a with
  | Some e => (Err (WriteHeadersFrame e), ended [ControlWrite b; ControlClose])
  | None =>
      match write_headers a with
      | Some e => (Err (WriteHeadersPayload e), ended [ControlWrite b; ControlWrite encodedHeaders; ControlClose])
      | None =>
          match readH3ResponseHeaders (response a) with
          | Err e => (Err (ReadResponse e), ended [ControlWrite b; ControlWrite encodedHeaders; ControlClose])
          | Ok (respHeaders, rest) =>
              let status := default [] (respHeaders !! str ":status") in
              let '(statusCode, _) := Atoi status in
              if (statusCode <? 200) || (300 <=? statusCode)
              then (Err (ErrHandshakeFailed status), ended [ControlWrite b; ControlWrite encodedHeaders; ControlClose])
              else (Ok (NewSession sessionID true, rest),
                    {| t_control := control; t_connect := [ControlWrite b; ControlWrite encodedHeaders]; t_dispatcher := true |})
          end
      end
  end.

(** [connected]: the connection is not nil.  The result carries the bytes that
    are left on the CONNECT stream. *)
Definition DialWithConn (ord : gmap bytes bytes → list (bytes * bytes)) (a : answers) (connected : bool) (targetURL : bytes) (opts : list Option) :
    outcome (result dial_error (Session * bytes) * trace) :=
  if negb connected then Done (Err NilConnection, no_trace)
  else match url_Parse targetURL with
       | None => Done (Err ParseURL, no_trace)
       | Some parsed =>
           match open_control a with
           | Some e => Done (Err (OpenControl e), no_trace)
           | None =>
               let payload := settings_Encode dial_settings in
               header ← settings_header payload;
               match write_settings_header a with
               | Some e => Done (Err (WriteSettingsHeader e), {| t_control := [ControlWrite header; ControlClose]; t_connect := []; t_dispatcher := false |})
               | None =>
                   match write_settings a with
                   | Some e => Done (Err (WriteSettingsPayload e),
                       {| t_control := [ControlWrite header; ControlWrite payload; ControlClose]; t_connect := []; t_dispatcher := false |})
                   | None =>
                       let control := [ControlWrite header; ControlWrite payload] in
                       match open_connect a with
                       | Err e => Done (Err (OpenConnect e), {| t_control := control; t_connect := []; t_dispatcher := false |})
                       | Ok sessionID =>
                           let cfg := config_of opts in
                           Done (connect_exchange a sessionID (EncodeHeaderList sessionID (connect_headers ord parsed cfg)) control)
                       end
                   end
               end
           end
       end.

(** [Dial]: the TLS configuration is filled in, in place when the caller gave
    one; [dial] answers with a connection and what its calls will answer.  The
    last component: the number of connections opened and not closed. *)
Definition tls_config (heap : tls_heap) (host : bytes) (cfg : DialConfig) : option (nat * tls_heap) :=
  match cfg_TLSConfig cfg with
  | None => Some (length heap, heap ++ [{| ServerName := host; NextProtos := [str "h3"]; MinVersion := VersionTLS13 |}])
  | Some p =>
      c ← heap !! p;
      match NextProtos c with
      | [] => Some (p, <[p := {| ServerName := ServerName c; NextProtos := [str "h3"]; MinVersion := MinVersion c |}]> heap)
      | _ => Some (p, heap)
      end
  end.

Definition Dial (ord : gmap bytes bytes → list (bytes * bytes)) (dial : bytes → TLSConfig → result error answers) (heap : tls_heap)
    (targetURL : bytes) (opts : list Option) : outcome (result dial_error (Session * bytes) * trace * tls_heap * nat) :=
  match url_Parse targetURL with
  | None => Done (Err ParseURL, no_trace, heap, 0%nat)
  | Some parsed =>
      let host := Hostname parsed in
      let portStr := if bytes_eqb (Port parsed) [] then str "443" else Port parsed in
      match tls_config heap host (config_of opts) with
      | None => Panic
      | Some (p, heap) =>
          let tls := default {| ServerName := []; NextProtos := []; MinVersion := 0 |} (heap !! p) in
          match dial (JoinHostPort host portStr) tls with
          | Err e => Done (Err (DialQuic e), no_trace, heap, 0%nat)
          | Ok a => '(res, t) ← DialWithConn ord a true targetURL opts; Done (res, t, heap, 1%nat)
          end
      end
  end.

(** ** The connection dispatcher *)

(** An incoming stream whose handler was started, with the bytes it carries. *)
Inductive incoming := IncomingBidi (streamID : Z) (st : bytes) | IncomingUni (streamID : Z) (st : bytes).

(** The session, which of the three loops run, whether the cleanup was done, and
    the handlers that were started. *)
Record dispatcher := { d_session : Session; d_bidi : bool; d_uni : bool; d_datagrams : bool; d_once : bool; d_handlers : list incoming }.

Definition StartConnectionDispatcher (s : Session) : dispatcher :=
  {| d_session := s; d_bidi := true; d_uni := true; d_datagrams := true; d_once := false; d_handlers := [] |}.

(** The deferred cleanup of a loop: the session is closed, once. *)
Definition cleanup (d : dispatcher) : outcome dispatcher :=
  if d_once d then Done d
  else s ← Session_Close (d_session d);
       Done {| d_session := s; d_bidi := d_bidi d; d_uni := d_uni d; d_datagrams := d_datagrams d; d_once := true; d_handlers := d_handlers d |}.

Definition set_session (s : Session) (d : dispatcher) : dispatcher :=
  {| d_session := s; d_bidi := d_bidi d; d_uni := d_uni d; d_datagrams := d_datagrams d; d_once := d_once d; d_handlers := d_handlers d |}.
Definition set_loops (b u g : bool) (d : dispatcher) : dispatcher :=
  {| d_session := d_session d; d_bidi := b; d_uni := u; d_datagrams := g; d_once := d_once d; d_handlers := d_handlers d |}.
Definition set_handlers (l : list incoming) (d : dispatcher) : dispatcher :=
  {| d_session := d_session d; d_bidi := d_bidi d; d_uni := d_uni d; d_datagrams := d_datagrams d; d_once := d_once d; d_handlers := l |}.

(** What a handler does to the session; [None] when its select has no ready
    branch. *)
Definition handle (s : Session) (i : incoming) (b : enqueue_branch) : option Session :=
  match i with
  | IncomingBidi id st =>
      match handleIncomingBidi s id st with Rejected => Some s | Enqueue str _ => fst <$> EnqueueBidiStream s str b end
  | IncomingUni id st =>
      match handleIncomingUni s id st with Rejected => Some s | Enqueue str _ => fst <$> EnqueueUniStream s str b end
  end.

(** A stream or datagram is accepted, a loop fails, a handler runs, or the
    session changes by itself. *)
Inductive dispatch_step (d : dispatcher) : dispatcher → Prop :=
| accept_bidi id st : d_bidi d = true → dispatch_step d (set_handlers (IncomingBidi id st :: d_handlers d) d)
| accept_uni id st : d_uni d = true → dispatch_step d (set_handlers (IncomingUni id st :: d_handlers d) d)
| receive_datagram p : d_datagrams d = true → dispatch_step d (set_session (dispatch_datagram (d_session d) p) d)
| bidi_fails d' : d_bidi d = true → cleanup (set_loops false (d_uni d) (d_datagrams d) d) = Done d' → dispatch_step d d'
| uni_fails d' : d_uni d = true → cleanup (set_loops (d_bidi d) false (d_datagrams d) d) = Done d' → dispatch_step d d'
| datagrams_fail d' : d_datagrams d = true → cleanup (set_loops (d_bidi d) (d_uni d) false d) = Done d' → dispatch_step d d'
| run_handler l1 i l2 b s : d_handlers d = l1 ++ i :: l2 → handle (d_session d) i b = Some s →
    dispatch_step d (set_session s (set_handlers (l1 ++ l2) d))
| session_moves s : session_step (d_session d) s → dispatch_step d (set_session s d).

Inductive dispatched (s : Session) : dispatcher → Prop :=
| dispatched_start : dispatched s (StartConnectionDispatcher s)
| dispatched_step d d' : dispatched s d → dispatch_step d d' → dispatched s d'.

(** ** The bytes of a handshake *)

(** What was written to a stream. *)
Definition written (l : list control_event) : bytes := concat (map (λ e, match e with ControlWrite d => d | ControlClose => [] end) l).

Lemma varint_short `{!VarintLaws} v : 0 <= v <= vi_max → (length (vi_append v) <= 8)%nat.
Proof.
  intros Hv. destruct (vi_prefix v Hv) as (b & s & _ & Hl). pose proof (bz_range b).
  assert (0 <= Z.shiftr (bz b) 6 <= 3) by (rewrite Z.shiftr_div_pow2 by lia; Z.div_mod_to_equations; lia).
  assert (2 ^ Z.shiftr (bz b) 6 <= 2 ^ 3) by (apply Z.pow_le_mono_r; lia). lia.
Qed.

Lemma append_fits dst off data : (off + length data <= length dst)%nat → append_at dst off data = Done (write_at dst off data).
Proof.
  intros Hl. unfold append_at. destruct (length dst <? off)%nat eqn:E; bools; [lia|].
  by destruct (off + length data <=? length dst)%nat eqn:E2; bools; [|lia].
Qed.

(** Two appends to slices of an array lay their bytes side by side. *)
Lemma append_twice c buf s t : (1 + length s + length t <= S (length buf))%nat →
  (b ← append_at (c :: buf) 1 s; b ← append_at b (1 + length s) t; slice_to b (1 + length s + length t)) = Done (c :: s ++ t).
Proof.
  intros Hl. assert (length (write_at (c :: buf) 1 s) = S (length buf)) as Hw by (rewrite write_at_length; cbn [length]; lia).
  rewrite append_fits by (cbn [length]; lia). cbn [mbind outcome_bind]. rewrite append_fits by lia. cbn [mbind outcome_bind].
  unfold slice_to. rewrite write_at_length by lia. rewrite Hw. destruct (_ <? _)%nat eqn:E5; bools; [lia|]. f_equal.
  rewrite take_write_at by lia. rewrite take_write_at by (cbn [length]; lia). done.
Qed.

Lemma settings_header_ok `{!VarintLaws, !H3Laws} : let payload := settings_Encode dial_settings in
  settings_header payload = Done (x00 :: vi_append FrameTypeSettings ++ vi_append (Z.of_nat (length payload))).
Proof.
  cbv zeta. pose proof settings_short as Hs. destruct frame_types as [Hf _].
  assert (0 <= Z.of_nat (length (settings_Encode dial_settings)) <= vi_max) as Hv by (change vi_max with 4611686018427387903; lia).
  pose proof (varint_short _ Hf). pose proof (varint_short _ Hv). unfold settings_header. rewrite vi_len_append by done.
  rewrite append_twice; [done|]. rewrite length_replicate. lia.
Qed.

Lemma read_frame_header `{!VarintLaws, !H3Laws} n rest : 0 <= n <= vi_max →
  readH3FrameHeader (vi_append FrameTypeHeaders ++ vi_append n ++ rest) = Some (FrameTypeHeaders, n, rest).
Proof.
  intros Hn. destruct frame_types as [_ Hf]. unfold readH3FrameHeader. by rewrite read_varint_append, read_varint_append.
Qed.

(** The last header of a name. *)
Definition last_value (name : bytes) (l : list (bytes * bytes)) : option bytes :=
  foldl (λ acc h, if bytes_eqb h.1 name then Some h.2 else acc) None l.

Lemma decoded_headers l : foldl on_event (∅, None) (map (λ h, Header h.1 h.2) l) =
  (foldl (λ m h, <[h.1 := h.2]> m) ∅ l, None).
Proof.
  generalize (∅ : gmap bytes bytes) as m. induction l as [|h l IH]; intros m; [done|]. cbn [map foldl on_event fst snd]. apply IH.
Qed.

Lemma headers_lookup name l : foldl (λ m h, <[h.1 := h.2]> m) (∅ : gmap bytes bytes) l !! name = last_value name l.
Proof.
  unfold last_value. rewrite <- (lookup_empty name). generalize (∅ : gmap bytes bytes) as m.
  induction l as [|h l IH]; intros m; [done|]. cbn [foldl]. rewrite IH. f_equal.
  destruct (bytes_eqb h.1 name) eqn:E; bools; [rewrite E; apply lookup_insert_eq|by apply lookup_insert_ne].
Qed.

(** The HEADERS frame of a peer. *)
Definition headers_frame (k : Z) (l : list (bytes * bytes)) : bytes :=
  let payload := EncodeHeaderList k l in vi_append FrameTypeHeaders ++ vi_append (Z.of_nat (length payload)) ++ payload.

Lemma read_response `{!VarintLaws, !H3Laws} k l rest : Z.of_nat (length (EncodeHeaderList k l)) <= 16 * 1024 * 1024 →
  readH3ResponseHeaders (headers_frame k l ++ rest) = Ok (foldl (λ m h, <[h.1 := h.2]> m) ∅ l, rest).
Proof.
  intros Hl. unfold readH3ResponseHeaders, headers_frame. rewrite <- !app_assoc.
  rewrite read_frame_header by (change vi_max with 4611686018427387903; lia). rewrite Z.eqb_refl. cbn [negb].
  destruct (_ <? _) eqn:E1; bools; [lia|]. destruct (_ <? _) eqn:E2; bools; [lens|].
  rewrite Nat2Z.id, take_app_exact, drop_app_exact, decode_encode, decoded_headers. done.
Qed.

(** C35: when the URL parses, every call of the transport succeeds and the peer
    answers with a HEADERS frame of at most 16 MB, dialing succeeds exactly for the
    statuses from 200 to 299. The peer reads the stream type and SETTINGS frame from
    the control stream and a HEADERS frame with the headers of the request from the
    CONNECT stream; nothing behind its response is consumed; a stream whose request
    is refused is closed. *)
Theorem dial_handshake `{!VarintLaws, !H3Laws} ord a targetURL opts parsed sid k resp rest :
  url_Parse targetURL = Some parsed →
  open_control a = None → write_settings_header a = None → write_settings a = None →
  open_connect a = Ok sid → write_frame a = None → write_headers a = None →
  response a = headers_frame k resp ++ rest → Z.of_nat (length (EncodeHeaderList k resp)) <= 16 * 1024 * 1024 →
  let request := connect_headers ord parsed (config_of opts) in
  let status := default [] (last_value (str ":status") resp) in
  Z.of_nat (length (EncodeHeaderList sid request)) <= vi_max →
  ∃ res t payload, DialWithConn ord a true targetURL opts = Done (res, t) ∧
    (∃ settings, written (t_control t) =
       x00 :: vi_append FrameTypeSettings ++ vi_append (Z.of_nat (length settings)) ++ settings ∧ settings = settings_Encode dial_settings) ∧
    readH3FrameHeader (written (t_connect t)) = Some (FrameTypeHeaders, Z.of_nat (length payload), payload) ∧
    qpack_Decode payload = map (λ h, Header h.1 h.2) request ∧
    (if (200 <=? (Atoi status).1) && ((Atoi status).1 <? 300)
     then res = Ok (NewSession sid true, rest) ∧ t_dispatcher t = true ∧ ControlClose ∉ t_connect t
     else res = Err (ErrHandshakeFailed status) ∧ t_dispatcher t = false ∧ last (t_connect t) = Some ControlClose).
Proof.
  intros Hu A1 A2 A3 A4 A5 A6 Hr Hl request status Hlen. unfold DialWithConn. rewrite Hu, A1, settings_header_ok, A2, A3, A4.
  cbn [negb mbind outcome_bind]. fold request. set (payload := EncodeHeaderList sid request) in *. unfold connect_exchange.
  rewrite A5, A6, Hr, read_response by done. rewrite headers_lookup. fold status.
  assert (written [ControlWrite (vi_append FrameTypeHeaders ++ vi_append (Z.of_nat (length payload))); ControlWrite payload] =
    vi_append FrameTypeHeaders ++ vi_append (Z.of_nat (length payload)) ++ payload) as Hw by (cbn; by rewrite app_nil_r, app_assoc).
  assert (written [ControlWrite (vi_append FrameTypeHeaders ++ vi_append (Z.of_nat (length payload))); ControlWrite payload; ControlClose] =
    vi_append FrameTypeHeaders ++ vi_append (Z.of_nat (length payload)) ++ payload) as Hw' by (cbn; by rewrite app_nil_r, app_assoc).
  destruct (Atoi status) as [code err]. cbn [fst].
  assert ((code <? 200) || (300 <=? code) = negb ((200 <=? code) && (code <? 300))) as ->
    by (rewrite negb_andb, <- Z.ltb_antisym, <- Z.leb_antisym; done).
  destruct ((200 <=? code) && (code <? 300)); cbn [negb]; eexists _, _, payload; (split; [done|]); cbn [t_control t_connect t_dispatcher];
    rewrite ?Hw, ?Hw'; (split; [eexists; split; [|done]; cbn; by rewrite app_nil_r, <- app_assoc|]);
    (split; [rewrite read_frame_header by lia; done|]); (split; [apply decode_encode|]).
  - split; [done|]. split; [done|]. rewrite !not_elem_of_cons. split_and!; [done|done|apply not_elem_of_nil].
  - done.
Qed.

(** A dial that fails leaves no CONNECT stream open and starts no dispatcher. *)
Lemma failed_dial_closes_conn ord a connected url opts e t : DialWithConn ord a connected url opts = Done (Err e, t) →
  t_dispatcher t = false ∧ (t_connect t = [] ∨ last (t_connect t) = Some ControlClose).
Proof.
  unfold DialWithConn. destruct connected; cbn [negb]; [|intros [= <- <-]; auto].
  destruct (url_Parse url); [|intros [= <- <-]; auto]. destruct (open_control a); [intros [= <- <-]; auto|].
  destruct (settings_header _); [|done]. cbn [mbind outcome_bind].
  destruct (write_settings_header a); [intros [= <- <-]; auto|]. destruct (write_settings a); [intros [= <- <-]; auto|].
  destruct (open_connect a) as [sid|]; [|intros [= <- <-]; auto]. unfold connect_exchange.
  destruct (write_frame a); [intros [= <- <-]; auto|]. destruct (write_headers a); [intros [= <- <-]; auto|].
  destruct (readH3ResponseHeaders (response a)) as [[h rest]|]; [|intros [= <- <-]; auto].
  destruct (Atoi _) as [code err]. destruct (_ || _); intros [= <- <-]; auto.
Qed.

(** But the QUIC connection [Dial] has opened stays open. *)
Lemma failed_dial_leaks ord dial heap url opts e t heap' n a :
  (∀ addr tls, dial addr tls = Ok a) → Dial ord dial heap url opts = Done (Err e, t, heap', n) → e ≠ ParseURL → n = 1%nat.
Proof.
  intros Hd. unfold Dial. destruct (url_Parse url); [|by intros [= <- _ _ _]].
  destruct (tls_config heap _ _) as [[p h]|]; [|done]. rewrite Hd. destruct (DialWithConn _ _ _ _ _) as [[res t']|]; [|done]. by intros [= _ _ _ <-].
Qed.

(** The TLS configuration of the caller is changed in place when it names no
    protocol. *)
Lemma tls_config_shared heap host cfg p c : cfg_TLSConfig cfg = Some p → heap !! p = Some c → NextProtos c = [] →
  ∃ heap', tls_config heap host cfg = Some (p, heap') ∧
    heap' !! p = Some {| ServerName := ServerName c; NextProtos := [str "h3"]; MinVersion := MinVersion c |}.
Proof.
  intros Hp Hc Hn. unfold tls_config. rewrite Hp, Hc. cbn. rewrite Hn. eexists. split; [done|]. apply list_lookup_insert_eq.
  by eapply lookup_lt_Some.
Qed.

(** ** The dispatcher and its session *)

Lemma Close_closes s s' : Session_Close s = Done s' → s_closed s' = true.
Proof.
  unfold Session_Close, CloseWithError. destruct (s_closed s) eqn:E; [by intros [= <-]|].
  destruct (EncodeCloseSessionCapsule _ _) as [[n buf]|]; [|done]. cbn [mbind outcome_bind].
  destruct (s_control (set_closed s 0 [])); [|by intros [= <-]]. destruct (slice_to buf n); [|done]. by intros [= <-].
Qed.

Lemma control_step_closed s st s' r : control_step s st = Done (s', r) → s_closed s = true → s_closed s' = true.
Proof.
  intros E Hc. unfold control_step in E. destruct (read_varint st) as [[t st1]|]; [|by injection E as <- <-].
  destruct (read_varint st1) as [[n st2]|]; [|by injection E as <- <-]. destruct (max_payload <? n); [by injection E as <- <-|].
  destruct (_ <? _)%nat; [by injection E as <- <-|]. destruct (_ =? _); [by injection E as <- <-|]. destruct (_ =? _); [|by injection E as <- <-].
  destruct (Session_Close _) as [s2|] eqn:Es; [|done]. injection E as <- <-. by eapply Close_closes.
Qed.

Lemma session_step_closed s s' : session_step s s' → s_closed s = true → s_closed s' = true.
Proof.
  intros Hst Hc. destruct Hst as [ans s' e E|code msg s' E|b s' r E|b s' r E|b s' r E|str b s' r E|str b s' r E|d|p ans| |st s' r E].
  - unfold Drain in E. rewrite Hc in E. by injection E as <- <-.
  - unfold CloseWithError in E. rewrite Hc in E. by injection E as <-.
  - unfold AcceptStream in E. by repeat case_match; simplify_eq.
  - unfold AcceptUniStream in E. by repeat case_match; simplify_eq.
  - unfold ReceiveDatagram in E. by repeat case_match; simplify_eq.
  - unfold EnqueueBidiStream in E. rewrite Hc in E. by injection E as <- <-.
  - unfold EnqueueUniStream in E. rewrite Hc in E. by injection E as <- <-.
  - unfold EnqueueDatagram. by rewrite Hc.
  - unfold SendDatagram. by rewrite Hc.
  - done.
  - by eapply control_step_closed.
Qed.

Lemma handle_step s i b s' : handle s i b = Some s' → s' = s ∨ session_step s s'.
Proof.
  destruct i as [id st|id st]; cbn [handle].
  - destruct (handleIncomingBidi s id st) as [|str u]; [intros [= <-]; by left|].
    destruct (EnqueueBidiStream s str b) as [[s1 r]|] eqn:E; [|done]. intros [= <-]. right. by eapply step_bidi.
  - destruct (handleIncomingUni s id st) as [|str u]; [intros [= <-]; by left|].
    destruct (EnqueueUniStream s str b) as [[s1 r]|] eqn:E; [|done]. intros [= <-]. right. by eapply step_uni.
Qed.

Lemma dispatch_datagram_step s p : dispatch_datagram s p = s ∨ session_step s (dispatch_datagram s p).
Proof.
  unfold dispatch_datagram. destruct p; [by left|]. destruct (DecodeVarint _) as [[q n]|]; [|by left].
  destruct (_ =? _); [right; apply step_datagram|by left].
Qed.

(** Some loop has ended. *)
Definition ended (d : dispatcher) : Prop := d_bidi d && d_uni d && d_datagrams d = false.

Record dispatcher_inv (s : Session) (d : dispatcher) : Prop := {
  disp_reach : session_reach s (d_session d);
  disp_once : d_once d = true ↔ ended d;
  disp_closed : d_once d = true → s_closed (d_session d) = true
}.

Lemma session_move_inv s d s' : dispatcher_inv s d → s' = d_session d ∨ session_step (d_session d) s' → dispatcher_inv s (set_session s' d).
Proof.
  intros [R O C] [->|Hs]; constructor; cbn; try done.
  - by eapply reach_step.
  - intros Ho. by eapply session_step_closed; [|apply C].
Qed.

Lemma dispatcher_cleanup_inv s d d0 d' : dispatcher_inv s d0 → d_session d = d_session d0 → d_once d = d_once d0 → ended d →
  cleanup d = Done d' → dispatcher_inv s d'.
Proof.
  intros [R O C] Es Eo He. unfold cleanup. destruct (d_once d) eqn:E.
  - intros [= <-]. rewrite <- Eo in C, O. constructor; [by rewrite Es|by rewrite E|intros _; rewrite Es; by apply C].
  - destruct (Session_Close (d_session d)) as [s1|] eqn:Ec; [|done]. intros [= <-]. constructor; cbn; [|by split|].
    + rewrite Es in Ec. eapply reach_step; [exact R|]. by eapply step_close.
    + intros _. by eapply Close_closes.
Qed.

Lemma dispatched_inv s d : dispatched s d → dispatcher_inv s d.
Proof.
  induction 1 as [|d d' _ I Hs]; [constructor; cbn; [constructor|split; done|done]|].
  destruct Hs as [id st _|id st _|p _|d' Hb Hc|d' Hb Hc|d' Hb Hc|l1 i l2 b s' _ Hh|s' Hs].
  - by destruct I; constructor.
  - by destruct I; constructor.
  - apply session_move_inv; [done|apply dispatch_datagram_step].
  - apply (fun E1 E2 E3 => dispatcher_cleanup_inv s _ d d' I E1 E2 E3 Hc); done.
  - apply (fun E1 E2 E3 => dispatcher_cleanup_inv s _ d d' I E1 E2 E3 Hc); [done..|]. unfold ended. cbn. by rewrite andb_false_r.
  - apply (fun E1 E2 E3 => dispatcher_cleanup_inv s _ d d' I E1 E2 E3 Hc); [done..|]. unfold ended. cbn. by rewrite andb_false_r.
  - apply (session_move_inv s (set_handlers (l1 ++ l2) d)); [by destruct I; constructor|]. cbn. by eapply handle_step.
  - apply session_move_inv; [done|by right].
Qed.

(** The dispatcher drives its session only through the session's own
    operations, so that what holds of every session holds of it, and the session
    is closed, once, as soon as one of the three loops has ended. *)
Theorem dispatcher_closes id d : dispatched (NewSession id true) d →
  session_inv (d_session d) ∧ (d_once d = true ↔ ended d) ∧ (ended d → s_closed (d_session d) = true).
Proof.
  intros Hd. destruct (dispatched_inv _ d Hd) as [R O C]. split_and!; [|done|intros He; by apply C, O].
  clear -R. induction R as [|s s' _ IH Hs]; [apply session_inv_new|by eapply session_step_inv].
Qed.
End dial.

Module DialSample.
#[local] Existing Instance RFC9000.varint.
#[local] Existing Instance RFC9000.varint_laws.
#[local] Existing Instance ascii_case.
#[local] Instance print : UnicodePrint := {| IsPrint := λ _, true |}.

(** Texts as marked bytes and an end mark. *)
Definition put (s : bytes) : bytes := concat (map (λ c, [x01; c]) s) ++ [x00].
Fixpoint get (s : bytes) : option (bytes * bytes) :=
  match s with
  | m :: t =>
      if m =b x00 then Some ([], t)
      else match t with c :: u => match get u with Some (v, w) => Some (c :: v, w) | None => None end | [] => None end
  | [] => None
  end.

Definition encode (l : list (bytes * bytes)) : bytes := concat (map (λ h, put h.1 ++ put h.2) l).
Fixpoint decode (fuel : nat) (s : bytes) : list (bytes * bytes) :=
  match fuel with
  | O => []
  | S f => match get s with
           | Some (n, t) => match get t with Some (v, u) => (n, v) :: decode f u | None => [] end
           | None => []
           end
  end.

Lemma get_put s t : get (put s ++ t) = Some (s, t).
Proof. induction s as [|c s IH]; [done|]. unfold put in *. cbn in *. by rewrite IH. Qed.

Lemma decode_encode_list l fuel : (length l <= fuel)%nat → decode fuel (encode l) = l.
Proof.
  revert l. induction fuel as [|f IH]; intros [|[n v] l] Hl; cbn [length] in Hl; [done|lia|done|]. cbn [decode].
  change (encode ((n, v) :: l)) with ((put n ++ put v) ++ encode l). rewrite <- app_assoc, !get_put. rewrite IH by lia. done.
Qed.

Lemma encode_length l : (length l <= length (encode l))%nat.
Proof. induction l as [|[n v] l IH]; [done|]. change (encode ((n, v) :: l)) with ((put n ++ put v) ++ encode l). unfold put. lens. Qed.

#[local] Instance h3 : H3 :=
  {| FrameTypeSettings := 4; FrameTypeHeaders := 1;
     settings_Encode s := concat (map (λ kv, be_bytes 4 kv.1 ++ be_bytes 4 kv.2) (Other s));
     EncodeHeaderList _ l := encode l; qpack_Decode s := map (λ h, Header h.1 h.2) (decode (length s) s);
     Coalesce a b := if bytes_eqb a [] then b else a |}.

#[local] Instance h3_laws : H3Laws.
Proof.
  constructor.
  - vm_compute. repeat split; discriminate.
  - apply Nat.leb_le. vm_compute. reflexivity.
  - intros id l. cbn [qpack_Decode EncodeHeaderList h3]. by rewrite decode_encode_list by apply encode_length.
  - done.
Qed.

Definition url : bytes := str "https://example.com/wt?x=1".
Definition opts : list Option := [WithHeader (str "Origin") (str "https://a"); WithAvailableProtocols [str "moq"; str "chat"]].
Definition request : list (bytes * bytes) := connect_headers map_to_list (default {| u_Scheme := []; u_Opaque := []; u_User := None; u_Host := []; u_Path := [];
  u_RawPath := []; u_OmitHost := false; u_ForceQuery := false; u_RawQuery := []; u_Fragment := []; u_RawFragment := [] |} (url_Parse url)) (config_of opts).

Example request_headers : request =
  [(str ":method", str "CONNECT"); (str ":protocol", str "webtransport"); (str ":scheme", str "https"); (str ":authority", str "example.com");
   (str ":path", str "/wt?x=1"); (str "wt-available-protocols", [dquote] ++ str "moq" ++ [dquote] ++ str ", " ++ [dquote] ++ str "chat" ++ [dquote]);
   (str "origin", str "https://a")].
Proof. vm_compute. reflexivity. Qed.

Definition reply : list (bytes * bytes) := [(str ":status", str "200"); (str "wt-protocol", str "moq")].
Definition calls (resp : list (bytes * bytes)) : answers (error := unit) :=
  {| open_control := None; write_settings_header := None; write_settings := None; open_connect := Ok 4; write_frame := None;
     write_headers := None; response := headers_frame 4 resp ++ str "capsule" |}.

Lemma dial_handshake_witness : ∃ t, DialWithConn map_to_list (calls reply) true url opts = Done (Ok (NewSession 4 true, str "capsule"), t).
Proof.
  assert (is_Some (url_Parse url)) as [parsed Hp] by (vm_compute; eauto).
  assert (Z.of_nat (length (EncodeHeaderList 4 (connect_headers map_to_list parsed (config_of opts)))) <= vi_max) as Hl.
  { assert (connect_headers map_to_list parsed (config_of opts) = request) as -> by (unfold request; by rewrite Hp). vm_compute. discriminate. }
  destruct (dial_handshake map_to_list (calls reply) url opts parsed 4 4 reply (str "capsule") Hp eq_refl eq_refl eq_refl eq_refl eq_refl
    eq_refl eq_refl ltac:(vm_compute; discriminate) Hl) as (res & t & payload & H1 & _ & _ & _ & H2).
  assert ((200 <=? (Atoi (default [] (last_value (str ":status") reply))).1) && ((Atoi (default [] (last_value (str ":status") reply))).1 <? 300) = true)
    as E by (vm_compute; reflexivity).
  rewrite E in H2. destruct H2 as [-> _]. by exists t.
Defined.

(** An interim response ends the dial. *)
Example interim_response :
  match DialWithConn map_to_list (calls [(str ":status", str "103")]) true url opts with
  | Done (Err (ErrHandshakeFailed st), t) => st = str "103" ∧ last (t_connect t) = Some ControlClose
  | _ => False
  end.
Proof. vm_compute. by split. Qed.

(** A status that is not a number is not a success. *)
Example malformed_status :
  match DialWithConn map_to_list (calls [(str ":status", str "200 OK")]) true url opts with Done (Err (ErrHandshakeFailed _), _) => True | _ => False end.
Proof. vm_compute. done. Qed.

(** The loop for datagrams fails, then that for streams. *)
Definition after_failure : option dispatcher :=
  match cleanup (set_loops true true false (StartConnectionDispatcher (NewSession 4 true))) with Done d => Some d | Panic => None end.

Lemma dispatcher_closes_witness : ∃ d, after_failure = Some d ∧ s_closed (d_session d) = true ∧ session_inv (d_session d).
Proof.
  destruct after_failure as [d|] eqn:E; [|vm_compute in E; discriminate E]. exists d. unfold after_failure in E.
  destruct (cleanup _) as [d'|] eqn:Ec; [|discriminate E]. injection E as <-.
  pose proof (dispatched_step _ _ _ (dispatched_start _) (datagrams_fail (StartConnectionDispatcher (NewSession 4 true)) d' eq_refl Ec)) as Hr.
  destruct (dispatcher_closes 4 d' Hr) as (I & O & C). split; [reflexivity|]. split; [|exact I]. apply C, O.
  assert (d_once d' = true) as -> by (unfold cleanup in Ec; cbn in Ec; injection Ec as <-; reflexivity). reflexivity.
Defined.
End DialSample.
