(* ===== verification/Extract.v ===== *)
(** * Extraction of text between boundaries and of HTML attributes
    (src/extract/extract.go)

    One-shot extraction with its errors, and the push iterators, whose [yield]
    callback is an argument that threads the caller's state and says whether to
    go on. *)

From S2P Require Import Prelude GoLib.

#[local] Open Scope nat_scope.

Inductive extract_error := ErrElementNotFound | ErrBetweenNotFound | ErrAttrNotFound | ErrRegexMismatch.

(** ** Between *)

Definition Between (src prefix suffix : bytes) : result extract_error bytes :=
  let start :=
    match prefix with
    | [] => Some 0
    | _ => pIdx ← Index src prefix; Some (pIdx + length prefix)
    end in
  match start with
  | None => Err ErrBetweenNotFound
  | Some startIdx =>
      let remaining := drop startIdx src in
      match suffix with
      | [] => Ok remaining
      | _ =>
          match Cut remaining suffix with
          | None => Err ErrBetweenNotFound
          | Some (before, _) => Ok before
          end
      end
  end.

(** [BetweenResult] and [BetweenString] keep the error, [BetweenOptional] drops it. *)
Definition BetweenResult (src prefix suffix : bytes) : result extract_error bytes :=
  match Between src prefix suffix with Ok b => Ok b | Err e => Err e end.

Definition BetweenOptional (src prefix suffix : bytes) : option bytes :=
  match Between src prefix suffix with Ok b => Some b | Err _ => None end.

(** ** Attributes *)

Definition dquote : byte := x22.
Definition squote : byte := x27.

Definition extractAttributeValue (data attrName : bytes) : result extract_error bytes :=
  let key1 := attrName ++ str "=" ++ [dquote] in
  let key2 := attrName ++ str "=" ++ [squote] in
  let found := match Index data key1 with
               | Some idx => Some (idx, key1, dquote)
               | None => match Index data key2 with
                         | Some idx => Some (idx, key2, squote)
                         | None => None
                         end
               end in
  match found with
  | None => Err ErrAttrNotFound
  | Some (idx, attrKey, quote) =>
      let start := idx + length attrKey in
      match IndexByte (drop start data) quote with
      | None => Err ErrAttrNotFound
      | Some end_ => Ok (take end_ (drop start data))
      end
  end.

Definition Attr (src css attrName : bytes) : result extract_error bytes :=
  match css with
  | c :: idTarget =>
      if negb (c =b x23) then extractAttributeValue src attrName
      else
        let found := match Index src (str "id=" ++ [dquote] ++ idTarget ++ [dquote]) with
                     | Some p => Some p
                     | None => Index src (str "id=" ++ [squote] ++ idTarget ++ [squote])
                     end in
        match found with
        | None => Err ErrElementNotFound
        | Some pos =>
            match LastIndexByte (take pos src) x3c with
            | None => Err ErrAttrNotFound
            | Some tagStart =>
                match IndexByte (drop pos src) x3e with
                | None => Err ErrAttrNotFound
                | Some tagEnd =>
                    extractAttributeValue
                      (take (pos + tagEnd + 1 - tagStart) (drop tagStart src)) attrName
                end
            end
        end
  | [] => extractAttributeValue src attrName
  end.

Definition AttrResult (src css attrName : bytes) : result extract_error bytes :=
  match Attr src css attrName with Ok b => Ok b | Err e => Err e end.

Definition AttrOptional (src css attrName : bytes) : option bytes :=
  match Attr src css attrName with Ok b => Some b | Err _ => None end.

(** ** Iterators

    [yield] is the consumer: it takes its state and a value and returns its new
    state and whether it wants more. *)

Section iterators.
Context {S : Type} (yield : S → bytes → S * bool).

(** The loop at [cursor]; [None] when the fuel is used up. *)
Fixpoint between_loop (fuel : nat) (src p s : bytes) (cursor : nat) (st : S) : option S :=
  match fuel with
  | O => None
  | Datatypes.S fuel' =>
      if cursor <? length src then
        match Index (drop cursor src) p with
        | None => Some st
        | Some idx =>
            let start := cursor + idx + length p in
            match s with
            | [] => Some (yield st (drop start src)).1
            | _ =>
                match Index (drop start src) s with
                | None => Some st
                | Some end_ =>
                    let matched := take end_ (drop start src) in
                    let '(st', more) := yield st matched in
                    if more then between_loop fuel' src p s (start + end_ + length s) st'
                    else Some st'
                end
            end
        end
      else Some st
  end.

(** Every round moves the cursor by at least the length of the suffix. *)
Definition BetweenAll (src prefix suffix : bytes) (st : S) : option S :=
  match prefix, suffix with
  | [], [] => Some st
  | _, _ => between_loop (length src + 1) src prefix suffix 0 st
  end.

Definition BetweenAllString : bytes → bytes → bytes → S → option S := BetweenAll.

Fixpoint attrs_loop (fuel : nat) (src key1 key2 : bytes) (cursor : nat) (st : S) : option S :=
  match fuel with
  | O => None
  | Datatypes.S fuel' =>
      if cursor <? length src then
        let idx1 := Index (drop cursor src) key1 in
        let idx2 := Index (drop cursor src) key2 in
        let pick :=
          match idx1, idx2 with
          | Some i1, None => Some (dquote, i1 + length key1)
          | Some i1, Some i2 => if i1 <? i2 then Some (dquote, i1 + length key1)
                                else Some (squote, i2 + length key2)
          | None, Some i2 => Some (squote, i2 + length key2)
          | None, None => None
          end in
        match pick with
        | None => Some st
        | Some (quote, startOffset) =>
            let valStart := cursor + startOffset in
            match IndexByte (drop valStart src) quote with
            | None => Some st
            | Some valEnd =>
                let '(st', more) := yield st (take valEnd (drop valStart src)) in
                if more then attrs_loop fuel' src key1 key2 (valStart + valEnd + 1) st'
                else Some st'
            end
        end
      else Some st
  end.

Definition AttrsAll (src attrName : bytes) (st : S) : option S :=
  match attrName with
  | [] => Some st
  | _ => attrs_loop (length src + 1) src (attrName ++ str "=" ++ [dquote])
           (attrName ++ str "=" ++ [squote]) 0 st
  end.
End iterators.

(** A consumer run over a list of values. *)
Fixpoint consume {S} (yield : S → bytes → S * bool) (st : S) (vs : list bytes) : S :=
  match vs with
  | [] => st
  | v :: vs' => let '(st', more) := yield st v in if more then consume yield st' vs' else st'
  end.

(** The consumer that collects everything. *)
Definition collect (st : list bytes) (v : bytes) : list bytes * bool := (st ++ [v], true).

(** ** What extraction means *)

(** [p] starts nowhere before the end of [pre]. *)
Definition none_before (src p : bytes) (n : nat) : Prop := ∀ j, j < n → ¬ occurs_at src p j.

(** [src] has no prefix followed by a suffix. *)
Definition no_delimited (p s src : bytes) : Prop :=
  ∀ pre r post, src ≠ pre ++ p ++ r ++ s ++ post.

(** The non-overlapping texts between [p] and [s], leftmost and shortest first. *)
Inductive segments (p s : bytes) : bytes → list bytes → Prop :=
| segments_end src : no_delimited p s src → segments p s src []
| segments_more src pre m rest ms :
    src = pre ++ p ++ m ++ s ++ rest → none_before src p (length pre) →
    none_before (m ++ s ++ rest) s (length m) →
    segments p s rest ms → segments p s src (m :: ms).

Lemma occurs_at_app pre p t : occurs_at (pre ++ p ++ t) p (length pre).
Proof. split; [lens|]. rewrite drop_app_exact. apply HasPrefix_app. Qed.

Lemma Index_le pre p t : ∃ i, Index (pre ++ p ++ t) p = Some i ∧ i <= length pre.
Proof.
  destruct (Index (pre ++ p ++ t) p) as [i|] eqn:E.
  - exists i. split; [done|]. apply Index_Some in E as [_ Hm].
    destruct (decide (i <= length pre)); [done|].
    destruct (Hm (length pre)); [lia|]. apply occurs_at_app.
  - apply Index_None with (i := length pre) in E. destruct E. apply occurs_at_app.
Qed.

(** The prefix's first occurrence leaves every later suffix in view. *)
Lemma no_delimited_after p s src i :
  Index src p = Some i → Index (drop (i + length p) src) s = None → no_delimited p s src.
Proof.
  intros Hi Hs pre r post ->. destruct (Index_le pre p (r ++ s ++ post)) as (j & Hj & Hle).
  rewrite Hi in Hj. injection Hj as <-.
  assert (∃ k, drop (i + length p) (pre ++ p ++ r ++ s ++ post) = k ++ s ++ post) as [k Hk].
  { exists (drop (i + length p) (pre ++ p ++ r)).
    replace (pre ++ p ++ r ++ s ++ post) with ((pre ++ p ++ r) ++ s ++ post)
      by (by rewrite <- !app_assoc). by rewrite drop_app_le by lens. }
  rewrite Hk in Hs. destruct (Index_le k s post) as (? & ? & _). congruence.
Qed.

Lemma no_prefix p s src : Index src p = None → no_delimited p s src.
Proof.
  intros Hi pre r post ->. destruct (Index_le pre p (r ++ s ++ post)) as (j & ? & _). congruence.
Qed.

(** The text around the first prefix and the first suffix after it. *)
Lemma first_delimited p s src i e :
  let rest := drop (i + length p) src in
  Index src p = Some i → Index rest s = Some e →
  src = take i src ++ p ++ take e rest ++ s ++ drop (e + length s) rest ∧
  none_before src p (length (take i src)) ∧
  none_before (take e rest ++ s ++ drop (e + length s) rest) s (length (take e rest)).
Proof.
  cbv zeta. intros Hi He. pose proof (Index_split _ _ _ Hi) as Hs1.
  pose proof (Index_split _ _ _ He) as Hs2.
  pose proof (Index_bound _ _ _ Hi). pose proof (Index_bound _ _ _ He).
  apply Index_Some in Hi as [_ Hi]. apply Index_Some in He as [_ He].
  split_and!.
  - by rewrite <- Hs2.
  - intros j Hj. apply Hi. lens.
  - rewrite <- Hs2. intros j Hj. apply He. lens.
Qed.

Definition between_ok (src p s r : bytes) : Prop :=
  ∃ pre post, src = pre ++ p ++ r ++ s ++ post ∧ none_before src p (length pre) ∧
    match s with [] => post = [] | _ => none_before (r ++ s ++ post) s (length r) end.

Lemma Between_start (src p : bytes) :
  (match p with [] => Some 0 | _ => pIdx ← Index src p; Some (pIdx + length p) end) =
  (i ← Index src p; Some (i + length p)).
Proof. destruct p; [|done]. by destruct src. Qed.

Lemma Between_cases (src p s : bytes) :
  match Between src p s with
  | Ok r => between_ok src p s r
  | Err e => e = ErrBetweenNotFound ∧ no_delimited p s src
  end.
Proof.
  unfold Between. rewrite Between_start.
  destruct (Index src p) as [i|] eqn:Ei; simpl; [|split; [done|by apply no_prefix]].
  destruct s as [|c s0].
  - exists (take i src), []. split_and!; [|by intros j Hj; apply Index_Some in Ei as [_ Hm]; apply Hm; lens|done].
    rewrite !app_nil_r. by apply Index_split.
  - unfold Cut. destruct (Index (drop (i + length p) src) (c :: s0)) as [e|] eqn:Ee; simpl.
    + destruct (first_delimited _ _ _ _ _ Ei Ee) as (H1 & H2 & H3).
      exists (take i src), (drop (e + length (c :: s0)) (drop (i + length p) src)). auto.
    + split; [done|]. by eapply no_delimited_after.
Qed.

(** [Between] returns the text after the first occurrence of the prefix up
    to the first following suffix (to the end, for an empty suffix), and fails
    exactly when the source has no prefix followed by a suffix anywhere. *)
Theorem between_spec (src p s : bytes) :
  match Between src p s with
  | Ok r => between_ok src p s r
  | Err e => e = ErrBetweenNotFound ∧ no_delimited p s src
  end.
Proof. apply Between_cases. Qed.

(** ** The iterator over segments *)

Lemma Index_first pre p t : none_before (pre ++ p ++ t) p (length pre) →
  Index (pre ++ p ++ t) p = Some (length pre).
Proof. intros H. apply Index_Some. split; [apply occurs_at_app|done]. Qed.

Lemma drop_prefix (pre p t : bytes) : drop (length pre + length p) (pre ++ p ++ t) = t.
Proof. by rewrite app_assoc, <- length_app, drop_app_exact. Qed.

Lemma segments_head p s src ms :
  s ≠ [] → segments p s src ms → head ms = BetweenOptional src p s.
Proof.
  intros Hs Hseg. unfold BetweenOptional. destruct Hseg as [src Hn|src pre m rest ms -> H1 H2 _].
  - pose proof (Between_cases src p s) as HB. destruct (Between src p s) as [r|e]; [|done].
    destruct HB as (pre & post & -> & _). by destruct (Hn pre r post).
  - unfold Between. rewrite Between_start, Index_first by done. simpl.
    destruct s as [|b s0]; [done|]. rewrite drop_prefix. unfold Cut.
    rewrite Index_first by done. simpl. by rewrite take_app_exact.
Qed.

Lemma between_loop_spec p s src : s ≠ [] → ∀ fuel c,
  c <= length src → length src - c < fuel →
  ∃ ms, segments p s (drop c src) ms ∧
    ∀ S (yield : S → bytes → S * bool) st,
      between_loop yield fuel src p s c st = Some (consume yield st ms).
Proof.
  intros Hs. induction fuel as [|fuel IH]; intros c Hc Hf; [lia|].
  destruct s as [|b s0]; [done|]. set (s := b :: s0) in *.
  cbn [between_loop]. destruct (c <? length src) eqn:El; bools.
  2:{ exists []. split; [|done]. constructor. rewrite drop_ge by lia. intros pre r post H.
      apply (f_equal length) in H. rewrite !length_app in H. simpl in H. lia. }
  destruct (Index (drop c src) p) as [i|] eqn:Ei.
  2:{ exists []. split; [|done]. constructor. by apply no_prefix. }
  unfold s at 1. cbv zeta.
  replace (drop (c + i + length p) src) with (drop (i + length p) (drop c src))
    by (rewrite drop_drop; f_equal; lia).
  destruct (Index (drop (i + length p) (drop c src)) s) as [e|] eqn:Ee.
  2:{ exists []. split; [|done]. constructor. by eapply no_delimited_after. }
  destruct (first_delimited _ _ _ _ _ Ei Ee) as (H1 & H2 & H3).
  pose proof (Index_bound _ _ _ Ei) as B1. pose proof (Index_bound _ _ _ Ee) as B2.
  rewrite !length_drop in *. assert (1 <= length s) by (unfold s; simpl; lia).
  destruct (IH (c + i + length p + e + length s)) as (ms & M1 & M2); [lia..|].
  exists (take e (drop (i + length p) (drop c src)) :: ms). split.
  - eapply segments_more; [exact H1|done|done|]. by rewrite !drop_drop, !Nat.add_assoc.
  - intros S yield st. simpl. destruct (yield st _) as [st' [|]]; [|done]. apply M2.
Qed.

(** C21: [BetweenAll] always finishes and hands to its consumer, until that
    stops it, exactly the non-overlapping texts between prefix and suffix; the
    first of them is what [Between] returns, and an empty suffix gives only that one. *)
Theorem between_all_spec (src p s : bytes) :
  ∃ ms, (∀ S (yield : S → bytes → S * bool) st,
           BetweenAll yield src p s st = Some (consume yield st ms)) ∧
    (s ≠ [] → segments p s src ms ∧ head ms = BetweenOptional src p s) ∧
    (s = [] → p ≠ [] → ms = match src with [] => [] | _ => option_list (BetweenOptional src p s) end).
Proof.
  destruct s as [|b s0].
  - destruct p as [|a p0].
    { exists []. split_and!; done. }
    exists (match src with [] => [] | _ => option_list (BetweenOptional src (a :: p0) []) end).
    split_and!; [|done..]. intros S yield st. unfold BetweenAll.
    rewrite Nat.add_1_r. cbn [between_loop]. destruct src as [|c src0]; [done|].
    set (src := c :: src0). change (0 <? length src) with true. cbv iota.
    unfold BetweenOptional, Between. rewrite drop_0.
    destruct (Index src (a :: p0)) as [i|]; simpl; [|done]. by destruct (yield _ _) as [st' [|]].
  - destruct (between_loop_spec p (b :: s0) src ltac:(done) (length src + 1) 0) as (ms & M1 & M2);
      [lia..|].
    exists ms. rewrite drop_0 in M1. split_and!; [|intros _; split; [done|]|done].
    { intros S yield st. unfold BetweenAll. destruct p; apply M2. }
    by eapply segments_head.
Qed.

(** ** Attribute values *)

Definition attr_key (name : bytes) (q : byte) : bytes := name ++ str "=" ++ [q].

Definition no_key (name : bytes) (q : byte) (src : bytes) : Prop :=
  ∀ i, ¬ occurs_at src (attr_key name q) i.

(** What a value lookup can find at the first key with quote [q]. *)
Definition value_at (name : bytes) (q : byte) (src v rest : bytes) : Prop :=
  ∃ pre, src = pre ++ attr_key name q ++ v ++ (q :: rest) ∧ (q ∉ v) ∧
    none_before src (attr_key name q) (length pre).

Definition open_value (name : bytes) (q : byte) (src : bytes) : Prop :=
  ∃ pre t, src = pre ++ attr_key name q ++ t ∧ q ∉ t.

Lemma IndexByte_split s c i : IndexByte s c = Some i →
  s = take i s ++ (c :: drop (S i) s) ∧ c ∉ take i s.
Proof.
  intros [H1 H2]%IndexByte_Some. split.
  - symmetry. by apply take_drop_middle.
  - intros (j & Hj)%list_elem_of_lookup. apply lookup_take_Some in Hj as [Hj Hl]. by apply (H2 j).
Qed.

Lemma no_index s p : Index s p = None → ∀ i, ¬ occurs_at s p i.
Proof. apply Index_None. Qed.

Lemma first_value name q src i e :
  let rest := drop (i + length (attr_key name q)) src in
  Index src (attr_key name q) = Some i → IndexByte rest q = Some e →
  value_at name q src (take e rest) (drop (S e) rest) ∧ length (take i src) = i.
Proof.
  cbv zeta. intros Hi He. destruct (IndexByte_split _ _ _ He) as [H1 H2].
  pose proof (Index_bound _ _ _ Hi). split; [|lens]. exists (take i src). split_and!; [|done|].
  - rewrite <- H1. by apply Index_split.
  - apply Index_Some in Hi as [_ Hm]. intros j Hj. apply Hm. lens.
Qed.

Lemma first_open name q src i :
  Index src (attr_key name q) = Some i →
  IndexByte (drop (i + length (attr_key name q)) src) q = None → open_value name q src.
Proof.
  intros Hi He. exists (take i src), (drop (i + length (attr_key name q)) src).
  split; [by apply Index_split|by apply IndexByte_None].
Qed.

(** The value of the first double-quoted key, or, only when there is none,
    of the first single-quoted one, up to the closing quote; failure means that
    there is no key or that the value found is not terminated. *)
Theorem attr_value_spec (data name : bytes) :
  match extractAttributeValue data name with
  | Ok v => ∃ rest, value_at name dquote data v rest ∨
                    value_at name squote data v rest ∧ no_key name dquote data
  | Err e => e = ErrAttrNotFound ∧
      (no_key name dquote data ∧ no_key name squote data ∨
       open_value name dquote data ∨ open_value name squote data)
  end.
Proof.
  unfold extractAttributeValue. cbv zeta. fold (attr_key name dquote) (attr_key name squote).
  destruct (Index data (attr_key name dquote)) as [i|] eqn:E1.
  - destruct (IndexByte _ dquote) as [e|] eqn:Ee; [|eauto 6 using first_open].
    destruct (first_value _ _ _ _ _ E1 Ee) as [? _]. eauto.
  - pose proof (proj1 (Index_None _ _) E1) as Hn.
    destruct (Index data (attr_key name squote)) as [i|] eqn:E2.
    + destruct (IndexByte _ squote) as [e|] eqn:Ee; [|eauto 6 using first_open].
      destruct (first_value _ _ _ _ _ E2 Ee) as [? _]. eauto.
    + split; [done|]. left. split; [done|]. exact (no_index _ _ E2).
Qed.

(** The values of an attribute in order, both kinds of quotes. *)
Inductive attr_values (name : bytes) : bytes → list bytes → Prop :=
| values_none src : no_key name dquote src → no_key name squote src → attr_values name src []
| values_open src q : q = dquote ∨ q = squote → open_value name q src → attr_values name src []
| values_more src pre q v rest vs :
    q = dquote ∨ q = squote → src = pre ++ attr_key name q ++ v ++ (q :: rest) → q ∉ v →
    none_before src (attr_key name dquote) (length pre) →
    none_before src (attr_key name squote) (length pre) →
    attr_values name rest vs → attr_values name src (v :: vs).

(** The earlier of the two keys, with nothing of either kind before it. *)
Definition pick_key (name src : bytes) : option (byte * nat) :=
  match Index src (attr_key name dquote), Index src (attr_key name squote) with
  | Some i1, None => Some (dquote, i1)
  | Some i1, Some i2 => if i1 <? i2 then Some (dquote, i1) else Some (squote, i2)
  | None, Some i2 => Some (squote, i2)
  | None, None => None
  end.

Lemma attr_key_length name q : length (attr_key name q) = length name + 2.
Proof. unfold attr_key. rewrite !length_app. simpl. lia. Qed.

Lemma pick_key_spec name src q i :
  pick_key name src = Some (q, i) →
  (q = dquote ∨ q = squote) ∧ Index src (attr_key name q) = Some i ∧
  none_before src (attr_key name dquote) i ∧ none_before src (attr_key name squote) i.
Proof.
  unfold pick_key. destruct (Index src (attr_key name dquote)) as [i1|] eqn:E1;
    destruct (Index src (attr_key name squote)) as [i2|] eqn:E2; try done.
  - pose proof (proj2 (proj1 (Index_Some _ _ _) E1)) as M1.
    pose proof (proj2 (proj1 (Index_Some _ _ _) E2)) as M2.
    destruct (i1 <? i2) eqn:E; bools; intros [= <- <-]; split_and!; auto;
      intros j Hj; [apply M2|apply M1]; lia.
  - pose proof (proj2 (proj1 (Index_Some _ _ _) E1)) as M1.
    intros [= <- <-]. split_and!; auto. intros j _. by apply no_index.
  - pose proof (proj2 (proj1 (Index_Some _ _ _) E2)) as M2.
    intros [= <- <-]. split_and!; auto. intros j _. by apply no_index.
Qed.

Lemma attrs_loop_unfold {S} (yield : S → bytes → S * bool) fuel src name c st :
  c < length src →
  attrs_loop yield (Datatypes.S fuel) src (attr_key name dquote) (attr_key name squote) c st =
  match pick_key name (drop c src) with
  | None => Some st
  | Some (q, i) =>
      let rest := drop (i + length (attr_key name q)) (drop c src) in
      match IndexByte rest q with
      | None => Some st
      | Some e =>
          let '(st', more) := yield st (take e rest) in
          if more then attrs_loop yield fuel src (attr_key name dquote) (attr_key name squote)
                         (c + i + length (attr_key name q) + e + 1) st'
          else Some st'
      end
  end.
Proof.
  intros Hc. cbn [attrs_loop]. destruct (c <? length src) eqn:E; bools; [|lia].
  unfold pick_key. cbv zeta.
  destruct (Index _ (attr_key name dquote)) as [i1|], (Index _ (attr_key name squote)) as [i2|];
    [destruct (i1 <? i2)|..]; rewrite ?attr_key_length, ?drop_drop, ?Nat.add_assoc; done.
Qed.

Lemma attrs_loop_spec name src : ∀ fuel c,
  c <= length src → length src - c < fuel →
  ∃ vs, attr_values name (drop c src) vs ∧
    ∀ S (yield : S → bytes → S * bool) st,
      attrs_loop yield fuel src (attr_key name dquote) (attr_key name squote) c st =
        Some (consume yield st vs).
Proof.
  induction fuel as [|fuel IH]; intros c Hc Hf; [lia|].
  destruct (decide (c < length src)) as [Hl|Hl].
  2:{ exists []. split; [|intros; simpl; destruct (c <? length src) eqn:E; bools; [lia|done]].
      rewrite drop_ge by lia. constructor; intros i [Hi Hp]; rewrite drop_nil in Hp;
        apply HasPrefix_length in Hp; rewrite attr_key_length in Hp; simpl in Hp; lia. }
  setoid_rewrite attrs_loop_unfold; [|done].
  destruct (pick_key name (drop c src)) as [[q i]|] eqn:Ep.
  2:{ exists []. split; [|done]. unfold pick_key in Ep. repeat case_match; try done.
      constructor; red; by apply no_index. }
  apply pick_key_spec in Ep as (Hq & Hi & N1 & N2). cbv zeta.
  destruct (IndexByte _ q) as [e|] eqn:Ee.
  2:{ exists []. split; [|done]. econstructor 2; [done|by eapply first_open]. }
  destruct (first_value _ _ _ _ _ Hi Ee) as [(pre & _) Hlen].
  pose proof (Index_bound _ _ _ Hi) as B1. pose proof (IndexByte_bound _ _ _ Ee) as B2.
  destruct (IndexByte_split _ _ _ Ee) as [HS1 HS2].
  rewrite !length_drop in *.
  destruct (IH (c + i + length (attr_key name q) + e + 1)) as (vs & V1 & V2); [lia..|].
  eexists (_ :: vs). split.
  - eapply (values_more _ _ (take i (drop c src)) q); [done| |exact HS2| | |].
    + rewrite <- HS1. by apply Index_split.
    + by rewrite Hlen.
    + by rewrite Hlen.
    + rewrite !drop_drop. by replace (c + (i + length (attr_key name q) + Datatypes.S e))
        with (c + i + length (attr_key name q) + e + 1) by lia.
  - intros S yield st. simpl. destruct (yield st _) as [st' [|]]; [|done]. apply V2.
Qed.

(** [AttrsAll] always finishes and hands to its consumer, until that stops
    it, the values of all keys in order of appearance, single- and double-quoted
    alike, up to the first value that is not terminated. *)
Theorem attrs_all_spec (src name : bytes) :
  ∃ vs, (∀ S (yield : S → bytes → S * bool) st,
           AttrsAll yield src name st = Some (consume yield st vs)) ∧
    (name = [] → vs = []) ∧ (name ≠ [] → attr_values name src vs).
Proof.
  destruct name as [|a name]; [by exists []|].
  destruct (attrs_loop_spec (a :: name) src (length src + 1) 0) as (vs & V1 & V2); [lia..|].
  exists vs. rewrite drop_0 in V1. split_and!; [|done|done]. intros S yield st. apply V2.
Qed.

(** The name of an attribute is not anchored: asking for [n2] returns the
    value of an attribute called [n1 ++ n2] that comes first, such as
    [data-href] for [href]. *)
Theorem attr_name_unanchored (n1 n2 v rest : bytes)
  (H1 : x3d ∉ n1) (H2 : x3d ∉ n2) (Hv : dquote ∉ v) :
  extractAttributeValue (attr_key (n1 ++ n2) dquote ++ v ++ (dquote :: rest)) n2 = Ok v.
Proof.
  unfold extractAttributeValue. cbv zeta. fold (attr_key n2 dquote) (attr_key n2 squote).
  replace (attr_key (n1 ++ n2) dquote ++ v ++ dquote :: rest)
    with (n1 ++ attr_key n2 dquote ++ (v ++ dquote :: rest))
    by (unfold attr_key; by rewrite <- !app_assoc).
  rewrite Index_first.
  - rewrite drop_prefix, IndexByte_app by done. by rewrite take_app_exact.
  - intros j Hj [_ [t Ht]%HasPrefix_spec].
    assert ((drop j (n1 ++ attr_key n2 dquote ++ v ++ dquote :: rest)) !! length n2 = Some x3d) as Hl.
    { rewrite Ht. unfold attr_key. by rewrite <- !app_assoc, lookup_app_r, Nat.sub_diag by lia. }
    rewrite lookup_drop in Hl. unfold attr_key in Hl.
    rewrite <- !app_assoc, app_assoc, lookup_app_l in Hl by lens.
    apply list_elem_of_lookup_2 in Hl. apply elem_of_app in Hl. tauto.
Qed.

(** ** The theorems at concrete inputs *)

Lemma attr_name_unanchored_witness :
  extractAttributeValue
    (str "data-href=" ++ [dquote] ++ str "/t" ++ [dquote] ++ str " href=" ++ [dquote] ++ str "/u" ++ [dquote])
    (str "href") = Ok (str "/t").
Proof.
  apply (attr_name_unanchored (str "data-") (str "href") (str "/t")
           (str " href=" ++ [dquote] ++ str "/u" ++ [dquote]));
    apply (bool_decide_unpack _); vm_compute; exact I.
Defined.

Example between_all_example :
  BetweenAll collect (str "[a][b][c") (str "[") (str "]") [] = Some [str "a"; str "b"].
Proof. reflexivity. Qed.
