(* ===== verification/ExtractRegex.v ===== *)
(** * Extraction with regular expressions, and the forms of the results
    (src/extract/extract.go)

    Package regexp is a class: what a compiled pattern finds in a text. A match
    is the text of the whole match followed by those of its groups, [None] for a
    group that took no part. *)

From S2P Require Import Prelude GoLib Extract.

Class Regexps := {
  Regexp : Type;
  Compile : bytes → option Regexp;
  FindAllSubmatch : Regexp → bytes → list (list (option bytes))
}.

(** The documented shape of matches: each has one text more than the pattern
    has groups, the first of which is there. *)
Class RegexpLaws `{Regexps} := {
  NumSubexp : Regexp → nat;
  match_shape rx src m : m ∈ FindAllSubmatch rx src → ∃ t gs, m = Some t :: gs ∧ length gs = NumSubexp rx
}.

Section regex.
Context {RX : Regexps}.

(** [FindSubmatch] gives the first match, and nothing if there is none. *)
Definition FindSubmatch (rx : Regexp) (src : bytes) : list (option bytes) := default [] (head (FindAllSubmatch rx src)).

Inductive regex_error := ErrCompile | ErrMismatch.

(** A nil slice is [None]. *)
Definition Regex (src pattern : bytes) : result regex_error (option bytes) :=
  match Compile pattern with
  | None => Err ErrCompile
  | Some rx =>
      match FindSubmatch rx src with
      | [] => Err ErrMismatch
      | [m0] => Ok m0
      | _ :: m1 :: _ => Ok m1
      end
  end.

(** The text of a nil slice is empty. *)
Definition B2S (b : option bytes) : bytes := default [] b.

Definition RegexResult (src pattern : bytes) : result regex_error (option bytes) := Regex src pattern.
Definition RegexString (src pattern : bytes) : result regex_error bytes := b ← Regex src pattern; Ok (B2S b).
Definition RegexOptional (src pattern : bytes) : option bytes :=
  match Regex src pattern with Ok b => Some (B2S b) | Err _ => None end.

(** The same forms of the other functions. *)
Definition BetweenString (src prefix suffix : bytes) : result extract_error bytes := b ← Between src prefix suffix; Ok b.
Definition AttrString (src css attrName : bytes) : result extract_error bytes := b ← Attr src css attrName; Ok b.

Section iterators.
Context {S : Type} (yield : S → option bytes → S * bool) (yield_match : S → list (option bytes) → S * bool).

Fixpoint regex_loop (matches : list (list (option bytes))) (st : S) : S :=
  match matches with
  | [] => st
  | m :: rest =>
      match m with
      | _ :: m1 :: _ => let '(st', more) := yield st m1 in if more then regex_loop rest st' else st'
      | [m0] => let '(st', more) := yield st m0 in if more then regex_loop rest st' else st'
      | [] => regex_loop rest st
      end
  end.

(** A nil pattern yields nothing. *)
Definition RegexAll (src : bytes) (rx : option Regexp) (st : S) : S :=
  match rx with None => st | Some rx => regex_loop (FindAllSubmatch rx src) st end.

Fixpoint submatch_loop (matches : list (list (option bytes))) (st : S) : S :=
  match matches with
  | [] => st
  | m :: rest => let '(st', more) := yield_match st m in if more then submatch_loop rest st' else st'
  end.

Definition RegexAllSubmatch (src : bytes) (rx : option Regexp) (st : S) : S :=
  match rx with None => st | Some rx => submatch_loop (FindAllSubmatch rx src) st end.
End iterators.

(** The first group of a match, or the whole match of a pattern without groups. *)
Definition wanted (m : list (option bytes)) : option bytes := match m with [m0] => m0 | _ :: m1 :: _ => m1 | [] => None end.

(** A consumer that may stop. *)
Fixpoint consume_all {S A} (yield : S → A → S * bool) (st : S) (vs : list A) : S :=
  match vs with
  | [] => st
  | v :: vs' => let '(st', more) := yield st v in if more then consume_all yield st' vs' else st'
  end.

Context {RL : RegexpLaws}.

(** The iterator hands its consumer, until that stops it, the wanted text of
    every match in order; the first of them is what [Regex] returns, and [Regex]
    fails exactly for a pattern that does not compile or does not match. A
    pattern without groups never gives a nil text. *)
Theorem regex_all_spec src pattern rx : Compile pattern = Some rx →
  (∀ S (yield : S → option bytes → S * bool) st,
     RegexAll yield src (Some rx) st = consume_all yield st (map wanted (FindAllSubmatch rx src))) ∧
  (∀ S (yield : S → list (option bytes) → S * bool) st,
     RegexAllSubmatch yield src (Some rx) st = consume_all yield st (FindAllSubmatch rx src)) ∧
  Regex src pattern = match head (map wanted (FindAllSubmatch rx src)) with Some t => Ok t | None => Err ErrMismatch end ∧
  (NumSubexp rx = 0 → Regex src pattern ≠ Ok None).
Proof.
  intros Hc. assert (∀ m, m ∈ FindAllSubmatch rx src → ∃ t gs, m = Some t :: gs ∧ length gs = NumSubexp rx) as Hm
    by (intros m; apply match_shape).
  unfold RegexAll, RegexAllSubmatch, Regex, FindSubmatch. rewrite Hc. split; [|split; [|split]].
  - intros S yield. induction (FindAllSubmatch rx src) as [|m ms IH]; intros st; [done|]. cbn [regex_loop map consume_all].
    destruct (Hm m ltac:(by left)) as (t & gs & -> & _). destruct gs as [|g gs]; cbn [wanted];
      destruct (yield st _) as [st' []]; try done; apply IH; intros m' Hm'; apply Hm; by right.
  - intros S yield. clear Hm. induction (FindAllSubmatch rx src) as [|m ms IH]; intros st; [done|]. cbn [submatch_loop consume_all].
    destruct (yield st m) as [st' []]; [apply IH|done].
  - destruct (FindAllSubmatch rx src) as [|m ms]; [done|]. destruct (Hm m ltac:(by left)) as (t & gs & -> & _). by destruct gs.
  - intros H0. destruct (FindAllSubmatch rx src) as [|m ms]; [done|]. destruct (Hm m ltac:(by left)) as (t & gs & -> & Hg).
    destruct gs; [done|]. cbn in Hg. lia.
Qed.

(** A group that took no part in the match gives a nil slice without an error,
    whose text is empty. *)
Lemma absent_group src pattern rx t gs ms : Compile pattern = Some rx → FindAllSubmatch rx src = (Some t :: None :: gs) :: ms →
  Regex src pattern = Ok None ∧ RegexOptional src pattern = Some [].
Proof. intros Hc Hm. unfold RegexOptional, Regex, FindSubmatch. rewrite Hc, Hm. done. Qed.
End regex.

Module RegexSample.
(** Patterns that are a literal byte, with one group. *)
#[local] Instance literal : Regexps := {|
  Regexp := byte;
  Compile p := match p with [c] => Some c | _ => None end;
  FindAllSubmatch c src := map (λ d, [Some [d]; Some [d]]) (List.filter (λ d, d =b c) src)
|}.
#[local] Program Instance literal_laws : RegexpLaws := {| NumSubexp _ := 1 |}.
Next Obligation.
  intros c src m Hm. apply list_elem_of_fmap in Hm as (d & -> & _). by exists [d], [Some [d]].
Qed.

Lemma regex_all_spec_witness : Regex (str "abca") (str "a") = Ok (Some (str "a")).
Proof. apply (@regex_all_spec literal literal_laws (str "abca") (str "a") "a"%byte). reflexivity. Defined.
End RegexSample.
