(* ===== verification/Unescape.v ===== *)
(** * HTML entity decoding (src/extract/unescape.go)

    The scanner over ampersands and semicolons, numeric entities at uint32
    width, the table of named entities, and the properties of the decoded text:
    it is never longer than the input, valid UTF-8 stays valid, and every entity
    is replaced by the encoding of its code point. *)

From S2P Require Import Prelude GoLib.

#[local] Open Scope Z_scope.

(** ** Entities *)

(** [val <<= 4; val |= d] on a uint32; [None] for a byte that is no hex digit. *)
Definition hex_digit (c : byte) : option Z :=
  if between x30 x39 c then Some (bz c - 48)
  else if between x61 x66 c then Some (bz c - 97 + 10)
  else if between x41 x46 c then Some (bz c - 65 + 10)
  else None.

Fixpoint hex_value (val : Z) (ds : bytes) : option Z :=
  match ds with
  | [] => Some val
  | c :: ds' =>
      let val1 := Z.shiftl val 4 mod 2 ^ 32 in
      match hex_digit c with
      | None => None
      | Some d => hex_value (Z.lor val1 d) ds'
      end
  end.

Fixpoint decimal_value (val : Z) (ds : bytes) : option Z :=
  match ds with
  | [] => Some val
  | c :: ds' =>
      if (bz c <? 48) || (57 <? bz c) then None
      else
        let val1 := (val * 10 + (bz c - 48)) mod 2 ^ 32 in
        if MaxRune <? val1 then None else decimal_value val1 ds'
  end.

Definition to_rune (val : Z) : Z :=
  if (MaxRune <? val) || (55296 <=? val) && (val <=? 57343) then RuneError else val.

Definition parseNumericEntity (num : bytes) : option Z :=
  match num with
  | [] => None
  | c :: hexDigits =>
      if (c =b x78) || (c =b x58) then
        if (length hexDigits =? 0)%nat || (6 <? length hexDigits)%nat then None
        else to_rune <$> hex_value 0 hexDigits
      else if (7 <? length num)%nat then None
      else to_rune <$> decimal_value 0 num
  end.

(** The cases of the switch in [parseNamedEntity], in order. *)
Definition named_entities : list (bytes * Z) :=
  [(str "quot", 34);
   (str "amp", 38);
   (str "apos", 39);
   (str "lt", 60);
   (str "gt", 62);
   (str "nbsp", 160);
   (str "copy", 169);
   (str "reg", 174);
   (str "trade", 8482);
   (str "euro", 8364);
   (str "cent", 162);
   (str "pound", 163);
   (str "yen", 165);
   (str "sect", 167);
   (str "deg", 176);
   (str "plusmn", 177);
   (str "para", 182);
   (str "middot", 183);
   (str "times", 215);
   (str "divide", 247);
   (str "hellip", 8230);
   (str "ndash", 8211);
   (str "mdash", 8212);
   (str "lsquo", 8216);
   (str "rsquo", 8217);
   (str "sbquo", 8218);
   (str "ldquo", 8220);
   (str "rdquo", 8221);
   (str "bdquo", 8222);
   (str "dagger", 8224);
   (str "Dagger", 8225);
   (str "permil", 8240);
   (str "lsaquo", 8249);
   (str "rsaquo", 8250);
   (str "bull", 8226);
   (str "prime", 8242);
   (str "Prime", 8243);
   (str "oline", 8254);
   (str "frasl", 8260);
   (str "weierp", 8472);
   (str "image", 8465);
   (str "real", 8476);
   (str "alefsym", 8501);
   (str "larr", 8592);
   (str "uarr", 8593);
   (str "rarr", 8594);
   (str "darr", 8595);
   (str "harr", 8596);
   (str "crarr", 8629);
   (str "lArr", 8656);
   (str "uArr", 8657);
   (str "rArr", 8658);
   (str "dArr", 8659);
   (str "hArr", 8660);
   (str "forall", 8704);
   (str "part", 8706);
   (str "exist", 8707);
   (str "empty", 8709);
   (str "nabla", 8711);
   (str "isin", 8712);
   (str "notin", 8713);
   (str "ni", 8715);
   (str "prod", 8719);
   (str "sum", 8721);
   (str "minus", 8722);
   (str "lowast", 8727);
   (str "radic", 8730);
   (str "prop", 8733);
   (str "infin", 8734);
   (str "ang", 8736);
   (str "and", 8743);
   (str "or", 8744);
   (str "cap", 8745);
   (str "cup", 8746);
   (str "int", 8747);
   (str "there4", 8756);
   (str "sim", 8764);
   (str "cong", 8773);
   (str "asymp", 8776);
   (str "ne", 8800);
   (str "equiv", 8801);
   (str "le", 8804);
   (str "ge", 8805);
   (str "sub", 8834);
   (str "sup", 8835);
   (str "nsub", 8836);
   (str "sube", 8838);
   (str "supe", 8839);
   (str "oplus", 8853);
   (str "otimes", 8855);
   (str "perp", 8869);
   (str "sdot", 8901);
   (str "lceil", 8968);
   (str "rceil", 8969);
   (str "lfloor", 8970);
   (str "rfloor", 8971);
   (str "lang", 9001);
   (str "rang", 9002);
   (str "loz", 9674);
   (str "spades", 9824);
   (str "clubs", 9827);
   (str "hearts", 9829);
   (str "diams", 9830)].

Fixpoint lookup_name (name : bytes) (table : list (bytes * Z)) : option Z :=
  match table with
  | [] => None
  | (n, r) :: table' => if bytes_eqb n name then Some r else lookup_name name table'
  end.

Definition parseNamedEntity (name : bytes) : option Z := lookup_name name named_entities.

Definition parseHTMLEntity (entity : bytes) : option Z :=
  match entity with
  | [] => None
  | c :: rest => if c =b x23 then parseNumericEntity rest else parseNamedEntity entity
  end.

(** ** The scanner *)

Definition ampersand : byte := x26.
Definition semicolon : byte := x3b.

(** [None]: out of fuel. *)
Fixpoint append_unescape (fuel : nat) (dst src : bytes) : option bytes :=
  match fuel with
  | O => None
  | S fuel' =>
      match src with
      | [] => Some dst
      | _ =>
          match IndexByte src ampersand with
          | None => Some (dst ++ src)
          | Some idx =>
              let dst1 := dst ++ take idx src in
              let src1 := drop idx src in
              match IndexByte src1 semicolon with
              | None => append_unescape fuel' (dst1 ++ [ampersand]) (drop 1 src1)
              | Some semi =>
                  if (12 <? semi)%nat
                  then append_unescape fuel' (dst1 ++ [ampersand]) (drop 1 src1)
                  else
                    match parseHTMLEntity (take (semi - 1) (drop 1 src1)) with
                    | Some r => append_unescape fuel' (dst1 ++ EncodeRune r) (drop (semi + 1) src1)
                    | None => append_unescape fuel' (dst1 ++ [ampersand]) (drop 1 src1)
                    end
              end
          end
      end
  end.

(** Every round consumes at least one byte. *)
Definition AppendUnescape (dst src : bytes) : option bytes :=
  append_unescape (length src + 1) dst src.

Definition Unescape (src : bytes) : option bytes :=
  match IndexByte src ampersand with
  | None => Some src
  | Some _ => AppendUnescape [] src
  end.

Definition HTMLUnescape (src : bytes) : option bytes := Unescape src.
Definition AppendHTMLUnescape (dst src : bytes) : option bytes := AppendUnescape dst src.

Example unescape_example :
  Unescape (str "a &lt; b &#x41;&#65; &bogus; & &amp;amp;") = Some (str "a < b AA &bogus; & &amp;").
Proof. vm_compute. reflexivity. Qed.

(** ** What decoding means *)

(** No entity of at most eleven bytes closes after this ampersand. *)
Definition no_entity (rest : bytes) : Prop :=
  ∀ e rest', rest = e ++ semicolon :: rest' → semicolon ∉ e → (length e <= 11)%nat →
    parseHTMLEntity e = None.

Inductive unescapes : bytes → bytes → Prop :=
| unescapes_plain s : ampersand ∉ s → unescapes s s
| unescapes_entity t e r rest out :
    ampersand ∉ t → semicolon ∉ e → (length e <= 11)%nat → parseHTMLEntity e = Some r →
    unescapes rest out →
    unescapes (t ++ ampersand :: e ++ semicolon :: rest) (t ++ EncodeRune r ++ out)
| unescapes_bare t rest out :
    ampersand ∉ t → no_entity rest → unescapes rest out →
    unescapes (t ++ ampersand :: rest) (t ++ ampersand :: out).

Lemma first_byte s c i : IndexByte s c = Some i →
  ∃ t rest, s = t ++ c :: rest ∧ (c ∉ t) ∧ take i s = t ∧ drop i s = c :: rest ∧ length t = i.
Proof.
  intros [H1 H2]%IndexByte_Some. pose proof (lookup_lt_Some _ _ _ H1).
  exists (take i s), (drop (S i) s). split_and!; [by rewrite take_drop_middle| |done| |lens].
  - intros (j & Hj)%list_elem_of_lookup. apply lookup_take_Some in Hj as [Hj Hl]. by apply (H2 j).
  - by apply drop_S.
Qed.

(** The first semicolon decides. *)
Lemma no_entity_first e rest :
  semicolon ∉ e → ((length e <= 11)%nat → parseHTMLEntity e = None) →
  no_entity (e ++ semicolon :: rest).
Proof.
  intros He Hp e' rest' Heq He' Hl.
  assert (length e = length e') as Hlen.
  { pose proof (IndexByte_app e semicolon rest He) as H1. rewrite Heq, IndexByte_app in H1 by done.
    by injection H1. }
  apply app_inj_1 in Heq as [-> _]; [|done]. by apply Hp.
Qed.

(** The round of an ampersand that starts no entity. *)
Lemma bare_step fuel src t rest idx :
  ampersand ∉ t → src = t ++ ampersand :: rest → take idx src = t → drop idx src = ampersand :: rest →
  (∃ out, unescapes rest out ∧ ∀ dst, append_unescape fuel dst rest = Some (dst ++ out)) →
  no_entity rest → ∃ out, unescapes src out ∧
    ∀ dst, append_unescape fuel ((dst ++ take idx src) ++ [ampersand]) (drop 1 (drop idx src)) =
           Some (dst ++ out).
Proof.
  intros Ht Hs Htake Hdrop (out & U & Happ) Hn.
  exists (t ++ ampersand :: out). split; [rewrite Hs; by constructor|].
  intros dst. rewrite Htake, Hdrop. simpl drop. rewrite Happ. by rewrite <- !app_assoc.
Qed.

Lemma append_unescape_spec fuel src :
  (length src < fuel)%nat →
  ∃ out, unescapes src out ∧ ∀ dst, append_unescape fuel dst src = Some (dst ++ out).
Proof.
  revert src. induction fuel as [|fuel IH]; intros src Hf; [lia|].
  destruct src as [|c0 src0].
  { exists []. split; [constructor; apply not_elem_of_nil|]. intros. simpl. by rewrite app_nil_r. }
  set (src := c0 :: src0) in *. cbn [append_unescape].
  destruct (IndexByte src ampersand) as [idx|] eqn:Ei.
  2:{ exists src. split; [constructor; by apply IndexByte_None|]. done. }
  destruct (first_byte _ _ _ Ei) as (t & rest & Hs & Ht & Htake & Hdrop & Hidx).
  assert (length src = (length t + S (length rest))%nat) as Hls by (rewrite Hs; lens).
  pose proof (bare_step fuel src t rest idx Ht Hs Htake Hdrop (IH rest ltac:(lia))) as Hbare.
  unfold src at 2. cbv zeta.
  destruct (IndexByte (drop idx src) semicolon) as [semi|] eqn:Ese.
  2:{ destruct Hbare as (out & U & Happ); [|by exists out].
      rewrite Hdrop in Ese. apply IndexByte_None in Ese.
      intros e rest' -> _ _. destruct Ese. apply elem_of_cons. right.
      apply elem_of_app. right. by apply elem_of_cons; left. }
  rewrite Hdrop in Ese. destruct (first_byte _ _ _ Ese) as (e1 & rest1 & He & Hn & _ & Hd1 & Hl1).
  destruct e1 as [|a e]; [done|]. injection He as <- ->.
  assert (semicolon ∉ e) as Hne by (intros ?; apply Hn; by apply elem_of_cons; right).
  simpl in Hl1. rewrite Hdrop.
  destruct (12 <? semi)%nat eqn:E12; bools.
  { destruct Hbare as (out & U & Happ); [apply no_entity_first; [done|lia]|].
    exists out. split; [done|]. intros dst. by rewrite <- Happ, Hdrop. }
  change (drop 1 (ampersand :: e ++ semicolon :: rest1)) with (e ++ semicolon :: rest1).
  replace (semi - 1)%nat with (length e) by lia. rewrite take_app_exact.
  destruct (parseHTMLEntity e) as [r|] eqn:Ep.
  - destruct (IH rest1) as (out & U & Happ); [rewrite Hls in Hf; lens|].
    exists (t ++ EncodeRune r ++ out). split.
    + rewrite Hs. econstructor; try done. lia.
    + intros dst. rewrite Htake.
      replace (drop (semi + 1) (ampersand :: e ++ semicolon :: rest1)) with rest1.
      2:{ subst semi. rewrite Nat.add_1_r. simpl. change (S (length e)) with (1 + length e)%nat.
          rewrite Nat.add_comm, <- drop_drop, drop_app_exact. done. }
      rewrite Happ. by rewrite <- !app_assoc.
  - destruct Hbare as (out & U & Happ); [by apply no_entity_first|].
    exists out. split; [done|]. intros dst. by rewrite <- Happ, Hdrop.
Qed.

Lemma Unescape_run src :
  ∃ out, unescapes src out ∧ Unescape src = Some out ∧
    ∀ dst, AppendUnescape dst src = Some (dst ++ out).
Proof.
  destruct (append_unescape_spec (length src + 1) src) as (out & U & H); [lia|].
  unfold Unescape. destruct (IndexByte src ampersand) as [i|] eqn:E.
  - exists out. split; [done|]. split; [apply (H [])|exact H].
  - exists src. apply IndexByte_None in E. split; [by constructor|]. split; [done|].
    intros dst. unfold AppendUnescape. rewrite Nat.add_1_r. simpl.
    destruct src as [|c s]; [by rewrite app_nil_r|].
    rewrite (proj2 (IndexByte_None _ _) E). done.
Qed.

(** C20: decoding always finishes; every ampersand that starts a known entity of
    at most eleven bytes is replaced, with its semicolon, by the UTF-8 encoding
    of the code point, and all other bytes stay, in order.  Decoding into a
    buffer appends the same text. *)
Theorem unescape_spec (src : bytes) :
  ∃ out, Unescape src = Some out ∧ unescapes src out ∧
    ∀ dst, AppendUnescape dst src = Some (dst ++ out).
Proof. destruct (Unescape_run src) as (out & U & H1 & H2). eauto. Qed.

(** ** Size *)

Lemma lookup_name_table name table r :
  lookup_name name table = Some r → (name, r) ∈ table.
Proof.
  induction table as [|[n q] table IH]; simpl; [done|].
  destruct (bytes_eqb n name) eqn:E; bools.
  - intros [= ->]. subst. by apply elem_of_cons; left.
  - intros H. apply elem_of_cons. right. auto.
Qed.

Definition small_entity (p : bytes * Z) : bool := (length (EncodeRune p.2) <=? length p.1 + 2)%nat.

Lemma named_entity_size name r :
  parseNamedEntity name = Some r → (length (EncodeRune r) <= length name + 2)%nat.
Proof.
  intros H%lookup_name_table. assert (forallb small_entity named_entities = true) as Hall
    by (vm_compute; reflexivity).
  rewrite forallb_forall in Hall. apply list_elem_of_In in H. apply Hall in H.
  unfold small_entity in H. bools. exact H.
Qed.

Lemma entity_size e r :
  parseHTMLEntity e = Some r → (length (EncodeRune r) <= length e + 2)%nat.
Proof.
  destruct e as [|c e]; [done|]. cbn [parseHTMLEntity]. destruct (c =b x23).
  - intros H. pose proof (EncodeRune_length r). destruct e; [done|]. simpl. lia.
  - apply named_entity_size.
Qed.

Lemma unescapes_size src out : unescapes src out → (length out <= length src)%nat.
Proof.
  induction 1 as [s|t e r rest out Ht He Hl Hp U IH|t rest out Ht Hn U IH]; [done| |lens].
  pose proof (entity_size e r Hp). lens.
Qed.

(** The decoded text is never longer than the source, so the buffer that
    [Unescape] allocates is never grown. *)
Theorem unescape_never_grows (src : bytes) :
  ∃ out, Unescape src = Some out ∧ (length out <= length src)%nat.
Proof.
  destruct (Unescape_run src) as (out & U & H & _). exists out. split; [done|].
  by apply unescapes_size.
Qed.

(** ** UTF-8 *)

Lemma unescapes_valid src out : unescapes src out → Valid src = true → Valid out = true.
Proof.
  assert (Ha : bz ampersand < 128) by reflexivity.
  assert (Hs : bz semicolon < 128) by reflexivity.
  induction 1 as [s|t e r rest out Ht He Hl Hp U IH|t rest out Ht Hn U IH]; intros HV; [done| |].
  - apply Valid_split in HV as [H1 H2]; [|done]. apply Valid_split in H2 as [_ H2]; [|done].
    rewrite !Valid_app by (done || apply EncodeRune_valid). auto.
  - apply Valid_split in HV as [H1 H2]; [|done]. rewrite Valid_app by done. simpl. auto.
Qed.

(** Decoding keeps valid UTF-8 valid, whatever entities the text names. *)
Theorem unescape_keeps_utf8 (src : bytes) (HV : Valid src = true) :
  ∃ out, Unescape src = Some out ∧ Valid out = true.
Proof.
  destruct (Unescape_run src) as (out & U & H & _). exists out. split; [done|].
  by eapply unescapes_valid.
Qed.

(** ** Numeric entities *)

(** Horner's rule without machine words. *)
Definition hex_number (ds : bytes) : option Z :=
  foldl (λ acc c, match acc, hex_digit c with Some v, Some d => Some (v * 16 + d) | _, _ => None end)
    (Some 0) ds.

Lemma hex_digit_range c d : hex_digit c = Some d → 0 <= d < 16.
Proof.
  unfold hex_digit, between. change (bz x30) with 48. change (bz x39) with 57.
  change (bz x61) with 97. change (bz x66) with 102. change (bz x41) with 65.
  change (bz x46) with 70. repeat case_match; bools; intros; simplify_eq; lia.
Qed.

Lemma foldl_None ds : foldl (λ acc c, match acc, hex_digit c with
  | Some v, Some d => Some (v * 16 + d) | _, _ => None end) None ds = None.
Proof. by induction ds. Qed.

Lemma hex_value_number ds v k :
  0 <= v < 16 ^ k → 0 <= k → k + Z.of_nat (length ds) <= 8 →
  hex_value v ds = foldl (λ acc c, match acc, hex_digit c with
    | Some v, Some d => Some (v * 16 + d) | _, _ => None end) (Some v) ds.
Proof.
  revert v k. induction ds as [|c ds IH]; intros v k Hv Hk Hl; [done|].
  cbn [hex_value foldl]. cbv zeta. destruct (hex_digit c) as [d|] eqn:Ed; [|by rewrite foldl_None].
  apply hex_digit_range in Ed. simpl length in Hl.
  assert (16 ^ (k + 1) = 16 * 16 ^ k) as Hp by (rewrite Z.pow_add_r by lia; lia).
  assert (16 ^ (k + 1) <= 16 ^ 8) by (apply Z.pow_le_mono_r; lia).
  rewrite (Z.mod_small (Z.shiftl v 4)) by (rewrite Z.shiftl_mul_pow2 by lia; change (2 ^ 32) with (16 ^ 8); lia).
  rewrite Z.lor_comm, lor_shiftl_add by lia.
  rewrite (IH _ (k + 1)) by lia. do 2 f_equal. lia.
Qed.

Lemma decimal_value_number ds v :
  0 <= v <= MaxRune → Forall (λ c, is_digit c = true) ds →
  decimal_value v ds =
    let n := foldl (λ n c, n * 10 + (bz c - 48)) v ds in
    if MaxRune <? n then None else Some n.
Proof.
  intros Hv Hds. revert v Hv. induction Hds as [|c ds Hc Hds IH]; intros v Hv; simpl.
  { destruct (MaxRune <? v) eqn:E; bools; [lia|done]. }
  unfold is_digit, between in Hc. bools. change (bz x30) with 48 in *. change (bz x39) with 57 in *.
  destruct (_ || _) eqn:E; [apply orb_true_iff in E as [E|E]; bools; lia|]. clear E.
  unfold MaxRune in Hv. rewrite Z.mod_small by lia.
  destruct (MaxRune <? v * 10 + (bz c - 48)) eqn:E; bools.
  - destruct (MaxRune <? _) eqn:E2; bools; [done|].
    enough (v * 10 + (bz c - 48) <= foldl (λ n c, n * 10 + (bz c - 48)) (v * 10 + (bz c - 48)) ds) by lia.
    apply foldl_digits_mono; [done|lia].
  - rewrite IH by lia. done.
Qed.

(** A decimal entity of up to seven digits denotes the number written,
    U+FFFD for a surrogate, and is left as text above U+10FFFF; a hexadecimal
    one of up to six digits denotes the number written and U+FFFD for a
    surrogate or a number above U+10FFFF.  Machine words never overflow. *)
Theorem numeric_entity_spec (c : byte) (ds : bytes)
  (Hc : is_digit c = true) (Hds : Forall (λ c, is_digit c = true) ds)
  (Hlen : (1 + length ds <= 7)%nat) (hs : bytes) (Hh : (1 <= length hs <= 6)%nat) :
  parseNumericEntity (c :: ds) =
    (let n := dec_value (c :: ds) in if MaxRune <? n then None else Some (to_rune n)) ∧
  parseNumericEntity (x78 :: hs) = to_rune <$> hex_number hs ∧
  parseNumericEntity (x58 :: hs) = to_rune <$> hex_number hs.
Proof.
  assert (Hx : to_rune <$> hex_value 0 hs = to_rune <$> hex_number hs).
  { unfold hex_number. f_equal. apply (hex_value_number hs 0 0); lia. }
  assert (Hsz : (length hs =? 0)%nat || (6 <? length hs)%nat = false).
  { apply orb_false_iff. split; [apply Nat.eqb_neq|apply Nat.ltb_ge]; lia. }
  split; [|unfold parseNumericEntity; simpl; rewrite Hsz; auto].
  unfold parseNumericEntity.
  replace ((c =b x78) || (c =b x58)) with false.
  2:{ symmetry. unfold is_digit, between in Hc. bools. change (bz x30) with 48 in *.
      change (bz x39) with 57 in *. rewrite !beq_bz. change (bz x78) with 120.
      change (bz x58) with 88. apply orb_false_iff. split; apply Z.eqb_neq; lia. }
  replace (7 <? length (c :: ds))%nat with false by (symmetry; apply Nat.ltb_ge; simpl; lia).
  rewrite decimal_value_number; [|unfold MaxRune; lia|by constructor].
  cbv zeta. unfold dec_value. by destruct (MaxRune <? _).
Qed.

(** ** The theorems at concrete texts *)

Lemma unescape_keeps_utf8_witness :
  ∃ out, Unescape (str "x&#x1F600;&euro;y") = Some out ∧ Valid out = true.
Proof. apply (unescape_keeps_utf8 (str "x&#x1F600;&euro;y")). vm_compute. reflexivity. Defined.

Lemma numeric_entity_spec_witness :
  parseNumericEntity (str "1114112") = None ∧ parseNumericEntity (str "x110000") = Some RuneError.
Proof.
  destruct (numeric_entity_spec x31 (str "114112") eq_refl) with (hs := str "110000") as (H1 & H2 & _).
  - repeat constructor.
  - apply Nat.leb_le. reflexivity.
  - split; apply Nat.leb_le; reflexivity.
  - split; [exact H1|exact H2].
Defined.
