(* ===== verification/SocketFrame.v ===== *)
(** * Length-prefixed frames and the framed connection
    (src/socket/frame.go, the connection wrapper of src/socket/connector/connector.go)

    The frame buffer pool, the framer with its byte order, magic bytes and size
    limit, and the wrapper that encrypts a payload before framing it and
    decrypts it after reading. *)

From S2P Require Import Prelude GoLib.

#[local] Open Scope Z_scope.

(** ** Frame buffers *)

(** [B] of a [FrameBuffer]: the bytes in use and the capacity behind them. *)
Record FrameBuffer := { fb_B : bytes; fb_cap : nat }.

Definition maxPooledCapacity : nat := 128 * 1024.
Definition defaultMaxFrame : Z := 10 * 1024 * 1024.

Definition FrameBuffer_Reset (fb : FrameBuffer) : FrameBuffer :=
  {| fb_B := []; fb_cap := fb_cap fb |}.

Definition FrameBuffer_Len (fb : FrameBuffer) : nat := length (fb_B fb).

Definition FrameBuffer_Equal (fb : FrameBuffer) (other : bytes) : bool := bytes_eqb (fb_B fb) other.

(** The buffer the pool hands out, if it has one, has capacity [cap] and holds
    whatever its last user left in it ([stale], at least [cap] bytes). *)
Definition AcquireFrameBuffer (pooled : option (bytes * nat)) (len : nat) : FrameBuffer :=
  match pooled with
  | None => {| fb_B := replicate len x00; fb_cap := len |}
  | Some (stale, cap) =>
      if (cap <? len)%nat then {| fb_B := replicate len x00; fb_cap := len |}
      else {| fb_B := take len stale; fb_cap := cap |}
  end.

(** What goes back to the pool. *)
Definition ReleaseFrameBuffer (fb : option FrameBuffer) : option FrameBuffer :=
  match fb with
  | None => None
  | Some b => if (maxPooledCapacity <? fb_cap b)%nat then None
              else Some {| fb_B := []; fb_cap := fb_cap b |}
  end.

(** ** The framer *)

Inductive byte_order := LittleEndian | BigEndian.

Definition order_put (o : byte_order) (v : Z) : bytes :=
  match o with LittleEndian => le32 v | BigEndian => be32 v end.
Definition order_get (o : byte_order) (s : bytes) : option Z :=
  match o with LittleEndian => of_le32 s | BigEndian => of_be32 s end.

Record LengthPrefixedFramer := { ByteOrder : byte_order; Magic : bytes; MaxLength : Z }.

(** [generic.Coalesce] picks the first non-zero limit. *)
Definition NewLengthPrefixedFramer (o : option byte_order) (magic : bytes) (max : Z)
  : LengthPrefixedFramer :=
  {| ByteOrder := default LittleEndian o; Magic := magic;
     MaxLength := if max =? 0 then defaultMaxFrame else max |}.

Inductive frame_error :=
| ErrInvalidMagic | ErrFrameTooLarge | ErrHeaderSize | ErrEOF | ErrUnexpectedEOF
| ErrWrite | ErrCipher.

(** [io.ReadFull] of [n] bytes from a stream that ends after [st]. *)
Definition ReadFull (st : bytes) (n : nat) : result frame_error (bytes * bytes) :=
  if (n =? 0)%nat then Ok ([], st)
  else if (n <=? length st)%nat then Ok (take n st, drop n st)
  else Err (if (length st =? 0)%nat then ErrEOF else ErrUnexpectedEOF).

(** The payload and the rest of the stream. *)
Definition ReadFrame (f : LengthPrefixedFramer) (st : bytes) : result frame_error (bytes * bytes) :=
  let headerLen := (4 + length (Magic f))%nat in
  if (16 <? headerLen)%nat then Err ErrHeaderSize
  else
    '(header, st1) ← ReadFull st headerLen;
    match order_get (ByteOrder f) (take 4 header) with
    | None => Err ErrUnexpectedEOF (* the header has four bytes *)
    | Some len =>
        if MaxLength f <? len then Err ErrFrameTooLarge
        else if negb (length (Magic f) =? 0)%nat && negb (bytes_eqb (drop 4 header) (Magic f))
        then Err ErrInvalidMagic
        else ReadFull st1 (Z.to_nat len)
    end.

(** The header and the payload as written; [uint32(len(data))] wraps. *)
Definition WriteFrame (f : LengthPrefixedFramer) (data : bytes) : result frame_error bytes :=
  let headerLen := (4 + length (Magic f))%nat in
  if (16 <? headerLen)%nat then Err ErrHeaderSize
  else Ok (order_put (ByteOrder f) (Z.of_nat (length data) mod 2 ^ 32) ++ Magic f ++ data).

(** ** The connection wrapper

    A cipher is an interface of the package; it may fail. The ciphers of this model
    keep no state from one frame to the next. *)

Class Cipher := {
  Encrypt : bytes → option bytes;
  Decrypt : bytes → option bytes
}.

(** What a cipher pair promises: what one encrypts the other decrypts. *)
Class CipherLaws `{Cipher} : Prop := {
  decrypt_encrypt : ∀ p e, Encrypt p = Some e → Decrypt e = Some p
}.

Definition NetConn_Send (f : LengthPrefixedFramer) (cipher : option Cipher) (data : bytes)
  : result frame_error bytes :=
  match cipher with
  | Some c =>
      match Encrypt (Cipher := c) data with
      | None => Err ErrCipher
      | Some enc => WriteFrame f enc
      end
  | None => WriteFrame f data
  end.

Definition NetConn_Receive (f : LengthPrefixedFramer) (cipher : option Cipher) (st : bytes)
  : result frame_error (bytes * bytes) :=
  '(fb, st1) ← ReadFrame f st;
  match cipher with
  | Some c =>
      match Decrypt (Cipher := c) fb with
      | None => Err ErrCipher
      | Some dec => Ok (dec, st1)
      end
  | None => Ok (fb, st1)
  end.

(** ** Pool *)

(** An acquired buffer has the requested length, whatever the pool held,
    and its capacity covers it; a released buffer is pooled empty and only
    within the capacity limit, so the pool never holds a larger one. *)
Theorem frame_buffer_pool (pooled : option (bytes * nat)) (len : nat)
  (Hstale : ∀ stale cap, pooled = Some (stale, cap) → (cap <= length stale)%nat) :
  let fb := AcquireFrameBuffer pooled len in
  FrameBuffer_Len fb = len ∧ (len <= fb_cap fb)%nat ∧
  match ReleaseFrameBuffer (Some fb) with
  | Some back => fb_B back = [] ∧ fb_cap back = fb_cap fb ∧ (fb_cap back <= maxPooledCapacity)%nat
  | None => (maxPooledCapacity < fb_cap fb)%nat
  end.
Proof.
  cbv zeta. unfold ReleaseFrameBuffer, FrameBuffer_Len. split_and!.
  - unfold AcquireFrameBuffer. destruct pooled as [[stale cap]|]; [|cbn [fb_B]; by rewrite length_replicate].
    specialize (Hstale stale cap eq_refl). destruct (cap <? len)%nat eqn:E; bools; cbn [fb_B];
      [by rewrite length_replicate|rewrite length_take; lia].
  - unfold AcquireFrameBuffer. destruct pooled as [[stale cap]|]; [|simpl; lia].
    destruct (cap <? len)%nat eqn:E; bools; simpl; lia.
  - destruct (maxPooledCapacity <? _)%nat eqn:E; bools; done.
Qed.

(** ** Round trips *)

Lemma ReadFull_app s rest : ReadFull (s ++ rest) (length s) = Ok (s, rest).
Proof.
  unfold ReadFull. destruct (length s =? 0)%nat eqn:E; bools.
  { by destruct s. }
  destruct (_ <=? _)%nat eqn:E2; bools; [|lens]. by rewrite take_app_exact, drop_app_exact.
Qed.

Lemma order_length o v : length (order_put o v) = 4%nat.
Proof. by destruct o. Qed.

Lemma order_roundtrip o v : 0 <= v < 2 ^ 32 → order_get o (order_put o v) = Some v.
Proof.
  intros Hv. destruct o; cbn [order_get order_put].
  - pose proof (of_le32_le32 v []) as H. by rewrite app_nil_r, Z.mod_small in H by lia.
  - pose proof (of_be32_be32 v []) as H. by rewrite app_nil_r, Z.mod_small in H by lia.
Qed.

(** Reading what the framer wrote, up to the size test. *)
Lemma ReadFrame_header f data rest :
  (length (Magic f) <= 12)%nat → Z.of_nat (length data) < 2 ^ 32 →
  ReadFrame f (order_put (ByteOrder f) (Z.of_nat (length data) mod 2 ^ 32) ++ Magic f ++ data ++ rest) =
    if MaxLength f <? Z.of_nat (length data) then Err ErrFrameTooLarge else Ok (data, rest).
Proof.
  intros Hm Hl. unfold ReadFrame. cbv zeta.
  destruct (16 <? _)%nat eqn:E; bools; [lia|].
  rewrite (Z.mod_small (Z.of_nat (length data))) by lia.
  set (hdr := order_put _ _).
  assert (Hh : length hdr = 4%nat) by apply order_length.
  rewrite app_assoc. replace (4 + length (Magic f))%nat with (length (hdr ++ Magic f)) by lens.
  rewrite ReadFull_app. cbn [mbind result_bind].
  replace (take 4 (hdr ++ Magic f)) with hdr by (by rewrite <- Hh, take_app_exact).
  replace (drop 4 (hdr ++ Magic f)) with (Magic f) by (by rewrite <- Hh, drop_app_exact).
  unfold hdr. rewrite order_roundtrip by lia.
  destruct (MaxLength f <? _); [done|].
  assert (bytes_eqb (Magic f) (Magic f) = true) as -> by (by apply bytes_eqb_true).
  rewrite andb_false_r, Nat2Z.id. apply ReadFull_app.
Qed.

(** A payload within the limit survives framing in either byte order and
    with any magic of up to twelve bytes, and reading stops exactly at its end;
    a payload over the limit is written all the same, and refused on reading. *)
Theorem read_write_frame (f : LengthPrefixedFramer) (data rest : bytes)
  (Hm : (length (Magic f) <= 12)%nat) (Hl : Z.of_nat (length data) < 2 ^ 32) :
  ∃ w, WriteFrame f data = Ok w ∧
    ReadFrame f (w ++ rest) =
      if MaxLength f <? Z.of_nat (length data) then Err ErrFrameTooLarge else Ok (data, rest).
Proof.
  unfold WriteFrame. destruct (16 <? _)%nat eqn:E; bools; [lia|].
  eexists. split; [done|]. rewrite <- !app_assoc. by apply ReadFrame_header.
Qed.

(** Frames one after the other. *)
Fixpoint write_frames (f : LengthPrefixedFramer) (cipher : option Cipher) (ps : list bytes)
  : result frame_error bytes :=
  match ps with
  | [] => Ok []
  | p :: ps' => w ← NetConn_Send f cipher p; ws ← write_frames f cipher ps'; Ok (w ++ ws)
  end.

(** Reads until the stream ends. *)
Fixpoint read_frames (fuel : nat) (f : LengthPrefixedFramer) (cipher : option Cipher) (st : bytes)
  : list bytes * option frame_error :=
  match fuel with
  | O => ([], None)
  | S fuel' =>
      match NetConn_Receive f cipher st with
      | Err e => ([], Some e)
      | Ok (p, st') => let '(ps, e) := read_frames fuel' f cipher st' in (p :: ps, e)
      end
  end.

Definition fits (f : LengthPrefixedFramer) (cipher : option Cipher) (p : bytes) : Prop :=
  match cipher with
  | None => Z.of_nat (length p) <= MaxLength f
  | Some c => ∃ e, Encrypt (Cipher := c) p = Some e ∧ Z.of_nat (length e) <= MaxLength f
  end.

Lemma send_receive f cipher p rest :
  (length (Magic f) <= 12)%nat → MaxLength f < 2 ^ 32 →
  (∀ c, cipher = Some c → CipherLaws (H := c)) → fits f cipher p →
  ∃ w, NetConn_Send f cipher p = Ok w ∧ (1 <= length w)%nat ∧
       NetConn_Receive f cipher (w ++ rest) = Ok (p, rest).
Proof.
  intros Hm HM HC Hfit.
  assert (Hw : ∀ d, Z.of_nat (length d) <= MaxLength f →
    ∃ w, WriteFrame f d = Ok w ∧ (1 <= length w)%nat ∧ ReadFrame f (w ++ rest) = Ok (d, rest)).
  { intros d Hd. unfold WriteFrame. destruct (16 <? _)%nat eqn:E; bools; [lia|].
    eexists. split; [done|]. split; [rewrite length_app, order_length; lia|].
    rewrite <- !app_assoc, ReadFrame_header by lia. destruct (_ <? _) eqn:E2; bools; [lia|done]. }
  unfold NetConn_Send, NetConn_Receive. destruct cipher as [c|].
  - destruct Hfit as (e & He & Hl). rewrite He. destruct (Hw e Hl) as (w & W1 & W2 & W3).
    exists w. split_and!; [done..|]. rewrite W3. simpl.
    by rewrite (decrypt_encrypt (CipherLaws := HC c eq_refl) p e He).
  - destruct (Hw p Hfit) as (w & W1 & W2 & W3). exists w. split_and!; [done..|]. by rewrite W3.
Qed.

(** C22: a sequence of payloads sent over a connection, encrypted or not, is
    received as the same sequence, and then the end of the stream. *)
Theorem framed_connection_roundtrip (f : LengthPrefixedFramer) (cipher : option Cipher)
  (ps : list bytes) (Hm : (length (Magic f) <= 12)%nat) (HM : MaxLength f < 2 ^ 32)
  (HC : ∀ c, cipher = Some c → CipherLaws (H := c)) (Hfit : Forall (fits f cipher) ps) :
  ∃ st, write_frames f cipher ps = Ok st ∧
        read_frames (length st + 1) f cipher st = (ps, Some ErrEOF).
Proof.
  enough (∃ st, write_frames f cipher ps = Ok st ∧ (length ps <= length st)%nat ∧
    ∀ fuel, (length ps < fuel)%nat → read_frames fuel f cipher st = (ps, Some ErrEOF))
    as (st & H1 & H2 & H3).
  { exists st. split; [done|]. apply H3. lia. }
  induction Hfit as [|p ps Hp Hps (st & H1 & H2 & H3)].
  - exists []. split_and!; [done|done|]. intros [|fuel] Hf; [simpl in Hf; lia|].
    cbn [read_frames]. unfold NetConn_Receive, ReadFrame. cbv zeta.
    destruct (16 <? _)%nat eqn:E; bools; [lia|]. by destruct cipher.
  - destruct (send_receive f cipher p st Hm HM HC Hp) as (w & W1 & W2 & W3).
    exists (w ++ st). split_and!.
    + cbn [write_frames]. rewrite W1. simpl. by rewrite H1.
    + lens.
    + intros [|fuel] Hf; [lia|]. cbn [read_frames]. rewrite W3. rewrite H3 by (simpl in Hf; lia). done.
Qed.

(** ** The theorems at concrete frames *)

Definition xor_cipher : Cipher :=
  {| Encrypt s := Some (map (λ c, zb (Z.lxor (bz c) 90)) s);
     Decrypt s := Some (map (λ c, zb (Z.lxor (bz c) 90)) s) |}.

Lemma xor_cipher_laws : CipherLaws (H := xor_cipher).
Proof.
  constructor. intros p e [= <-]. simpl. f_equal. rewrite map_map.
  rewrite <- (map_id p) at 2. apply map_ext. intros c. destruct c; reflexivity.
Qed.

Definition vt01 : LengthPrefixedFramer := NewLengthPrefixedFramer None (str "VT01") 0.

Lemma frame_buffer_pool_witness :
  FrameBuffer_Len (AcquireFrameBuffer (Some (str "stale data", 10%nat)) 4) = 4%nat.
Proof.
  apply (frame_buffer_pool (Some (str "stale data", 10%nat)) 4).
  intros stale cap [= <- <-]. apply Nat.leb_le. reflexivity.
Defined.

Lemma read_write_frame_witness :
  ∃ w, WriteFrame vt01 (str "hi") = Ok w ∧ ReadFrame vt01 (w ++ str "next") = Ok (str "hi", str "next").
Proof.
  apply (read_write_frame vt01 (str "hi") (str "next")); [apply Nat.leb_le|]; reflexivity.
Defined.

Lemma framed_connection_roundtrip_witness :
  ∃ st, write_frames vt01 (Some xor_cipher) [str "a"; []; str "bc"] = Ok st ∧
        read_frames (length st + 1) vt01 (Some xor_cipher) st = ([str "a"; []; str "bc"], Some ErrEOF).
Proof.
  apply (framed_connection_roundtrip vt01 (Some xor_cipher) [str "a"; []; str "bc"]).
  - apply Nat.leb_le. reflexivity.
  - reflexivity.
  - intros c [= <-]. exact xor_cipher_laws.
  - repeat constructor; (eexists; split; [reflexivity|vm_compute; discriminate]).
Defined.
