(* ===== verification/SocketConnector.v ===== *)
(** * The reconnecting connector (src/socket/connector/connector.go)

    Every goroutine of a [Connector] as a thread with a program counter: the
    callers of [Connect], [Disconnect], [Close] and [TriggerReconnect], the
    read loop of each connection and the reconnect loops.  A step is one
    critical section, one atomic operation or one call of the dialer, so every
    interleaving of the code is a run of the step relation.  The delays between
    reconnect attempts are computed apart. *)

From S2P Require Import Prelude.

#[local] Open Scope nat_scope.

Section connector.
Context {Endpoint : Type}.

(** [EndpointSelector] may choose at random: it is a relation. *)
Record ReconnectPolicy := {
  MaxAttempts : nat;
  EndpointSelector : list Endpoint → option Endpoint → Prop
}.

(** Connections and reconnect contexts are numbered in the order they are made. *)
Record shared := {
  closed : bool;
  ctx_done : bool;
  conn : option nat;
  lastEndpoint : option Endpoint;
  endpoints : list Endpoint;
  isConnecting : bool;
  reconnectCancel : option nat;
  opened : nat;               (* connections dialed so far *)
  shut : gset nat;            (* connections closed *)
  contexts : nat;             (* reconnect contexts made so far *)
  cancelled : gset nat        (* of those, the cancelled ones *)
}.

(** Where a call of [Connect] is: before the test of [closed], before
    [cancelReconnect], before the compare-and-swap, dialing, holding a new
    connection, before the deferred store, returned. *)
Inductive connect_pc :=
| Entry | CancelLoop | Swap | Dial | Install (id : nat) | Release (ok : bool) | Returned (ok : bool).

Inductive loop_pc :=
| LoopTop | LoopConnect (target : option Endpoint) (p : connect_pc) | LoopSleep | LoopDefer | LoopEnd.

(** [readLoop]: receiving, in the deferred function before the lock, after it,
    before the trigger, gone. *)
Inductive read_pc := Reading | Exiting | Closing (same : bool) | Trigger | ReadEnd.
Inductive disconnect_pc := DCancel | DTake | DClose (c : option nat) | DEnd.
Inductive close_pc := SSwap | SCancel | SCtx | STake | SClose (c : option nat) | SEnd.

Inductive thread :=
| UserConnect (e : Endpoint) (p : connect_pc)
| UserTrigger (finished : bool)
| Reader (id : nat) (p : read_pc)
| ReconnectLoop (tok attempts : nat) (p : loop_pc)
| Disconnect (p : disconnect_pc)
| Close (p : close_pc).

Definition cancelReconnect (s : shared) : shared :=
  {| closed := closed s; ctx_done := ctx_done s; conn := conn s; lastEndpoint := lastEndpoint s;
     endpoints := endpoints s; isConnecting := isConnecting s; reconnectCancel := None;
     opened := opened s; shut := shut s; contexts := contexts s;
     cancelled := match reconnectCancel s with Some t => {[ t ]} ∪ cancelled s | None => cancelled s end |}.

(** [triggerReconnect]: the new shared state and the goroutine started. *)
Definition triggerReconnect (s : shared) : shared * list thread :=
  match reconnectCancel s with
  | Some _ => (s, [])
  | None =>
      if closed s then (s, [])
      else ({| closed := closed s; ctx_done := ctx_done s; conn := conn s;
               lastEndpoint := lastEndpoint s; endpoints := endpoints s;
               isConnecting := isConnecting s; reconnectCancel := Some (contexts s);
               opened := opened s; shut := shut s; contexts := S (contexts s);
               cancelled := cancelled s |},
            [ReconnectLoop (contexts s) 0 LoopTop])
  end.

Definition set_connecting (s : shared) (b : bool) : shared :=
  {| closed := closed s; ctx_done := ctx_done s; conn := conn s; lastEndpoint := lastEndpoint s;
     endpoints := endpoints s; isConnecting := b; reconnectCancel := reconnectCancel s;
     opened := opened s; shut := shut s; contexts := contexts s; cancelled := cancelled s |}.

Definition dialed (s : shared) : shared :=
  {| closed := closed s; ctx_done := ctx_done s; conn := conn s; lastEndpoint := lastEndpoint s;
     endpoints := endpoints s; isConnecting := isConnecting s;
     reconnectCancel := reconnectCancel s; opened := S (opened s); shut := shut s;
     contexts := contexts s; cancelled := cancelled s |}.

Definition opt_set (c : option nat) : gset nat :=
  match c with Some id => {[ id ]} | None => ∅ end.

Definition set_conn (s : shared) (c : option nat) (last : option Endpoint) (also_shut : gset nat)
  : shared :=
  {| closed := closed s; ctx_done := ctx_done s; conn := c; lastEndpoint := last;
     endpoints := endpoints s; isConnecting := isConnecting s;
     reconnectCancel := reconnectCancel s; opened := opened s; shut := also_shut ∪ shut s;
     contexts := contexts s; cancelled := cancelled s |}.

(** The old connection is closed under the lock. *)
Definition install (s : shared) (id : nat) (e : option Endpoint) : shared :=
  set_conn s (Some id) e (opt_set (conn s)).

Definition close_conn (s : shared) (c : option nat) : shared :=
  set_conn s (conn s) (lastEndpoint s) (opt_set c).

Definition take_conn (s : shared) : shared := set_conn s None (lastEndpoint s) ∅.

Definition set_closed (s : shared) : shared :=
  {| closed := true; ctx_done := ctx_done s; conn := conn s; lastEndpoint := lastEndpoint s;
     endpoints := endpoints s; isConnecting := isConnecting s;
     reconnectCancel := reconnectCancel s; opened := opened s; shut := shut s;
     contexts := contexts s; cancelled := cancelled s |}.

Definition set_ctx_done (s : shared) : shared :=
  {| closed := closed s; ctx_done := true; conn := conn s; lastEndpoint := lastEndpoint s;
     endpoints := endpoints s; isConnecting := isConnecting s;
     reconnectCancel := reconnectCancel s; opened := opened s; shut := shut s;
     contexts := contexts s; cancelled := cancelled s |}.

Definition set_endpoints (s : shared) (es : list Endpoint) : shared :=
  {| closed := closed s; ctx_done := ctx_done s; conn := conn s; lastEndpoint := lastEndpoint s;
     endpoints := es; isConnecting := isConnecting s;
     reconnectCancel := reconnectCancel s; opened := opened s; shut := shut s;
     contexts := contexts s; cancelled := cancelled s |}.

(** A reconnect context is done when it or its parent was cancelled. *)
Definition loop_done (s : shared) (tok : nat) : bool :=
  ctx_done s || bool_decide (tok ∈ cancelled s).

(** The part of [Connect] shared by callers and reconnect loops, from the
    compare-and-swap on; the list is the goroutines started. *)
Inductive connect_step (s : shared) (e : option Endpoint) : connect_pc → shared → connect_pc → list thread → Prop :=
| swap_busy : isConnecting s = true → connect_step s e Swap s (Returned false) []
| swap_ok : isConnecting s = false → connect_step s e Swap (set_connecting s true) Dial []
| dial_error : connect_step s e Dial s (Release false) []
| dial_ok : connect_step s e Dial (dialed s) (Install (opened s)) []
| install_conn id :
    connect_step s e (Install id) (install s id e) (Release true) [Reader id Reading]
| release ok : connect_step s e (Release ok) (set_connecting s false) (Returned ok) [].

Context (policy : ReconnectPolicy).

Definition may_try (attempts : nat) : bool := (MaxAttempts policy =? 0) || (attempts <? MaxAttempts policy).

(** A caller of [Connect]. *)
Inductive user_step (s : shared) (e : Endpoint) : connect_pc → shared → connect_pc → list thread → Prop :=
| user_closed : closed s = true → user_step s e Entry s (Returned false) []
| user_entry : closed s = false → user_step s e Entry s CancelLoop []
| user_cancel : user_step s e CancelLoop (cancelReconnect s) Swap []
| user_connect p s' p' sp : connect_step s (Some e) p s' p' sp → user_step s e p s' p' sp.

(** [reconnectLoop], with its context and its count of attempts. *)
Inductive loop_step (s : shared) (tok : nat) : nat → loop_pc → shared → nat → loop_pc → list thread → Prop :=
| loop_top_done a : loop_done s tok = true → loop_step s tok a LoopTop s a LoopDefer []
| loop_top_exhausted a : loop_done s tok = false → may_try a = false →
    loop_step s tok a LoopTop s a LoopDefer []
| loop_top_try a target : loop_done s tok = false → may_try a = true →
    EndpointSelector policy (endpoints s) target →
    loop_step s tok a LoopTop s a
      (LoopConnect (match target with Some e => Some e | None => lastEndpoint s end) Entry) []
| loop_closed a e : closed s = true →
    loop_step s tok a (LoopConnect e Entry) s a (LoopConnect e (Returned false)) []
| loop_entry a e : closed s = false →
    loop_step s tok a (LoopConnect e Entry) s a (LoopConnect e Swap) []
| loop_connect a e p s' p' sp : connect_step s e p s' p' sp →
    loop_step s tok a (LoopConnect e p) s' a (LoopConnect e p') sp
| loop_success a e : loop_step s tok a (LoopConnect e (Returned true)) s a LoopDefer []
| loop_failure a e : loop_step s tok a (LoopConnect e (Returned false)) s (S a) LoopSleep []
| loop_wake a : loop_step s tok a LoopSleep s a LoopTop []
| loop_sleep_done a : loop_done s tok = true → loop_step s tok a LoopSleep s a LoopDefer []
| loop_defer a : loop_step s tok a LoopDefer (cancelReconnect s) a LoopEnd [].

(** [readLoop] of one connection; the receive can fail at any time. *)
Inductive reader_step (s : shared) (id : nat) : read_pc → shared → read_pc → list thread → Prop :=
| read_stop : reader_step s id Reading s Exiting []
| read_same : conn s = Some id → reader_step s id Exiting (take_conn s) (Closing true) []
| read_other : conn s ≠ Some id → reader_step s id Exiting s (Closing false) []
| read_close same :
    reader_step s id (Closing same) (close_conn s (if same then Some id else None)) Trigger []
| read_trigger s' sp : triggerReconnect s = (s', sp) → reader_step s id Trigger s' ReadEnd sp.

Inductive disconnect_step (s : shared) : disconnect_pc → shared → disconnect_pc → Prop :=
| disc_cancel : disconnect_step s DCancel (cancelReconnect s) DTake
| disc_take : disconnect_step s DTake (take_conn s) (DClose (conn s))
| disc_close c : disconnect_step s (DClose c) (close_conn s c) DEnd.

Inductive close_step (s : shared) : close_pc → shared → close_pc → Prop :=
| close_again : closed s = true → close_step s SSwap s SEnd
| close_first : closed s = false → close_step s SSwap (set_closed s) SCancel
| close_cancel : close_step s SCancel (cancelReconnect s) SCtx
| close_ctx : close_step s SCtx (set_ctx_done s) STake
| close_take : close_step s STake (take_conn s) (SClose (conn s))
| close_close c : close_step s (SClose c) (close_conn s c) SEnd.

Inductive thread_step (s : shared) : thread → shared → thread → list thread → Prop :=
| thread_user e p s' p' sp : user_step s e p s' p' sp →
    thread_step s (UserConnect e p) s' (UserConnect e p') sp
| thread_trigger s' sp : triggerReconnect s = (s', sp) →
    thread_step s (UserTrigger false) s' (UserTrigger true) sp
| thread_loop tok a p s' a' p' sp : loop_step s tok a p s' a' p' sp →
    thread_step s (ReconnectLoop tok a p) s' (ReconnectLoop tok a' p') sp
| thread_reader id p s' p' sp : reader_step s id p s' p' sp →
    thread_step s (Reader id p) s' (Reader id p') sp
| thread_disconnect p s' p' : disconnect_step s p s' p' →
    thread_step s (Disconnect p) s' (Disconnect p') []
| thread_close p s' p' : close_step s p s' p' → thread_step s (Close p) s' (Close p') [].

(** The calls the application can make. *)
Definition api_call (t : thread) : Prop :=
  (∃ e, t = UserConnect e Entry) ∨ t = UserTrigger false ∨ t = Disconnect DCancel ∨ t = Close SSwap.

Record connector_state := MkState { sh : shared; threads : list thread }.

Inductive connector_step (st : connector_state) : connector_state → Prop :=
| step_thread i t s' t' sp :
    threads st !! i = Some t → thread_step (sh st) t s' t' sp →
    connector_step st (MkState s' (<[i := t']> (threads st) ++ sp))
| step_api t : api_call t → connector_step st (MkState (sh st) (threads st ++ [t]))
| step_endpoints es : connector_step st (MkState (set_endpoints (sh st) es) (threads st)).

Definition New : connector_state :=
  MkState {| closed := false; ctx_done := false; conn := None; lastEndpoint := None;
             endpoints := []; isConnecting := false; reconnectCancel := None; opened := 0;
             shut := ∅; contexts := 0; cancelled := ∅ |} [].

Inductive reach (st0 : connector_state) : connector_state → Prop :=
| reach_start : reach st0 st0
| reach_step st st' : reach st0 st → connector_step st st' → reach st0 st'.

(** ** What the threads own *)

Definition connect_dialing (p : connect_pc) : option unit :=
  match p with Dial | Install _ | Release _ => Some tt | _ => None end.

(** Between the compare-and-swap and the deferred store. *)
Definition dialing (t : thread) : option unit :=
  match t with
  | UserConnect _ p => connect_dialing p
  | ReconnectLoop _ _ (LoopConnect _ p) => connect_dialing p
  | _ => None
  end.

Definition token (t : thread) : option nat :=
  match t with ReconnectLoop tok _ _ => Some tok | _ => None end.

Definition live_loop (tok : nat) (t : thread) : Prop :=
  ∃ a p, t = ReconnectLoop tok a p ∧ p ≠ LoopEnd.

(** The thread will close, or install, connection [id]. *)
Definition holds (id : nat) (t : thread) : Prop :=
  match t with
  | UserConnect _ (Install i) => i = id
  | ReconnectLoop _ _ (LoopConnect _ (Install i)) => i = id
  | Reader i (Closing true) => i = id
  | Disconnect (DClose (Some i)) => i = id
  | Close (SClose (Some i)) => i = id
  | _ => False
  end.

(** The read loop of [id] has not yet let go of it. *)
Definition reading (id : nat) (t : thread) : Prop := t = Reader id Reading ∨ t = Reader id Exiting.

Definition ended (t : thread) : Prop :=
  match t with
  | UserConnect _ (Returned _) | UserTrigger true | Reader _ ReadEnd
  | ReconnectLoop _ _ LoopEnd | Disconnect DEnd | Close SEnd => True
  | _ => False
  end.

Record inv (st : connector_state) : Prop := {
  inv_dial : length (omap dialing (threads st)) = if isConnecting (sh st) then 1 else 0;
  inv_tokens : NoDup (omap token (threads st));
  inv_fresh : ∀ t, t ∈ omap token (threads st) → t < contexts (sh st);
  inv_cancelled : ∀ t, t ∈ cancelled (sh st) → t < contexts (sh st);
  inv_live : ∀ i tok t, threads st !! i = Some t → live_loop tok t → tok ∉ cancelled (sh st) →
    reconnectCancel (sh st) = Some tok;
  inv_current : ∀ tok, reconnectCancel (sh st) = Some tok →
    Exists (live_loop tok) (threads st) ∧ (tok ∉ cancelled (sh st)) ∧ tok < contexts (sh st);
  inv_conn : ∀ id, conn (sh st) = Some id → Exists (reading id) (threads st);
  inv_owned : ∀ id, id < opened (sh st) →
    id ∈ shut (sh st) ∨ conn (sh st) = Some id ∨ Exists (holds id) (threads st)
}.

(** *** At most one dial *)

Lemma trigger_threads s s' sp : triggerReconnect s = (s', sp) →
  s' = s ∧ sp = [] ∨
  reconnectCancel s = None ∧ sp = [ReconnectLoop (contexts s) 0 LoopTop] ∧
  s' = {| closed := closed s; ctx_done := ctx_done s; conn := conn s;
          lastEndpoint := lastEndpoint s; endpoints := endpoints s;
          isConnecting := isConnecting s; reconnectCancel := Some (contexts s);
          opened := opened s; shut := shut s; contexts := S (contexts s);
          cancelled := cancelled s |}.
Proof.
  unfold triggerReconnect. destruct (reconnectCancel s); [intros [= <- <-]; auto|].
  destruct (closed s) eqn:E; intros [= <- <-]; [auto|]. by right.
Qed.

Ltac step_cases H :=
  destruct H;
  try match goal with
  | H : user_step _ _ _ _ _ _ |- _ => destruct H
  | H : loop_step _ _ _ _ _ _ _ _ |- _ => destruct H
  | H : reader_step _ _ _ _ _ _ |- _ => destruct H
  | H : disconnect_step _ _ _ _ |- _ => destruct H
  | H : close_step _ _ _ _ |- _ => destruct H
  end;
  try match goal with H : connect_step _ _ _ _ _ _ |- _ => destruct H end;
  try match goal with H : triggerReconnect _ = _ |- _ =>
    apply trigger_threads in H as [[-> ->]|(? & -> & ->)] end.

Lemma step_dialing s t s' t' sp :
  thread_step s t s' t' sp → (dialing t = Some tt → isConnecting s = true) →
  omap dialing sp = [] ∧
  length (option_list (dialing t')) + (if isConnecting s then 1 else 0) =
  length (option_list (dialing t)) + (if isConnecting s' then 1 else 0).
Proof.
  intros H Hd. step_cases H; simpl in *; try rewrite (Hd eq_refl);
    repeat match goal with H : isConnecting _ = _ |- _ => rewrite H end;
    try (destruct (isConnecting s)); done.
Qed.

Lemma inv_dial_step st i t s' t' sp :
  inv st → threads st !! i = Some t → thread_step (sh st) t s' t' sp →
  length (omap dialing (<[i := t']> (threads st) ++ sp)) = if isConnecting s' then 1 else 0.
Proof.
  intros I Hi H. pose proof (inv_dial _ I) as Hn.
  pose proof (omap_insert_length dialing _ i t t' Hi) as HL.
  destruct (step_dialing _ _ _ _ _ H) as [E1 E2].
  { intros Hd. destruct (isConnecting (sh st)) eqn:E; [done|].
    assert (tt ∈ omap dialing (threads st)) as Hin.
    { apply list_elem_of_omap. exists t. split; [by eapply list_elem_of_lookup_2|done]. }
    apply nil_length_inv in Hn. rewrite Hn in Hin. by apply not_elem_of_nil in Hin. }
  rewrite omap_app, E1, app_nil_r. lia.
Qed.

(** *** Reconnect contexts *)

Lemma step_token s t s' t' sp : thread_step s t s' t' sp →
  token t' = token t ∧
  (omap token sp = [] ∧ contexts s' = contexts s ∨
   omap token sp = [contexts s] ∧ contexts s' = S (contexts s)).
Proof. intros H. step_cases H; simpl; auto. Qed.

Lemma omap_token_insert ts i (t t' : thread) :
  ts !! i = Some t → token t' = token t → omap token (<[i := t']> ts) ≡ₚ omap token ts.
Proof.
  intros Hi Ht. pose proof (omap_insert token ts i t t' Hi) as H. rewrite Ht in H.
  rewrite (Permutation_app_comm (option_list _)) in H. by apply Permutation_app_inv_r in H.
Qed.

Lemma inv_tokens_step st i t s' t' sp :
  inv st → threads st !! i = Some t → thread_step (sh st) t s' t' sp →
  NoDup (omap token (<[i := t']> (threads st) ++ sp)) ∧
  (∀ k, k ∈ omap token (<[i := t']> (threads st) ++ sp) → k < contexts s') ∧
  contexts (sh st) <= contexts s'.
Proof.
  intros I Hi H. destruct (step_token _ _ _ _ _ H) as [Et Hsp].
  pose proof (omap_token_insert _ _ _ _ Hi Et) as HP. rewrite omap_app.
  destruct Hsp as [[-> ->]|[-> ->]].
  - rewrite app_nil_r. setoid_rewrite HP. split_and!; [apply I|apply I|done].
  - setoid_rewrite HP. split_and!; [|setoid_rewrite elem_of_app|lia].
    + apply NoDup_app. split_and!; [apply I| |apply NoDup_singleton].
      intros k Hk ->%list_elem_of_singleton. apply (inv_fresh _ I) in Hk. lia.
    + intros k [Hk| ->%list_elem_of_singleton]; [|lia]. apply (inv_fresh _ I) in Hk. lia.
Qed.

(** What a step does to the reconnect context: nothing, cancel it, or make one. *)
Inductive context_change (s s' : shared) (t t' : thread) (sp : list thread) : Prop :=
| context_same :
    reconnectCancel s' = reconnectCancel s → cancelled s' = cancelled s → contexts s' = contexts s →
    (∀ x, x ∈ sp → token x = None) → (∀ tok, live_loop tok t' ↔ live_loop tok t) →
    context_change s s' t t' sp
| context_cancel :
    s' = cancelReconnect s → sp = [] → (∀ tok, live_loop tok t' → live_loop tok t) →
    context_change s s' t t' sp
| context_new :
    reconnectCancel s = None → reconnectCancel s' = Some (contexts s) →
    cancelled s' = cancelled s → contexts s' = S (contexts s) →
    sp = [ReconnectLoop (contexts s) 0 LoopTop] → token t = None → token t' = None →
    context_change s s' t t' sp.

Lemma live_token tok t : live_loop tok t → token t = Some tok.
Proof. by intros (a & p & -> & _). Qed.

Lemma live_same tok k a a' p p' : p ≠ LoopEnd → p' ≠ LoopEnd →
  live_loop tok (ReconnectLoop k a' p') ↔ live_loop tok (ReconnectLoop k a p).
Proof. intros H H'. split; intros (b & q & [= <- <- <-] & _); [exists a, p|exists a', p']; auto. Qed.

Lemma live_none tok t t' : token t = None → token t' = None → live_loop tok t' ↔ live_loop tok t.
Proof. intros H H'. split; intros ?%live_token; congruence. Qed.

Lemma step_context s t s' t' sp : thread_step s t s' t' sp → context_change s s' t t' sp.
Proof.
  assert (Hnil : ∀ x : thread, x ∈ [] → token x = None) by (intros x Hx; by apply not_elem_of_nil in Hx).
  assert (Hrd : ∀ (x : thread) id, x ∈ [Reader id Reading] → token x = None)
    by (intros x id ->%list_elem_of_singleton; done).
  intros H. step_cases H;
    try (apply context_same; [done|done|done|done || (intros ?; apply Hrd)|intros ?; by apply live_same || by apply live_none]);
    try (by apply context_new);
    try (apply context_cancel; [done|done|intros k; apply live_none; reflexivity]).
  apply context_cancel; [done|done|]. intros k (b & q & [= <- <- <-] & ?). done.
Qed.

Lemma lookup_step (ts sp : list thread) i t' j x :
  (<[i := t']> ts ++ sp) !! j = Some x → i < length ts →
  (j = i ∧ x = t') ∨ (j ≠ i ∧ ts !! j = Some x) ∨ x ∈ sp.
Proof.
  intros H Hi. apply lookup_app_Some in H as [H|[_ H]].
  - apply lookup_insert_cases in H as [[-> ->]|[? ?]]; auto.
  - right. right. by eapply list_elem_of_lookup_2.
Qed.

Lemma inv_live_step st i t s' t' sp :
  inv st → threads st !! i = Some t → thread_step (sh st) t s' t' sp →
  ∀ j tok x, (<[i := t']> (threads st) ++ sp) !! j = Some x → live_loop tok x →
    tok ∉ cancelled s' → reconnectCancel s' = Some tok.
Proof.
  intros I Hi H j tok x Hj Hlive Hc. pose proof (lookup_lt_Some _ _ _ Hi) as Hlt.
  pose proof (inv_live _ I) as HL.
  apply lookup_step in Hj; [|done].
  destruct (step_context _ _ _ _ _ H) as [E1 E2 E3 E4 E5| -> -> E5|E1 E2 E3 E4 -> E5 E6].
  - rewrite E1. rewrite E2 in Hc. destruct Hj as [[-> ->]|[[_ Hj]|Hj]].
    + apply E5 in Hlive. by eapply HL.
    + by eapply HL.
    + apply E4 in Hj. apply live_token in Hlive. congruence.
  - assert (∃ k y, threads st !! k = Some y ∧ live_loop tok y) as (k & y & Hk & Hy).
    { destruct Hj as [[-> ->]|[[_ Hj]|Hj]]; [|eauto|by apply not_elem_of_nil in Hj].
      exists i, t. split; [done|]. by apply E5. }
    simpl in *. exfalso. destruct (reconnectCancel (sh st)) as [r|] eqn:Er.
    + apply not_elem_of_union in Hc as [Hr Hc].
      specialize (HL k tok y Hk Hy Hc). injection HL as ->. by apply Hr, elem_of_singleton.
    + specialize (HL k tok y Hk Hy Hc). congruence.
  - rewrite E2. rewrite E3 in Hc. destruct Hj as [[-> ->]|[[_ Hj]|Hj]].
    + apply live_token in Hlive. congruence.
    + specialize (HL _ _ _ Hj Hlive Hc). congruence.
    + apply list_elem_of_singleton in Hj. subst x. apply live_token in Hlive. simpl in Hlive. congruence.
Qed.

Lemma inv_current_step st i t s' t' sp :
  inv st → threads st !! i = Some t → thread_step (sh st) t s' t' sp →
  (∀ k, k ∈ cancelled s' → k < contexts s') ∧
  ∀ tok, reconnectCancel s' = Some tok →
    Exists (live_loop tok) (<[i := t']> (threads st) ++ sp) ∧ (tok ∉ cancelled s') ∧ tok < contexts s'.
Proof.
  intros I Hi H. pose proof (inv_current _ I) as HC. pose proof (inv_cancelled _ I) as HX.
  destruct (step_context _ _ _ _ _ H) as [E1 E2 E3 E4 E5| -> -> E5|E1 E2 E3 E4 -> E5 E6].
  - rewrite E1, E2, E3. split; [done|]. intros tok Ht. destruct (HC tok Ht) as (A & B & C).
    split_and!; [|done|done].
    destruct (Exists_insert_app _ _ sp _ _ t' A Hi) as [|Hl]; [done|].
    eapply Exists_insert_here; [done|]. by apply E5.
  - simpl. split; [|done]. intros k Hk. destruct (reconnectCancel (sh st)) as [r|] eqn:Er; [|auto].
    apply elem_of_union in Hk as [->%elem_of_singleton|Hk]; [by apply HC|auto].
  - rewrite E2, E3, E4. split; [intros k Hk; apply HX in Hk; lia|]. intros tok [= <-]. split_and!; [|intros Hk; apply HX in Hk; lia|lia].
    apply Exists_app. right. apply Exists_cons_hd. by exists 0, LoopTop.
Qed.

(** *** Connections *)

Lemma step_conn s t s' t' sp id : thread_step s t s' t' sp → conn s' = Some id →
  Exists (reading id) sp ∨ conn s = Some id ∧ (reading id t → reading id t').
Proof.
  intros H. step_cases H; simpl; intros Hc; try done;
    try (right; split; [done|]; intros [Hr|Hr]; done);
    try (injection Hc as ->; left; apply Exists_cons_hd; by left).
  - right. split; [done|]. intros [[= ->]|[= ->]]. by right.
  - right. split; [done|]. intros [[= ->]|[= ->]]. congruence.
Qed.

(** Where a connection can go in one step. *)
Lemma step_owned s t s' t' sp id : thread_step s t s' t' sp →
  (id < opened s' → id < opened s ∨ holds id t') ∧
  (id ∈ shut s → id ∈ shut s') ∧
  (conn s = Some id → conn s' = Some id ∨ id ∈ shut s' ∨ holds id t') ∧
  (holds id t → holds id t' ∨ id ∈ shut s' ∨ conn s' = Some id).
Proof.
  assert (Hu : ∀ (a b : gset nat), id ∈ b → id ∈ a ∪ b) by (intros; apply elem_of_union; auto).
  assert (Hl : ∀ (b : gset nat), id ∈ {[ id ]} ∪ b)
    by (intros; apply elem_of_union; left; by apply elem_of_singleton).
  intros H. step_cases H; simpl;
    (split; [|split; [auto|split]]); auto; try tauto; try (intros ?; lia);
    try (intros Hid; destruct (decide (id = opened s)); [right; congruence|left; lia]);
    try (intros Hx; try injection Hx as Hx; try rewrite Hx; simpl; subst; auto; congruence);
    try (destruct same; [intros ->; auto|done]); try (destruct c; [intros ->; auto|done]).
  intros Hx. right. right. congruence.
Qed.

Lemma inv_thread_step st i t s' t' sp :
  inv st → threads st !! i = Some t → thread_step (sh st) t s' t' sp →
  inv (MkState s' (<[i := t']> (threads st) ++ sp)).
Proof.
  intros I Hi H. destruct (inv_tokens_step _ _ _ _ _ _ I Hi H) as (T1 & T2 & _).
  destruct (inv_current_step _ _ _ _ _ _ I Hi H) as [C1 C2].
  constructor; simpl; try done.
  - by eapply inv_dial_step.
  - by eapply inv_live_step.
  - intros id Hc. destruct (step_conn _ _ _ _ _ _ H Hc) as [Hsp|[Hc' Hr]].
    + apply Exists_app. by right.
    + destruct (Exists_insert_app _ _ sp _ _ t' (inv_conn _ I id Hc') Hi) as [|Ht]; [done|].
      eapply Exists_insert_here; [done|auto].
  - intros id Hid. destruct (step_owned _ _ _ _ _ id H) as (O1 & O2 & O3 & O4).
    assert (Here : holds id t' → Exists (holds id) (<[i := t']> (threads st) ++ sp))
      by (intros; by eapply Exists_insert_here).
    destruct (O1 Hid) as [Hid'|]; [|auto].
    destruct (inv_owned _ I id Hid') as [Hs|[Hc|He]]; [auto| |].
    + destruct (O3 Hc) as [|[|]]; auto.
    + destruct (Exists_insert_app _ _ sp _ _ t' He Hi) as [|Ht]; [auto|].
      destruct (O4 Ht) as [|[|]]; auto.
Qed.

Lemma api_call_inert t : api_call t →
  dialing t = None ∧ token t = None ∧ ∀ tok, ¬ live_loop tok t.
Proof.
  intros [[e ->]|[->|[->| ->]]]; (split_and!; [done|done|]); intros tok (a & p & [=] & _).
Qed.

Lemma inv_step st st' : inv st → connector_step st st' → inv st'.
Proof.
  intros I H. destruct H as [i t s' t' sp Hi H|t Ht|es].
  - by eapply inv_thread_step.
  - destruct (api_call_inert t Ht) as (A1 & A2 & A3). destruct I as [I1 I2 I3 I4 I5 I6 I7 I8].
    assert (E1 : omap dialing (threads st ++ [t]) = omap dialing (threads st))
      by (rewrite omap_app; simpl; by rewrite A1, app_nil_r).
    assert (E2 : omap token (threads st ++ [t]) = omap token (threads st))
      by (rewrite omap_app; simpl; by rewrite A2, app_nil_r).
    constructor; simpl; rewrite ?E1, ?E2; try done.
    + intros i tok x Hx Hl Hc. apply lookup_app_Some in Hx as [Hx|[_ Hx]]; [by eapply I5|].
      apply list_lookup_singleton_Some in Hx as [_ <-]. by apply A3 in Hl.
    + intros tok Hr. destruct (I6 tok Hr) as (? & ? & ?). split_and!; try done. apply Exists_app. by left.
    + intros id Hc. apply Exists_app. left. auto.
    + intros id Hid. rewrite Exists_app. destruct (I8 id Hid) as [|[|]]; auto.
  - by destruct I.
Qed.

Lemma inv_New : inv New.
Proof.
  constructor; simpl; try done; [constructor|..]; intros x Hx;
    first [by apply not_elem_of_nil in Hx|by apply not_elem_of_empty in Hx|lia].
Qed.

Lemma inv_reach st : reach New st → inv st.
Proof. induction 1 as [|st st' _ IH Hs]; [apply inv_New|]. by eapply inv_step. Qed.

Lemma holds_not_ended id t : holds id t → ended t → False.
Proof. destruct t; simpl; repeat case_match; done. Qed.

(** C2: whatever the interleaving of calls, read loops and reconnect loops: at
    most one goroutine is dialing, at most one reconnect loop runs with a
    context that is not cancelled, the current connection is being read, and no
    connection is lost: each one dialed has been closed, is the current one, or
    is in the hands of a goroutine about to install or close it. *)
Theorem connector_safety (st : connector_state) (H : reach New st) :
  length (omap dialing (threads st)) <= 1 ∧
  (∀ i j t u tok tok', threads st !! i = Some t → threads st !! j = Some u →
     live_loop tok t → live_loop tok' u → tok ∉ cancelled (sh st) → tok' ∉ cancelled (sh st) → i = j) ∧
  (∀ id, conn (sh st) = Some id → Exists (reading id) (threads st)) ∧
  (∀ id, id < opened (sh st) →
     id ∈ shut (sh st) ∨ conn (sh st) = Some id ∨ Exists (holds id) (threads st)).
Proof.
  apply inv_reach in H as [I1 I2 I3 I4 I5 I6 I7 I8]. split_and!; [|clear I7 I8|done|done].
  { destruct (isConnecting (sh st)); lia. }
  intros i j t u tok tok' Hi Hj Ht Hu Hc Hc'.
  pose proof (I5 _ _ _ Hi Ht Hc) as E1. pose proof (I5 _ _ _ Hj Hu Hc') as E2.
  rewrite E1 in E2. injection E2 as <-.
  eapply (omap_NoDup_lookup token); [exact I2|exact Hi|exact Hj|..]; by apply live_token.
Qed.

(** Once every goroutine has finished, closed or not, nothing is left
    open: there is no current connection and every connection ever dialed has
    been closed. *)
Theorem connector_quiescent (st : connector_state) (H : reach New st)
  (Hend : Forall ended (threads st)) :
  conn (sh st) = None ∧ ∀ id, id < opened (sh st) → id ∈ shut (sh st).
Proof.
  apply inv_reach in H as I. assert (conn (sh st) = None) as Hc.
  { destruct (conn (sh st)) as [id|] eqn:E; [|done]. pose proof (inv_conn _ I id E) as Hx.
    apply Exists_exists in Hx as (t & Ht & Hr). rewrite Forall_forall in Hend.
    apply Hend in Ht. by destruct Hr as [-> | ->]. }
  split; [done|]. intros id Hid. destruct (inv_owned _ I id Hid) as [|[Hx|Hx]]; [done|congruence|].
  apply Exists_exists in Hx as (t & Ht & Hr). rewrite Forall_forall in Hend. apply Hend in Ht.
  by destruct (holds_not_ended id t).
Qed.

(** ** Two interleavings *)

(** Runs without further calls of the application. *)
Inductive runs : connector_state → connector_state → Prop :=
| runs_refl st : runs st st
| runs_step st i t s' t' sp st' :
    threads st !! i = Some t → thread_step (sh st) t s' t' sp →
    runs (MkState s' (<[i := t']> (threads st) ++ sp)) st' → runs st st'.

Lemma runs_reach st0 st st' : reach st0 st → runs st st' → reach st0 st'.
Proof.
  intros R H. revert R. induction H as [|st i t s' t' sp st' Hi Hs _ IH]; intros R; [done|].
  apply IH. eapply reach_step; [done|]. by eapply step_thread.
Qed.

Lemma runs_trans st1 st2 st3 : runs st1 st2 → runs st2 st3 → runs st1 st3.
Proof. intros H H'. induction H; [done|]. eapply runs_step; eauto. Qed.

Lemma may_try_first : may_try 0 = true.
Proof. unfold may_try. by destruct (MaxAttempts policy). Qed.

Ltac go i r := eapply (runs_step _ i); [reflexivity|constructor; eapply r; try reflexivity|]; simpl.

(** A call of [Connect] on a new connector, run to its end. *)
Definition connected (e : Endpoint) : connector_state :=
  MkState {| closed := false; ctx_done := false; conn := Some 0; lastEndpoint := Some e;
             endpoints := []; isConnecting := false; reconnectCancel := None; opened := 1;
             shut := ∅ ∪ ∅; contexts := 0; cancelled := ∅ |}
    [UserConnect e (Returned true); Reader 0 Reading].

Definition call (st : connector_state) (t : thread) : connector_state := MkState (sh st) (threads st ++ [t]).

Lemma connect_runs e : runs (call New (UserConnect e Entry)) (connected e).
Proof.
  unfold call, New, connected. simpl.
  go 0 user_entry. go 0 user_cancel. go 0 user_connect; [by apply swap_ok|]. simpl.
  go 0 user_connect; [apply dial_ok|]. simpl. go 0 user_connect; [apply install_conn|]. simpl.
  go 0 user_connect; [apply release|]. simpl. apply runs_refl.
Qed.

(** The loop of context [tok] at index [i] connects at the first try. *)
Ltac loop_connects i :=
  go i (@loop_top_try) ; [apply may_try_first|eassumption|]; simpl;
  go i (@loop_entry); go i (@loop_connect); [by apply swap_ok|]; simpl;
  go i (@loop_connect); [apply dial_ok|]; simpl; go i (@loop_connect); [apply install_conn|]; simpl;
  go i (@loop_connect); [apply release|]; simpl.

(** [Disconnect] does not keep the connector disconnected: the read loop
    of the closed connection finds the connector not closed and starts a
    reconnect loop, which connects to the last endpoint again, with no call of
    the application. *)
Theorem disconnect_reconnects (e : Endpoint) (Hsel : EndpointSelector policy [] None) :
  reach New (connected e) ∧
  ∃ st, runs (call (connected e) (Disconnect DCancel)) st ∧
    Disconnect DEnd ∈ threads st ∧ closed (sh st) = false ∧
    conn (sh st) = Some 1 ∧ lastEndpoint (sh st) = Some e.
Proof.
  split.
  { eapply runs_reach; [|apply connect_runs]. eapply reach_step; [apply reach_start|].
    apply step_api. left. eauto. }
  eexists. split.
  - unfold call, connected. simpl.
    go 2 disc_cancel. go 2 disc_take. go 2 disc_close.
    go 1 read_stop. go 1 read_other; [done|]. simpl. go 1 read_close. go 1 read_trigger.
    loop_connects 3. apply runs_refl.
  - simpl. split_and!; try done. apply list_elem_of_lookup. by exists 2.
Qed.

Lemma reconnect_lost_run (e : Endpoint) (Hsel : EndpointSelector policy [] None) :
  ∃ st, runs (call New (UserConnect e Entry)) st ∧ Forall ended (threads st) ∧
    closed (sh st) = false ∧ conn (sh st) = None ∧ opened (sh st) = 2 ∧
    reconnectCancel (sh st) = None.
Proof.
  assert (∃ st, runs (connected e) st ∧ Forall ended (threads st) ∧
    closed (sh st) = false ∧ conn (sh st) = None ∧ opened (sh st) = 2 ∧
    reconnectCancel (sh st) = None) as (st & R & H).
  - eexists. split.
    + unfold connected.
      go 1 read_stop. go 1 read_same. go 1 read_close. go 1 read_trigger.
      loop_connects 2.
      go 3 read_stop. go 3 read_same. go 3 read_close. go 3 read_trigger.
      go 2 loop_success. go 2 loop_defer. apply runs_refl.
    + simpl. split_and!; try done. by repeat constructor.
  - exists st. split; [|done]. eapply runs_trans; [apply connect_runs|done].
Qed.

(** A connection that drops right after a successful reconnect can leave
    the connector idle for ever: its read loop finds the context of the
    reconnect loop that has just succeeded still registered and starts no other.
    Nobody disconnected or closed, every dial succeeded, and every goroutine has
    finished. *)
Theorem reconnect_lost (e : Endpoint) (Hsel : EndpointSelector policy [] None) :
  ∃ st, runs (call New (UserConnect e Entry)) st ∧ Forall ended (threads st) ∧
    closed (sh st) = false ∧ conn (sh st) = None ∧ opened (sh st) = 2 ∧
    reconnectCancel (sh st) = None.
Proof. by apply reconnect_lost_run. Qed.
End connector.

(** The cases of a step of a thread, for the extensions of the connector. *)
Ltac thread_cases H :=
  destruct H;
  try match goal with
  | H : user_step _ _ _ _ _ _ |- _ => destruct H
  | H : loop_step _ _ _ _ _ _ _ _ _ |- _ => destruct H
  | H : reader_step _ _ _ _ _ _ |- _ => destruct H
  | H : disconnect_step _ _ _ _ |- _ => destruct H
  | H : close_step _ _ _ _ |- _ => destruct H
  end;
  try match goal with H : connect_step _ _ _ _ _ _ |- _ => destruct H end;
  try match goal with H : triggerReconnect _ = _ |- _ => apply trigger_threads in H as [[-> ->]|(? & -> & ->)] end.

(** ** Delays between attempts

    Durations are nanoseconds; a backoff factor is a fraction, multiplied
    exactly and truncated. *)

Module Backoff.
#[local] Open Scope Z_scope.

Record policy := {
  InitialBackoff : Z;
  MaxBackoff : Z;
  BackoffFactor : Z * Z;     (* numerator and positive denominator *)
  Jitter : bool
}.

Definition second : Z := 1000000000.

Definition DefaultReconnectPolicy : policy :=
  {| InitialBackoff := 1 * second; MaxBackoff := 30 * second; BackoffFactor := (2, 1); Jitter := true |}.

(** The defaults [New] fills in. *)
Definition resolve (p : policy) : policy :=
  let p1 := if InitialBackoff p =? 0 then DefaultReconnectPolicy else p in
  {| InitialBackoff := InitialBackoff p1;
     MaxBackoff := if MaxBackoff p1 =? 0 then MaxBackoff DefaultReconnectPolicy else MaxBackoff p1;
     BackoffFactor := if (BackoffFactor p1).1 <=? (BackoffFactor p1).2
                      then BackoffFactor DefaultReconnectPolicy else BackoffFactor p1;
     Jitter := Jitter p1 |}.

Definition next_backoff (p : policy) (backoff : Z) : Z :=
  let '(n, d) := BackoffFactor p in
  let '(n, d) := if n <=? d then (2, 1) else (n, d) in
  Z.min (backoff * n / d) (MaxBackoff p).

(** [r] is the random number; [rand.Int64N] panics on an empty range. *)
Definition sleepDur (p : policy) (backoff r : Z) : outcome Z :=
  if Jitter p then
    let range := Z.quot backoff 2 in
    if range <=? 0 then Panic else Done (Z.min (backoff + r mod range) (MaxBackoff p))
  else Done (Z.min backoff (MaxBackoff p)).

(** The value of [backoff] at the [k]-th failed attempt, from 0. *)
Fixpoint backoff_at (p : policy) (k : nat) : Z :=
  match k with O => InitialBackoff p | S k' => next_backoff p (backoff_at p k') end.

Definition factor_ok (p : policy) : Prop := 0 < (BackoffFactor p).2.

Lemma next_backoff_grows p b : factor_ok p → 0 <= b → Z.min b (MaxBackoff p) <= next_backoff p b <= MaxBackoff p.
Proof.
  unfold factor_ok, next_backoff. intros Hd Hb. destruct (BackoffFactor p) as [n d]. simpl in Hd.
  enough (∀ n' d', 0 < d' → d' < n' → b <= b * n' / d') as Hg.
  { destruct (n <=? d) eqn:E; bools; [specialize (Hg 2 1)|specialize (Hg n d)]; lia. }
  intros n' d' Hd' Hlt. apply Z.div_le_lower_bound; nia.
Qed.

Lemma backoff_at_bounds p k :
  factor_ok p → 0 <= InitialBackoff p → 0 <= MaxBackoff p →
  0 <= backoff_at p k ∧ Z.min (InitialBackoff p) (MaxBackoff p) <= backoff_at p k ∧
  Z.min (backoff_at p k) (MaxBackoff p) <= backoff_at p (S k) <= MaxBackoff p.
Proof.
  intros Hf Hi Hm. induction k as [|k (IH1 & IH2 & IH3)]; cbn [backoff_at] in *.
  - pose proof (next_backoff_grows p _ Hf Hi). lia.
  - pose proof (next_backoff_grows p (next_backoff p (backoff_at p k)) Hf ltac:(lia)). lia.
Qed.

(** Every delay is at least the backoff of the attempt (capped) and at
    most half as long again, never above the maximum; the backoffs grow from
    attempt to attempt until they reach the maximum.  With an initial and a
    maximal backoff of at least two nanoseconds the random jitter never panics,
    with an initial backoff of one nanosecond the first delay panics. *)
Theorem backoff_schedule (p : policy) (k : nat) (r : Z) (Hf : factor_ok p)
  (Hi : 0 <= InitialBackoff p) (Hm : 0 <= MaxBackoff p) :
  let b := backoff_at p k in
  Z.min b (MaxBackoff p) <= backoff_at p (S k) <= MaxBackoff p ∧
  (if Jitter p && (b <? 2) then sleepDur p b r = Panic
   else ∃ d, sleepDur p b r = Done d ∧ Z.min b (MaxBackoff p) <= d <= MaxBackoff p ∧ 2 * d <= 3 * b) ∧
  (2 <= InitialBackoff p → 2 <= MaxBackoff p → 2 <= b).
Proof.
  cbv zeta. destruct (backoff_at_bounds p k Hf Hi Hm) as (B1 & B2 & B3).
  split; [done|]. split; [|lia]. unfold sleepDur. cbv zeta.
  destruct (Jitter p); simpl; [|exists (Z.min (backoff_at p k) (MaxBackoff p)); split; [done|lia]].
  rewrite Z.quot_div_nonneg by lia.
  destruct (backoff_at p k <? 2) eqn:E; bools.
  - destruct (_ <=? 0) eqn:E2; bools; [done|]. Z.div_mod_to_equations; lia.
  - destruct (_ <=? 0) eqn:E2; bools; [Z.div_mod_to_equations; lia|].
    eexists. split; [done|].
    pose proof (Z.mod_pos_bound r (backoff_at p k / 2) ltac:(lia)).
    assert (2 * (backoff_at p k / 2) <= backoff_at p k) by (Z.div_mod_to_equations; lia). lia.
Qed.

(** The default policy: one second, doubling, at most thirty. *)
Example default_backoffs :
  map (λ k, backoff_at (resolve DefaultReconnectPolicy) k / second) [0; 1; 2; 3; 4; 5; 6]%nat
    = [1; 2; 4; 8; 16; 30; 30].
Proof. reflexivity. Qed.
End Backoff.

(** ** The theorems at concrete runs *)

Module ConnectorSample.
Definition first_policy : ReconnectPolicy (Endpoint := nat) :=
  {| MaxAttempts := 0; EndpointSelector es t := t = head es |}.

Lemma connected_reach (e : nat) : reach first_policy New (connected e).
Proof.
  eapply runs_reach; [|apply connect_runs]. eapply reach_step; [apply reach_start|].
  apply step_api. left. by exists e.
Qed.

Lemma connector_safety_witness :
  length (omap dialing (threads (connected 7))) <= 1 ∧ Exists (reading 0) (threads (connected 7)).
Proof.
  destruct (connector_safety first_policy (connected 7) (connected_reach 7)) as (H1 & _ & H3 & _).
  split; [exact H1|]. exact (H3 0 eq_refl).
Defined.

Lemma connector_quiescent_witness :
  ∃ st, reach first_policy New st ∧ opened (sh st) = 2 ∧ conn (sh st) = None ∧ 1 ∈ shut (sh st).
Proof.
  destruct (reconnect_lost_run first_policy 7 eq_refl) as (st & R & E & _ & _ & O & _).
  assert (reach first_policy New st) as HR.
  { eapply runs_reach; [|exact R]. eapply reach_step; [apply reach_start|].
    apply step_api. left. by exists 7. }
  destruct (connector_quiescent first_policy st HR E) as [H1 H2].
  exists st. split; [exact HR|]. split; [exact O|]. split; [exact H1|]. apply H2. rewrite O. lia.
Defined.

Lemma disconnect_reconnects_witness :
  ∃ st, runs first_policy (call (connected 7) (Disconnect DCancel)) st ∧ conn (sh st) = Some 1.
Proof.
  destruct (disconnect_reconnects first_policy 7 eq_refl) as (_ & st & R & _ & _ & C & _).
  exists st. split; [exact R|exact C].
Defined.

Lemma reconnect_lost_witness :
  ∃ st, runs first_policy (call New (UserConnect 7 Entry)) st ∧ conn (sh st) = None.
Proof.
  destruct (reconnect_lost first_policy 7 eq_refl) as (st & R & _ & _ & C & _).
  exists st. split; [exact R|exact C].
Defined.

Lemma backoff_schedule_witness :
  Backoff.sleepDur {| Backoff.InitialBackoff := 1; Backoff.MaxBackoff := 5; Backoff.BackoffFactor := (2, 1)%Z;
                      Backoff.Jitter := true |} 1 0 = Panic.
Proof.
  apply (Backoff.backoff_schedule
    {| Backoff.InitialBackoff := 1; Backoff.MaxBackoff := 5; Backoff.BackoffFactor := (2, 1)%Z;
       Backoff.Jitter := true |} 0 0); unfold Backoff.factor_ok; simpl; lia.
Defined.
End ConnectorSample.
