(* ===== verification/SocketReconnect.v ===== *)
(** * The callback after a reconnect (src/socket/connector/connector.go)

    [SetOnReconnect] beside the threads of [SocketConnector]: [Connect] reads the
    callback in the critical section that installs a connection, and a goroutine
    of its own runs it when the call came from a reconnect loop. *)

From S2P Require Import Prelude SocketConnector.

#[local] Open Scope nat_scope.

Section callbacks.
Context {Endpoint : Type} (policy : ReconnectPolicy (Endpoint := Endpoint)).

(** A goroutine that runs callback [cb_fn] for connection [cb_conn]. *)
Record callback_run := { cb_fn : nat; cb_conn : nat; cb_begun : bool }.

Record notified := {
  n_base : connector_state (Endpoint := Endpoint);
  n_callback : option nat;
  n_runs : list callback_run;
  n_reconnects : list (option nat * nat)   (* the installs of reconnect loops, with the callback then set *)
}.

Definition no_callback : notified := {| n_base := New; n_callback := None; n_runs := []; n_reconnects := [] |}.

Definition SetOnReconnect (f : option nat) (n : notified) : notified :=
  {| n_base := n_base n; n_callback := f; n_runs := n_runs n; n_reconnects := n_reconnects n |}.

Definition on_base (st : connector_state) (n : notified) : notified :=
  {| n_base := st; n_callback := n_callback n; n_runs := n_runs n; n_reconnects := n_reconnects n |}.

(** The thread installs a connection for a reconnect loop. *)
Definition reinstalls (t : thread (Endpoint := Endpoint)) : option nat :=
  match t with ReconnectLoop _ _ (LoopConnect _ (Install id)) => Some id | _ => None end.

(** [go onRec(c.ctx)]. *)
Definition start_callback (id : nat) (n : notified) : list callback_run :=
  match n_callback n with Some f => n_runs n ++ [{| cb_fn := f; cb_conn := id; cb_begun := false |}] | None => n_runs n end.

Definition begin (c : callback_run) : callback_run := {| cb_fn := cb_fn c; cb_conn := cb_conn c; cb_begun := true |}.

Inductive notify_step (n : notified) : notified → Prop :=
  | notify_set f : notify_step n (SetOnReconnect f n)
  | notify_other i t s' t' sp : threads (n_base n) !! i = Some t → thread_step policy (sh (n_base n)) t s' t' sp → reinstalls t = None →
      notify_step n (on_base (MkState s' (<[i := t']> (threads (n_base n)) ++ sp)) n)
  | notify_reconnect i t s' t' sp id : threads (n_base n) !! i = Some t → thread_step policy (sh (n_base n)) t s' t' sp → reinstalls t = Some id →
      notify_step n {| n_base := MkState s' (<[i := t']> (threads (n_base n)) ++ sp); n_callback := n_callback n;
                       n_runs := start_callback id n; n_reconnects := n_reconnects n ++ [(n_callback n, id)] |}
  | notify_api t : api_call t → notify_step n (on_base (MkState (sh (n_base n)) (threads (n_base n) ++ [t])) n)
  | notify_endpoints es : notify_step n (on_base (MkState (set_endpoints (sh (n_base n)) es) (threads (n_base n))) n)
  | notify_begin k c : n_runs n !! k = Some c → cb_begun c = false →
      notify_step n {| n_base := n_base n; n_callback := n_callback n; n_runs := <[k := begin c]> (n_runs n); n_reconnects := n_reconnects n |}.

Inductive notify_reach : notified → Prop :=
  | nreach_new : notify_reach no_callback
  | nreach_step n n' : notify_reach n → notify_step n n' → notify_reach n'.

(** The connector does not notice the callbacks. *)
Lemma notify_base n : notify_reach n → reach policy New (n_base n).
Proof.
  induction 1 as [|n n' _ IH Hs]; [apply reach_start|].
  destruct Hs; [done|eapply reach_step; [done|]; by eapply step_thread..|eapply reach_step; [done|]; by apply step_api|eapply reach_step; [done|]; apply step_endpoints|done].
Qed.

(** ** Connections about to be installed *)

Definition installing (t : thread (Endpoint := Endpoint)) : option nat :=
  match t with
  | UserConnect _ (Install id) | ReconnectLoop _ _ (LoopConnect _ (Install id)) => Some id
  | _ => None
  end.

(** A step dials a connection with a new number, installs one, or does neither. *)
Lemma step_installs s t s' t' sp : thread_step policy s t s' t' sp → omap installing sp = [] ∧
  (installing t' = installing t ∧ opened s' = opened s ∧ reinstalls t = None ∨
   installing t = None ∧ installing t' = Some (opened s) ∧ opened s' = S (opened s) ∨
   (∃ id, installing t = Some id ∧ (reinstalls t = Some id ∨ reinstalls t = None)) ∧ installing t' = None ∧ opened s' = opened s).
Proof.
  intros H. thread_cases H; (split; [done|]); cbn; try (left; by split_and!); try (right; left; by split_and!);
    right; right; (split; [eauto|by split]).
Qed.

Record callbacks_inv (n : notified) : Prop := {
  cv_apart : NoDup (omap installing (threads (n_base n)) ++ map snd (n_reconnects n));
  cv_known : ∀ id, id ∈ omap installing (threads (n_base n)) ++ map snd (n_reconnects n) → id < opened (sh (n_base n));
  cv_runs : map (λ c, (cb_fn c, cb_conn c)) (n_runs n) = omap (λ x, (λ f, (f, x.2)) <$> x.1) (n_reconnects n)
}.

Lemma reinstalls_installing t id : reinstalls t = Some id → installing t = Some id.
Proof. by destruct t as [| | |tok a []| |]; cbn; repeat case_match. Qed.

(** The numbers in use after a step of a thread; [inst] are those it has installed
    for a reconnect loop. *)
Lemma thread_step_numbers st i t s' t' sp l : threads st !! i = Some t → thread_step policy (sh st) t s' t' sp →
  NoDup (omap installing (threads st) ++ l) → (∀ id, id ∈ omap installing (threads st) ++ l → id < opened (sh st)) →
  let k := omap installing (<[i := t']> (threads st) ++ sp) ++ l ++ option_list (reinstalls t) in
  NoDup k ∧ ∀ id, id ∈ k → id < opened s'.
Proof.
  intros Hi Hs Hnd Hlt k. destruct (step_installs _ _ _ _ _ Hs) as [Hsp Hc].
  assert (k ≡ₚ (omap installing (<[i := t']> (threads st)) ++ option_list (reinstalls t)) ++ l) as Hk.
  { unfold k. rewrite omap_app, Hsp, app_nil_r, <- app_assoc. apply Permutation_app_head, Permutation_app_comm. }
  pose proof (omap_insert installing (threads st) i t t' Hi) as Hp.
  set (K := (omap installing (<[i := t']> (threads st)) ++ option_list (reinstalls t)) ++ l) in Hk.
  cut (NoDup K ∧ ∀ id, id ∈ K → id < opened s'); [intros [K1 K2]; split; [by rewrite Hk|intros id; rewrite Hk; apply K2]|]. unfold K. clear K Hk.
  assert (∀ A : list nat, A ⊆+ omap installing (threads st) → opened s' = opened (sh st) → NoDup (A ++ l) ∧ ∀ id, id ∈ A ++ l → id < opened s') as Hsub.
  { intros A HA Ho. assert (A ++ l ⊆+ omap installing (threads st) ++ l) as HA' by (by apply submseteq_skips_r). split.
    - apply submseteq_Permutation in HA' as [k' Hk']. rewrite Hk' in Hnd. by apply NoDup_app in Hnd as [? _].
    - intros id Hin. rewrite Ho. apply Hlt. by eapply elem_of_submseteq. }
  destruct Hc as [(E1 & E2 & E3)|[(E1 & E2 & E3)|((id & E1 & E3) & E2 & E4)]].
  - rewrite E3, app_nil_r. rewrite E1 in Hp. rewrite Permutation_app_comm in Hp. apply Permutation_app_inv_l in Hp. by apply Hsub; [rewrite Hp|].
  - assert (reinstalls t = None) as ->. { destruct (reinstalls t) eqn:E; [|done]. apply reinstalls_installing in E. congruence. }
    rewrite E1, E2, app_nil_r in Hp. rewrite app_nil_r, E3. split.
    + rewrite Hp. cbn. apply NoDup_cons. split; [|done]. intros Hin%Hlt. lia.
    + intros id. rewrite Hp. cbn. rewrite elem_of_cons. intros [->|Hin%Hlt]; lia.
  - rewrite E1, E2 in Hp. cbn in Hp. apply Hsub; [|done]. destruct E3 as [-> | ->]; cbn; [by rewrite Hp|].
    rewrite app_nil_r, <- Hp. by apply submseteq_inserts_r.
Qed.

Lemma notify_inv n : notify_reach n → callbacks_inv n.
Proof.
  induction 1 as [|n n' _ [I1 I2 I3] Hs]; [by repeat constructor; intros ? ?%not_elem_of_nil|].
  destruct Hs as [f|i t s' t' sp Hi Hs Hr|i t s' t' sp id Hi Hs Hr|t Ht|es|k c Hk Hb].
  - by split.
  - destruct (thread_step_numbers _ _ _ _ _ _ _ Hi Hs I1 I2) as [H1 H2]. rewrite Hr, app_nil_r in H1, H2. by split.
  - destruct (thread_step_numbers _ _ _ _ _ _ _ Hi Hs I1 I2) as [H1 H2]. rewrite Hr in H1, H2.
    split; cbn [n_base n_reconnects n_runs threads sh]; rewrite ?map_app; [done..|]. rewrite omap_app, <- I3. unfold start_callback.
    cbn. destruct (n_callback n); cbn; [by rewrite map_app|by rewrite app_nil_r].
  - assert (installing t = None) as Hn by (by destruct Ht as [[e ->]|[->|[->| ->]]]).
    split; cbn [on_base n_base n_reconnects n_runs threads sh]; rewrite ?omap_app; cbn; rewrite ?Hn, ?app_nil_r; done.
  - by split.
  - split; [done..|]. cbn. rewrite <- I3. apply list_eq. intros j. rewrite !list_lookup_fmap. destruct (decide (k = j)) as [<-|Hne].
    + rewrite list_lookup_insert_eq by (by eapply lookup_lt_Some). by rewrite Hk.
    + by rewrite list_lookup_insert_ne.
Qed.

(** The callback runs once for each connection that a reconnect loop installed
    while one was set, the one set at that moment, and for no other connection;
    the runs are in the order of the reconnects and no connection has two. *)
Theorem callback_once n : notify_reach n →
  map (λ c, (cb_fn c, cb_conn c)) (n_runs n) = omap (λ x, (λ f, (f, x.2)) <$> x.1) (n_reconnects n) ∧
  NoDup (map snd (n_reconnects n)) ∧ (∀ x, x ∈ n_reconnects n → x.2 < opened (sh (n_base n))) ∧ reach policy New (n_base n).
Proof.
  intros Hr. destruct (notify_inv n Hr) as [I1 I2 I3]. split_and!; [done|by apply NoDup_app in I1 as (_ & _ & ?)| |by apply notify_base].
  intros x Hx. apply I2. apply elem_of_app. right. apply list_elem_of_fmap. eauto.
Qed.
Inductive notify_runs : notified → notified → Prop :=
  | nruns_refl n : notify_runs n n
  | nruns_step n n1 n' : notify_step n n1 → notify_runs n1 n' → notify_runs n n'.

Lemma notify_runs_reach n n' : notify_reach n → notify_runs n n' → notify_reach n'.
Proof. intros Hr H. induction H as [|n n1 n' Hs _ IH]; [done|]. apply IH. by eapply nreach_step. Qed.

Ltac acts i r := eapply nruns_step; [eapply (notify_other _ i); [reflexivity|constructor; eapply r; try reflexivity|reflexivity]|]; simpl.

(** A connector that has been connected once, with callback [f] set and the
    connections in [X] closed. *)
Definition once_connected (e : Endpoint) (f : nat) (X : gset nat) : notified :=
  {| n_base := MkState {| closed := false; ctx_done := false; conn := Some 0; lastEndpoint := Some e; endpoints := []; isConnecting := false;
                          reconnectCancel := None; opened := 1; shut := X; contexts := 0; cancelled := ∅ |}
                 [UserConnect e (Returned true); Reader 0 Reading];
     n_callback := Some f; n_runs := []; n_reconnects := [] |}.

Lemma connects_once e f : ∃ X, notify_runs no_callback (once_connected e f X).
Proof.
  eexists. eapply nruns_step; [apply (notify_set _ (Some f))|]. unfold no_callback, New. simpl.
  eapply nruns_step; [apply (notify_api _ (UserConnect e Entry)); left; eauto|]. simpl.
  acts 0 (@user_entry). acts 0 (@user_cancel). acts 0 (@user_connect); [by apply swap_ok|]. simpl.
  acts 0 (@user_connect); [apply dial_ok|]. simpl. acts 0 (@user_connect); [apply install_conn|]. simpl. acts 0 (@user_connect); [apply release|]. simpl.
  apply nruns_refl.
Qed.

(** The connection has dropped and a reconnect loop has installed another. *)
Definition reconnected (e : Endpoint) (f : nat) (X : gset nat) : notified :=
  {| n_base := MkState {| closed := false; ctx_done := false; conn := Some 1; lastEndpoint := Some e; endpoints := []; isConnecting := true;
                          reconnectCancel := Some 0; opened := 2; shut := X; contexts := 1; cancelled := ∅ |}
                 [UserConnect e (Returned true); Reader 0 ReadEnd; ReconnectLoop 0 0 (LoopConnect (Some e) (Release true)); Reader 1 Reading];
     n_callback := Some f; n_runs := [{| cb_fn := f; cb_conn := 1; cb_begun := false |}]; n_reconnects := [(Some f, 1)] |}.

Lemma reconnects e f X : EndpointSelector policy [] None → ∃ Y, notify_runs (once_connected e f X) (reconnected e f Y).
Proof.
  intros Hsel. eexists. unfold once_connected. acts 1 (@read_stop). acts 1 (@read_same). acts 1 (@read_close). acts 1 (@read_trigger).
  acts 2 (@loop_top_try); [apply may_try_first|exact Hsel|]. simpl. acts 2 (@loop_entry). acts 2 (@loop_connect); [by apply swap_ok|]. simpl.
  acts 2 (@loop_connect); [apply dial_ok|]. simpl.
  eapply nruns_step; [eapply (notify_reconnect _ 2); [reflexivity|constructor; apply loop_connect, install_conn|reflexivity]|]. simpl.
  apply nruns_refl.
Qed.

Lemma closes e f X : ∃ n, notify_runs (reconnected e f X) n ∧ n_runs n = [{| cb_fn := f; cb_conn := 1; cb_begun := false |}] ∧
  closed (sh (n_base n)) = true ∧ conn (sh (n_base n)) = None ∧ 1 ∈ shut (sh (n_base n)) ∧ ctx_done (sh (n_base n)) = true.
Proof.
  eexists. split.
  - unfold reconnected. eapply nruns_step; [apply (notify_api _ (Close SSwap)); right; right; by right|]. simpl.
    acts 4 (@close_first). acts 4 (@close_cancel). acts 4 (@close_ctx). acts 4 (@close_take). acts 4 (@close_close). apply nruns_refl.
  - simpl. split_and!; [done..|set_solver|done].
Qed.

Lemma notify_runs_trans n1 n2 n3 : notify_runs n1 n2 → notify_runs n2 n3 → notify_runs n1 n3.
Proof. intros H H'. induction H as [|n n1 n' Hs _ IH]; [done|]. eapply nruns_step; [done|]. by apply IH. Qed.

(** Nothing keeps the callback with its connection: it may begin when that
    connection is closed and the connector with it. *)
Theorem callback_outlives_connection (e : Endpoint) f (Hsel : EndpointSelector policy [] None) :
  ∃ n, notify_reach n ∧ n_runs n = [{| cb_fn := f; cb_conn := 1; cb_begun := false |}] ∧
    closed (sh (n_base n)) = true ∧ conn (sh (n_base n)) = None ∧ 1 ∈ shut (sh (n_base n)) ∧ ctx_done (sh (n_base n)) = true.
Proof.
  destruct (connects_once e f) as [X HX], (reconnects e f X Hsel) as [Y HY], (closes e f Y) as (n & Hr & Hn). exists n. split; [|done].
  eapply notify_runs_reach; [apply nreach_new|]. eapply notify_runs_trans; [exact HX|]. by eapply notify_runs_trans.
Qed.
End callbacks.

Module ReconnectSample.
Import ConnectorSample.

Lemma callback_outlives_connection_witness : ∃ n, notify_reach first_policy n ∧ closed (sh (n_base n)) = true ∧ length (n_runs n) = 1.
Proof.
  destruct (callback_outlives_connection first_policy 7 3 eq_refl) as (n & Hr & E & Hc & _). exists n. split; [exact Hr|]. split; [exact Hc|].
  rewrite E. reflexivity.
Defined.

Lemma callback_once_witness : ∃ n, notify_reach first_policy n ∧ length (n_runs n) = 1 ∧ NoDup (map snd (n_reconnects n)).
Proof.
  destruct (callback_outlives_connection first_policy 7 3 eq_refl) as (n & Hr & E & _). exists n. split; [exact Hr|]. rewrite E. split; [reflexivity|].
  exact (proj1 (proj2 (callback_once first_policy n Hr))).
Defined.
End ReconnectSample.
