(* ===== verification/SocketCipher.v ===== *)
(** * Ciphers and callers of the connector (src/socket/connector/connector.go)

    The observers, [Send] and [WaitForConnection] on the shared state, and
    [SetCipher] beside the threads of [SocketConnector]: which cipher the
    connections use. *)

From S2P Require Import Prelude SocketConnector.

#[local] Open Scope nat_scope.

Section observers.
Context {Endpoint : Type}.
Implicit Type s : shared (Endpoint := Endpoint).

Definition IsConnected s : bool := match conn s with Some _ => negb (closed s) | None => false end.
Definition CurrentEndpoint s : option Endpoint * bool := (lastEndpoint s, IsConnected s).
Definition IsConnecting s : bool := isConnecting s.

Inductive connector_error := ErrClosed | ErrDisconnected | ErrContext.

(** [Send]: the connection the data goes to. *)
Definition Send s : result connector_error nat :=
  if closed s then Err ErrClosed
  else match conn s with Some id => Ok id | None => Err ErrDisconnected end.

(** What the select of [WaitForConnection] can see: the caller's context, the
    connector's, or a tick with the state at that time. *)
Inductive wait_event := CtxDone | ConnectorDone | Tick (s : shared (Endpoint := Endpoint)).

Definition wait_select (e : wait_event) : option (option connector_error) :=
  match e with
  | CtxDone => Some (Some ErrContext)
  | ConnectorDone => Some (Some ErrClosed)
  | Tick s => if IsConnected s then Some None else if negb (IsConnecting s) then Some (Some ErrDisconnected) else None
  end.

(** [None]: still waiting after these events. *)
Fixpoint wait_loop (events : list wait_event) : option (option connector_error) :=
  match events with
  | [] => None
  | e :: events => match wait_select e with Some r => Some r | None => wait_loop events end
  end.

Definition WaitForConnection s (events : list wait_event) : option (option connector_error) :=
  if IsConnected s then Some None else wait_loop events.

(** [WaitForConnection] returns at the first tick at which no dial is in
    progress; nil exactly when there was a connection then. *)
Lemma wait_returns s events e : IsConnected s = false →
  Forall (λ e, ∃ t, e = Tick t ∧ IsConnected t = false ∧ IsConnecting t = true) events →
  WaitForConnection s (events ++ [e]) = wait_select e ∧ WaitForConnection s events = None.
Proof.
  intros Hs Hw. unfold WaitForConnection. rewrite Hs.
  induction Hw as [|x events (t & -> & Hc & Hb) _ [IH1 IH2]]; cbn; [by destruct (wait_select e)|]. by rewrite Hc, Hb.
Qed.
End observers.

(** ** Ciphers *)

Section ciphers.
Context {Endpoint : Type} (policy : ReconnectPolicy (Endpoint := Endpoint)).

(** [cipher] is the connector's, [captured] what the dial in progress has read of
    it, [conn_cipher] the cipher each connection uses, [setting] the calls of
    [SetCipher] between their critical section and the connection's. *)
Record with_ciphers := {
  base : connector_state (Endpoint := Endpoint);
  cipher : nat;
  captured : option nat;
  conn_cipher : gmap nat nat;
  setting : list (nat * nat)
}.

Definition new_ciphers (c : nat) : with_ciphers :=
  {| base := New; cipher := c; captured := None; conn_cipher := ∅; setting := [] |}.

(** A step of the connector's threads: the compare-and-swap begins a dial, a
    connection is dialed with the captured cipher. *)
Definition follow (st' : connector_state) (x : with_ciphers) : with_ciphers :=
  {| base := st'; cipher := cipher x;
     captured := if isConnecting (sh (base x)) then captured x else None;
     conn_cipher := match captured x with
                    | Some k => if opened (sh st') =? S (opened (sh (base x))) then <[opened (sh (base x)) := k]> (conn_cipher x) else conn_cipher x
                    | None => conn_cipher x
                    end;
     setting := setting x |}.

Definition capture (x : with_ciphers) : with_ciphers :=
  {| base := base x; cipher := cipher x; captured := Some (cipher x); conn_cipher := conn_cipher x; setting := setting x |}.

(** The two parts of [SetCipher]: under the connector's lock, and the call of the
    connection it found there. *)
Definition SetCipher (c : nat) (x : with_ciphers) : with_ciphers :=
  {| base := base x; cipher := c; captured := captured x; conn_cipher := conn_cipher x;
     setting := setting x ++ match conn (sh (base x)) with Some id => [(id, c)] | None => [] end |}.

Definition conn_SetCipher (id c : nat) (rest : list (nat * nat)) (x : with_ciphers) : with_ciphers :=
  {| base := base x; cipher := cipher x; captured := captured x; conn_cipher := <[id := c]> (conn_cipher x); setting := rest |}.

(** [alone]: [SetCipher] is called only while no dial and no other [SetCipher] is
    in progress. *)
Inductive cipher_step (alone : bool) (x : with_ciphers) : with_ciphers → Prop :=
| cipher_follow st' : connector_step policy (base x) st' →
    (opened (sh st') = S (opened (sh (base x))) → is_Some (captured x)) → cipher_step alone x (follow st' x)
| cipher_capture : isConnecting (sh (base x)) = true → captured x = None → cipher_step alone x (capture x)
| cipher_set c : (alone = true → isConnecting (sh (base x)) = false ∧ setting x = []) → cipher_step alone x (SetCipher c x)
| cipher_apply l1 l2 id c : setting x = l1 ++ (id, c) :: l2 → cipher_step alone x (conn_SetCipher id c (l1 ++ l2) x).

Inductive cipher_reach (alone : bool) (c : nat) : with_ciphers → Prop :=
| cipher_start : cipher_reach alone c (new_ciphers c)
| cipher_next x y : cipher_reach alone c x → cipher_step alone x y → cipher_reach alone c y.

(** The thread holds a connection it is about to install. *)
Definition installing (id : nat) (t : thread (Endpoint := Endpoint)) : Prop :=
  match t with
  | UserConnect _ (Install i) => i = id
  | ReconnectLoop _ _ (LoopConnect _ (Install i)) => i = id
  | _ => False
  end.

Lemma installing_dialing id t : installing id t → dialing t = Some tt.
Proof. destruct t as [e p| | |tok a p| |]; try done; cbn; repeat case_match; done. Qed.

(** What a step does to the connections about to be installed and to the current
    one. *)
Lemma step_installing s (t t' : thread (Endpoint := Endpoint)) s' sp id : thread_step policy s t s' t' sp →
  (installing id t' → installing id t ∨ (id = opened s ∧ opened s' = S (opened s))) ∧
  (∀ x, x ∈ sp → ¬ installing id x) ∧
  (conn s' = Some id → conn s = Some id ∨ installing id t).
Proof.
  assert (Hnil : ∀ x : thread (Endpoint := Endpoint), x ∈ [] → ¬ installing id x) by (intros x Hx; by apply not_elem_of_nil in Hx).
  intros H. destruct H as [e p s' p' sp H|s' sp H|tok a p s' a' p' sp H|i p s' p' sp H|p s' p' H|p s' p' H].
  - destruct H as [| | |p s' p' sp H]; try (by split_and!; auto). destruct H; split_and!; cbn; auto; try done;
      try (intros x ->%list_elem_of_singleton Hx; exact Hx); try (intros [= ->]; by auto); try (intros <-; by auto).
  - destruct (triggerReconnect s) as [s1 sp1] eqn:E. injection H as <- <-. unfold triggerReconnect in E.
    destruct (reconnectCancel s); [injection E as <- <-; by split_and!; auto|].
    destruct (closed s); injection E as <- <-; split_and!; auto; intros x ->%list_elem_of_singleton Hx; exact Hx.
  - destruct H as [| | | | |? ? ? ? ? ? H| | | | |]; try (by split_and!; auto). destruct H; split_and!; cbn; auto; try done;
      try (intros x ->%list_elem_of_singleton Hx; exact Hx); try (intros [= ->]; by auto); try (intros <-; by auto).
  - destruct H as [| | | |s' sp E]; try (by split_and!; cbn; auto); try (destruct same; by split_and!; cbn; auto).
    unfold triggerReconnect in E. destruct (reconnectCancel s); [injection E as <- <-; by split_and!; auto|].
    destruct (closed s); injection E as <- <-; split_and!; auto; intros x ->%list_elem_of_singleton Hx; exact Hx.
  - destruct H; split_and!; cbn; auto; done.
  - destruct H; split_and!; cbn; auto; done.
Qed.

Lemma step_opened s (t t' : thread (Endpoint := Endpoint)) s' sp : thread_step policy s t s' t' sp →
  opened s' = S (opened s) → dialing t = Some tt.
Proof.
  intros H Ho. assert (∀ n, n ≠ S n) as Hn by lia.
  destruct H as [e p s' p' sp H|s' sp H|tok a p s' a' p' sp H|i p s' p' sp H|p s' p' H|p s' p' H].
  - destruct H as [| | |p s' p' sp H]; cbn in *; try (by destruct (Hn _ Ho)). destruct H; cbn in *; try done; by destruct (Hn _ Ho).
  - unfold triggerReconnect in H. destruct (reconnectCancel s), (closed s); injection H as <- <-; cbn in *; by destruct (Hn _ Ho).
  - destruct H as [| | | | |? ? ? ? ? ? H| | | | |]; cbn in *; try (by destruct (Hn _ Ho)). destruct H; cbn in *; try done; by destruct (Hn _ Ho).
  - destruct H as [| | | |s' sp E]; cbn in *; try (by destruct (Hn _ Ho)).
    unfold triggerReconnect in E. destruct (reconnectCancel s), (closed s); injection E as <- <-; cbn in *; by destruct (Hn _ Ho).
  - destruct H; cbn in *; by destruct (Hn _ Ho).
  - destruct H; cbn in *; by destruct (Hn _ Ho).
Qed.

Lemma dialing_connecting (st : connector_state (Endpoint := Endpoint)) i t : inv st → threads st !! i = Some t → dialing t = Some tt →
  isConnecting (sh st) = true.
Proof.
  intros I Hi Hd. pose proof (inv_dial _ I) as Hn. destruct (isConnecting (sh st)); [done|].
  apply nil_length_inv in Hn. assert (tt ∈ omap dialing (threads st)) as Hin.
  { apply list_elem_of_omap. exists t. split; [by eapply list_elem_of_lookup_2|done]. }
  rewrite Hn in Hin. by apply not_elem_of_nil in Hin.
Qed.

Lemma cipher_base alone c x : cipher_reach alone c x → reach policy New (base x).
Proof.
  induction 1 as [|x y _ IH Hs]; [apply reach_start|]. destruct Hs; try done. by eapply reach_step.
Qed.

Record cipher_inv (x : with_ciphers) : Prop := {
  ci_captured : isConnecting (sh (base x)) = true → captured x = None ∨ captured x = Some (cipher x);
  ci_installing : ∀ i t id, threads (base x) !! i = Some t → installing id t → conn_cipher x !! id = Some (cipher x);
  ci_conn : ∀ id, conn (sh (base x)) = Some id → conn_cipher x !! id = Some (cipher x) ∨ (id, cipher x) ∈ setting x;
  ci_setting : ∀ p, p ∈ setting x → p.2 = cipher x
}.

(** Whatever a dial writes is the current cipher. *)
Lemma follow_cipher x st' id : cipher_inv x →
  (opened (sh st') = S (opened (sh (base x))) → isConnecting (sh (base x)) = true) →
  conn_cipher x !! id = Some (cipher x) → conn_cipher (follow st' x) !! id = Some (cipher x).
Proof.
  intros I Hc Hid. cbn. destruct (captured x) as [k|] eqn:Ek; [|done]. destruct (_ =? _) eqn:Eo; [|done]. bools.
  destruct (ci_captured x I (Hc Eo)) as [E|E]; [congruence|]. rewrite Ek in E. injection E as ->.
  destruct (decide (id = opened (sh (base x)))) as [->|]; [apply lookup_insert_eq|by rewrite lookup_insert_ne].
Qed.

Lemma cipher_inv_step x y : inv (base x) → cipher_inv x → cipher_step true x y → cipher_inv y.
Proof.
  intros B I Hs. pose proof I as [I1 I2 I3 I4]. destruct Hs as [st' Hst Hcap|Hc Hn|c Ha|l1 l2 id c Hset].
  - assert (opened (sh st') = S (opened (sh (base x))) → isConnecting (sh (base x)) = true) as Hdial.
    { destruct Hst as [i t s' t' sp Hi H|t Ht|es]; cbn; intros Ho; [|lia|lia].
      eapply dialing_connecting; [done|done|]. by eapply step_opened. }
    constructor; cbn [base cipher setting captured follow]; [| | |done].
    + destruct (isConnecting (sh (base x))); [by intros _; apply I1|by left].
    + intros j u id Hj Hin. destruct Hst as [i t s' t' sp Hi H|t Ht|es]; cbn in Hj.
      * destruct (step_installing _ _ _ _ _ id H) as (S1 & S2 & _).
        apply lookup_step in Hj as [[-> ->]|[[_ Hj]|Hj]]; [|by eapply follow_cipher, I2|by destruct (S2 u Hj)|by eapply lookup_lt_Some].
        destruct (S1 Hin) as [|[-> Ho]]; [by eapply follow_cipher, I2|].
        cbn. destruct (Hcap Ho) as [k Hk]. rewrite Hk. cbn in Ho. rewrite Ho, Nat.eqb_refl, lookup_insert_eq.
        destruct (I1 (Hdial Ho)); congruence.
      * apply lookup_app_Some in Hj as [Hj|[_ Hj]]; [by eapply follow_cipher, I2|].
        apply list_lookup_singleton_Some in Hj as [_ <-]. destruct Ht as [[e ->]|[->|[->| ->]]]; done.
      * by eapply follow_cipher, I2.
    + intros id Hid. destruct Hst as [i t s' t' sp Hi H|t Ht|es]; cbn in Hid.
      * destruct (step_installing _ _ _ _ _ id H) as (_ & _ & S3).
        destruct (S3 Hid) as [Ho|Ho]; [|left; by eapply follow_cipher, I2].
        destruct (I3 id Ho); [left; by apply follow_cipher|by right].
      * destruct (I3 id Hid); [left; by apply follow_cipher|by right].
      * destruct (I3 id Hid); [left; by apply follow_cipher|by right].
  - constructor; cbn; try done. intros _. by right.
  - destruct (Ha eq_refl) as [Hc Hn]. constructor; cbn; rewrite ?Hn; cbn.
    + congruence.
    + intros i t id Hi Hin%installing_dialing. pose proof (dialing_connecting _ _ _ B Hi Hin). congruence.
    + intros id ->. right. by left.
    + intros p. destruct (conn (sh (base x))); [|by intros ?%not_elem_of_nil]. by intros ->%list_elem_of_singleton.
  - pose proof (I4 (id, c)) as Hcid. rewrite Hset in Hcid. cbn in Hcid.
    rewrite Hcid in * by (apply elem_of_app; right; left).
    constructor; cbn; [done| | |].
    + intros i t id' Hi Hin. specialize (I2 i t id' Hi Hin).
      destruct (decide (id' = id)) as [->|]; [apply lookup_insert_eq|by rewrite lookup_insert_ne].
    + intros id' Hid. destruct (decide (id' = id)) as [->|]; [left; apply lookup_insert_eq|rewrite lookup_insert_ne by done].
      destruct (I3 id' Hid) as [|Hs]; [by left|right]. rewrite Hset in Hs.
      apply elem_of_app in Hs as [Hs|[Heq|Hs]%elem_of_cons]; [apply elem_of_app; by left|by injection Heq|apply elem_of_app; by right].
    + intros p Hp. apply I4. rewrite Hset. apply elem_of_app in Hp as [Hp|Hp]; apply elem_of_app; [by left|right; by right].
Qed.

(** When [SetCipher] is called only while no dial and no other [SetCipher] is in
    progress, then in every interleaving with the connector's goroutines the
    current connection uses the connector's cipher as soon as the call is over. *)
Theorem cipher_in_use c x : cipher_reach true c x → ∀ id, conn (sh (base x)) = Some id → setting x = [] →
  conn_cipher x !! id = Some (cipher x).
Proof.
  intros Hr id Hid Hs. assert (cipher_inv x) as I.
  { clear id Hid Hs. induction Hr as [|x y Hr IH Hs].
    - constructor; cbn; try done. intros p Hp. by apply not_elem_of_nil in Hp.
    - eapply cipher_inv_step; [|exact IH|exact Hs]. by eapply inv_reach, cipher_base. }
  destruct (ci_conn x I id Hid) as [|H]; [done|]. rewrite Hs in H. by apply not_elem_of_nil in H.
Qed.

(** The only caller of [Connect] moves. *)
Lemma user_move alone c e x p s' p' sp : cipher_reach alone c x → threads (base x) !! 0 = Some (UserConnect e p) →
  user_step (sh (base x)) e p s' p' sp → (opened s' = S (opened (sh (base x))) → is_Some (captured x)) →
  cipher_reach alone c (follow (MkState s' (<[0 := UserConnect e p']> (threads (base x)) ++ sp)) x).
Proof.
  intros Hr Hi Hst Hc. eapply cipher_next; [exact Hr|]. apply cipher_follow; [|done].
  eapply step_thread; [exact Hi|by constructor].
Qed.

(** A [SetCipher] during a dial is lost for the connection being dialed: the dial
    has read the old cipher, and the new connection is not there yet. *)
Theorem cipher_lost (e : Endpoint) c c' : ∃ x id, cipher_reach false c x ∧
  conn (sh (base x)) = Some id ∧ setting x = [] ∧ isConnecting (sh (base x)) = false ∧
  conn_cipher x !! id = Some c ∧ cipher x = c'.
Proof.
  assert (R0 := cipher_start false c).
  eassert (R1 : cipher_reach false c _).
  { eapply (cipher_next _ _ _ _ R0), cipher_follow; [eapply step_api; left; by exists e|cbn; lia]. }
  cbn in R1. clear R0.
  eassert (R2 : cipher_reach false c _) by (eapply (user_move _ _ _ _ _ _ _ _ R1); [reflexivity|apply user_entry; reflexivity|cbn; lia]).
  cbn in R2. clear R1.
  eassert (R3 : cipher_reach false c _) by (eapply (user_move _ _ _ _ _ _ _ _ R2); [reflexivity|apply user_cancel|cbn; lia]).
  cbn in R3. clear R2.
  eassert (R4 : cipher_reach false c _) by (eapply (user_move _ _ _ _ _ _ _ _ R3); [reflexivity|apply user_connect, swap_ok; reflexivity|cbn; lia]).
  cbn in R4. clear R3.
  eassert (R5 : cipher_reach false c _) by (eapply (cipher_next _ _ _ _ R4); apply cipher_capture; reflexivity).
  cbn in R5. clear R4.
  eassert (R6 : cipher_reach false c _) by (eapply (cipher_next _ _ _ _ R5); apply (cipher_set false _ c'); discriminate).
  cbn in R6. clear R5.
  eassert (R7 : cipher_reach false c _) by (eapply (user_move _ _ _ _ _ _ _ _ R6); [reflexivity|apply user_connect, dial_ok|intros _; by eexists]).
  cbn in R7. clear R6.
  eassert (R8 : cipher_reach false c _) by (eapply (user_move _ _ _ _ _ _ _ _ R7); [reflexivity|apply user_connect, install_conn|cbn; lia]).
  cbn in R8. clear R7.
  eassert (R9 : cipher_reach false c _) by (eapply (user_move _ _ _ _ _ _ _ _ R8); [reflexivity|apply user_connect, release|cbn; lia]).
  cbn in R9. clear R8.
  eexists _, 0. split; [exact R9|]. done.
Qed.
(** A first connection. *)
Lemma connects alone (e : Endpoint) c : ∃ x, cipher_reach alone c x ∧ conn (sh (base x)) = Some 0 ∧ setting x = [].
Proof.
  assert (R0 := cipher_start alone c).
  eassert (R1 : cipher_reach alone c _).
  { eapply (cipher_next _ _ _ _ R0), cipher_follow; [eapply step_api; left; by exists e|cbn; lia]. }
  cbn in R1. clear R0.
  eassert (R2 : cipher_reach alone c _) by (eapply (user_move _ _ _ _ _ _ _ _ R1); [reflexivity|apply user_entry; reflexivity|cbn; lia]).
  cbn in R2. clear R1.
  eassert (R3 : cipher_reach alone c _) by (eapply (user_move _ _ _ _ _ _ _ _ R2); [reflexivity|apply user_cancel|cbn; lia]).
  cbn in R3. clear R2.
  eassert (R4 : cipher_reach alone c _) by (eapply (user_move _ _ _ _ _ _ _ _ R3); [reflexivity|apply user_connect, swap_ok; reflexivity|cbn; lia]).
  cbn in R4. clear R3.
  eassert (R5 : cipher_reach alone c _) by (eapply (cipher_next _ _ _ _ R4); apply cipher_capture; reflexivity).
  cbn in R5. clear R4.
  eassert (R6 : cipher_reach alone c _) by (eapply (user_move _ _ _ _ _ _ _ _ R5); [reflexivity|apply user_connect, dial_ok|intros _; by eexists]).
  cbn in R6. clear R5.
  eassert (R7 : cipher_reach alone c _) by (eapply (user_move _ _ _ _ _ _ _ _ R6); [reflexivity|apply user_connect, install_conn|cbn; lia]).
  cbn in R7. clear R6.
  eexists. split; [exact R7|]. done.
Qed.
End ciphers.

Module CipherSample.
Definition policy : ReconnectPolicy (Endpoint := nat) := {| MaxAttempts := 0; EndpointSelector _ o := o = None |}.

Lemma cipher_in_use_witness : ∃ x, cipher_reach policy true 7 x ∧ conn (sh (base x)) = Some 0 ∧ conn_cipher x !! 0 = Some (cipher x).
Proof.
  destruct (connects policy true 1 7) as (x & Hr & Hc & Hs). exists x. split; [exact Hr|]. split; [exact Hc|].
  exact (cipher_in_use policy 7 x Hr 0 Hc Hs).
Defined.
End CipherSample.
