(* ===== verification/SocketDispatcher.v ===== *)
(** * The packet dispatcher (src/socket/dispatcher/dispatcher.go)

    Routing by job, method and opcode, the handler tables, and synchronous
    requests whose answers arrive through the task manager.  Handlers and
    callbacks are numbers; the effect of a packet is the handler or callback it
    reaches. *)

From S2P Require Import Prelude SocketFrame.

#[local] Open Scope nat_scope.

(** ** The task manager

    [task.Manager] of the foundation module, as the dispatcher uses it. *)
Class TaskManager (JobID : Type) := {
  manager : Type;
  tasks_Add : JobID → nat → manager → option manager;      (* [None]: refused *)
  tasks_Resolve : JobID → manager → option nat * manager;  (* the callback run *)
  tasks_CancelAll : manager → list nat * manager;
  pending : manager → JobID → option nat
}.

(** A job is pending from its registration until it is resolved, and resolving
    it runs its callback once. *)
Class TaskLaws (JobID : Type) `{EqDecision JobID, TM : TaskManager JobID} : Prop := {
  Add_pending : ∀ j cb m m', tasks_Add j cb m = Some m' →
    ∀ k, pending m' k = if decide (k = j) then Some cb else pending m k;
  Resolve_result : ∀ j m, (tasks_Resolve j m).1 = pending m j;
  Resolve_pending : ∀ j m k,
    pending (tasks_Resolve j m).2 k = if decide (k = j) then None else pending m k;
  CancelAll_pending : ∀ m k, pending (tasks_CancelAll m).2 k = None
}.

Section dispatcher.
Context {OpCode JobID Packet : Type} `{Countable OpCode, EqDecision JobID, TM : TaskManager JobID}.

(** The functions of an extractor may be nil. *)
Record Extractor := {
  GetOpCode : option (Packet → OpCode);
  GetMethod : option (Packet → option bytes);
  GetJobID : option (Packet → option JobID)
}.

Record Dispatcher := {
  d_extractor : Extractor;
  d_tasks : manager;
  d_opcodeHandlers : gmap OpCode nat;
  d_methodHandlers : gmap bytes nat;
  d_jobCounter : Z;
  d_closed : bool
}.

Definition set_tasks (d : Dispatcher) (m : manager) : Dispatcher :=
  {| d_extractor := d_extractor d; d_tasks := m; d_opcodeHandlers := d_opcodeHandlers d;
     d_methodHandlers := d_methodHandlers d; d_jobCounter := d_jobCounter d; d_closed := d_closed d |}.

Definition set_handlers (d : Dispatcher) (ops : gmap OpCode nat) (ms : gmap bytes nat) : Dispatcher :=
  {| d_extractor := d_extractor d; d_tasks := d_tasks d; d_opcodeHandlers := ops;
     d_methodHandlers := ms; d_jobCounter := d_jobCounter d; d_closed := d_closed d |}.

(** The atomic counter wraps at 64 bits. *)
Definition NextJobID (d : Dispatcher) : Z * Dispatcher :=
  let n := ((d_jobCounter d + 1) mod 2 ^ 64)%Z in
  (n, {| d_extractor := d_extractor d; d_tasks := d_tasks d;
         d_opcodeHandlers := d_opcodeHandlers d; d_methodHandlers := d_methodHandlers d;
         d_jobCounter := n; d_closed := d_closed d |}).

(** A nil handler removes the entry. *)
Definition RegisterHandler (d : Dispatcher) (op : OpCode) (h : option nat) : Dispatcher :=
  match h with
  | None => set_handlers d (delete op (d_opcodeHandlers d)) (d_methodHandlers d)
  | Some h => set_handlers d (<[op := h]> (d_opcodeHandlers d)) (d_methodHandlers d)
  end.

Definition RegisterMethodHandler (d : Dispatcher) (method : bytes) (h : option nat) : Dispatcher :=
  match h with
  | None => set_handlers d (d_opcodeHandlers d) (delete method (d_methodHandlers d))
  | Some h => set_handlers d (d_opcodeHandlers d) (<[method := h]> (d_methodHandlers d))
  end.

Definition ClearHandlers (d : Dispatcher) : Dispatcher := set_handlers d ∅ ∅.

(** Where a packet went. *)
Inductive route := ToJob (callback : nat) | ToHandler (h : nat) | Unrouted.

Definition dispatch_opcode (d : Dispatcher) (pkt : Packet) : route :=
  match GetOpCode (d_extractor d) with
  | Some get => match d_opcodeHandlers d !! get pkt with Some h => ToHandler h | None => Unrouted end
  | None => Unrouted
  end.

Definition dispatch_handlers (d : Dispatcher) (pkt : Packet) : route :=
  match GetMethod (d_extractor d) with
  | Some get =>
      match get pkt with
      | Some method =>
          if bytes_eqb method [] then dispatch_opcode d pkt
          else match d_methodHandlers d !! method with
               | Some h => ToHandler h
               | None => dispatch_opcode d pkt
               end
      | None => dispatch_opcode d pkt
      end
  | None => dispatch_opcode d pkt
  end.

(** The result of [Dispatch] is whether the packet was routed. *)
Definition Dispatch (d : Dispatcher) (pkt : Packet) : Dispatcher * route :=
  match GetJobID (d_extractor d) with
  | Some get =>
      match get pkt with
      | Some jobID =>
          let '(r, m) := tasks_Resolve jobID (d_tasks d) in
          match r with
          | Some cb => (set_tasks d m, ToJob cb)
          | None => (set_tasks d m, dispatch_handlers d pkt)
          end
      | None => (d, dispatch_handlers d pkt)
      end
  | None => (d, dispatch_handlers d pkt)
  end.

Definition Dispatcher_Close (d : Dispatcher) : Dispatcher * list nat :=
  if d_closed d then (d, [])
  else
    let '(cbs, m) := tasks_CancelAll (d_tasks d) in
    ({| d_extractor := d_extractor d; d_tasks := m; d_opcodeHandlers := d_opcodeHandlers d;
        d_methodHandlers := d_methodHandlers d; d_jobCounter := d_jobCounter d; d_closed := true |}, cbs).

(** ** Construction *)

Record Config := { MaxJobs : Z }.
Definition DefaultConfig : Config := {| MaxJobs := 1000 |}.

Definition max_jobs (cfg : Config) : Z := (if MaxJobs cfg <=? 0 then 1000 else MaxJobs cfg)%Z.

(** [NewManager] is the constructor of the task manager, with its capacity. *)
Definition New (NewManager : Z → manager) (cfg : Config) (extractor : Extractor) : Dispatcher :=
  {| d_extractor := extractor; d_tasks := NewManager (max_jobs cfg); d_opcodeHandlers := ∅; d_methodHandlers := ∅;
     d_jobCounter := 0; d_closed := false |}.

(** ** Synchronous requests *)

(** What ended the wait of [SendSync]: the write failed, the context was done,
    or the callback delivered a packet or the cancellation. *)
Inductive outcome_of_wait := WriteFailed | ContextDone | Answered (pkt : Packet) | Cancelled.
Inductive send_result := Packet_ (pkt : Packet) | SendErrClosed | SendErrWrite | SendErrContext | SendErrCancelled.

(** The registration, its result ignored. *)
Definition SendSync_register (d : Dispatcher) (jobID : JobID) (cb : nat) : Dispatcher + send_result :=
  if d_closed d then inr SendErrClosed
  else inl (match tasks_Add jobID cb (d_tasks d) with Some m => set_tasks d m | None => d end).

(** The end of the wait and the deferred [Resolve], which runs the callback of
    whoever is pending under the id, with the cancellation error. *)
Definition SendSync_return (d : Dispatcher) (jobID : JobID) (w : outcome_of_wait) (ctx_done : bool)
  : Dispatcher * option nat * send_result :=
  let '(r, m) := tasks_Resolve jobID (d_tasks d) in
  (set_tasks d m, r,
   match w with
   | WriteFailed => SendErrWrite
   | ContextDone => SendErrContext
   | Answered pkt => Packet_ pkt
   | Cancelled => if ctx_done then SendErrContext else SendErrCancelled
   end).
End dispatcher.
Arguments Extractor _ _ _ : clear implicits.

(** ** Routing *)

Section routing.
Context {OpCode JobID Packet : Type} `{Countable OpCode, EqDecision JobID, TM : TaskManager JobID, !TaskLaws JobID}.
Implicit Types d : Dispatcher (OpCode := OpCode) (JobID := JobID) (Packet := Packet).

(** The handler registered for the packet's method, if it names one. *)
Definition method_handler d (pkt : Packet) : option nat :=
  get ← GetMethod (d_extractor d); method ← get pkt;
  if bytes_eqb method [] then None else d_methodHandlers d !! method.

Definition opcode_handler d (pkt : Packet) : option nat :=
  get ← GetOpCode (d_extractor d); d_opcodeHandlers d !! get pkt.

Definition job_of d (pkt : Packet) : option JobID := get ← GetJobID (d_extractor d); get pkt.

Lemma dispatch_handlers_spec d pkt :
  dispatch_handlers d pkt =
    match method_handler d pkt, opcode_handler d pkt with
    | Some h, _ => ToHandler h
    | None, Some h => ToHandler h
    | None, None => Unrouted
    end.
Proof.
  assert (Hop : dispatch_opcode d pkt =
    match opcode_handler d pkt with Some h => ToHandler h | None => Unrouted end).
  { unfold dispatch_opcode, opcode_handler. by destruct (GetOpCode _). }
  unfold dispatch_handlers, method_handler. rewrite Hop.
  destruct (GetMethod (d_extractor d)) as [get|]; simpl; [|done].
  destruct (get pkt) as [method|]; simpl; [|done].
  destruct (bytes_eqb method []); [done|]. by destruct (d_methodHandlers d !! method).
Qed.

(** A packet that answers a pending job goes to that job's callback and to
    no handler; any other goes to the handler of its method, or else to the
    handler of its opcode, and to exactly one of them.  The job is no longer
    pending afterwards, so the same answer is routed to a job at most once;
    other jobs and the handler tables are untouched. *)
Theorem dispatch_routing d (pkt : Packet) :
  let '(d', r) := Dispatch d pkt in
  r = match job_of d pkt ≫= pending (d_tasks d), method_handler d pkt, opcode_handler d pkt with
      | Some cb, _, _ => ToJob cb
      | None, Some h, _ => ToHandler h
      | None, None, Some h => ToHandler h
      | None, None, None => Unrouted
      end ∧
  (∀ k, pending (d_tasks d') k =
     if decide (job_of d pkt = Some k) then None else pending (d_tasks d) k) ∧
  d_opcodeHandlers d' = d_opcodeHandlers d ∧ d_methodHandlers d' = d_methodHandlers d.
Proof.
  unfold Dispatch, job_of. destruct (GetJobID (d_extractor d)) as [get|]; simpl.
  2:{ rewrite dispatch_handlers_spec. by repeat case_match. }
  destruct (get pkt) as [j|]; simpl.
  2:{ rewrite dispatch_handlers_spec. by repeat case_match. }
  pose proof (Resolve_result j (d_tasks d)) as Hr.
  assert (Hp : ∀ k, pending (tasks_Resolve j (d_tasks d)).2 k =
    if decide (Some j = Some k) then None else pending (d_tasks d) k).
  { intros k. rewrite Resolve_pending. destruct (decide (k = j)), (decide (Some j = Some k)); congruence. }
  destruct (tasks_Resolve j (d_tasks d)) as [r m]. simpl in Hr, Hp. rewrite <- Hr.
  destruct r as [cb|]; [done|]. rewrite dispatch_handlers_spec. by repeat case_match.
Qed.

(** A new dispatcher routes nothing, whatever the packet, and its task manager has
    room for the configured number of jobs, a thousand if none is given. *)
Lemma new_unrouted (NewManager : Z → manager) cfg ext (pkt : Packet) : (∀ n k, pending (NewManager n) k = None) →
  (Dispatch (New NewManager cfg ext : Dispatcher (OpCode := OpCode)) pkt).2 = Unrouted ∧ max_jobs DefaultConfig = 1000%Z ∧ (0 < max_jobs cfg)%Z.
Proof.
  intros Hn. split; [|split; [done|unfold max_jobs; case_match; bools; lia]].
  pose proof (dispatch_routing (New NewManager cfg ext) pkt) as Hd. destruct (Dispatch _ pkt) as [d' r]. destruct Hd as [-> _]. cbn.
  unfold method_handler, opcode_handler. cbn. destruct (job_of _ pkt) as [j|]; cbn; [rewrite Hn|]; destruct (GetMethod ext) as [get|]; cbn; try (destruct (get pkt); cbn; [destruct (bytes_eqb _ _); cbn|]);
    rewrite ?lookup_empty; destruct (GetOpCode ext); cbn; by rewrite ?lookup_empty.
Qed.

(** Registration and removal of handlers: the last registration for an
    opcode or a method decides, a nil handler removes it, other entries stay,
    and clearing leaves nothing to route to. *)
Theorem handler_tables d (op op' : OpCode) (m m' : bytes) (h : option nat) :
  d_opcodeHandlers (RegisterHandler d op h) !! op' =
    (if decide (op = op') then h else d_opcodeHandlers d !! op') ∧
  d_methodHandlers (RegisterMethodHandler d m h) !! m' =
    (if decide (m = m') then h else d_methodHandlers d !! m') ∧
  d_methodHandlers (RegisterHandler d op h) = d_methodHandlers d ∧
  d_opcodeHandlers (RegisterMethodHandler d m h) = d_opcodeHandlers d ∧
  ∀ pkt, dispatch_handlers (ClearHandlers d) pkt = Unrouted.
Proof.
  split_and!; [destruct h; simpl; destruct (decide _) as [->|]; by simplify_map_eq..| | |];
    [by destruct h|by destruct h|].
  intros pkt. rewrite dispatch_handlers_spec. unfold method_handler, opcode_handler. simpl.
  destruct (GetMethod _) as [get|]; simpl; [destruct (get pkt) as [method|]; simpl; [destruct (bytes_eqb _ _)|]|];
    destruct (GetOpCode _); simpl; rewrite ?lookup_empty; done.
Qed.

(** When the task manager refuses a job (its id is in use, or there are too
    many), [SendSync] goes on as if it were registered, and its deferred
    [Resolve] cancels whatever request is pending under that id. *)
Theorem refused_job_cancels_other d (j : JobID) (cb cb' : nat) (w : outcome_of_wait) (ctx : bool)
  (Hopen : d_closed d = false) (Hother : pending (d_tasks d) j = Some cb)
  (Hrefused : tasks_Add j cb' (d_tasks d) = None) :
  SendSync_register d j cb' = inl d ∧
  (SendSync_return d j w ctx).1.2 = Some cb ∧
  pending (d_tasks (SendSync_return d j w ctx).1.1) j = None.
Proof.
  unfold SendSync_register, SendSync_return. rewrite Hopen, Hrefused.
  pose proof (Resolve_result j (d_tasks d)) as Hr. pose proof (Resolve_pending j (d_tasks d) j) as Hp.
  destruct (tasks_Resolve j (d_tasks d)) as [r m]. simpl in *. rewrite Hr, Hp.
  by destruct (decide (j = j)).
Qed.
End routing.

(** ** The theorems at a concrete dispatcher *)

Module DispatcherSample.
(** A task manager with room for two jobs. *)
#[local] Instance two_jobs : TaskManager nat :=
  {| manager := gmap nat nat;
     tasks_Add j cb m :=
       if bool_decide (is_Some (m !! j)) || (2 <=? size m) then None else Some (<[j := cb]> m);
     tasks_Resolve j m := (m !! j, delete j m);
     tasks_CancelAll m := ((map_to_list m).*2, ∅);
     pending m j := m !! j |}.

#[local] Instance two_jobs_laws : TaskLaws nat.
Proof.
  constructor; simpl.
  - intros j cb m m' Hm k. destruct (_ || _); [done|]. injection Hm as <-.
    destruct (decide (k = j)) as [->|]; by simplify_map_eq.
  - done.
  - intros j m k. destruct (decide (k = j)) as [->|]; by simplify_map_eq.
  - intros m k. apply lookup_empty.
Qed.

(** Packets are an opcode and a job id. *)
Definition echo : Dispatcher (OpCode := nat) (JobID := nat) (Packet := nat * option nat) :=
  {| d_extractor := {| GetOpCode := Some fst; GetMethod := None; GetJobID := Some snd |};
     d_tasks := {[ 5 := 50 ]}; d_opcodeHandlers := {[ 1 := 10 ]}; d_methodHandlers := ∅;
     d_jobCounter := 0%Z; d_closed := false |}.

Lemma dispatch_routing_witness :
  (Dispatch echo (1, Some 5)).2 = ToJob 50 ∧ (Dispatch echo (1, Some 6)).2 = ToHandler 10.
Proof.
  split.
  - pose proof (dispatch_routing echo (1, Some 5)) as H. apply H.
  - pose proof (dispatch_routing echo (1, Some 6)) as H. apply H.
Defined.

Lemma refused_job_cancels_other_witness :
  (SendSync_return echo 5 (Cancelled (Packet := nat * option nat)) false).1.2 = Some 50.
Proof.
  apply (refused_job_cancels_other echo 5 50 51 Cancelled false); reflexivity.
Defined.
End DispatcherSample.
