(* ===== verification/SocketRequests.v ===== *)
(** * Concurrent requests (src/socket/dispatcher/dispatcher.go)

    Calls of [SendSync] as goroutines beside the goroutine that dispatches
    packets and the calls of [Close]: a call registers its callback with the task
    manager, sends, waits for its channel or its context, and resolves its job on
    the way out. *)

From S2P Require Import Prelude SocketFrame SocketDispatcher.

#[local] Open Scope nat_scope.

(** [CancelAll] runs the callback of every pending job, once each. *)
Class CancelLaws (JobID : Type) `{TM : TaskManager JobID} : Prop := {
  CancelAll_runs : ∀ m i, i ∈ (tasks_CancelAll m).1 ↔ ∃ j, pending m j = Some i;
  CancelAll_once : ∀ m, (∀ j k i, pending m j = Some i → pending m k = Some i → j = k) → NoDup (tasks_CancelAll m).1
}.

Lemma elem_of_option_list {A} (o : option A) x : x ∈ option_list o ↔ o = Some x.
Proof. destruct o as [y|]; simpl; rewrite ?list_elem_of_singleton, ?elem_of_nil; naive_solver. Qed.

Section requests.
Context {JobID Packet : Type} `{EqDecision JobID, TM : TaskManager JobID}.
Context (job_of : Packet → option JobID).

Inductive answer := Answer (p : Packet) | CancelledAnswer.
Inductive sent := SentPacket (p : Packet) | SentClosed | SentWrite | SentContext | SentCancelled.

(** A call of [SendSync]: before the test of [closed], before the registration,
    sending, waiting, in the deferred [Resolve], returned. *)
Inductive call_pc := AtTest | AtAdd | AtSend | AtWait | AtDefer (r : sent) | AtEnd (r : sent).

(** [q_chan] is the result channel, with room for one; [q_runs] counts the runs of
    the callback. *)
Record request := { q_job : JobID; q_ctx : bool; q_pc : call_pc; q_chan : list answer; q_runs : nat }.

Record board := { b_tasks : manager; b_closed : bool; b_swept : bool; b_calls : list request }.

Definition at_pc (p : call_pc) (q : request) : request :=
  {| q_job := q_job q; q_ctx := q_ctx q; q_pc := p; q_chan := q_chan q; q_runs := q_runs q |}.
Definition expired (q : request) : request :=
  {| q_job := q_job q; q_ctx := true; q_pc := q_pc q; q_chan := q_chan q; q_runs := q_runs q |}.

(** The callback of [SendSync]: one value on the channel. *)
Definition run_callback (a : answer) (q : request) : request :=
  {| q_job := q_job q; q_ctx := q_ctx q; q_pc := q_pc q; q_chan := q_chan q ++ [a]; q_runs := S (q_runs q) |}.

Definition run_callbacks (l : list nat) (a : answer) (cs : list request) : list request :=
  foldl (λ cs i, alter (run_callback a) i cs) cs l.

Definition update (i : nat) (f : request → request) (b : board) : board :=
  {| b_tasks := b_tasks b; b_closed := b_closed b; b_swept := b_swept b; b_calls := alter f i (b_calls b) |}.
Definition set_manager (m : manager) (b : board) : board :=
  {| b_tasks := m; b_closed := b_closed b; b_swept := b_swept b; b_calls := b_calls b |}.

(** [tasks.Resolve] with an answer, and the callback it runs. *)
Definition resolve (j : JobID) (a : answer) (b : board) : board :=
  {| b_tasks := (tasks_Resolve j (b_tasks b)).2; b_closed := b_closed b; b_swept := b_swept b;
     b_calls := run_callbacks (option_list (tasks_Resolve j (b_tasks b)).1) a (b_calls b) |}.

(** What [SendSync] makes of an answer. *)
Definition received (q : request) (a : answer) : sent :=
  match a with Answer p => SentPacket p | CancelledAnswer => if q_ctx q then SentContext else SentCancelled end.

Definition take_answer (q : request) : request :=
  match q_chan q with
  | [] => q
  | a :: rest => {| q_job := q_job q; q_ctx := q_ctx q; q_pc := AtDefer (received q a); q_chan := rest; q_runs := q_runs q |}
  end.

(** One action of call [i]. The result of [tasks.Add] is discarded, and the
    deferred [Resolve] runs whether the job was added or not. *)
Inductive call_step (b : board) (i : nat) (q : request) : board → Prop :=
  | call_closed : q_pc q = AtTest → b_closed b = true → call_step b i q (update i (at_pc (AtEnd SentClosed)) b)
  | call_open : q_pc q = AtTest → b_closed b = false → call_step b i q (update i (at_pc AtAdd) b)
  | call_add m : q_pc q = AtAdd → tasks_Add (q_job q) i (b_tasks b) = Some m →
      call_step b i q (set_manager m (update i (at_pc AtSend) b))
  | call_refused : q_pc q = AtAdd → tasks_Add (q_job q) i (b_tasks b) = None → call_step b i q (update i (at_pc AtSend) b)
  | call_sent : q_pc q = AtSend → call_step b i q (update i (at_pc AtWait) b)
  | call_write : q_pc q = AtSend → call_step b i q (update i (at_pc (AtDefer SentWrite)) b)
  | call_context : q_pc q = AtWait → q_ctx q = true → call_step b i q (update i (at_pc (AtDefer SentContext)) b)
  | call_receive : q_pc q = AtWait → q_chan q ≠ [] → call_step b i q (update i take_answer b)
  | call_defer r : q_pc q = AtDefer r → call_step b i q (update i (at_pc (AtEnd r)) (resolve (q_job q) CancelledAnswer b)).

(** Everything that happens: calls begin, with whatever job the caller chose, and
    act; packets arrive; contexts end, for which the task manager
    may resolve the job; the dispatcher is closed, in two steps. *)
Inductive board_step (b : board) : board → Prop :=
  | step_begin j : board_step b
      {| b_tasks := b_tasks b; b_closed := b_closed b; b_swept := b_swept b;
         b_calls := b_calls b ++ [{| q_job := j; q_ctx := false; q_pc := AtTest; q_chan := []; q_runs := 0 |}] |}
  | step_call i q b' : b_calls b !! i = Some q → call_step b i q b' → board_step b b'
  | step_packet p j : job_of p = Some j → board_step b (resolve j (Answer p) b)
  | step_expire i q : b_calls b !! i = Some q → board_step b (update i expired b)
  | step_task_context i q : b_calls b !! i = Some q → q_ctx q = true → board_step b (resolve (q_job q) CancelledAnswer b)
  | step_close : board_step b {| b_tasks := b_tasks b; b_closed := true; b_swept := b_swept b; b_calls := b_calls b |}
  | step_sweep : b_closed b = true → b_swept b = false → board_step b
      {| b_tasks := (tasks_CancelAll (b_tasks b)).2; b_closed := true; b_swept := true;
         b_calls := run_callbacks (tasks_CancelAll (b_tasks b)).1 CancelledAnswer (b_calls b) |}.

Definition empty_board (m : manager) : board := {| b_tasks := m; b_closed := false; b_swept := false; b_calls := [] |}.

Inductive board_reach (m : manager) : board → Prop :=
  | breach_new : board_reach m (empty_board m)
  | breach_step b b' : board_reach m b → board_step b b' → board_reach m b'.

(** ** Correlation *)

Context `{!TaskLaws JobID, !CancelLaws JobID}.

(** Another call has this job. *)
Definition shares_job (b : board) (i : nat) (j : JobID) : Prop := ∃ k, k ≠ i ∧ map q_job (b_calls b) !! k = Some j.

(** What may cancel call [i] beside its own context: [Close], or a call with the
    same job. *)
Definition cause (b : board) (i : nat) (q : request) : Prop := b_swept b = true ∨ shares_job b i (q_job q).

(** Answers are packets of the call's own job; a cancellation has a cause, or comes
    from the context or from the call's own return. *)
Definition answer_ok (why : Prop) (q : request) (a : answer) : Prop :=
  match a with
  | Answer p => job_of p = Some (q_job q)
  | CancelledAnswer => q_ctx q = true ∨ why ∨ ∃ r, q_pc q = AtDefer r ∨ q_pc q = AtEnd r
  end.

Definition sent_ok (closed : bool) (why : Prop) (q : request) (r : sent) : Prop :=
  match r with
  | SentPacket p => job_of p = Some (q_job q)
  | SentClosed => closed = true
  | SentContext => q_ctx q = true
  | SentCancelled => why
  | SentWrite => True
  end.

(** What holds of one call, [pend] saying that its callback is pending. *)
Record call_ok (closed : bool) (why : Prop) (pend : bool) (q : request) : Prop := {
  co_pend : pend = true → (q_pc q = AtSend ∨ q_pc q = AtWait ∨ ∃ r, q_pc q = AtDefer r) ∧ q_runs q = 0;
  co_early : q_pc q = AtTest ∨ q_pc q = AtAdd → q_runs q = 0;
  co_chan : length (q_chan q) <= q_runs q <= 1;
  co_answers : Forall (answer_ok why q) (q_chan q);
  co_result : ∀ r, q_pc q = AtDefer r ∨ q_pc q = AtEnd r → sent_ok closed why q r
}.

Lemma call_ok_mono closed (why why' : Prop) (pend pend' : bool) q : call_ok closed why pend q → (why → why') →
  (pend' = true → pend = true) → call_ok closed why' pend' q.
Proof.
  intros [H1 H2 H3 H4 H5] Hw Hp. constructor; auto.
  - eapply Forall_impl; [exact H4|]. intros [p|]; simpl; tauto.
  - intros r Hr. specialize (H5 r Hr). destruct r; simpl in *; auto.
Qed.

Definition is_pending (b : board) (i : nat) (q : request) : bool := bool_decide (pending (b_tasks b) (q_job q) = Some i).

Record board_inv (b : board) : Prop := {
  bi_pending : ∀ j i, pending (b_tasks b) j = Some i → ∃ q, b_calls b !! i = Some q ∧ q_job q = j;
  bi_calls : ∀ i q, b_calls b !! i = Some q → call_ok (b_closed b) (cause b i q) (is_pending b i q) q
}.

Lemma other_shared b i k q : b_calls b !! k = Some q → k ≠ i → shares_job b i (q_job q).
Proof. intros Hq Hk. exists k. split; [done|]. by rewrite list_lookup_fmap, Hq. Qed.

Lemma update_jobs f i cs : (∀ q, q_job (f q) = q_job q) → map q_job (alter f i cs) = map q_job cs.
Proof.
  intros Hf. apply list_eq; intros k. rewrite !list_lookup_fmap. destruct (decide (i = k)) as [->|Hk].
  - rewrite list_lookup_alter_eq. destruct (cs !! k); simpl; [by rewrite Hf|done].
  - by rewrite list_lookup_alter_ne.
Qed.

Lemma update_cause i f b k q q' : (∀ q, q_job (f q) = q_job q) → q_job q' = q_job q → cause (update i f b) k q' = cause b k q.
Proof. intros Hf He. unfold cause, shares_job. simpl. by rewrite update_jobs, He. Qed.

(** An action of one call that leaves the task manager alone. *)
Lemma board_update_inv i f b : board_inv b → (∀ q, q_job (f q) = q_job q) →
  (∀ q, b_calls b !! i = Some q → call_ok (b_closed b) (cause b i q) (is_pending b i q) q →
    call_ok (b_closed b) (cause b i q) (is_pending b i q) (f q)) →
  board_inv (update i f b).
Proof.
  intros [Hp Hc] Hf Hok. constructor.
  - intros j k Hj. destruct (Hp j k Hj) as (q & Hq & He). simpl. destruct (decide (i = k)) as [->|Hk].
    + exists (f q). rewrite list_lookup_alter_eq, Hq, Hf. done.
    + exists q. by rewrite list_lookup_alter_ne.
  - intros k q. simpl. destruct (decide (i = k)) as [->|Hk].
    + rewrite list_lookup_alter_eq. intros (q0 & Hq0 & ->)%fmap_Some. rewrite (update_cause _ _ _ _ q0) by done.
      unfold is_pending. simpl. rewrite Hf. apply (Hok q0 Hq0), (Hc k q0 Hq0).
    + rewrite list_lookup_alter_ne by done. intros Hq. rewrite (update_cause _ _ _ _ q) by done. exact (Hc k q Hq).
Qed.

(** ** Callbacks *)

Lemma run_callbacks_lookup l a cs i : NoDup l →
  run_callbacks l a cs !! i = (if decide (i ∈ l) then run_callback a else id) <$> cs !! i.
Proof.
  revert cs. induction l as [|k l IH]; intros cs Hn.
  - rewrite decide_False by apply not_elem_of_nil. by rewrite option_fmap_id.
  - apply NoDup_cons in Hn as [Hk Hn]. change (run_callbacks (k :: l) a cs) with (run_callbacks l a (alter (run_callback a) k cs)). rewrite IH by done.
    destruct (decide (i = k)) as [->|Hi].
    + rewrite (decide_False (P := k ∈ l)), (decide_True (P := k ∈ k :: l)), option_fmap_id by set_solver.
      apply list_lookup_alter_eq.
    + rewrite list_lookup_alter_ne by done. destruct (decide (i ∈ l)), (decide (i ∈ k :: l)); set_solver.
Qed.

Lemma run_callbacks_jobs l a cs : map q_job (run_callbacks l a cs) = map q_job cs.
Proof. revert cs. induction l as [|k l IH]; intros cs; simpl; [done|]. by rewrite IH, update_jobs. Qed.

Lemma run_ok closed why a q : call_ok closed why true q → answer_ok why q a → call_ok closed why false (run_callback a q).
Proof.
  intros [Hp He Hc Ha Hr] Hok. destruct (Hp eq_refl) as [Hpc Hz]. constructor; simpl.
  - done.
  - intros Hearly. destruct Hpc as [Hpc|[Hpc|[r Hpc]]], Hearly; congruence.
  - rewrite length_app. simpl. lia.
  - apply Forall_app. split; [exact Ha|]. by apply Forall_singleton.
  - exact Hr.
Qed.

(** The task manager runs the callbacks [l], each the one of a pending job, and
    forgets these jobs. *)
Lemma callbacks_inv b l a m swept : board_inv b → NoDup l →
  (b_swept b = true → swept = true) →
  (∀ i, i ∈ l → ∃ q, b_calls b !! i = Some q ∧ pending (b_tasks b) (q_job q) = Some i ∧
     answer_ok (swept = true ∨ shares_job b i (q_job q)) q a) →
  (∀ i, i ∈ l → ∀ j, pending m j ≠ Some i) →
  (∀ j i, pending m j = Some i → pending (b_tasks b) j = Some i) →
  board_inv {| b_tasks := m; b_closed := b_closed b; b_swept := swept; b_calls := run_callbacks l a (b_calls b) |}.
Proof.
  intros [Hp Hc] Hl Hsw Hrun Hm Hsub. constructor; simpl.
  - intros j i Hj. destruct (Hp j i (Hsub j i Hj)) as (q & Hq & He). rewrite run_callbacks_lookup, Hq by done.
    eexists. split; [reflexivity|]. by case_decide.
  - intros i q. rewrite run_callbacks_lookup by done. intros (q0 & Hq0 & ->)%fmap_Some.
    unfold cause, shares_job, is_pending. simpl. rewrite run_callbacks_jobs. fold (shares_job b i (q_job q0)).
    case_decide as Hi; simpl.
    + destruct (Hrun i Hi) as (q1 & Hq1 & Hpend & Ha). simplify_eq. rewrite bool_decide_false by (by apply Hm).
      apply run_ok; [|done]. eapply call_ok_mono; [exact (Hc i q0 Hq0)| |].
      * unfold cause. tauto.
      * intros _. by apply bool_decide_eq_true.
    + eapply call_ok_mono; [exact (Hc i q0 Hq0)| |].
      * unfold cause. tauto.
      * unfold is_pending. rewrite !bool_decide_eq_true. apply Hsub.
Qed.

Lemma option_list_NoDup {A} (o : option A) : NoDup (option_list o).
Proof. destruct o; simpl; [apply NoDup_singleton|constructor]. Qed.

Lemma resolve_inv j a b : board_inv b →
  (∀ i q, b_calls b !! i = Some q → q_job q = j → answer_ok (cause b i q) q a) → board_inv (resolve j a b).
Proof.
  intros Hb Ha. apply callbacks_inv; try done.
  - apply option_list_NoDup.
  - intros i. rewrite Resolve_result. intros Hi%elem_of_option_list. destruct (bi_pending b Hb j i Hi) as (q & Hq & <-).
    exists q. split_and!; [done..|]. by apply Ha.
  - intros i. rewrite Resolve_result. intros Hi%elem_of_option_list k. rewrite Resolve_pending. case_decide as Hk; [done|].
    intros Hp. destruct (bi_pending b Hb j i Hi) as (q & Hq & <-), (bi_pending b Hb k i Hp) as (q' & Hq' & <-). by simplify_eq.
  - intros k i. rewrite Resolve_pending. by case_decide.
Qed.

Lemma sweep_inv b : board_inv b →
  board_inv {| b_tasks := (tasks_CancelAll (b_tasks b)).2; b_closed := b_closed b; b_swept := true;
               b_calls := run_callbacks (tasks_CancelAll (b_tasks b)).1 CancelledAnswer (b_calls b) |}.
Proof.
  intros Hb. apply callbacks_inv; try done.
  - apply CancelAll_once. intros j k i Hj Hk. destruct (bi_pending b Hb j i Hj) as (q & Hq & <-).
    destruct (bi_pending b Hb k i Hk) as (q' & Hq' & <-). by simplify_eq.
  - intros i [j Hj]%CancelAll_runs. destruct (bi_pending b Hb j i Hj) as (q & Hq & <-). exists q.
    split_and!; [done..|]. simpl. auto.
  - intros i _ j. by rewrite CancelAll_pending.
  - intros j i. by rewrite CancelAll_pending.
Qed.

(** ** The steps *)

(** A callback that is registered may take the place of another of the same job. *)
Lemma board_add_inv b i q m : board_inv b → b_calls b !! i = Some q → q_pc q = AtAdd →
  tasks_Add (q_job q) i (b_tasks b) = Some m → board_inv (set_manager m (update i (at_pc AtSend) b)).
Proof.
  intros [Hp Hc] Hq Hpc Hm. constructor; simpl.
  - intros j k. rewrite (Add_pending _ _ _ _ Hm). case_decide as Hj; intros Hk.
    + injection Hk as <-. exists (at_pc AtSend q). by rewrite list_lookup_alter_eq, Hq.
    + destruct (Hp j k Hk) as (q' & Hq' & He). exists q'. rewrite list_lookup_alter_ne; [done|]. intros ->. by simplify_eq.
  - intros k q'. change (cause (set_manager m (update i (at_pc AtSend) b)) k q') with (cause (update i (at_pc AtSend) b) k q').
    unfold is_pending. simpl. destruct (decide (i = k)) as [->|Hk].
    + rewrite list_lookup_alter_eq, Hq. intros [= <-]. rewrite (update_cause _ _ _ _ q) by done.
      destruct (Hc k q Hq) as [_ He Hch Ha _]. rewrite Hpc in He. constructor; simpl; auto.
      * eapply Forall_impl; [exact Ha|]. intros [p|]; simpl; [done|]. rewrite Hpc. naive_solver.
      * naive_solver.
    + rewrite list_lookup_alter_ne by done. intros Hq'. rewrite (update_cause _ _ _ _ q') by done.
      eapply call_ok_mono; [exact (Hc k q' Hq')|done|]. unfold is_pending. rewrite !bool_decide_eq_true, (Add_pending _ _ _ _ Hm).
      case_decide; [|done]. intros [= ->]. done.
Qed.

(** A call moves on without touching its channel. *)
Lemma at_pc_ok closed why pend p q : call_ok closed why pend q →
  (∀ r, q_pc q = AtDefer r ∨ q_pc q = AtEnd r → p = AtEnd r ∧ pend = false) →
  (pend = true → p = AtSend ∨ p = AtWait ∨ ∃ r, p = AtDefer r) →
  (p = AtTest ∨ p = AtAdd → q_runs q = 0) →
  (∀ r, p = AtDefer r ∨ p = AtEnd r → sent_ok closed why q r) →
  call_ok closed why pend (at_pc p q).
Proof.
  intros [Hp He Hc Ha Hr] Hleave Hpend Hearly Hres. constructor; simpl; auto.
  - intros Ht. destruct (Hp Ht) as [_ Hz]. auto.
  - eapply Forall_impl; [exact Ha|]. intros [a|]; simpl; [done|]. intros [?|[?|[r Hr']]]; [auto..|].
    destruct (Hleave r Hr'). right; right; eauto.
Qed.

Lemma early_not_pending closed why pend q : call_ok closed why pend q → q_pc q = AtTest ∨ q_pc q = AtAdd → pend = false.
Proof. intros [Hp _ _ _ _] Hearly. destruct pend; [|done]. destruct (Hp eq_refl) as [H _]. naive_solver congruence. Qed.

Lemma take_ok closed why pend q : call_ok closed why pend q → q_pc q = AtWait → call_ok closed why pend (take_answer q).
Proof.
  intros Hok Hpc. unfold take_answer. destruct (q_chan q) as [|a rest] eqn:Hch; [done|]. destruct Hok as [Hp He Hc Ha Hr].
  rewrite Hch in *. apply Forall_cons in Ha as [Ha Hrest]. simpl in Hc. constructor; simpl.
  - intros Ht. destruct (Hp Ht) as [_ Hz]. lia.
  - naive_solver.
  - lia.
  - eapply Forall_impl; [exact Hrest|]. intros [p|]; simpl; [done|]. intros [?|[?|?]]; eauto.
  - intros r [Hr'|Hr']; [|done]. injection Hr' as <-. destruct a as [p|]; simpl in *; [done|].
    destruct (q_ctx q) eqn:Hx; simpl; [done|]. rewrite Hpc in Ha. naive_solver.
Qed.

Lemma expired_ok closed why pend q : call_ok closed why pend q → call_ok closed why pend (expired q).
Proof.
  intros [Hp He Hc Ha Hr]. constructor; simpl; auto.
  - eapply Forall_impl; [exact Ha|]. intros [p|]; simpl; [done|]. auto.
  - intros r Hr'. specialize (Hr r Hr'). by destruct r.
Qed.

(** A cancellation that call [i] asks for reaches itself or a call with its job. *)
Lemma cancel_reaches b i q k q' : b_calls b !! i = Some q → b_calls b !! k = Some q' → q_job q' = q_job q →
  answer_ok (cause b i q) q CancelledAnswer → answer_ok (cause b k q') q' CancelledAnswer.
Proof.
  intros Hq Hq' He Ha. destruct (decide (i = k)) as [->|Hk]; [by simplify_eq|]. right. left. right. rewrite He. by eapply other_shared.
Qed.

Lemma defer_inv b i q r : board_inv b → b_calls b !! i = Some q → q_pc q = AtDefer r →
  board_inv (update i (at_pc (AtEnd r)) (resolve (q_job q) CancelledAnswer b)).
Proof.
  intros Hb Hq Hpc. apply board_update_inv; [|done|].
  - apply resolve_inv; [done|]. intros k q' Hq' He. eapply (cancel_reaches b i q); [done..|]. simpl. eauto.
  - intros q' Hq' Hok.
    assert (Hsame : q_job q' = q_job q ∧ q_pc q' = AtDefer r).
    { simpl in Hq'. rewrite run_callbacks_lookup, Hq in Hq' by apply option_list_NoDup. injection Hq' as <-. by case_decide. }
    destruct Hsame as [Hj Hpc'].
    assert (Hno : is_pending (resolve (q_job q) CancelledAnswer b) i q' = false).
    { apply bool_decide_eq_false. simpl. by rewrite Hj, Resolve_pending, decide_True. }
    rewrite Hno in *. apply at_pc_ok; [done| |done|naive_solver|].
    + intros r' [Hr'|Hr']; rewrite Hpc' in Hr'; by simplify_eq.
    + intros r' [Hr'|Hr']; [done|]. injection Hr' as <-. apply (co_result _ _ _ _ Hok). auto.
Qed.

Lemma call_step_inv b i q b' : board_inv b → b_calls b !! i = Some q → call_step b i q b' → board_inv b'.
Proof.
  intros Hb Hq Hs. destruct Hs; try (eapply board_add_inv || eapply defer_inv; eassumption);
    (apply board_update_inv; [done|by unfold take_answer; intros [? ? ? []]|]; intros q' Hq' Hok; simplify_eq);
    try (apply at_pc_ok; [done|intros ? [?|?]; congruence|..]); try naive_solver.
  - intros Ht. rewrite (early_not_pending _ _ _ _ Hok) in Ht by auto. done.
  - intros Ht. rewrite (early_not_pending _ _ _ _ Hok) in Ht by auto. done.
  - intros _. apply (co_early _ _ _ _ Hok). auto.
  - by apply take_ok.
Qed.

Lemma board_begin_inv b j : board_inv b →
  board_inv {| b_tasks := b_tasks b; b_closed := b_closed b; b_swept := b_swept b;
               b_calls := b_calls b ++ [{| q_job := j; q_ctx := false; q_pc := AtTest; q_chan := []; q_runs := 0 |}] |}.
Proof.
  intros [Hp Hc]. constructor; simpl.
  - intros k i Hk. destruct (Hp k i Hk) as (q & Hq & He). exists q. split; [by apply lookup_app_l_Some|done].
  - intros i q [Hq|[Hlen Hq]]%lookup_app_Some.
    + eapply call_ok_mono; [exact (Hc i q Hq)| |done]. unfold cause, shares_job. simpl. intros [?|(k & Hk & Hj)]; [by left|right].
      exists k. split; [done|]. rewrite map_app. by apply lookup_app_l_Some.
    + apply list_lookup_singleton_Some in Hq as [Hi <-]. unfold is_pending. simpl. rewrite bool_decide_false.
      * constructor; simpl; [done|done|lia|constructor|naive_solver].
      * intros Hk. destruct (Hp j i Hk) as (q & Hq%lookup_lt_Some & _). lia.
Qed.

Lemma board_step_inv b b' : board_inv b → board_step b b' → board_inv b'.
Proof.
  intros Hb Hs. destruct Hs as [j|i q b' Hq Hs|p j Hj|i q Hq|i q Hq Hx| |Hc Hs].
  - by apply board_begin_inv.
  - by eapply call_step_inv.
  - apply resolve_inv; [done|]. intros i q Hq <-. done.
  - apply board_update_inv; [done|done|]. intros q' _. apply expired_ok.
  - apply resolve_inv; [done|]. intros k q' Hq' He. eapply (cancel_reaches b i q); [done..|]. by left.
  - destruct Hb as [Hp Hc]. constructor; simpl; try done. intros i q Hq. destruct (Hc i q Hq) as [H1 H2 H3 H4 H5].
    constructor; auto. intros r Hr. specialize (H5 r Hr). by destruct r.
  - apply sweep_inv in Hb. by rewrite Hc in Hb.
Qed.

Lemma board_reach_inv m b : (∀ j, pending m j = None) → board_reach m b → board_inv b.
Proof.
  intros Hm. induction 1 as [|b b' _ IH Hs]; [|by eapply board_step_inv].
  constructor; simpl; [|done]. intros j i. by rewrite Hm.
Qed.

(** C5: concurrent requests are answered with packets of their own job. Whatever
    jobs the callers choose and whatever packets, cancellations and calls
    interleave, a callback runs at most once, so that the channel of one place never
    holds two answers and the goroutine that dispatches packets never blocks on
    it. A call returns a packet only if the extractor gives the packet its job, the
    error of its context only when that has ended, [ErrClosed] only when the
    dispatcher is closed, and a cancellation only after [Close] has swept the
    jobs or when another call was made with the same job. A call that has
    returned has no callback registered, and its job is not pending if no other
    call has it. *)
Theorem requests_correlated m b i q : (∀ j, pending m j = None) → board_reach m b → b_calls b !! i = Some q →
  q_runs q <= 1 ∧ length (q_chan q) <= 1 ∧
  ∀ r, q_pc q = AtEnd r →
    (∀ j, pending (b_tasks b) j ≠ Some i) ∧
    ((∀ k q', b_calls b !! k = Some q' → q_job q' = q_job q → k = i) → pending (b_tasks b) (q_job q) = None) ∧
    match r with
    | SentPacket p => job_of p = Some (q_job q)
    | SentClosed => b_closed b = true
    | SentContext => q_ctx q = true
    | SentCancelled => b_swept b = true ∨ ∃ k q', k ≠ i ∧ b_calls b !! k = Some q' ∧ q_job q' = q_job q
    | SentWrite => True
    end.
Proof.
  intros Hm Hr Hq. pose proof (board_reach_inv m b Hm Hr) as Hb. destruct (bi_calls b Hb i q Hq) as [Hp _ Hc _ Hres].
  split; [lia|]. split; [lia|]. intros r Hpc.
  assert (Hno : ∀ j, pending (b_tasks b) j ≠ Some i).
  { intros j Hj. destruct (bi_pending b Hb j i Hj) as (q' & Hq' & <-). simplify_eq.
    destruct Hp as [Hpc' _]; [by apply bool_decide_eq_true|]. naive_solver congruence. }
  split; [done|]. split.
  - intros Hu. destruct (pending (b_tasks b) (q_job q)) as [k|] eqn:Hk; [|done].
    destruct (bi_pending b Hb _ k Hk) as (q' & Hq' & He). rewrite (Hu k q' Hq' He) in Hk. by apply Hno in Hk.
  - pose proof (Hres r (or_intror Hpc)) as Hs. destruct r; simpl in *; try done. destruct Hs as [?|(k & Hk & Hj)]; [by left|right].
    rewrite list_lookup_fmap in Hj. destruct (b_calls b !! k) as [q'|] eqn:Hq'; [|done]. injection Hj as Hj. eauto.
Qed.

(** ** A request after the sweep *)

Definition waiting (j : JobID) (m : manager) : board :=
  {| b_tasks := m; b_closed := true; b_swept := true;
     b_calls := [{| q_job := j; q_ctx := false; q_pc := AtWait; q_chan := []; q_runs := 0 |}] |}.

Lemma breach_call m b i q b' : board_reach m b → b_calls b !! i = Some q → call_step b i q b' → board_reach m b'.
Proof. intros Hr Hq Hs. eapply breach_step; [exact Hr|]. by eapply step_call. Qed.

(** Call 0 of a reachable board acts. *)
Ltac advance R step := eapply (breach_call _ _ 0) in R; [|reflexivity|step; done]; simpl in R.

(** A call that passed the test of [closed] before [Close] registers its job after
    the sweep of [CancelAll]: it then waits on a closed dispatcher, in a state in
    which it has no step of its own, and no later call of [Close] ends it. *)
Theorem late_request_waits m j m' : (∀ k, pending m k = None) → tasks_Add j 0 (tasks_CancelAll m).2 = Some m' →
  board_reach m (waiting j m') ∧ pending m' j = Some 0 ∧ ∀ q b', b_calls (waiting j m') !! 0 = Some q → ~ call_step (waiting j m') 0 q b'.
Proof.
  intros Hm Hadd.
  assert (Hnone : (tasks_CancelAll m).1 = []).
  { destruct (tasks_CancelAll m).1 as [|i l] eqn:Hl; [done|]. exfalso.
    assert (Hi : i ∈ (tasks_CancelAll m).1) by (rewrite Hl; left). apply CancelAll_runs in Hi as [k Hk]. by rewrite Hm in Hk. }
  split; [|split].
  - pose proof (breach_step _ _ _ (breach_new m) (step_begin _ j)) as R. advance R ltac:(apply call_open).
    eapply breach_step in R; [|apply step_close]. eapply breach_step in R; [|by apply step_sweep]. simpl in R. rewrite Hnone in R.
    advance R ltac:(eapply call_add). advance R ltac:(apply call_sent). exact R.
  - by rewrite (Add_pending _ _ _ _ Hadd), decide_True.
  - intros q b' [= <-] Hs. inversion Hs; simplify_eq/=.
Qed.
End requests.

(** ** The theorems at concrete calls *)

Module RequestSample.
(** Call 0 of a reachable board acts. *)
Ltac advance R step := eapply (breach_call _ _ _ 0) in R; [|reflexivity|step; done]; simpl in R.

#[local] Existing Instance SocketDispatcher.DispatcherSample.two_jobs.
#[local] Existing Instance SocketDispatcher.DispatcherSample.two_jobs_laws.

#[local] Instance two_jobs_cancel : CancelLaws nat.
Proof.
  constructor; simpl.
  - intros m i. rewrite list_elem_of_fmap. split.
    + intros ((j & i') & -> & Hj%elem_of_map_to_list). eauto.
    + intros (j & Hj%elem_of_map_to_list). by exists (j, i).
  - intros m Hinj. apply NoDup_fmap_2_strong; [|apply NoDup_map_to_list].
    intros [j i] [k i'] Hj%elem_of_map_to_list Hk%elem_of_map_to_list ?. simplify_eq/=. by rewrite (Hinj j k i').
Qed.

(** Packets are their job. *)
Definition answered : board (JobID := nat) (Packet := nat) :=
  {| b_tasks := ∅ : manager (JobID := nat); b_closed := false; b_swept := false;
     b_calls := [{| q_job := 4; q_ctx := false; q_pc := AtEnd (SentPacket 4); q_chan := []; q_runs := 1 |}] |}.

(** A call, its packet, its return. *)
Lemma answered_reachable : board_reach Some (∅ : manager (JobID := nat)) answered.
Proof.
  pose proof (breach_step Some _ _ _ (breach_new Some (∅ : manager (JobID := nat))) (step_begin _ _ 4)) as R.
  advance R ltac:(apply call_open). advance R ltac:(eapply call_add). advance R ltac:(apply call_sent).
  eapply breach_step in R; [|by apply (step_packet Some _ 4 4)].
  advance R ltac:(apply call_receive). advance R ltac:(eapply call_defer). exact R.
Qed.

Lemma requests_correlated_witness :
  (∀ j, pending (b_tasks answered) j ≠ Some 0) ∧ (Some 4 = Some 4 :> option nat).
Proof.
  destruct (proj2 (proj2 (requests_correlated Some ∅ answered 0 _ (λ j, lookup_empty j) answered_reachable eq_refl)) _ eq_refl) as (H1 & _ & H3).
  exact (conj H1 H3).
Defined.

Lemma late_request_waits_witness :
  board_reach (Packet := nat) Some (∅ : manager (JobID := nat)) (waiting 4 {[4 := 0]}).
Proof. exact (proj1 (late_request_waits Some ∅ 4 {[4 := 0]} (λ j, lookup_empty j) eq_refl)). Defined.
End RequestSample.
