(* ===== verification/SocketProcessor.v ===== *)
(** * The pool of workers that decodes frames
    (src/socket/processor/processor.go)

    Frames come as pooled buffers with an identity in a heap.  Every worker is
    a thread of a step relation, as are the callers of [Start] and [Stop]; a
    handler reached by a worker may call [Stop] too.  The consumer is a state
    with a function, the decoder a function of the bytes of a frame. *)

From S2P Require Import Prelude SocketFrame.

#[local] Open Scope nat_scope.

(** ** One frame and one worker *)

Section processor.
Context {Packet D : Type} (decode : option (bytes → option Packet)) (dispatch : option (D → Packet → D)).

(** The packet a frame is decoded to; without decoder or consumer, or when
    decoding fails, there is none. *)
Definition parse (fb : FrameBuffer) : option Packet :=
  match decode, dispatch with Some dec, Some _ => dec (fb_B fb) | _, _ => None end.

Definition consume (d : D) (pkt : Packet) : D := match dispatch with Some disp => disp d pkt | None => d end.

(** One frame: the buffer goes back to the pool on every path. *)
Definition processFrame (d : D) (fb : FrameBuffer) : D * option FrameBuffer :=
  (match parse fb with Some pkt => consume d pkt | None => d end, ReleaseFrameBuffer (Some fb)).

(** A worker on the frames it receives from the channel until it is closed; a
    nil frame is skipped. *)
Fixpoint worker (d : D) (input : list (option FrameBuffer)) : D * list (option FrameBuffer) :=
  match input with
  | [] => (d, [])
  | None :: rest => worker d rest
  | Some fb :: rest =>
      let '(d1, back) := processFrame d fb in
      let '(d2, backs) := worker d1 rest in (d2, back :: backs)
  end.

(** A worker dispatches exactly the packets that decode, in the order of
    their frames, and hands every buffer back. *)
Lemma worker_spec (d : D) (input : list (option FrameBuffer)) :
  worker d input =
    (foldl consume d (omap parse (omap id input)),
     map (λ fb, ReleaseFrameBuffer (Some fb)) (omap id input)).
Proof.
  revert d. induction input as [|[fb|] input IH]; intros d; [done| |]; simpl; [|apply IH].
  rewrite IH. by destruct (parse fb).
Qed.

(** ** The pool *)

Record Config := { WorkerCount : Z }.

(** [DefaultConfig] and [New] on a machine with [cpus] cores. *)
Definition DefaultConfig (cpus : Z) : Config := {| WorkerCount := Z.max cpus 2 |}.
Definition workers_of (cpus : Z) (cfg : Config) : nat :=
  Z.to_nat (if (WorkerCount cfg <=? 0)%Z then Z.max cpus 2 else WorkerCount cfg).

(** Where a worker is: at its select, holding a frame, in the consumer with the
    frame, in the consumer inside [Stop] (as the caller that waits for the
    workers, or behind another caller), or gone. *)
Inductive wpc :=
| AtSelect
| Holding (fb : nat)
| InHandler (fb : nat)
| StopWait (fb : nat)
| StopBlocked (fb : nat)
| Exited.

(** A caller of [Stop] that is not a worker. *)
Inductive spc := Waits | Blocked | Returned.

(** A [sync.Once]: nobody called it, its function runs, it has run. *)
Inductive once := NotRun | Running | Ran.

Record Processor := {
  p_started : bool;                (* [isStarted] *)
  p_spawn : nat;                   (* workers [Start] still has to spawn *)
  p_cancelled : bool;              (* [ctx] *)
  p_stop : once;                   (* [isStopped] *)
  p_closed : bool;                 (* [input] is closed *)
  p_input : list (option nat);
  p_workers : list wpc;
  p_callers : list spc;
  p_heap : gmap nat FrameBuffer;
  p_pool : list nat;               (* [frameBufferPool] *)
  p_consumer : D;
  p_fed : list bytes;              (* what was put into [input], what of it was *)
  p_done : list bytes              (* decoded: for the statements only *)
}.

Definition new_processor (d : D) : Processor :=
  {| p_started := false; p_spawn := 0; p_cancelled := false; p_stop := NotRun; p_closed := false;
     p_input := []; p_workers := []; p_callers := []; p_heap := ∅; p_pool := []; p_consumer := d;
     p_fed := []; p_done := [] |}.

Definition set_start (b : bool) (n : nat) (ws : list wpc) (p : Processor) : Processor :=
  {| p_started := b; p_spawn := n; p_cancelled := p_cancelled p; p_stop := p_stop p; p_closed := p_closed p;
     p_input := p_input p; p_workers := ws; p_callers := p_callers p; p_heap := p_heap p; p_pool := p_pool p;
     p_consumer := p_consumer p; p_fed := p_fed p; p_done := p_done p |}.

Definition set_stop (c : bool) (o : once) (cs : list spc) (p : Processor) : Processor :=
  {| p_started := p_started p; p_spawn := p_spawn p; p_cancelled := c; p_stop := o; p_closed := p_closed p;
     p_input := p_input p; p_workers := p_workers p; p_callers := cs; p_heap := p_heap p; p_pool := p_pool p;
     p_consumer := p_consumer p; p_fed := p_fed p; p_done := p_done p |}.

Definition set_worker (i : nat) (w : wpc) (p : Processor) : Processor :=
  set_start (p_started p) (p_spawn p) (<[i := w]> (p_workers p)) p.

Definition set_input (closed : bool) (l : list (option nat)) (fed : list bytes) (p : Processor) : Processor :=
  {| p_started := p_started p; p_spawn := p_spawn p; p_cancelled := p_cancelled p; p_stop := p_stop p;
     p_closed := closed; p_input := l; p_workers := p_workers p; p_callers := p_callers p; p_heap := p_heap p;
     p_pool := p_pool p; p_consumer := p_consumer p; p_fed := fed; p_done := p_done p |}.

Definition set_pool (h : gmap nat FrameBuffer) (l : list nat) (p : Processor) : Processor :=
  {| p_started := p_started p; p_spawn := p_spawn p; p_cancelled := p_cancelled p; p_stop := p_stop p;
     p_closed := p_closed p; p_input := p_input p; p_workers := p_workers p; p_callers := p_callers p; p_heap := h;
     p_pool := l; p_consumer := p_consumer p; p_fed := p_fed p; p_done := p_done p |}.

Definition set_consumer (d : D) (done : list bytes) (p : Processor) : Processor :=
  {| p_started := p_started p; p_spawn := p_spawn p; p_cancelled := p_cancelled p; p_stop := p_stop p;
     p_closed := p_closed p; p_input := p_input p; p_workers := p_workers p; p_callers := p_callers p;
     p_heap := p_heap p; p_pool := p_pool p; p_consumer := d; p_fed := p_fed p; p_done := done |}.

(** [Start]: the first caller spawns the workers one after the other, a later
    call does nothing. *)
Definition Start (cpus : Z) (cfg : Config) (p : Processor) : Processor :=
  if p_started p then p else set_start true (workers_of cpus cfg) (p_workers p) p.

Definition spawn (p : Processor) : Processor :=
  match p_spawn p with
  | O => p
  | S n => set_start (p_started p) n (p_workers p ++ [AtSelect]) p
  end.

(** [Stop] up to its wait, by a caller outside and by the handler worker [i]
    is in: the first call cancels and waits for the workers, a call during it
    blocks on the [Once], a later call returns. *)
Definition Stop (p : Processor) : Processor :=
  match p_stop p with
  | NotRun => set_stop true Running (p_callers p ++ [Waits]) p
  | Running => set_stop (p_cancelled p) Running (p_callers p ++ [Blocked]) p
  | Ran => set_stop (p_cancelled p) Ran (p_callers p ++ [Returned]) p
  end.

Definition handler_stop (i fb : nat) (p : Processor) : Processor :=
  match p_stop p with
  | NotRun => set_worker i (StopWait fb) (set_stop true Running (p_callers p) p)
  | Running => set_worker i (StopBlocked fb) p
  | Ran => p
  end.

(** A producer takes a buffer from the pool, or a new one, and sends it filled
    with a frame. *)
Definition feed (fb : nat) (rest : list nat) (frame : bytes) (p : Processor) : Processor :=
  let b := AcquireFrameBuffer ((λ b, (replicate (fb_cap b) x00, fb_cap b)) <$> p_heap p !! fb) (length frame) in
  set_input (p_closed p) (p_input p ++ [Some fb]) (p_fed p ++ [frame])
    (set_pool (<[fb := {| fb_B := frame; fb_cap := fb_cap b |}]> (p_heap p)) rest p).

(** The end of [processFrame], its deferred release. *)
Definition release (fb : nat) (p : Processor) : Processor :=
  match ReleaseFrameBuffer (p_heap p !! fb) with
  | Some b => set_pool (<[fb := b]> (p_heap p)) (fb :: p_pool p) p
  | None => p
  end.

(** A frame is decoded, its packet handed to the consumer. *)
Definition decode_frame (i fb : nat) (b : FrameBuffer) (p : Processor) : Processor :=
  match parse b with
  | Some pkt => set_worker i (InHandler fb) (set_consumer (consume (p_consumer p) pkt) (p_done p ++ [fb_B b]) p)
  | None => set_worker i AtSelect (release fb (set_consumer (p_consumer p) (p_done p ++ [fb_B b]) p))
  end.

Definition all_exited (p : Processor) : Prop := Forall (λ w, w = Exited) (p_workers p).

(** The steps of the workers alone. *)
Inductive worker_step (p : Processor) : Processor → Prop :=
| step_cancelled i : p_workers p !! i = Some AtSelect → p_cancelled p = true → worker_step p (set_worker i Exited p)
| step_receive i fb rest : p_workers p !! i = Some AtSelect → p_input p = Some fb :: rest →
    worker_step p (set_worker i (Holding fb) (set_input (p_closed p) rest (p_fed p) p))
| step_nil i rest : p_workers p !! i = Some AtSelect → p_input p = None :: rest →
    worker_step p (set_input (p_closed p) rest (p_fed p) p)
| step_closed i : p_workers p !! i = Some AtSelect → p_input p = [] → p_closed p = true →
    worker_step p (set_worker i Exited p)
| step_decode i fb b : p_workers p !! i = Some (Holding fb) → p_heap p !! fb = Some b →
    worker_step p (decode_frame i fb b p)
| step_return i fb : p_workers p !! i = Some (InHandler fb) →
    worker_step p (set_worker i AtSelect (release fb p)).

Inductive step (cpus : Z) (cfg : Config) (p : Processor) : Processor → Prop :=
| step_worker p' : worker_step p p' → step cpus cfg p p'
| step_start : step cpus cfg p (Start cpus cfg p)
| step_spawn : p_spawn p ≠ 0 → step cpus cfg p (spawn p)
| step_feed_new fb frame : p_closed p = false → p_heap p !! fb = None → step cpus cfg p (feed fb (p_pool p) frame p)
| step_feed fb l1 l2 frame : p_closed p = false → p_pool p = l1 ++ fb :: l2 →
    step cpus cfg p (feed fb (l1 ++ l2) frame p)
| step_feed_nil : p_closed p = false → step cpus cfg p (set_input false (p_input p ++ [None]) (p_fed p) p)
| step_close : p_closed p = false → step cpus cfg p (set_input true (p_input p) (p_fed p) p)
| step_stop : step cpus cfg p (Stop p)
| step_handler_stop i fb : p_workers p !! i = Some (InHandler fb) → step cpus cfg p (handler_stop i fb p)
| step_stopped j : p_callers p !! j = Some Waits → all_exited p →
    step cpus cfg p (set_stop (p_cancelled p) Ran (<[j := Returned]> (p_callers p)) p)
| step_handler_stopped i fb : p_workers p !! i = Some (StopWait fb) → all_exited p →
    step cpus cfg p (set_worker i (InHandler fb) (set_stop (p_cancelled p) Ran (p_callers p) p))
| step_unblocked j : p_callers p !! j = Some Blocked → p_stop p = Ran →
    step cpus cfg p (set_stop (p_cancelled p) Ran (<[j := Returned]> (p_callers p)) p)
| step_handler_unblocked i fb : p_workers p !! i = Some (StopBlocked fb) → p_stop p = Ran →
    step cpus cfg p (set_worker i (InHandler fb) p).

Inductive steps (cpus : Z) (cfg : Config) (p : Processor) : Processor → Prop :=
| steps_refl : steps cpus cfg p p
| steps_step p1 p2 : steps cpus cfg p p1 → step cpus cfg p1 p2 → steps cpus cfg p p2.

Definition reachable (cpus : Z) (cfg : Config) (d : D) : Processor → Prop := steps cpus cfg (new_processor d).

(** ** What is where *)

Definition owned (w : wpc) : option nat :=
  match w with Holding fb | InHandler fb | StopWait fb | StopBlocked fb => Some fb | _ => None end.
Definition holding (w : wpc) : option nat := match w with Holding fb => Some fb | _ => None end.
Definition stop_waiting (w : wpc) : option nat := match w with StopWait fb => Some fb | _ => None end.
Definition waiting (c : spc) : option unit := match c with Waits => Some tt | _ => None end.

Definition frame (h : gmap nat FrameBuffer) (fb : nat) : option bytes := fb_B <$> h !! fb.
Definition parse_frame (s : bytes) : option Packet := parse {| fb_B := s; fb_cap := 0 |}.

Definition queued (p : Processor) : list nat := omap id (p_input p).
Definition held (p : Processor) : list nat := omap owned (p_workers p).
Definition undecoded (p : Processor) : list nat := omap holding (p_workers p).

(** Every buffer is in one place, frames are neither lost nor decoded twice, and
    the consumer has seen the packets of the decoded ones. *)
Record frames_inv (one : Prop) (d : D) (p : Processor) : Prop := {
  fi_once : NoDup (queued p ++ held p ++ p_pool p);
  fi_heap : ∀ fb, fb ∈ queued p ++ held p ++ p_pool p → is_Some (p_heap p !! fb);
  fi_frames : p_fed p ≡ₚ p_done p ++ omap (frame (p_heap p)) (undecoded p) ++ omap (frame (p_heap p)) (queued p);
  fi_order : one → p_fed p = p_done p ++ omap (frame (p_heap p)) (undecoded p) ++ omap (frame (p_heap p)) (queued p);
  fi_consumer : p_consumer p = foldl consume d (omap parse_frame (p_done p))
}.

(** Who waits in [Stop]; workers leave only for a reason. *)
Record stop_inv (p : Processor) : Prop := {
  si_waiters : length (omap waiting (p_callers p)) + length (omap stop_waiting (p_workers p)) =
               match p_stop p with Running => 1 | _ => 0 end;
  si_cancelled : p_cancelled p = match p_stop p with NotRun => false | _ => true end;
  si_returned : p_stop p ≠ Ran → Returned ∉ p_callers p;
  si_blocked : p_stop p = NotRun → Forall (λ w, ∀ fb, w ≠ StopBlocked fb) (p_workers p);
  si_exited : Exited ∈ p_workers p → p_cancelled p = true ∨ (p_input p = [] ∧ p_closed p = true)
}.

Lemma omap_insert_same {A B} (f : A → option B) (l : list A) i x y :
  l !! i = Some x → f x = f y → omap f (<[i := y]> l) = omap f l.
Proof.
  intros Hi Hf. rewrite <- (take_drop_middle l i x Hi) at 2. rewrite insert_take_drop by (by eapply lookup_lt_Some).
  rewrite !omap_app. simpl. by rewrite Hf.
Qed.

Lemma omap_cons' {A B} (f : A → option B) x (l : list A) : omap f (x :: l) = option_list (f x) ++ omap f l.
Proof. simpl. by destruct (f x). Qed.

Lemma frame_elsewhere h fb b (l : list nat) : fb ∉ l → omap (frame (<[fb := b]> h)) l = omap (frame h) l.
Proof.
  induction l as [|x l IH]; intros Hn; [done|]. apply not_elem_of_cons in Hn as [Hx Hn].
  rewrite !omap_cons', IH by done. unfold frame. by rewrite lookup_insert_ne.
Qed.

(** Nothing about frames changes. *)
Lemma frames_same (one : Prop) d p p' : frames_inv one d p → queued p' = queued p → held p' = held p →
  undecoded p' = undecoded p → p_pool p' = p_pool p → p_heap p' = p_heap p → p_fed p' = p_fed p →
  p_done p' = p_done p → p_consumer p' = p_consumer p → frames_inv one d p'.
Proof.
  intros [I1 I2 I3 I4 I5] E1 E2 E3 E4 E5 E6 E7 E8.
  constructor; rewrite ?E1, ?E2, ?E3, ?E4, ?E5, ?E6, ?E7, ?E8; done.
Qed.

Lemma moved p i x y : p_workers p !! i = Some x → owned x = owned y → holding x = holding y →
  held (set_worker i y p) = held p ∧ undecoded (set_worker i y p) = undecoded p.
Proof. intros Hi Ho Hh. split; by apply (omap_insert_same _ _ _ x). Qed.

Lemma undecoded_held (ws : list wpc) fb : fb ∈ omap holding ws → fb ∈ omap owned ws.
Proof.
  rewrite !list_elem_of_omap. intros (w & Hw & Hh). exists w. split; [done|]. by destruct w.
Qed.

(** A pool of one worker. *)
Lemma alone {B} (f : wpc → option B) ws i w : length ws <= 1 → ws !! i = Some w → omap f ws = option_list (f w).
Proof.
  intros Hl Hi. destruct ws as [|x [|y ws]]; [done| |simpl in Hl; lia].
  destruct i; [|done]. injection Hi as ->. by rewrite omap_cons', app_nil_r.
Qed.

Lemma alone_insert {B} (f : wpc → option B) ws i w x : length ws <= 1 → ws !! i = Some w →
  omap f (<[i := x]> ws) = option_list (f x).
Proof.
  intros Hl Hi. apply (alone _ _ i); [by rewrite length_insert|].
  rewrite list_lookup_insert. by rewrite decide_True by (split; [done|by eapply lookup_lt_Some]).
Qed.

Lemma frames_receive (one : Prop) d p i fb rest : (one → length (p_workers p) <= 1) → frames_inv one d p →
  p_workers p !! i = Some AtSelect → p_input p = Some fb :: rest →
  frames_inv one d (set_worker i (Holding fb) (set_input (p_closed p) rest (p_fed p) p)).
Proof.
  intros Hone [I1 I2 I3 I4 I5] Hi Hin. unfold queued, held, undecoded in *. rewrite Hin in *. cbn in I1, I2, I3, I4.
  pose proof (omap_insert owned _ _ _ (Holding fb) Hi) as Ho. pose proof (omap_insert holding _ _ _ (Holding fb) Hi) as Hh.
  cbn in Ho, Hh. rewrite app_nil_r in Ho, Hh.
  assert (is_Some (p_heap p !! fb)) as [b Hb] by (apply I2; set_solver).
  assert (frame (p_heap p) fb = Some (fb_B b)) as Hf by (unfold frame; by rewrite Hb).
  constructor; unfold queued, held, undecoded; cbn; [..|done].
  - rewrite Ho. cbn. by rewrite <- Permutation_middle.
  - intros x. rewrite Ho. intros Hx. apply I2. set_solver.
  - rewrite Hh, I3, !omap_cons', Hf. solve_Permutation.
  - intros H1. rewrite I4 by done. rewrite (alone _ _ i AtSelect), (alone_insert _ _ i AtSelect) by auto. cbn. by rewrite Hf.
Qed.

Lemma frames_decoded (one : Prop) d p i fb b : (one → length (p_workers p) <= 1) → frames_inv one d p →
  p_workers p !! i = Some (Holding fb) → p_heap p !! fb = Some b →
  frames_inv one d (set_worker i (InHandler fb)
    (set_consumer (match parse b with Some pkt => consume (p_consumer p) pkt | None => p_consumer p end)
       (p_done p ++ [fb_B b]) p)).
Proof.
  intros Hone [I1 I2 I3 I4 I5] Hi Hb. unfold queued, held, undecoded in *.
  pose proof (omap_insert holding _ _ _ (InHandler fb) Hi) as Hh. cbn in Hh.
  assert (frame (p_heap p) fb = Some (fb_B b)) as Hf by (unfold frame; by rewrite Hb).
  assert (omap owned (<[i := InHandler fb]> (p_workers p)) = omap owned (p_workers p)) as Ho
    by (by apply (omap_insert_same _ _ _ (Holding fb))).
  constructor; unfold queued, held, undecoded; cbn; rewrite ?Ho; [done|done|..].
  - rewrite I3, <- Hh, omap_app, omap_cons', Hf. cbn. solve_Permutation.
  - intros H1. rewrite I4 by done.
    rewrite (alone _ _ i (Holding fb)), (alone_insert _ _ i (Holding fb)) by auto. cbn. rewrite Hf. cbn.
    by rewrite <- app_assoc.
  - rewrite omap_app, foldl_app, <- I5, omap_cons'. change (parse_frame (fb_B b)) with (parse b). by destruct (parse b).
Qed.

Lemma frames_release (one : Prop) d p i fb : (one → length (p_workers p) <= 1) → frames_inv one d p →
  p_workers p !! i = Some (InHandler fb) → frames_inv one d (set_worker i AtSelect (release fb p)).
Proof.
  intros Hone [I1 I2 I3 I4 I5] Hi. unfold queued, held, undecoded in *.
  pose proof (omap_insert owned _ _ _ AtSelect Hi) as Ho. cbn in Ho.
  assert (omap holding (<[i := AtSelect]> (p_workers p)) = omap holding (p_workers p)) as Hh
    by (by apply (omap_insert_same _ _ _ (InHandler fb))).
  assert (NoDup (fb :: omap id (p_input p) ++ omap owned (<[i := AtSelect]> (p_workers p)) ++ p_pool p)) as Hn.
  { eapply NoDup_Permutation_proper; [|exact I1]. rewrite <- Ho. solve_Permutation. }
  pose proof Hn as [Hfb Hn']%NoDup_cons.
  assert (is_Some (p_heap p !! fb)) as [b Hb] by (apply I2; rewrite <- Ho; set_solver).
  unfold release. rewrite Hb.
  destruct (ReleaseFrameBuffer (Some b)) as [b'|].
  - constructor; unfold queued, held, undecoded; cbn; rewrite ?Hh; [..|done].
    + eapply NoDup_Permutation_proper; [|exact Hn]. solve_Permutation.
    + intros x Hx. destruct (decide (x = fb)) as [->|Hne]; [by rewrite lookup_insert_eq|rewrite lookup_insert_ne by done].
      apply I2. rewrite <- Ho. set_solver.
    + rewrite !frame_elsewhere; [done|set_solver|]. rewrite <- Hh. intros ?%undecoded_held. set_solver.
    + intros H1. rewrite !frame_elsewhere; [auto|set_solver|]. rewrite <- Hh. intros ?%undecoded_held. set_solver.
  - constructor; unfold queued, held, undecoded; cbn; rewrite ?Hh; [|intros x Hx; apply I2; rewrite <- Ho|done..]; set_solver.
Qed.

(** A producer may take a buffer nobody has. *)
Lemma frames_feed (one : Prop) d p fb rest text : frames_inv one d p →
  fb ∉ queued p ++ held p ++ rest → NoDup rest → (∀ x, x ∈ rest → x ∈ p_pool p) →
  frames_inv one d (feed fb rest text p).
Proof.
  intros [I1 I2 I3 I4 I5] Hfb Hr Hp. unfold queued, held, undecoded in *.
  assert (Hq : omap id (p_input p ++ [Some fb]) = omap id (p_input p) ++ [fb]) by by rewrite omap_app.
  assert (Hf : ∀ b, frame (<[fb := b]> (p_heap p)) fb = Some (fb_B b)) by (intros b; unfold frame; by rewrite lookup_insert_eq).
  assert (Hn : fb ∉ omap holding (p_workers p)) by (intros ?%undecoded_held; set_solver).
  apply NoDup_app in I1 as (N1 & N2 & N3). apply NoDup_app in N3 as (N3 & N4 & N5).
  constructor; unfold feed, queued, held, undecoded; cbn [p_input p_workers p_heap p_pool p_fed p_done p_consumer set_input set_pool];
    rewrite ?Hq; [..|done].
  - rewrite <- app_assoc. cbn. apply NoDup_app. split_and!; [done|set_solver|].
    apply NoDup_cons. split; [set_solver|]. apply NoDup_app. split_and!; [done|set_solver|done].
  - intros x Hx. destruct (decide (x = fb)) as [->|Hne]; [by rewrite lookup_insert_eq|rewrite lookup_insert_ne by done].
    apply I2. set_solver.
  - rewrite omap_app, omap_cons', Hf, !frame_elsewhere, I3 by set_solver. cbn. by rewrite <- !app_assoc.
  - intros H1. rewrite omap_app, omap_cons', Hf, !frame_elsewhere, I4 by set_solver. cbn. by rewrite <- !app_assoc.
Qed.

(** ** The pool as a whole *)

Lemma release_spec fb p : ∃ h l, release fb p = set_pool h l p.
Proof. unfold release. destruct (ReleaseFrameBuffer _); [by eauto|]. exists (p_heap p), (p_pool p). by destruct p. Qed.

(** What the steps of the workers have in common: one worker moves, and what
    else changes is the input, the buffers and the consumer. *)
Lemma worker_step_shape p p' : worker_step p p' → ∃ i x y c l h pl k dn,
  p_workers p !! i = Some x ∧ stop_waiting x = None ∧ stop_waiting y = None ∧ (∀ fb, y ≠ StopBlocked fb) ∧
  (y = Exited → p_cancelled p = true ∨ (p_input p = [] ∧ p_closed p = true)) ∧
  (p_input p = [] → l = []) ∧ c = p_closed p ∧
  p' = set_worker i y (set_pool h pl (set_consumer k dn (set_input c l (p_fed p) p))).
Proof.
  intros Hs. assert (Hid : ∀ q, q = set_pool (p_heap q) (p_pool q) (set_consumer (p_consumer q) (p_done q)
    (set_input (p_closed q) (p_input q) (p_fed q) q))) by (by intros []).
  destruct Hs as [i Hi Hc|i fb rest Hi Hin|i rest Hi Hin|i Hi Hin Hc|i fb b Hi Hb|i fb Hi].
  - exists i, AtSelect, Exited, (p_closed p), (p_input p), (p_heap p), (p_pool p), (p_consumer p), (p_done p).
    rewrite <- Hid. split_and!; auto.
  - exists i, AtSelect, (Holding fb), (p_closed p), rest, (p_heap p), (p_pool p), (p_consumer p), (p_done p).
    split_and!; try done. by rewrite Hin.
  - exists i, AtSelect, AtSelect, (p_closed p), rest, (p_heap p), (p_pool p), (p_consumer p), (p_done p).
    split_and!; try done; [by rewrite Hin|]. unfold set_worker, set_start, set_pool, set_consumer, set_input. cbn.
    by rewrite list_insert_id.
  - exists i, AtSelect, Exited, (p_closed p), (p_input p), (p_heap p), (p_pool p), (p_consumer p), (p_done p).
    rewrite <- Hid. split_and!; auto.
  - unfold decode_frame. destruct (parse b) as [pkt|].
    + exists i, (Holding fb), (InHandler fb), (p_closed p), (p_input p), (p_heap p), (p_pool p),
        (consume (p_consumer p) pkt), (p_done p ++ [fb_B b]). split_and!; done.
    + destruct (release_spec fb (set_consumer (p_consumer p) (p_done p ++ [fb_B b]) p)) as (h & l & ->).
      exists i, (Holding fb), AtSelect, (p_closed p), (p_input p), h, l, (p_consumer p), (p_done p ++ [fb_B b]).
      split_and!; done.
  - destruct (release_spec fb p) as (h & l & ->).
    exists i, (InHandler fb), AtSelect, (p_closed p), (p_input p), h, l, (p_consumer p), (p_done p). split_and!; done.
Qed.

Record pool_inv (cpus : Z) (cfg : Config) (d : D) (p : Processor) : Prop := {
  pi_frames : frames_inv (workers_of cpus cfg <= 1) d p;
  pi_stop : stop_inv p;
  pi_count : if p_started p then length (p_workers p) + p_spawn p = workers_of cpus cfg
             else p_workers p = [] ∧ p_spawn p = 0
}.

Lemma elem_insert {A} (l : list A) i x y : x ∈ <[i := y]> l → x = y ∨ x ∈ l.
Proof.
  intros [j Hj]%list_elem_of_lookup. apply lookup_insert_cases in Hj as [[_ ->]|[_ Hj]]; [by left|].
  right. by eapply list_elem_of_lookup_2.
Qed.

Lemma stop_worker_step p p' : stop_inv p → worker_step p p' → stop_inv p'.
Proof.
  intros [S1 S2 S3 S4 S5] Hs.
  destruct (worker_step_shape p p' Hs) as (i & x & y & c & l & h & pl & k & dn & Hi & Hx & Hy & Hyb & Hye & Hl & -> & ->).
  pose proof (omap_insert_length stop_waiting _ _ _ y Hi) as Hw. rewrite Hx, Hy in Hw. cbn in Hw.
  constructor; cbn; [|done|done|..].
  - unfold bytes in *. lia.
  - intros Hn. apply Forall_insert; [by apply S4|done].
  - intros [He|He]%elem_insert; [destruct (Hye (eq_sym He)) as [|[]]|destruct (S5 He) as [|[]]]; auto.
Qed.

Lemma count_worker_step p p' : worker_step p p' →
  p_started p' = p_started p ∧ p_spawn p' = p_spawn p ∧ length (p_workers p') = length (p_workers p).
Proof.
  intros Hs.
  destruct (worker_step_shape p p' Hs) as (i & x & y & c & l & h & pl & k & dn & _ & _ & _ & _ & _ & _ & -> & ->).
  cbn. by rewrite length_insert.
Qed.

Lemma frames_worker_step (one : Prop) d p p' : (one → length (p_workers p) <= 1) → frames_inv one d p →
  worker_step p p' → frames_inv one d p'.
Proof.
  intros Hone I Hs. destruct Hs as [i Hi Hc|i fb rest Hi Hin|i rest Hi Hin|i Hi Hin Hc|i fb b Hi Hb|i fb Hi].
  - destruct (moved p i AtSelect Exited Hi) as [E1 E2]; [done..|]. by apply (frames_same one d p).
  - by apply frames_receive.
  - apply (frames_same one d p); try done. unfold queued. by rewrite Hin.
  - destruct (moved p i AtSelect Exited Hi) as [E1 E2]; [done..|]. by apply (frames_same one d p).
  - pose proof (frames_decoded one d p i fb b Hone I Hi Hb) as I'. unfold decode_frame.
    destruct (parse b) as [pkt|]; [done|].
    apply (frames_release _ _ _ i fb) in I'.
    + unfold release in *. cbn in *. destruct (ReleaseFrameBuffer _); cbn in *;
        unfold set_worker, set_start, set_pool, set_consumer in *; cbn in *; by rewrite list_insert_insert_eq in I'.
    + cbn. by rewrite length_insert.
    + cbn. apply list_lookup_insert_eq. by eapply lookup_lt_Some.
  - by apply frames_release.
Qed.

Lemma frames_step cpus cfg (one : Prop) d p p' : (one → length (p_workers p) <= 1) → frames_inv one d p →
  step cpus cfg p p' → frames_inv one d p'.
Proof.
  intros Hone I Hs. pose proof I as [I1 I2 _ _ _].
  assert (∀ i x y, p_workers p !! i = Some x → owned x = owned y → holding x = holding y →
    held (set_worker i y p) = held p ∧ undecoded (set_worker i y p) = undecoded p) as Hm by apply moved.
  destruct Hs as [p1 Hw| |Hn|fb text Hc Hb|fb l1 l2 text Hc Hl|Hc|Hc| |i fb Hi|j Hj He|i fb Hi He|j Hj He|i fb Hi He].
  - by eapply frames_worker_step.
  - unfold Start. destruct (p_started p); [done|]. by apply (frames_same one d p).
  - unfold spawn. destruct (p_spawn p); [done|].
    apply (frames_same one d p); try done; unfold held, undecoded; cbn; by rewrite omap_app, app_nil_r.
  - apply frames_feed; [done| | |done].
    + intros Hx. destruct (I2 fb Hx). congruence.
    + by apply NoDup_app in I1 as (_ & _ & (_ & _ & ?)%NoDup_app).
  - rewrite Hl in I1. apply NoDup_app in I1 as (N1 & N2 & (N3 & N4 & N5)%NoDup_app).
    apply NoDup_app in N5 as (N5 & N6 & (N7 & N8)%NoDup_cons).
    apply frames_feed; [done| | |rewrite Hl; set_solver].
    + specialize (N2 fb). specialize (N4 fb). set_solver.
    + apply NoDup_app. set_solver.
  - apply (frames_same one d p); try done. unfold queued. cbn. by rewrite omap_app, app_nil_r.
  - by apply (frames_same one d p).
  - unfold Stop. destruct (p_stop p); by apply (frames_same one d p).
  - unfold handler_stop. destruct (p_stop p); [| |done];
      [destruct (Hm i _ (StopWait fb) Hi) as [E1 E2]|destruct (Hm i _ (StopBlocked fb) Hi) as [E1 E2]]; try done;
      by apply (frames_same one d p).
  - by apply (frames_same one d p).
  - destruct (Hm i _ (InHandler fb) Hi) as [E1 E2]; try done. by apply (frames_same one d p).
  - by apply (frames_same one d p).
  - destruct (Hm i _ (InHandler fb) Hi) as [E1 E2]; try done. by apply (frames_same one d p).
Qed.

Lemma stop_step cpus cfg p p' : stop_inv p → step cpus cfg p p' → stop_inv p'.
Proof.
  intros S Hs. pose proof S as [S1 S2 S3 S4 S5].
  destruct Hs as [p1 Hw| |Hn|fb text Hc Hb|fb l1 l2 text Hc Hl|Hc|Hc| |i fb Hi|j Hj He|i fb Hi He|j Hj He|i fb Hi He].
  - by eapply stop_worker_step.
  - unfold Start. destruct (p_started p); [done|]. by constructor.
  - unfold spawn. destruct (p_spawn p); [done|]. constructor; cbn; try done.
    + rewrite omap_app, app_nil_r. done.
    + intros Hq. apply Forall_app. split; [by apply S4|]. by repeat constructor.
    + intros [He|He]%elem_of_app; [by apply S5|set_solver].
  - constructor; cbn; try done. intros He. destruct (S5 He) as [|[_ ?]]; [by left|congruence].
  - constructor; cbn; try done. intros He. destruct (S5 He) as [|[_ ?]]; [by left|congruence].
  - constructor; cbn; try done. intros He. destruct (S5 He) as [|[_ ?]]; [by left|congruence].
  - constructor; cbn; try done. intros He. destruct (S5 He) as [|[? _]]; [by left|by right].
  - unfold Stop. destruct (p_stop p) eqn:Eo; constructor; cbn; rewrite ?omap_app, ?length_app; cbn; try done; try lia;
      try (by left); intros _; rewrite elem_of_app; (intros [?|?]; [by apply S3|set_solver]).
  - unfold handler_stop. destruct (p_stop p) eqn:Eo; [| |done].
    + pose proof (omap_insert_length stop_waiting _ _ _ (StopWait fb) Hi) as Hw. cbn in Hw.
      constructor; cbn; try done; [lia|by intros _; apply S3|by left].
    + pose proof (omap_insert_length stop_waiting _ _ _ (StopBlocked fb) Hi) as Hw. cbn in Hw.
      constructor; cbn; rewrite ?Eo; try done; [lia|]. intros [He|He]%elem_insert; [done|by apply S5].
  - pose proof (omap_insert_length waiting _ _ _ Returned Hj) as Hw. cbn in Hw.
    assert (p_stop p = Running) as Eo by (destruct (p_stop p); [lia|done|lia]). rewrite Eo in S1, S2.
    by constructor; cbn; [lia|..].
  - pose proof (omap_insert_length stop_waiting _ _ _ (InHandler fb) Hi) as Hw. cbn in Hw.
    assert (p_stop p = Running) as Eo by (destruct (p_stop p); [lia|done|lia]). rewrite Eo in S1, S2.
    constructor; cbn; try done; [lia|]. intros _. by left.
  - pose proof (omap_insert_length waiting _ _ _ Returned Hj) as Hw. cbn in Hw. rewrite He in S1, S2.
    by constructor; cbn; [lia|..].
  - pose proof (omap_insert_length stop_waiting _ _ _ (InHandler fb) Hi) as Hw. cbn in Hw.
    constructor; cbn; rewrite ?He in *; try done; [lia|]. intros [Hx|Hx]%elem_insert; [done|by apply S5].
Qed.

Lemma pool_step cpus cfg d p p' : pool_inv cpus cfg d p → step cpus cfg p p' → pool_inv cpus cfg d p'.
Proof.
  intros [F S C] Hs. constructor; [|by eapply stop_step|].
  - eapply frames_step; [|done|done]. intros H1. destruct (p_started p); [lia|]. destruct C as [-> _]. cbn. lia.
  - destruct Hs as [p1 Hw| |Hn|fb text Hc Hb|fb l1 l2 text Hc Hl|Hc|Hc| |i fb Hi|j Hj He|i fb Hi He|j Hj He|i fb Hi He];
      try done; cbn; rewrite ?length_insert.
    + destruct (count_worker_step p p1 Hw) as (-> & -> & E). destruct (p_started p); [lia|].
      destruct C as [C1 C2]. rewrite C1 in E. by destruct (p_workers p1).
    + unfold Start. destruct (p_started p) eqn:Es; [by rewrite Es|]. destruct C as [-> _]. cbn. done.
    + unfold spawn. destruct (p_spawn p); [done|]. cbn. destruct (p_started p); [|by destruct C]. lens.
    + unfold Stop. destruct (p_stop p); done.
    + unfold handler_stop. destruct (p_stop p); [| |done]; cbn; rewrite length_insert;
        destruct (p_started p); try done; destruct C as [-> ->]; done.
    + destruct (p_started p); [done|]. by destruct C as [-> ->].
    + destruct (p_started p); [done|]. by destruct C as [-> ->].
Qed.

Lemma reachable_pool cpus cfg d p : reachable cpus cfg d p → pool_inv cpus cfg d p.
Proof.
  induction 1 as [|p1 p2 _ IH Hs]; [|by eapply pool_step].
  constructor; [|by constructor; cbn; try done; try set_solver|done].
  constructor; cbn; try done; [by apply NoDup_nil|set_solver].
Qed.

(** ** Every frame once *)

(** C29: over every run of the pool, with any number of workers, callers of [Start]
    and [Stop], and handlers that stop it: a buffer is in one place, the frames
    sent are those decoded, those a worker holds and those still in the channel,
    and the consumer has seen exactly the packets of the decoded ones; with one
    worker they are decoded in the order they were sent. *)
Theorem frames_once cpus cfg d p : reachable cpus cfg d p →
  NoDup (queued p ++ held p ++ p_pool p) ∧
  p_fed p ≡ₚ p_done p ++ omap (frame (p_heap p)) (undecoded p) ++ omap (frame (p_heap p)) (queued p) ∧
  (workers_of cpus cfg <= 1 → p_done p `prefix_of` p_fed p) ∧
  p_consumer p = foldl consume d (omap parse_frame (p_done p)) ∧
  length (p_workers p) <= workers_of cpus cfg.
Proof.
  intros Hr. destruct (reachable_pool cpus cfg d p Hr) as [[I1 I2 I3 I4 I5] _ C]. split_and!; try done.
  - intros H1. rewrite (I4 H1). by apply prefix_app_r.
  - destruct (p_started p); [lia|]. destruct C as [-> _]. cbn. lia.
Qed.

(** ** Draining *)

Definition weight (w : wpc) : nat := match w with Holding _ => 3 | InHandler _ => 2 | AtSelect => 1 | _ => 0 end.
Definition work (p : Processor) : nat := 3 * length (p_input p) + sum_list_with weight (p_workers p).

Lemma worker_step_work p p' : worker_step p p' → work p' < work p.
Proof.
  intros Hs. unfold work.
  assert (∀ i x y q, p_workers q !! i = Some x → sum_list_with weight (p_workers (set_worker i y q)) + weight x =
    sum_list_with weight (p_workers q) + weight y) as Hm by (intros; by apply sum_list_insert).
  destruct Hs as [i Hi Hc|i fb rest Hi Hin|i rest Hi Hin|i Hi Hin Hc|i fb b Hi Hb|i fb Hi].
  - pose proof (Hm i _ Exited p Hi) as E. cbn in *. lia.
  - pose proof (Hm i _ (Holding fb) (set_input (p_closed p) rest (p_fed p) p) Hi) as E. rewrite Hin. cbn in *. lia.
  - rewrite Hin. cbn. lia.
  - pose proof (Hm i _ Exited p Hi) as E. cbn in *. lia.
  - unfold decode_frame. destruct (parse b) as [pkt|].
    + pose proof (Hm i _ (InHandler fb) (set_consumer (consume (p_consumer p) pkt) (p_done p ++ [fb_B b]) p) Hi) as E.
      cbn in *. lia.
    + destruct (release_spec fb (set_consumer (p_consumer p) (p_done p ++ [fb_B b]) p)) as (h & l & ->).
      pose proof (Hm i _ AtSelect p Hi) as E. cbn in *. lia.
  - destruct (release_spec fb p) as (h & l & ->). pose proof (Hm i _ AtSelect p Hi) as E. cbn in *. lia.
Qed.

Lemma omap_exited {B} (f : wpc → option B) ws : Forall (λ w, w = Exited) ws → f Exited = None → omap f ws = [].
Proof. intros He Hf. induction He as [|x l -> _ IH]; [done|]. by rewrite omap_cons', Hf, IH. Qed.

(** C30: when the input is closed, nobody called [Stop] and [Start] has returned, the
    workers finish: each of their steps takes work away, and when none is left
    all have exited, every frame sent was decoded and no worker holds a buffer;
    one worker dispatches the packets in the order of their frames. *)
Theorem closed_input_drains cpus cfg d p : reachable cpus cfg d p →
  p_closed p = true → p_stop p = NotRun → p_started p = true → p_spawn p = 0 → 0 < workers_of cpus cfg →
  (∀ p', worker_step p p' → work p' < work p) ∧
  ((∀ p', ¬ worker_step p p') →
     all_exited p ∧ p_input p = [] ∧ p_done p ≡ₚ p_fed p ∧ held p = [] ∧
     (workers_of cpus cfg = 1 → p_consumer p = foldl consume d (omap parse_frame (p_fed p)))).
Proof.
  intros Hr Hc Hn Hst Hsp Hw. destruct (reachable_pool cpus cfg d p Hr) as [[I1 I2 I3 I4 I5] [S1 S2 S3 S4 S5] C].
  rewrite Hst, Hsp, Nat.add_0_r in C. rewrite Hn in S1, S2. split; [by apply worker_step_work|]. intros Hstuck.
  assert (all_exited p) as He.
  { apply Forall_lookup. intros i w Hi. destruct w as [|fb|fb|fb|fb|]; [..|done].
    - exfalso. destruct (p_input p) as [|[fb|] rest] eqn:Hin; eapply Hstuck; [by eapply step_closed|by eapply step_receive|by eapply step_nil].
    - exfalso. destruct (I2 fb) as [b Hb]; [|by eapply Hstuck, step_decode].
      rewrite !elem_of_app. right; left. apply list_elem_of_omap. exists (Holding fb). split; [by eapply list_elem_of_lookup_2|done].
    - exfalso. by eapply Hstuck, step_return.
    - exfalso. pose proof (omap_insert_length stop_waiting _ _ _ Exited Hi) as E. cbn in E. lia.
    - exfalso. pose proof (Forall_lookup_1 _ _ _ _ (S4 Hn) Hi) as E. by apply (E fb). }
  assert (∀ {B} (f : wpc → option B), f Exited = None → omap f (p_workers p) = []) as Hno.
  { intros B f Hf. by apply omap_exited. }
  assert (p_input p = []) as Hin.
  { destruct (p_workers p) as [|x l] eqn:El; [simpl in C; lia|]. unfold all_exited in He. rewrite El in He.
    apply Forall_cons in He as [-> _]. destruct S5 as [?|[? _]]; [set_solver|congruence|done]. }
  unfold undecoded, queued in *. rewrite (Hno _ holding eq_refl), Hin in *. cbn in *. rewrite app_nil_r in *.
  split_and!; try done; [by unfold held; apply Hno|].
  intros H1. rewrite (I4 ltac:(lia)). done.
Qed.

(** ** Stopping *)

Definition quiet (p : Processor) : Prop :=
  p_started p = true ∧ p_spawn p = 0 ∧ all_exited p.

Lemma exited_stays ws (i : nat) w : Forall (λ w, w = Exited) ws → ws !! i = Some w → w = Exited.
Proof. intros He Hi. by eapply (Forall_lookup_1 _ _ _ _ He). Qed.

Lemma quiet_step cpus cfg p p' : quiet p → step cpus cfg p p' → quiet p' ∧ p_consumer p' = p_consumer p.
Proof.
  intros (Q1 & Q2 & Q3) Hs.
  destruct Hs as [p1 Hw| |Hn|fb text Hc Hb|fb l1 l2 text Hc Hl|Hc|Hc| |i fb Hi|j Hj He|i fb Hi He|j Hj He|i fb Hi He];
    try (by pose proof (exited_stays _ _ _ Q3 Hi)); try done.
  - by destruct Hw as [i Hi|i fb rest Hi|i rest Hi|i Hi|i fb b Hi|i fb Hi]; pose proof (exited_stays _ _ _ Q3 Hi).
  - unfold Start. by rewrite Q1.
  - unfold Stop. by destruct (p_stop p).
Qed.

Lemma quiet_steps cpus cfg p p' : quiet p → steps cpus cfg p p' → quiet p' ∧ p_consumer p' = p_consumer p.
Proof.
  intros Q. induction 1 as [|p1 p2 _ [IH1 IH2] Hs]; [done|].
  destruct (quiet_step _ _ _ _ IH1 Hs) as [? E]. by rewrite E.
Qed.

(** Started, and quiet once [Stop] has run. *)
Definition stops_quietly (p : Processor) : Prop :=
  p_started p = true ∧ p_spawn p = 0 ∧ (p_stop p = Ran → all_exited p).

Lemma stops_quietly_step cpus cfg p p' : stops_quietly p → step cpus cfg p p' → stops_quietly p'.
Proof.
  intros (Q1 & Q2 & Q3) Hs.
  destruct Hs as [p1 Hw| |Hn|fb text Hc Hb|fb l1 l2 text Hc Hl|Hc|Hc| |i fb Hi|j Hj He|i fb Hi He|j Hj He|i fb Hi He]; try done.
  - destruct (worker_step_shape p p1 Hw) as (i & x & y & c & l & h & pl & k & dn & Hi & _ & _ & _ & _ & _ & _ & ->).
    split_and!; try done. cbn. intros Hr. pose proof (exited_stays _ _ _ (Q3 Hr) Hi) as ->.
    destruct Hw as [i' Hi'|i' fb rest Hi'|i' rest Hi'|i' Hi'|i' fb b Hi'|i' fb Hi']; by pose proof (exited_stays _ _ _ (Q3 Hr) Hi').
  - unfold Start. by rewrite Q1.
  - unfold Stop. destruct (p_stop p); split_and!; try done.
  - unfold handler_stop. destruct (p_stop p) eqn:Eo; split_and!; try done; cbn; rewrite ?Eo; done.
  - by pose proof (exited_stays _ _ _ He Hi).
  - split_and!; try done. intros _. by apply Q3.
  - by pose proof (exited_stays _ _ _ (Q3 He) Hi).
Qed.

(** When [Start] has returned before the workers were stopped, the return of
    [Stop] means that every worker has exited, and from then on the consumer is
    not called again. *)
Theorem stop_is_final cpus cfg p p' p'' :
  p_started p = true → p_spawn p = 0 → p_stop p ≠ Ran →
  steps cpus cfg p p' → p_stop p' = Ran → steps cpus cfg p' p'' →
  all_exited p'' ∧ p_consumer p'' = p_consumer p'.
Proof.
  intros Hst Hsp Hn H1 Hr H2. assert (stops_quietly p') as (Q1 & Q2 & Q3).
  { clear Hr H2. induction H1 as [|p1 p2 _ IH Hs]; [done|by eapply stops_quietly_step]. }
  by destruct (quiet_steps cpus cfg p' p'') as [(_ & _ & ?) ?]; [split_and!; auto|..].
Qed.

(** A handler that calls [Stop] waits for its own worker: it never comes back,
    and neither does any other caller of [Stop]. *)
Theorem handler_stop_deadlocks cpus cfg d p p' i fb : reachable cpus cfg d p →
  p_workers p !! i = Some (StopWait fb) → steps cpus cfg p p' →
  p_workers p' !! i = Some (StopWait fb) ∧ p_stop p' = Running ∧ Returned ∉ p_callers p'.
Proof.
  intros Hr Hi. induction 1 as [|p1 p2 H12 IH Hs].
  - destruct (reachable_pool cpus cfg d p Hr) as [_ [S1 S2 S3 S4 S5] _].
    pose proof (omap_insert_length stop_waiting _ _ _ Exited Hi) as E. cbn in E.
    assert (p_stop p = Running) as Eo by (destruct (p_stop p); [lia|done|lia]). split_and!; [done..|]. by apply S3; rewrite Eo.
  - destruct IH as (Hi1 & Ho1 & Hr1).
    assert (stop_inv p2) as S.
    { eapply stop_step; [|exact Hs]. eapply (pi_stop cpus cfg d), reachable_pool.
      clear -Hr H12. induction H12; [done|by eapply steps_step]. }
    assert (∀ w, p_workers p1 !! i = Some w → w ≠ StopWait fb → False) as Hneq by congruence.
    assert (Hall : ¬ all_exited p1) by (intros He; by pose proof (exited_stays _ _ _ He Hi1)).
    assert (p_workers p2 !! i = Some (StopWait fb) ∧ p_stop p2 = Running) as [Hi2 Ho2].
    { destruct Hs as [p2 Hw| |Hn|x text Hc Hb|x l1 l2 text Hc Hl|Hc|Hc| |j x Hj|j Hj He|j x Hj He|j Hj He|j x Hj He];
        try done; try congruence.
      - destruct (worker_step_shape _ _ Hw) as (j & x & y & c & l & h & pl & k & dn & Hj & Hx & _ & _ & _ & _ & _ & ->).
        split; [|done]. cbn. rewrite list_lookup_insert_ne; [done|]. intros ->. rewrite Hi1 in Hj. injection Hj as <-. done.
      - unfold Start. by destruct (p_started p1).
      - unfold spawn. destruct (p_spawn p1); [done|]. split; [|done]. cbn. by apply lookup_app_l_Some.
      - unfold Stop. by rewrite Ho1.
      - unfold handler_stop. rewrite Ho1. split; [|done]. cbn. rewrite list_lookup_insert_ne; [done|]. congruence. }
    split_and!; [done..|]. by apply S; rewrite Ho2.
Qed.

(** The pool [n] workers short, and a pool with workers that wait at their
    select. *)
Definition ready (n : nat) (ws : list wpc) (p : Processor) : Processor := set_start true n ws p.

Lemma start_ready cpus cfg p0 p k n : workers_of cpus cfg = k + n → p_started p = false → p_workers p = [] →
  steps cpus cfg p0 p → steps cpus cfg p0 (ready n (replicate k AtSelect) p).
Proof.
  intros Hw Hs Hws H0. revert n Hw. induction k as [|k IH]; intros n Hw.
  - eapply steps_step; [exact H0|]. pose proof (step_start cpus cfg p) as Hstep. unfold Start in Hstep.
    rewrite Hs, Hws, Hw in Hstep. exact Hstep.
  - assert (workers_of cpus cfg = k + S n) as Hw' by lia. specialize (IH (S n) Hw').
    eapply steps_step; [exact IH|]. pose proof (step_spawn cpus cfg (ready (S n) (replicate k AtSelect) p)) as Hstep.
    cbn in Hstep. specialize (Hstep ltac:(done)). cbn [replicate]. rewrite replicate_cons_app. exact Hstep.
Qed.

Lemma decode_frame_packet i fb b p pkt : parse b = Some pkt → decode_frame i fb b p =
  set_worker i (InHandler fb) (set_consumer (consume (p_consumer p) pkt) (p_done p ++ [fb_B b]) p).
Proof. unfold decode_frame. by intros ->. Qed.

Definition final (p : Processor) : Processor := set_stop true Ran [Returned] p.

(** [Start] after [Stop], or [Stop] before [Start] has spawned its workers: the
    workers find the context cancelled, but their select may as well take
    frames, and the consumer is called after [Stop] returned. *)
Theorem start_after_stop cpus cfg d text pkt : 0 < workers_of cpus cfg → parse_frame text = Some pkt →
  ∃ p p', reachable cpus cfg d p ∧ Returned ∈ p_callers p ∧ p_consumer p = d ∧
    steps cpus cfg p p' ∧ p_consumer p' = consume d pkt.
Proof.
  intros Hw Hp. exists (final (new_processor d)). eexists. split_and!.
  - eapply steps_step; [eapply steps_step; [apply steps_refl|apply step_stop]|].
    by apply (step_stopped cpus cfg (Stop (new_processor d)) 0); [|apply Forall_nil].
  - cbn. set_solver.
  - done.
  - eapply steps_step; [eapply steps_step; [eapply steps_step|]|].
    + apply (start_ready cpus cfg _ (final (new_processor d)) 1 (workers_of cpus cfg - 1)); [lia|done|done|apply steps_refl].
    + by apply (step_feed_new cpus cfg _ 0 text).
    + apply step_worker. by apply (step_receive _ 0 0 []).
    + apply step_worker. by eapply (step_decode _ 0 0).
  - rewrite (decode_frame_packet _ _ _ _ pkt); done.
Qed.

(** With two workers, the least number the default configuration starts, packets
    may reach the consumer in another order than their frames came. *)
Theorem two_workers_reorder cpus cfg d text1 text2 pkt1 pkt2 : 2 <= workers_of cpus cfg →
  parse_frame text1 = Some pkt1 → parse_frame text2 = Some pkt2 →
  ∃ p, reachable cpus cfg d p ∧ p_fed p = [text1; text2] ∧ p_stop p = NotRun ∧
    p_consumer p = consume (consume d pkt2) pkt1.
Proof.
  intros Hw Hp1 Hp2. eexists. split_and!.
  - eapply steps_step; [eapply steps_step; [eapply steps_step; [eapply steps_step; [eapply steps_step; [eapply steps_step|]|]|]|]|].
    + apply (start_ready cpus cfg _ (new_processor d) 2 (workers_of cpus cfg - 2)); [lia|done|done|apply steps_refl].
    + by apply (step_feed_new cpus cfg _ 0 text1).
    + by apply (step_feed_new cpus cfg _ 1 text2).
    + apply step_worker. by apply (step_receive _ 0 0 [Some 1]).
    + apply step_worker. by apply (step_receive _ 1 1 []).
    + apply step_worker. by eapply (step_decode _ 1 1).
    + apply step_worker. rewrite (decode_frame_packet _ _ _ _ pkt2) by done. by eapply (step_decode _ 0 0).
  - rewrite !(decode_frame_packet _ _ _ _ pkt1) by done. done.
  - rewrite !(decode_frame_packet _ _ _ _ pkt1) by done. done.
  - rewrite !(decode_frame_packet _ _ _ _ pkt1) by done. done.
Qed.
End processor.

(** ** The theorems at concrete pools *)

Module ProcessorSample.
(** Packets are bytes; empty frames do not decode; the consumer keeps a list. *)
Definition dec (s : bytes) : option byte := head s.
Definition log (l : list byte) (c : byte) : list byte := l ++ [c].
Definition two : Config := {| WorkerCount := 2 |}.

Lemma two_workers_reorder_witness : ∃ p, reachable (Some dec) (Some log) 8 two [] p ∧
  p_fed p = [str "a"; str "b"] ∧ p_stop p = NotRun ∧ p_consumer p = str "ba".
Proof. by apply (two_workers_reorder (Some dec) (Some log) 8 two [] (str "a") (str "b") "a"%byte "b"%byte); [by apply Nat.leb_le|..]. Defined.

Lemma start_after_stop_witness : ∃ p p', reachable (Some dec) (Some log) 8 two [] p ∧
  Returned ∈ p_callers p ∧ p_consumer p = [] ∧ steps (Some dec) (Some log) 8 two p p' ∧ p_consumer p' = str "a".
Proof. by apply (start_after_stop (Some dec) (Some log) 8 two [] (str "a") "a"%byte); [by apply Nat.leb_le|]. Defined.

Definition started : Processor := ready 0 [AtSelect; AtSelect] (new_processor (@nil byte)).

Lemma started_reachable : reachable (Some dec) (Some log) 8 two [] started.
Proof. apply (start_ready _ _ 8 two _ _ 2 0); [done..|apply steps_refl]. Qed.

Lemma frames_once_witness : NoDup (queued started ++ held started ++ p_pool started).
Proof. apply (frames_once (Some dec) (Some log) 8 two [] started), started_reachable. Defined.

Definition stopped : Processor := set_stop true Ran [Returned] (set_start true 0 [Exited; Exited] started).

Lemma stop_is_final_witness : all_exited stopped ∧ p_consumer stopped = [].
Proof.
  apply (stop_is_final (Some dec) (Some log) 8 two started stopped stopped); try done; [|apply steps_refl].
  eapply steps_step; [eapply steps_step; [eapply steps_step; [eapply steps_step; [apply steps_refl|]|]|]|].
  - apply step_stop.
  - apply step_worker. by apply (step_cancelled _ _ _ 0).
  - apply step_worker. by apply (step_cancelled _ _ _ 1).
  - apply (step_stopped _ _ _ _ (set_worker 1 Exited (set_worker 0 Exited (Stop started))) 0); [done|].
    by repeat constructor.
Defined.

Definition closed : Processor := set_input true [] [] started.

Lemma closed_input_drains_witness : worker_step (Some dec) (Some log) closed (set_worker 0 Exited closed) ∧
  work (set_worker 0 Exited closed) < work closed.
Proof.
  assert (worker_step (Some dec) (Some log) closed (set_worker 0 Exited closed)) as Hs by (by apply step_closed).
  split; [exact Hs|].
  refine (proj1 (closed_input_drains (Some dec) (Some log) 8 two [] closed _ _ _ _ _ _) _ Hs); try done; [|by apply Nat.leb_le].
  eapply steps_step; [apply started_reachable|]. by apply step_close.
Defined.

Definition fed : Processor := feed 0 [] (str "a") started.
Definition received : Processor := set_worker 0 (Holding 0) (set_input false [] [str "a"] fed).
Definition in_handler : Processor :=
  set_worker 0 (InHandler 0) (set_consumer (str "a") [str "a"] received).

Lemma in_handler_reachable : reachable (Some dec) (Some log) 8 two [] in_handler.
Proof.
  eapply steps_step; [eapply steps_step; [eapply steps_step; [apply started_reachable|]|]|].
  - by apply (step_feed_new _ _ _ _ started 0 (str "a")).
  - apply step_worker. by apply (step_receive _ _ fed 0 0 []).
  - apply step_worker. by apply (step_decode (Some dec) (Some log) received 0 0 {| fb_B := str "a"; fb_cap := 1 |}).
Qed.

Definition stopping : Processor := handler_stop 0 0 in_handler.

Lemma handler_stop_deadlocks_witness : p_stop stopping = Running ∧ Returned ∉ p_callers stopping.
Proof.
  apply (handler_stop_deadlocks (Some dec) (Some log) 8 two [] stopping stopping 0 0); [|done|apply steps_refl].
  eapply steps_step; [apply in_handler_reachable|]. by apply step_handler_stop.
Defined.
End ProcessorSample.
