(* ===== verification/SocketSession.v ===== *)
(** * Session state of a socket (src/socket/session/session.go)

    Atomic holders: a pointer to a snapshot, a number, and a value that may not
    have been stored yet.  Every operation is one atomic step, so a concurrent
    execution is a sequence of operations. *)

From S2P Require Import Prelude.

Section state.
Context {T : Type}.

(** [ptr] holds a pointer or nil. *)
Record State := { ptr : option T }.

Definition NewState (initial : option T) : State :=
  match initial with Some v => {| ptr := Some v |} | None => {| ptr := None |} end.
Definition Load (s : State) : option T := ptr s.
Definition Store (v : option T) (s : State) : State := {| ptr := v |}.
Definition Swap (v : option T) (s : State) : option T * State := (ptr s, {| ptr := v |}).

Inductive op := OpLoad | OpStore (v : option T) | OpSwap (v : option T).

(** What an operation writes, and what it returns. *)
Definition written (o : op) : option (option T) := match o with OpLoad => None | OpStore v | OpSwap v => Some v end.

Definition run_op (s : State) (o : op) : option (option T) * State :=
  match o with
  | OpLoad => (Some (Load s), s)
  | OpStore v => (None, Store v s)
  | OpSwap v => let '(old, s') := Swap v s in (Some old, s')
  end.

Fixpoint run (s : State) (os : list op) : list (option (option T)) * State :=
  match os with
  | [] => ([], s)
  | o :: os => let '(r, s1) := run_op s o in let '(rs, s2) := run s1 os in (r :: rs, s2)
  end.

(** The last value written before, or the initial one. *)
Definition latest (initial : option T) (os : list op) : option T := default initial (last (omap written os)).

Lemma latest_cons initial o os : latest initial (o :: os) = latest (default initial (written o)) os.
Proof.
  unfold latest. cbn. destruct (written o); cbn [default]; [|done].
  change (list_omap op (option T) written os) with (omap written os). rewrite last_cons.
  by destruct (last (omap written os)).
Qed.

(** An operation that reads returns the last value written before it, in any
    order of the operations of any number of goroutines. *)
Theorem reads_see_last_write initial (before after : list op) o v :
  o = OpLoad ∨ o = OpSwap v →
  (run (NewState initial) (before ++ o :: after)).1 !! length before = Some (Some (latest initial before)).
Proof.
  intros Ho. assert (NewState initial = {| ptr := initial |}) as -> by (by destruct initial).
  revert initial. induction before as [|b before IH]; intros initial.
  - cbn. destruct Ho as [-> | ->]; cbn; by destruct (run _ after).
  - cbn [app run length]. rewrite latest_cons.
    assert (run_op {| ptr := initial |} b = ((run_op {| ptr := initial |} b).1, {| ptr := default initial (written b) |})) as ->
      by (by destruct b).
    specialize (IH (default initial (written b))). by destruct (run _ (before ++ o :: after)).
Qed.
End state.
Arguments State : clear implicits.

(** ** The basic session *)

(** The token is an [atomic.Value], nil until the first store. *)
Record BasicSession := { sessionID : Z; token : option bytes }.

Definition new_session : BasicSession := {| sessionID := 0; token := None |}.
Definition SessionID (b : BasicSession) : Z := sessionID b.
Definition SetSessionID (id : Z) (b : BasicSession) : BasicSession := {| sessionID := id; token := token b |}.
Definition Token (b : BasicSession) : bytes := default [] (token b).
Definition SetToken (t : bytes) (b : BasicSession) : BasicSession := {| sessionID := sessionID b; token := Some t |}.

(** The two parts are independent and start empty. *)
Lemma basic_session id t b :
  SessionID (SetSessionID id b) = id ∧ Token (SetSessionID id b) = Token b ∧
  Token (SetToken t b) = t ∧ SessionID (SetToken t b) = SessionID b ∧
  SessionID new_session = 0%Z ∧ Token new_session = [].
Proof. done. Qed.
