(* ===== verification/SocketTraffic.v ===== *)
(** * Frames of a connector (src/socket/connector/connector.go, frame.go)

    What several goroutines that send write to one connection, and what the
    read loops of successive connections put into the channel of received
    frames. *)

From S2P Require Import Prelude GoLib SocketFrame.

#[local] Open Scope Z_scope.

(** ** Sending *)

Section sending.
Context (f : LengthPrefixedFramer).

(** [WriteFrame] as its two writes. *)
Definition frame_header (data : bytes) : bytes := order_put (ByteOrder f) (Z.of_nat (length data) mod 2 ^ 32) ++ Magic f.

Inductive sender := AtHeader (data : bytes) | AtPayload (data : bytes) | SentFrame.

Record traffic := { t_senders : list sender; t_wire : bytes }.

Definition write (i : nat) (next : sender) (w : bytes) (t : traffic) : traffic :=
  {| t_senders := <[i := next]> (t_senders t); t_wire := t_wire t ++ w |}.

(** A sender writes the header, then the payload; nothing keeps another one
    from writing in between. *)
Inductive write_step (t : traffic) : traffic → Prop :=
  | write_header i data : t_senders t !! i = Some (AtHeader data) → write_step t (write i (AtPayload data) (frame_header data) t)
  | write_payload i data : t_senders t !! i = Some (AtPayload data) → write_step t (write i SentFrame data t).

Inductive writes (t : traffic) : traffic → Prop :=
  | writes_none : writes t t
  | writes_more t1 t2 : writes t t1 → write_step t1 t2 → writes t t2.

Definition start_sending (ps : list bytes) : traffic := {| t_senders := map AtHeader ps; t_wire := [] |}.

Lemma frame_split data : (length (Magic f) <= 12)%nat → WriteFrame f data = Ok (frame_header data ++ data).
Proof. intros Hm. unfold WriteFrame, frame_header. destruct (16 <? _)%nat eqn:E; bools; [lia|]. by rewrite <- app_assoc. Qed.

(** Two goroutines that send at the same time can write both headers before
    both payloads: the receiver takes the header of the second frame for the
    payload of the first. *)
Theorem concurrent_sends_mixed (d1 d2 : bytes) :
  (length (Magic f) <= 12)%nat → Z.of_nat (length d1) <= MaxLength f → MaxLength f < 2 ^ 32 →
  ∃ t, writes (start_sending [d1; d2]) t ∧ t_senders t = [SentFrame; SentFrame] ∧
    ReadFrame f (t_wire t) =
      Ok (take (length d1) (frame_header d2 ++ d1 ++ d2), drop (length d1) (frame_header d2 ++ d1 ++ d2)).
Proof.
  intros Hm Hl HM. eexists. split; [|split].
  - eapply writes_more; [eapply writes_more; [eapply writes_more; [eapply writes_more; [apply writes_none|]|]|]|].
    + by apply (write_header _ 0 d1).
    + by apply (write_header _ 1 d2).
    + by apply (write_payload _ 0 d1).
    + by apply (write_payload _ 1 d2).
  - done.
  - cbn [write t_wire start_sending app]. rewrite <- !app_assoc.
    set (w := frame_header d2 ++ d1 ++ d2). assert (length (take (length d1) w) = length d1) as Hw.
    { rewrite length_take. unfold w. lens. }
    rewrite <- (take_drop (length d1) w) at 1. unfold frame_header at 1. rewrite <- Hw at 1. rewrite <- app_assoc.
    rewrite ReadFrame_header by (rewrite ?Hw; lia). rewrite Hw. destruct (_ <? _) eqn:E; bools; [lia|done].
Qed.
End sending.

(** ** Receiving *)

Section receiving.
Context {A : Type}.

Definition incoming_capacity : nat := 1024.

(** A read loop: before it looks at the context, in [Receive], with a frame to
    pass on, in its deferred function, or over. *)
Inductive loop_pc := AtCheck | Reading | Holding (a : A) | Deferred | Over.

(** A loop with the frames its connection carries: all, and those not read yet;
    and whether the connection was closed under it, or broke. *)
Record loop := { l_pc : loop_pc; l_rest : list A; l_all : list A; l_lost : bool }.

Record receiver := {
  r_loops : list loop;
  r_conn : option nat;                   (* the current connection *)
  r_incoming : list (nat * A);
  r_taken : list (nat * A);              (* received from the channel *)
  r_released : list (nat * A);           (* returned to the pool of buffers *)
  r_closed : bool
}.

Definition no_frames : receiver := {| r_loops := []; r_conn := None; r_incoming := []; r_taken := []; r_released := []; r_closed := false |}.

Definition set_loops (ls : list loop) (r : receiver) : receiver :=
  {| r_loops := ls; r_conn := r_conn r; r_incoming := r_incoming r; r_taken := r_taken r; r_released := r_released r; r_closed := r_closed r |}.
Definition set_loop (i : nat) (l : loop) (r : receiver) : receiver := set_loops (<[i := l]> (r_loops r)) r.
Definition set_current (c : option nat) (r : receiver) : receiver :=
  {| r_loops := r_loops r; r_conn := c; r_incoming := r_incoming r; r_taken := r_taken r; r_released := r_released r; r_closed := r_closed r |}.
Definition at_pc (p : loop_pc) (l : loop) : loop := {| l_pc := p; l_rest := l_rest l; l_all := l_all l; l_lost := l_lost l |}.
Definition lose (l : loop) : loop := {| l_pc := l_pc l; l_rest := l_rest l; l_all := l_all l; l_lost := true |}.

(** The connection [i] is closed, or breaks, or gives a frame that cannot be read. *)
Definition end_connection (i : nat) (r : receiver) : receiver := set_loops (alter lose i (r_loops r)) r.
Definition close_current (r : receiver) : receiver :=
  match r_conn r with Some i => set_current None (end_connection i r) | None => r end.

(** [Connect] closes the connection there is, puts a new one in its place and
    starts its loop. *)
Definition install (frames : list A) (r : receiver) : receiver :=
  let r := close_current r in
  set_current (Some (length (r_loops r)))
    (set_loops (r_loops r ++ [{| l_pc := AtCheck; l_rest := frames; l_all := frames; l_lost := false |}]) r).

(** [readLoop], one action at a time. [Receive] fails when there is nothing left
    to read, on a connection that was closed or is broken, and when the context
    is done. The deferred function takes the connection away if it still is the current
    one. *)
Inductive loop_step (i : nat) (l : loop) (r : receiver) : receiver → Prop :=
  | loop_done : l_pc l = AtCheck → r_closed r = true → loop_step i l r (set_loop i (at_pc Deferred l) r)
  | loop_receive : l_pc l = AtCheck → r_closed r = false → loop_step i l r (set_loop i (at_pc Reading l) r)
  | loop_frame a rest : l_pc l = Reading → l_rest l = a :: rest →
      loop_step i l r (set_loop i {| l_pc := Holding a; l_rest := rest; l_all := l_all l; l_lost := l_lost l |} r)
  | loop_error : l_pc l = Reading → l_rest l = [] ∨ l_lost l = true ∨ r_closed r = true →
      loop_step i l r (set_loop i (at_pc Deferred l) r)
  | loop_push a : l_pc l = Holding a → (length (r_incoming r) < incoming_capacity)%nat →
      loop_step i l r (set_loop i (at_pc AtCheck l)
        {| r_loops := r_loops r; r_conn := r_conn r; r_incoming := r_incoming r ++ [(i, a)]; r_taken := r_taken r; r_released := r_released r; r_closed := r_closed r |})
  | loop_release a : l_pc l = Holding a → r_closed r = true →
      loop_step i l r (set_loop i (at_pc Deferred l)
        {| r_loops := r_loops r; r_conn := r_conn r; r_incoming := r_incoming r; r_taken := r_taken r; r_released := r_released r ++ [(i, a)]; r_closed := r_closed r |})
  | loop_deferred : l_pc l = Deferred →
      loop_step i l r (set_loop i (at_pc Over l) (set_current (if bool_decide (r_conn r = Some i) then None else r_conn r) r)).

Definition take_frame (rest : list (nat * A)) (x : nat * A) (r : receiver) : receiver :=
  {| r_loops := r_loops r; r_conn := r_conn r; r_incoming := rest; r_taken := r_taken r ++ [x]; r_released := r_released r; r_closed := r_closed r |}.

(** [Close] cancels the context and closes the connection. *)
Definition shut (r : receiver) : receiver :=
  {| r_loops := r_loops (close_current r); r_conn := None; r_incoming := r_incoming r; r_taken := r_taken r; r_released := r_released r; r_closed := true |}.

Inductive receiver_move (r : receiver) : receiver → Prop :=
  | move_loop i l r' : r_loops r !! i = Some l → loop_step i l r r' → receiver_move r r'
  | move_connect frames : receiver_move r (install frames r)
  | move_disconnect : receiver_move r (close_current r)
  | move_break i : receiver_move r (end_connection i r)
  | move_close : receiver_move r (shut r)
  | move_take x rest : r_incoming r = x :: rest → receiver_move r (take_frame rest x r).

Inductive receiver_reach : receiver → Prop :=
  | rreach_new : receiver_reach no_frames
  | rreach_move r r' : receiver_reach r → receiver_move r r' → receiver_reach r'.

(** The frames of one connection in a list. *)
Definition of_conn (i : nat) (l : list (nat * A)) : list A := omap (λ x, if decide (x.1 = i) then Some x.2 else None) l.
Definition in_hand (l : loop) : list A := match l_pc l with Holding a => [a] | _ => [] end.

(** Where the frames of a connection are. *)
Definition account (i : nat) (r : receiver) (l : loop) : Prop :=
  of_conn i (r_taken r) ++ of_conn i (r_incoming r) ++ in_hand l ++ of_conn i (r_released r) ++ l_rest l = l_all l.

(** A loop leaves frames unread only for one of these reasons. *)
Definition excused (r : receiver) (l : loop) : Prop := l_rest l = [] ∨ l_lost l = true ∨ r_closed r = true.
Definition ended (l : loop) : Prop := l_pc l = Deferred ∨ l_pc l = Over.

Record receiver_inv (r : receiver) : Prop := {
  ri_account : ∀ i l, r_loops r !! i = Some l → account i r l;
  ri_known : ∀ x, x ∈ r_taken r ++ r_incoming r ++ r_released r → (x.1 < length (r_loops r))%nat;
  ri_capacity : (length (r_incoming r) <= incoming_capacity)%nat;
  ri_released : ∀ i l a, r_loops r !! i = Some l → a ∈ of_conn i (r_released r) → ended l;
  ri_closed : r_released r ≠ [] → r_closed r = true;
  ri_ended : ∀ i l, r_loops r !! i = Some l → ended l → excused r l
}.

Lemma of_conn_app i l k : of_conn i (l ++ k) = of_conn i l ++ of_conn i k.
Proof. apply omap_app. Qed.
Lemma of_conn_one i j a : of_conn i [(j, a)] = if decide (j = i) then [a] else [].
Proof. unfold of_conn. cbn. by destruct (decide (j = i)). Qed.

Lemma of_conn_new l n : (∀ x, x ∈ l → (x.1 < n)%nat) → of_conn n l = [].
Proof.
  induction l as [|x l IH]; intros Hl; [done|]. unfold of_conn in *. cbn. destruct (decide (x.1 = n)) as [E|].
  - specialize (Hl x ltac:(by left)). lia.
  - apply IH. intros y Hy. apply Hl. by right.
Qed.

(** A loop that has not ended has released nothing. *)
Lemma none_released r i l : receiver_inv r → r_loops r !! i = Some l → ~ ended l → of_conn i (r_released r) = [].
Proof.
  intros [_ _ _ Hr _ _] Hl Hp. destruct (of_conn i (r_released r)) as [|a k] eqn:E; [done|]. destruct Hp.
  apply (Hr i l a Hl). rewrite E. by left.
Qed.

(** The step of one loop touches only its own frames. *)
Lemma account_other (i j : nat) a (r : receiver) : i ≠ j →
  of_conn j (r_incoming r ++ [(i, a)]) = of_conn j (r_incoming r) ∧ of_conn j (r_released r ++ [(i, a)]) = of_conn j (r_released r).
Proof. intros Hij. rewrite !of_conn_app, of_conn_one, decide_False by done. by rewrite !app_nil_r. Qed.

(** A loop that goes on: its frames stay accounted for. *)
Lemma set_loop_inv i l l' r : receiver_inv r → r_loops r !! i = Some l → ~ ended l →
  in_hand l' ++ l_rest l' = in_hand l ++ l_rest l → l_all l' = l_all l → (ended l' → excused r l') →
  receiver_inv (set_loop i l' r).
Proof.
  intros Hinv Hi He Hfr Hall Hex. pose proof (none_released r i l Hinv Hi He) as Hnone. destruct Hinv as [I1 I2 I3 I4 I5 I6].
  constructor; cbn [set_loop set_loops r_loops r_taken r_incoming r_released r_closed]; try done.
  - intros j lj [[<- ->]|[Hne Hj]]%lookup_insert_cases; [|by apply I1]. specialize (I1 i l Hi).
    unfold account in *. cbn [set_loop set_loops r_taken r_incoming r_released]. rewrite Hnone in *. cbn [app] in *. by rewrite Hfr, Hall.
  - by rewrite length_insert.
  - intros j lj a [[<- ->]|[Hne Hj]]%lookup_insert_cases; [|by apply I4]. by rewrite Hnone, elem_of_nil.
  - intros j lj [[<- ->]|[Hne Hj]]%lookup_insert_cases; [by apply Hex|by apply (I6 j)].
Qed.

(** The frame in hand goes to the channel, or back to the pool. *)
Lemma push_inv i l a r : receiver_inv r → r_loops r !! i = Some l → l_pc l = Holding a → (length (r_incoming r) < incoming_capacity)%nat →
  receiver_inv (set_loop i (at_pc AtCheck l)
    {| r_loops := r_loops r; r_conn := r_conn r; r_incoming := r_incoming r ++ [(i, a)]; r_taken := r_taken r; r_released := r_released r; r_closed := r_closed r |}).
Proof.
  intros Hinv Hi Hp Hcap. pose proof (none_released r i l Hinv Hi ltac:(intros [?|?]; congruence)) as Hnone. destruct Hinv as [I1 I2 I3 I4 I5 I6].
  constructor; cbn [set_loop set_loops r_loops r_taken r_incoming r_released r_closed]; try done.
  - intros j lj [[<- ->]|[Hne Hj]]%lookup_insert_cases; unfold account; cbn [set_loop set_loops r_taken r_incoming r_released].
    + specialize (I1 i l Hi). unfold account, in_hand in *. rewrite Hp, Hnone in I1. cbn [at_pc l_pc l_rest l_all app] in *.
      rewrite of_conn_app, of_conn_one, decide_True, Hnone by done. by rewrite <- app_assoc.
    + destruct (account_other i j a r Hne) as [-> _]. by apply I1.
  - rewrite length_insert. intros x. rewrite !elem_of_app, list_elem_of_singleton.
    intros [?|[[?| ->]|?]]; [apply I2; set_solver..| |apply I2; set_solver]. by apply lookup_lt_Some in Hi.
  - rewrite length_app. cbn. lia.
  - intros j lj b [[<- ->]|[Hne Hj]]%lookup_insert_cases; [|by apply I4]. by rewrite Hnone, elem_of_nil.
  - intros j lj [[<- ->]|[Hne Hj]]%lookup_insert_cases; [by intros [?|?]|by apply (I6 j)].
Qed.

Lemma release_inv i l a r : receiver_inv r → r_loops r !! i = Some l → l_pc l = Holding a → r_closed r = true →
  receiver_inv (set_loop i (at_pc Deferred l)
    {| r_loops := r_loops r; r_conn := r_conn r; r_incoming := r_incoming r; r_taken := r_taken r; r_released := r_released r ++ [(i, a)]; r_closed := r_closed r |}).
Proof.
  intros Hinv Hi Hp Hc. pose proof (none_released r i l Hinv Hi ltac:(intros [?|?]; congruence)) as Hnone. destruct Hinv as [I1 I2 I3 I4 I5 I6].
  constructor; cbn [set_loop set_loops r_loops r_taken r_incoming r_released r_closed]; try done.
  - intros j lj [[<- ->]|[Hne Hj]]%lookup_insert_cases; unfold account; cbn [set_loop set_loops r_taken r_incoming r_released].
    + specialize (I1 i l Hi). unfold account, in_hand in *. rewrite Hp, Hnone in I1. cbn [at_pc l_pc l_rest l_all app] in *.
      by rewrite of_conn_app, of_conn_one, decide_True, Hnone by done.
    + destruct (account_other i j a r Hne) as [_ ->]. by apply I1.
  - rewrite length_insert. intros x. rewrite !elem_of_app, list_elem_of_singleton.
    intros [?|[?|[?| ->]]]; [apply I2; set_solver..|]. by apply lookup_lt_Some in Hi.
  - intros j lj b [[<- ->]|[Hne Hj]]%lookup_insert_cases; [by left|]. destruct (account_other i j a r Hne) as [_ ->]. by apply I4.
  - intros j lj [[<- ->]|[Hne Hj]]%lookup_insert_cases; [by right; right|]. intros He. by apply (I6 j).
Qed.

Lemma set_current_inv c r : receiver_inv r → receiver_inv (set_current c r).
Proof. intros []. by constructor. Qed.

Lemma loop_step_inv i l r r' : receiver_inv r → r_loops r !! i = Some l → loop_step i l r r' → receiver_inv r'.
Proof.
  intros Hinv Hi Hs. destruct Hs as [Hp Hc|Hp Hc|a rest Hp Hrest|Hp Hx|a Hp Hcap|a Hp Hc|Hp].
  - apply (set_loop_inv i l); [done|done|intros [?|?]; congruence|unfold in_hand; by rewrite Hp|done|by right; right].
  - apply (set_loop_inv i l); [done|done|intros [?|?]; congruence|unfold in_hand; by rewrite Hp|done|by intros [?|?]].
  - apply (set_loop_inv i l); [done|done|intros [?|?]; congruence|unfold in_hand; by rewrite Hp, Hrest|done|by intros [?|?]].
  - apply (set_loop_inv i l); [done|done|intros [?|?]; congruence|unfold in_hand; by rewrite Hp|done|by intros _].
  - by apply push_inv.
  - by apply release_inv.
  - change (receiver_inv (set_current (if bool_decide (r_conn r = Some i) then None else r_conn r) (set_loop i (at_pc Over l) r))).
    apply set_current_inv. destruct Hinv as [I1 I2 I3 I4 I5 I6].
    constructor; cbn [set_loop set_loops r_loops r_taken r_incoming r_released r_closed]; try done.
    + intros j lj [[<- ->]|[Hne Hj]]%lookup_insert_cases; [|by apply I1]. specialize (I1 i l Hi).
      unfold account, in_hand in *. by rewrite Hp in I1.
    + by rewrite length_insert.
    + intros j lj a [[<- ->]|[Hne Hj]]%lookup_insert_cases; [by right|by apply I4].
    + intros j lj [[<- ->]|[Hne Hj]]%lookup_insert_cases; [|by apply (I6 j)]. intros _. apply (I6 i l Hi). by left.
Qed.

Lemma end_connection_inv i r : receiver_inv r → receiver_inv (end_connection i r).
Proof.
  intros [I1 I2 I3 I4 I5 I6]. unfold end_connection.
  assert (∀ j lj, alter lose i (r_loops r) !! j = Some lj → ∃ l, r_loops r !! j = Some l ∧ (lj = l ∨ lj = lose l)) as Hcase.
  { intros j lj. destruct (decide (i = j)) as [<-|Hne]; [|rewrite list_lookup_alter_ne by done; eauto].
    rewrite list_lookup_alter_eq. destruct (r_loops r !! i) as [l|]; [|done]. intros [= <-]. eauto. }
  constructor; cbn [set_loops r_loops r_taken r_incoming r_released r_closed]; try done.
  - intros j lj Hj. destruct (Hcase j lj Hj) as (l & Hl & [->| ->]); apply (I1 j l Hl).
  - by rewrite length_alter.
  - intros j lj a Hj Ha. destruct (Hcase j lj Hj) as (l & Hl & [->| ->]); apply (I4 j l a Hl Ha).
  - intros j lj Hj He. destruct (Hcase j lj Hj) as (l & Hl & [->| ->]); [by apply (I6 j l)|by right; left].
Qed.

Lemma close_current_inv r : receiver_inv r → receiver_inv (close_current r).
Proof. intros Hr. unfold close_current. destruct (r_conn r); [|done]. by apply set_current_inv, end_connection_inv. Qed.

Lemma install_inv frames r : receiver_inv r → receiver_inv (install frames r).
Proof.
  intros Hr%close_current_inv. unfold install. apply set_current_inv. set (q := close_current r) in *. destruct Hr as [I1 I2 I3 I4 I5 I6].
  pose proof (of_conn_new (r_taken q ++ r_incoming q ++ r_released q) (length (r_loops q)) I2) as Hnew.
  rewrite !of_conn_app in Hnew. apply app_eq_nil in Hnew as [N1 N2]. apply app_eq_nil in N2 as [N2 N3].
  set (fresh := {| l_pc := AtCheck; l_rest := frames; l_all := frames; l_lost := false |}).
  assert (∀ i l, (r_loops q ++ [fresh]) !! i = Some l → r_loops q !! i = Some l ∨ i = length (r_loops q) ∧ l = fresh) as Hcase.
  { intros i l [Hl|[Hn Hl]]%lookup_app_Some; [by left|]. apply list_lookup_singleton_Some in Hl as [Hi <-]. right. split; [lia|done]. }
  constructor; cbn [set_loops r_loops r_taken r_incoming r_released r_closed]; try done.
  - intros i l [Hl|[-> ->]]%Hcase; [by apply I1|]. unfold account. cbn [set_loops r_taken r_incoming r_released]. by rewrite N1, N2, N3.
  - intros x Hx. rewrite length_app. specialize (I2 x Hx). cbn. lia.
  - intros i l a [Hl|[-> ->]]%Hcase; [by apply I4|]. by rewrite N3, elem_of_nil.
  - intros i l [Hl|[-> ->]]%Hcase; [by apply (I6 i)|]. by intros [?|?].
Qed.

Lemma receiver_move_inv r r' : receiver_inv r → receiver_move r r' → receiver_inv r'.
Proof.
  intros Hinv Hm. destruct Hm as [i l r' Hl Hs|frames| |i| |x rest Hx];
    [by eapply loop_step_inv|by apply install_inv|by apply close_current_inv|by apply end_connection_inv|..].
  - pose proof (close_current_inv r Hinv) as Hq. assert (r_taken (close_current r) = r_taken r ∧ r_incoming (close_current r) = r_incoming r ∧
      r_released (close_current r) = r_released r) as (E1 & E2 & E3) by (unfold close_current; by destruct (r_conn r)).
    unfold shut. rewrite <- E1, <- E2, <- E3. destruct Hq. constructor; try done. intros i l _ _. by right; right.
  - destruct Hinv as [I1 I2 I3 I4 I5 I6]. constructor; cbn [take_frame r_loops r_taken r_incoming r_released r_closed]; try done.
    + intros i l Hl. specialize (I1 i l Hl). unfold account in *. cbn [take_frame r_taken r_incoming r_released]. rewrite Hx in I1.
      change (x :: rest) with ([x] ++ rest) in I1. rewrite of_conn_app in I1. rewrite of_conn_app, <- app_assoc. rewrite <- app_assoc in I1. exact I1.
    + intros y Hy. apply I2. rewrite Hx. set_solver.
    + rewrite Hx in I3. cbn in I3. lia.
Qed.

Lemma receiver_reach_inv r : receiver_reach r → receiver_inv r.
Proof.
  induction 1 as [|r r' Hr IH Hm]; [|by eapply receiver_move_inv]. constructor; cbn; try done; try lia.
  intros x Hx. by apply not_elem_of_nil in Hx.
Qed.

(** What is in the channel can be taken. *)
Lemma drain r : ∃ r', rtc receiver_move r r' ∧ r_incoming r' = [] ∧ r_loops r' = r_loops r ∧ r_closed r' = r_closed r.
Proof.
  remember (r_incoming r) as inc eqn:Hinc. revert r Hinc. induction inc as [|x rest IH]; intros r Hinc; [by exists r|].
  destruct (IH (take_frame rest x r) eq_refl) as (r' & Hr & Hi & Hl & Hc). exists r'. split; [|done].
  eapply rtc_l; [|exact Hr]. by apply move_take.
Qed.

(** A loop that goes on. *)
Record goes_on (i : nat) (r : receiver) (l : loop) : Prop := {
  go_loop : r_loops r !! i = Some l;
  go_on : ~ ended l;
  go_open : r_closed r = false
}.

(** The frame in hand can be passed on. *)
Lemma empty_hand i r l : goes_on i r l →
  ∃ r' l', rtc receiver_move r r' ∧ goes_on i r' l' ∧ (l_pc l' = AtCheck ∨ l_pc l' = Reading) ∧ l_rest l' = l_rest l ∧ l_all l' = l_all l.
Proof.
  intros [Hi Hn Hc]. destruct (l_pc l) as [| |a| |] eqn:Hp;
    [exists r, l; split_and!; by auto|exists r, l; split_and!; by auto| |by destruct Hn; left|by destruct Hn; right].
  destruct (drain r) as (r1 & Hr & He & Hl & Hc1). rewrite <- Hl in Hi. eexists _, (at_pc AtCheck l). split.
  - eapply rtc_r; [exact Hr|]. eapply (move_loop _ i l); [done|]. apply (loop_push _ _ _ a); [done|]. rewrite He. unfold incoming_capacity. cbn. lia.
  - split; [|by auto]. split; [|by intros [?|?]|cbn; congruence]. cbn. apply list_lookup_insert_eq. by eapply lookup_lt_Some.
Qed.

(** A loop that reads can read everything. *)
Lemma read_on i r l : goes_on i r l →
  ∃ r' l', rtc receiver_move r r' ∧ goes_on i r' l' ∧ in_hand l' = [] ∧ l_rest l' = [] ∧ l_all l' = l_all l.
Proof.
  remember (l_rest l) as rest eqn:Hrest. revert r l Hrest. induction rest as [|a rest IH]; intros r l Hrest Hg;
    destruct (empty_hand i r l Hg) as (r1 & l1 & Hr1 & [Hi Hn Hc] & Hp & Hl & Ha); rewrite <- Hrest in Hl.
  { exists r1, l1. split_and!; try done. unfold in_hand. by destruct Hp as [-> | ->]. }
  assert (∃ r2 l2, rtc receiver_move r1 r2 ∧ goes_on i r2 l2 ∧ l_pc l2 = Reading ∧ l_rest l2 = a :: rest ∧ l_all l2 = l_all l) as (r2 & l2 & Hr2 & [Hi2 Hn2 Hc2] & Hp2 & Hl2 & Ha2).
  { destruct Hp as [Hp|Hp]; [|by exists r1, l1]. exists (set_loop i (at_pc Reading l1) r1), (at_pc Reading l1). split_and!; try done.
    - eapply rtc_once, (move_loop _ i l1); [done|]. by apply loop_receive.
    - split; [|by intros [?|?]|done]. cbn. apply list_lookup_insert_eq. by eapply lookup_lt_Some. }
  set (l3 := {| l_pc := Holding a; l_rest := rest; l_all := l_all l2; l_lost := l_lost l2 |}).
  destruct (IH (set_loop i l3 r2) l3) as (r4 & l4 & Hr4 & ?); [done| |].
  { split; [|by intros [?|?]|done]. cbn. apply list_lookup_insert_eq. by eapply lookup_lt_Some. }
  exists r4, l4. split; [|by rewrite <- Ha2]. etransitivity; [exact Hr1|]. etransitivity; [exact Hr2|].
  eapply rtc_l; [|exact Hr4]. eapply (move_loop _ i l2); [done|]. by apply loop_frame.
Qed.


(** A frame of a connection that has been replaced can be taken after a frame
    of the connection that replaced it. *)
Theorem stale_frame (a b : A) : ∃ r, receiver_reach r ∧ r_taken r = [(1%nat, b); (0%nat, a)] ∧ r_conn r = Some 1%nat.
Proof.
  pose proof rreach_new as H0.
  eapply rreach_move in H0; [|apply (move_connect _ [a])].
  eapply rreach_move in H0; [|eapply (move_loop _ 0); [done|]; by apply loop_receive].
  eapply rreach_move in H0; [|eapply (move_loop _ 0); [done|]; by eapply (loop_frame _ _ _ a [])].
  eapply rreach_move in H0; [|apply (move_connect _ [b])].
  eapply rreach_move in H0; [|eapply (move_loop _ 1); [done|]; by apply loop_receive].
  eapply rreach_move in H0; [|eapply (move_loop _ 1); [done|]; by eapply (loop_frame _ _ _ b [])].
  eapply rreach_move in H0; [|eapply (move_loop _ 1); [done|]; apply (loop_push _ _ _ b); [done|cbn; unfold incoming_capacity; lia]].
  eapply rreach_move in H0; [|eapply (move_loop _ 0); [done|]; apply (loop_push _ _ _ a); [done|cbn; unfold incoming_capacity; lia]].
  eapply rreach_move in H0; [|by eapply move_take].
  eapply rreach_move in H0; [|by eapply move_take].
  eexists. split; [exact H0|done].
Qed.
End receiving.

Module TrafficSample.
Lemma concurrent_sends_mixed_witness : ∃ t, writes vt01 (start_sending [str "hello"; str "bye"]) t ∧
  ReadFrame vt01 (t_wire t) = Ok ([x03; x00; x00; x00; "V"%byte], str "T01hellobye").
Proof.
  destruct (concurrent_sends_mixed vt01 (str "hello") (str "bye")) as (t & Hw & _ & Hr); [vm_compute; lia|vm_compute; congruence|vm_compute; congruence|].
  exists t. split; [exact Hw|]. exact Hr.
Defined.

(** A connection with two frames, the first of them received, after five steps. *)
Definition first_received : receiver :=
  {| r_loops := [{| l_pc := AtCheck; l_rest := [2]; l_all := [1; 2]; l_lost := false |}]; r_conn := Some 0%nat; r_incoming := [];
     r_taken := [(0%nat, 1)]; r_released := []; r_closed := false |}.

Lemma first_received_reach : receiver_reach first_received.
Proof.
  pose proof (rreach_new (A := Z)) as H0.
  eapply rreach_move in H0; [|apply (move_connect _ [1; 2])].
  eapply rreach_move in H0; [|eapply (move_loop _ 0); [done|]; by apply loop_receive].
  eapply rreach_move in H0; [|eapply (move_loop _ 0); [done|]; by eapply (loop_frame _ _ _ 1 [2])].
  eapply rreach_move in H0; [|eapply (move_loop _ 0); [done|]; apply (loop_push _ _ _ 1); [done|cbn; unfold incoming_capacity; lia]].
  eapply rreach_move in H0; [|by eapply move_take].
  exact H0.
Qed.

End TrafficSample.
