(* ===== verification/OtelContext.v ===== *)
(** * W3C trace context (src/otel/w3c.go, src/otel/carrier.go)

    Trace and span identifiers, the traceparent header, and the injection and
    extraction of a span context through a carrier of headers. *)

From S2P Require Import Prelude GoLib GoText.

#[local] Open Scope Z_scope.

(** ** Hexadecimal text

    [hexkit] of the foundation module: an interface with its laws. *)
Class Hex := {
  hex_Encode : bytes → bytes;
  hex_Decode : bytes → option bytes;
  FromHexChar : byte → option Z
}.

Class HexLaws `{Hex} : Prop := {
  Encode_length : ∀ s, length (hex_Encode s) = (2 * length s)%nat;
  Decode_Encode : ∀ s, hex_Decode (hex_Encode s) = Some s;
  Encode_byte : ∀ c, ∃ h l, hex_Encode [c] = [h; l] ∧
    FromHexChar h = Some (bz c / 16) ∧ FromHexChar l = Some (bz c mod 16);
  FromHexChar_range : ∀ c v, FromHexChar c = Some v → 0 <= v < 16;
  Encode_graphic : ∀ s, Forall (λ c, 33 <= bz c < 128) (hex_Encode s);
  Decode_length : ∀ s t, hex_Decode s = Some t → length s = (2 * length t)%nat
}.

(** ** Span contexts *)

Record SpanContext := {
  traceID : bytes;       (* 16 bytes *)
  spanID : bytes;        (* 8 bytes *)
  traceFlags : byte;
  traceState : bytes;
  remote : bool
}.

Inductive otel_error := ErrInvalidTraceParent | ErrInvalidTraceID | ErrInvalidSpanID | ErrZeroTraceID | ErrZeroSpanID.

Definition NilTraceID : bytes := replicate 16 x00.
Definition NilSpanID : bytes := replicate 8 x00.

Definition TraceID_IsValid (t : bytes) : bool := negb (bytes_eqb t NilTraceID).
Definition SpanID_IsValid (s : bytes) : bool := negb (bytes_eqb s NilSpanID).

Definition SpanContext_IsValid (sc : SpanContext) : bool :=
  TraceID_IsValid (traceID sc) && SpanID_IsValid (spanID sc).

Definition IsSampled (f : byte) : bool := Z.land (bz f) 1 =? 1.

Definition NewSpanContext (t s : bytes) (f : byte) (state : bytes) (rem : bool) : SpanContext :=
  {| traceID := t; spanID := s; traceFlags := f; traceState := state; remote := rem |}.

Section context.
Context {HX : Hex}.

Definition ParseTraceID (s : bytes) : result otel_error bytes :=
  if negb (length s =? 32)%nat then Err ErrInvalidTraceID
  else match hex_Decode s with
       | None => Err ErrInvalidTraceID
       | Some id => if TraceID_IsValid id then Ok id else Err ErrZeroTraceID
       end.

Definition ParseSpanID (s : bytes) : result otel_error bytes :=
  if negb (length s =? 16)%nat then Err ErrInvalidSpanID
  else match hex_Decode s with
       | None => Err ErrInvalidSpanID
       | Some id => if SpanID_IsValid id then Ok id else Err ErrZeroSpanID
       end.

Definition TraceID_String (t : bytes) : bytes := hex_Encode t.
Definition SpanID_String (s : bytes) : bytes := hex_Encode s.
Definition TraceFlags_String (f : byte) : bytes := hex_Encode [f].

Definition TraceParent (sc : SpanContext) : bytes :=
  if negb (SpanContext_IsValid sc) then []
  else str "00-" ++ hex_Encode (traceID sc) ++ str "-" ++ hex_Encode (spanID sc) ++ str "-" ++
       hex_Encode [traceFlags sc].

(** [header[a:b]]. *)
Definition slice (h : bytes) (a b : nat) : bytes := take (b - a) (drop a h).

Definition is_dash (o : option byte) : bool := match o with Some c => c =b x2d | None => false end.

Definition ParseTraceParent (header : bytes) : result otel_error SpanContext :=
  let h : list byte := TrimSpace header in
  if (length h <? 55)%nat then Err ErrInvalidTraceParent
  else if negb (is_dash (h !! 2%nat)) || negb (is_dash (h !! 35%nat)) || negb (is_dash (h !! 52%nat))
  then Err ErrInvalidTraceParent
  else
    let version := slice h 0 2 in
    if bytes_eqb version (str "ff") then Err ErrInvalidTraceParent
    else if bytes_eqb version (str "00") && negb (length h =? 55)%nat then Err ErrInvalidTraceParent
    else
      match hex_Decode (slice h 3 35), hex_Decode (slice h 36 52) with
      | Some t, Some s =>
          if negb (TraceID_IsValid t) || negb (SpanID_IsValid s) then Err ErrInvalidTraceParent
          else
            match h !! 53%nat ≫= FromHexChar, h !! 54%nat ≫= FromHexChar with
            | Some f1, Some f2 =>
                Ok {| traceID := t; spanID := s; traceFlags := zb (Z.lor (Z.shiftl f1 4) f2);
                      traceState := []; remote := true |}
            | _, _ => Err ErrInvalidTraceParent
            end
      | _, _ => Err ErrInvalidTraceParent
      end.
End context.

(** ** Carriers

    Headers of a request or of [net/http]: an interface, implemented in [OtelCarrier]. *)
Class TextMapCarrier := {
  carrier : Type;
  Get : carrier → bytes → bytes;
  Set_ : carrier → bytes → bytes → carrier
}.

Class CarrierLaws `{TextMapCarrier} : Prop := {
  Get_Set : ∀ c k v, Get (Set_ c k v) k = v;
  Get_Set_other : ∀ c v, Get (Set_ c (str "tracestate") v) (str "traceparent") = Get c (str "traceparent") ∧
                          Get (Set_ c (str "traceparent") v) (str "tracestate") = Get c (str "tracestate")
}.

Section propagation.
Context {HX : Hex} {CR : TextMapCarrier}.

Definition HeaderTraceParent : bytes := str "traceparent".
Definition HeaderTraceState : bytes := str "tracestate".

(** [None]: the context carries no span. *)
Definition Inject (span : option SpanContext) (c : carrier) : carrier :=
  match span with
  | None => c
  | Some sc =>
      if negb (SpanContext_IsValid sc) then c
      else
        let c1 := Set_ c HeaderTraceParent (TraceParent sc) in
        if bytes_eqb (traceState sc) [] then c1 else Set_ c1 HeaderTraceState (traceState sc)
  end.

Definition Extract (c : carrier) : option SpanContext :=
  let parentHeader := Get c HeaderTraceParent in
  if bytes_eqb parentHeader [] then None
  else
    match ParseTraceParent parentHeader with
    | Err _ => None
    | Ok sc =>
        let stateHeader := Get c HeaderTraceState in
        Some (if bytes_eqb stateHeader [] then sc
              else {| traceID := traceID sc; spanID := spanID sc; traceFlags := traceFlags sc;
                      traceState := stateHeader; remote := remote sc |})
    end.
End propagation.

(** ** The header *)

Lemma slice_app (a b c : bytes) n m :
  n = length a → m = (length a + length b)%nat → slice (a ++ b ++ c) n m = b.
Proof.
  intros -> ->. unfold slice. rewrite drop_app_exact.
  replace (length a + length b - length a)%nat with (length b) by lia. apply take_app_exact.
Qed.

Lemma lookup_at (a b : bytes) c n : n = length a → (a ++ c :: b) !! n = Some c.
Proof. intros ->. by apply list_lookup_middle. Qed.

Lemma flags_join c : zb (Z.lor (Z.shiftl (bz c / 16) 4) (bz c mod 16)) = c.
Proof.
  pose proof (bz_range c). rewrite Z.lor_comm, lor_shiftl_add by (try apply Z.mod_pos_bound; lia).
  rewrite <- (zb_bz c) at 3. f_equal. change (2 ^ 4) with 16. pose proof (Z.div_mod (bz c) 16). lia.
Qed.

Section theorems.
Context `{HexLaws}.

(** A header of version [v] for given identifiers, followed by [more]. *)
Definition header_text (v1 v2 : byte) (t s : bytes) (f : byte) (more : bytes) : bytes :=
  v1 :: v2 :: x2d :: hex_Encode t ++ [x2d] ++ hex_Encode s ++ [x2d] ++ hex_Encode [f] ++ more.

Definition header_version_ok (v1 v2 : byte) (more : bytes) : Prop :=
  [v1; v2] ≠ str "ff" ∧ ([v1; v2] = str "00" → more = []).

Lemma parse_header_text v1 v2 t s f more :
  TrimSpace (header_text v1 v2 t s f more) = header_text v1 v2 t s f more →
  length t = 16%nat → length s = 8%nat → TraceID_IsValid t = true → SpanID_IsValid s = true →
  header_version_ok v1 v2 more →
  ParseTraceParent (header_text v1 v2 t s f more) =
    Ok {| traceID := t; spanID := s; traceFlags := f; traceState := []; remote := true |}.
Proof.
  intros Htrim Ht Hs Vt Vs [Vff V00]. unfold ParseTraceParent. rewrite Htrim. cbv zeta.
  destruct (Encode_byte f) as (hh & ll & Hf & F1 & F2).
  pose proof (Encode_length t) as Lt. pose proof (Encode_length s) as Ls. rewrite Ht in Lt. rewrite Hs in Ls.
  unfold header_text. rewrite Hf. set (T := hex_Encode t) in *. set (S_ := hex_Encode s) in *.
  change (v1 :: v2 :: x2d :: T ++ [x2d] ++ S_ ++ [x2d] ++ [hh; ll] ++ more)
    with ([v1; v2; x2d] ++ T ++ [x2d] ++ S_ ++ [x2d] ++ [hh; ll] ++ more).
  set (h := [v1; v2; x2d] ++ _).
  assert (Hlen : length h = (55 + length more)%nat) by (unfold h; rewrite !length_app; simpl; lia).
  assert (L35 : h !! 35%nat = Some x2d).
  { unfold h. rewrite app_assoc. apply lookup_at. rewrite length_app. simpl. lia. }
  assert (L52 : h !! 52%nat = Some x2d).
  { unfold h. rewrite !app_assoc, <- (app_assoc _ [hh; ll]), <- (app_assoc _ [x2d]). apply lookup_at.
    rewrite !length_app. simpl. lia. }
  assert (L53 : h !! 53%nat = Some hh).
  { unfold h. rewrite !app_assoc, <- (app_assoc _ [hh; ll]). apply lookup_at.
    rewrite !length_app. simpl. lia. }
  assert (L54 : h !! 54%nat = Some ll).
  { unfold h. change ([hh; ll] ++ more) with ([hh] ++ ll :: more). rewrite !app_assoc. apply lookup_at.
    rewrite !length_app. simpl. lia. }
  assert (ST : slice h 3 35 = T) by (apply slice_app; simpl; lia).
  assert (SS : slice h 36 52 = S_).
  { unfold h. rewrite (app_assoc [_; _; _]), (app_assoc (_ ++ T)).
    apply slice_app; rewrite !length_app; simpl; lia. }
  rewrite L35, L52, L53, L54, ST, SS, Hlen. unfold T, S_. rewrite !Decode_Encode, Vt, Vs. simpl.
  rewrite F1, F2, flags_join.
  destruct (bytes_eqb _ (str "ff")) eqn:Eff; bools; [done|].
  destruct (bytes_eqb _ (str "00")) eqn:E00; bools; [|done].
  rewrite (V00 E00). done.
Qed.

Definition well_formed (sc : SpanContext) : Prop :=
  length (traceID sc) = 16%nat ∧ length (spanID sc) = 8%nat ∧ SpanContext_IsValid sc = true.

Lemma header_trim v1 v2 t s f :
  graphic v1 → TrimSpace (header_text v1 v2 t s f []) = header_text v1 v2 t s f [].
Proof.
  intros Hv. unfold header_text. rewrite app_nil_r. destruct (Encode_byte f) as (hh & ll & Hf & _ & _).
  pose proof (Encode_graphic [f]) as HG. rewrite Hf in *.
  change (v1 :: v2 :: x2d :: hex_Encode t ++ [x2d] ++ hex_Encode s ++ [x2d] ++ [hh; ll])
    with (v1 :: (v2 :: x2d :: hex_Encode t ++ [x2d] ++ hex_Encode s ++ [x2d] ++ [hh] ++ [ll])).
  rewrite !app_assoc, !app_comm_cons. apply TrimSpace_graphic; [done|].
  apply Forall_cons in HG as [_ HG]. by apply Forall_cons in HG as [HG _].
Qed.

Lemma TraceParent_text sc :
  SpanContext_IsValid sc = true →
  TraceParent sc = header_text x30 x30 (traceID sc) (spanID sc) (traceFlags sc) [].
Proof. intros HV. unfold TraceParent. rewrite HV. unfold header_text. by rewrite app_nil_r. Qed.

Lemma parse_TraceParent sc : well_formed sc →
  ParseTraceParent (TraceParent sc) =
    Ok {| traceID := traceID sc; spanID := spanID sc; traceFlags := traceFlags sc;
          traceState := []; remote := true |}.
Proof.
  intros (H1 & H2 & HV). rewrite TraceParent_text by done. unfold SpanContext_IsValid in HV. bools.
  apply parse_header_text; try done. by apply header_trim.
Qed.

(** The traceparent of a valid span context has 55 bytes and parses back to
    the same identifiers and flags. *)
Theorem traceparent_roundtrip (sc : SpanContext) (Hwf : well_formed sc) :
  length (TraceParent sc) = 55%nat ∧
  ParseTraceParent (TraceParent sc) =
    Ok {| traceID := traceID sc; spanID := spanID sc; traceFlags := traceFlags sc;
          traceState := []; remote := true |}.
Proof.
  split; [|by apply parse_TraceParent]. destruct Hwf as (H1 & H2 & HV).
  rewrite TraceParent_text by done. unfold header_text.
  autorewrite with golen. rewrite !Encode_length, H1, H2. reflexivity.
Qed.

(** What the parser accepts identifies a span: the identifiers have their
    lengths and are not all zeros, and the context is marked remote. *)
Theorem traceparent_sound (h : bytes) (sc : SpanContext) (Hp : ParseTraceParent h = Ok sc) :
  well_formed sc ∧ remote sc = true ∧ traceState sc = [].
Proof.
  unfold ParseTraceParent in Hp. cbv zeta in Hp. set (k := TrimSpace h) in *.
  destruct (length k <? 55)%nat eqn:El; [done|]. bools.
  destruct (_ || _ || _); [done|]. destruct (bytes_eqb _ (str "ff")); [done|].
  destruct (_ && _); [done|].
  destruct (hex_Decode (slice k 3 35)) as [t|] eqn:Et; [|done].
  destruct (hex_Decode (slice k 36 52)) as [s|] eqn:Es; [|done].
  destruct (negb (TraceID_IsValid t) || _) eqn:Ev; [done|]. bools.
  destruct (_ ≫= FromHexChar) as [f1|]; [|done]. destruct (_ ≫= FromHexChar) as [f2|]; [|done].
  injection Hp as <-. apply Decode_length in Et, Es. unfold slice in Et, Es.
  rewrite length_take, length_drop in Et, Es. split; [|done].
  unfold well_formed, SpanContext_IsValid. simpl. split; [lia|]. split; [lia|].
  by apply andb_true_iff.
Qed.

(** Only the version "ff" is refused: any other two characters are taken,
    hexadecimal or not, as long as the first is not a space. *)
Theorem version_not_validated (v1 v2 : byte) (sc : SpanContext) (Hwf : well_formed sc)
  (Hg : graphic v1) (Hff : [v1; v2] ≠ str "ff") :
  ParseTraceParent (header_text v1 v2 (traceID sc) (spanID sc) (traceFlags sc) []) =
    Ok {| traceID := traceID sc; spanID := spanID sc; traceFlags := traceFlags sc;
          traceState := []; remote := true |}.
Proof.
  destruct Hwf as (H1 & H2 & HV). unfold SpanContext_IsValid in HV. bools.
  apply parse_header_text; try done. by apply header_trim.
Qed.

(** What is extracted from a carrier after an injection. *)
Lemma extract_injected `{CarrierLaws} (sc : SpanContext) (c : carrier) (Hwf : well_formed sc) :
  Extract (Inject (Some sc) c) =
    Some {| traceID := traceID sc; spanID := spanID sc; traceFlags := traceFlags sc;
            traceState := if bytes_eqb (traceState sc) [] then Get c HeaderTraceState else traceState sc; remote := true |}.
Proof.
  pose proof (parse_TraceParent sc Hwf) as Hp. pose proof Hwf as (_ & _ & HV).
  assert (TraceParent sc ≠ []) as Hne by (by rewrite TraceParent_text).
  unfold Inject. rewrite HV. simpl. unfold Extract, HeaderTraceParent, HeaderTraceState in *.
  destruct (bytes_eqb (traceState sc) []) eqn:Es; bools.
  - rewrite Get_Set, (proj2 (Get_Set_other _ _)). cbv zeta.
    destruct (bytes_eqb (TraceParent sc) []) eqn:E; bools; [done|]. rewrite Hp.
    destruct (bytes_eqb (Get c _) []) eqn:E2; bools; [by rewrite E2|done].
  - rewrite (proj1 (Get_Set_other _ _)), !Get_Set. cbv zeta.
    destruct (bytes_eqb (TraceParent sc) []) eqn:E; bools; [done|]. rewrite Hp.
    destruct (bytes_eqb (traceState sc) []) eqn:E2; bools; [done|]. done.
Qed.

(** C23: what is injected is extracted: through any carrier that keeps its
    headers, the receiver gets the identifiers and flags of the sender's span,
    marked remote, and its trace state; a span without a trace state leaves the
    one the carrier had before. *)
Theorem inject_extract `{CarrierLaws} (sc : SpanContext) (c : carrier) (Hwf : well_formed sc) :
  Extract (Inject (Some sc) c) =
    Some {| traceID := traceID sc; spanID := spanID sc; traceFlags := traceFlags sc;
            traceState := if bytes_eqb (traceState sc) [] then Get c HeaderTraceState else traceState sc; remote := true |}.
Proof. by apply extract_injected. Qed.
End theorems.

(** ** Lowercase hexadecimal, and the theorems at a concrete context *)

Module ContextSample.
Definition hex_chars : bytes := str "0123456789abcdef".

Definition nibble (n : Z) : byte := default x00 (hex_chars !! Z.to_nat n).

Definition char_value (c : byte) : option Z :=
  if between x30 x39 c then Some (bz c - 48)
  else if between x61 x66 c then Some (bz c - 87)
  else if between x41 x46 c then Some (bz c - 55)
  else None.

Fixpoint encode (s : bytes) : bytes :=
  match s with [] => [] | c :: s' => nibble (bz c / 16) :: nibble (bz c mod 16) :: encode s' end.

Fixpoint decode (s : bytes) : option bytes :=
  match s with
  | [] => Some []
  | h :: l :: s' =>
      a ← char_value h; b ← char_value l; t ← decode s'; Some (zb (a * 16 + b) :: t)
  | _ => None
  end.

Definition lowercase : Hex := {| hex_Encode := encode; hex_Decode := decode; FromHexChar := char_value |}.

Lemma encode_one c : char_value (nibble (bz c / 16)) = Some (bz c / 16) ∧
  char_value (nibble (bz c mod 16)) = Some (bz c mod 16) ∧
  graphic (nibble (bz c / 16)) ∧ graphic (nibble (bz c mod 16)).
Proof. unfold graphic. destruct c; vm_compute; repeat split; discriminate. Qed.

Lemma decode_length s t : decode s = Some t → length s = (2 * length t)%nat.
Proof.
  remember (length s) as n eqn:En. revert s t En.
  induction n as [n IH] using lt_wf_ind. intros [|h [|l s]] t -> Hd; simpl in Hd; simplify_eq; [done|].
  destruct (char_value h) as [a|]; [|done]. destruct (char_value l) as [b|]; [|done]. simpl in Hd.
  destruct (decode s) as [u|] eqn:Eu; simpl in Hd; [|done]. injection Hd as <-.
  specialize (IH (length s) ltac:(simpl; lia) s u eq_refl Eu). simpl. lia.
Qed.

Lemma lowercase_laws : HexLaws (H := lowercase).
Proof.
  constructor; simpl.
  - induction s as [|c s IH]; simpl; [done|]. rewrite IH. lia.
  - induction s as [|c s IH]; simpl; [done|].
    destruct (encode_one c) as (H1 & H2 & _ & _). rewrite H1, H2. simpl. rewrite IH. simpl.
    pose proof (Z.div_mod (bz c) 16 ltac:(lia)) as Hd.
    replace (bz c / 16 * 16 + bz c mod 16) with (bz c) by lia. by rewrite zb_bz.
  - intros c. destruct (encode_one c) as (H1 & H2 & _ & _). eauto 10.
  - intros c v. unfold char_value, between. change (bz x30) with 48. change (bz x39) with 57.
    change (bz x61) with 97. change (bz x66) with 102. change (bz x41) with 65. change (bz x46) with 70.
    repeat case_match; bools; intros; simplify_eq; lia.
  - induction s as [|c s IH]; simpl; [constructor|].
    destruct (encode_one c) as (_ & _ & H1 & H2). repeat constructor; try apply H1; try apply H2. done.
  - apply decode_length.
Qed.

#[local] Existing Instance lowercase.
#[local] Existing Instance lowercase_laws.

Definition sample : SpanContext :=
  {| traceID := map zb [75; 249; 47; 53; 119; 179; 77; 166; 163; 206; 146; 157; 14; 14; 71; 54];
     spanID := map zb [0; 240; 103; 170; 11; 169; 2; 183]; traceFlags := x01;
     traceState := str "vendor=1"; remote := false |}.

Lemma sample_ok : well_formed sample.
Proof. repeat split. Qed.

Example sample_text :
  TraceParent sample = str "00-4bf92f3577b34da6a3ce929d0e0e4736-00f067aa0ba902b7-01".
Proof. vm_compute. reflexivity. Qed.

Lemma traceparent_roundtrip_witness :
  length (TraceParent sample) = 55%nat ∧ ∃ sc, ParseTraceParent (TraceParent sample) = Ok sc.
Proof.
  destruct (traceparent_roundtrip sample sample_ok) as [H1 H2].
  split; [exact H1|]. eexists. exact H2.
Defined.

Lemma traceparent_sound_witness :
  ∃ sc, ParseTraceParent (str "cc-4bf92f3577b34da6a3ce929d0e0e4736-00f067aa0ba902b7-01-what") = Ok sc ∧
        well_formed sc.
Proof.
  eexists. assert (E : ParseTraceParent
    (str "cc-4bf92f3577b34da6a3ce929d0e0e4736-00f067aa0ba902b7-01-what") =
    Ok {| traceID := traceID sample; spanID := spanID sample; traceFlags := x01; traceState := [];
          remote := true |}) by (vm_compute; reflexivity).
  split; [exact E|]. exact (proj1 (traceparent_sound _ _ E)).
Defined.

Lemma version_not_validated_witness :
  ∃ sc, ParseTraceParent (str "zz-4bf92f3577b34da6a3ce929d0e0e4736-00f067aa0ba902b7-01") = Ok sc.
Proof.
  eexists.
  replace (str "zz-4bf92f3577b34da6a3ce929d0e0e4736-00f067aa0ba902b7-01")
    with (header_text x7a x7a (traceID sample) (spanID sample) (traceFlags sample) [])
    by (vm_compute; reflexivity).
  refine (version_not_validated x7a x7a sample sample_ok _ _);
    [vm_compute; split; [discriminate|reflexivity]|discriminate].
Defined.

(** A map of headers as carrier. *)
#[local] Instance header_map : TextMapCarrier :=
  {| carrier := gmap bytes bytes; Get c k := default [] (c !! k); Set_ c k v := <[k := v]> c |}.

#[local] Instance header_map_laws : CarrierLaws.
Proof.
  constructor; simpl.
  - intros c k v. by rewrite lookup_insert_eq.
  - intros c v. split; by rewrite lookup_insert_ne by discriminate.
Qed.

Lemma inject_extract_witness :
  ∃ sc, Extract (Inject (Some sample) ∅) = Some sc ∧ traceState sc = str "vendor=1".
Proof.
  eexists. split; [exact (inject_extract sample ∅ sample_ok)|reflexivity].
Defined.
End ContextSample.
