(* ===== verification/OtelCarrier.v ===== *)
(** * Carriers and fresh identifiers (src/otel/carrier.go, src/otel/w3c.go)

    The two carriers of the package, over the header map of net/http and over a
    request of the aoni module, as implementations of the interface
    [TextMapCarrier] that injection and extraction use; and the generators of
    trace and span identifiers. *)

From S2P Require Import Prelude GoLib GoText OtelContext.

#[local] Open Scope Z_scope.

(** ** The header map of net/http

    A map that has been made: an assignment to a nil map panics. *)

Definition HTTPHeaderCarrier : TextMapCarrier :=
  {| carrier := Header; Get := Header_Get; Set_ := Header_Set |}.

(** [ord] is the order of the [range] over the map. *)
Definition HTTPHeaderCarrier_Keys (ord : range_order) (c : Header) : list bytes := map fst (ord c).

Lemma HTTPHeaderCarrier_laws : @CarrierLaws HTTPHeaderCarrier.
Proof.
  constructor; [exact Header_Get_Set|]. intros c v. cbn [Get Set_ HTTPHeaderCarrier].
  split; apply Header_Get_Set_ne; vm_compute; discriminate.
Qed.

(** ** The request of the aoni module

    The interface of a request, and what a carrier relies on: a header that is
    set is read back, and setting one of the two leaves the other. *)
Class Requests := {
  request : Type;
  req_Header : request → bytes → bytes;
  req_SetHeader : request → bytes → bytes → request;
  req_Headers : request → list (bytes * bytes)
}.

Class RequestLaws `{Requests} : Prop := {
  Header_SetHeader : ∀ r k v, req_Header (req_SetHeader r k v) k = v;
  Header_SetHeader_other : ∀ r v,
    req_Header (req_SetHeader r (str "tracestate") v) (str "traceparent") = req_Header r (str "traceparent") ∧
    req_Header (req_SetHeader r (str "traceparent") v) (str "tracestate") = req_Header r (str "tracestate")
}.

Section request_carrier.
Context `{Requests}.

(** [None]: the request is nil. *)
Definition NewRequestCarrier (req : option request) : option request := req.

Definition RequestCarrier_Get (c : option request) (key : bytes) : bytes :=
  match c with None => [] | Some req => req_Header req key end.

Definition RequestCarrier_Set (c : option request) (key value : bytes) : option request :=
  match c with None => None | Some req => Some (req_SetHeader req key value) end.

Definition RequestCarrier_Keys (c : option request) : list bytes :=
  match c with None => [] | Some req => map fst (req_Headers req) end.

Definition RequestCarrier : TextMapCarrier :=
  {| carrier := option request; Get := RequestCarrier_Get; Set_ := RequestCarrier_Set |}.

(** A request that is there, as a carrier of its own. *)
Definition present : TextMapCarrier := {| carrier := request; Get := req_Header; Set_ := req_SetHeader |}.

Lemma present_laws `{!RequestLaws} : @CarrierLaws present.
Proof. constructor; [apply Header_SetHeader|apply Header_SetHeader_other]. Qed.

Context {HX : Hex}.

(** The carrier of a request that is there does what the request does. *)
Lemma Inject_present span (req : request) :
  Inject (CR := RequestCarrier) span (NewRequestCarrier (Some req)) = Some (Inject (CR := present) span req).
Proof. unfold Inject. destruct span as [sc|]; [|done]. destruct (negb _); [done|]. by destruct (bytes_eqb _ []). Qed.

Lemma Extract_present (req : request) : Extract (CR := RequestCarrier) (Some req) = Extract (CR := present) req.
Proof. done. Qed.

(** A span injected into the request of an outgoing call is extracted from it;
    through a nil request nothing passes. *)
Theorem request_carrier_roundtrip `{!RequestLaws, !HexLaws} sc req : well_formed sc →
  Extract (CR := RequestCarrier) (Inject (CR := RequestCarrier) (Some sc) (NewRequestCarrier (Some req))) =
    Some {| traceID := traceID sc; spanID := spanID sc; traceFlags := traceFlags sc;
            traceState := if bytes_eqb (traceState sc) [] then req_Header req HeaderTraceState else traceState sc; remote := true |} ∧
  Extract (CR := RequestCarrier) (Inject (CR := RequestCarrier) (Some sc) (NewRequestCarrier None)) = None.
Proof.
  intros Hwf. split.
  - rewrite Inject_present, Extract_present. apply (extract_injected (H2 := present_laws) sc req Hwf).
  - unfold Inject. destruct (negb _); [done|]. by destruct (bytes_eqb _ []).
Qed.
End request_carrier.

(** ** The headers on the wire *)

Section headers.
Context `{HexLaws}.

(** A span injected into a header map is extracted from it, the map holds the
    two headers under their canonical names, and no other name is added. *)
Theorem header_carrier_roundtrip (ord : range_order) (sc : SpanContext) (h : Header) : range_ok ord → well_formed sc →
  Extract (CR := HTTPHeaderCarrier) (Inject (CR := HTTPHeaderCarrier) (Some sc) h) =
    Some {| traceID := traceID sc; spanID := spanID sc; traceFlags := traceFlags sc;
            traceState := if bytes_eqb (traceState sc) [] then Header_Get h HeaderTraceState else traceState sc; remote := true |} ∧
  ∀ k, k ∈ HTTPHeaderCarrier_Keys ord (Inject (CR := HTTPHeaderCarrier) (Some sc) h) ↔
    k = str "Traceparent" ∨ (k = str "Tracestate" ∧ traceState sc ≠ []) ∨ k ∈ HTTPHeaderCarrier_Keys ord h.
Proof.
  intros Hord Hwf. split; [apply (extract_injected (H2 := HTTPHeaderCarrier_laws) sc h Hwf)|].
  assert (∀ (m : Header) k, k ∈ HTTPHeaderCarrier_Keys ord m ↔ k ∈ dom m) as Hkeys.
  { intros m k. unfold HTTPHeaderCarrier_Keys. rewrite (Hord m), list_elem_of_fmap, elem_of_dom. split.
    - intros ([k' v] & -> & Hv%elem_of_map_to_list). by exists v.
    - intros [v Hv]. exists (k, v). by rewrite elem_of_map_to_list. }
  intros k. rewrite !Hkeys. destruct Hwf as (_ & _ & HV). unfold Inject. rewrite HV. cbn [negb Set_ HTTPHeaderCarrier].
  unfold Header_Set. change (CanonicalHeaderKey HeaderTraceParent) with (str "Traceparent").
  change (CanonicalHeaderKey HeaderTraceState) with (str "Tracestate").
  destruct (bytes_eqb (traceState sc) []) eqn:Es; bools; cbn; set_solver.
Qed.
End headers.

(** ** Fresh identifiers

    The loops of the generators over what successive reads of the random source
    give, [None] for an error; [None] while the loop goes on. *)
Section fresh.
Variable valid : bytes → bool.

Fixpoint fresh (reads : list (option bytes)) : option (bytes * list (option bytes)) :=
  match reads with
  | [] => None
  | Some id :: rest => if valid id then Some (id, rest) else fresh rest
  | None :: rest => fresh rest
  end.

Definition rejected (r : option bytes) : Prop := ∀ id, r = Some id → valid id = false.

Lemma fresh_spec reads id rest : fresh reads = Some (id, rest) ↔
  ∃ before, reads = before ++ Some id :: rest ∧ valid id = true ∧ Forall rejected before.
Proof.
  induction reads as [|r reads IH]; cbn.
  - split; [done|]. intros ([] & ? & _); done.
  - assert (rejected r → fresh reads = Some (id, rest) ↔
      ∃ before, r :: reads = before ++ Some id :: rest ∧ valid id = true ∧ Forall rejected before) as Hskip.
    { intros Hr. rewrite IH. split.
      - intros (before & -> & Hv & Hb). exists (r :: before). split; [done|]. split; [done|]. by constructor.
      - intros ([|r' before] & E & Hv & Hb); injection E as -> E.
        + specialize (Hr id eq_refl). congruence.
        + exists before. split; [done|]. split; [done|]. by apply Forall_cons in Hb as [_ Hb]. }
    destruct r as [i|]; [|apply Hskip; by intros ? [=]]. destruct (valid i) eqn:Ev; [|apply Hskip; intros ? [= <-]; done].
    split.
    + intros [= <- <-]. exists []. by repeat constructor.
    + intros ([|r' before] & E & Hv & Hb); injection E as E1 E2; [by subst|].
      subst r'. apply Forall_cons in Hb as [Hb _]. specialize (Hb i eq_refl). congruence.
Qed.

Lemma fresh_terminates reads : ¬ Forall rejected reads → ∃ id rest, fresh reads = Some (id, rest).
Proof.
  induction reads as [|r reads IH]; intros Hn; [by destruct Hn|]. cbn.
  destruct r as [i|]; [destruct (valid i) eqn:Ev; [eauto|]|]; apply IH; intros Hf; apply Hn; constructor; try done; by intros ? [= <-].
Qed.
End fresh.

Definition NewTraceID : list (option bytes) → option (bytes * list (option bytes)) := fresh TraceID_IsValid.
Definition NewSpanID : list (option bytes) → option (bytes * list (option bytes)) := fresh SpanID_IsValid.

(** The identifier generated is the first one read that is not all zeros; the
    loop goes on only while reads fail or give zeros. *)
Theorem trace_id_fresh reads :
  (∀ id rest, NewTraceID reads = Some (id, rest) →
     id ≠ NilTraceID ∧ ∃ before, reads = before ++ Some id :: rest ∧ Forall (λ r, r = None ∨ r = Some NilTraceID) before) ∧
  (NewTraceID reads = None → Forall (λ r, r = None ∨ r = Some NilTraceID) reads).
Proof.
  assert (∀ r, rejected TraceID_IsValid r ↔ r = None ∨ r = Some NilTraceID) as Hrej.
  { intros [id|]; unfold rejected, TraceID_IsValid.
    - split; [intros Hr; specialize (Hr id eq_refl); bools; right; congruence|].
      intros [|[= ->]]; [done|]. intros id' [= <-]. by vm_compute.
    - split; [by left|by intros _ id]. }
  split.
  - intros id rest (before & -> & Hv & Hb)%fresh_spec. unfold TraceID_IsValid in Hv. bools. split; [done|].
    exists before. split; [done|]. eapply Forall_impl; [exact Hb|]. intros r. apply Hrej.
  - intros Hn. destruct (decide (Forall (λ r, r = None ∨ r = Some NilTraceID) reads)) as [|Hf]; [done|].
    destruct (fresh_terminates TraceID_IsValid reads) as (id & rest & E); [|unfold NewTraceID in Hn; congruence].
    intros Hall. apply Hf. eapply Forall_impl; [exact Hall|]. intros r. apply Hrej.
Qed.

(** The textual form of a valid identifier parses back to it, that of the zero
    identifier is refused as such. *)
Theorem identifier_roundtrip `{HexLaws} (t s : bytes) : length t = 16%nat → length s = 8%nat →
  ParseTraceID (TraceID_String t) = (if TraceID_IsValid t then Ok t else Err ErrZeroTraceID) ∧
  ParseSpanID (SpanID_String s) = (if SpanID_IsValid s then Ok s else Err ErrZeroSpanID).
Proof.
  intros Ht Hs. unfold ParseTraceID, ParseSpanID, TraceID_String, SpanID_String.
  by rewrite !Encode_length, Ht, Hs, !Decode_Encode.
Qed.

(** ** Concrete carriers *)

Module CarrierSample.
Import ContextSample.
#[local] Existing Instance lowercase.
#[local] Existing Instance lowercase_laws.

Lemma header_carrier_roundtrip_witness :
  Extract (CR := HTTPHeaderCarrier) (Inject (CR := HTTPHeaderCarrier) (Some sample) ∅) =
    Some {| traceID := traceID sample; spanID := spanID sample; traceFlags := traceFlags sample;
            traceState := str "vendor=1"; remote := true |}.
Proof. exact (proj1 (header_carrier_roundtrip map_to_list sample ∅ (λ h, reflexivity _) sample_ok)). Defined.

(** A request with its headers in a list, the names compared as they are. *)
#[local] Instance listed : Requests := {|
  request := list (bytes * bytes);
  req_Header r k := default [] (snd <$> find (λ kv, bytes_eqb (fst kv) k) r);
  req_SetHeader r k v := (k, v) :: filter (λ kv, fst kv ≠ k) r;
  req_Headers r := r
|}.

Lemma find_filter (r : list (bytes * bytes)) k k' : k ≠ k' →
  find (λ kv, bytes_eqb (fst kv) k') (filter (λ kv, fst kv ≠ k) r) = find (λ kv, bytes_eqb (fst kv) k') r.
Proof.
  intros Hne. induction r as [|[a v] r IH]; [done|]. rewrite filter_cons. case_decide as E; cbn in *; [by rewrite IH|].
  rewrite IH. destruct (bytes_eqb a k') eqn:Ea; bools; [|done]. destruct E. congruence.
Qed.

#[local] Instance listed_laws : RequestLaws.
Proof.
  constructor; cbn.
  - intros r k v. destruct (bytes_eqb k k) eqn:E; bools; done.
  - intros r v. split; by rewrite find_filter.
Qed.

Lemma request_carrier_roundtrip_witness :
  Extract (CR := RequestCarrier) (Inject (CR := RequestCarrier) (Some sample) (NewRequestCarrier (Some [(str "host", str "a")]))) =
    Some {| traceID := traceID sample; spanID := spanID sample; traceFlags := traceFlags sample;
            traceState := str "vendor=1"; remote := true |}.
Proof. exact (proj1 (request_carrier_roundtrip sample [(str "host", str "a")] sample_ok)). Defined.

Lemma identifier_roundtrip_witness : ParseTraceID (TraceID_String (replicate 16 x01)) = Ok (replicate 16 x01).
Proof. exact (proj1 (identifier_roundtrip (replicate 16 x01) (replicate 8 x01) eq_refl eq_refl)). Defined.

(** Two reads that do not do, and one that does. *)
Example zero_read_again : fst <$> NewTraceID [None; Some NilTraceID; Some (replicate 16 x01)] = Some (replicate 16 x01).
Proof. reflexivity. Qed.
End CarrierSample.
