(* ===== verification/OtelSpan.v ===== *)
(** * Spans, their pool and the tracer (src/otel/span.go, src/otel/tracer.go)

    Span objects live in a heap and are recycled through a pool, as the code
    does, so that a handle kept after the end of a span can meet the object's
    next life.  Times are numbers; attribute values are of any type. *)

From S2P Require Import Prelude GoLib OtelContext.

#[local] Open Scope Z_scope.

Section spans.
Context {Value : Type}.

Definition Attribute : Type := bytes * Value.

Inductive StatusCode := StatusUnset | StatusOk | StatusError.

Definition StatusCode_String (s : StatusCode) : bytes :=
  match s with StatusOk => str "OK" | StatusError => str "ERROR" | StatusUnset => str "UNSET" end.

Record Event := { ev_Name : bytes; ev_Timestamp : Z; ev_Attributes : list Attribute }.

(** [sp_traced]: the tracer is not nil; a zero time is [None]. *)
Record Span := {
  sp_traced : bool;
  sp_name : bytes;
  sp_context : SpanContext;
  sp_parent : SpanContext;
  sp_kind : Z;
  sp_start : Z;
  sp_end : option Z;
  sp_status : StatusCode;
  sp_statusDesc : bytes;
  sp_attributes : list Attribute;
  sp_events : list Event;
  sp_ended : bool
}.

Definition no_context : SpanContext :=
  {| traceID := NilTraceID; spanID := NilSpanID; traceFlags := x00; traceState := []; remote := false |}.

(** ** Operations on one object *)

(** [old] is the recycled object, if the pool gave one. *)
Definition acquireSpan (old : option Span) (name : bytes) (sc parentSc : SpanContext) (kind : Z)
  (startTime : option Z) (now : Z) : Span :=
  {| sp_traced := true; sp_name := name; sp_context := sc; sp_parent := parentSc; sp_kind := kind;
     sp_start := default now startTime; sp_end := None; sp_status := StatusUnset;
     sp_statusDesc := []; sp_ended := false;
     sp_attributes := match old with Some s => take 0 (sp_attributes s) | None => [] end;
     sp_events := match old with Some s => take 0 (sp_events s) | None => [] end |}.

Definition releaseSpan (s : Span) : Span :=
  {| sp_traced := false; sp_name := []; sp_context := no_context; sp_parent := no_context;
     sp_kind := sp_kind s; sp_start := sp_start s; sp_end := sp_end s; sp_status := sp_status s;
     sp_statusDesc := []; sp_attributes := take 0 (sp_attributes s);
     sp_events := take 0 (sp_events s); sp_ended := sp_ended s |}.

Definition SetName (s : Span) (name : bytes) : Span :=
  {| sp_traced := sp_traced s; sp_name := name; sp_context := sp_context s; sp_parent := sp_parent s;
     sp_kind := sp_kind s; sp_start := sp_start s; sp_end := sp_end s; sp_status := sp_status s;
     sp_statusDesc := sp_statusDesc s; sp_attributes := sp_attributes s; sp_events := sp_events s;
     sp_ended := sp_ended s |}.

Definition SetStatus (s : Span) (code : StatusCode) (desc : bytes) : Span :=
  if sp_ended s then s
  else {| sp_traced := sp_traced s; sp_name := sp_name s; sp_context := sp_context s;
          sp_parent := sp_parent s; sp_kind := sp_kind s; sp_start := sp_start s; sp_end := sp_end s;
          sp_status := code; sp_statusDesc := desc; sp_attributes := sp_attributes s;
          sp_events := sp_events s; sp_ended := sp_ended s |}.

Definition put_attributes (s : Span) (attrs : list Attribute) : Span :=
  {| sp_traced := sp_traced s; sp_name := sp_name s; sp_context := sp_context s;
     sp_parent := sp_parent s; sp_kind := sp_kind s; sp_start := sp_start s; sp_end := sp_end s;
     sp_status := sp_status s; sp_statusDesc := sp_statusDesc s; sp_attributes := attrs;
     sp_events := sp_events s; sp_ended := sp_ended s |}.

(** The first entry with the key is updated in place; [None]: no such entry. *)
Fixpoint update_attribute (key : bytes) (value : Value) (attrs : list Attribute)
  : option (list Attribute) :=
  match attrs with
  | [] => None
  | (k, v) :: rest =>
      if bytes_eqb k key then Some ((k, value) :: rest)
      else rest' ← update_attribute key value rest; Some ((k, v) :: rest')
  end.

Definition SetAttribute (s : Span) (key : bytes) (value : Value) : Span :=
  if sp_ended s then s
  else match update_attribute key value (sp_attributes s) with
       | Some attrs => put_attributes s attrs
       | None => put_attributes s (sp_attributes s ++ [(key, value)])
       end.

Definition SetAttributes (s : Span) (attrs : list Attribute) : Span :=
  match attrs with
  | [] => s
  | _ => if sp_ended s then s else put_attributes s (sp_attributes s ++ attrs)
  end.

Definition AddEventWithTime (s : Span) (name : bytes) (timestamp : Z) (attrs : list Attribute) : Span :=
  if sp_ended s then s
  else {| sp_traced := sp_traced s; sp_name := sp_name s; sp_context := sp_context s;
          sp_parent := sp_parent s; sp_kind := sp_kind s; sp_start := sp_start s; sp_end := sp_end s;
          sp_status := sp_status s; sp_statusDesc := sp_statusDesc s;
          sp_attributes := sp_attributes s;
          sp_events := sp_events s ++ [{| ev_Name := name; ev_Timestamp := timestamp; ev_Attributes := attrs |}];
          sp_ended := sp_ended s |}.

(** An error with its message and its exception attributes; [None] is nil. *)
Definition RecordError (s : Span) (err : option (bytes * list Attribute)) (now : Z) : Span :=
  match err with
  | None => s
  | Some (msg, attrs) =>
      SetStatus (AddEventWithTime s (str "exception") now attrs) StatusError msg
  end.

Definition mark_ended (s : Span) (endTime : Z) : Span :=
  {| sp_traced := sp_traced s; sp_name := sp_name s; sp_context := sp_context s;
     sp_parent := sp_parent s; sp_kind := sp_kind s; sp_start := sp_start s; sp_end := Some endTime;
     sp_status := sp_status s; sp_statusDesc := sp_statusDesc s; sp_attributes := sp_attributes s;
     sp_events := sp_events s; sp_ended := true |}.

(** ** The tracer and the heap of spans *)

Definition Sampler : Type := SpanContext → bytes → bytes → Z → bool.

Definition AlwaysSampleSampler : Sampler := λ _ _ _ _, true.
Definition NeverSampleSampler : Sampler := λ _ _ _ _, false.

(** The low eight bytes of the trace id as a big-endian number. *)
Definition low_bits (traceID : bytes) : Z := foldl (λ n c, n * 256 + bz c) 0 (drop 8 traceID).

Definition RatioSampler (threshold : Z) : Sampler := λ parentSc traceID _ _,
  if SpanContext_IsValid parentSc then IsSampled (traceFlags parentSc)
  else low_bits traceID <=? threshold.

Record Tracer := { t_sampler : Sampler; t_exporter : bool; t_closed : bool }.

(** [h_free]: objects in the pool; [h_exporting]: objects handed to the exporter. *)
Record heap := { h_objects : list Span; h_free : list nat; h_exporting : list nat }.

Definition on_span (h : heap) (id : nat) (f : Span → Span) : heap :=
  {| h_objects := alter f id (h_objects h); h_free := h_free h; h_exporting := h_exporting h |}.

Definition release (h : heap) (id : nat) : heap :=
  {| h_objects := alter releaseSpan id (h_objects h); h_free := id :: h_free h;
     h_exporting := h_exporting h |}.

Definition processSpan (t : Tracer) (h : heap) (id : nat) : heap :=
  match h_objects h !! id with
  | None => h
  | Some s =>
      if t_closed t || negb (t_exporter t) || negb (IsSampled (traceFlags (sp_context s)))
      then release h id
      else {| h_objects := h_objects h; h_free := h_free h; h_exporting := id :: h_exporting h |}
  end.

Definition EndWithTime (t : Tracer) (h : heap) (id : nat) (endTime : Z) : heap :=
  match h_objects h !! id with
  | None => h
  | Some s =>
      if sp_ended s then h
      else
        let h1 := on_span h id (λ s, mark_ended s endTime) in
        if sp_traced s then processSpan t h1 id else h1
  end.

(** The exporter is done with a span. *)
Definition exporter_release (h : heap) (id : nat) : heap :=
  let h1 := release h id in
  {| h_objects := h_objects h1; h_free := h_free h1;
     h_exporting := filter (λ k, k ≠ id) (h_exporting h1) |}.

(** Identifiers of a new span under its parent context. *)
Definition child_context (t : Tracer) (parentSc : SpanContext) (name : bytes) (kind : Z)
  (newTrace newSpan : bytes) : SpanContext :=
  let trace := if SpanContext_IsValid parentSc then traceID parentSc else newTrace in
  NewSpanContext trace newSpan (if t_sampler t parentSc trace name kind then x01 else x00)
    (traceState parentSc) false.

(** [pooled]: the object the storage handed out; [newTrace] and [newSpan] are
    the random identifiers. *)
Definition Start (t : Tracer) (h : heap) (pooled : option nat) (parentSc : SpanContext)
  (name : bytes) (kind : Z) (attrs : list Attribute) (start : option Z) (now : Z)
  (newTrace newSpan : bytes) : heap * nat :=
  let sc := child_context t parentSc name kind newTrace newSpan in
  match pooled with
  | Some id =>
      ({| h_objects := alter (λ old, SetAttributes (acquireSpan (Some old) name sc parentSc kind start now) attrs)
                         id (h_objects h);
          h_free := filter (λ k, k ≠ id) (h_free h); h_exporting := h_exporting h |}, id)
  | None =>
      ({| h_objects := h_objects h ++
            [SetAttributes (acquireSpan None name sc parentSc kind start now) attrs];
          h_free := h_free h; h_exporting := h_exporting h |}, length (h_objects h))
  end.
End spans.

(** ** One span *)

Section span_theorems.
Context {Value : Type}.
Implicit Types s : Span (Value := Value).
Implicit Types h : heap (Value := Value).

(** A recycled object starts its next life like a new one: nothing of the
    previous span, attributes and events included, is left in it. *)
Theorem acquire_fresh s (name : bytes) (sc parentSc : SpanContext) (kind now : Z) (start : option Z) :
  acquireSpan (Some (releaseSpan s)) name sc parentSc kind start now =
    acquireSpan None name sc parentSc kind start now ∧
  acquireSpan (Some s) name sc parentSc kind start now =
    acquireSpan None name sc parentSc kind start now.
Proof. done. Qed.

Definition attribute_of (attrs : list (Attribute (Value := Value))) (key : bytes) : option Value :=
  snd <$> List.find (λ a, bytes_eqb a.1 key) attrs.

Lemma update_attribute_spec key (v : Value) attrs :
  match update_attribute key v attrs with
  | Some attrs' => attrs'.*1 = attrs.*1 ∧ attribute_of attrs key ≠ None ∧
      ∀ k, attribute_of attrs' k = if bytes_eqb key k then Some v else attribute_of attrs k
  | None => attribute_of attrs key = None ∧ key ∉ attrs.*1
  end.
Proof.
  induction attrs as [|[k0 v0] attrs IH]; simpl; [split; [done|apply not_elem_of_nil]|].
  unfold attribute_of in *. simpl. destruct (bytes_eqb k0 key) eqn:E; simpl.
  - bools. subst. split_and!; try done. intros k. simpl. by destruct (bytes_eqb key k).
  - destruct (update_attribute key v attrs) as [attrs'|]; simpl.
    + destruct IH as (I1 & I2 & I3). split_and!; [f_equal; exact I1|done|]. intros k. simpl.
      destruct (bytes_eqb k0 k) eqn:E2; simpl; [|apply I3]. bools. subst.
      destruct (bytes_eqb key k) eqn:E3; bools; [congruence|done].
    + destruct IH as [I1 I2]. split; [done|]. bools. apply not_elem_of_cons. auto.
Qed.

Lemma attribute_of_snoc (attrs : list (Attribute (Value := Value))) key v k :
  attribute_of (attrs ++ [(key, v)]) k =
    match attribute_of attrs k with Some w => Some w | None => if bytes_eqb key k then Some v else None end.
Proof.
  unfold attribute_of. induction attrs as [|[k0 v0] attrs IH]; simpl.
  - by destruct (bytes_eqb key k).
  - by destruct (bytes_eqb k0 k).
Qed.

(** Setting an attribute on an open span makes its key read as the value and
    changes no other key; keys set one at a time stay distinct.  On an ended
    span it changes nothing. *)
Theorem set_attribute_spec s (key k : bytes) (v : Value) :
  let s' := SetAttribute s key v in
  attribute_of (sp_attributes s') k =
    (if negb (sp_ended s) && bytes_eqb key k then Some v else attribute_of (sp_attributes s) k) ∧
  (NoDup (sp_attributes s).*1 → NoDup (sp_attributes s').*1) ∧
  sp_events s' = sp_events s ∧ sp_context s' = sp_context s.
Proof.
  cbv zeta. unfold SetAttribute. destruct (sp_ended s); [done|]. simpl.
  pose proof (update_attribute_spec key v (sp_attributes s)) as HU.
  destruct (update_attribute key v (sp_attributes s)) as [attrs|]; simpl.
  - destruct HU as (U1 & U2 & U3). rewrite U1. by split_and!.
  - destruct HU as [U1 U2]. split_and!; [|intros Hn|done|done].
    + rewrite attribute_of_snoc. destruct (bytes_eqb key k) eqn:E; bools.
      * subst. by rewrite U1.
      * by destruct (attribute_of (sp_attributes s) k).
    + rewrite fmap_app. apply NoDup_app. split_and!; [done| |apply NoDup_singleton].
      intros x Hx ->%list_elem_of_singleton. done.
Qed.

(** An ended span keeps its status, attributes, events and end time
    whatever is called on it; only its name can still be changed. *)
Theorem ended_span_frozen (t : Tracer) h (id : nat) s (Hid : h_objects h !! id = Some s)
  (Hended : sp_ended s = true) (code : StatusCode) (desc key name : bytes) (v : Value)
  (attrs : list Attribute) (now : Z) (err : option (bytes * list Attribute)) :
  SetStatus s code desc = s ∧ SetAttribute s key v = s ∧ SetAttributes s attrs = s ∧
  AddEventWithTime s name now attrs = s ∧ RecordError s err now = s ∧
  EndWithTime t h id now = h ∧
  sp_name (SetName s name) = name.
Proof.
  assert (HA : AddEventWithTime s name now attrs = s) by (unfold AddEventWithTime; by rewrite Hended).
  split_and!; try done.
  - unfold SetStatus. by rewrite Hended.
  - unfold SetAttribute. by rewrite Hended.
  - unfold SetAttributes. destruct attrs; [done|]. by rewrite Hended.
  - unfold RecordError, AddEventWithTime, SetStatus. destruct err as [[msg a]|]; [|done].
    by rewrite !Hended.
  - unfold EndWithTime. by rewrite Hid, Hended.
Qed.

(** An error status replaces an Ok status set before. *)
Theorem status_ok_overridden s (d1 d2 : bytes) (Hopen : sp_ended s = false) :
  sp_status (SetStatus (SetStatus s StatusOk d1) StatusError d2) = StatusError.
Proof. unfold SetStatus. rewrite Hopen. simpl. rewrite ?Hopen. done. Qed.

(** ** The pool *)

(** Calls on a handle, which may be stale, and the work of the exporter. *)
Inductive heap_step h : heap → Prop :=
| heap_start t pooled parentSc name kind attrs start now tr sp :
    (∀ id, pooled = Some id → id ∈ h_free h) →
    heap_step h (Start t h pooled parentSc name kind attrs start now tr sp).1
| heap_name id name : heap_step h (on_span h id (λ s, SetName s name))
| heap_status id code desc : heap_step h (on_span h id (λ s, SetStatus s code desc))
| heap_attribute id key v : heap_step h (on_span h id (λ s, SetAttribute s key v))
| heap_attributes id attrs : heap_step h (on_span h id (λ s, SetAttributes s attrs))
| heap_event id name time attrs : heap_step h (on_span h id (λ s, AddEventWithTime s name time attrs))
| heap_error id err now : heap_step h (on_span h id (λ s, RecordError s err now))
| heap_end t id time : heap_step h (EndWithTime t h id time)
| heap_exported id : id ∈ h_exporting h → heap_step h (exporter_release h id).

Definition empty_heap : heap (Value := Value) := {| h_objects := []; h_free := []; h_exporting := [] |}.

Inductive heap_reach : heap (Value := Value) → Prop :=
| heap_reach_start : heap_reach empty_heap
| heap_reach_step h h' : heap_reach h → heap_step h h' → heap_reach h'.

Definition ended_at h (id : nat) : Prop := ∃ s, h_objects h !! id = Some s ∧ sp_ended s = true.

Definition heap_inv h : Prop :=
  NoDup (h_free h ++ h_exporting h) ∧ ∀ id, id ∈ h_free h ++ h_exporting h → ended_at h id.

Lemma ended_alter (f : Span → Span) (l : list (Span (Value := Value))) id k s :
  (∀ s, sp_ended s = true → sp_ended (f s) = true) →
  l !! k = Some s → sp_ended s = true → ∃ s', alter f id l !! k = Some s' ∧ sp_ended s' = true.
Proof.
  intros Hf Hk He. destruct (decide (id = k)) as [->|Hne].
  - exists (f s). rewrite list_lookup_alter_eq, Hk. split; [done|by apply Hf].
  - exists s. by rewrite list_lookup_alter_ne.
Qed.

Lemma on_span_inv h id (f : Span → Span) :
  (∀ s, sp_ended s = true → sp_ended (f s) = true) → heap_inv h → heap_inv (on_span h id f).
Proof.
  intros Hf [N E]. split; [done|]. intros k Hk. destruct (E k Hk) as (s & Hs & He).
  by eapply ended_alter.
Qed.

Lemma frozen_ended s code desc : sp_ended (SetStatus s code desc) = sp_ended s.
Proof. unfold SetStatus. destruct (sp_ended s) eqn:E; simpl; congruence. Qed.

Lemma event_ended s name time attrs : sp_ended (AddEventWithTime s name time attrs) = sp_ended s.
Proof. unfold AddEventWithTime. destruct (sp_ended s) eqn:E; simpl; congruence. Qed.

Lemma attribute_ended s key v : sp_ended (SetAttribute s key v) = sp_ended s.
Proof. unfold SetAttribute. destruct (sp_ended s) eqn:E; [done|]. case_match; simpl; congruence. Qed.

Lemma attributes_ended s attrs : sp_ended (SetAttributes s attrs) = sp_ended s.
Proof. unfold SetAttributes. destruct attrs; [done|]. destruct (sp_ended s) eqn:E; simpl; congruence. Qed.

Lemma EndWithTime_inv t h id time : heap_inv h → heap_inv (EndWithTime t h id time).
Proof.
  intros [N E]. unfold EndWithTime. destruct (h_objects h !! id) as [s|] eqn:Hid; [|done].
  destruct (sp_ended s) eqn:He; [done|].
  assert (id ∉ h_free h ++ h_exporting h) as Hn.
  { intros Hin. destruct (E id Hin) as (s' & Hs & Hs'). congruence. }
  assert (heap_inv (on_span h id (λ s, mark_ended s time))) as [N1 E1] by (by apply on_span_inv).
  assert (ended_at (on_span h id (λ s, mark_ended s time)) id) as Hend.
  { exists (mark_ended s time). simpl. by rewrite list_lookup_alter_eq, Hid. }
  destruct (sp_traced s); [|by split]. unfold processSpan. simpl.
  rewrite list_lookup_alter_eq, Hid. simpl. case_match.
  - split; simpl; [by apply NoDup_cons|]. intros k Hk. apply elem_of_cons in Hk.
    assert (ended_at (on_span h id (λ s, mark_ended s time)) k) as (u & Hu & Hu').
    { destruct Hk as [->|Hk]; [done|by apply E1]. }
    by eapply ended_alter.
  - split; simpl.
    + rewrite <- Permutation_middle. by apply NoDup_cons.
    + intros k Hk. rewrite <- Permutation_middle in Hk. apply elem_of_cons in Hk as [->|Hk]; [done|by apply E1].
Qed.

Lemma exporter_release_inv h id : id ∈ h_exporting h → heap_inv h → heap_inv (exporter_release h id).
Proof.
  intros Hin [N E]. apply NoDup_app in N as (N1 & N2 & N3). split; simpl.
  - apply NoDup_cons. split.
    + intros [Hx|[Hx _]%list_elem_of_filter]%elem_of_app; [by apply (N2 id)|done].
    + apply NoDup_app. split_and!; [done| |by apply NoDup_filter].
      intros x Hx [_ Hx']%list_elem_of_filter. by apply (N2 x).
  - intros k Hk. assert (ended_at h k) as (u & Hu & Hu').
    { apply E. apply elem_of_app. apply elem_of_cons in Hk as [->|Hk]; [auto|].
      apply elem_of_app in Hk as [|[_ ?]%list_elem_of_filter]; auto. }
    by eapply ended_alter.
Qed.

Lemma Start_inv t h pooled parentSc name kind attrs start now tr sp :
  (∀ id, pooled = Some id → id ∈ h_free h) → heap_inv h →
  heap_inv (Start t h pooled parentSc name kind attrs start now tr sp).1.
Proof.
  intros Hp [N E]. unfold Start. destruct pooled as [id|]; simpl.
  - specialize (Hp id eq_refl). apply NoDup_app in N as (N1 & N2 & N3).
    split; simpl.
    + apply NoDup_app. split_and!; [by apply NoDup_filter| |done].
      intros x [_ Hx]%list_elem_of_filter. by apply N2.
    + intros k Hk.
      assert (k ≠ id ∧ k ∈ h_free h ++ h_exporting h) as [Hne Hk'].
      { apply elem_of_app in Hk as [[? ?]%list_elem_of_filter|Hk]; [split; [done|apply elem_of_app; auto]|].
        split; [|apply elem_of_app; auto]. intros ->. by apply (N2 id). }
      destruct (E k Hk') as (u & Hu & Hu'). exists u. simpl. by rewrite list_lookup_alter_ne.
  - split; [done|]. intros k Hk. destruct (E k Hk) as (u & Hu & Hu'). exists u. split; [|done].
    simpl. by apply lookup_app_l_Some.
Qed.

Lemma heap_inv_reach h : heap_reach h → heap_inv h.
Proof.
  induction 1 as [|h h' _ IH Hs]; [by split; [constructor|]; intros id Hid; apply not_elem_of_nil in Hid|].
  destruct Hs; [by apply Start_inv| | | | | | |by apply EndWithTime_inv|by apply exporter_release_inv];
    apply on_span_inv; try done; intros s Hs; simpl;
    try (by rewrite ?attribute_ended, ?attributes_ended, ?frozen_ended, ?event_ended).
  unfold RecordError. destruct err as [[msg attrs]|]; [|done]. by rewrite frozen_ended, event_ended.
Qed.

(** C24: whatever handles are used, stale ones included, an object is in the
    pool or with the exporter at most once, and only after its span has ended:
    a new span never takes the object of a span that is still open. *)
Theorem span_pool_safe h (H : heap_reach h) :
  NoDup (h_free h ++ h_exporting h) ∧ ∀ id, id ∈ h_free h ++ h_exporting h → ended_at h id.
Proof. by apply heap_inv_reach. Qed.

Lemma Start_new t h parentSc name kind start now tr sp :
  ∃ s, Start t h None parentSc name kind [] start now tr sp =
         ({| h_objects := h_objects h ++ [s]; h_free := h_free h; h_exporting := h_exporting h |},
          length (h_objects h)) ∧ sp_ended s = false ∧ sp_traced s = true.
Proof. eexists. split; [reflexivity|done]. Qed.

(** Ending an open span of a tracer without exporter puts the object in the pool. *)
Lemma End_release t h id s time :
  t_exporter t = false → h_objects h !! id = Some s → sp_ended s = false → sp_traced s = true →
  EndWithTime t h id time = release (on_span h id (λ s, mark_ended s time)) id.
Proof.
  intros Ht Hid He Htr. unfold EndWithTime, processSpan. rewrite Hid, He, Htr. simpl.
  rewrite list_lookup_alter_eq, Hid, Ht. simpl. by rewrite orb_true_r.
Qed.

(** Ending a span twice is harmless only until its object is recycled:
    when the storage hands the object out again, the old handle names the new
    span, and a second [End] through it ends that span and pools its object. *)
Theorem recycled_span_aliased (t : Tracer) h (p1 p2 : SpanContext) (n1 n2 tr1 tr2 sp1 sp2 : bytes)
  (k1 k2 now : Z) (Hno : t_exporter t = false) :
  let '(h1, a) := Start t h None p1 n1 k1 [] None now tr1 sp1 in
  let h2 := EndWithTime t h1 a now in
  a ∈ h_free h2 ∧
  let '(h3, b) := Start t h2 (Some a) p2 n2 k2 [] None now tr2 sp2 in
  b = a ∧
  (∃ s, h_objects h3 !! b = Some s ∧ sp_ended s = false ∧ sp_name s = n2) ∧
  ended_at (EndWithTime t h3 a now) b ∧ b ∈ h_free (EndWithTime t h3 a now).
Proof.
  destruct (Start_new t h p1 n1 k1 None now tr1 sp1) as (s & -> & He & Htr).
  set (a := length (h_objects h)).
  rewrite (End_release t _ a s) by (done || by apply list_lookup_middle).
  split; [by apply elem_of_cons; left|]. unfold Start. split; [done|].
  set (h3 := {| h_objects := alter _ a _; h_free := _; h_exporting := _ |}).
  assert (∃ u, h_objects h3 !! a = Some u ∧ sp_ended u = false ∧ sp_traced u = true ∧ sp_name u = n2)
    as (u & Hu & Hue & Hut & Hun).
  { unfold h3. simpl. rewrite !list_lookup_alter_eq, list_lookup_middle by done. simpl.
    eexists. split; [done|]. done. }
  split; [by exists u|]. rewrite (End_release t h3 a u) by done. split; [|by apply elem_of_cons; left].
  unfold ended_at, release, on_span. cbn [h_objects]. clearbody h3.
  rewrite !list_lookup_alter_eq, Hu. simpl.
  eexists. split; [done|]. done.
Qed.

(** A child span continues its parent's trace: same trace id and trace
    state, a new span id, local; under a ratio sampler it is sampled exactly
    when the parent is, and a root span exactly when the low eight bytes of the
    trace id are within the threshold. *)
Theorem child_span_context (t : Tracer) (parentSc : SpanContext) (name : bytes) (kind : Z)
  (newTrace newSpan : bytes) (threshold : Z) (Ht : t_sampler t = RatioSampler threshold) :
  let sc := child_context t parentSc name kind newTrace newSpan in
  traceID sc = (if SpanContext_IsValid parentSc then traceID parentSc else newTrace) ∧
  spanID sc = newSpan ∧ traceState sc = traceState parentSc ∧ remote sc = false ∧
  IsSampled (traceFlags sc) =
    if SpanContext_IsValid parentSc then IsSampled (traceFlags parentSc)
    else low_bits newTrace <=? threshold.
Proof.
  cbv zeta. unfold child_context. rewrite Ht. unfold RatioSampler, NewSpanContext.
  cbn [traceID spanID traceFlags traceState remote]. split_and!; try done.
  destruct (SpanContext_IsValid parentSc).
  - destruct (IsSampled (traceFlags parentSc)); reflexivity.
  - destruct (low_bits newTrace <=? threshold); reflexivity.
Qed.
End span_theorems.

(** ** The theorems at concrete spans *)

Module SpanSample.
Definition quiet : Tracer := {| t_sampler := RatioSampler 0; t_exporter := false; t_closed := false |}.

Definition open_span : Span (Value := Z) :=
  acquireSpan None (str "GET") no_context no_context 3 (Some 5) 7.

Lemma ended_span_frozen_witness : SetAttribute (mark_ended open_span 9) (str "k") 1 = mark_ended open_span 9.
Proof.
  apply (ended_span_frozen quiet {| h_objects := [mark_ended open_span 9]; h_free := []; h_exporting := [] |}
    0 (mark_ended open_span 9) eq_refl eq_refl StatusOk [] (str "k") [] 1 [] 0 None).
Defined.

Lemma status_ok_overridden_witness :
  sp_status (SetStatus (SetStatus open_span StatusOk []) StatusError (str "late")) = StatusError.
Proof. exact (status_ok_overridden open_span [] (str "late") eq_refl). Defined.

Lemma span_pool_safe_witness :
  ∃ h : heap (Value := Z), heap_reach h ∧ h_free h = [0%nat] ∧ ended_at h 0.
Proof.
  assert (∃ h : heap (Value := Z), heap_reach h ∧ h_free h = [0%nat]) as (h & R & E).
  { eexists. split.
    - eapply heap_reach_step; [eapply heap_reach_step; [apply heap_reach_start|]|].
      + apply (heap_start _ quiet None no_context (str "GET") 3 [] None 7 (replicate 16 x01) (replicate 8 x02)).
        discriminate.
      + apply (heap_end _ quiet 0 9).
    - vm_compute. reflexivity. }
  exists h. split; [exact R|]. split; [exact E|].
  apply (span_pool_safe h R). rewrite E. by apply elem_of_cons; left.
Defined.

Lemma recycled_span_aliased_witness :
  let '(h1, a) := Start (Value := Z) quiet empty_heap None no_context (str "one") 3 [] None 7 (replicate 16 x01) (replicate 8 x02) in
  a ∈ h_free (EndWithTime quiet h1 a 7).
Proof.
  pose proof (recycled_span_aliased (Value := Z) quiet empty_heap no_context no_context (str "one") (str "two")
    (replicate 16 x01) (replicate 16 x03) (replicate 8 x02) (replicate 8 x04) 3 3 7 eq_refl) as H.
  exact (proj1 H).
Defined.

Lemma child_span_context_witness :
  IsSampled (traceFlags (child_context quiet no_context (str "root") 3 (replicate 16 x01) (replicate 8 x02))) = false.
Proof.
  destruct (child_span_context quiet no_context (str "root") 3 (replicate 16 x01) (replicate 8 x02) 0 eq_refl)
    as (_ & _ & _ & _ & H).
  exact H.
Defined.
End SpanSample.
