(* ===== verification/OtelTracer.v ===== *)
(** * The tracer: options, ratio sampling and contexts
    (src/otel/tracer.go, span.go)

    The threshold of [NewRatioSampler] over [float64], the options of a tracer and
    of [Start], and how [Start] finds the parent of a span in a context whose
    span may have ended in the meantime. *)

From Stdlib Require Import Floats.SpecFloat.
From S2P Require Import Prelude GoLib GoFloat OtelContext OtelSpan.

#[local] Open Scope Z_scope.

(** ** Ratio sampling *)

Section ratio.
Context `{FloatConversion}.

Definition max_uint64 : Z := 2 ^ 64 - 1.
Definition one : float64 := of_Z 1.
Definition zero : float64 := S754_zero false.

(** The threshold of [NewRatioSampler]. *)
Definition NewRatioSampler (ratio : float64) : Z :=
  if f_le one ratio then max_uint64
  else if f_le ratio zero then 0
  else to_uint64 (f_mul ratio (of_Z max_uint64)).

(** A ratio strictly between zero and one: a positive finite number. *)
Lemma between_zero_and_one r : valid r = true → f_le one r = false → f_le r zero = false → r ≠ S754_nan →
  ∃ m e, r = S754_finite false m e ∧ e <= -53.
Proof.
  intros Hv H1 H0 Hn. destruct r as [s|s| |s m e]; [by destruct s|by destruct s|done|].
  destruct s; [done|]. exists m, e. split; [done|].
  destruct (valid_digits _ _ _ Hv) as (Hd & Hr & Hsub).
  change one with (S754_finite false 4503599627370496 (-52)) in H1. unfold f_le, SFleb, SFcompare in H1.
  destruct (Z.compare_spec (-52) e) as [E|E|E]; [|done|lia]. subst e.
  assert (digits2 m = 53) as Hm by lia. exfalso.
  pose proof (digits2_spec m) as [Hlo _]. rewrite Hm in Hlo. change (2 ^ (53 - 1)) with 4503599627370496 in Hlo.
  change (Pos.compare_cont Eq 4503599627370496 m) with (Pos.compare 4503599627370496 m) in H1.
  destruct (Pos.compare 4503599627370496 m) eqn:E; [discriminate H1|discriminate H1|].
  apply Pos.compare_gt_iff in E. apply Pos2Z.pos_lt_pos in E. clear -E Hlo. lia.
Qed.

Lemma trunc_scaled m m' e k : e <= -53 → 0 <= k <= 52 → Zpos m' = Zpos m * 2 ^ k →
  trunc (S754_finite false m' (e + 64 - k)) = Some (Zpos m * 2 ^ 64 / 2 ^ (- e)).
Proof.
  intros He Hk Hm. cbn [trunc]. f_equal. destruct (e + 64 - k <? 0) eqn:El; bools; rewrite Hm.
  - replace (2 ^ 64) with (2 ^ k * 2 ^ (64 - k)) by (rewrite <- Z.pow_add_r by lia; f_equal; lia).
    replace (2 ^ (- e)) with (2 ^ (- (e + 64 - k)) * 2 ^ (64 - k)) by (rewrite <- Z.pow_add_r by lia; f_equal; lia).
    rewrite Z.mul_assoc, Z.div_mul_cancel_r; [done|apply Z.pow_nonzero; lia..].
  - replace (2 ^ 64) with (2 ^ (k + (e + 64 - k)) * 2 ^ (- e)) by (rewrite <- Z.pow_add_r by lia; f_equal; lia).
    rewrite Z.mul_assoc, Z.div_mul by (apply Z.pow_nonzero; lia). rewrite Z.pow_add_r by lia. lia.
Qed.

(** C33: the threshold for a ratio strictly between zero and one is exactly
    the ratio times two to the 64, rounded down; the sampler takes a trace
    without a valid parent when its low 64 bits are at most that, and follows a
    valid parent. *)
Theorem ratio_threshold r parentSc traceID name kind : valid r = true → f_le one r = false → f_le r zero = false → r ≠ S754_nan →
  ∃ m e, r = S754_finite false m e ∧ e <= -53 ∧ NewRatioSampler r = Zpos m * 2 ^ 64 / 2 ^ (- e) ∧
    0 <= NewRatioSampler r < 2 ^ 64 ∧
    RatioSampler (NewRatioSampler r) parentSc traceID name kind =
      (if SpanContext_IsValid parentSc then IsSampled (traceFlags parentSc) else low_bits traceID <=? Zpos m * 2 ^ 64 / 2 ^ (- e)).
Proof.
  intros Hv H1 H0 Hn. destruct (between_zero_and_one r Hv H1 H0 Hn) as (m & e & -> & He).
  assert (NewRatioSampler (S754_finite false m e) = Zpos m * 2 ^ 64 / 2 ^ (- e)) as E.
  { unfold NewRatioSampler. rewrite H1, H0.
    replace (of_Z max_uint64) with (S754_finite false 4503599627370496 12) by (vm_compute; reflexivity).
    destruct (mul_2_64 m e Hv He) as (m' & k & -> & Hk & Hm). unfold to_uint64. rewrite (trunc_scaled m) by done. cbn [in_range].
    destruct (valid_digits _ _ _ Hv) as (Hd & _ & _). pose proof (digits2_spec m) as [_ Hhi].
    assert (2 ^ digits2 m <= 2 ^ 53) by (apply Z.pow_le_mono_r; lia).
    assert (2 ^ 53 <= 2 ^ (- e)) by (apply Z.pow_le_mono_r; lia).
    rewrite (proj2 (Z.leb_le _ _)) by (apply Z.div_pos; lia).
    rewrite (proj2 (Z.ltb_lt _ _)); [done|]. apply Z.div_lt_upper_bound; nia. }
  exists m, e. rewrite E. split_and!; [done|done|done| | |done].
  - apply Z.div_pos; [lia|apply Z.pow_pos_nonneg; lia].
  - destruct (valid_digits _ _ _ Hv) as (Hd & _ & _). pose proof (digits2_spec m) as [_ Hhi].
    assert (2 ^ digits2 m <= 2 ^ 53) by (apply Z.pow_le_mono_r; lia).
    assert (2 ^ 53 <= 2 ^ (- e)) by (apply Z.pow_le_mono_r; lia).
    apply Z.div_lt_upper_bound; nia.
Qed.

(** At the ends: everything is sampled, or only traces whose low bits are all
    zero; what a ratio that is not a number gives depends on the machine. *)
Lemma ratio_ends r : (f_le one r = true → NewRatioSampler r = max_uint64) ∧
  (f_le one r = false → f_le r zero = true → NewRatioSampler r = 0) ∧
  NewRatioSampler S754_nan = uint64_undefined S754_nan.
Proof. unfold NewRatioSampler. split_and!; [by intros ->|by intros -> ->|done]. Qed.
End ratio.

(** ** Contexts *)

(** What a context carries for this package, the latest value first; the span of
    [ContextWithSpan] may be nil. *)
Inductive ctx_value := ActiveSpan (span : option nat) | RemoteSpanContext (sc : SpanContext).
Definition context : Type := list ctx_value.

Definition ContextWithSpan (ctx : context) (span : option nat) : context := ActiveSpan span :: ctx.
Definition ContextWithRemoteSpanContext (ctx : context) (sc : SpanContext) : context := RemoteSpanContext sc :: ctx.
Definition ContextWithSpanContext := ContextWithRemoteSpanContext.

Fixpoint SpanFromContext (ctx : context) : option nat :=
  match ctx with
  | [] => None
  | ActiveSpan s :: _ => s
  | RemoteSpanContext _ :: ctx => SpanFromContext ctx
  end.

Fixpoint RemoteSpanContextFromContext (ctx : context) : SpanContext :=
  match ctx with
  | [] => no_context
  | RemoteSpanContext sc :: _ => sc
  | ActiveSpan _ :: ctx => RemoteSpanContextFromContext ctx
  end.

Section tracer.
Context {HX : Hex} {Value : Type}.
Implicit Types (h : heap (Value := Value)) (s : Span (Value := Value)).

(** The accessors of a span. *)
Definition Span_Name s : bytes := sp_name s.
Definition Span_SpanContext s : SpanContext := sp_context s.
Definition Span_ParentSpanContext s : SpanContext := sp_parent s.
Definition Span_Kind s : Z := sp_kind s.
Definition Span_StartTime s : Z := sp_start s.
Definition Span_EndTime s : option Z := sp_end s.
Definition Span_Status s : StatusCode * bytes := (sp_status s, sp_statusDesc s).
Definition Span_Attributes s : list (Attribute (Value := Value)) := sp_attributes s.
Definition Span_Events s : list (Event (Value := Value)) := sp_events s.
Definition AddEvent s (name : bytes) (now : Z) (attrs : list (Attribute (Value := Value))) : Span := AddEventWithTime s name now attrs.
Definition End (t : Tracer) h (id : nat) (now : Z) : heap := EndWithTime t h id now.

Definition TraceIDFromContext h (ctx : context) : bytes :=
  match SpanFromContext ctx with
  | Some id => match h_objects h !! id with Some s => TraceID_String (traceID (sp_context s)) | None => [] end
  | None =>
      let sc := RemoteSpanContextFromContext ctx in
      if SpanContext_IsValid sc then TraceID_String (traceID sc) else []
  end.

(** *** Options *)

Record StartConfig := { Kind : Z; Attributes : list (Attribute (Value := Value)); StartTime : option Z }.
Definition StartOption : Type := StartConfig → StartConfig.
Definition SpanKindInternal : Z := 1.

Definition WithSpanKind (kind : Z) : StartOption := λ c, {| Kind := kind; Attributes := Attributes c; StartTime := StartTime c |}.
Definition WithAttributes (attrs : list Attribute) : StartOption := λ c,
  {| Kind := Kind c; Attributes := Attributes c ++ attrs; StartTime := StartTime c |}.
Definition WithStartTime (time : option Z) : StartOption := λ c, {| Kind := Kind c; Attributes := Attributes c; StartTime := time |}.

Definition apply_options {A} (opts : list (A → A)) (c : A) : A := foldl (λ c f, f c) c opts.

(** An exporter is a number. *)
Record TracerState := { tr_name : bytes; tr_serviceName : bytes; tr_sampler : Sampler; tr_exporter : option nat; tr_closed : bool }.
Definition TracerOption : Type := TracerState → TracerState.

Definition WithTracerServiceName (name : bytes) : TracerOption := λ t,
  {| tr_name := tr_name t; tr_serviceName := name; tr_sampler := tr_sampler t; tr_exporter := tr_exporter t; tr_closed := tr_closed t |}.
Definition WithSampler (sampler : option Sampler) : TracerOption := λ t,
  match sampler with
  | Some f => {| tr_name := tr_name t; tr_serviceName := tr_serviceName t; tr_sampler := f; tr_exporter := tr_exporter t; tr_closed := tr_closed t |}
  | None => t
  end.
Definition WithExporter (exporter : option nat) : TracerOption := λ t,
  {| tr_name := tr_name t; tr_serviceName := tr_serviceName t; tr_sampler := tr_sampler t; tr_exporter := exporter; tr_closed := tr_closed t |}.

Definition NewTracer (name : bytes) (opts : list TracerOption) : TracerState :=
  apply_options opts {| tr_name := name; tr_serviceName := name; tr_sampler := AlwaysSampleSampler; tr_exporter := None; tr_closed := false |}.

Definition ServiceName (t : TracerState) : bytes := tr_serviceName t.

(** The part of a tracer the spans see. *)
Definition running (t : TracerState) : Tracer :=
  {| t_sampler := tr_sampler t; t_exporter := bool_decide (tr_exporter t ≠ None); t_closed := tr_closed t |}.

(** The tracer, and the exporter that is shut down. *)
Definition Shutdown (t : TracerState) : TracerState * option nat :=
  ({| tr_name := tr_name t; tr_serviceName := tr_serviceName t; tr_sampler := tr_sampler t; tr_exporter := tr_exporter t; tr_closed := true |},
   tr_exporter t).

(** *** Starting a span in a context *)

(** The parent [Start] finds: the context of the span the context names, as the
    object is now, else the remote one. *)
Definition parent_of h (ctx : context) : SpanContext :=
  match SpanFromContext ctx with
  | Some id => match h_objects h !! id with Some s => sp_context s | None => no_context end
  | None => RemoteSpanContextFromContext ctx
  end.

Definition StartIn (t : TracerState) h (pooled : option nat) (ctx : context) (name : bytes) (opts : list StartOption) (now : Z)
    (newTrace newSpan : bytes) : heap (Value := Value) * context * nat :=
  let cfg := apply_options opts {| Kind := SpanKindInternal; Attributes := []; StartTime := Some now |} in
  let '(h', id) := Start (running t) h pooled (parent_of h ctx) name (Kind cfg) (Attributes cfg) (StartTime cfg) now newTrace newSpan in
  (h', ContextWithSpan ctx (Some id), id).

(** The object a span starts in: taken from the pool, or new. *)
Definition available h (pooled : option nat) : Prop :=
  match pooled with Some id => id ∈ h_free h ∧ (id < length (h_objects h))%nat | None => True end.

Lemma set_attributes_context s attrs : sp_context (SetAttributes s attrs) = sp_context s ∧ sp_parent (SetAttributes s attrs) = sp_parent s.
Proof. unfold SetAttributes. destruct attrs; [done|]. by destruct (sp_ended s). Qed.

Lemma Start_object t h pooled parentSc name kind attrs start now tr sp : available h pooled →
  let '(h', id) := Start t h pooled parentSc name kind attrs start now tr sp in
  ∃ s, h_objects h' !! id = Some s ∧ sp_context s = child_context t parentSc name kind tr sp ∧ sp_parent s = parentSc ∧
    (id ∉ h_free h → (∀ k, h_free h !! k ≠ Some id)) ∧
    (∀ k, k ≠ id → (k < length (h_objects h))%nat → h_objects h' !! k = h_objects h !! k).
Proof.
  unfold Start, available. intros Ha. destruct pooled as [id|]; cbn.
  - destruct Ha as [_ Hlt]. destruct (lookup_lt_is_Some_2 _ _ Hlt) as [old Hold].
    eexists. split; [by rewrite list_lookup_alter_eq, Hold|]. split_and!.
    + by rewrite (proj1 (set_attributes_context _ _)).
    + by rewrite (proj2 (set_attributes_context _ _)).
    + intros Hn k Hk. apply Hn. by eapply list_elem_of_lookup_2.
    + intros k Hk _. by rewrite list_lookup_alter_ne.
  - eexists. split; [by rewrite lookup_app_r, Nat.sub_diag|]. split_and!.
    + by rewrite (proj1 (set_attributes_context _ _)).
    + by rewrite (proj2 (set_attributes_context _ _)).
    + intros Hn k Hk. apply Hn. by eapply list_elem_of_lookup_2.
    + intros k Hk Hlt. by rewrite lookup_app_l.
Qed.

(** A span started in a context joins the trace of its parent: the span
    of the context if it has one, else the remote context; without a valid parent
    it begins a new trace.  It is the active span of the returned context, and
    what the context carried before is untouched. *)
Theorem start_joins_trace t h pooled ctx name opts now tr sp : available h pooled →
  let '(h', ctx', id) := StartIn t h pooled ctx name opts now tr sp in
  ∃ s, h_objects h' !! id = Some s ∧ SpanFromContext ctx' = Some id ∧
    RemoteSpanContextFromContext ctx' = RemoteSpanContextFromContext ctx ∧
    sp_parent s = parent_of h ctx ∧ spanID (sp_context s) = sp ∧
    traceID (sp_context s) = (if SpanContext_IsValid (parent_of h ctx) then traceID (parent_of h ctx) else tr) ∧
    traceState (sp_context s) = traceState (parent_of h ctx) ∧
    TraceIDFromContext h' ctx' = TraceID_String (traceID (sp_context s)).
Proof.
  intros Ha. unfold StartIn. set (cfg := apply_options opts _).
  pose proof (Start_object (running t) h pooled (parent_of h ctx) name (Kind cfg) (Attributes cfg) (StartTime cfg) now tr sp Ha) as H.
  destruct (Start _ _ _ _ _ _ _ _ _ _ _) as [h' id]. destruct H as (s & Hs & Hc & Hp & _ & _). exists s.
  unfold TraceIDFromContext. cbn. rewrite Hs, Hc. split_and!; done.
Qed.

(** A span object that went back to the pool has no context. *)
Lemma released_context h id s : h_objects h !! id = Some s → h_objects (release h id) !! id = Some (releaseSpan s).
Proof. intros Hs. unfold release. cbn. by rewrite list_lookup_alter_eq, Hs. Qed.

(** A span started in the context of a span that has ended and was not exported
    begins a new trace, and loses the parent. *)
Theorem late_child_loses_trace t h pooled ctx id s endTime name opts now tr sp :
  SpanFromContext ctx = Some id → h_objects h !! id = Some s → sp_ended s = false → sp_traced s = true →
  t_exporter (running t) = false ∨ IsSampled (traceFlags (sp_context s)) = false →
  available (EndWithTime (running t) h id endTime) pooled →
  let '(h', _, child) := StartIn t (EndWithTime (running t) h id endTime) pooled ctx name opts now tr sp in
  ∃ c, h_objects h' !! child = Some c ∧ traceID (sp_context c) = tr ∧ sp_parent c = no_context.
Proof.
  intros Hctx Hs He Ht Hx Ha.
  assert (h_objects (EndWithTime (running t) h id endTime) !! id = Some (releaseSpan (mark_ended s endTime))) as Hrel.
  { unfold EndWithTime. rewrite Hs, He, Ht. unfold processSpan.
    assert (h_objects (on_span h id (λ s, mark_ended s endTime)) !! id = Some (mark_ended s endTime)) as Hm
      by (cbn; by rewrite list_lookup_alter_eq, Hs).
    rewrite Hm. cbn [sp_context mark_ended].
    assert (t_closed (running t) || negb (t_exporter (running t)) || negb (IsSampled (traceFlags (sp_context s))) = true) as ->
      by (destruct Hx as [-> | ->]; rewrite ?orb_true_r; done).
    by apply released_context. }
  pose proof (start_joins_trace t _ pooled ctx name opts now tr sp Ha) as H.
  destruct (StartIn _ _ _ _ _ _ _ _ _) as [[h' ctx'] child]. destruct H as (c & Hc & _ & _ & Hp & _ & Htr & _). exists c.
  assert (parent_of (EndWithTime (running t) h id endTime) ctx = no_context) as Hn by (unfold parent_of; by rewrite Hctx, Hrel).
  rewrite Hn in *. by split_and!.
Qed.

(** Worse, when the object has been taken for another span in between, the late
    child joins the trace of that one. *)
Theorem late_child_joins_stranger t h ctx id s other_ctx name1 opts1 now1 tr1 sp1 name2 opts2 now2 tr2 sp2 :
  SpanFromContext ctx = Some id → h_objects h !! id = Some s → id ∈ h_free h → SpanFromContext other_ctx = None →
  RemoteSpanContextFromContext other_ctx = no_context → TraceID_IsValid tr1 = true → SpanID_IsValid sp1 = true →
  let '(h1, _, other) := StartIn t h (Some id) other_ctx name1 opts1 now1 tr1 sp1 in
  let '(h2, _, child) := StartIn t h1 None ctx name2 opts2 now2 tr2 sp2 in
  ∃ c, h_objects h2 !! child = Some c ∧ traceID (sp_context c) = tr1 ∧ spanID (sp_parent c) = sp1.
Proof.
  intros Hctx Hs Hf Ho Hr Ht Hsp.
  pose proof (start_joins_trace t h (Some id) other_ctx name1 opts1 now1 tr1 sp1 (conj Hf (lookup_lt_Some _ _ _ Hs))) as H1.
  destruct (StartIn t h (Some id) other_ctx name1 opts1 now1 tr1 sp1) as [[h1 ctx1] other] eqn:E1.
  assert (other = id) as ->.
  { unfold StartIn, Start in E1. cbn in E1. by injection E1 as <- <- <-. }
  destruct H1 as (s1 & Hs1 & _ & _ & _ & Hid & Htr & _ & _).
  assert (parent_of h other_ctx = no_context) as Hno by (unfold parent_of; by rewrite Ho, Hr).
  rewrite Hno in Htr. cbn in Htr.
  pose proof (start_joins_trace t h1 None ctx name2 opts2 now2 tr2 sp2 I) as H2.
  destruct (StartIn t h1 None ctx name2 opts2 now2 tr2 sp2) as [[h2 ctx2] child].
  destruct H2 as (c & Hc & _ & _ & Hp & _ & Htr2 & _). exists c.
  assert (parent_of h1 ctx = sp_context s1) as Hpar by (unfold parent_of; by rewrite Hctx, Hs1).
  rewrite Hpar in *. assert (SpanContext_IsValid (sp_context s1) = true) as Hv.
  { unfold SpanContext_IsValid. rewrite Htr, Hid. change (SpanContext_IsValid no_context) with false. cbv iota. by rewrite Ht, Hsp. }
  rewrite Hv in Htr2. split_and!; [done| |by rewrite Hp].
  rewrite Htr2, Htr. by change (SpanContext_IsValid no_context) with false.
Qed.

(** The options of a tracer: the last sampler that is not nil, the last exporter. *)
Lemma tracer_options name f e : let t := NewTracer name [WithSampler (Some f); WithSampler None; WithExporter (Some e)] in
  tr_sampler t = f ∧ tr_exporter t = Some e ∧ ServiceName t = name ∧ tr_sampler (NewTracer name []) = AlwaysSampleSampler ∧
  (Shutdown t).2 = Some e ∧ t_closed (running (Shutdown t).1) = true.
Proof. done. Qed.
(** ** [WithServiceName] of the middleware

    A configuration holds a pointer to a tracer; the option renames the tracer
    it finds. *)
Definition WithServiceName (name : bytes) (cfg : option nat) (ts : list TracerState) : option nat * list TracerState :=
  match cfg with
  | None => (Some (length ts), ts ++ [NewTracer name [WithTracerServiceName name]])
  | Some p => (cfg, alter (WithTracerServiceName name) p ts)
  end.

(** Two configurations that share a tracer share its name: the last option wins
    for both; a configuration without a tracer gets one of its own. *)
Lemma service_name_shared a b p (ts : list TracerState) t : ts !! p = Some t →
  ServiceName <$> ((WithServiceName b (Some p) (WithServiceName a (Some p) ts).2).2 !! p) = Some b ∧
  (let '(cfg, ts') := WithServiceName a None ts in ServiceName <$> (cfg ≫= λ q, ts' !! q) = Some a ∧ ts' !! p = Some t).
Proof.
  intros Hp. cbn [WithServiceName fst snd]. rewrite !list_lookup_alter_eq, Hp. split; [done|]. cbn [mbind option_bind].
  rewrite list_lookup_middle by done. split; [done|]. rewrite lookup_app_l; [done|]. by eapply lookup_lt_Some.
Qed.

End tracer.

(** ** Concrete traces *)

Module TracerSample.
#[local] Existing Instance ContextSample.lowercase.
#[local] Instance amd64 : FloatConversion := {| int64_undefined _ := - 2 ^ 63; uint64_undefined _ := 2 ^ 63 |}.

Definition quarter : float64 := f_div (of_Z 1) (of_Z 4).

Lemma ratio_threshold_witness : NewRatioSampler quarter = 2 ^ 62.
Proof.
  destruct (ratio_threshold quarter no_context (replicate 16 x01) [] 1) as (m & e & Hq & _ & Hr & _);
    [vm_compute; reflexivity..|vm_compute; discriminate|].
  vm_compute in Hq. injection Hq as <- <-. exact Hr.
Defined.

Example tenth : NewRatioSampler (f_div (of_Z 1) (of_Z 10)) = 1844674407370955264.
Proof. vm_compute. reflexivity. Qed.

Definition tracer : TracerState := NewTracer (str "svc") [].
Definition parent_id : bytes := replicate 8 x02.
Definition trace_id : bytes := replicate 16 x01.
Definition start : heap (Value := Z) * context * nat :=
  Eval vm_compute in StartIn tracer (empty_heap (Value := Z)) None [] (str "parent") [] 5 trace_id parent_id.

Lemma start_joins_trace_witness :
  let '(h', ctx', id) := StartIn tracer start.1.1 None start.1.2 (str "child") [] 6 (replicate 16 x09) (replicate 8 x03) in
  ∃ s, h_objects h' !! id = Some s ∧ traceID (sp_context s) = trace_id.
Proof.
  pose proof (start_joins_trace tracer start.1.1 None start.1.2 (str "child") [] 6 (replicate 16 x09) (replicate 8 x03) I) as H.
  destruct (StartIn _ _ _ _ _ _ _ _ _) as [[h' ctx'] id]. destruct H as (s & Hs & _ & _ & _ & _ & Ht & _).
  exists s. split; [exact Hs|]. exact Ht.
Defined.

Lemma late_child_loses_trace_witness :
  let '(h', _, child) := StartIn tracer (EndWithTime (running tracer) start.1.1 0 7) None start.1.2 (str "late") [] 8 (replicate 16 x09) (replicate 8 x03) in
  ∃ c, h_objects h' !! child = Some c ∧ traceID (sp_context c) = replicate 16 x09.
Proof.
  pose proof (late_child_loses_trace tracer start.1.1 None start.1.2 0 _ 7 (str "late") [] 8 (replicate 16 x09) (replicate 8 x03)
    eq_refl eq_refl eq_refl eq_refl (or_introl eq_refl) I) as H.
  destruct (StartIn _ _ _ _ _ _ _ _ _) as [[h' ctx'] child]. destruct H as (c & Hc & Ht & _). by exists c.
Defined.

Definition ended : heap (Value := Z) := EndWithTime (running tracer) start.1.1 0 7.

Lemma late_child_joins_stranger_witness :
  let '(h1, _, other) := StartIn tracer ended (Some 0%nat) [] (str "other") [] 8 (replicate 16 x05) (replicate 8 x06) in
  let '(h2, _, child) := StartIn tracer h1 None start.1.2 (str "late") [] 9 (replicate 16 x09) (replicate 8 x03) in
  ∃ c, h_objects h2 !! child = Some c ∧ traceID (sp_context c) = replicate 16 x05 ∧ spanID (sp_parent c) = replicate 8 x06.
Proof.
  exact (late_child_joins_stranger tracer ended start.1.2 0 _ [] (str "other") [] 8 (replicate 16 x05) (replicate 8 x06)
    (str "late") [] 9 (replicate 16 x09) (replicate 8 x03) eq_refl eq_refl (list_elem_of_here 0%nat []) eq_refl eq_refl eq_refl eq_refl).
Defined.
End TracerSample.
