(* ===== verification/OtelExporter.v ===== *)
(** * Exporting spans (src/otel/exporter.go)

    The in-memory exporter, the OTLP payload as text, and the queue, worker and
    shutdown of the OTLP exporter as interleaved steps. *)

From S2P Require Import Prelude GoLib GoText GoJson GoQuote OtelContext OtelSpan.

#[local] Open Scope Z_scope.

Section exporter.
Context `{UnicodePrint, Hex}.

Definition writeJSONString (s : bytes) : bytes := Quote s.

(** ** Snapshots *)

(** The values an attribute can have, as the type switch sees them; a float is
    the text [strconv.FormatFloat] gives for it. *)
Inductive AttrValue :=
| VString (s : bytes)
| VInt (z : Z)
| VFloat (text : bytes)
| VBool (b : bool)
| VError (msg : bytes)
| VBytes (s : bytes)
| VStringer (s : bytes)
| VOther.

(** Times are in nanoseconds since the epoch; [None] is the zero time of a span
    that was not ended. *)
Record SpanSnapshot := {
  sn_Name : bytes;
  sn_SpanContext : SpanContext;
  sn_ParentSpanContext : SpanContext;
  sn_Kind : Z;
  sn_StartTime : Z;
  sn_EndTime : option Z;
  sn_Duration : Z;
  sn_Status : StatusCode;
  sn_StatusDescription : bytes;
  sn_Attributes : list (bytes * AttrValue);
  sn_Events : list (Event (Value := AttrValue))
}.

(** [Span.Duration]: until now when the span has not ended. *)
Definition Duration (now : Z) (s : Span (Value := AttrValue)) : Z := default now (sp_end s) - sp_start s.

Definition snapshot (now : Z) (s : Span (Value := AttrValue)) : SpanSnapshot :=
  {| sn_Name := sp_name s; sn_SpanContext := sp_context s; sn_ParentSpanContext := sp_parent s; sn_Kind := sp_kind s;
     sn_StartTime := sp_start s; sn_EndTime := sp_end s; sn_Duration := Duration now s; sn_Status := sp_status s;
     sn_StatusDescription := sp_statusDesc s; sn_Attributes := sp_attributes s; sn_Events := sp_events s |}.

(** ** The payload

    [lit] is a Go string literal, written with single quotes for double ones. *)
Definition lit (s : String.string) : bytes := map (λ c, if c =b "'" then dquote else c) (str s).

Definition value_text (v : AttrValue) : bytes :=
  match v with
  | VString s | VError s | VBytes s | VStringer s => lit "'stringValue':" ++ writeJSONString s
  | VInt z => lit "'intValue':'" ++ Itoa z ++ lit "'"
  | VFloat t => lit "'doubleValue':" ++ t
  | VBool b => if b then lit "'boolValue':true" else lit "'boolValue':false"
  | VOther => lit "'stringValue':" ++ writeJSONString (str "<value>")
  end.

Definition writeOTLPAttribute (a : bytes * AttrValue) : bytes :=
  lit "{'key':" ++ writeJSONString a.1 ++ lit ",'value':{" ++ value_text a.2 ++ lit "}}".

Definition attributes_text (l : list (bytes * AttrValue)) : bytes :=
  match l with
  | [] => []
  | _ => lit ",'attributes':[" ++ Join (map writeOTLPAttribute l) (str ",") ++ lit "]"
  end.

Definition event_text (e : Event (Value := AttrValue)) : bytes :=
  lit "{'timeUnixNano':'" ++ Itoa (ev_Timestamp e) ++ lit "','name':" ++ writeJSONString (ev_Name e) ++
  attributes_text (ev_Attributes e) ++ lit "}".

Definition events_text (l : list (Event (Value := AttrValue))) : bytes :=
  match l with
  | [] => []
  | _ => lit ",'events':[" ++ Join (map event_text l) (str ",") ++ lit "]"
  end.

Definition status_number (s : StatusCode) : Z := match s with StatusUnset => 0 | StatusOk => 1 | StatusError => 2 end.

(** [time.Time{}.UnixNano()], out of range of int64: the low 64 bits. *)
Definition zero_time_nanos : Z := wrap64 (- unixToInternal * Second).

Definition span_text (s : SpanSnapshot) : bytes :=
  lit "{'traceId':'" ++ TraceID_String (traceID (sn_SpanContext s)) ++ lit "','spanId':'" ++
  SpanID_String (spanID (sn_SpanContext s)) ++ lit "'" ++
  (if SpanContext_IsValid (sn_ParentSpanContext s)
   then lit ",'parentSpanId':'" ++ SpanID_String (spanID (sn_ParentSpanContext s)) ++ lit "'" else []) ++
  lit ",'name':" ++ writeJSONString (sn_Name s) ++
  lit ",'kind':" ++ Itoa (sn_Kind s) ++
  lit ",'startTimeUnixNano':'" ++ Itoa (sn_StartTime s) ++
  lit "','endTimeUnixNano':'" ++ Itoa (default zero_time_nanos (sn_EndTime s)) ++ lit "'" ++
  lit ",'status':{'code':" ++ Itoa (status_number (sn_Status s)) ++
  (if negb (bytes_eqb (sn_StatusDescription s) []) then lit ",'message':" ++ writeJSONString (sn_StatusDescription s) else []) ++
  lit "}" ++
  attributes_text (sn_Attributes s) ++
  events_text (sn_Events s) ++
  lit "}".

Definition buildOTLPJSON (batch : list SpanSnapshot) : bytes :=
  lit "{'resourceSpans':[{'scopeSpans':[{'scope':{'name':'github.com/lemon4ksan/aoni-contrib/otel','version':'1.0.0'},'spans':[" ++
  Join (map span_text batch) (str ",") ++ lit "]}]}]}".

(** ** The payload as JSON *)

Definition value_json (v : AttrValue) : json :=
  JObj [match v with
        | VString s | VError s | VBytes s | VStringer s => (str "stringValue", JStr s)
        | VInt z => (str "intValue", JStr (Itoa z))
        | VFloat t => (str "doubleValue", JNum t)
        | VBool b => (str "boolValue", JBool b)
        | VOther => (str "stringValue", JStr (str "<value>"))
        end].

Definition attribute_json (a : bytes * AttrValue) : json := JObj [(str "key", JStr a.1); (str "value", value_json a.2)].

Definition attributes_member (l : list (bytes * AttrValue)) : list (bytes * json) :=
  match l with [] => [] | _ => [(str "attributes", JArr (map attribute_json l))] end.

Definition event_json (e : Event (Value := AttrValue)) : json :=
  JObj ([(str "timeUnixNano", JStr (Itoa (ev_Timestamp e))); (str "name", JStr (ev_Name e))] ++ attributes_member (ev_Attributes e)).

Definition events_member (l : list (Event (Value := AttrValue))) : list (bytes * json) :=
  match l with [] => [] | _ => [(str "events", JArr (map event_json l))] end.

Definition status_json (s : SpanSnapshot) : json :=
  JObj ((str "code", JNum (Itoa (status_number (sn_Status s)))) ::
    (if negb (bytes_eqb (sn_StatusDescription s) []) then [(str "message", JStr (sn_StatusDescription s))] else [])).

Definition span_json (s : SpanSnapshot) : json :=
  JObj ([(str "traceId", JStr (TraceID_String (traceID (sn_SpanContext s)))); (str "spanId", JStr (SpanID_String (spanID (sn_SpanContext s))))] ++
    (if SpanContext_IsValid (sn_ParentSpanContext s)
     then [(str "parentSpanId", JStr (SpanID_String (spanID (sn_ParentSpanContext s))))] else []) ++
    [(str "name", JStr (sn_Name s)); (str "kind", JNum (Itoa (sn_Kind s)));
     (str "startTimeUnixNano", JStr (Itoa (sn_StartTime s)));
     (str "endTimeUnixNano", JStr (Itoa (default zero_time_nanos (sn_EndTime s))));
     (str "status", status_json s)] ++
    attributes_member (sn_Attributes s) ++
    events_member (sn_Events s)).

Definition payload_json (batch : list SpanSnapshot) : json :=
  JObj [(str "resourceSpans", JArr [JObj [(str "scopeSpans", JArr [JObj [
    (str "scope", JObj [(str "name", JStr (str "github.com/lemon4ksan/aoni-contrib/otel")); (str "version", JStr (str "1.0.0"))]);
    (str "spans", JArr (map span_json batch))]])]])].
(** *** The text is the rendering of the JSON *)

Notation rend := (render_with Quote_body).
Notation member := (render_member Quote_body).

Lemma Join_comma (x : bytes) (l : list bytes) : Join (x :: l) (str ",") = x ++ concat (map (λ y, ","%byte :: y) l).
Proof.
  revert x. induction l as [|y l IH]; intros x; [by cbn; rewrite app_nil_r|].
  rewrite Join_cons by done. by rewrite IH.
Qed.

(** The members of an object after the first. *)
Definition more (m : list (bytes * json)) : bytes := concat (map (λ kv, ","%byte :: member kv) m).

Lemma render_object kv m : rend (JObj (kv :: m)) = "{"%byte :: member kv ++ more m ++ str "}".
Proof.
  cbn [render_with]. change (λ kv : bytes * json, quote_with Quote_body kv.1 ++ ":"%byte :: rend kv.2) with member.
  cbn [map]. rewrite Join_comma, map_map. by rewrite <- app_assoc.
Qed.

Lemma more_app m m' : more (m ++ m') = more m ++ more m'.
Proof. unfold more. by rewrite map_app, concat_app. Qed.

Lemma more_cons kv m : more (kv :: m) = ","%byte :: member kv ++ more m.
Proof. done. Qed.

Lemma render_array l : rend (JArr l) = "["%byte :: Join (map rend l) (str ",") ++ str "]".
Proof. done. Qed.

Lemma member_string k v : member (k, JStr v) = quote_with Quote_body k ++ ":"%byte :: writeJSONString v.
Proof. done. Qed.

Lemma Quote_digits z : Quote_body (Itoa z) = Itoa z.
Proof.
  assert (∀ s, Forall (λ c, is_digit c = true) s → Quote_body s = s) as Hd.
  { induction 1 as [|c s Hc Hs IH]; [done|]. cbn [Quote_body]. rewrite IH. clear -Hc. destruct c; done. }
  unfold Itoa. destruct (z <? 0) eqn:E; bools; [|apply Hd; by apply (digits_spec z)].
  cbn [Quote_body]. rewrite Hd by (apply (digits_spec (- z)); lia). done.
Qed.

(** Hexadecimal text in lower case, as hexkit writes it. *)
Hypothesis Encode_hex : ∀ s, Forall (λ c, is_digit c || between "a" "f" c = true) (hex_Encode s).

Lemma Quote_hex s : Quote_body (hex_Encode s) = hex_Encode s.
Proof.
  induction (Encode_hex s) as [|c t Hc Ht IH]; [done|]. cbn [Quote_body]. rewrite IH. clear -Hc. destruct c; done.
Qed.

Ltac texts := unfold writeJSONString, Quote, quote_with; rewrite ?Quote_digits; repeat (rewrite <- ?app_assoc; cbn [app]); reflexivity.

Lemma value_render v : rend (value_json v) = lit "{" ++ value_text v ++ lit "}".
Proof.
  unfold value_json. rewrite render_object. destruct v as [s|z|t|[]|s|s|s|]; unfold render_member; cbn [more fst snd render_with value_text map concat];
    unfold more; cbn [map concat]; texts.
Qed.

Lemma attribute_render a : rend (attribute_json a) = writeOTLPAttribute a.
Proof.
  unfold attribute_json, writeOTLPAttribute. rewrite render_object, more_cons, member_string. unfold render_member at 1, more.
  cbn [fst snd map concat]. rewrite value_render. generalize (value_text a.2). intros t. texts.
Qed.

Lemma attributes_render l : more (attributes_member l) = attributes_text l.
Proof.
  destruct l as [|a l]; [done|]. unfold attributes_member. rewrite more_cons. unfold render_member, more, attributes_text.
  cbn [fst snd]. rewrite render_array. rewrite map_map. rewrite (map_ext _ _ attribute_render).
  generalize (Join (map writeOTLPAttribute (a :: l)) (str ",")). intros t. cbn [map concat]. texts.
Qed.

Lemma event_render e : rend (event_json e) = event_text e.
Proof.
  unfold event_json, event_text. cbn [app]. rewrite render_object, more_cons, attributes_render, !member_string.
  generalize (attributes_text (ev_Attributes e)). intros t. texts.
Qed.

Lemma status_render s : rend (status_json s) =
  lit "{'code':" ++ Itoa (status_number (sn_Status s)) ++
  (if negb (bytes_eqb (sn_StatusDescription s) []) then lit ",'message':" ++ writeJSONString (sn_StatusDescription s) else []) ++ lit "}".
Proof.
  unfold status_json. rewrite render_object. unfold render_member. cbn [fst snd render_with].
  destruct (negb _); unfold more; cbn [map concat]; [rewrite member_string|]; generalize (Itoa (status_number (sn_Status s))); intros t; texts.
Qed.

Lemma events_render l : more (events_member l) = events_text l.
Proof.
  destruct l as [|e l]; [done|]. unfold events_member. rewrite more_cons. unfold render_member, more, events_text. cbn [fst snd].
  rewrite render_array, map_map, (map_ext _ _ event_render). generalize (Join (map event_text (e :: l)) (str ",")). intros t.
  cbn [map concat]. texts.
Qed.

Lemma span_render s : rend (span_json s) = span_text s.
Proof.
  unfold span_json, span_text. cbn [app]. rewrite render_object. repeat rewrite ?more_app, ?more_cons. rewrite attributes_render, !member_string.
  unfold TraceID_String, SpanID_String.
  rewrite events_render.
  generalize (attributes_text (sn_Attributes s)). intros attrs.
  generalize (events_text (sn_Events s)). intros events. unfold render_member. cbn [fst snd]. rewrite status_render.
  cbn [render_with].
  set (msg := if negb _ then _ else _). clearbody msg.
  destruct (SpanContext_IsValid (sn_ParentSpanContext s)); unfold more; cbn [map concat]; rewrite ?member_string; unfold writeJSONString, Quote, quote_with;
    rewrite ?Quote_hex, ?Quote_digits;
    generalize (Quote_body (sn_Name s)), (hex_Encode (traceID (sn_SpanContext s))), (hex_Encode (spanID (sn_SpanContext s))),
      (hex_Encode (spanID (sn_ParentSpanContext s))), (Itoa (sn_Kind s)), (Itoa (sn_StartTime s)),
      (Itoa (default zero_time_nanos (sn_EndTime s))), (Itoa (status_number (sn_Status s))); intros; cbn; rewrite ?app_nil_r;
    repeat (rewrite <- ?app_assoc; cbn [app]); reflexivity.
Qed.

(** *** What is read back *)

(** The ASCII bytes whose quotation JSON understands. *)
Definition json_ascii (c : byte) : bool :=
  ((32 <=? bz c) && (bz c <? 127)) || (c =b x08) || (c =b x0c) || (c =b x0a) || (c =b x0d) || (c =b x09).

(** Texts of such bytes and of printable runes. *)
Fixpoint json_safe (s : bytes) : bool :=
  match s with
  | [] => true
  | a :: s1 =>
      if bz a <? 128 then json_ascii a && json_safe s1 else
      match s1 with
      | [] => false
      | b :: s2 =>
          if utf8_2 a b then IsPrint [a; b] && json_safe s2 else
          match s2 with
          | [] => false
          | c :: s3 =>
              if utf8_3 a b c then IsPrint [a; b; c] && json_safe s3 else
              match s3 with
              | [] => false
              | d :: s4 => utf8_4 a b c d && IsPrint [a; b; c; d] && json_safe s4
              end
          end
      end
  end.

Lemma parse_Quote_ascii a t : bz a < 128 → json_ascii a = true → parse_str (Quote_ascii a ++ t) = cons_res [a] (parse_str t).
Proof. intros Ha Hs. destruct a; first [reflexivity | discriminate Hs | exfalso; vm_compute in Ha; discriminate]. Qed.

Lemma parse_Quote s rest : json_safe s = true → parse_str (Quote_body s ++ dquote :: rest) = Some (s, rest).
Proof.
  remember (length s) as n eqn:En. revert s En. induction n as [n IH] using lt_wf_ind.
  intros [|a s1] -> HV; [done|]. cbn [Quote_body json_safe] in *. destruct (bz a <? 128) eqn:E1.
  { bools. rewrite <- app_assoc, parse_Quote_ascii by done. by rewrite (IH (length s1)) by (done || simpl; lia). }
  bools. destruct s1 as [|b s2]; [done|]. unfold Quote_rune. destruct (utf8_2 a b) eqn:E2.
  { apply andb_true_iff in HV as [-> HV]. cbn [app parse_str]. destruct (not_special a E1) as (-> & -> & -> & ->).
    by rewrite E2, (IH (length s2)) by (done || simpl; lia). }
  destruct s2 as [|c s3]; [done|]. destruct (utf8_3 a b c) eqn:E3.
  { apply andb_true_iff in HV as [-> HV]. cbn [app parse_str]. destruct (not_special a E1) as (-> & -> & -> & ->).
    by rewrite E2, E3, (IH (length s3)) by (done || simpl; lia). }
  destruct s3 as [|d s4]; [done|]. apply andb_true_iff in HV as [HV Hs]. apply andb_true_iff in HV as [E4 ->]. rewrite E4.
  cbn [app parse_str]. destruct (not_special a E1) as (-> & -> & -> & ->). by rewrite E2, E3, E4, (IH (length s4)) by (done || simpl; lia).
Qed.

Definition safe_value (v : AttrValue) : Prop :=
  match v with
  | VString s | VError s | VBytes s | VStringer s => json_safe s = true
  | VFloat t => number_text t
  | _ => True
  end.
Definition safe_attribute (a : bytes * AttrValue) : Prop := json_safe a.1 = true ∧ safe_value a.2.
Definition safe_event (e : Event (Value := AttrValue)) : Prop := json_safe (ev_Name e) = true ∧ Forall safe_attribute (ev_Attributes e).
Definition safe_snapshot (s : SpanSnapshot) : Prop :=
  json_safe (sn_Name s) = true ∧ json_safe (sn_StatusDescription s) = true ∧
  Forall safe_attribute (sn_Attributes s) ∧ Forall safe_event (sn_Events s).

(** The payload is the rendering of its JSON. *)
Lemma payload_render batch : rend (payload_json batch) = buildOTLPJSON batch.
Proof.
  unfold payload_json, buildOTLPJSON. rewrite <- (map_ext _ _ span_render), <- (map_map span_json rend).
  pose proof (render_array (map span_json batch)) as HX. revert HX.
  generalize (JArr (map span_json batch)), (Join (map rend (map span_json batch)) (str ",")). intros X t HX.
  cbn. rewrite HX. repeat (rewrite <- ?app_assoc; cbn [app]). reflexivity.
Qed.


Notation wf := (wf_with json_safe).

Lemma safe_digits z : json_safe (Itoa z) = true.
Proof.
  assert (∀ s, Forall (λ c, is_digit c = true) s → json_safe s = true) as Hd.
  { induction 1 as [|c s Hc Hs IH]; [done|]. cbn [json_safe]. rewrite IH. clear -Hc. by destruct c. }
  unfold Itoa. destruct (z <? 0) eqn:E; bools; [|apply Hd; by apply (digits_spec z)].
  cbn [json_safe]. rewrite Hd by (apply (digits_spec (- z)); lia). done.
Qed.

Lemma safe_hex s : json_safe (hex_Encode s) = true.
Proof. induction (Encode_hex s) as [|c t Hc Ht IH]; [done|]. cbn [json_safe]. rewrite IH. clear -Hc. by destruct c. Qed.

Lemma wf_object d m : 0 < d → Forall (λ kv, json_safe kv.1 = true ∧ wf (d - 1) kv.2) m → wf d (JObj m).
Proof. intros Hd Hm. split; [done|]. induction Hm as [|kv m [Hk Hv] Hm IH]; [done|]. cbn. auto. Qed.

Lemma wf_array d l : 0 < d → Forall (wf (d - 1)) l → wf d (JArr l).
Proof. intros Hd Hl. split; [done|]. induction Hl as [|v l Hv Hl IH]; [done|]. cbn. auto. Qed.

Lemma wf_attributes d l : 3 < d → Forall safe_attribute l →
  Forall (λ kv, json_safe kv.1 = true ∧ wf d kv.2) (attributes_member l).
Proof.
  intros Hd Hl. destruct l as [|a l]; [constructor|]. apply Forall_singleton. split; [done|]. apply wf_array; [lia|].
  apply Forall_map. eapply Forall_impl; [exact Hl|]. intros [k v] [Hk Hv]. apply wf_object; [lia|].
  repeat apply Forall_cons_2; [by split|split; [done|]|constructor]. apply wf_object; [lia|]. apply Forall_singleton.
  destruct v; (split; [done|]); cbn in *; try done. apply safe_digits.
Qed.

Lemma wf_events d l : 6 < d → Forall safe_event l → Forall (λ kv, json_safe kv.1 = true ∧ wf d kv.2) (events_member l).
Proof.
  intros Hd Hl. destruct l as [|e l]; [constructor|]. apply Forall_singleton. split; [done|]. apply wf_array; [lia|].
  apply Forall_map. eapply Forall_impl; [exact Hl|]. intros x [Hn Ha]. apply wf_object; [lia|]. apply Forall_app_2.
  - repeat apply Forall_cons_2; [split; [done|apply safe_digits]|by split|constructor].
  - apply wf_attributes; [lia|done].
Qed.

Lemma wf_span d s : 9 < d → safe_snapshot s → wf d (span_json s).
Proof.
  intros Hd (Hn & Hs & Ha & He). apply wf_object; [lia|]. repeat apply Forall_app_2.
  - repeat apply Forall_cons_2; [split; [done|apply safe_hex]..|constructor].
  - destruct (SpanContext_IsValid _); [|constructor]. apply Forall_singleton. split; [done|apply safe_hex].
  - repeat apply Forall_cons_2; [by split|split; [done|apply Itoa_number]|split; [done|apply safe_digits]..| |constructor].
    split; [done|]. apply wf_object; [lia|]. apply Forall_cons_2; [split; [done|apply Itoa_number]|].
    destruct (negb _); [by apply Forall_singleton|constructor].
  - apply wf_attributes; [lia|done].
  - apply wf_events; [lia|done].
Qed.

(** The text the exporter sends, assembled piece by piece, is a JSON
    document: it parses to the OTLP structure with every span, attribute and
    event of the batch, as long as texts contain no control character that only
    Go escapes can express and floats have a decimal form. *)
Theorem otlp_payload_json batch : Forall safe_snapshot batch →
  parse_json (buildOTLPJSON batch) = Some (payload_json batch).
Proof.
  intros Hb. rewrite <- payload_render. apply (parse_json_with _ json_safe); [apply parse_Quote|].
  apply wf_object; [lia|]. apply Forall_singleton. split; [done|]. apply wf_array; [lia|]. apply Forall_singleton.
  apply wf_object; [lia|]. apply Forall_singleton. split; [done|]. apply wf_array; [lia|]. apply Forall_singleton.
  apply wf_object; [lia|]. repeat apply Forall_cons_2; [| |constructor].
  - split; [done|]. apply wf_object; [lia|]. by repeat apply Forall_cons_2; [..|constructor].
  - split; [done|]. apply wf_array; [lia|]. apply Forall_map. eapply Forall_impl; [exact Hb|]. intros s Hs. apply wf_span; [lia|done].
Qed.
End exporter.

(** ** The endpoint *)

Definition NewOTLPHTTPExporter_endpoint (endpoint : bytes) : bytes :=
  let e := if bytes_eqb endpoint [] then str "http://localhost:4318" else endpoint in
  let e := match last e with Some c => if c =b "/" then removelast e else e | None => e end in
  if (length e <? 10)%nat || negb (bytes_eqb (drop (length e - 10) e) (str "/v1/traces")) then e ++ str "/v1/traces" else e.

(** ** The in-memory exporter *)
Section memory.
Context {Value : Type} (Snapshot : Type) (snap : Span (Value := Value) → Snapshot).

(** [None] is a nil span; released spans are listed. *)
Definition Memory_Export (spans : list (option (Span (Value := Value)))) (m : list Snapshot) :
    list Snapshot * list (Span (Value := Value)) :=
  (m ++ omap (fmap snap) spans, omap id spans).

Definition Memory_Spans (m : list Snapshot) : list Snapshot := m.
Definition Memory_Reset (m : list Snapshot) : list Snapshot := take 0 m.
Definition Memory_Shutdown (m : list Snapshot) : list Snapshot := Memory_Reset m.
End memory.

(** ** The queue and its worker *)
Module Queue.

Definition queue_capacity : nat := 2048.

Inductive worker := Running | Draining | Ended.

(** A call of [Shutdown]: before it looks at the channel, before it closes it,
    waiting for the worker, returned, or panicked. *)
Inductive shutdown := ShutStart | ShutClose | ShutWait | ShutDone | ShutPanic.

Section queue.
Context {A : Type} (batchSize : nat).

(** [exports] lists the spans given to [Export], with whether they were put into the
    queue, [late] those put there after the worker had ended. *)
Record exporter := {
  queue : list A;
  batch : list A;
  sent : list (list A);
  worker_at : worker;
  done : bool;
  calls : list shutdown;
  exports : list (A * bool);
  late : list A
}.

(** The spans that were put into the queue. *)
Definition kept (l : list (A * bool)) : list A := omap (λ x : A * bool, if x.2 then Some x.1 else None) l.
Definition accepted (e : exporter) : list A := kept (exports e).
#[local] Arguments kept : simpl never.

Definition flush (batch : list A) (sent : list (list A)) : list A * list (list A) :=
  match batch with [] => ([], sent) | _ => (take 0 batch, sent ++ [batch]) end.

(** A span is received: the batch is sent when it is full. *)
Definition append_batch (x : A) (batch : list A) (sent : list (list A)) : list A * list (list A) :=
  let b := batch ++ [x] in if (batchSize <=? length b)%nat then flush b sent else (b, sent).

(** A span of [Export]: it is dropped when the queue is full. *)
Definition Export (x : A) (e : exporter) : exporter :=
  let '(Build_exporter q b s w d cs acc lt) := e in
  if (length q <? queue_capacity)%nat
  then Build_exporter (q ++ [x]) b s w d cs (acc ++ [(x, true)]) (match w with Ended => lt ++ [x] | _ => lt end)
  else Build_exporter q b s w d cs (acc ++ [(x, false)]) lt.

(** A step of a call of [Shutdown]: where it goes on, and the channel;
    [None] while it waits for the worker. *)
Definition Shutdown_step (c : shutdown) (w : worker) (d : bool) : option (shutdown * bool) :=
  match c with
  | ShutStart => Some (if d then ShutDone else ShutClose, d)
  | ShutClose => Some (if d then ShutPanic else ShutWait, true)
  | ShutWait => match w with Ended => Some (ShutDone, d) | _ => None end
  | ShutDone | ShutPanic => None
  end.

Inductive step : exporter → exporter → Prop :=
| export x e : step e (Export x e)
| receive x q b s w d cs acc lt b' s' :
    w ≠ Ended → append_batch x b s = (b', s') →
    step (Build_exporter (x :: q) b s w d cs acc lt) (Build_exporter q b' s' w d cs acc lt)
| tick q b s d cs acc lt b' s' :
    flush b s = (b', s') →
    step (Build_exporter q b s Running d cs acc lt) (Build_exporter q b' s' Running d cs acc lt)
| see_done q b s cs acc lt :
    step (Build_exporter q b s Running true cs acc lt) (Build_exporter q b s Draining true cs acc lt)
| drained b s d cs acc lt b' s' :
    flush b s = (b', s') →
    step (Build_exporter [] b s Draining d cs acc lt) (Build_exporter [] b' s' Ended d cs acc lt)
| shut i c c' d' q b s w d cs acc lt :
    cs !! i = Some c → Shutdown_step c w d = Some (c', d') →
    step (Build_exporter q b s w d cs acc lt) (Build_exporter q b s w d' (<[i := c']> cs) acc lt).

Inductive reachable (n : nat) : exporter → Prop :=
| reach_init : reachable n (Build_exporter [] [] [] Running false (replicate n ShutStart) [] [])
| reach_step s s' : reachable n s → step s s' → reachable n s'.

Record queue_inv (e : exporter) : Prop := {
  inv_fifo : accepted e = concat (sent e) ++ batch e ++ queue e;
  inv_sizes : Forall (λ b, (0 < length b <= batchSize)%nat) (sent e);
  inv_batch : (length (batch e) < batchSize)%nat;
  inv_cap : (length (queue e) <= queue_capacity)%nat;
  inv_end : worker_at e = Ended → batch e = [] ∧ queue e = late e;
  inv_late : worker_at e ≠ Ended → late e = [];
  inv_worker : worker_at e ≠ Running → done e = true;
  inv_drops : ∀ i x, exports e !! i = Some (x, false) → (queue_capacity <= length (kept (take i (exports e))))%nat
}.

Lemma kept_app l l' : kept (l ++ l') = kept l ++ kept l'.
Proof. apply omap_app. Qed.

(** A span more, dropped only behind a full queue. *)
Lemma drops_snoc (l : list (A * bool)) y : (∀ i x, l !! i = Some (x, false) → (queue_capacity <= length (kept (take i l)))%nat) →
  (y.2 = false → (queue_capacity <= length (kept l))%nat) →
  ∀ i x, (l ++ [y]) !! i = Some (x, false) → (queue_capacity <= length (kept (take i (l ++ [y]))))%nat.
Proof.
  intros Hl Hy i x [Hi|[Hle Hi]]%lookup_app_Some.
  - rewrite take_app_le by (apply lookup_lt_Some in Hi; lia). by eapply Hl.
  - apply list_lookup_singleton_Some in Hi as [Hi ->]. rewrite take_app_ge, (proj2 (Nat.sub_0_le _ _)) by lia.
    cbn [take]. rewrite app_nil_r. by apply Hy.
Qed.

Hypothesis batch_positive : (0 < batchSize)%nat.

Lemma flush_spec b s b' s' : flush b s = (b', s') → (length b <= batchSize)%nat →
  b' = [] ∧ concat s' = concat s ++ b ∧
  (Forall (λ b, (0 < length b <= batchSize)%nat) s → Forall (λ b, (0 < length b <= batchSize)%nat) s').
Proof.
  intros Hf Hb. destruct b as [|x b]; cbn in Hf; injection Hf as <- <-.
  - by rewrite app_nil_r.
  - rewrite concat_app. cbn. rewrite app_nil_r. split_and!; [done|done|]. intros Hs. apply Forall_app. split; [done|].
    apply Forall_singleton. cbn in *. lia.
Qed.

Lemma append_spec x b s b' s' : append_batch x b s = (b', s') → (length b < batchSize)%nat →
  concat s' ++ b' = concat s ++ b ++ [x] ∧ (length b' < batchSize)%nat ∧
  (Forall (λ b, (0 < length b <= batchSize)%nat) s → Forall (λ b, (0 < length b <= batchSize)%nat) s').
Proof.
  unfold append_batch. intros Ha Hb. destruct (Nat.leb_spec batchSize (length (b ++ [x]))) as [Hle|Hlt].
  - apply flush_spec in Ha as (-> & -> & Hs); [|rewrite length_app; cbn; lia]. rewrite app_nil_r. split_and!; [done|cbn; lia|done].
  - injection Ha as <- <-. split_and!; [done|done|done].
Qed.

Lemma step_queue_inv e e' : queue_inv e → step e e' → queue_inv e'.
Proof.
  intros [H1 H2 H3 H4 H5 H6 H7 H8] Hst. unfold accepted in *. destruct Hst; cbn in *.
  - destruct e as [q b s w d cs acc lt]. unfold Export. destruct (Nat.ltb_spec (length q) queue_capacity) as [Hlt|Hge].
    2:{ cbn in *. split; cbn; try done.
        - unfold accepted. cbn. by rewrite kept_app, app_nil_r.
        - apply drops_snoc; [done|]. intros _. rewrite H1, !length_app. lia. }
    cbn in *. split; cbn; try done; [| | | |by apply drops_snoc].
    + unfold accepted. cbn. rewrite kept_app, H1. cbn. by rewrite <- !app_assoc.
    + rewrite length_app. cbn. lia.
    + intros ->. destruct H5 as [? ->]; done.
    + intros Hw. destruct w; [by apply H6|by apply H6|done].
  - destruct (append_spec _ _ _ _ _ H0 H3) as (Hc & Hl & Hs). split; cbn; try done; auto; try lia.
    + unfold accepted. cbn. rewrite H1. rewrite (app_assoc _ b'), Hc. by rewrite <- !app_assoc.
  - destruct (flush_spec _ _ _ _ H) as (-> & Hc & Hs); [lia|]. split; cbn; try done; auto. unfold accepted. cbn. by rewrite Hc, H1, <- app_assoc.
  - split; cbn; try done; auto.
  - destruct (flush_spec _ _ _ _ H) as (-> & Hc & Hs); [lia|]. split; cbn; try done; auto.
    + unfold accepted. cbn. by rewrite H1, Hc, !app_nil_r.
    + by rewrite H6.
  - split; cbn; try done. intros Hw. specialize (H7 Hw). destruct c; cbn in *; repeat case_match; simplify_eq; done.
Qed.

Lemma queue_inv_reachable n e : reachable n e → queue_inv e.
Proof.
  induction 1 as [|s s' Hr IH Hst]; [|by eapply step_queue_inv]. split; cbn; try done; lia.
Qed.

(** Spans leave in the order they were accepted, each once, in batches
    of one to [batchSize]; what is not sent yet waits in the batch or in the
    queue, which never exceeds its capacity; and when the worker has ended,
    everything accepted before has been sent and only spans exported later
    remain, which are never sent. *)
Theorem exporter_delivers n e : reachable n e →
  accepted e = concat (sent e) ++ batch e ++ queue e ∧
  Forall (λ b, (0 < length b <= batchSize)%nat) (sent e) ∧
  (length (queue e) <= queue_capacity)%nat ∧
  (worker_at e = Ended → accepted e = concat (sent e) ++ late e).
Proof.
  intros [H1 H2 H3 H4 H5 H6 H7]%queue_inv_reachable. split_and!; [done..|].
  intros Hw. destruct (H5 Hw) as [Hb Hq]. by rewrite H1, Hb, Hq.
Qed.

(** Two concurrent calls of [Shutdown] can both find the channel
    open; the second to close it panics. *)
Theorem concurrent_shutdown_panics : ∃ e, reachable 2 e ∧ ShutPanic ∈ calls e.
Proof.
  exists (Build_exporter [] [] [] Running true [ShutWait; ShutPanic] [] []). split; [|right; left].
  pose proof (reach_init 2) as H0.
  pose proof (reach_step _ _ _ H0 (shut 0 ShutStart ShutClose false [] [] [] Running false [ShutStart; ShutStart] [] [] eq_refl eq_refl)) as H1.
  pose proof (reach_step _ _ _ H1 (shut 1 ShutStart ShutClose false [] [] [] Running false [ShutClose; ShutStart] [] [] eq_refl eq_refl)) as H2.
  pose proof (reach_step _ _ _ H2 (shut 0 ShutClose ShutWait true [] [] [] Running false [ShutClose; ShutClose] [] [] eq_refl eq_refl)) as H3.
  exact (reach_step _ _ _ H3 (shut 1 ShutClose ShutPanic true [] [] [] Running true [ShutWait; ShutClose] [] [] eq_refl eq_refl)).
Qed.

(** A single call does not panic, and returns only after everything accepted so
    far was sent. *)
Lemma single_shutdown e : reachable 1 e →
  ∃ c, calls e = [c] ∧ c ≠ ShutPanic ∧ (c = ShutStart ∨ c = ShutClose → done e = false) ∧ (c = ShutDone → worker_at e = Ended).
Proof.
  induction 1 as [|s s' Hr IH Hst]; [by exists ShutStart|].
  destruct IH as (c & Hc & Hp & Hd & He).
  destruct Hst; cbn in *; try (exists c; split_and!; naive_solver).
  - exists c. destruct e as [q b s w d cs acc lt]. unfold Export. destruct (length q <? queue_capacity)%nat; split_and!; naive_solver.
  - subst cs. destruct i as [|i]; [|done]. cbn in *. simplify_eq. eexists. split; [done|].
    destruct c0; cbn in *; repeat case_match; simplify_eq; split_and!; naive_solver.
Qed.
End queue.
End Queue.

(** ** Concrete exports *)
Module ExportSample.

#[local] Instance print : UnicodePrint := {| IsPrint := λ _, true |}.
#[local] Existing Instance ContextSample.lowercase.

Lemma lowercase_hex s : Forall (λ c, is_digit c || between "a" "f" c = true) (hex_Encode s).
Proof.
  cbn. induction s as [|c s IH]; [constructor|]. cbn. apply Forall_cons_2; [by destruct c|]. apply Forall_cons_2; [by destruct c|done].
Qed.

Definition snap (name : bytes) : SpanSnapshot :=
  {| sn_Name := name; sn_SpanContext := ContextSample.sample; sn_ParentSpanContext := ContextSample.sample; sn_Kind := 3;
     sn_StartTime := 1700000000000000000; sn_EndTime := Some 1700000001000000000; sn_Duration := 1000000000;
     sn_Status := StatusError; sn_StatusDescription := str "x<y" ++ [dquote]; sn_Attributes := [(str "k", VInt (-7)); (str "b", VBool true)];
     sn_Events := [{| ev_Name := str "e"; ev_Timestamp := 5; ev_Attributes := [(str "f", VOther)] |}] |}.

Lemma otlp_payload_json_witness :
  Forall safe_snapshot [snap (str "GET /a"); snap (str "b")] ∧
  parse_json (buildOTLPJSON [snap (str "GET /a"); snap (str "b")]) = Some (payload_json [snap (str "GET /a"); snap (str "b")]).
Proof.
  assert (Forall safe_snapshot [snap (str "GET /a"); snap (str "b")]) as Hs.
  { repeat apply Forall_cons_2; [..|apply Forall_nil_2]; (split; [reflexivity|split; [reflexivity|split]]);
      repeat first [apply Forall_cons_2|apply Forall_nil_2|split; [reflexivity|]]; try exact I; reflexivity. }
  split; [exact Hs|]. apply (otlp_payload_json lowercase_hex _ Hs).
Defined.

(** A control character in a name is written with an escape that JSON does not
    have: the whole batch is unreadable. *)
Example control_character_breaks_payload : parse_json (buildOTLPJSON [snap (str "ok"); snap [x01]]) = None.
Proof. vm_compute. reflexivity. Qed.

(** So is a float that is not a number. *)
Example nan_breaks_payload :
  let s := snap (str "a") in
  parse_json (buildOTLPJSON [{| sn_Name := sn_Name s; sn_SpanContext := sn_SpanContext s; sn_ParentSpanContext := sn_ParentSpanContext s;
    sn_Kind := 3; sn_StartTime := 1; sn_EndTime := None; sn_Duration := 0; sn_Status := StatusOk; sn_StatusDescription := [];
    sn_Attributes := [(str "v", VFloat (str "NaN"))]; sn_Events := [] |}]) = None.
Proof. vm_compute. reflexivity. Qed.

Import Queue.

Definition queued (l : list nat) : list (nat * bool) := map (λ x, (x, true)) l.

(** Three spans with batches of two, a shutdown, and a span that comes too
    late. *)
Definition final : exporter (A := nat) :=
  Build_exporter [4]%nat [] [[1; 2]; [3]]%nat Ended true [ShutDone] (queued [1; 2; 3; 4]%nat) [4]%nat.

Lemma final_reachable : Queue.reachable 2 1 final.
Proof.
  assert (∀ x e e', Queue.reachable (A := nat) 2 1 e → Queue.step 2 e e' → x = e' → Queue.reachable 2 1 x) as Hs
    by (intros x e e' Hr Hst ->; by eapply Queue.reach_step).
  assert (Queue.reachable 2 1 (Build_exporter [1; 2; 3]%nat [] [] Running false [ShutStart] (queued [1; 2; 3]%nat) [])) as H3.
  { eapply Hs; [eapply Hs; [eapply Hs; [apply reach_init|apply (export 2 1%nat)|reflexivity]
      |apply (export 2 2%nat)|reflexivity]|apply (export 2 3%nat)|reflexivity]. }
  assert (Queue.reachable 2 1 (Build_exporter [2; 3]%nat [1]%nat [] Running false [ShutStart] (queued [1; 2; 3]%nat) [])) as H4
    by (eapply Hs; [exact H3|by eapply receive|reflexivity]).
  assert (Queue.reachable 2 1 (Build_exporter [3]%nat [] [[1; 2]]%nat Running false [ShutStart] (queued [1; 2; 3]%nat) [])) as H5
    by (eapply Hs; [exact H4|by eapply receive|reflexivity]).
  assert (Queue.reachable 2 1 (Build_exporter [3]%nat [] [[1; 2]]%nat Running false [ShutClose] (queued [1; 2; 3]%nat) [])) as H6
    by (eapply Hs; [exact H5|by apply (shut 2 0 ShutStart ShutClose false)|reflexivity]).
  assert (Queue.reachable 2 1 (Build_exporter [3]%nat [] [[1; 2]]%nat Running true [ShutWait] (queued [1; 2; 3]%nat) [])) as H7
    by (eapply Hs; [exact H6|by apply (shut 2 0 ShutClose ShutWait true)|reflexivity]).
  assert (Queue.reachable 2 1 (Build_exporter [3]%nat [] [[1; 2]]%nat Draining true [ShutWait] (queued [1; 2; 3]%nat) [])) as H8
    by (eapply Hs; [exact H7|by apply see_done|reflexivity]).
  assert (Queue.reachable 2 1 (Build_exporter [] [3]%nat [[1; 2]]%nat Draining true [ShutWait] (queued [1; 2; 3]%nat) [])) as H9
    by (eapply Hs; [exact H8|by eapply receive|reflexivity]).
  assert (Queue.reachable 2 1 (Build_exporter [] [] [[1; 2]; [3]]%nat Ended true [ShutWait] (queued [1; 2; 3]%nat) [])) as H10
    by (eapply Hs; [exact H9|by eapply drained|reflexivity]).
  assert (Queue.reachable 2 1 (Build_exporter [] [] [[1; 2]; [3]]%nat Ended true [ShutDone] (queued [1; 2; 3]%nat) [])) as H11
    by (eapply Hs; [exact H10|by apply (shut 2 0 ShutWait ShutDone true)|reflexivity]).
  eapply Hs; [exact H11|apply (export 2 4%nat)|reflexivity].
Qed.

Lemma exporter_delivers_witness :
  accepted final = concat (sent final) ++ late final ∧ Forall (λ b, (0 < length b <= 2)%nat) (sent final).
Proof.
  destruct (exporter_delivers 2 ltac:(lia) 1 final final_reachable) as (_ & Hs & _ & He). split; [apply He; reflexivity|exact Hs].
Defined.
End ExportSample.
