(* ===== verification/BufferPools.v ===== *)
(** * Pooled buffers (src/auth/httpsig/base.go, src/otel/exporter.go, src/webtransport/session.go)

    Three packages build texts in buffers they take from a [sync.Pool] and give
    back: string builders for the signature bases, [bytes.Buffer]s for the OTLP
    payloads, byte slices for the datagrams. The elements are objects that point
    to arrays of a memory which all goroutines share; a goroutine at any point
    may be overtaken by others. The text a call builds is the one it would build
    in a buffer of its own, and it stays so, whatever calls follow. *)

From S2P Require Import Prelude GoLib GoText GoURL GoQuote HttpSigBase OtelContext OtelSpan OtelExporter WebTransportCapsule WebTransportSession.

#[local] Open Scope nat_scope.

(** ** Memory *)

Inductive pool_kind := JsonBuffers | StringBuilders | Datagrams.

#[export] Instance pool_kind_eq_dec : EqDecision pool_kind.
Proof. solve_decision. Defined.

(** An element of a pool: the array it points to, and its length. *)
Record object := { o_kind : pool_kind; o_arr : option nat; o_len : nat }.

Definition contents (arrays : list bytes) (ob : object) : bytes :=
  match o_arr ob with None => [] | Some a => match arrays !! a with None => [] | Some c => c end end.
Definition view (arrays : list bytes) (ob : object) : bytes := take (o_len ob) (contents arrays ob).

(** [New] of the three pools, the array being the next one. *)
Definition new_object (k : pool_kind) (arrays : list bytes) : list bytes * object :=
  match k with
  | JsonBuffers => (arrays ++ [replicate 4096 x00], {| o_kind := k; o_arr := Some (length arrays); o_len := 0 |})
  | StringBuilders => (arrays, {| o_kind := k; o_arr := None; o_len := 0 |})
  | Datagrams => (arrays ++ [replicate 2048 x00], {| o_kind := k; o_arr := Some (length arrays); o_len := 2048 |})
  end.

(** The first use of an element: [Buffer.Reset] keeps the array,
    [Builder.Reset] leaves it; the buffer of a datagram is replaced when it is
    too short for [total] bytes. *)
Definition reset (total : nat) (arrays : list bytes) (ob : object) : list bytes * object :=
  match o_kind ob with
  | JsonBuffers => (arrays, {| o_kind := o_kind ob; o_arr := o_arr ob; o_len := 0 |})
  | StringBuilders => (arrays, {| o_kind := o_kind ob; o_arr := None; o_len := 0 |})
  | Datagrams =>
      if length (contents arrays ob) <? total
      then (arrays ++ [replicate total x00], {| o_kind := o_kind ob; o_arr := Some (length arrays); o_len := 0 |})
      else (arrays, {| o_kind := o_kind ob; o_arr := o_arr ob; o_len := 0 |})
  end.

(** Writing: in place where there is room, else into a new array with [extra]
    bytes of room, as the runtime chooses. *)
Definition write (b : bytes) (extra : nat) (arrays : list bytes) (ob : object) : list bytes * object :=
  let c := contents arrays ob in
  if o_len ob + length b <=? length c
  then (from_option (λ a, <[a := take (o_len ob) c ++ b ++ drop (o_len ob + length b) c]> arrays) arrays (o_arr ob),
        {| o_kind := o_kind ob; o_arr := o_arr ob; o_len := o_len ob + length b |})
  else (arrays ++ [view arrays ob ++ b ++ replicate extra x00],
        {| o_kind := o_kind ob; o_arr := Some (length arrays); o_len := o_len ob + length b |}).

(** What a call returns or passes on: bytes of its own, or a string that shares
    the array of the builder. *)
Inductive text := Copied (b : bytes) | Shared (a : option nat) (n : nat).

(** [buildOTLPJSON] copies the buffer, the transport has taken the datagram when
    it returns, and [Builder.String] shares its array. *)
Definition text_of (arrays : list bytes) (ob : object) : text :=
  match o_kind ob with
  | StringBuilders => Shared (o_arr ob) (o_len ob)
  | JsonBuffers | Datagrams => Copied (view arrays ob)
  end.

Definition value (arrays : list bytes) (t : text) : bytes :=
  match t with
  | Copied b => b
  | Shared a n => view arrays {| o_kind := StringBuilders; o_arr := a; o_len := n |}
  end.

(** ** Goroutines *)

(** A call: the pool it uses, what it writes piece by piece, and whether it
    returns a text or, after some pieces, an error. *)
Record call := { c_pool : pool_kind; c_chunks : list bytes; c_ok : bool }.

Inductive pc := AtGet | AtReset (o : nat) | Writing (o : nat) (rest : list bytes) | AtPut (o : nat) | Returned.

Record goroutine := { g_call : call; g_pc : pc; g_text : option text }.

Record world := {
  w_arrays : list bytes;
  w_objects : list object;
  w_free : list nat;                    (* the elements in the pools *)
  w_goroutines : list goroutine
}.

Definition nobody : world := {| w_arrays := []; w_objects := []; w_free := []; w_goroutines := [] |}.

Definition to (p : pc) (t : option text) (g : goroutine) : goroutine := {| g_call := g_call g; g_pc := p; g_text := t |}.

(** Goroutine [i] goes on as [g], having changed object [o] and the memory. *)
Definition update (w : world) (m : list bytes * object) (o i : nat) (g : goroutine) : world :=
  {| w_arrays := m.1; w_objects := <[o := m.2]> (w_objects w); w_free := w_free w; w_goroutines := <[i := g]> (w_goroutines w) |}.

(** One action of goroutine [i]. A pool gives any of its elements, or a new one. *)
Inductive action (w : world) (i : nat) (g : goroutine) : world → Prop :=
  | act_new : g_pc g = AtGet → action w i g
      {| w_arrays := (new_object (c_pool (g_call g)) (w_arrays w)).1;
         w_objects := w_objects w ++ [(new_object (c_pool (g_call g)) (w_arrays w)).2]; w_free := w_free w;
         w_goroutines := <[i := to (AtReset (length (w_objects w))) None g]> (w_goroutines w) |}
  | act_get o ob l1 l2 : g_pc g = AtGet → w_free w = l1 ++ o :: l2 → w_objects w !! o = Some ob → o_kind ob = c_pool (g_call g) → action w i g
      {| w_arrays := w_arrays w; w_objects := w_objects w; w_free := l1 ++ l2; w_goroutines := <[i := to (AtReset o) None g]> (w_goroutines w) |}
  | act_reset o ob : g_pc g = AtReset o → w_objects w !! o = Some ob → action w i g
      (update w (reset (length (concat (c_chunks (g_call g)))) (w_arrays w) ob) o i (to (Writing o (c_chunks (g_call g))) None g))
  | act_write o ob b rest extra : g_pc g = Writing o (b :: rest) → w_objects w !! o = Some ob → action w i g
      (update w (write b extra (w_arrays w) ob) o i (to (Writing o rest) None g))
  | act_text o ob : g_pc g = Writing o [] → c_ok (g_call g) = true → w_objects w !! o = Some ob → action w i g
      (update w (w_arrays w, ob) o i (to (AtPut o) (Some (text_of (w_arrays w) ob)) g))
  | act_error o ob rest : g_pc g = Writing o rest → c_ok (g_call g) = false → w_objects w !! o = Some ob → action w i g
      (update w (w_arrays w, ob) o i (to (AtPut o) None g))
  | act_put o : g_pc g = AtPut o → action w i g
      {| w_arrays := w_arrays w; w_objects := w_objects w; w_free := o :: w_free w; w_goroutines := <[i := to Returned (g_text g) g]> (w_goroutines w) |}.

Inductive move (w : world) : world → Prop :=
  | move_act i g w' : w_goroutines w !! i = Some g → action w i g w' → move w w'
  | move_call c : move w {| w_arrays := w_arrays w; w_objects := w_objects w; w_free := w_free w;
      w_goroutines := w_goroutines w ++ [{| g_call := c; g_pc := AtGet; g_text := None |}] |}
  (* The garbage collector empties pools. *)
  | move_drop l1 o l2 : w_free w = l1 ++ o :: l2 → move w
      {| w_arrays := w_arrays w; w_objects := w_objects w; w_free := l1 ++ l2; w_goroutines := w_goroutines w |}.

Inductive reach : world → Prop :=
  | reach_nobody : reach nobody
  | reach_move w w' : reach w → move w w' → reach w'.

(** ** What the operations do to the memory *)

Definition object_ok (arrays : list bytes) (ob : object) : Prop :=
  match o_arr ob with
  | None => o_len ob = 0
  | Some a => ∃ c : bytes, arrays !! a = Some c ∧ o_len ob <= length c
  end.

(** Arrays are only added, and one array may change; the object keeps it, leaves
    it or takes a new one. *)
Record changes (arrays arrays' : list bytes) (ob ob' : object) : Prop := {
  ch_kind : o_kind ob' = o_kind ob;
  ch_ok : object_ok arrays' ob';
  ch_length : length arrays <= length arrays';
  ch_size : ∀ a (c : bytes), arrays !! a = Some c → ∃ c' : bytes, arrays' !! a = Some c' ∧ length c' = length c;
  ch_frame : ∀ a (c : bytes), arrays !! a = Some c → o_arr ob ≠ Some a → arrays' !! a = Some c;
  ch_array : o_arr ob' = None ∨ o_arr ob' = o_arr ob ∨ o_arr ob' = Some (length arrays)
}.

Lemma changes_add (arrays : list bytes) (c : bytes) ob ob' :
  o_kind ob' = o_kind ob → o_arr ob' = Some (length arrays) → o_len ob' <= length c → changes arrays (arrays ++ [c]) ob ob'.
Proof.
  intros Hk Ha Hl. split; [done|..|by rewrite Ha; auto].
  - unfold object_ok. rewrite Ha. exists c. split; [|done]. by apply list_lookup_middle.
  - rewrite length_app. lia.
  - intros a d Hd. exists d. split; [|done]. by apply lookup_app_l_Some.
  - intros a d Hd _. by apply lookup_app_l_Some.
Qed.

Lemma changes_len arrays ob ob' : object_ok arrays ob' → o_kind ob' = o_kind ob → o_arr ob' = o_arr ob ∨ o_arr ob' = None →
  changes arrays arrays ob ob'.
Proof. intros Hok Hk Ha. split; try done; [intros; eauto|tauto]. Qed.

Lemma contents_lookup (arrays : list bytes) ob (a : nat) (c : bytes) : o_arr ob = Some a → arrays !! a = Some c → contents arrays ob = c.
Proof. intros Ha Hc. unfold contents. by rewrite Ha, Hc. Qed.

Lemma object_len arrays ob : object_ok arrays ob → o_len ob <= length (contents arrays ob).
Proof.
  unfold object_ok. destruct (o_arr ob) as [a|] eqn:Ea; [|lia]. intros (c & Hc & Hl). by rewrite (contents_lookup _ _ a c).
Qed.

Lemma reset_changes total arrays ob : object_ok arrays ob →
  changes arrays (reset total arrays ob).1 ob (reset total arrays ob).2 ∧ view (reset total arrays ob).1 (reset total arrays ob).2 = [] ∧
  (∀ a c, arrays !! a = Some c → (reset total arrays ob).1 !! a = Some c) ∧
  (o_kind ob = StringBuilders → o_arr (reset total arrays ob).2 = None).
Proof.
  intros Hok. assert (object_ok arrays {| o_kind := o_kind ob; o_arr := o_arr ob; o_len := 0 |}) as Hkeep.
  { unfold object_ok in *. cbn. destruct (o_arr ob); [|done]. destruct Hok as (c & Hc & _). exists c. split; [done|lia]. }
  unfold reset. destruct (o_kind ob) eqn:Ek; [..|destruct (_ <? _)]; cbn [fst snd].
  - split_and!; [by apply changes_len; auto|done..].
  - split_and!; [by apply changes_len; auto|done..].
  - split_and!; [by apply changes_add; cbn; [rewrite Ek| |lia]|done| |done]. intros a c Hc. by apply lookup_app_l_Some.
  - split_and!; [by apply changes_len; auto|done..].
Qed.

Lemma write_changes b extra arrays ob : object_ok arrays ob →
  changes arrays (write b extra arrays ob).1 ob (write b extra arrays ob).2 ∧
  view (write b extra arrays ob).1 (write b extra arrays ob).2 = view arrays ob ++ b.
Proof.
  intros Hok. pose proof (object_len _ _ Hok) as Hlen. unfold write.
  destruct (_ <=? _) eqn:Efit; bools; cbn [fst snd].
  - unfold object_ok in Hok. destruct (o_arr ob) as [a|] eqn:Ea; cbn [from_option].
    + destruct Hok as (c & Hc & Hl). assert (contents arrays ob = c) as Hcc by (by eapply contents_lookup).
      rewrite Hcc in *. set (c' := take (o_len ob) c ++ b ++ drop (o_len ob + length b) c).
      assert (length c' = length c) as Hlc. { unfold c'. rewrite !length_app, length_take, length_drop. lia. }
      assert (<[a := c']> arrays !! a = Some c') as Hn. { apply list_lookup_insert_eq. by eapply lookup_lt_Some. }
      split.
      * split; cbn; [done|..|rewrite Ea; auto].
        -- exists c'. split; [done|lia].
        -- by rewrite length_insert.
        -- intros a' d Hd. destruct (decide (a = a')) as [<-|Hne]; [exists c'; split; [done|congruence]|]. exists d. by rewrite list_lookup_insert_ne.
        -- intros a' d Hd Hne. rewrite list_lookup_insert_ne; [done|congruence].
      * unfold view. rewrite (contents_lookup _ _ a c'), Hcc by done. cbn [o_len]. unfold c'.
        rewrite app_assoc, take_app_le by (rewrite length_app, length_take; lia).
        rewrite take_ge by (rewrite length_app, length_take; lia). done.
    + assert (contents arrays ob = []) as Hcc by (unfold contents; by rewrite Ea). rewrite Hcc in *. cbn in Efit.
      assert (b = []) as -> by (destruct b; [done|cbn in *; lia]). split; [apply changes_len; cbn; auto; unfold object_ok; cbn; lia|].
      rewrite app_nil_r. unfold view, contents. cbn. by rewrite Ea, !take_nil.
  - assert (length (view arrays ob) = o_len ob) as Hv by (unfold view; rewrite length_take; lia). split.
    + apply changes_add; cbn; [done..|]. rewrite !length_app. lia.
    + unfold view at 1, contents. cbn [o_arr o_len]. rewrite list_lookup_middle by done. cbn [default].
      rewrite app_assoc, take_app_le by (rewrite length_app; lia). by rewrite take_ge by (rewrite length_app; lia).
Qed.

(** ** The invariant *)

Definition holder (g : goroutine) : option nat :=
  match g_pc g with AtReset o | Writing o _ | AtPut o => Some o | AtGet | Returned => None end.
Definition held (w : world) : list nat := omap holder (w_goroutines w).

Definition writes (w : world) (o : nat) : Prop := ∃ j g rest, w_goroutines w !! j = Some g ∧ g_pc g = Writing o rest.

Definition holds (objects : list object) (o : nat) (c : call) : Prop := ∃ ob, objects !! o = Some ob ∧ o_kind ob = c_pool c.

Definition text_ok (arrays : list bytes) (g : goroutine) : Prop :=
  if c_ok (g_call g)
  then ∃ t, g_text g = Some t ∧ value arrays t = concat (c_chunks (g_call g)) ∧ (∀ a n, t = Shared (Some a) n → a < length arrays)
  else g_text g = None.

Definition goroutine_ok (arrays : list bytes) (objects : list object) (g : goroutine) : Prop :=
  match g_pc g with
  | AtGet => g_text g = None
  | AtReset o => g_text g = None ∧ holds objects o (g_call g)
  | Writing o rest => g_text g = None ∧ ∃ ob, objects !! o = Some ob ∧ o_kind ob = c_pool (g_call g) ∧
      view arrays ob ++ concat rest = concat (c_chunks (g_call g))
  | AtPut o => holds objects o (g_call g) ∧ text_ok arrays g
  | Returned => text_ok arrays g
  end.

(** Every element is in a pool once or held by one goroutine; no two share an
    array; the array of a string that was returned is not written any more. *)
Record pools_inv (w : world) : Prop := {
  v_own : NoDup (w_free w ++ held w);
  v_known : ∀ o, o ∈ w_free w ++ held w → o < length (w_objects w);
  v_ok : ∀ o ob, w_objects w !! o = Some ob → object_ok (w_arrays w) ob;
  v_apart : ∀ o1 o2 ob1 ob2 a, w_objects w !! o1 = Some ob1 → w_objects w !! o2 = Some ob2 →
    o_arr ob1 = Some a → o_arr ob2 = Some a → o1 = o2;
  v_goroutine : ∀ i g, w_goroutines w !! i = Some g → goroutine_ok (w_arrays w) (w_objects w) g;
  v_shared : ∀ i g a n o ob, w_goroutines w !! i = Some g → g_text g = Some (Shared (Some a) n) →
    w_objects w !! o = Some ob → o_arr ob = Some a → o_kind ob = StringBuilders ∧ ¬ writes w o
}.

Lemma text_in w i g a n : pools_inv w → w_goroutines w !! i = Some g → g_text g = Some (Shared (Some a) n) →
  a < length (w_arrays w) ∧ text_ok (w_arrays w) g.
Proof.
  intros [_ _ _ _ Hg _] Hi Ht. specialize (Hg i g Hi). unfold goroutine_ok in Hg.
  assert (text_ok (w_arrays w) g) as Hok.
  { destruct (g_pc g); [congruence|destruct Hg; congruence|destruct Hg; congruence|tauto|done]. }
  split; [|done]. unfold text_ok in Hok. destruct (c_ok _); [|congruence]. destruct Hok as (t & Ht' & _ & Hl).
  rewrite Ht in Ht'. injection Ht' as <-. by eapply Hl.
Qed.

(** The value of a text depends on its own array only. *)
Lemma text_ok_frame A A' g : text_ok A g → length A <= length A' →
  (∀ a n c, g_text g = Some (Shared (Some a) n) → A !! a = Some c → A' !! a = Some c) → text_ok A' g.
Proof.
  intros Hok Hlen Hf. unfold text_ok in *. destruct (c_ok _); [|done]. destruct Hok as (t & Ht & Hv & Hl). exists t. split; [done|].
  split; [|intros a n E; specialize (Hl a n E); lia]. rewrite <- Hv. destruct t as [b|[a|] n]; [done| |done].
  specialize (Hl a n eq_refl). apply lookup_lt_is_Some in Hl as [c Hc]. cbn [value]. unfold view. cbn [o_len].
  rewrite (contents_lookup A' _ a c), (contents_lookup A _ a c) by eauto. done.
Qed.

Lemma holds_insert objects o ob ob' o' c : objects !! o = Some ob → o_kind ob' = o_kind ob →
  holds objects o' c → holds (<[o := ob']> objects) o' c.
Proof.
  intros Ho Hk (ob1 & H1 & H2). destruct (decide (o = o')) as [<-|Hne].
  - exists ob'. split; [apply list_lookup_insert_eq; by eapply lookup_lt_Some|]. congruence.
  - exists ob1. by rewrite list_lookup_insert_ne.
Qed.

(** No two goroutines hold the same element. *)
Lemma held_once w i j g g' o : pools_inv w → w_goroutines w !! i = Some g → w_goroutines w !! j = Some g' →
  holder g = Some o → holder g' = Some o → i = j.
Proof. intros [Hn _ _ _ _ _] Hi Hj Hg Hg'. apply NoDup_app in Hn as (_ & _ & Hn). by eapply omap_NoDup_lookup. Qed.

Lemma held_insert w i g g' : w_goroutines w !! i = Some g →
  omap holder (<[i := g']> (w_goroutines w)) ++ option_list (holder g) ≡ₚ option_list (holder g') ++ held w.
Proof. intros Hi. by apply omap_insert. Qed.

(** *** A goroutine that works on its element *)

Section working.
Context (w : world) (m : list bytes * object) (o i : nat) (g g' : goroutine) (ob : object).
Hypothesis Hinv : pools_inv w.
Hypothesis Hi : w_goroutines w !! i = Some g.
Hypothesis Ho : w_objects w !! o = Some ob.
Hypothesis Hg : holder g = Some o.
Hypothesis Hg' : holder g' = Some o.
Hypothesis Hch : changes (w_arrays w) m.1 ob m.2.
Hypothesis Hmem : (∀ a c, w_arrays w !! a = Some c → m.1 !! a = Some c) ∨ ∃ rest, g_pc g = Writing o rest.
Hypothesis Hwr : ∀ rest, g_pc g' = Writing o rest → (∃ rest', g_pc g = Writing o rest') ∨ (o_kind ob = StringBuilders → o_arr m.2 = None).
Hypothesis Htext : g_text g' = None ∨ (m = (w_arrays w, ob) ∧ g_text g' = Some (text_of (w_arrays w) ob) ∧ g_pc g' = AtPut o).
Hypothesis Hok : goroutine_ok m.1 (<[o := m.2]> (w_objects w)) g'.

Lemma working_held : held (update w m o i g') ≡ₚ held w.
Proof using Hi Hg Hg'.
  pose proof (held_insert w i g g' Hi) as Hp. rewrite Hg, Hg' in Hp. cbn in Hp.
  rewrite Permutation_app_comm in Hp. by apply Permutation_cons_inv in Hp.
Qed.

Lemma working_object o' ob' : <[o := m.2]> (w_objects w) !! o' = Some ob' → (o = o' ∧ ob' = m.2) ∨ (o ≠ o' ∧ w_objects w !! o' = Some ob').
Proof. apply lookup_insert_cases. Qed.

Lemma working_goroutine j gj : <[i := g']> (w_goroutines w) !! j = Some gj → (i = j ∧ gj = g') ∨ (i ≠ j ∧ w_goroutines w !! j = Some gj).
Proof. apply lookup_insert_cases. Qed.

(** The array of a returned string is not the one being written. *)
Lemma working_free j gj a n : w_goroutines w !! j = Some gj → g_text gj = Some (Shared (Some a) n) → o_arr ob = Some a →
  (∃ rest, g_pc g = Writing o rest) → False.
Proof using Hinv Hi Ho.
  intros Hj Ht Ha [rest Hr]. destruct (v_shared w Hinv j gj a n o ob Hj Ht Ho Ha) as [_ Hn]. apply Hn. by exists i, g, rest.
Qed.

Lemma working_writes o' : writes (update w m o i g') o' →
  (∃ j gj rest, i ≠ j ∧ w_goroutines w !! j = Some gj ∧ g_pc gj = Writing o' rest) ∨ (o' = o ∧ ∃ rest, g_pc g' = Writing o rest).
Proof using Hg'.
  intros (j & gj & rest & Hj & Hpc). cbn in Hj. destruct (working_goroutine j gj Hj) as [[_ ->]|[Hne Hj']]; [right|left; by exists j, gj, rest].
  unfold holder in Hg'. rewrite Hpc in Hg'. injection Hg' as ->. eauto.
Qed.

Lemma working_separate o2 ob2 a : o ≠ o2 → w_objects w !! o2 = Some ob2 → o_arr m.2 = Some a → o_arr ob2 = Some a → False.
Proof using Hinv Ho Hch.
  intros Hne H2 E1 E2. destruct (ch_array _ _ _ _ Hch) as [E|[E|E]]; [congruence|..].
  - apply Hne. eapply (v_apart w Hinv o o2 ob ob2 a); congruence.
  - pose proof (v_ok w Hinv o2 ob2 H2) as Hw. unfold object_ok in Hw. rewrite E2 in Hw. destruct Hw as (c & Hc & _).
    apply lookup_lt_Some in Hc. assert (a = length (w_arrays w)) as -> by congruence. by eapply Nat.lt_irrefl.
Qed.

Lemma working_apart o1 o2 ob1 ob2 a : <[o := m.2]> (w_objects w) !! o1 = Some ob1 → <[o := m.2]> (w_objects w) !! o2 = Some ob2 →
  o_arr ob1 = Some a → o_arr ob2 = Some a → o1 = o2.
Proof using Hinv Ho Hch.
  intros H1 H2 E1 E2. destruct (working_object _ _ H1) as [[<- ->]|[N1 H1']], (working_object _ _ H2) as [[<- ->]|[N2 H2']]; [done|..].
  - destruct (working_separate o2 ob2 a); done.
  - destruct (working_separate o1 ob1 a); done.
  - by eapply (v_apart w Hinv).
Qed.

(** The element of another goroutine keeps its bytes. *)
Lemma working_view o' ob' : o ≠ o' → w_objects w !! o' = Some ob' → view m.1 ob' = view (w_arrays w) ob'.
Proof using Hinv Ho Hch.
  intros Hoo Hob'. unfold view. f_equal. pose proof (v_ok w Hinv o' ob' Hob') as Hw. unfold object_ok in Hw. unfold contents.
  destruct (o_arr ob') as [a|] eqn:Ea; [|done]. destruct Hw as (c & Hc & _).
  assert (m.1 !! a = Some c) as -> by (apply (ch_frame _ _ _ _ Hch); [done|]; intros E'; apply Hoo; by eapply (v_apart w Hinv)).
  by rewrite Hc.
Qed.

Lemma working_others j gj : <[i := g']> (w_goroutines w) !! j = Some gj → goroutine_ok m.1 (<[o := m.2]> (w_objects w)) gj.
Proof using Hinv Hi Ho Hg Hch Hmem Hok.
  intros Hj. destruct (working_goroutine _ _ Hj) as [[_ ->]|[Hne Hj']]; [done|]. pose proof (v_goroutine w Hinv j gj Hj') as Hgj.
  assert (text_ok (w_arrays w) gj → text_ok m.1 gj) as Hframe.
  { intros Ht. eapply text_ok_frame; [done|apply Hch|]. intros a n c Hs Hc. destruct Hmem as [Hm|Hm]; [by apply Hm|].
    apply (ch_frame _ _ _ _ Hch); [done|]. intros E. by eapply working_free. }
  assert (∀ o' c, holds (w_objects w) o' c → holds (<[o := m.2]> (w_objects w)) o' c) as Hholds
    by (intros; eapply holds_insert; [done|apply Hch|done]).
  unfold goroutine_ok in *. destruct (g_pc gj) as [|o'|o' rest|o'|] eqn:Epc; [done|..].
  - destruct Hgj. auto.
  - destruct Hgj as (E & ob' & Hob' & Hk & Hv). split; [done|]. assert (o ≠ o') as Hoo.
    { intros <-. apply Hne. eapply (held_once w i); [done..|]. unfold holder. by rewrite Epc. }
    exists ob'. rewrite list_lookup_insert_ne by done. split_and!; [done..|]. by rewrite <- Hv, (working_view o' ob').
  - destruct Hgj. auto.
  - by apply Hframe.
Qed.

Lemma working_shared j gj a n o' ob' : <[i := g']> (w_goroutines w) !! j = Some gj → g_text gj = Some (Shared (Some a) n) →
  <[o := m.2]> (w_objects w) !! o' = Some ob' → o_arr ob' = Some a → o_kind ob' = StringBuilders ∧ ¬ writes (update w m o i g') o'.
Proof using Hinv Hi Ho Hg Hg' Hch Hwr Htext.
  intros Hj Ht Ho' Ha. destruct (working_goroutine _ _ Hj) as [[<- ->]|[Hne Hj']].
  - destruct Htext as [E|(Em & E & Epc)]; [congruence|]. rewrite Em in Ho'. cbn in Ho'. rewrite list_insert_id in Ho' by done. rewrite E in Ht.
    unfold text_of in Ht. destruct (o_kind ob) eqn:Ek; try done. injection Ht as Ha' _.
    assert (o' = o) as -> by (by eapply (v_apart w Hinv o' o ob' ob a)).
    split; [congruence|]. intros [(j & gj & rest & Hne & Hj2 & Hpc)|[_ [rest Hr]]]%working_writes; [|congruence].
    apply Hne. eapply (held_once w i); [done..|]. unfold holder. by rewrite Hpc.
  - pose proof (text_in w j gj a n Hinv Hj' Ht) as [Hlt _]. destruct (working_object _ _ Ho') as [[<- ->]|[No Ho1]].
    + assert (o_arr ob = Some a) as Hob.
      { destruct (ch_array _ _ _ _ Hch) as [E|[E|E]]; [congruence..|]. assert (a = length (w_arrays w)) as -> by congruence. by apply Nat.lt_irrefl in Hlt. }
      destruct (v_shared w Hinv j gj a n o ob Hj' Ht Ho Hob) as [Hk Hn]. split; [rewrite (ch_kind _ _ _ _ Hch); done|].
      intros [(j' & gj' & rest & _ & Hj2 & Hpc)|[_ [rest Hr]]]%working_writes; [apply Hn; by exists j', gj', rest|].
      destruct (Hwr rest Hr) as [?|Hnone]; [by eapply working_free|]. rewrite (Hnone Hk) in Ha. done.
    + destruct (v_shared w Hinv j gj a n o' ob' Hj' Ht Ho1 Ha) as [Hk Hn]. split; [done|].
      intros [(j' & gj' & rest & _ & Hj2 & Hpc)|[-> _]]%working_writes; [apply Hn; by exists j', gj', rest|done].
Qed.

Lemma pools_update_inv : pools_inv (update w m o i g').
Proof using All.
  constructor; cbn [update w_free w_objects w_arrays w_goroutines].
  - change (NoDup (w_free w ++ held (update w m o i g'))). rewrite working_held. apply Hinv.
  - intros o' Hin. rewrite length_insert. apply (v_known w Hinv). change (o' ∈ w_free w ++ held (update w m o i g')) in Hin. by rewrite working_held in Hin.
  - intros o' ob' H'. destruct (working_object _ _ H') as [[_ ->]|[_ H1]]; [apply Hch|]. pose proof (v_ok w Hinv o' ob' H1) as Hw. unfold object_ok in *.
    destruct (o_arr ob') as [a|]; [|done]. destruct Hw as (c & Hc & Hl). destruct (ch_size _ _ _ _ Hch a c Hc) as (c' & Hc' & E). exists c'. rewrite E. done.
  - apply working_apart.
  - apply working_others.
  - apply working_shared.
Qed.
End working.

(** Memory that only grows. *)
Definition extends (A A' : list bytes) : Prop := ∀ (a : nat) (c : bytes), A !! a = Some c → A' !! a = Some c.

Lemma extends_length A A' : extends A A' → length A <= length A'.
Proof.
  intros He. destruct (decide (length A <= length A')) as [|Hn]; [done|]. destruct (lookup_lt_is_Some_2 A (length A')) as [c Hc]; [lia|].
  apply He, lookup_lt_Some in Hc. lia.
Qed.

Lemma object_ok_extends A A' ob : extends A A' → object_ok A ob → object_ok A' ob ∧ view A' ob = view A ob.
Proof.
  unfold object_ok, view, contents. intros He. destruct (o_arr ob) as [a|]; [|done]. intros (c & Hc & Hl). rewrite Hc, (He a c Hc). eauto.
Qed.

Lemma goroutine_ok_extends A A' O O' g : extends A A' → (∀ o ob, O !! o = Some ob → O' !! o = Some ob ∧ object_ok A ob) →
  goroutine_ok A O g → goroutine_ok A' O' g.
Proof.
  intros He Ho. assert (∀ o, holds O o (g_call g) → holds O' o (g_call g)) as Hh.
  { intros o (ob & H1 & H2). exists ob. split; [by apply Ho|done]. }
  assert (text_ok A g → text_ok A' g) as Ht.
  { intros Ht. eapply text_ok_frame; [done|by apply extends_length|]. intros a n c _ Hc. by apply He. }
  unfold goroutine_ok. destruct (g_pc g) as [|o|o rest|o|]; [done|..|done].
  - intros [? ?]. auto.
  - intros (E & ob & H1 & H2 & H3). split; [done|]. exists ob. destruct (Ho _ _ H1) as [H4 H5].
    by rewrite (proj2 (object_ok_extends A A' ob He H5)).
  - intros [? ?]. auto.
Qed.

(** Calls that arrive, take an element or give one back keep the invariant. *)
Lemma exchange_inv w w' n : pools_inv w → extends (w_arrays w) (w_arrays w') →
  w_objects w' = w_objects w ++ option_list n →
  (∀ ob, n = Some ob → object_ok (w_arrays w') ob ∧ ∀ a, o_arr ob = Some a → length (w_arrays w) <= a) →
  NoDup (w_free w' ++ held w') → (∀ o, o ∈ w_free w' ++ held w' → o < length (w_objects w')) →
  (∀ j gj, w_goroutines w' !! j = Some gj → w_goroutines w !! j = Some gj ∨
     (goroutine_ok (w_arrays w') (w_objects w') gj ∧ (∀ o rest, g_pc gj ≠ Writing o rest) ∧
      (g_text gj = None ∨ ∃ g0, w_goroutines w !! j = Some g0 ∧ g_text g0 = g_text gj))) →
  pools_inv w'.
Proof.
  intros Hinv He Eo Hn Hnd Hkn Hg.
  assert (∀ o ob, w_objects w' !! o = Some ob → w_objects w !! o = Some ob ∨ (n = Some ob ∧ o = length (w_objects w))) as Hold.
  { intros o ob. rewrite Eo, lookup_app_Some. intros [?|[Hl Hs]]; [by left|right]. destruct n as [ob'|]; [|done].
    apply list_lookup_singleton_Some in Hs as [E <-]. split; [done|lia]. }
  assert (∀ a ob, n = Some ob → o_arr ob = Some a → a < length (w_arrays w) → False) as Hnew.
  { intros a ob E Ea Hl. pose proof (proj2 (Hn ob E) a Ea). lia. }
  assert (∀ o ob a, w_objects w !! o = Some ob → o_arr ob = Some a → a < length (w_arrays w)) as Hlt.
  { intros o ob a Ho Ea. pose proof (v_ok w Hinv o ob Ho) as Hw. unfold object_ok in Hw. rewrite Ea in Hw. destruct Hw as (c & Hc & _).
    by apply lookup_lt_Some in Hc. }
  constructor; [done..| | | |].
  - intros o ob [Ho|[E _]]%Hold; [|by apply Hn]. eapply object_ok_extends; [done|by apply (v_ok w Hinv o)].
  - intros o1 o2 ob1 ob2 a [H1|[E1 ->]]%Hold [H2|[E2 ->]]%Hold A1 A2.
    + by eapply (v_apart w Hinv).
    + destruct (Hnew a ob2); eauto.
    + destruct (Hnew a ob1); eauto.
    + done.
  - intros j gj Hj. destruct (Hg j gj Hj) as [Hj'|[? _]]; [|done]. eapply goroutine_ok_extends; [done| |by apply (v_goroutine w Hinv j)].
    intros o ob Ho. split; [rewrite Eo; by apply lookup_app_l_Some|by apply (v_ok w Hinv o)].
  - intros j gj a k o ob Hj Ht Ho Ea. assert (∃ g0, w_goroutines w !! j = Some g0 ∧ g_text g0 = Some (Shared (Some a) k)) as (g0 & Hj0 & Ht0).
    { destruct (Hg j gj Hj) as [Hj'|(_ & _ & [E|(g0 & ? & ?)])]; [eauto|congruence|]. exists g0. split; congruence. }
    pose proof (text_in w j g0 a k Hinv Hj0 Ht0) as [Ha _]. destruct (Hold o ob Ho) as [Ho'|[E _]]; [|by destruct (Hnew a ob)].
    destruct (v_shared w Hinv j g0 a k o ob Hj0 Ht0 Ho' Ea) as [Hk Hnw]. split; [done|]. intros (i & gi & rest & Hi & Hpc). apply Hnw.
    destruct (Hg i gi Hi) as [Hi'|(_ & Hw & _)]; [by exists i, gi, rest|]. by destruct (Hw o rest).
Qed.

Lemma new_object_ok k A : extends A (new_object k A).1 ∧ object_ok (new_object k A).1 (new_object k A).2 ∧
  o_kind (new_object k A).2 = k ∧ ∀ a, o_arr (new_object k A).2 = Some a → length A <= a.
Proof.
  assert (∀ c, extends A (A ++ [c])) as He by (intros c a d Hd; by apply lookup_app_l_Some).
  assert (∀ c len, len <= length c → object_ok (A ++ [c]) {| o_kind := k; o_arr := Some (length A); o_len := len |}) as Ho.
  { intros c len Hl. exists c. split; [by apply list_lookup_middle|done]. }
  destruct k; unfold new_object; cbn [fst snd o_kind o_arr].
  - split_and!; [apply He|apply Ho; lia|done|]. intros a Ha. injection Ha as <-. lia.
  - split_and!; [by intros a c|done..].
  - split_and!; [apply He|apply Ho; by rewrite length_replicate|done|]. intros a Ha. injection Ha as <-. lia.
Qed.

(** The elements that are held when goroutine [i] gets or gives back one. *)
Lemma held_take w i g o : w_goroutines w !! i = Some g → holder g = None → omap holder (<[i := to (AtReset o) None g]> (w_goroutines w)) ≡ₚ o :: held w.
Proof. intros Hi Hh. pose proof (held_insert w i g (to (AtReset o) None g) Hi) as Hp. rewrite Hh in Hp. by rewrite app_nil_r in Hp. Qed.

Lemma held_give w i g o t : w_goroutines w !! i = Some g → holder g = Some o → o :: omap holder (<[i := to Returned t g]> (w_goroutines w)) ≡ₚ held w.
Proof. intros Hi Hh. pose proof (held_insert w i g (to Returned t g) Hi) as Hp. rewrite Hh, Permutation_app_comm in Hp. done. Qed.

Lemma extends_refl A : extends A A.
Proof. by intros a c. Qed.

Lemma text_of_value A ob : value A (text_of A ob) = view A ob.
Proof. unfold text_of. by destruct (o_kind ob). Qed.

Lemma text_of_array A ob a n : object_ok A ob → text_of A ob = Shared (Some a) n → a < length A.
Proof.
  unfold text_of, object_ok. destruct (o_kind ob); [done| |done]. intros Hok E. injection E as Ea _. rewrite Ea in Hok.
  destruct Hok as (c & Hc & _). by eapply lookup_lt_Some.
Qed.

Lemma action_inv w i g w' : pools_inv w → w_goroutines w !! i = Some g → action w i g w' → pools_inv w'.
Proof.
  intros Hinv Hi Ha. pose proof (v_goroutine w Hinv i g Hi) as Hgo. pose proof (v_ok w Hinv) as Hok.
  pose proof (v_own w Hinv) as Hnd. pose proof (v_known w Hinv) as Hkn.
  assert (∀ g' j gj, <[i := g']> (w_goroutines w) !! j = Some gj → (i = j ∧ gj = g') ∨ w_goroutines w !! j = Some gj) as Hcase
    by (intros ??? [?|[_ ?]]%lookup_insert_cases; auto).
  destruct Ha as [Hpc|o ob l1 l2 Hpc Hf Ho Hk|o ob Hpc Ho|o ob b rest extra Hpc Ho|o ob Hpc Hc Ho|o ob rest Hpc Hc Ho|o Hpc];
    unfold goroutine_ok in Hgo; rewrite Hpc in Hgo.
  - destruct (new_object_ok (c_pool (g_call g)) (w_arrays w)) as (N1 & N2 & N3 & N4).
    assert (holder g = None) as Hh by (unfold holder; by rewrite Hpc). pose proof (held_take w i g (length (w_objects w)) Hi Hh) as Hp.
    eapply (exchange_inv w _ (Some _)); [done|done|reflexivity|by intros ? [= <-]|..]; cbn [w_free w_goroutines w_objects w_arrays held].
    + rewrite Hp. rewrite <- Permutation_middle. apply NoDup_cons. split; [|done]. intros Hin%Hkn. lia.
    + intros o. rewrite Hp, <- Permutation_middle, length_app, elem_of_cons. cbn. intros [->|Hin%Hkn]; lia.
    + intros j gj [[<- ->]|]%Hcase; [right|by left]. split; [|by split; [|left]]. split; [done|]. eexists. split; [by apply list_lookup_middle|done].
  - assert (holder g = None) as Hh by (unfold holder; by rewrite Hpc). pose proof (held_take w i g o Hi Hh) as Hp.
    assert ((l1 ++ l2) ++ o :: held w ≡ₚ w_free w ++ held w) as Hsame by (rewrite Hf; solve_Permutation).
    eapply (exchange_inv w _ None); cbn [w_free w_goroutines w_objects w_arrays held]; [done|apply extends_refl|by rewrite app_nil_r|done|..].
    + by rewrite Hp, Hsame.
    + intros o'. rewrite Hp, Hsame. apply Hkn.
    + intros j gj [[<- ->]|]%Hcase; [right|by left]. split; [|by split; [|left]]. split; [done|]. by exists ob.
  - destruct (reset_changes (length (concat (c_chunks (g_call g)))) (w_arrays w) ob (Hok o ob Ho)) as (R1 & R2 & R3 & R4).
    destruct Hgo as (_ & ob' & Ho' & Hk). assert (ob' = ob) as -> by congruence.
    eapply pools_update_inv; [done..|unfold holder; by rewrite Hpc|done|done|by left|by right|by left|].
    split; [done|]. eexists. split; [apply list_lookup_insert_eq; by eapply lookup_lt_Some|]. rewrite R2. split; [|done]. by rewrite (ch_kind _ _ _ _ R1).
  - destruct (write_changes b extra (w_arrays w) ob (Hok o ob Ho)) as (R1 & R2).
    destruct Hgo as (_ & ob' & Ho' & Hk & Hv). assert (ob' = ob) as -> by congruence.
    eapply pools_update_inv; [done..|unfold holder; by rewrite Hpc|done|done|right; eauto|left; eauto|by left|].
    split; [done|]. eexists. split; [apply list_lookup_insert_eq; by eapply lookup_lt_Some|]. rewrite R2. split; [by rewrite (ch_kind _ _ _ _ R1)|].
    rewrite <- app_assoc. exact Hv.
  - destruct Hgo as (_ & ob' & Ho' & Hk & Hv). assert (ob' = ob) as -> by congruence.
    eapply pools_update_inv; [done..|unfold holder; by rewrite Hpc|done|by apply changes_len; auto; apply (Hok o)|left; by apply extends_refl|done|by right|].
    cbn [fst snd]. rewrite list_insert_id by done. split; [by exists ob|]. unfold text_ok. cbn [to g_call g_text]. rewrite Hc. eexists. split; [done|].
    rewrite app_nil_r in Hv. split; [by rewrite text_of_value|]. intros a n. by apply text_of_array, (Hok o).
  - assert (holds (w_objects w) o (g_call g)) as Hh by (destruct Hgo as (_ & ob' & ? & ? & _); by exists ob').
    eapply pools_update_inv; [done..|unfold holder; by rewrite Hpc|done|by apply changes_len; auto; apply (Hok o)|left; by apply extends_refl|done|by left|].
    cbn [fst snd]. rewrite list_insert_id by done. split; [done|]. unfold text_ok. cbn. by rewrite Hc.
  - assert (holder g = Some o) as Hh by (unfold holder; by rewrite Hpc). pose proof (held_give w i g o (g_text g) Hi Hh) as Hp.
    eapply (exchange_inv w _ None); cbn [w_free w_goroutines w_objects w_arrays held]; [done|apply extends_refl|by rewrite app_nil_r|done|..].
    + rewrite <- Hp in Hnd. by rewrite <- Permutation_middle in Hnd.
    + intros o' Hin. apply Hkn. rewrite <- Hp. by rewrite <- Permutation_middle.
    + intros j gj [[<- ->]|]%Hcase; [right|by left]. split; [apply Hgo|]. split; [done|]. right. by exists g.
Qed.

Lemma pools_move_inv w w' : pools_inv w → move w w' → pools_inv w'.
Proof.
  intros Hinv [i g w1 Hi Ha|c|l1 o l2 Hf]; [by eapply action_inv|..].
  - eapply (exchange_inv w _ None); cbn [w_free w_goroutines w_objects w_arrays]; [done|apply extends_refl|by rewrite app_nil_r|done|..].
    + unfold held. cbn [w_goroutines]. rewrite omap_app. cbn. rewrite app_nil_r. apply Hinv.
    + unfold held. cbn [w_goroutines]. rewrite omap_app. cbn. rewrite app_nil_r. apply Hinv.
    + intros j gj. rewrite lookup_app_Some. intros [?|[_ [_ <-]%list_lookup_singleton_Some]]; [by left|right]. by split; [|split; [|left]].
  - pose proof (v_own w Hinv) as Hnd. pose proof (v_known w Hinv) as Hkn.
    assert (w_free w ++ held w ≡ₚ o :: (l1 ++ l2) ++ held w) as Hp by (rewrite Hf; solve_Permutation).
    eapply (exchange_inv w _ None); cbn [w_free w_goroutines w_objects w_arrays]; [done|apply extends_refl|by rewrite app_nil_r|done|..].
    + rewrite Hp in Hnd. by apply NoDup_cons in Hnd as [_ Hnd].
    + intros o' Hin. apply Hkn. rewrite Hp. by right.
    + by left.
Qed.

Lemma pools_reach_inv w : reach w → pools_inv w.
Proof.
  induction 1 as [|w w' _ IH Hm]; [|by eapply pools_move_inv]. constructor; cbn; try done; [constructor|].
  intros o Hin. by apply not_elem_of_nil in Hin.
Qed.

(** ** The calls of the program *)

Section programs.
Context `{UnicodeCase, UnicodePrint, HX : Hex, V : Varint}.

(** The calls, with the pieces they write, and the text each is to build. *)
Inductive program_call : call → bytes → Prop :=
  | call_json batch chunks : concat chunks = buildOTLPJSON batch →
      program_call {| c_pool := JsonBuffers; c_chunks := chunks; c_ok := true |} (buildOTLPJSON batch)
  | call_base ord ctx params chunks b : BuildSignatureBase ord ctx params = Ok b → concat chunks = b →
      program_call {| c_pool := StringBuilders; c_chunks := chunks; c_ok := true |} b
  | call_params params chunks b : SerializeSignatureParams params = Ok b → concat chunks = b →
      program_call {| c_pool := StringBuilders; c_chunks := chunks; c_ok := true |} b
  | call_identifier raw c chunks : ParseComponentIdentifier raw = Ok c → concat chunks = pc_Serialized c →
      program_call {| c_pool := StringBuilders; c_chunks := chunks; c_ok := true |} (pc_Serialized c)
  | call_datagram s p ans b : s_sent (SendDatagram s p ans).1 = s_sent s ++ [b] →
      program_call {| c_pool := Datagrams; c_chunks := [vi_append (s_sessionID s / 4)%Z; p]; c_ok := true |} b.

Lemma program_call_text c b : program_call c b → c_ok c = true ∧ concat (c_chunks c) = b.
Proof.
  intros [| | | |s p ans b' Hs]; [done..|]. split; [done|]. cbn. rewrite app_nil_r. unfold SendDatagram in Hs.
  destruct (s_closed s); cbn in Hs; [|by apply app_inv_head in Hs as [= <-]].
  apply (f_equal length) in Hs. rewrite length_app in Hs. cbn in Hs. lia.
Qed.

(** C4: whatever calls run at the same time and share the pools, a call that has
    returned has built the text the function defines, the same as in a buffer of
    its own, and the text keeps its value while later calls use the element
    again; an element is in a pool once or held by one goroutine. *)
Theorem pooled_texts w i g b : reach w → w_goroutines w !! i = Some g → g_pc g = Returned → program_call (g_call g) b →
  (∃ t, g_text g = Some t ∧ value (w_arrays w) t = b) ∧ NoDup (w_free w ++ held w).
Proof.
  intros Hr Hi Hpc [Hok <-]%program_call_text. pose proof (pools_reach_inv w Hr) as Hinv. split; [|apply Hinv].
  pose proof (v_goroutine w Hinv i g Hi) as Hg. unfold goroutine_ok, text_ok in Hg. rewrite Hpc, Hok in Hg. destruct Hg as (t & Ht & Hv & _). eauto.
Qed.
End programs.

(** The actions a call has before it. *)
Definition work (g : goroutine) : nat :=
  match g_pc g with
  | AtGet => 4 + length (c_chunks (g_call g))
  | AtReset _ => 3 + length (c_chunks (g_call g))
  | Writing _ rest => 2 + length rest
  | AtPut _ => 1
  | Returned => 0
  end.

(** No call waits for another: a call that has not returned can act, and each of
    its actions brings it nearer to its return. *)
Theorem pooled_calls_return w i g : reach w → w_goroutines w !! i = Some g →
  (g_pc g ≠ Returned → ∃ w', action w i g w') ∧
  (∀ w', action w i g w' → ∃ g', w_goroutines w' !! i = Some g' ∧ g_call g' = g_call g ∧ work g' < work g).
Proof.
  intros Hr Hi. pose proof (v_goroutine w (pools_reach_inv w Hr) i g Hi) as Hg. unfold goroutine_ok in Hg. split.
  - intros Hpc. destruct (g_pc g) as [|o|o rest|o|] eqn:E; [..|done].
    + eexists. by apply act_new.
    + destruct Hg as (_ & ob & Ho & _). eexists. by eapply act_reset.
    + destruct Hg as (_ & ob & Ho & _). destruct rest as [|b rest]; [|eexists; by eapply (act_write _ _ _ _ _ _ _ 0)].
      destruct (c_ok (g_call g)) eqn:Ec; eexists; [by eapply act_text|by eapply act_error].
    + eexists. by eapply act_put.
  - intros w' Ha. assert (∀ g', <[i := g']> (w_goroutines w) !! i = Some g') as Hn by (intros; apply list_lookup_insert_eq; by eapply lookup_lt_Some).
    unfold work at 2. destruct Ha as [Hpc|o ob l1 l2 Hpc|o ob Hpc|o ob b rest extra Hpc|o ob Hpc|o ob rest Hpc|o Hpc]; rewrite Hpc;
      eexists; (split; [apply Hn|]); split; try done; unfold work; cbn; lia.
Qed.

(** ** Schedules

    The actions as a function of what the runtime decides: a new element or the
    one at a place of the pool, and the room of a new array. *)

Inductive choice := Fresh | Take (k : nat) | Room (extra : nat).

Definition act (w : world) (i : nat) (ch : choice) : option world :=
  g ← w_goroutines w !! i;
  match g_pc g, ch with
  | AtGet, Take k =>
      o ← w_free w !! k;
      ob ← w_objects w !! o;
      if bool_decide (o_kind ob = c_pool (g_call g))
      then Some {| w_arrays := w_arrays w; w_objects := w_objects w; w_free := take k (w_free w) ++ drop (S k) (w_free w);
                   w_goroutines := <[i := to (AtReset o) None g]> (w_goroutines w) |}
      else None
  | AtGet, _ =>
      let m := new_object (c_pool (g_call g)) (w_arrays w) in
      Some {| w_arrays := m.1; w_objects := w_objects w ++ [m.2]; w_free := w_free w;
              w_goroutines := <[i := to (AtReset (length (w_objects w))) None g]> (w_goroutines w) |}
  | AtReset o, _ =>
      ob ← w_objects w !! o;
      Some (update w (reset (length (concat (c_chunks (g_call g)))) (w_arrays w) ob) o i (to (Writing o (c_chunks (g_call g))) None g))
  | Writing o (b :: rest), _ =>
      ob ← w_objects w !! o;
      Some (update w (write b (match ch with Room e => e | _ => 0 end) (w_arrays w) ob) o i (to (Writing o rest) None g))
  | Writing o [], _ =>
      ob ← w_objects w !! o;
      Some (update w (w_arrays w, ob) o i (to (AtPut o) (if c_ok (g_call g) then Some (text_of (w_arrays w) ob) else None) g))
  | AtPut o, _ =>
      Some {| w_arrays := w_arrays w; w_objects := w_objects w; w_free := o :: w_free w; w_goroutines := <[i := to Returned (g_text g) g]> (w_goroutines w) |}
  | Returned, _ => None
  end.

Lemma act_sound w i ch w' : act w i ch = Some w' → move w w'.
Proof.
  unfold act. destruct (w_goroutines w !! i) as [g|] eqn:Hi; [|done]. cbn. intros Ha. eapply move_act; [exact Hi|].
  destruct (g_pc g) as [|o|o [|b rest]|o|] eqn:Hpc; [|destruct (w_objects w !! o) as [ob|] eqn:Ho; [|done]..| |done].
  - destruct ch as [|k|e]; [injection Ha as <-; by apply act_new| |injection Ha as <-; by apply act_new].
    destruct (w_free w !! k) as [o|] eqn:Hk; [|done]. cbn in Ha. destruct (w_objects w !! o) as [ob|] eqn:Ho; [|done]. cbn in Ha.
    case_bool_decide; [|done]. injection Ha as <-. eapply act_get; [done| |done..]. symmetry. by apply take_drop_middle.
  - injection Ha as <-. by apply act_reset.
  - destruct (c_ok (g_call g)) eqn:Ec; injection Ha as <-; [by apply act_text|by eapply act_error].
  - injection Ha as <-. by apply act_write.
  - injection Ha as <-. by apply act_put.
Qed.

(** Calls that arrive and then run by a schedule. *)
Definition start (cs : list call) : world :=
  {| w_arrays := []; w_objects := []; w_free := []; w_goroutines := map (λ c, {| g_call := c; g_pc := AtGet; g_text := None |}) cs |}.
Definition run (w : world) (l : list (nat * choice)) : option world := foldl (λ o x, w ← o; act w x.1 x.2) (Some w) l.

Lemma start_reach cs : reach (start cs).
Proof.
  induction cs as [|c cs IH] using rev_ind; [exact reach_nobody|]. eapply reach_move; [exact IH|].
  pose proof (move_call (start cs) c) as Hm. unfold start in *. cbn in *. by rewrite map_app.
Qed.

Lemma run_reach w l w' : reach w → run w l = Some w' → reach w'.
Proof.
  unfold run. revert w. induction l as [|x l IH]; intros w Hw; cbn [foldl]; [by intros [= <-]|]. cbn.
  destruct (act w x.1 x.2) as [w1|] eqn:E; [apply IH; eapply reach_move; [done|by eapply act_sound]|].
  clear. induction l as [|x l IH]; done.
Qed.

(** ** A builder used twice *)

Module PoolSample.
#[local] Existing Instance ascii_case.
#[local] Existing Instance ExportSample.print.
#[local] Existing Instance ContextSample.lowercase.
#[local] Existing Instance RFC9000.varint.

Definition tagged (t : bytes) : SignatureParams :=
  {| sp_Label := str "sig1"; sp_Components := []; sp_Created := 0%Z; sp_Expires := 0%Z; sp_Nonce := []; sp_Alg := [];
     sp_KeyID := []; sp_Tag := t |}.
Definition tag_text (t : bytes) : bytes := str "();tag=" ++ [x22] ++ t ++ [x22].
Definition tag_call (t : bytes) : call :=
  {| c_pool := StringBuilders; c_chunks := [str "();tag=" ++ [x22]; t; [x22]]; c_ok := true |}.

(** The second call takes the builder that the first has given back. *)
Definition schedule : list (nat * choice) := replicate 7 (0, Room 9) ++ (1, Take 0) :: replicate 6 (1, Room 9).
Definition after : world := default nobody (run (start [tag_call (str "first"); tag_call (str "second")]) schedule).

Lemma after_reach : reach after.
Proof. apply (run_reach _ schedule _ (start_reach [tag_call (str "first"); tag_call (str "second")])). vm_compute. reflexivity. Qed.

(** One builder served both calls. *)
Example builder_reused : length (w_objects after) = 1 ∧ w_free after = [0] ∧ length (w_arrays after) = 2.
Proof. vm_compute. done. Qed.

Definition first_caller : goroutine := {| g_call := tag_call (str "first"); g_pc := Returned; g_text := Some (Shared (Some 0) 14) |}.

Lemma pooled_texts_witness : w_goroutines after !! 0 = Some first_caller ∧
  value (w_arrays after) (Shared (Some 0) 14) = tag_text (str "first").
Proof.
  split; [vm_compute; reflexivity|].
  destruct (pooled_texts after 0 first_caller (tag_text (str "first")) after_reach) as [(t & Ht & Hv) _];
    [vm_compute; reflexivity|reflexivity|apply (call_params (tagged (str "first"))); vm_compute; reflexivity|].
  cbn in Ht. injection Ht as <-. exact Hv.
Defined.

Lemma pooled_calls_return_witness : ∃ w', action (start [tag_call []]) 0 {| g_call := tag_call []; g_pc := AtGet; g_text := None |} w'.
Proof. by apply (pooled_calls_return (start [tag_call []]) 0 _ (start_reach [tag_call []])). Defined.
End PoolSample.
