(* ===== verification/OtelOtlp.v ===== *)
(** * Sending batches (src/otel/exporter.go)

    The options of the OTLP exporter, the request for a batch, and the requests
    of a run: the queue, the payload and the endpoint together. *)

From S2P Require Import Prelude GoLib GoText GoURL GoJson GoQuote OtelContext OtelSpan OtelExporter.

#[local] Open Scope Z_scope.

Section otlp.
Context `{UnicodePrint, UnicodeCase, HX : Hex} {Client : Type}.

(** ** Options *)

Record OTLPHTTPExporter := { o_endpoint : bytes; o_client : Client; o_batchSize : Z; o_timeout : Z }.

Definition OTLPOption : Type := OTLPHTTPExporter → OTLPHTTPExporter.

Definition WithBatchSize (size : Z) : OTLPOption := λ e,
  if 0 <? size then {| o_endpoint := o_endpoint e; o_client := o_client e; o_batchSize := size; o_timeout := o_timeout e |} else e.
Definition WithHTTPClient (client : option Client) : OTLPOption := λ e,
  match client with
  | Some c => {| o_endpoint := o_endpoint e; o_client := c; o_batchSize := o_batchSize e; o_timeout := o_timeout e |}
  | None => e
  end.

(** The fields are private: these are the options there are. *)
Inductive is_option : OTLPOption → Prop :=
  | is_batch_size size : is_option (WithBatchSize size)
  | is_client client : is_option (WithHTTPClient client).

(** [default_client] is the client with a timeout of ten seconds. *)
Definition NewOTLPHTTPExporter (default_client : Client) (endpoint : bytes) (opts : list OTLPOption) : OTLPHTTPExporter :=
  foldl (λ e f, f e)
    {| o_endpoint := NewOTLPHTTPExporter_endpoint endpoint; o_client := default_client; o_batchSize := 128; o_timeout := 5 * Second |} opts.
Definition NewExporter := NewOTLPHTTPExporter.
Definition NewHTTPExporter := NewOTLPHTTPExporter.

(** ** Requests *)

Record post := { p_client : Client; p_url : bytes; p_ContentType : bytes; p_timeout : Z; p_body : bytes }.

(** The requests handed to the HTTP client for a batch: the answer is not used. *)
Definition sendBatch (e : OTLPHTTPExporter) (batch : list SpanSnapshot) : list post :=
  match batch with
  | [] => []
  | _ =>
      let payload := buildOTLPJSON batch in
      match url_Parse (o_endpoint e) with
      | None => []
      | Some _ => [{| p_client := o_client e; p_url := o_endpoint e; p_ContentType := str "application/json";
                      p_timeout := o_timeout e; p_body := payload |}]
      end
  end.

(** The requests of a run. *)
Definition posts (e : OTLPHTTPExporter) (q : Queue.exporter (A := SpanSnapshot)) : list post :=
  concat (map (sendBatch e) (Queue.sent q)).

(** ** Properties *)

Lemma suffix_added e : HasSuffix (if (length e <? 10)%nat || negb (bytes_eqb (drop (length e - 10) e) (str "/v1/traces"))
  then e ++ str "/v1/traces" else e) (str "/v1/traces") = true.
Proof.
  unfold HasSuffix. destruct (length e <? 10)%nat eqn:El; bools; cbn [orb].
  { rewrite rev_app_distr. apply HasPrefix_app. }
  destruct (bytes_eqb (drop (length e - 10) e) (str "/v1/traces")) eqn:Ee; cbn [negb]; bools.
  - rewrite <- (take_drop (length e - 10) e), Ee, rev_app_distr. apply HasPrefix_app.
  - rewrite rev_app_distr. apply HasPrefix_app.
Qed.

Lemma endpoint_suffix endpoint : HasSuffix (NewOTLPHTTPExporter_endpoint endpoint) (str "/v1/traces") = true.
Proof. apply suffix_added. Qed.

Lemma otlp_options_keep opts e : Forall is_option opts → 0 < o_batchSize e →
  0 < o_batchSize (foldl (λ e f, f e) e opts) ∧ o_endpoint (foldl (λ e f, f e) e opts) = o_endpoint e.
Proof.
  intros Ho. revert e. induction Ho as [|f opts Hf Ho IH]; intros e He; [done|]. cbn [foldl].
  assert (0 < o_batchSize (f e) ∧ o_endpoint (f e) = o_endpoint e) as [Hb <-]; [|by apply IH].
  destruct Hf as [size|[c|]]; [|done..]. unfold WithBatchSize. by destruct (Z.ltb_spec 0 size).
Qed.

Lemma posts_of e q u : url_Parse (o_endpoint e) = Some u → Forall (λ b, (0 < length b)%nat) (Queue.sent q) →
  map p_body (posts e q) = map buildOTLPJSON (Queue.sent q) ∧ Forall (λ p, p_url p = o_endpoint e ∧ p_client p = o_client e) (posts e q).
Proof.
  intros Hu. unfold posts. induction 1 as [|b bs Hb Hbs [IH1 IH2]]; [done|]. cbn [map concat].
  destruct b as [|s b]; [cbn in Hb; lia|]. unfold sendBatch at 1 3. rewrite Hu. cbn [app map]. rewrite IH1. split; [done|].
  by constructor.
Qed.

End otlp.

Module OtlpSample.
#[local] Existing Instances ExportSample.print ContextSample.lowercase.
#[local] Instance case : UnicodeCase := {| unicode_ToLower s := s; unicode_ToUpper s := s; unicode_EqualFold := bytes_eqb |}.

Definition exporter : OTLPHTTPExporter := NewOTLPHTTPExporter tt (str "http://collector:4318/") [WithBatchSize 1; WithBatchSize (-3)].

(** One span, accepted and sent. *)
Definition sent_one : Queue.exporter := Queue.Build_exporter [] [] [[ExportSample.snap (str "GET")]] Queue.Running false [] [(ExportSample.snap (str "GET"), true)] [].

Lemma sent_one_reachable : Queue.reachable 1 0 sent_one.
Proof.
  pose proof (Queue.reach_init (A := SpanSnapshot) 1 0) as H0.
  eapply Queue.reach_step in H0; [|apply (Queue.export 1 (ExportSample.snap (str "GET")))].
  eapply Queue.reach_step in H0; [|by eapply Queue.receive]. exact H0.
Qed.

End OtlpSample.
