(* ===== verification/OtelMiddleware.v ===== *)
(** * Tracing requests (src/otel/middleware.go, options.go, semconv.go)

    The middleware as a function of the request and of the rest of the chain: it
    starts a span, injects its context into the headers, runs the chain and
    records the outcome.  Requests and responses are what the methods of the aoni
    interfaces return; headers are a carrier. *)

From S2P Require Import Prelude GoLib GoText GoURL OtelContext OtelSpan OtelExporter.

#[local] Open Scope Z_scope.

(** The names of package header of the mach module. *)
Class HeaderNames := { header_UserAgent : bytes; header_MethodGet : bytes }.

Section middleware.
Context `{UnicodeCase, Hex, TextMapCarrier, HeaderNames}.

Notation Attribute := (OtelSpan.Attribute (Value := AttrValue)).
Notation heap := (OtelSpan.heap (Value := AttrValue)).

Record Request := {
  rq_Method : bytes;
  rq_URL : bytes;
  rq_Path : bytes;
  rq_headers : carrier;
  rq_Body : bytes
}.

(** [rs_Proto]: of the underlying HTTP response, if there is one. *)
Record Response := {
  rs_StatusCode : Z;
  rs_Status : bytes;
  rs_Proto : option bytes;
  rs_Header : bytes → bytes;
  rs_Trailers : gmap bytes (list bytes);
  rs_Body : bytes
}.

(** An error: its type and its message. *)
Record error := { err_type : bytes; err_Error : bytes }.

(** ** Semantic conventions *)

Definition StringAttr (key val : bytes) : Attribute := (key, VString val).
Definition IntAttr (key : bytes) (val : Z) : Attribute := (key, VInt val).
Definition Int64Attr (key : bytes) (val : Z) : Attribute := (key, VInt val).
Definition BoolAttr (key : bytes) (val : bool) : Attribute := (key, VBool val).
(* The number by the text the exporter gives it. *)
Definition Float64Attr (key val : bytes) : Attribute := (key, VFloat val).

Definition string_attr (key val : bytes) : list Attribute := if bytes_eqb val [] then [] else [StringAttr key val].

(** The port of the server: the one of the URL, or that of its scheme. *)
Definition port_attr (u : URL) : list Attribute :=
  let portStr := Port u in
  if negb (bytes_eqb portStr []) then
    match Atoi portStr with (port, None) => [IntAttr (str "server.port") port] | _ => [] end
  else if EqualFold (u_Scheme u) (str "https") then [IntAttr (str "server.port") 443]
  else if EqualFold (u_Scheme u) (str "http") then [IntAttr (str "server.port") 80]
  else [].

Definition HTTPClientRequestAttributes (req : Request) : list Attribute :=
  let method := if bytes_eqb (rq_Method req) [] then header_MethodGet else rq_Method req in
  let rawURL := rq_URL req in
  let ua := Get (rq_headers req) header_UserAgent in
  [StringAttr (str "http.request.method") method] ++
  (if bytes_eqb rawURL [] then []
   else StringAttr (str "url.full") rawURL ::
     match url_Parse rawURL with
     | None => []
     | Some u =>
         string_attr (str "url.scheme") (u_Scheme u) ++ string_attr (str "url.path") (u_Path u) ++
         string_attr (str "url.query") (u_RawQuery u) ++ string_attr (str "server.address") (Hostname u) ++ port_attr u
     end) ++
  string_attr (str "user_agent.original") ua.

Definition HTTPClientResponseAttributes (resp : Response) : list Attribute :=
  (if 0 <? rs_StatusCode resp then [IntAttr (str "http.response.status_code") (rs_StatusCode resp)] else []) ++
  match rs_Proto resp with Some p => string_attr (str "network.protocol.version") p | None => [] end.

Definition ExceptionAttributes (err : error) : list Attribute :=
  [StringAttr (str "exception.type") (err_type err); StringAttr (str "exception.message") (err_Error err)].

Definition IsGRPCRequest (req : Request) : bool :=
  let ct := Get (rq_headers req) (str "Content-Type") in
  let ct := if bytes_eqb ct [] then Get (rq_headers req) (str "content-type") else ct in
  HasPrefix ct (str "application/grpc").

(** The path of a request, or of its URL. *)
Definition request_path (req : Request) : bytes :=
  if bytes_eqb (rq_Path req) [] then match url_Parse (rq_URL req) with Some u => u_Path u | None => [] end
  else rq_Path req.

Definition TrimSlash (path : bytes) : bytes := if HasPrefix path (str "/") then drop 1 path else path.

Definition GRPCClientRequestAttributes (req : Request) : list Attribute :=
  let path := TrimSlash (request_path req) in
  StringAttr (str "rpc.system") (str "grpc") ::
  match IndexByte path "/" with
  | Some (S i) => [StringAttr (str "rpc.service") (take (S i) path); StringAttr (str "rpc.method") (drop (S (S i)) path)]
  | _ => []
  end.

(** The status of a gRPC response: of the headers, else of the trailers. *)
Definition grpc_status (resp : Response) : bytes :=
  let s := rs_Header resp (str "grpc-status") in
  if bytes_eqb s [] then match rs_Trailers resp !! str "grpc-status" with Some (v :: _) => v | _ => [] end else s.

Definition GRPCClientResponseAttributes (resp : Response) : list Attribute :=
  let statusStr := grpc_status resp in
  if bytes_eqb statusStr [] then []
  else match Atoi statusStr with (code, None) => [IntAttr (str "rpc.grpc.status_code") code] | _ => [] end.

(** ** Configuration *)

Record Config := {
  cfg_Tracer : option Tracer;
  Filter : option (Request → bool);
  SpanNameFormatter : option (Request → bytes);
  CustomAttributes : option (Request → list Attribute);
  TraceEvents : bool;
  PropagateContext : bool
}.

Definition default_name (req : Request) : bytes :=
  let path := request_path req in
  if IsGRPCRequest req && negb (bytes_eqb path []) then TrimSlash path
  else
    let method := if bytes_eqb (rq_Method req) [] then str "GET" else rq_Method req in
    if bytes_eqb path [] then method else method ++ str " " ++ path.

Definition DefaultConfig : Config :=
  {| cfg_Tracer := None; Filter := None; SpanNameFormatter := Some default_name; CustomAttributes := None; TraceEvents := true;
     PropagateContext := true |}.

Definition WithTracer (t : Tracer) (c : Config) : Config :=
  {| cfg_Tracer := Some t; Filter := Filter c; SpanNameFormatter := SpanNameFormatter c; CustomAttributes := CustomAttributes c;
     TraceEvents := TraceEvents c; PropagateContext := PropagateContext c |}.
Definition WithFilter (f : option (Request → bool)) (c : Config) : Config :=
  {| cfg_Tracer := cfg_Tracer c; Filter := f; SpanNameFormatter := SpanNameFormatter c; CustomAttributes := CustomAttributes c;
     TraceEvents := TraceEvents c; PropagateContext := PropagateContext c |}.
Definition WithSpanNameFormatter (f : option (Request → bytes)) (c : Config) : Config :=
  {| cfg_Tracer := cfg_Tracer c; Filter := Filter c;
     SpanNameFormatter := match f with Some _ => f | None => SpanNameFormatter c end; CustomAttributes := CustomAttributes c;
     TraceEvents := TraceEvents c; PropagateContext := PropagateContext c |}.
Definition WithCustomAttributes (f : option (Request → list Attribute)) (c : Config) : Config :=
  {| cfg_Tracer := cfg_Tracer c; Filter := Filter c; SpanNameFormatter := SpanNameFormatter c; CustomAttributes := f;
     TraceEvents := TraceEvents c; PropagateContext := PropagateContext c |}.
Definition WithTraceEvents (b : bool) (c : Config) : Config :=
  {| cfg_Tracer := cfg_Tracer c; Filter := Filter c; SpanNameFormatter := SpanNameFormatter c; CustomAttributes := CustomAttributes c;
     TraceEvents := b; PropagateContext := PropagateContext c |}.
Definition WithPropagateContext (b : bool) (c : Config) : Config :=
  {| cfg_Tracer := cfg_Tracer c; Filter := Filter c; SpanNameFormatter := SpanNameFormatter c; CustomAttributes := CustomAttributes c;
     TraceEvents := TraceEvents c; PropagateContext := b |}.

(** [NewTracer] of the middleware: every span is sampled, none is exported. *)
Definition default_tracer : Tracer := {| t_sampler := AlwaysSampleSampler; t_exporter := false; t_closed := false |}.

(** ** A request through the middleware *)

(** The rest of the chain: a response or an error, or a panic; it does not touch
    the span. *)
Definition chain : Type := Request → outcome (option Response * option error).

(** The random identifiers and the clock. *)
Record environment := { parent : SpanContext; pooled : option nat; new_trace : bytes; new_span : bytes; t_start : Z; t_error : Z; t_end : Z }.

Definition with_headers (req : Request) (c : carrier) : Request :=
  {| rq_Method := rq_Method req; rq_URL := rq_URL req; rq_Path := rq_Path req; rq_headers := c; rq_Body := rq_Body req |}.

Definition start_attributes (req : Request) : list Attribute :=
  HTTPClientRequestAttributes req ++ (if IsGRPCRequest req then GRPCClientRequestAttributes req else []).

(** What is recorded before the request is sent. *)
Definition prepare (cfg : Config) (req : Request) (s : Span (Value := AttrValue)) : Span (Value := AttrValue) :=
  let s := match CustomAttributes cfg with
           | Some f => match f req with [] => s | l => SetAttributes s l end
           | None => s
           end in
  match rq_Body req with [] => s | b => SetAttribute s (str "http.request.body.size") (VInt (Z.of_nat (length b))) end.

(** What is recorded of the outcome. *)
Definition record_outcome (env : environment) (req : Request) (r : option Response * option error)
    (s : Span (Value := AttrValue)) : Span (Value := AttrValue) :=
  match r with
  | (_, Some err) =>
      let s := RecordError s (Some (err_Error err, ExceptionAttributes err)) (t_error env) in
      let s := SetAttribute s (str "error.type") (VString (str "NetworkError")) in
      SetStatus s StatusError (err_Error err)
  | (None, None) => s
  | (Some resp, None) =>
      let s := SetAttributes s (HTTPClientResponseAttributes resp) in
      let s := if IsGRPCRequest req then SetAttributes s (GRPCClientResponseAttributes resp) else s in
      let s := match rs_Body resp with [] => s | b => SetAttribute s (str "http.response.body.size") (VInt (Z.of_nat (length b))) end in
      let grpcStatus := rs_Header resp (str "grpc-status") in
      if negb (bytes_eqb grpcStatus []) && negb (bytes_eqb grpcStatus (str "0"))
      then SetStatus s StatusError (str "gRPC status: " ++ grpcStatus)
      else if 400 <=? rs_StatusCode resp then SetStatus s StatusError (rs_Status resp)
      else SetStatus s StatusOk []
  end.

(** The result, the heap, and the request the chain saw. *)
Definition NewMiddleware (cfg : Config) (env : environment) (next : chain) (req : Request) (h : heap) :
    outcome (option Response * option error) * heap * Request :=
  let tracer := default default_tracer (cfg_Tracer cfg) in
  if match Filter cfg with Some f => negb (f req) | None => false end then (next req, h, req)
  else
    let spanName := match SpanNameFormatter cfg with Some f => f req | None => str "HTTP" end in
    let '(h, id) := Start tracer h (pooled env) (parent env) spanName 3 (start_attributes req) (Some (t_start env)) (t_start env)
                      (new_trace env) (new_span env) in
    let h := on_span h id (prepare cfg req) in
    let sc := option_map sp_context (h_objects h !! id) in
    let req' := if PropagateContext cfg then with_headers req (Inject sc (rq_headers req)) else req in
    match next req' with
    | Panic => (Panic, EndWithTime tracer h id (t_end env), req')
    | Done r => (Done r, EndWithTime tracer (on_span h id (record_outcome env req' r)) id (t_end env), req')
    end.

(** ** What is recorded *)

Implicit Types s : Span (Value := AttrValue).

(** All of a span but its attributes, events and status. *)
Definition core s := (sp_traced s, sp_name s, sp_context s, sp_parent s, sp_kind s, sp_start s, sp_end s, sp_ended s).
Definition status s := (sp_status s, sp_statusDesc s).

Lemma attribute_keeps s k v : core (SetAttribute s k v) = core s ∧ status (SetAttribute s k v) = status s.
Proof. unfold SetAttribute. by repeat case_match. Qed.

Lemma attributes_keep s l : core (SetAttributes s l) = core s ∧ status (SetAttributes s l) = status s.
Proof. unfold SetAttributes. by repeat case_match. Qed.

Lemma prepare_keeps cfg req s : core (prepare cfg req s) = core s ∧ status (prepare cfg req s) = status s.
Proof.
  unfold prepare. set (s1 := match CustomAttributes cfg with Some _ => _ | None => _ end).
  assert (core s1 = core s ∧ status s1 = status s) as [E1 E2].
  { subst s1. destruct (CustomAttributes cfg) as [f|]; [|done]. destruct (f req); [done|]. apply attributes_keep. }
  destruct (rq_Body req); [done|]. match goal with |- core (SetAttribute ?x ?k ?v) = _ ∧ _ => destruct (attribute_keeps x k v) end.
  by split; congruence.
Qed.

Lemma status_set s c d : sp_ended s = false → core (SetStatus s c d) = core s ∧ status (SetStatus s c d) = (c, d).
Proof. intros He. unfold SetStatus, core. by rewrite He. Qed.

(** The status of a span after an outcome. *)
Definition outcome_status (r : outcome (option Response * option error)) : StatusCode * bytes :=
  match r with
  | Done (_, Some err) => (StatusError, err_Error err)
  | Done (Some resp, None) =>
      let g := rs_Header resp (str "grpc-status") in
      if negb (bytes_eqb g []) && negb (bytes_eqb g (str "0")) then (StatusError, str "gRPC status: " ++ g)
      else if 400 <=? rs_StatusCode resp then (StatusError, rs_Status resp) else (StatusOk, [])
  | _ => (StatusUnset, [])
  end.

Lemma core_ended s s' : core s = core s' → sp_ended s = sp_ended s'.
Proof. unfold core. congruence. Qed.

Lemma error_keeps s e now : sp_ended s = false → core (RecordError s (Some e) now) = core s.
Proof.
  intros He. unfold RecordError, AddEventWithTime. rewrite He. destruct e as [m l].
  match goal with |- core (SetStatus ?x _ _) = _ => destruct (status_set x StatusError m) as [-> _]; [done|] end.
  unfold core. cbn. by rewrite He.
Qed.

Lemma record_outcome_keeps env req r s : sp_ended s = false → status s = (StatusUnset, []) →
  core (record_outcome env req r s) = core s ∧ status (record_outcome env req r s) = outcome_status (Done r).
Proof.
  intros He Hs. destruct r as [[resp|] [err|]]; cbn [record_outcome outcome_status]; [| | |done].
  1, 3: set (s1 := RecordError _ _ _); set (s2 := SetAttribute s1 _ _); destruct (attribute_keeps s1 (str "error.type") (VString (str "NetworkError"))) as [E1 _];
    assert (core s1 = core s) as E0 by (by apply error_keeps);
    destruct (status_set s2 StatusError (err_Error err)) as [E2 E3]; [rewrite <- He; apply core_ended; subst s2; congruence|];
    split; [subst s2; congruence|done].
  set (s1 := SetAttributes s _). set (s2 := if IsGRPCRequest req then _ else _).
  set (s3 := match rs_Body resp with [] => _ | _ => _ end).
  assert (core s1 = core s) as E1 by apply attributes_keep.
  assert (core s2 = core s1) as E2 by (subst s2; destruct (IsGRPCRequest req); [apply attributes_keep|done]).
  assert (core s3 = core s2) as E3 by (subst s3; destruct (rs_Body resp); [done|apply attribute_keeps]).
  assert (sp_ended s3 = false) as E4 by (rewrite <- He; apply core_ended; congruence).
  destruct (negb _ && negb _); [|destruct (400 <=? _)];
    match goal with |- core (SetStatus _ ?c ?d) = _ ∧ _ => destruct (status_set s3 c d E4) as [E5 E6] end; (split; [by rewrite E5, E3, E2, E1|exact E6]).
Qed.

(** A started span: open, with the context of a child, and nothing recorded. *)
Lemma Start_span t h po parentSc name kind attrs start now tr sp :
  (∀ id, po = Some id → is_Some (h_objects h !! id)) →
  ∃ id s, (Start t h po parentSc name kind attrs (Some start) now tr sp).2 = id ∧
    let h' := (Start t h po parentSc name kind attrs (Some start) now tr sp).1 in
    h_objects h' !! id = Some s ∧ h_exporting h' = h_exporting h ∧ status s = (StatusUnset, []) ∧
    core s = (true, name, child_context t parentSc name kind tr sp, parentSc, kind, start, None, false).
Proof.
  intros Hp. destruct po as [id|]; cbn.
  - destruct (Hp id eq_refl) as [old Ho].
    destruct (attributes_keep (acquireSpan (Some old) name (child_context t parentSc name kind tr sp) parentSc kind (Some start) now) attrs) as [E1 E2].
    exists id. eexists. split; [done|]. rewrite list_lookup_alter_eq, Ho. split; [done|]. split; [done|]. by rewrite E1, E2.
  - destruct (attributes_keep (acquireSpan None name (child_context t parentSc name kind tr sp) parentSc kind (Some start) now) attrs) as [E1 E2].
    exists (length (h_objects h)). eexists. split; [done|]. rewrite list_lookup_middle by done. split; [done|]. split; [done|].
    by rewrite E1, E2.
Qed.

Lemma on_span_lookup h id f s : h_objects h !! id = Some s → h_objects (on_span h id f) !! id = Some (f s).
Proof. intros Hs. cbn. by rewrite list_lookup_alter_eq, Hs. Qed.

(** Ending an open sampled span hands it to the exporter. *)
Lemma End_exports t h id s time : t_exporter t = true → t_closed t = false →
  h_objects h !! id = Some s → sp_ended s = false → sp_traced s = true → IsSampled (traceFlags (sp_context s)) = true →
  h_objects (EndWithTime t h id time) !! id = Some (mark_ended s time) ∧
  h_exporting (EndWithTime t h id time) = id :: h_exporting h.
Proof.
  intros He Hc Hid Hopen Htr Hs. unfold EndWithTime, processSpan. rewrite Hid, Hopen, Htr. cbn [on_span h_objects].
  rewrite list_lookup_alter_eq, Hid. cbn. rewrite Hc, He. cbn. rewrite Hs. cbn. by rewrite list_lookup_alter_eq, Hid.
Qed.

(** Tracing is transparent and complete: whatever the rest of the
    chain does, also when it panics, its result is the result of the
    middleware, on the same request with the headers of the span's context; and
    the span, a child of the context's span, is ended once and handed to the
    exporter with the status the outcome stands for. *)
Theorem traced_request `{!HexLaws, !CarrierLaws} cfg t env next req h :
  let name := match SpanNameFormatter cfg with Some f => f req | None => str "HTTP" end in
  let sc := child_context t (parent env) name 3 (new_trace env) (new_span env) in
  match Filter cfg with Some f => f req = true | None => True end →
  cfg_Tracer cfg = Some t → t_exporter t = true → t_closed t = false →
  (∀ id, pooled env = Some id → is_Some (h_objects h !! id)) →
  well_formed sc → IsSampled (traceFlags sc) = true →
  let '(out, h', req') := NewMiddleware cfg env next req h in
  out = next req' ∧
  req' = (if PropagateContext cfg then with_headers req (Inject (Some sc) (rq_headers req)) else req) ∧
  (PropagateContext cfg = true → traceState sc = [] → Get (rq_headers req') HeaderTraceParent = TraceParent sc) ∧
  ∃ id s, h_objects h' !! id = Some s ∧ h_exporting h' = id :: h_exporting h ∧ sp_ended s = true ∧
    sp_end s = Some (t_end env) ∧ sp_start s = t_start env ∧ sp_name s = name ∧ sp_context s = sc ∧ sp_parent s = parent env ∧
    status s = outcome_status out.
Proof.
  intros name sc Hf Ht Hx Hcl Hp Hwf Hs. unfold NewMiddleware. rewrite Ht. change (default default_tracer (Some t)) with t.
  assert (match Filter cfg with Some f => negb (f req) | None => false end = false) as -> by (destruct (Filter cfg) as [f|]; [by rewrite Hf|done]).
  fold name.
  destruct (Start_span t h (pooled env) (parent env) name 3 (start_attributes req) (t_start env) (t_start env) (new_trace env) (new_span env) Hp)
    as (id & s0 & Hid & Hobj & Hex & Hst & Hcore).
  destruct (Start t h _ _ name _ _ _ _ _ _) as [h0 id']. cbn [fst snd] in *. subst id'. fold sc in Hcore.
  destruct (prepare_keeps cfg req s0) as [E1 E2]. set (s1 := prepare cfg req s0) in *.
  assert (h_objects (on_span h0 id (prepare cfg req)) !! id = Some s1) as Ho1 by (by apply on_span_lookup).
  rewrite Hcore in E1. rewrite Hst in E2. cbv zeta. rewrite Ho1. cbn [option_map].
  assert (sp_context s1 = sc) as -> by (unfold core in E1; congruence).
  set (req' := if PropagateContext cfg then _ else _).
  assert (PropagateContext cfg = true → traceState sc = [] → Get (rq_headers req') HeaderTraceParent = TraceParent sc) as Hhdr.
  { intros Hpc Hts. subst req'. rewrite Hpc. destruct Hwf as (_ & _ & HV). cbn [rq_headers with_headers Inject]. rewrite HV, Hts. cbn.
    apply Get_Set. }
  assert (∀ h2 s2, h_objects h2 !! id = Some s2 → h_exporting h2 = h_exporting h → core s2 = core s1 →
    ∃ id' s, h_objects (EndWithTime t h2 id (t_end env)) !! id' = Some s ∧ h_exporting (EndWithTime t h2 id (t_end env)) = id' :: h_exporting h ∧
      sp_ended s = true ∧ sp_end s = Some (t_end env) ∧ sp_start s = t_start env ∧ sp_name s = name ∧ sp_context s = sc ∧
      sp_parent s = parent env ∧ status s = status s2) as Hend.
  { intros h2 s2 Ho2 He2 Hc2. rewrite E1 in Hc2. unfold core in Hc2. injection Hc2 as C1 C2 C3 C4 C5 C6 C7 C8.
    destruct (End_exports t h2 id s2 (t_end env)) as [G1 G2]; [done..|by rewrite C3|]. rewrite <- He2.
    exists id, (mark_ended s2 (t_end env)). by split_and!. }
  destruct (next req') as [r|] eqn:En; (split; [done|]); (split; [done|]); (split; [done|]).
  - destruct (record_outcome_keeps env req' r s1) as [G1 G2]; [unfold core in E1; congruence|done|].
    rewrite <- G2. eapply Hend; [by apply on_span_lookup|done|done].
  - change (outcome_status Panic) with ((StatusUnset, []) : StatusCode * bytes). rewrite <- E2. by apply Hend.
Qed.

(** The status of a gRPC call that arrives in the trailers is an attribute of
    the span, and not its status. *)
Lemma trailer_status_is_ok env req resp s : sp_ended s = false → status s = (StatusUnset, []) →
  rs_Header resp (str "grpc-status") = [] → rs_StatusCode resp = 200 →
  status (record_outcome env req (Some resp, None) s) = (StatusOk, []).
Proof.
  intros He Hs Hg Hc. destruct (record_outcome_keeps env req (Some resp, None) s He Hs) as [_ ->]. unfold outcome_status. cbv zeta. by rewrite Hg, Hc.
Qed.
End middleware.

Module MiddlewareSample.

#[local] Existing Instance ContextSample.lowercase.
#[local] Existing Instance ContextSample.lowercase_laws.
#[local] Existing Instance ContextSample.header_map.
#[local] Existing Instance ContextSample.header_map_laws.
#[local] Existing Instance ascii_case.
#[local] Instance names : HeaderNames := {| header_UserAgent := str "User-Agent"; header_MethodGet := str "GET" |}.

Definition tracer : Tracer := {| t_sampler := AlwaysSampleSampler; t_exporter := true; t_closed := false |}.

Definition req : Request :=
  {| rq_Method := []; rq_URL := str "https://h:8443/a/b?q=1"; rq_Path := []; rq_headers := ∅; rq_Body := [x01; x02] |}.

Definition env : environment :=
  {| parent := no_context; pooled := None; new_trace := traceID ContextSample.sample; new_span := spanID ContextSample.sample;
     t_start := 10; t_error := 15; t_end := 20 |}.

Definition answer (code : Z) (st : bytes) : Response :=
  {| rs_StatusCode := code; rs_Status := st; rs_Proto := Some (str "HTTP/1.1"); rs_Header := λ _, []; rs_Trailers := ∅; rs_Body := [] |}.

Definition next : chain := λ _, Done (Some (answer 404 (str "404 Not Found")), None).
Definition empty : OtelSpan.heap (Value := AttrValue) := {| h_objects := []; h_free := []; h_exporting := [] |}.

Definition traced (next : chain) := NewMiddleware (WithTracer tracer DefaultConfig) env next req empty.

(** The attributes and the name of a request, from its URL. *)
Example attributes_of_url : start_attributes req =
  [(str "http.request.method", VString (str "GET")); (str "url.full", VString (str "https://h:8443/a/b?q=1"));
   (str "url.scheme", VString (str "https")); (str "url.path", VString (str "/a/b")); (str "url.query", VString (str "q=1"));
   (str "server.address", VString (str "h")); (str "server.port", VInt 8443)] ∧ default_name req = str "GET /a/b".
Proof. split; vm_compute; reflexivity. Qed.

Lemma traced_request_witness :
  ∃ id s, h_objects (traced next).1.2 !! id = Some s ∧ h_exporting (traced next).1.2 = [id] ∧ sp_ended s = true ∧
    status s = (StatusError, str "404 Not Found") ∧ sp_name s = str "GET /a/b".
Proof.
  pose proof (traced_request (WithTracer tracer DefaultConfig) tracer env next req empty I eq_refl eq_refl eq_refl
    ltac:(done) ltac:(by repeat split) eq_refl) as T.
  unfold traced. destruct (NewMiddleware _ _ _ _ _) as [[out h'] req'].
  destruct T as (Eo & _ & _ & id & s & G1 & G2 & G3 & _ & _ & G4 & _ & _ & G5).
  exists id, s. split_and!; [exact G1|exact G2|exact G3|rewrite G5, Eo; reflexivity|rewrite G4; vm_compute; reflexivity].
Defined.
End MiddlewareSample.
