(* ===== verification/SqlCookie.v ===== *)
(** * The SQL cookie store (src/sqlcookie/sqlcookie.go)

    Queries, transactions and the reading of a row.  The database behind
    database/sql is the class [Database]; what the statements of the store do to
    its table is in [DatabaseLaws], the coding of cookies in [CookieCodec]. *)

From S2P Require Import Prelude GoLib.

(** A handle, its transactions, and what statements answer; [None] is success. *)
Class Database := {
  DB : Type;
  Tx : Type;
  driver_error : Type;
  db_ExecContext : DB → bytes → list bytes → option driver_error * DB;
  BeginTx : DB → result driver_error Tx;
  tx_ExecContext : Tx → bytes → list bytes → option driver_error * Tx;
  Commit : Tx → option driver_error * DB;
  Rollback : Tx → DB;
  QueryRow : DB → bytes → list bytes → result driver_error (option bytes)
}.

(** package cookie of aoni and the JSON codec of foundation. [Cookie] is the type of
    the cookies whose texts are valid UTF-8: those the codec gives back as they were. *)
Class CookieCodec := {
  Cookie : Type;
  Marshal : list Cookie → option bytes;
  Unmarshal : bytes → option (list Cookie);
  Unmarshal_Marshal l s : Marshal l = Some s → Unmarshal s = Some l
}.

Section store.
Context `{Database, CookieCodec}.

Inductive store_error := MarshalFailed | DriverError (e : driver_error) | ErrInvalidCookieData.

Record SQLStorage := { tableName : bytes }.

Definition New : SQLStorage := {| tableName := str "aoni_cookies" |}.

Definition NewWithTable (name : bytes) : SQLStorage :=
  {| tableName := if bytes_eqb name [] then str "aoni_cookies" else name |}.

Definition newline : bytes := [x0a].
Definition tab : bytes := [x09].

Definition create_query (t : bytes) : bytes :=
  str "CREATE TABLE IF NOT EXISTS " ++ t ++ str " (" ++ newline ++ tab ++ tab ++ str "proxy_key TEXT PRIMARY KEY," ++ newline ++
  tab ++ tab ++ str "cookie_data TEXT" ++ newline ++ tab ++ str ");".
Definition delete_query (t : bytes) : bytes := str "DELETE FROM " ++ t ++ str " WHERE proxy_key = ?".
Definition insert_query (t : bytes) : bytes := str "INSERT INTO " ++ t ++ str " (proxy_key, cookie_data) VALUES (?, ?)".
Definition select_query (t : bytes) : bytes := str "SELECT cookie_data FROM " ++ t ++ str " WHERE proxy_key = ?".

Definition InitSchema (s : SQLStorage) (db : DB) : option store_error * DB :=
  let '(e, db) := db_ExecContext db (create_query (tableName s)) [] in (DriverError <$> e, db).

(** The deferred [Rollback] does nothing after a [Commit]. *)
Definition Save (s : SQLStorage) (db : DB) (key : bytes) (cookies : list Cookie) : option store_error * DB :=
  match Marshal cookies with
  | None => (Some MarshalFailed, db)
  | Some jsonData =>
      match BeginTx db with
      | Err e => (Some (DriverError e), db)
      | Ok tx =>
          match tx_ExecContext tx (delete_query (tableName s)) [key] with
          | (Some e, tx) => (Some (DriverError e), Rollback tx)
          | (None, tx) =>
              match
                (if (0 <? length cookies)%nat then tx_ExecContext tx (insert_query (tableName s)) [key; jsonData] else (None, tx))
              with
              | (Some e, tx) => (Some (DriverError e), Rollback tx)
              | (None, tx) => let '(e, db) := Commit tx in (DriverError <$> e, db)
              end
          end
      end
  end.

Definition Load (s : SQLStorage) (db : DB) (key : bytes) : result store_error (list Cookie) :=
  match QueryRow db (select_query (tableName s)) [key] with
  | Err e => Err (DriverError e)
  | Ok None => Ok []
  | Ok (Some dataStr) => match Unmarshal dataStr with Some cookies => Ok cookies | None => Err ErrInvalidCookieData end
  end.
End store.

(** What a table holds, to the outside and inside a transaction, and what it held
    when the transaction began. *)
Class Contents `{Database} := {
  table : DB → option (gmap bytes bytes);
  tx_table : Tx → option (gmap bytes bytes);
  tx_base : Tx → option (gmap bytes bytes)
}.

(** The statements of a store on its table.  A failed [Commit] may have taken
    effect; a transaction is otherwise all or nothing. *)
Class DatabaseLaws `{Contents} (t : bytes) : Prop := {
  create_law db db' : db_ExecContext db (create_query t) [] = (None, db') → table db' = Some (default ∅ (table db));
  create_fails db db' e : db_ExecContext db (create_query t) [] = (Some e, db') → table db' = table db;
  begin_law db tx : BeginTx db = Ok tx → tx_table tx = table db ∧ tx_base tx = table db;
  base_law tx q args e tx' : tx_ExecContext tx q args = (e, tx') → tx_base tx' = tx_base tx;
  delete_law tx k tx' : tx_ExecContext tx (delete_query t) [k] = (None, tx') →
    ∃ m, tx_table tx = Some m ∧ tx_table tx' = Some (delete k m);
  insert_law tx k v tx' : tx_ExecContext tx (insert_query t) [k; v] = (None, tx') →
    ∃ m, tx_table tx = Some m ∧ tx_table tx' = Some (<[k := v]> m);
  commit_law tx db : Commit tx = (None, db) → table db = tx_table tx;
  commit_fails tx db e : Commit tx = (Some e, db) → table db = tx_base tx ∨ table db = tx_table tx;
  rollback_law tx : table (Rollback tx) = tx_base tx;
  select_law db k r : QueryRow db (select_query t) [k] = Ok r → ∃ m, table db = Some m ∧ r = m !! k
}.

(** ** The store as a map from keys to cookies *)

Section refinement.
Context `{Contents} `{CookieCodec} (s : SQLStorage) `{!DatabaseLaws (tableName s)}.

(** The abstract store. *)
Notation jars := (gmap bytes (list Cookie)).

Definition save_jar (k : bytes) (l : list Cookie) (m : jars) : jars := match l with [] => delete k m | _ => <[k := l]> m end.

(** A table stands for a store: its rows are written cookies, never empty lists. *)
Definition represents (db : DB) (m : jars) : Prop :=
  ∃ rows, table db = Some rows ∧ (∀ k, rows !! k = None ↔ m !! k = None) ∧
    ∀ k v, rows !! k = Some v → ∃ l, m !! k = Some l ∧ l ≠ [] ∧ Marshal l = Some v.

(** The table after the statements of [Save]. *)
Definition saved_rows (k : bytes) (l : list Cookie) (v : bytes) (rows : gmap bytes bytes) : gmap bytes bytes :=
  match l with [] => delete k rows | _ => <[k := v]> (delete k rows) end.

Lemma saved_represents db rows k l v m : Marshal l = Some v →
  table db = Some rows → (∀ k, rows !! k = None ↔ m !! k = None) →
  (∀ k v, rows !! k = Some v → ∃ l, m !! k = Some l ∧ l ≠ [] ∧ Marshal l = Some v) →
  ∀ db', table db' = Some (saved_rows k l v rows) → represents db' (save_jar k l m).
Proof.
  intros Hv Ht Hn Hs db' Ht'. exists (saved_rows k l v rows). split; [done|]. unfold saved_rows, save_jar. split.
  - intros k'. destruct l as [|c l]; destruct (decide (k = k')) as [->|Hk].
    + by rewrite !lookup_delete_eq.
    + by rewrite !lookup_delete_ne by done.
    + by rewrite !lookup_insert_eq.
    + by rewrite !lookup_insert_ne, lookup_delete_ne by done.
  - intros k' v'. destruct l as [|c l]; destruct (decide (k = k')) as [->|Hk].
    + by rewrite lookup_delete_eq.
    + rewrite !lookup_delete_ne by done. apply Hs.
    + rewrite !lookup_insert_eq. intros [= <-]. eauto.
    + rewrite !lookup_insert_ne, lookup_delete_ne by done. apply Hs.
Qed.

(** What [Save] leaves in the table: the saved rows when it succeeds, else the
    saved rows or the old ones. *)
Definition saved (k : bytes) (l : list Cookie) (rows : gmap bytes bytes) (db : DB) : Prop :=
  ∃ v, Marshal l = Some v ∧ table db = Some (saved_rows k l v rows).

Definition save_outcome k l rows (e : option store_error) (db : DB) : Prop :=
  match e with None => saved k l rows db | Some _ => table db = Some rows ∨ saved k l rows db end.

Lemma Save_table db k l e db' rows : table db = Some rows → Save s db k l = (e, db') → save_outcome k l rows e db'.
Proof.
  intros Ht. unfold Save. destruct (Marshal l) as [v|] eqn:Em; [|intros [= <- <-]; by left].
  destruct (BeginTx db) as [tx|x] eqn:Eb; [|intros [= <- <-]; by left].
  destruct (begin_law _ _ Eb) as [B1 B2]. rewrite Ht in B1, B2.
  destruct (tx_ExecContext tx (delete_query (tableName s)) [k]) as [[x|] tx1] eqn:Ed.
  { intros [= <- <-]. left. by rewrite rollback_law, (base_law _ _ _ _ _ Ed). }
  destruct (delete_law _ _ _ Ed) as (m & Hm & Hd). rewrite B1 in Hm. injection Hm as <-.
  pose proof (base_law _ _ _ _ _ Ed) as B3. rewrite B2 in B3.
  assert (∀ tx2, tx_base tx2 = Some rows → tx_table tx2 = Some (saved_rows k l v rows) →
    (let '(e, db) := Commit tx2 in (DriverError <$> e, db)) = (e, db') → save_outcome k l rows e db') as Hc.
  { intros tx2 T1 T2. destruct (Commit tx2) as [[x|] db2] eqn:Ec; intros [= <- <-].
    - destruct (commit_fails _ _ _ Ec) as [E|E]; [left; by rewrite E|right; exists v; by rewrite E].
    - exists v. by rewrite (commit_law _ _ Ec). }
  destruct l as [|c l]; cbn [length Nat.ltb Nat.leb].
  - intros E. by apply (Hc tx1).
  - destruct (tx_ExecContext tx1 (insert_query (tableName s)) [k; v]) as [[x|] tx2] eqn:Ei.
    + intros [= <- <-]. left. by rewrite rollback_law, (base_law _ _ _ _ _ Ei).
    + destruct (insert_law _ _ _ _ Ei) as (m & Hm & Hi). rewrite Hd in Hm. injection Hm as <-.
      intros E. apply (Hc tx2); [by rewrite (base_law _ _ _ _ _ Ei)|done|done].
Qed.

Lemma Save_represents db k l e db' m : represents db m → Save s db k l = (e, db') →
  match e with None => represents db' (save_jar k l m) | Some _ => represents db' m ∨ represents db' (save_jar k l m) end.
Proof.
  intros (rows & Ht & Hn & Hs) Hsave. pose proof (Save_table _ _ _ _ _ _ Ht Hsave) as Ho.
  assert (saved k l rows db' → represents db' (save_jar k l m)) as Hr.
  { intros (v & Hv & Ht'). by eapply (saved_represents db). }
  destruct e; cbn in Ho; [destruct Ho as [Ho|Ho]; [left; by exists rows|right; auto]|auto].
Qed.

Lemma Load_represents db k m : represents db m →
  match Load s db k with Ok l => l = default [] (m !! k) | Err e => ∃ x, e = DriverError x end.
Proof.
  intros (rows & Ht & Hn & Hs). unfold Load. destruct (QueryRow db (select_query (tableName s)) [k]) as [r|x] eqn:Eq; [|eauto].
  destruct (select_law _ _ _ Eq) as (rows' & Ht' & ->). rewrite Ht in Ht'. injection Ht' as <-.
  destruct (rows !! k) as [v|] eqn:Er; [|by rewrite (proj1 (Hn k) Er)].
  destruct (Hs k v Er) as (l & -> & _ & Hl). by rewrite (Unmarshal_Marshal _ _ Hl).
Qed.

(** ** A run of the store *)

Inductive operation := OpInit | OpSave (k : bytes) (l : list Cookie) | OpLoad (k : bytes).

Inductive response := Saved (e : option store_error) | Loaded (r : result store_error (list Cookie)).

Fixpoint run (db : DB) (ops : list operation) : list response * DB :=
  match ops with
  | [] => ([], db)
  | OpInit :: ops' => let '(e, db1) := InitSchema s db in let '(rs, db') := run db1 ops' in (Saved e :: rs, db')
  | OpSave k l :: ops' => let '(e, db1) := Save s db k l in let '(rs, db') := run db1 ops' in (Saved e :: rs, db')
  | OpLoad k :: ops' => let r := Load s db k in let '(rs, db') := run db ops' in (Loaded r :: rs, db')
  end.

(** What a run may answer over an abstract store: a failed save may have
    been done. *)
Inductive allowed : jars → list operation → list response → jars → Prop :=
| allowed_nil m : allowed m [] [] m
| allowed_init m e ops rs m' : allowed m ops rs m' → allowed m (OpInit :: ops) (Saved e :: rs) m'
| allowed_save m k l ops rs m' : allowed (save_jar k l m) ops rs m' → allowed m (OpSave k l :: ops) (Saved None :: rs) m'
| allowed_fail m k l e m1 ops rs m' : m1 = m ∨ m1 = save_jar k l m →
    allowed m1 ops rs m' → allowed m (OpSave k l :: ops) (Saved (Some e) :: rs) m'
| allowed_load m k ops rs m' : allowed m ops rs m' → allowed m (OpLoad k :: ops) (Loaded (Ok (default [] (m !! k))) :: rs) m'
| allowed_unread m k x ops rs m' : allowed m ops rs m' → allowed m (OpLoad k :: ops) (Loaded (Err (DriverError x)) :: rs) m'.

Lemma store_refines_run db m ops : represents db m →
  ∃ m', allowed m ops (run db ops).1 m' ∧ represents (run db ops).2 m'.
Proof.
  revert db m. induction ops as [|o ops IH]; intros db m Hr; cbn [run]; [exists m; by split; [constructor|]|].
  destruct o as [|k l|k].
  - destruct (InitSchema s db) as [e db1] eqn:Ei. assert (represents db1 m) as Hr1.
    { unfold InitSchema in Ei. destruct (db_ExecContext db _ _) as [[x|] db2] eqn:Ex; injection Ei as <- <-;
        destruct Hr as (rows & Ht & Hrows); exists rows; (split; [|done]).
      - by rewrite (create_fails _ _ _ Ex).
      - by rewrite (create_law _ _ Ex), Ht. }
    destruct (IH db1 m Hr1) as (m' & A & R). destruct (run db1 ops). exists m'. by split; [constructor|].
  - destruct (Save s db k l) as [e db1] eqn:Es. pose proof (Save_represents _ _ _ _ _ _ Hr Es) as Ho. destruct e as [e|].
    + destruct Ho as [Ho|Ho]; destruct (IH _ _ Ho) as (m' & A & R); destruct (run db1 ops);
        exists m'; (split; [econstructor; [|exact A]; auto|done]).
    + destruct (IH _ _ Ho) as (m' & A & R). destruct (run db1 ops). exists m'. by split; [constructor|].
  - pose proof (Load_represents db k m Hr) as Hl. destruct (IH db m Hr) as (m' & A & R). destruct (run db ops) as [rs db'].
    exists m'. split; [|done]. cbn [fst]. destruct (Load s db k) as [l|e]; [subst l|destruct Hl as [x ->]]; by constructor.
Qed.

(** C36: the store refines a map from keys to lists of cookies: [Save]
    replaces the list of a key or, when it fails, may or may not have done so, and
    [Load] answers the list of its key, or nothing.  Stored data is always read
    back: the only errors of [Load] are those of the driver. *)
Theorem store_refines_jars db m ops : represents db m →
  ∃ m', allowed m ops (run db ops).1 m' ∧ represents (run db ops).2 m'.
Proof. apply store_refines_run. Qed.

End refinement.

Module StoreSample.

(** A table and the calls that will fail, in their order. *)
Definition state : Type := option (gmap bytes bytes) * list bool.
Definition pop (l : list bool) : bool * list bool := match l with [] => (false, []) | b :: l' => (b, l') end.
Definition name : bytes := str "aoni_cookies".

Definition statement (m : option (gmap bytes bytes)) (q : bytes) (args : list bytes) : option (gmap bytes bytes) :=
  match args with
  | [k] => if bytes_eqb q (delete_query name) then delete k <$> m else None
  | [k; v] => if bytes_eqb q (insert_query name) then r ← m; match r !! k with None => Some (<[k := v]> r) | Some _ => None end else None
  | _ => if bytes_eqb q (create_query name) then Some (default ∅ m) else None
  end.

Definition exec (m : option (gmap bytes bytes)) (l : list bool) (q : bytes) (args : list bytes) :
    option unit * option (gmap bytes bytes) * list bool :=
  let '(b, l') := pop l in
  match statement m q args with
  | Some m' => if b then (Some (), m, l') else (None, Some m', l')
  | None => (Some (), m, l')
  end.

#[local] Instance db : Database :=
  {| DB := state; Tx := option (gmap bytes bytes) * state; driver_error := unit;
     db_ExecContext d q args := let '(e, m, l) := exec d.1 d.2 q args in (e, (m, l));
     BeginTx d := Ok (d.1, d);
     tx_ExecContext tx q args := let '(e, m, l) := exec tx.1 tx.2.2 q args in (e, (m, (tx.2.1, l)));
     Commit tx := let '(b, l) := pop tx.2.2 in if b then (Some (), (tx.1, l)) else (None, (tx.1, l));
     Rollback tx := tx.2;
     QueryRow d q args := match args, d.1 with [k], Some m => Ok (m !! k) | _, _ => Err () end |}.

#[local] Instance contents : Contents := {| table d := d.1; tx_table tx := tx.1; tx_base tx := tx.2.1 |}.

Lemma exec_fails m l q args e m' l' : exec m l q args = (Some e, m', l') → m' = m.
Proof. unfold exec. destruct (pop l) as [[] l1], (statement m q args); congruence. Qed.

Lemma exec_done m l q args m' l' : exec m l q args = (None, m', l') → ∃ r, statement m q args = Some r ∧ m' = Some r.
Proof. unfold exec. destruct (pop l) as [[] l1], (statement m q args) as [r|]; intros [= <- <-]; eauto. Qed.

#[local] Instance laws : DatabaseLaws name.
Proof.
  constructor; cbn.
  - intros [m l] db'. cbn. destruct (exec m l _ _) as [[e m'] l'] eqn:E. intros [= -> <-].
    destruct (exec_done _ _ _ _ _ _ E) as (r & Hr & ->). vm_compute in Hr. by injection Hr as <-.
  - intros [m l] db' e. cbn. destruct (exec m l _ _) as [[e' m'] l'] eqn:E. intros [= -> <-]. by apply exec_fails in E.
  - by intros d tx [= <-].
  - intros [m [b l]] q args e tx'. cbn. destruct (exec m l q args) as [[e' m'] l']. by intros [= <- <-].
  - intros [m [b l]] k tx'. cbn. destruct (exec m l _ _) as [[e' m'] l'] eqn:E. intros [= -> <-].
    destruct (exec_done _ _ _ _ _ _ E) as (r & Hr & ->). destruct m as [m|]; [|done]. exists m. by injection Hr as <-.
  - intros [m [b l]] k v tx'. cbn. destruct (exec m l _ _) as [[e' m'] l'] eqn:E. intros [= -> <-].
    destruct (exec_done _ _ _ _ _ _ E) as (r & Hr & ->). destruct m as [m|]; [|done]. exists m. cbn in Hr.
    destruct (m !! k); [done|]. by injection Hr as <-.
  - intros [m [b l]] d. cbn. destruct (pop l) as [[] l']; by intros [= <-].
  - intros [m [b l]] d e. cbn. destruct (pop l) as [[] l']; intros [= _ <-]. by right.
  - done.
  - intros [[m|] l] k r; cbn; [|done]. intros [= <-]. eauto.
Qed.

(** Cookies are words, written with a separator behind each. *)
Fixpoint words (fuel : nat) (s : bytes) : option (list bytes) :=
  match s, fuel with
  | [], _ => Some []
  | _ :: _, O => None
  | _ :: _, S f => match Cut s [x00] with Some (w, s') => cons w <$> words f s' | None => None end
  end.

Definition unwords (l : list bytes) : bytes := concat (map (λ w, w ++ [x00]) l).

#[local] Program Instance codec : CookieCodec :=
  {| Cookie := bytes; Marshal l := if bool_decide (words (length (unwords l)) (unwords l) = Some l) then Some (unwords l) else None;
     Unmarshal s := words (length s) s |}.
Next Obligation. intros l s. cbn. case_bool_decide as E; [|done]. by intros [= <-]. Qed.

(** The fourth statement and the second commit fail. *)
Definition start : @DB db := (Some ∅, [false; false; false; true; false; false; true]).
Definition ops : list operation :=
  [OpSave (str "p") [str "a"; str "b"]; OpSave (str "p") [str "c"]; OpLoad (str "p"); OpSave (str "q") [str "d"]; OpLoad (str "q");
   OpSave (str "p") []; OpLoad (str "p"); OpInit].

(** Whether a call succeeded, and what was loaded. *)
Definition shown (r : response) : bool * list bytes :=
  match r with Saved None => (true, []) | Loaded (Ok l) => (true, l) | _ => (false, []) end.

Example answers : map shown (run New start ops).1 =
  [(true, []); (false, []); (true, [str "a"; str "b"]); (false, []); (true, [str "d"]); (true, []); (true, []); (true, [])].
Proof. vm_compute. reflexivity. Qed.

Lemma start_empty : represents start ∅.
Proof. exists ∅. by split_and!. Qed.

Lemma store_refines_jars_witness : represents start ∅ ∧
  ∃ m', allowed ∅ ops (run New start ops).1 m' ∧ represents (run New start ops).2 m'.
Proof. split; [exact start_empty|exact (store_refines_jars New start ∅ ops start_empty)]. Defined.

End StoreSample.
