(* ===== verification/Raptor.v ===== *)
(** * The RaptorQ wrapper (src/raptor/wrapper.go)

    The sender with its block of retained slices, the frames on the wire, and the
    receiver: the read loop, its channels and [ReceiveDatagram] as a step relation.
    The fountain code itself is the mach module's: the class [RaptorQ]. *)

From S2P Require Import Prelude GoLib.

#[local] Open Scope Z_scope.

(** The size of a block and the repair symbol of one. *)
Class RaptorQ := { raptor_N : nat; Encode : list bytes → Z → bytes }.

Section wrapper.
Context `{RaptorQ} {error : Type}.

(** ** Sending

    [block] keeps the slices of the caller and not their contents: a slice is the
    number of a buffer, the heap gives the contents of buffers. *)
Definition heap : Type := nat → bytes.

Record Sender := { sendSeq : Z; block : list nat; wire : list bytes }.

Definition NewSender : Sender := {| sendSeq := 0; block := []; wire := [] |}.

(** Type(1) | Seq(4) | Payload *)
Definition frame (typ : byte) (seq : Z) (payload : bytes) : bytes := typ :: be32 seq ++ payload.

(** [sent] and [sent_repair]: what the transport answers. *)
Definition SendDatagram (h : heap) (sent sent_repair : option error) (p : nat) (w : Sender) : option error * Sender :=
  let buf := frame x00 (sendSeq w) (h p) in
  match sent with
  | Some e => (Some e, w)
  | None =>
      let w := {| sendSeq := (sendSeq w + 1) mod 2 ^ 32; block := block w ++ [p]; wire := wire w ++ [buf] |} in
      if (length (block w) =? raptor_N)%nat then
        let repair := Encode (map h (block w)) (sendSeq w) in
        let w := {| sendSeq := sendSeq w; block := []; wire := wire w |} in
        match repair, sent_repair with
        | _ :: _, None => (None, {| sendSeq := sendSeq w; block := block w; wire := wire w ++ [frame x01 (sendSeq w) repair] |})
        | _, _ => (None, w)
        end
      else (None, w)
  end.

(** ** Receiving *)

(** What the decoder is fed. *)
Record Datagram := { SymbolID : Z; Data : bytes; IsRepair : bool }.

Inductive packet := Normal (seq : Z) (payload : bytes) | Repair (seq : Z) (payload : bytes) | Ignored.

Definition read_packet (raw : bytes) : packet :=
  match raw with
  | typ :: a :: b :: c :: d :: payload =>
      match of_be32 [a; b; c; d] with
      | Some seq => if typ =b x00 then Normal seq payload else if typ =b x01 then Repair seq payload else Ignored
      | None => Ignored
      end
  | _ => Ignored
  end.

(** The read loop: reading, about to send a payload on [recvChan], about to feed
    the decoder, about to send an error on [errChan], ended. *)
Inductive loop := Reading | Passing (seq : Z) (payload : bytes) | Feeding (d : Datagram) | Failing (e : error) | Ended.

(** [consumed], [fed], [delivered] and [reported] are what has happened so far. *)
Record Receiver := {
  r_loop : loop;
  recvChan : list bytes;
  errChan : list error;
  recovered : list bytes;
  consumed : list bytes;
  fed : list Datagram;
  delivered : list bytes;
  reported : list error
}.

Definition recv_capacity : nat := 128.
Definition err_capacity : nat := 1.

Definition NewReceiver : Receiver :=
  {| r_loop := Reading; recvChan := []; errChan := []; recovered := []; consumed := []; fed := []; delivered := []; reported := [] |}.

Definition set_loop (l : loop) (r : Receiver) : Receiver :=
  {| r_loop := l; recvChan := recvChan r; errChan := errChan r; recovered := recovered r; consumed := consumed r; fed := fed r;
     delivered := delivered r; reported := reported r |}.

(** The state after a datagram of the transport. *)
Definition on_raw (raw : bytes) (r : Receiver) : Receiver :=
  let l := match read_packet raw with
           | Normal seq payload => Passing seq payload
           | Repair seq payload => Feeding {| SymbolID := seq; Data := payload; IsRepair := true |}
           | Ignored => Reading
           end in
  {| r_loop := l; recvChan := recvChan r; errChan := errChan r; recovered := recovered r; consumed := consumed r ++ [raw]; fed := fed r;
     delivered := delivered r; reported := reported r |}.

Inductive event := Received (p : bytes) | Recovered (p : bytes) | Failed (e : error).

(** [ReceiveDatagram] with a context that is not done: the branches of its
    select that are ready. *)
Inductive ReceiveDatagram (r : Receiver) : event → Receiver → Prop :=
| receive_error e es : errChan r = e :: es → ReceiveDatagram r (Failed e)
    {| r_loop := r_loop r; recvChan := recvChan r; errChan := es; recovered := recovered r; consumed := consumed r; fed := fed r;
       delivered := delivered r; reported := reported r ++ [e] |}
| receive_data p ps : recvChan r = p :: ps → ReceiveDatagram r (Received p)
    {| r_loop := r_loop r; recvChan := ps; errChan := errChan r; recovered := recovered r; consumed := consumed r; fed := fed r;
       delivered := delivered r ++ [p]; reported := reported r |}
| receive_recovered p ps : recovered r = p :: ps → ReceiveDatagram r (Recovered p)
    {| r_loop := r_loop r; recvChan := recvChan r; errChan := errChan r; recovered := ps; consumed := consumed r; fed := fed r;
       delivered := delivered r; reported := reported r |}.

(** A step of the read loop, of the decoder or of a caller of
    [ReceiveDatagram]. *)
Inductive step (r : Receiver) : Receiver → Prop :=
| step_raw raw : r_loop r = Reading → step r (on_raw raw r)
| step_error e : r_loop r = Reading → step r (set_loop (Failing e) r)
| step_pass seq payload : r_loop r = Passing seq payload → (length (recvChan r) < recv_capacity)%nat →
    step r {| r_loop := Feeding {| SymbolID := seq; Data := payload; IsRepair := false |}; recvChan := recvChan r ++ [payload];
              errChan := errChan r; recovered := recovered r; consumed := consumed r; fed := fed r; delivered := delivered r;
              reported := reported r |}
| step_feed d : r_loop r = Feeding d →
    step r {| r_loop := Reading; recvChan := recvChan r; errChan := errChan r; recovered := recovered r; consumed := consumed r;
              fed := fed r ++ [d]; delivered := delivered r; reported := reported r |}
| step_fail e : r_loop r = Failing e → (length (errChan r) < err_capacity)%nat →
    step r {| r_loop := Ended; recvChan := recvChan r; errChan := errChan r ++ [e]; recovered := recovered r; consumed := consumed r;
              fed := fed r; delivered := delivered r; reported := reported r |}
| step_recover p :
    step r {| r_loop := r_loop r; recvChan := recvChan r; errChan := errChan r; recovered := recovered r ++ [p]; consumed := consumed r;
              fed := fed r; delivered := delivered r; reported := reported r |}
| step_receive ev r' : ReceiveDatagram r ev r' → step r r'.

Inductive reachable : Receiver → Prop :=
| reach_new : reachable NewReceiver
| reach_step r r' : reachable r → step r r' → reachable r'.

(** ** What is received *)

Definition payload_of (raw : bytes) : option bytes := match read_packet raw with Normal _ p => Some p | _ => None end.
Definition datagram_of (raw : bytes) : option Datagram :=
  match read_packet raw with
  | Normal seq p => Some {| SymbolID := seq; Data := p; IsRepair := false |}
  | Repair seq p => Some {| SymbolID := seq; Data := p; IsRepair := true |}
  | Ignored => None
  end.

(** What the loop holds and has not handed on. *)
Definition pending_payload (l : loop) : list bytes := match l with Passing _ p => [p] | _ => [] end.
Definition pending_datagram (l : loop) : list Datagram :=
  match l with
  | Passing seq p => [{| SymbolID := seq; Data := p; IsRepair := false |}]
  | Feeding d => [d]
  | _ => []
  end.

Record receiver_inv (r : Receiver) : Prop := {
  inv_payloads : delivered r ++ recvChan r ++ pending_payload (r_loop r) = omap payload_of (consumed r);
  inv_fed : fed r ++ pending_datagram (r_loop r) = omap datagram_of (consumed r);
  inv_capacity : (length (recvChan r) <= recv_capacity)%nat;
  inv_errors : match r_loop r with
               | Ended => (length (reported r) + length (errChan r) = 1)%nat
               | _ => reported r = [] ∧ errChan r = []
               end
}.

Lemma receiver_step r r' : receiver_inv r → step r r' → receiver_inv r'.
Proof.
  intros [I1 I2 I3 I4] Hs. destruct Hs as [raw Hl|e Hl|seq p Hl Hc|d Hl|e Hl Hc|p|ev r' Hr].
  - rewrite Hl in *. constructor; cbn; [| |done|].
    + rewrite omap_app, <- I1. cbn. rewrite app_nil_r. unfold payload_of.
      by destruct (read_packet raw); cbn; rewrite ?app_nil_r, <- ?app_assoc.
    + rewrite omap_app, <- I2. cbn. rewrite app_nil_r. unfold datagram_of. by destruct (read_packet raw).
    + by destruct (read_packet raw).
  - rewrite Hl in *. by constructor.
  - rewrite Hl in *. constructor; cbn; [by rewrite app_nil_r, <- I1|done| |done]. lens.
  - rewrite Hl in *. constructor; cbn; [done|by rewrite app_nil_r|done|done].
  - rewrite Hl in *. destruct I4 as [I4 I5]. constructor; cbn; [done..|]. by rewrite I4, I5.
  - by constructor.
  - destruct Hr as [e es He|p ps Hp|p ps Hp]; constructor; cbn; try done.
    + destruct (r_loop r); rewrite ?He in I4; try (by destruct I4). cbn in *. lens.
    + by rewrite <- I1, Hp, <- !app_assoc.
    + rewrite Hp in I3. cbn in I3. lia.
Qed.

Lemma reachable_receiver_inv r : reachable r → receiver_inv r.
Proof. induction 1 as [|r r' _ IH Hs]; [by constructor; cbn; [..|lia|]|by eapply receiver_step]. Qed.

(** ** What is sent *)

(** One call of [SendDatagram]: the heap at that time, the answers of the
    transport, the buffer. *)
Record call := { c_heap : heap; c_sent : option error; c_repair : option error; c_buffer : nat }.

Definition send (w : Sender) (c : call) : Sender := (SendDatagram (c_heap c) (c_sent c) (c_repair c) (c_buffer c) w).2.
Definition send_all (cs : list call) : Sender := foldl send NewSender cs.

(** The payloads of the calls that succeed, at the time of the call. *)
Definition payloads (cs : list call) : list bytes :=
  omap (λ c, match c_sent c with None => Some (c_heap c (c_buffer c)) | Some _ => None end) cs.

Lemma read_frame typ seq p : 0 <= seq < 2 ^ 32 →
  read_packet (frame typ seq p) = if typ =b x00 then Normal seq p else if typ =b x01 then Repair seq p else Ignored.
Proof.
  intros Hs. unfold frame, read_packet. pose proof (of_be32_be32 seq []) as Hb. rewrite app_nil_r, Z.mod_small in Hb by done.
  unfold be32 in *. cbn [app] in *. by rewrite Hb.
Qed.

#[local] Arguments frame : simpl never.
#[local] Arguments payload_of : simpl never.
#[local] Arguments datagram_of : simpl never.

Definition seq_of (n : nat) : Z := Z.of_nat n mod 2 ^ 32.

Lemma seq_range n : 0 <= seq_of n < 2 ^ 32.
Proof. unfold seq_of. apply Z.mod_pos_bound. lia. Qed.

Lemma seq_S n : (seq_of n + 1) mod 2 ^ 32 = seq_of (S n).
Proof. unfold seq_of. rewrite Nat2Z.inj_succ, Zplus_mod_idemp_l. done. Qed.

(** The [n]-th payload as the decoder sees it. *)
Definition data_datagram (n : nat) (p : bytes) : Datagram := {| SymbolID := seq_of n; Data := p; IsRepair := false |}.

Lemma payloads_snoc cs c :
  payloads (cs ++ [c]) = payloads cs ++ match c_sent c with None => [c_heap c (c_buffer c)] | Some _ => [] end.
Proof. unfold payloads. rewrite omap_app. cbn. by destruct (c_sent c). Qed.

(** The repair datagram that follows a full block, if any. *)
Definition repair_after (h : heap) (blk : list nat) (seq : Z) (c : call) : list Datagram :=
  if (length blk =? raptor_N)%nat then
    match Encode (map h blk) seq, c_repair c with
    | (_ :: _) as d, None => [{| SymbolID := seq; Data := d; IsRepair := true |}]
    | _, _ => []
    end
  else [].

(** What a successful call adds to the wire: a numbered payload and perhaps a
    repair symbol. *)
Lemma send_ok w c n : sendSeq w = seq_of n → c_sent c = None →
  let p := c_heap c (c_buffer c) in
  let blk := block w ++ [c_buffer c] in
  sendSeq (send w c) = seq_of (S n) ∧
  block (send w c) = (if (length blk =? raptor_N)%nat then [] else blk) ∧
  omap payload_of (wire (send w c)) = omap payload_of (wire w) ++ [p] ∧
  omap datagram_of (wire (send w c)) =
    omap datagram_of (wire w) ++ data_datagram n p :: repair_after (c_heap c) blk (seq_of (S n)) c.
Proof.
  intros Hs Hc. cbv zeta. unfold send, SendDatagram, repair_after. rewrite Hc, Hs, seq_S. cbn [sendSeq block wire].
  assert (∀ typ m p, payload_of (frame typ (seq_of m) p) = if typ =b x00 then Some p else None) as Fp.
  { intros. unfold payload_of. rewrite read_frame by apply seq_range. by destruct (typ =b x00), (typ =b x01). }
  assert (∀ typ m p, datagram_of (frame typ (seq_of m) p) =
    if typ =b x00 then Some (data_datagram m p) else if typ =b x01 then Some {| SymbolID := seq_of m; Data := p; IsRepair := true |} else None) as Fd.
  { intros. unfold datagram_of. rewrite read_frame by apply seq_range. by destruct (typ =b x00), (typ =b x01). }
  destruct (length (block w ++ [c_buffer c]) =? raptor_N)%nat; [destruct (Encode _ _), (c_repair c)|];
    cbn [snd sendSeq block wire]; (split; [done|]); (split; [done|]); rewrite !omap_app; cbn; rewrite ?Fp, ?Fd; cbn;
    rewrite ?app_nil_r; (split; [done|]); first [done|rewrite <- app_assoc; done].
Qed.

Lemma send_failed w c e : c_sent c = Some e → send w c = w.
Proof. intros Hc. unfold send, SendDatagram. by rewrite Hc. Qed.

(** The wire holds the payloads in order, and the sequence number counts them. *)
Lemma send_all_wire cs : omap payload_of (wire (send_all cs)) = payloads cs ∧ sendSeq (send_all cs) = seq_of (length (payloads cs)).
Proof.
  induction cs as [|c cs [IH1 IH2]] using rev_ind; [done|]. rewrite payloads_snoc. unfold send_all in *. rewrite foldl_app. cbn [foldl].
  destruct (c_sent c) as [e|] eqn:Ec; [rewrite (send_failed _ _ e Ec), app_nil_r; done|].
  destruct (send_ok _ c _ IH2 Ec) as (S1 & _ & S3 & _). rewrite S3, IH1, S1. split; [done|]. by rewrite length_app, Nat.add_1_r.
Qed.

(** Over a transport that loses, repeats and reorders, everything a
    receiver delivers was sent; over one that is reliable so far, the payloads
    come in the order they were sent, and none is missing once the wire has been
    read. *)
Theorem datagrams_delivered cs r : reachable r →
  (Forall (λ raw, raw ∈ wire (send_all cs)) (consumed r) → Forall (λ p, p ∈ payloads cs) (delivered r ++ recvChan r)) ∧
  (consumed r `prefix_of` wire (send_all cs) → delivered r `prefix_of` payloads cs) ∧
  (consumed r = wire (send_all cs) → delivered r ++ recvChan r ++ pending_payload (r_loop r) = payloads cs).
Proof.
  intros Hr. destruct (reachable_receiver_inv r Hr) as [I1 _ _ _]. destruct (send_all_wire cs) as [W _]. split_and!.
  - intros Hc. assert (Forall (λ p, p ∈ payloads cs) (omap payload_of (consumed r))) as F.
    { apply Forall_forall. intros p Hp. apply list_elem_of_omap in Hp as (raw & Hraw & Hp). rewrite Forall_forall in Hc.
      rewrite <- W. apply list_elem_of_omap. exists raw. by split; [apply Hc|]. }
    rewrite <- I1, app_assoc in F. by apply Forall_app in F as [F _].
  - intros [k Hk]. rewrite <- W, Hk, omap_app, <- I1. rewrite <- !app_assoc. by eexists.
  - intros Hc. by rewrite I1, Hc.
Qed.

(** ** Repair symbols *)

(** With buffers that are not written to after they were sent, the block holds
    the payloads sent since the last full block. *)
Definition stable (h : heap) (cs : list call) : Prop := Forall (λ c, c_heap c = h) cs.

Definition full_block (P : list bytes) (j : nat) : list bytes := take raptor_N (drop (j * raptor_N) P).

Lemma block_inv h cs : (0 < raptor_N)%nat → stable h cs →
  ∃ q, length (payloads cs) = (q * raptor_N + length (block (send_all cs)))%nat ∧ (length (block (send_all cs)) < raptor_N)%nat ∧
    map h (block (send_all cs)) = drop (q * raptor_N) (payloads cs) ∧
    ∀ d, d ∈ omap datagram_of (wire (send_all cs)) → IsRepair d = true →
      ∃ j, (S j * raptor_N <= length (payloads cs))%nat ∧ SymbolID d = seq_of (S j * raptor_N) ∧
        Data d = Encode (full_block (payloads cs) j) (SymbolID d).
Proof.
  intros HN Hst. induction cs as [|c cs IH] using rev_ind; [exists 0%nat; split_and!; set_solver|].
  apply Forall_app in Hst as [Hst Hc]. apply Forall_inv in Hc. specialize (IH Hst) as (q & Q1 & Q2 & Q3 & Q4).
  rewrite payloads_snoc. pose proof (send_all_wire cs) as [_ Hseq]. unfold send_all in *. rewrite foldl_app. cbn [foldl].
  set (w := foldl send NewSender cs) in *. set (P := payloads cs) in *.
  destruct (c_sent c) as [e|] eqn:Ec; [exists q; rewrite (send_failed _ _ e Ec); by rewrite (app_nil_r P)|].
  cbn beta in Hc. destruct (send_ok w c _ Hseq Ec) as (_ & S2 & _ & S4). rewrite S2, S4, Hc. set (p := h (c_buffer c)).
  assert (map h (block w ++ [c_buffer c]) = drop (q * raptor_N) (P ++ [p])) as Hb.
  { rewrite map_app, Q3. cbn. by rewrite drop_app_le by lia. }
  assert (length (block w ++ [c_buffer c]) = S (length (block w))) as Hlen by lens.
  assert (∀ j, (S j * raptor_N <= length P)%nat → full_block (P ++ [p]) j = full_block P j) as Hfull.
  { intros j Hj. unfold full_block. rewrite drop_app_le by lia. rewrite take_app_le; [done|]. rewrite length_drop. lia. }
  assert (∀ d, d ∈ omap datagram_of (wire w) ++ [data_datagram (length P) p] → IsRepair d = true →
    ∃ j, (S j * raptor_N <= length (P ++ [p]))%nat ∧ SymbolID d = seq_of (S j * raptor_N) ∧
      Data d = Encode (full_block (P ++ [p]) j) (SymbolID d)) as Hold.
  { intros d [Hd| ->%list_elem_of_singleton]%elem_of_app Hr; [|done]. destruct (Q4 d Hd Hr) as (j & J1 & J2 & J3). exists j.
    rewrite Hfull by done. split; [lens|done]. }
  unfold repair_after. destruct (length (block w ++ [c_buffer c]) =? raptor_N)%nat eqn:El; bools.
  - exists (S q). rewrite length_app. cbn [length]. split_and!; [lia|done| |].
    + rewrite drop_ge by lens. done.
    + intros d Hd Hr. rewrite cons_middle, app_assoc in Hd. apply elem_of_app in Hd as [Hd|Hd]; [by destruct (Hold d Hd Hr) as (j & J1 & ?); exists j; split; [lens|]|].
      rewrite Hb in Hd. destruct (Encode _ _) as [|x d0] eqn:En in Hd; [set_solver|]. destruct (c_repair c); [set_solver|].
      apply list_elem_of_singleton in Hd as ->. exists q. cbn [SymbolID Data IsRepair]. split; [lia|].
      assert (seq_of (S (length P)) = seq_of (S q * raptor_N)) as Es by (f_equal; lia). split; [done|]. rewrite <- En.
      f_equal. unfold full_block. by rewrite take_ge by lens.
  - exists q. rewrite length_app. cbn [length]. split_and!; [lia|lia|done|]. intros d Hd Hr.
    destruct (Hold d Hd Hr) as (j & J1 & ?). exists j. split; [lens|done].
Qed.

(** Repair symbols protect what was sent: with buffers that are not written to
    later, each is the code of a whole block of consecutive payloads, numbered by
    the payloads sent before it. *)
Theorem repair_covers_block h cs d : (0 < raptor_N)%nat → stable h cs →
  d ∈ omap datagram_of (wire (send_all cs)) → IsRepair d = true →
  ∃ j, (S j * raptor_N <= length (payloads cs))%nat ∧ SymbolID d = seq_of (S j * raptor_N) ∧
    Data d = Encode (full_block (payloads cs) j) (SymbolID d).
Proof. intros HN Hst Hd Hr. destruct (block_inv h cs HN Hst) as (q & _ & _ & _ & H4). by apply H4. Qed.

(** A buffer used again for every datagram of a block: the repair symbol is the
    code of copies of its last contents. *)
Lemma reused_buffer_repair cs b c : length cs = pred raptor_N → (0 < raptor_N)%nat →
  Forall (λ c, c_buffer c = b ∧ c_sent c = None) (cs ++ [c]) → c_repair c = None →
  Encode (replicate raptor_N (c_heap c b)) (seq_of raptor_N) ≠ [] →
  ∃ l, wire (send_all (cs ++ [c])) = l ++ [frame x01 (seq_of raptor_N) (Encode (replicate raptor_N (c_heap c b)) (seq_of raptor_N))].
Proof.
  intros Hl HN [Hcs Hc%Forall_inv]%Forall_app Hr Hne. destruct Hc as [Hb Hs].
  assert (∀ k, Forall (λ c, c_buffer c = b ∧ c_sent c = None) k → (length k < raptor_N)%nat →
    block (send_all k) = replicate (length k) b ∧ length (payloads k) = length k) as Hk.
  { intros k. induction k as [|x k IH] using rev_ind; [done|]. intros [Hk [Hx1 Hx2]%Forall_inv]%Forall_app. rewrite length_app. cbn [length].
    intros Hlt. destruct (IH Hk) as [E1 E2]; [lia|]. pose proof (send_all_wire k) as [_ Hseq]. unfold send_all in *. rewrite foldl_app. cbn [foldl].
    destruct (send_ok _ x _ Hseq Hx2) as (_ & S2 & _). rewrite S2, E1, Hx1, payloads_snoc, Hx2, length_app, length_replicate, length_app, E2.
    cbn [length]. rewrite (proj2 (Nat.eqb_neq _ _)) by lia. split; [|done]. by rewrite Nat.add_1_r, replicate_S_end. }
  destruct (Hk cs Hcs) as [E1 E2]; [lia|]. pose proof (send_all_wire cs) as [_ Hseq]. unfold send_all in *. rewrite foldl_app. cbn [foldl].
  unfold send at 1. unfold SendDatagram. rewrite Hs, Hseq, seq_S, E1, E2, Hb. cbn [block sendSeq wire].
  rewrite length_app, length_replicate. cbn [length]. rewrite (proj2 (Nat.eqb_eq _ _)) by lia.
  rewrite map_app, Hr. cbn [map].
  assert (map (c_heap c) (replicate (length cs) b) ++ [c_heap c b] = replicate raptor_N (c_heap c b)) as ->.
  { rewrite <- (Nat.succ_pred_pos raptor_N HN), <- Hl, replicate_S_end. f_equal. clear. induction (length cs); [done|]. cbn. by rewrite IHn. }
  assert (S (length cs) = raptor_N) as -> by lia. destruct (Encode _ _) eqn:En; [done|]. cbn [snd wire]. eauto.
Qed.

(** ** After an error *)

Lemma ended_step r r' : reachable r → r_loop r = Ended → errChan r = [] → step r r' →
  r_loop r' = Ended ∧ errChan r' = [] ∧ recvChan r' `suffix_of` recvChan r.
Proof.
  intros Hr Hl He Hs. destruct Hs as [raw Hl'|e Hl'|seq p Hl' _|d Hl'|e Hl' _|p|ev r' Hv]; try congruence; [by split_and!|].
  destruct Hv as [e es He'|p ps Hp|p ps Hp]; [congruence| |by split_and!]. split; [done|]. split; [done|]. rewrite Hp. by exists [p].
Qed.

(** A transport error is reported to one call only: once it has been
    returned and the queue is empty, [ReceiveDatagram] can return nothing but
    symbols the decoder still recovers, whatever happens; without them every
    later call waits for its context. *)
Theorem error_reported_once r r' : reachable r → reported r ≠ [] → recvChan r = [] → rtc step r r' →
  r_loop r' = Ended ∧ length (reported r') = 1%nat ∧ ∀ ev r'', ReceiveDatagram r' ev r'' → ∃ p, ev = Recovered p.
Proof.
  intros Hr Hrep Hq Hst. destruct (reachable_receiver_inv r Hr) as [_ _ _ I4].
  assert (r_loop r = Ended ∧ errChan r = []) as [Hl He].
  { destruct (r_loop r); try (by destruct I4). split; [done|]. destruct (reported r); [done|]. cbn in I4. destruct (errChan r); [done|].
    cbn in I4. lia. }
  assert (reachable r' ∧ r_loop r' = Ended ∧ errChan r' = [] ∧ recvChan r' = []) as (Hr' & Hl' & He' & Hq').
  { clear Hrep I4. induction Hst as [|r r1 r' Hs _ IH]; [done|]. destruct (ended_step r r1 Hr Hl He Hs) as (E1 & E2 & E3).
    apply IH; [by econstructor| |done|done]. rewrite Hq in E3. by apply suffix_nil_inv in E3. }
  split; [done|]. destruct (reachable_receiver_inv r' Hr') as [_ _ _ I5]. rewrite Hl', He' in I5. cbn in I5. split; [lia|].
  intros ev r'' Hv. destruct Hv as [e es E|p ps E|p ps E]; [congruence..|eauto].
Qed.
End wrapper.

Module RaptorSample.

(** Blocks of two; the repair symbol is the exclusive or of their first bytes. *)
#[local] Instance xor : RaptorQ :=
  {| raptor_N := 2; Encode l _ := [zb (foldr (λ p z, Z.lxor (bz (default x00 (head p))) z) 0 l)] |}.

Definition contents (l : list bytes) : heap := λ i, default [] (l !! i).
Definition call_of (h : heap) (sent : option bytes) (b : nat) : call (error := bytes) :=
  {| c_heap := h; c_sent := sent; c_repair := None; c_buffer := b |}.

Definition mem : heap := contents [[x01; x02]; [x04]; [x07]].
Definition calls : list call := [call_of mem None 0; call_of mem (Some (str "down")) 2; call_of mem None 1; call_of mem None 2].

Example calls_wire : wire (send_all calls) =
  [[x00; x00; x00; x00; x00; x01; x02]; [x00; x00; x00; x00; x01; x04]; [x01; x00; x00; x00; x02; x05]; [x00; x00; x00; x00; x02; x07]].
Proof. vm_compute. reflexivity. Qed.

(** The receiver reads a datagram and hands it on. *)
Definition after_raw (raw : bytes) (r : Receiver (error := bytes)) : Receiver :=
  match read_packet raw with
  | Normal seq p =>
      {| r_loop := Reading; recvChan := recvChan r ++ [p]; errChan := errChan r; recovered := recovered r; consumed := consumed r ++ [raw];
         fed := fed r ++ [{| SymbolID := seq; Data := p; IsRepair := false |}]; delivered := delivered r; reported := reported r |}
  | Repair seq p =>
      {| r_loop := Reading; recvChan := recvChan r; errChan := errChan r; recovered := recovered r; consumed := consumed r ++ [raw];
         fed := fed r ++ [{| SymbolID := seq; Data := p; IsRepair := true |}]; delivered := delivered r; reported := reported r |}
  | Ignored => on_raw raw r
  end.

Lemma after_raw_reachable raw r : reachable r → r_loop r = Reading → (length (recvChan r) < recv_capacity)%nat →
  reachable (after_raw raw r) ∧ r_loop (after_raw raw r) = Reading.
Proof.
  intros Hr Hl Hc. pose proof (reach_step _ _ Hr (step_raw r raw Hl)) as H1. unfold after_raw. unfold on_raw in *.
  destruct (read_packet raw) as [seq p|seq p|]; [| |by split].
  - match type of H1 with reachable ?x => pose proof (reach_step _ _ H1 (step_pass x seq p eq_refl Hc)) as H2 end. split; [|done].
    match type of H2 with reachable ?x => exact (reach_step _ _ H2 (step_feed x _ eq_refl)) end.
  - split; [|done]. match type of H1 with reachable ?x => exact (reach_step _ _ H1 (step_feed x _ eq_refl)) end.
Qed.

Definition received : Receiver := foldl (λ r raw, after_raw raw r) NewReceiver (wire (send_all calls)).

Lemma received_reachable : reachable received ∧ r_loop received = Reading.
Proof.
  assert (∀ raws r, reachable r → r_loop r = Reading → (length (recvChan r) + length raws <= recv_capacity)%nat →
    reachable (foldl (λ r raw, after_raw raw r) r raws) ∧ r_loop (foldl (λ r raw, after_raw raw r) r raws) = Reading) as G.
  { intros raws. induction raws as [|raw raws IH]; intros r Hr Hl Hn; [done|]. cbn [foldl]. cbn [length] in Hn.
    destruct (after_raw_reachable raw r Hr Hl) as [G1 G2]; [lia|]. apply IH; [done..|].
    unfold after_raw. destruct (read_packet raw); cbn [recvChan on_raw]; lens. }
  apply G; [constructor|done|vm_compute; lia].
Qed.

Lemma datagrams_delivered_witness : delivered received ++ recvChan received ++ [] = [[x01; x02]; [x04]; [x07]].
Proof.
  destruct received_reachable as [Hr Hl]. destruct (datagrams_delivered calls received Hr) as (_ & _ & H3).
  specialize (H3 ltac:(vm_compute; reflexivity)). rewrite Hl in H3.
  etrans; [exact H3|vm_compute; reflexivity].
Defined.

Lemma repair_covers_block_witness : ∃ j, Encode (full_block (payloads calls) j) 2 = [x05].
Proof.
  assert (stable mem calls) as Hst by (repeat (apply Forall_cons_2; [reflexivity|]); constructor).
  assert (0 < @raptor_N xor)%nat as HN by (cbn; lia).
  destruct (repair_covers_block mem calls {| SymbolID := 2; Data := [x05]; IsRepair := true |} HN Hst)
    as (j & _ & _ & H3); [|done|by exists j].
  assert (omap datagram_of (wire (send_all calls)) !! 2%nat = Some {| SymbolID := 2; Data := [x05]; IsRepair := true |}) as E
    by (vm_compute; reflexivity).
  by eapply list_elem_of_lookup_2.
Defined.

(** A receiver whose transport fails at once, and the call that learns it. *)
Definition failed : Receiver := {| r_loop := Ended; recvChan := []; errChan := []; recovered := []; consumed := []; fed := []; delivered := [];
  reported := [str "closed"] |}.

Lemma failed_reachable : reachable failed.
Proof.
  pose proof (reach_step _ _ reach_new (step_error NewReceiver (str "closed") eq_refl)) as H1.
  match type of H1 with reachable ?x => pose proof (reach_step _ _ H1 (step_fail x _ eq_refl (Nat.lt_0_succ 0))) as H2 end.
  match type of H2 with reachable ?x => exact (reach_step _ _ H2 (step_receive x _ _ (receive_error x _ [] eq_refl))) end.
Qed.

Lemma error_reported_once_witness : ∀ ev r'', ReceiveDatagram failed ev r'' → ∃ p, ev = Recovered p.
Proof. exact (proj2 (proj2 (error_reported_once failed failed failed_reachable ltac:(done) eq_refl ltac:(constructor)))). Defined.

(** One buffer for both datagrams of a block: the symbol is that of two copies of
    the second, and zero. *)
Example reused_buffer : wire (send_all [call_of (contents [[x09]]) None 0; call_of (contents [[x07]]) None 0]) =
  [[x00; x00; x00; x00; x00; x09]; [x00; x00; x00; x00; x01; x07]; [x01; x00; x00; x00; x02; x00]].
Proof. vm_compute. reflexivity. Qed.
End RaptorSample.
