(* ===== verification/Tun.v ===== *)
(** * TUN devices (src/tunnel/tun)

    The Wintun adapter as threads that share the closed flag and call the
    driver, with a checker of the order in which a session may be used; the
    construction of the adapters of the three systems, with the system calls as
    arguments. *)

From S2P Require Import Prelude GoLib GoText.

#[local] Open Scope Z_scope.

(** ** C strings *)

Fixpoint cStringToGoString (b : bytes) : bytes :=
  match b with
  | [] => []
  | v :: b' => if v =b x00 then [] else v :: cStringToGoString b'
  end.

Lemma cString_padded s n : x00 ∉ s → cStringToGoString (s ++ replicate n x00) = s.
Proof.
  induction s as [|c s IH]; intros Hs; [by destruct n|]. apply not_elem_of_cons in Hs as [Hc Hs]. cbn.
  destruct (c =b x00) eqn:E; bools; [congruence|]. by rewrite IH.
Qed.

Lemma cString_no_nul b : x00 ∉ cStringToGoString b.
Proof.
  induction b as [|c b IH]; cbn; [apply not_elem_of_nil|]. destruct (c =b x00) eqn:E; [apply not_elem_of_nil|].
  bools. apply not_elem_of_cons. split; [congruence|done].
Qed.

(** ** Wintun *)

Section wintun.

Inductive wintun_error := ErrWintunNotLoaded | ErrInvalidString | ErrAdapterCreationFailed | ErrSessionCreationFailed.

(** The calls of the driver, with what they answer. *)
Inductive event :=
  | Created (name tunnelType : bytes) | Started (capacity : Z) | ReadWaitEvent
  | Received (ptr : Z) (packet : bytes) | NoPacket | Waited | Released (ptr : Z)
  | Allocated (ptr : Z) (size : Z) | NoSpace | Sent (ptr : Z) (packet : bytes)
  | SessionEnded | AdapterClosed.

Definition defaultRingCapacity : Z := 0x400000.

Record WintunAdapter := { wa_name : bytes; wa_session : bool }.

(** [Close] of an adapter that no one else uses. *)
Definition close_calls (a : WintunAdapter) : list event := (if wa_session a then [SessionEnded] else []) ++ [AdapterClosed].

(** The construction: whether the library loads, and whether the driver creates
    the adapter and the session. *)
Definition NewWintunAdapter (loaded created started : bool) (adapterName tunnelType : bytes) :
    result wintun_error WintunAdapter * list event :=
  if negb loaded then (Err ErrWintunNotLoaded, [])
  else if bool_decide (x00 ∈ adapterName) then (Err ErrInvalidString, [])
  else if bool_decide (x00 ∈ tunnelType) then (Err ErrInvalidString, [])
  else if negb created then (Err ErrAdapterCreationFailed, [])
  else
    let adapter := {| wa_name := adapterName; wa_session := false |} in
    if negb started then (Err ErrSessionCreationFailed, Created adapterName tunnelType :: close_calls adapter)
    else (Ok {| wa_name := adapterName; wa_session := true |},
          [Created adapterName tunnelType; Started defaultRingCapacity; ReadWaitEvent]).

(** *** The goroutines that use an adapter *)

(** The buffer of [Read], or the caller of [ReceivePacket] itself. *)
Inductive dest := Buffer (size : nat) | Direct.
Definition packet : Type := Z * bytes.

Inductive read_error := EOF | ErrShortBuffer.

(** What a read of a packet returns. *)
Definition received (d : dest) (p : packet) : result read_error bytes :=
  match d with
  | Buffer size => if (size <? length p.2)%nat then Err ErrShortBuffer else Ok p.2
  | Direct => Ok p.2
  end.

(** A goroutine in [ReceivePacket], with the packet it got there, in
    [ReleaseReceivePacket] with a packet, called by [Read] with a buffer of that
    size or by the user, in [SendPacket], or in [Close]. *)
Inductive pc :=
  | Idle
  | RecvCheck (d : dest) | RecvCall (d : dest) | RecvWait (d : dest)
  | Lent (d : dest) (p : packet)
  | Freeing (by_read : option nat) (p : packet) | Releasing (by_read : option nat) (p : packet)
  | SendCheck (data : bytes) | SendAlloc (data : bytes) | SendCall (ptr : Z) (data : bytes)
  | Ending | Closing.

Record adapter := {
  a_closed : bool;
  a_threads : list pc;
  a_trace : list event;
  a_reads : list (dest * packet * result read_error bytes);   (* the reads of a packet, with what they returned *)
  a_held : list packet;                        (* returned by [ReceivePacket] and not released yet *)
  a_writes : list (bytes * bool)               (* the writes, and whether they reported success *)
}.

Definition move (i : nat) (p : pc) (a : adapter) : adapter :=
  {| a_closed := a_closed a; a_threads := <[i := p]> (a_threads a); a_trace := a_trace a; a_reads := a_reads a; a_held := a_held a; a_writes := a_writes a |}.
Definition log (e : event) (a : adapter) : adapter :=
  {| a_closed := a_closed a; a_threads := a_threads a; a_trace := a_trace a ++ [e]; a_reads := a_reads a; a_held := a_held a; a_writes := a_writes a |}.
Definition set_closed (a : adapter) : adapter :=
  {| a_closed := true; a_threads := a_threads a; a_trace := a_trace a; a_reads := a_reads a; a_held := a_held a; a_writes := a_writes a |}.
Definition returned (d : dest) (p : packet) (a : adapter) : adapter :=
  {| a_closed := a_closed a; a_threads := a_threads a; a_trace := a_trace a; a_reads := a_reads a ++ [(d, p, received d p)]; a_held := a_held a; a_writes := a_writes a |}.
Definition hold (l : list packet) (a : adapter) : adapter :=
  {| a_closed := a_closed a; a_threads := a_threads a; a_trace := a_trace a; a_reads := a_reads a; a_held := l; a_writes := a_writes a |}.
Definition wrote (data : bytes) (ok : bool) (a : adapter) : adapter :=
  {| a_closed := a_closed a; a_threads := a_threads a; a_trace := a_trace a; a_reads := a_reads a; a_held := a_held a; a_writes := a_writes a ++ [(data, ok)] |}.

(** [Read] returns when its deferred call does. *)
Definition freed (by_read : option nat) (p : packet) (a : adapter) : adapter :=
  match by_read with Some size => returned (Buffer size) p a | None => a end.

(** The steps of one goroutine. The driver gives packets that are not empty. *)
Inductive thread_step (i : nat) (a : adapter) : pc → adapter → Prop :=
  | step_recv_closed d : a_closed a = true → thread_step i a (RecvCheck d) (move i Idle a)
  | step_recv_open d : a_closed a = false → thread_step i a (RecvCheck d) (move i (RecvCall d) a)
  | step_recv d ptr pkt : pkt ≠ [] → thread_step i a (RecvCall d) (log (Received ptr pkt) (move i (Lent d (ptr, pkt)) a))
  | step_recv_empty d : thread_step i a (RecvCall d) (log NoPacket (move i (RecvWait d) a))
  | step_wait d : thread_step i a (RecvWait d) (log Waited (move i (RecvCheck d) a))
  | step_hand_over p : thread_step i a (Lent Direct p) (hold (p :: a_held a) (returned Direct p (move i Idle a)))
  | step_copy size p : thread_step i a (Lent (Buffer size) p) (move i (Freeing (Some size) p) a)
  | step_keep by_read p : a_closed a = true → thread_step i a (Freeing by_read p) (freed by_read p (move i Idle a))
  | step_give_back by_read p : a_closed a = false → thread_step i a (Freeing by_read p) (move i (Releasing by_read p) a)
  | step_release by_read p : thread_step i a (Releasing by_read p) (log (Released p.1) (freed by_read p (move i Idle a)))
  | step_send_skip data : a_closed a = true ∨ data = [] → thread_step i a (SendCheck data) (wrote data true (move i Idle a))
  | step_send_open data : a_closed a = false → data ≠ [] → thread_step i a (SendCheck data) (move i (SendAlloc data) a)
  | step_alloc data ptr : thread_step i a (SendAlloc data) (log (Allocated ptr (Z.of_nat (length data))) (move i (SendCall ptr data) a))
  | step_no_space data : thread_step i a (SendAlloc data) (log NoSpace (wrote data false (move i Idle a)))
  | step_send ptr data : thread_step i a (SendCall ptr data) (log (Sent ptr data) (wrote data true (move i Idle a)))
  | step_end : thread_step i a Ending (log SessionEnded (move i Closing a))
  | step_destroy : thread_step i a Closing (log AdapterClosed (move i Idle a)).

Definition all_idle (a : adapter) : Prop := Forall (λ p, p = Idle) (a_threads a).

(** The operations: [Read] and [ReceivePacket], [Write] and [SendPacket],
    [ReleaseReceivePacket], and [Close], which acts once. With [alone], an operation
    begins when no other one runs. With [once], the users release a packet only
    while they hold it; without, also again. *)
Inductive step (alone once : bool) (a : adapter) : adapter → Prop :=
  | step_thread i p a' : a_threads a !! i = Some p → thread_step i a p a' → step alone once a a'
  | step_read i d : a_threads a !! i = Some Idle → (alone = true → all_idle a) → step alone once a (move i (RecvCheck d) a)
  | step_free i p l : a_threads a !! i = Some Idle → (alone = true → all_idle a) → a_held a ≡ₚ p :: l →
      step alone once a (hold l (move i (Freeing None p) a))
  | step_free_again i p r : a_threads a !! i = Some Idle → (alone = true → all_idle a) → once = false → (Direct, p, r) ∈ a_reads a →
      step alone once a (move i (Freeing None p) a)
  | step_write i data : a_threads a !! i = Some Idle → (alone = true → all_idle a) → step alone once a (move i (SendCheck data) a)
  | step_close i : a_threads a !! i = Some Idle → (alone = true → all_idle a) → a_closed a = false →
      step alone once a (set_closed (move i Ending a))
  | step_close_again i : a_threads a !! i = Some Idle → a_closed a = true → step alone once a a.

Definition opened (n : nat) (name tunnelType : bytes) : adapter :=
  {| a_closed := false; a_threads := replicate n Idle; a_trace := (NewWintunAdapter true true true name tunnelType).2; a_reads := []; a_held := []; a_writes := [] |}.

Inductive reachable (alone once : bool) (n : nat) (name tunnelType : bytes) : adapter → Prop :=
  | reach_open : x00 ∉ name → x00 ∉ tunnelType → reachable alone once n name tunnelType (opened n name tunnelType)
  | reach_step a a' : reachable alone once n name tunnelType a → step alone once a a' → reachable alone once n name tunnelType a'.

(** *** How the driver may be used

    [strict] forbids every call on a session that has ended. *)
Inductive session := NoSession | Open | Over.
Record usage := { u_adapter : bool; u_session : session; u_lent : list Z; u_allocated : list Z }.

Definition unused : usage := {| u_adapter := false; u_session := NoSession; u_lent := []; u_allocated := [] |}.

Fixpoint remove_one (x : Z) (l : list Z) : option (list Z) :=
  match l with
  | [] => None
  | y :: l' => if y =? x then Some l' else cons y <$> remove_one x l'
  end.

Definition usable (strict : bool) (u : usage) : bool :=
  match u_session u with Open => true | Over => negb strict | NoSession => false end.

Definition use (strict : bool) (u : usage) (e : event) : option usage :=
  match e with
  | Created _ _ => if u_adapter u then None else Some {| u_adapter := true; u_session := u_session u; u_lent := u_lent u; u_allocated := u_allocated u |}
  | Started _ =>
      match u_session u with
      | NoSession => if u_adapter u then Some {| u_adapter := true; u_session := Open; u_lent := u_lent u; u_allocated := u_allocated u |} else None
      | _ => None
      end
  | ReadWaitEvent => if usable true u then Some u else None
  | Received ptr _ => if usable strict u then Some {| u_adapter := u_adapter u; u_session := u_session u; u_lent := ptr :: u_lent u; u_allocated := u_allocated u |} else None
  | NoPacket | NoSpace => if usable strict u then Some u else None
  | Waited => Some u
  | Released ptr =>
      if usable strict u then
        l ← remove_one ptr (u_lent u);
        Some {| u_adapter := u_adapter u; u_session := u_session u; u_lent := l; u_allocated := u_allocated u |}
      else None
  | Allocated ptr _ => if usable strict u then Some {| u_adapter := u_adapter u; u_session := u_session u; u_lent := u_lent u; u_allocated := ptr :: u_allocated u |} else None
  | Sent ptr _ =>
      if usable strict u then
        l ← remove_one ptr (u_allocated u);
        Some {| u_adapter := u_adapter u; u_session := u_session u; u_lent := u_lent u; u_allocated := l |}
      else None
  | SessionEnded => if usable true u then Some {| u_adapter := u_adapter u; u_session := Over; u_lent := u_lent u; u_allocated := u_allocated u |} else None
  | AdapterClosed =>
      if u_adapter u then match u_session u with Open => None | s => Some {| u_adapter := false; u_session := s; u_lent := u_lent u; u_allocated := u_allocated u |} end
      else None
  end.

Definition check (strict : bool) (trace : list event) : option usage :=
  foldl (λ u e, u ← u; use strict u e) (Some unused) trace.

(** ** Auxiliary lemmas *)

Lemma remove_one_spec x l k : l ≡ₚ x :: k → ∃ l', remove_one x l = Some l' ∧ l' ≡ₚ k.
Proof.
  revert k. induction l as [|y l IH]; intros k Hl; [by apply Permutation_nil_cons in Hl|]. cbn. destruct (y =? x) eqn:E; bools.
  - exists l. split; [done|]. subst y. by apply Permutation_cons_inv in Hl.
  - assert (x ∈ l) as Hx.
    { assert (x ∈ y :: l) as Hin by (rewrite Hl; by left). by apply elem_of_cons in Hin as [->|]. }
    apply elem_of_Permutation in Hx as [k' Hk]. destruct (IH k' Hk) as (l' & -> & Hl'). exists (y :: l'). split; [done|].
    rewrite Hl'. apply (Permutation_cons_inv (a := x)). rewrite <- Hl, Hk. solve_Permutation.
Qed.

Lemma check_log strict trace e u : check strict trace = Some u → check strict (trace ++ [e]) = use strict u e.
Proof. intros Hu. unfold check. rewrite foldl_app. unfold check in Hu. by rewrite Hu. Qed.

Definition lent (p : pc) : option Z := match p with Lent _ pk | Freeing _ pk | Releasing _ pk => Some pk.1 | _ => None end.
Definition allocated (p : pc) : option Z := match p with SendCall ptr _ => Some ptr | _ => None end.
Definition reading (p : pc) : option packet :=
  match p with Lent _ pk | Freeing (Some _) pk | Releasing (Some _) pk => Some pk | _ => None end.
Definition ending (p : pc) : nat := match p with Ending => 1 | _ => 0 end.
Definition closing (p : pc) : nat := match p with Closing => 1 | _ => 0 end.
Definition busy (p : pc) : nat := match p with Idle => 0 | _ => 1 end.
Definition calling (p : pc) : nat :=
  match p with RecvCall _ | Releasing _ _ | SendAlloc _ | SendCall _ _ => 1 | _ => 0 end.

Definition sum (f : pc → nat) (a : adapter) : nat := sum_list_with f (a_threads a).

(** The phases of an adapter. *)
Definition phase (a : adapter) (u : usage) : Prop :=
  (a_closed a = false ∧ sum ending a = 0%nat ∧ sum closing a = 0%nat ∧ u_session u = Open ∧ u_adapter u = true) ∨
  (a_closed a = true ∧ sum ending a = 1%nat ∧ sum closing a = 0%nat ∧ u_session u = Open ∧ u_adapter u = true) ∨
  (a_closed a = true ∧ sum ending a = 0%nat ∧ sum closing a = 1%nat ∧ u_session u = Over ∧ u_adapter u = true) ∨
  (a_closed a = true ∧ sum ending a = 0%nat ∧ sum closing a = 0%nat ∧ u_session u = Over ∧ u_adapter u = false).

(** The packet of a read. *)
Definition read_packet (x : dest * packet * result read_error bytes) : packet := x.1.2.
(** What a read returns: the whole packet, or an error when the buffer is too small. *)
Definition fair_read (x : dest * packet * result read_error bytes) : Prop :=
  let '(d, p, r) := x in r = Ok p.2 ∨ ∃ size, d = Buffer size ∧ (size < length p.2)%nat ∧ r = Err ErrShortBuffer.

Definition given (e : event) : option packet := match e with Received ptr pkt => Some (ptr, pkt) | _ => None end.

Record wintun_inv (alone : bool) (a : adapter) : Prop := {
  inv_usage : ∃ u kept, check alone (a_trace a) = Some u ∧ phase a u ∧
    u_lent u ≡ₚ omap lent (a_threads a) ++ map fst (a_held a) ++ kept ∧ (a_closed a = false → kept = []) ∧
    u_allocated u ≡ₚ omap allocated (a_threads a);
  inv_alone : alone = true → (sum busy a <= 1)%nat ∧ ((0 < sum calling a)%nat → a_closed a = false);
  inv_packets : omap given (a_trace a) ≡ₚ map read_packet (a_reads a) ++ omap reading (a_threads a);
  inv_fair : Forall fair_read (a_reads a)
}.

Lemma sum_move f i p p' a : a_threads a !! i = Some p → (sum f (move i p' a) + f p = sum f a + f p')%nat.
Proof. apply sum_list_insert. Qed.

Lemma idle_sum f a : f Idle = 0%nat → all_idle a → sum f a = 0%nat.
Proof.
  intros Hf. unfold all_idle, sum. induction 1 as [|p l Hp Hl IH]; [done|]. cbn. by rewrite Hp, Hf, IH.
Qed.

Lemma cancel_last {A} (x : A) l k : l ++ [x] ≡ₚ x :: k → l ≡ₚ k.
Proof. intros H. apply (Permutation_cons_inv (a := x)). rewrite <- H. solve_Permutation. Qed.
Ltac cancel H := try apply cancel_last in H.

(** What the move of a goroutine does to the counts and the lists of an adapter. *)
Ltac counts i Hi HL HA HR :=
  match type of Hi with
  | a_threads ?a !! i = Some ?p =>
      match goal with
      | |- context [move i ?q a] =>
          pose proof (sum_move ending i p q a Hi); pose proof (sum_move closing i p q a Hi);
          pose proof (sum_move busy i p q a Hi); pose proof (sum_move calling i p q a Hi);
          pose proof (omap_insert lent (a_threads a) i p q Hi) as HL; pose proof (omap_insert allocated (a_threads a) i p q Hi) as HA;
          pose proof (omap_insert reading (a_threads a) i p q Hi) as HR
      end
  end; cbn [ending closing busy calling lent allocated reading option_list app] in *; rewrite ?app_nil_r in *;
  cancel HL; cancel HA; cancel HR.

Lemma calling_usable alone a u : phase a u → (alone = true → (0 < sum calling a)%nat → a_closed a = false) → (0 < sum calling a)%nat →
  usable alone u = true.
Proof.
  unfold usable. intros [(Hc & _ & _ & -> & _)|[(Hc & _ & _ & -> & _)|[(Hc & _ & _ & -> & _)|(Hc & _ & _ & -> & _)]]] Ha Hn; try done;
    destruct alone; try done; exfalso; specialize (Ha eq_refl Hn); congruence.
Qed.

Lemma sum_at f i p a : a_threads a !! i = Some p → (f p <= sum f a)%nat.
Proof. apply sum_list_lookup. Qed.

Lemma phase_same a a' u u' : a_closed a' = a_closed a → sum ending a' = sum ending a → sum closing a' = sum closing a →
  u_session u' = u_session u → u_adapter u' = u_adapter u → phase a u → phase a' u'.
Proof. unfold phase. by intros -> -> -> -> ->. Qed.

Ltac normal := unfold sum in *; cbn [a_threads a_closed a_trace a_reads a_held log returned hold wrote set_closed move] in *.

(** The part of the invariant about goroutines that run alone. *)
Ltac solve_alone Halone :=
  let Hal := fresh in let Hb := fresh in let Hc := fresh in
  intros Hal; destruct (Halone Hal) as [Hb Hc]; normal; split; [lia|intros; first [assumption | apply Hc; lia]].

(** The packets, when a goroutine takes one from the driver or returns it. *)
Ltac solve_packets Hpk HR :=
  normal; rewrite ?omap_app, ?map_app; cbn in HR |- *; rewrite ?app_nil_r in *;
  rewrite Hpk; first [by rewrite HR | rewrite <- HR; solve_Permutation | rewrite HR; solve_Permutation].

(** The usage after a step that does not end the session. *)
Ltac solve_usage Hu Huse Hl Ha HL HA :=
  normal; split; [first [done | rewrite (check_log _ _ _ _ Hu); cbn; rewrite ?Huse by lia; done]|];
  split; [eapply phase_same; [..|eassumption]; [done|normal; lia|normal; lia|done|done]|];
  split; [normal; cbn; first [by rewrite HL | by rewrite HL, Hl | rewrite Hl, <- HL; solve_Permutation]|];
  split; [normal; first [done | congruence]|normal; cbn; first [by rewrite HA | by rewrite HA, Ha | rewrite Ha, <- HA; solve_Permutation]].

Ltac solve_usage_with Hrem Hu Huse Hl Ha HL HA :=
  normal; split; [rewrite (check_log _ _ _ _ Hu); cbn; rewrite Huse by lia; by rewrite Hrem|];
  split; [eapply phase_same; [..|eassumption]; [done|normal; lia|normal; lia|done|done]|];
  split; [normal; cbn; first [by rewrite Hl | by rewrite HL]|];
  split; [normal; done|normal; cbn; first [by rewrite Ha | by rewrite HA]].

Lemma fair_received d p : fair_read (d, p, received d p).
Proof. destruct d as [size|]; [|by left]. unfold fair_read, received. destruct (Nat.ltb_spec size (length p.2)); [right; by exists size|by left]. Qed.

(** The reads of an adapter after a step: one more, or the same. *)
Ltac solve_fair Hf := normal; first [exact Hf | apply Forall_app; split; [exact Hf|apply Forall_singleton, fair_received]].

Lemma thread_inv alone i p a a' : a_threads a !! i = Some p → thread_step i a p a' → wintun_inv alone a → wintun_inv alone a'.
Proof.
  intros Hi Hs [(u & kept & Hu & Hp & Hl & Hk & Ha) Halone Hpk Hf].
  pose proof (sum_at calling _ _ _ Hi) as Hcall. pose proof (λ H, calling_usable alone a u Hp (λ e, proj2 (Halone e)) H) as Huse.
  destruct Hs; try destruct by_read as [size|]; cbn [freed] in *; counts i Hi HL HA HR; cbn [calling] in Hcall;
    (constructor; [|solve_alone Halone|solve_packets Hpk HR|solve_fair Hf]);
    try (exists u, kept; solve_usage Hu Huse Hl Ha HL HA).
  - exists {| u_adapter := u_adapter u; u_session := u_session u; u_lent := ptr :: u_lent u; u_allocated := u_allocated u |}, kept.
    solve_usage Hu Huse Hl Ha HL HA.
  - exists u, (p.1 :: kept). solve_usage Hu Huse Hl Ha HL HA.
  - exists u, (p.1 :: kept). solve_usage Hu Huse Hl Ha HL HA.
  - destruct (remove_one_spec p.1 (u_lent u) (omap lent (<[i:=Idle]> (a_threads a)) ++ map fst (a_held a) ++ kept)) as (l & Hrem & Hl').
    { rewrite Hl, <- HL. solve_Permutation. }
    exists {| u_adapter := u_adapter u; u_session := u_session u; u_lent := l; u_allocated := u_allocated u |}, kept.
    solve_usage_with Hrem Hu Huse Hl' Ha HL HA.
  - destruct (remove_one_spec p.1 (u_lent u) (omap lent (<[i:=Idle]> (a_threads a)) ++ map fst (a_held a) ++ kept)) as (l & Hrem & Hl').
    { rewrite Hl, <- HL. solve_Permutation. }
    exists {| u_adapter := u_adapter u; u_session := u_session u; u_lent := l; u_allocated := u_allocated u |}, kept.
    solve_usage_with Hrem Hu Huse Hl' Ha HL HA.
  - exists {| u_adapter := u_adapter u; u_session := u_session u; u_lent := u_lent u; u_allocated := ptr :: u_allocated u |}, kept.
    solve_usage Hu Huse Hl Ha HL HA.
  - destruct (remove_one_spec ptr (u_allocated u) (omap allocated (<[i:=Idle]> (a_threads a)))) as (l & Hrem & Hl').
    { rewrite Ha, <- HA. solve_Permutation. }
    exists {| u_adapter := u_adapter u; u_session := u_session u; u_lent := u_lent u; u_allocated := l |}, kept.
    solve_usage_with Hrem Hu Huse Hl Hl' HL HA.
  - pose proof (sum_at ending _ _ _ Hi) as He. cbn in He.
    destruct Hp as [(_ & ? & _)|[(Hc & E1 & E2 & Hs & Hd)|[(_ & ? & _)|(_ & ? & _)]]]; try lia.
    exists {| u_adapter := u_adapter u; u_session := Over; u_lent := u_lent u; u_allocated := u_allocated u |}, kept. normal.
    split; [rewrite (check_log _ _ _ _ Hu); cbn; unfold usable; by rewrite Hs|]. split; [|by rewrite HL, HA].
    right; right; left. normal. cbn. repeat split; (done || lia).
  - pose proof (sum_at closing _ _ _ Hi) as He. cbn in He.
    destruct Hp as [(_ & _ & ? & _)|[(_ & _ & ? & _)|[(Hc & E1 & E2 & Hs & Hd)|(_ & _ & ? & _)]]]; try lia.
    exists {| u_adapter := false; u_session := Over; u_lent := u_lent u; u_allocated := u_allocated u |}, kept. normal.
    split; [rewrite (check_log _ _ _ _ Hu); cbn; by rewrite Hd, Hs|]. split; [|by rewrite HL, HA].
    right; right; right. normal. cbn. repeat split; (done || lia).
Qed.

(** An operation begins: the goroutine leaves the idle state, with a packet that
    the users held, or without. *)
Lemma begin_inv alone i q l a : a_threads a !! i = Some Idle → (alone = true → all_idle a) → busy q = 1%nat → calling q = 0%nat →
  ending q = 0%nat → closing q = 0%nat → map fst (a_held a) ≡ₚ option_list (lent q) ++ map fst l → allocated q = None → reading q = None →
  wintun_inv alone a → wintun_inv alone (hold l (move i q a)).
Proof.
  intros Hi Hall Eb Ec Ee Ecl El Ea Er [(u & kept & Hu & Hp & Hl & Hk & Ha) Halone Hpk Hf].
  pose proof (sum_move ending i _ q a Hi). pose proof (sum_move closing i _ q a Hi). pose proof (sum_move busy i _ q a Hi).
  pose proof (sum_move calling i _ q a Hi). pose proof (omap_insert lent (a_threads a) i _ q Hi) as HL.
  pose proof (omap_insert allocated (a_threads a) i _ q Hi) as HA. pose proof (omap_insert reading (a_threads a) i _ q Hi) as HR.
  rewrite Eb, Ec, Ee, Ecl, Ea, Er in *. cbn [ending closing busy calling lent allocated reading option_list app] in *. rewrite ?app_nil_r in *.
  constructor.
  - exists u, kept. normal. split; [done|]. split; [eapply phase_same; [..|exact Hp]; [done|normal; lia|normal; lia|done|done]|].
    split; [rewrite HL, Hl, El; change (option_list (lent Idle)) with (@nil Z); solve_Permutation|]. split; [done|by rewrite HA].
  - intros Hal. pose proof (idle_sum busy a eq_refl (Hall Hal)). pose proof (idle_sum calling a eq_refl (Hall Hal)). normal. split; [lia|]. lia.
  - normal. by rewrite HR.
  - exact Hf.
Qed.

Lemma adapter_close_inv alone i a : a_threads a !! i = Some Idle → (alone = true → all_idle a) → a_closed a = false →
  wintun_inv alone a → wintun_inv alone (set_closed (move i Ending a)).
Proof.
  intros Hi Hall Hc [(u & kept & Hu & Hp & Hl & Hk & Ha) Halone Hpk Hf].
  pose proof (sum_move ending i _ Ending a Hi). pose proof (sum_move closing i _ Ending a Hi). pose proof (sum_move busy i _ Ending a Hi).
  pose proof (sum_move calling i _ Ending a Hi). pose proof (omap_insert lent (a_threads a) i _ Ending Hi) as HL.
  pose proof (omap_insert allocated (a_threads a) i _ Ending Hi) as HA. pose proof (omap_insert reading (a_threads a) i _ Ending Hi) as HR.
  cbn [ending closing busy calling lent allocated reading option_list app] in *. rewrite ?app_nil_r in *. constructor.
  - exists u, kept. normal. split; [done|]. split; [|split; [by rewrite HL|split; [done|by rewrite HA]]].
    destruct Hp as [(_ & E1 & E2 & Es & Ed)|[(? & _)|[(? & _)|(? & _)]]]; [|congruence..].
    right; left. normal. repeat split; (done || lia).
  - intros Hal. pose proof (idle_sum busy a eq_refl (Hall Hal)). pose proof (idle_sum calling a eq_refl (Hall Hal)). normal. split; [lia|lia].
  - normal. by rewrite HR.
  - exact Hf.
Qed.

Lemma wintun_step_inv alone a a' : step alone true a a' → wintun_inv alone a → wintun_inv alone a'.
Proof.
  intros [i p a1 Hi Hs|i d Hi Hall|i p l Hi Hall Hh|i p r Hi Hall Ho|i data Hi Hall|i Hi Hall Hc|].
  - by eapply thread_inv.
  - by apply (begin_inv _ i (RecvCheck d) (a_held a) a).
  - apply begin_inv; try done. by rewrite Hh.
  - done.
  - by apply (begin_inv _ i (SendCheck data) (a_held a) a).
  - by apply adapter_close_inv.
  - done.
Qed.

Lemma omap_idle {B} (f : pc → option B) n : f Idle = None → omap f (replicate n Idle) = [].
Proof. intros Hf. induction n as [|n IH]; [done|]. cbn. by rewrite Hf. Qed.
Lemma sum_idle f n : f Idle = 0%nat → sum_list_with f (replicate n Idle) = 0%nat.
Proof. intros Hf. induction n as [|n IH]; [done|]. cbn. by rewrite Hf, IH. Qed.

Lemma opened_calls name tunnelType : x00 ∉ name → x00 ∉ tunnelType →
  NewWintunAdapter true true true name tunnelType =
  (Ok {| wa_name := name; wa_session := true |}, [Created name tunnelType; Started defaultRingCapacity; ReadWaitEvent]).
Proof. intros Hn Ht. unfold NewWintunAdapter. cbn [negb]. by rewrite !bool_decide_eq_false_2. Qed.

Lemma reachable_wintun alone n name tunnelType a : reachable alone true n name tunnelType a → wintun_inv alone a.
Proof.
  induction 1 as [Hn Ht|a a' Hr IH Hs]; [|by eapply wintun_step_inv]. unfold opened. rewrite opened_calls by done. constructor; normal.
  - exists {| u_adapter := true; u_session := Open; u_lent := []; u_allocated := [] |}, []. rewrite !omap_idle by done.
    repeat split; try done. left. normal. by rewrite !sum_idle.
  - intros _. rewrite !sum_idle by done. split; [lia|lia].
  - by rewrite !omap_idle.
  - constructor.
Qed.

(** C15: if the users of [ReceivePacket] release each packet at most once, then
    every packet taken from the driver is given back at most once and only while it is
    lent, and while the adapter is open the packets lent are those that a read is
    still at and those that users hold; every packet allocated for sending is sent
    once; the session ends once and before the adapter is closed. Every packet the
    driver gave is that of one read that has ended, or of one under way; a read that
    has ended returned the whole packet, or was a [Read] whose buffer is too small
    for it and returned the error. When the operations do not overlap, no call is
    made on a session that has ended. *)
Theorem wintun_protocol alone n name tunnelType a : reachable alone true n name tunnelType a →
  (∃ u, check alone (a_trace a) = Some u ∧ omap lent (a_threads a) ++ map fst (a_held a) ⊆+ u_lent u ∧
    (a_closed a = false → u_lent u ≡ₚ omap lent (a_threads a) ++ map fst (a_held a)) ∧ u_allocated u ≡ₚ omap allocated (a_threads a)) ∧
  omap given (a_trace a) ≡ₚ map read_packet (a_reads a) ++ omap reading (a_threads a) ∧
  ∀ d p r, (d, p, r) ∈ a_reads a → r = Ok p.2 ∨ ∃ size, d = Buffer size ∧ (size < length p.2)%nat ∧ r = Err ErrShortBuffer.
Proof.
  intros Hr. destruct (reachable_wintun _ _ _ _ _ Hr) as [(u & kept & Hu & Hp & Hl & Hk & Ha) _ Hpk Hf]. split; [|split; [done|]].
  - exists u. split; [done|]. split; [rewrite Hl, app_assoc; by apply submseteq_inserts_r|]. split; [|done].
    intros Hc. by rewrite Hl, (Hk Hc), app_nil_r.
  - intros d p r Hx. rewrite Forall_forall in Hf. exact (Hf _ Hx).
Qed.

(** The construction leaves nothing open when it fails, and an adapter with a
    session when it succeeds. *)
Theorem new_adapter loaded created started name tunnelType :
  let '(r, calls) := NewWintunAdapter loaded created started name tunnelType in
  ∃ u, check true calls = Some u ∧
    match r with
    | Ok a => wa_name a = name ∧ wa_session a = true ∧ u_adapter u = true ∧ u_session u = Open
    | Err _ => u_adapter u = false ∧ u_session u = NoSession
    end.
Proof.
  unfold NewWintunAdapter. destruct loaded; [|by exists unused]. cbn [negb].
  destruct (bool_decide (x00 ∈ name)); [by exists unused|]. destruct (bool_decide (x00 ∈ tunnelType)); [by exists unused|].
  destruct created; [|by exists unused]. cbn [negb]. destruct started; cbn; eauto 10.
Qed.

(** [Close] while a read runs: the session ends between the check of the flag
    and the call, which is made on a session that is gone. *)
Theorem close_races_read name tunnelType : x00 ∉ name → x00 ∉ tunnelType →
  ∃ a, reachable false true 2 name tunnelType a ∧ check true (a_trace a) = None.
Proof.
  intros Hn Ht. pose proof (reach_open false true 2 name tunnelType Hn Ht) as H0. unfold opened in H0. rewrite opened_calls in H0 by done.
  eapply reach_step in H0; [|by apply (step_read _ _ _ 0 Direct)].
  eapply reach_step in H0; [|by eapply (step_thread _ _ _ 0), step_recv_open].
  eapply reach_step in H0; [|by apply (step_close _ _ _ 1)].
  eapply reach_step in H0; [|by eapply (step_thread _ _ _ 1), step_end].
  eapply reach_step in H0; [|by eapply (step_thread _ _ _ 0), step_recv_empty].
  eexists. split; [exact H0|]. reflexivity.
Qed.

(** A user that releases a packet twice makes the driver take back what it has
    not lent. *)
Theorem double_release name tunnelType : x00 ∉ name → x00 ∉ tunnelType →
  ∃ a, reachable true false 1 name tunnelType a ∧ check false (a_trace a) = None.
Proof.
  intros Hn Ht. pose proof (reach_open true false 1 name tunnelType Hn Ht) as H0. unfold opened in H0. rewrite opened_calls in H0 by done.
  eapply reach_step in H0; [|apply (step_read _ _ _ 0 Direct); [done|by repeat constructor]].
  eapply reach_step in H0; [|by eapply (step_thread _ _ _ 0), step_recv_open].
  eapply reach_step in H0; [|by eapply (step_thread _ _ _ 0), (step_recv _ _ _ 7 [x45])].
  eapply reach_step in H0; [|by eapply (step_thread _ _ _ 0), step_hand_over].
  eapply reach_step in H0; [|apply (step_free _ _ _ 0 (7, [x45]) []); [done|by repeat constructor|done]].
  eapply reach_step in H0; [|by eapply (step_thread _ _ _ 0), step_give_back].
  eapply reach_step in H0; [|by eapply (step_thread _ _ _ 0), step_release].
  eapply reach_step in H0; [|eapply (step_free_again _ _ _ 0 (7, [x45])); [done|by repeat constructor|done|apply list_elem_of_here]].
  eapply reach_step in H0; [|by eapply (step_thread _ _ _ 0), step_give_back].
  eapply reach_step in H0; [|by eapply (step_thread _ _ _ 0), step_release].
  eexists. split; [exact H0|]. reflexivity.
Qed.

(** A write to a closed adapter reports success and sends nothing. *)
Lemma write_after_close i data a a' : a_closed a = true → thread_step i a (SendCheck data) a' →
  a_writes a' = a_writes a ++ [(data, true)] ∧ a_trace a' = a_trace a.
Proof. intros Hc Hs. inversion Hs; subst; [done|congruence]. Qed.

(** A packet that does not fit the buffer of a read is lost. *)
Lemma short_buffer_drops n ptr pkt : (n < length pkt)%nat → received (Buffer n) (ptr, pkt) = Err ErrShortBuffer.
Proof. intros Hn. unfold received. cbn [snd]. by rewrite (proj2 (Nat.ltb_lt _ _)). Qed.

End wintun.

(** ** Linux *)

Section posix.

(** A system call that gives a descriptor, and one that fails or works. *)
Inductive posix_error :=
  | ErrLinuxTunOpenFailed | ErrLinuxIoctlFailed
  | ErrDarwinUtunFailed | ErrInvalidUtunName.

Definition iffTun : Z := 0x0001.
Definition iffNoPI : Z := 0x1000.

Record ifreq := { ifr_Name : bytes; ifr_Flags : Z }.

(** [copy(ifr.Name[:15], devName)] into an array of zeros. *)
Definition interface_name (devName : bytes) : bytes := take 15 devName ++ replicate (16 - length (take 15 devName)) x00.

Definition request (devName : bytes) : ifreq := {| ifr_Name := interface_name devName; ifr_Flags := Z.lor iffTun iffNoPI |}.

(** An adapter: its descriptor and its name. *)
Record posix_adapter := { pa_fd : Z; pa_name : bytes }.

(** The adapter and the descriptors closed on the way; [open] and [ioctl] are
    the system calls, the second one on the request it may change. *)
Definition NewLinuxAdapter (open : option Z) (ioctl : ifreq → option ifreq) (devName : bytes) : result posix_error posix_adapter * list Z :=
  match open with
  | None => (Err ErrLinuxTunOpenFailed, [])
  | Some file =>
      match ioctl (request devName) with
      | None => (Err ErrLinuxIoctlFailed, [file])
      | Some ifr => (Ok {| pa_fd := file; pa_name := cStringToGoString (ifr_Name ifr) |}, [])
      end
  end.

(** ** macOS *)

Definition utunControlName : bytes := str "com.apple.net.utun_control".

Record sockaddrCtl := { ScLen : Z; ScFamily : Z; ScSysAddr : Z; ScID : Z; ScUnit : Z }.

Definition CutPrefix (s p : bytes) : bytes * bool := if HasPrefix s p then (drop (length p) s, true) else (s, false).

(** The number of the unit, as the conversion to [uint32] leaves it. *)
Definition unit_of (devName : bytes) : result posix_error Z :=
  if bytes_eqb devName [] then Ok 0
  else
    let '(after, found) := CutPrefix devName (str "utun") in
    if negb found then Err ErrInvalidUtunName
    else match Atoi after with
         | (parsedUnit, None) => Ok (wrap64 (parsedUnit + 1) mod 2 ^ 32)
         | (_, Some _) => Err ErrInvalidUtunName
         end.

(** The system calls: [socket], the request for the identifier of the control,
    [connect], the request for the name, and [SetNonblock]. *)
Record darwin_calls := {
  dc_socket : option Z;
  dc_info : bytes → option Z;
  dc_connect : sockaddrCtl → bool;
  dc_ifname : option bytes;
  dc_nonblock : bool
}.

Definition NewDarwinAdapter (k : darwin_calls) (devName : bytes) : result posix_error posix_adapter * list Z :=
  match unit_of devName with
  | Err e => (Err e, [])
  | Ok unit =>
      match dc_socket k with
      | None => (Err ErrDarwinUtunFailed, [])
      | Some fd =>
          match dc_info k (utunControlName ++ replicate (96 - length utunControlName) x00) with
          | None => (Err ErrDarwinUtunFailed, [fd])
          | Some id =>
              if negb (dc_connect k {| ScLen := 32; ScFamily := 32; ScSysAddr := 2; ScID := id; ScUnit := unit |})
              then (Err ErrDarwinUtunFailed, [fd])
              else match dc_ifname k with
                   | None => (Err ErrDarwinUtunFailed, [fd])
                   | Some ifNameBuf =>
                       if negb (dc_nonblock k) then (Err ErrDarwinUtunFailed, [fd])
                       else (Ok {| pa_fd := fd; pa_name := cStringToGoString ifNameBuf |}, [])
                   end
          end
      end
  end.

(** On Linux the request names the first fifteen bytes of the name; a kernel
    that keeps the request gives an adapter of that name, without what follows a
    zero byte. The device is closed when its registration fails. *)
Theorem linux_adapter open ioctl devName :
  match NewLinuxAdapter open ioctl devName with
  | (Ok a, closed) => Some (pa_fd a) = open ∧ closed = [] ∧ x00 ∉ pa_name a ∧
      (ioctl (request devName) = Some (request devName) → x00 ∉ devName → pa_name a = take 15 devName)
  | (Err _, closed) => closed = option_list open
  end.
Proof.
  unfold NewLinuxAdapter. destruct open as [file|]; [|done]. destruct (ioctl (request devName)) as [ifr|]; [|done]. cbn.
  repeat split; [apply cString_no_nul|]. intros [= ->] Hd. apply cString_padded. intros Hin. apply Hd.
  rewrite <- (take_drop 15 devName). apply elem_of_app. by left.
Qed.

(** On macOS a name of [utun] and a number asks for that unit; every failure
    after the socket was made closes it. *)
Theorem darwin_unit n : 0 <= n < 2 ^ 32 - 1 → unit_of (str "utun" ++ digits n) = Ok (n + 1).
Proof.
  intros Hn. unfold unit_of. change (bytes_eqb (str "utun" ++ digits n) []) with false. cbv iota.
  unfold CutPrefix. rewrite HasPrefix_app, drop_app_exact. cbn [negb]. unfold Atoi. rewrite ParseInt_digits by lia.
  unfold wrap64. rewrite (Z.mod_small (n + 1 + 2 ^ 63)) by lia. f_equal. rewrite Z.mod_small; lia.
Qed.

Theorem darwin_closes k devName : match NewDarwinAdapter k devName with
  | (Ok a, closed) => Some (pa_fd a) = dc_socket k ∧ closed = [] ∧ x00 ∉ pa_name a
  | (Err ErrInvalidUtunName, closed) => closed = []
  | (Err _, closed) => closed = option_list (dc_socket k)
  end.
Proof.
  unfold NewDarwinAdapter. assert (∀ e, unit_of devName = Err e → e = ErrInvalidUtunName) as He.
  { intros e. unfold unit_of. repeat case_match; congruence. }
  destruct (unit_of devName) as [unit|e]; [|by rewrite (He e eq_refl)]. destruct (dc_socket k) as [fd|]; [|done].
  destruct (dc_info k _); [|done]. destruct (dc_connect k _); [|done]. destruct (dc_ifname k); [|done]. cbn [negb].
  destruct (dc_nonblock k); [|done]. cbn. repeat split. apply cString_no_nul.
Qed.

(** Names that are not [utun] and digits are accepted, and a number that does
    not fit 32 bits asks for another unit or for any. *)
Lemma darwin_names_accepted : unit_of (str "utun-1") = Ok 0 ∧ unit_of (str "utun+5") = Ok 6 ∧
  unit_of (str "utun4294967295") = Ok 0 ∧ unit_of (str "utun4294967296") = Ok 1.
Proof. by vm_compute. Qed.

End posix.

Module TunSample.
Definition name : bytes := str "aoni".

Lemma name_fine : x00 ∉ name.
Proof. apply (bool_decide_unpack _). vm_compute. exact I. Qed.

Lemma opened_reachable : reachable true true 1 name name (opened 1 name name).
Proof. apply reach_open; apply name_fine. Qed.

(** A write, up to the allocation. *)
Definition allocating : adapter := log (Allocated 7 2) (move 0 (SendCall 7 (str "ip")) (move 0 (SendAlloc (str "ip")) (move 0 (SendCheck (str "ip")) (opened 1 name name)))).

Lemma wintun_protocol_witness : ∃ u, check true (a_trace allocating) = Some u ∧ u_allocated u ≡ₚ [7].
Proof.
  destruct (wintun_protocol true 1 name name allocating) as [(u & Hu & _ & _ & Ha) _].
  - pose proof opened_reachable as H0.
    eapply reach_step in H0; [|apply (step_write _ _ _ 0 (str "ip")); [done|intros _; by repeat constructor]].
    eapply reach_step in H0; [|by eapply (step_thread _ _ _ 0), step_send_open].
    eapply reach_step in H0; [|by eapply (step_thread _ _ _ 0), (step_alloc _ _ _ 7)]. exact H0.
  - exists u. split; [exact Hu|exact Ha].
Defined.

Lemma double_release_witness : ∃ a, reachable true false 1 name name a ∧ check false (a_trace a) = None.
Proof. apply (double_release name name); apply name_fine. Defined.

Lemma close_races_read_witness : ∃ a, reachable false true 2 name name a ∧ check true (a_trace a) = None.
Proof. apply (close_races_read name name); apply name_fine. Defined.

Lemma darwin_unit_witness : unit_of (str "utun" ++ digits 7) = Ok 8.
Proof. apply (darwin_unit 7). lia. Defined.
End TunSample.
