(* ===== verification/GeoIP.v ===== *)
(** * GeoIP lookups (src/geoip/geoip.go)

    The choice between the fields of a record. The database reader is an
    argument: how it is opened, what it decodes for an address, how it closes. *)

From S2P Require Import Prelude GoLib.

#[local] Open Scope Z_scope.

(** The fields that are decoded, of the empty value where the database has none. *)
Record Record_ := {
  ISOCode : bytes;
  r_ASN : Z;
  ASNOrg : bytes;
  AutonomousSystemNum : Z;
  AutonomousSystemOrg : bytes;
  r_ISP : bytes;
  UserType : bytes;
  IsHostingProvider : bool
}.

(** The reader of the maxminddb module. *)
Class MMDB := {
  Reader : Type;
  Addr : Type;
  reader_error : Type;
  reader_Open : bytes → result reader_error Reader;
  reader_OpenBytes : bytes → result reader_error Reader;
  reader_Decode : Reader → Addr → result reader_error Record_;
  reader_Close : Reader → option reader_error
}.

Section db.
Context `{MMDB}.

Record Metadata := { Country : bytes; ASN : Z; ISP : bytes; UsageType : bytes }.

(** A [*DB]: nil, or a database, whose reader may be nil. *)
Record DB := { reader : option Reader }.

Definition Open (path : bytes) : result reader_error DB := r ← reader_Open path; Ok {| reader := Some r |}.
Definition OpenBytes (b : bytes) : result reader_error DB := r ← reader_OpenBytes b; Ok {| reader := Some r |}.

Definition usage_of (r : Record_) : bytes :=
  if IsHostingProvider r || bytes_eqb (UserType r) (str "hosting") || bytes_eqb (UserType r) (str "business") then str "DataCenter"
  else if bytes_eqb (UserType r) (str "cellular") then str "Mobile" else str "Residential".

Definition metadata (r : Record_) : Metadata :=
  let asn := if r_ASN r =? 0 then AutonomousSystemNum r else r_ASN r in
  let isp := r_ISP r in
  let isp := if bytes_eqb isp [] then ASNOrg r else isp in
  let isp := if bytes_eqb isp [] then AutonomousSystemOrg r else isp in
  {| Country := ISOCode r; ASN := asn; ISP := isp; UsageType := usage_of r |}.

(** A nil result without an error for a nil database. *)
Definition Lookup (db : option DB) (ip : Addr) : result reader_error (option Metadata) :=
  match db ≫= reader with
  | None => Ok None
  | Some r => result ← reader_Decode r ip; Ok (Some (metadata result))
  end.

Definition Close (db : option DB) : option reader_error := match db ≫= reader with Some r => reader_Close r | None => None end.

(** The first of several texts that is not empty. *)
Definition first_text (l : list bytes) : bytes := default [] (List.find (λ s, negb (bytes_eqb s [])) l).

Lemma isp_first r : ISP (metadata r) = first_text [r_ISP r; ASNOrg r; AutonomousSystemOrg r].
Proof.
  unfold metadata, first_text. cbn [ISP List.find]. destruct (bytes_eqb (r_ISP r) []) eqn:E; cbn [negb default]; [|by rewrite E].
  destruct (bytes_eqb (ASNOrg r) []) eqn:E'; cbn [negb default]; [|done].
  destruct (bytes_eqb (AutonomousSystemOrg r) []) eqn:E''; cbn; [by bools|done].
Qed.

(** An opened database answers an address the reader decodes with the country
    of the record, its first number that is not zero, its first name that is
    not empty, and the class of a data centre, of a mobile network or, for
    everything else, of a residence; the errors of the reader are passed on. *)
Theorem lookup_opened path db ip : Open path = Ok db → ∃ rd, reader_Open path = Ok rd ∧
  match reader_Decode rd ip with
  | Err e => Lookup (Some db) ip = Err e
  | Ok r => ∃ m, Lookup (Some db) ip = Ok (Some m) ∧ Country m = ISOCode r ∧
      (r_ASN r ≠ 0 → ASN m = r_ASN r) ∧ (r_ASN r = 0 → ASN m = AutonomousSystemNum r) ∧
      ISP m = first_text [r_ISP r; ASNOrg r; AutonomousSystemOrg r] ∧
      (UsageType m = str "DataCenter" ↔ IsHostingProvider r = true ∨ UserType r = str "hosting" ∨ UserType r = str "business") ∧
      UsageType m ∈ [str "DataCenter"; str "Mobile"; str "Residential"]
  end.
Proof.
  unfold Open. destruct (reader_Open path) as [rd|e] eqn:Eo; [|done]. intros [= <-]. exists rd. split; [done|].
  unfold Lookup. cbn [mbind option_bind reader]. destruct (reader_Decode rd ip) as [r|e]; [|done]. cbn [mbind result_bind].
  exists (metadata r). split; [done|]. split; [done|]. split; [|split; [|split; [apply isp_first|]]].
  - intros Hr. cbn. destruct (r_ASN r =? 0) eqn:E; bools; [done|done].
  - intros Hr. cbn. by rewrite Hr.
  - cbn [metadata UsageType]. unfold usage_of.
    assert (IsHostingProvider r || bytes_eqb (UserType r) (str "hosting") || bytes_eqb (UserType r) (str "business") = true ↔
      IsHostingProvider r = true ∨ UserType r = str "hosting" ∨ UserType r = str "business") as <-.
    { rewrite !orb_true_iff, !bytes_eqb_true. tauto. }
    destruct (_ || _); [split; [done|by left]|]. destruct (bytes_eqb _ _); (split; [done|]); [by right; left|by right; right; left].
Qed.
End db.
